(* ===== verification/_CoqProject ===== *)
-Q . S2P
Prelude.v
Text.v
Build.v
Net.v
Secrets.v
Task.v
Pool.v
PoolFacts.v
PoolProps.v
PoolRequest.v
PoolSpec.v
Semaphore.v
Queue.v
Config.v
ConfigProps.v
Json.v
Classify.v
Runtime.v
App.v
Http.v
Sse.v
AuditLog.v
Stream.v
Proxy.v
ProxyProps.v
Requests.v
Models.v
Reload.v
Reloader.v
Usage.v
UsageMonitor.v
Routes.v
Traffic.v
System.v
AuditTrail.v
PoolHistory.v
Server.v
Lifecycle.v
Shutdown.v
LoadSse.v
LoadStats.v
LoadCli.v
LoadRunner.v
LoadSlow.v
