(* ===== verification/Prelude.v ===== *)
(** * A verification library for orihsus

    orihsus is an HTTP gateway that forwards OpenAI- and Anthropic-style
    requests to one upstream with keys taken from a rotating pool.  A request
    is authenticated, admitted by a bounded queue, given a snapshot of the
    runtime together with its own view of the key pool, buffered under a global
    byte budget, checked against the model list, and tried with at most two
    keys; the answer is streamed back while a side-band parser reads its token
    usage, the pool is told how the attempt ended, and one audit record is
    written.  Around the requests run a configuration reloader, a model-list
    poller, a usage poller, the audit writer thread and the listener.  This
    library translates that program into executable Rocq definitions, file by
    file, and proves what makes it correct; it also covers the build script and
    the load generator under [src/tools/loadtest/].  Paths below are under
    [src/src/].

    ** How the code is modelled

    - State is explicit.  A struct is a [Record] with the code's fields, an
      enum an [Inductive] with its constructors.  An operation that holds a
      lock is one function of the state.
    - A handler that runs among other tasks is a [task] ([Task]): a sequence of
      operations on the shared state, each atomic, with what dropping the
      future does where it is suspended and with guards ([holding]) for what
      [Drop] gives back.  [acts] interleaves any number of them with each other,
      with lost clients and with the rest of the program; [follows] is the
      program logic in which promises about all interleavings are proved.
    - Background tasks and threads are step relations.
    - Fallible code returns [result E A] of this file, with stdpp's monad
      notations; [None] in an operation of the pool, the queue, the assembly
      or an attempt, and [Panics] of a task, is a panic (the release profile
      aborts on one), so a theorem that excludes it says that it cannot happen.
    - Machine integers are [Z] with their wrap-around or saturation written
      out ([wrap32], [wrap64], [u64_saturating_add]).  Durations and
      instants are nanoseconds with Rust's bounds ([Dur], [Inst]).
    - Libraries are parameters: the JSON value type and header map ([Json]),
      SHA-256 ([Secrets]), constant-time equality ([Http]), tokio's semaphore
      ([Semaphore]), the file system ([AuditLog], [Config.load]), date parsers, URL
      joining, the network.  What the code relies on is a class of laws with a
      concrete instance; witnesses instantiate every hypothesis.
    - The clock is an argument of every operation that reads it.

    ** Files

    - [Prelude]: results, integer widths, durations and instants, deadlines
      ([later_than], [deadline_le]), the hint database [orihsus] and the
      tactics [break_goal], [break_in], [bool_to_prop], [width_lia].
    - [Build] (build.rs): the commit that [--version] shows.
    - [Text], [Net]: the parts of the standard library the code uses on bytes,
      UTF-8, strings and IP addresses.  [Json]: interfaces of the JSON and HTTP
      crates with toy instances for the examples.
    - [Secrets] (config.rs, audit.rs, pool.rs): redaction, fingerprints,
      displayed suffixes.
    - [Task]: tasks on a shared state, their interleavings, and the logic that
      proves invariants of every interleaving from one walk through a handler.
    - [Pool] (pool.rs): data and operations of the key pool.  [PoolFacts]: the
      view of the pool through [key_state] and what each report does to it.
      [PoolProps]: reachable pools are well formed ([reachable_pool_wf]),
      cooldowns are never shortened, nothing panics, backoff in closed form,
      selection is first fit, a half-open key has one probe at a time and is
      never lost.  [PoolRequest]: the attempts of one request, the task [next] and
      its termination among other tasks, the order of reports, hot key
      replacement, jitter, status.  [PoolSpec]: an abstract pool, a map from
      fingerprints to what a caller can observe, which the pool refines for every
      history of calls.
    - [Semaphore]: tokio's fair semaphore as an interface, the line of waiters
      with their tickets, and what each of its operations balances.
    - [Queue] (queue.rs, [BodyBudget] of gateway.rs): the admission queue and the
      body budget as tasks.  Bounds and conservation with any number of callers
      that come, wait, time out, vanish and leave; first in, first out;
      refusals; draining after [close].
    - [Config], [ConfigProps] (config.rs): every check of [Config::try_from];
      a configuration that validates satisfies [config_valid]; errors never
      echo a value; [load] returns the trace of its calls to the file system, in
      which nothing is read before it was checked to be a private regular file.
    - [Classify] (gateway.rs): 429 bodies, reset phrases, Retry-After.
    - [Runtime] ([RuntimeStore] of gateway.rs): the lock around snapshot and
      pool; a request sees an old or a new generation, never a mix.
    - [App] (app.rs): assembly of a validated configuration never panics and builds
      what was configured, setting by setting ([as_configured]).
    - [Http] (gateway.rs): credentials, request identifiers, header filters.
    - [Sse] (gateway.rs): the incremental event parser refines a specification
      that sees the whole stream; token counts are consistent.
    - [AuditLog] (audit.rs): the bounded queue, its thread, reopening, shutdown.
    - [Stream] (gateway.rs): bounded error bodies, commit after the first
      event, and the pump, which hands over exactly what the upstream sent and
      gives up after a silence of the idle bound, no sooner and not much later.
    - [Proxy] (gateway.rs): the request handler as a task.  [ProxyProps]: the
      attempt loop ends, and the pool is told exactly what each attempt means.
      [Requests]: what a request takes and gives back on every path, the record
      it writes, what stands behind a forwarded answer, and that it neither
      panics nor runs for ever.
    - [Routes] (gateway.rs): the route table, probes, model list and status.
      [Traffic]: any number of requests at once; permits and records are
      accounted for in every reachable state, and everybody gets an answer.
    - [System]: from the configuration to the answers.  A gateway assembled from
      a configuration that loads answers every request, whatever else happens.
      [PoolHistory]: its pool only ever goes through its own operations and so
      stays well formed.  [AuditTrail]: the records of the answered requests are
      in the log files, in the queue or counted as dropped.
    - [Models] (models.rs), [Reload] (hot_reload.rs and the apply callback of
      main.rs), [Usage] (usage.rs): the operations of the background tasks.
    - [Reloader] (hot_reload.rs): watcher thread, bridge channel, trigger and
      worker as one step relation; no change of the file, as the watcher library
      documents its reports ([reported]), is ever lost.
    - [UsageMonitor] (usage.rs): the polling task with its watched keys, the
      history thread with its files, shutdown and drop as one step relation; it
      comes to rest with the current keys polled or completely shut down, and
      every record is written, queued or counted.
    - [Server] (server.rs): the accept loop as a state machine; the connection
      cap, survival of failures, the drain that ends [drain_timeout] after the
      signal.
    - [Lifecycle] (main.rs): command line, start, shutdown order, exit codes.
      [Shutdown]: its actions carried out on the gateway; a clean exit leaves the
      line of every answered request in the log.
    - [LoadSse], [LoadStats], [LoadCli], [LoadRunner], [LoadSlow] (the load
      generator: sse.rs, stats.rs, cli.rs, runner.rs, slowloris.rs and main.rs):
      the event decoder and its inverse; nearest-rank percentiles computed with
      floating-point indices; the command line, whose accepted arguments are in
      their ranges and can be printed and read back; the workers, which send
      exactly the requests asked for and never more at once; slow connections.

    The clients use the providers through their operations and lemmas:
    [Runtime] and [Proxy] call [Pool], [Proxy] calls [Queue], [Http],
    [Stream], [Classify] and [AuditLog] (through [AuditSink]), [Stream] feeds
    [Sse], [Reload] drives [Models] and [Runtime], [Usage] reports to [Pool],
    [Reloader] runs [Reload], [UsageMonitor] runs [Usage], [System] puts
    [Config], [App] and [Traffic] together, [Shutdown] puts [Lifecycle] on top,
    [LoadRunner] calls the other parts of the load generator.

    ** Fuel and bounds

    [next] gets a round for every nanosecond up to its deadline and one more
    ([next_fuel], a binary number, so that it still computes): [next_terminates]
    shows that it always ends, whatever other tasks do to the pool, because a
    round that does not answer sleeps until a later instant that is not beyond
    the deadline. [proxy_loop] gets one turn per permitted attempt and one more
    ([proxy_fuel]): each turn uses up a key or ends ([proxy_loop_answers]). A
    request runs at most [request_operations] operations ([request_alive]), so
    [gateway_answers] needs no fuel. [backoff_loop] has the code's own bound of
    20. [utf8_chunks_fuel] and the decimal printers get the length of their
    input. The audit thread's [write_loop] runs as many turns as there are
    queued commands ([shutdown_drains]). The step relations need no fuel: [cost]
    of [Reloader] and of [UsageMonitor] bounds the steps that are left when
    nothing happens outside, and [counted_run] bounds the steps of a run.
    [monitor_shutdown] of [Models] gets the four steps it needs. Times must be
    real instants ([real_instant]): far enough below the largest [Instant] for
    the clamped cooldowns to be added.

    ** What is not modelled

    HTTP parsing and hyper's connection handling, TLS, the YAML and JSON
    parsers, the file watcher, signal installation and the runtime's scheduling
    are outside: their results are arguments or interfaces. The wait of a
    request for its body is a single operation, and so is an attempt: the
    exchange with the upstream and the report to the pool; a body is forwarded
    in one operation, because in between the task touches nothing that others
    see. The setters of HTTP clients ([build_upstream_client], the fetchers'
    [new], [build_client] of the load generator) only hand options to a library
    and are left out, and so are constructors and seams that only tests use
    ([GatewayState::new], [for_test_endpoint]). The percentages of the load
    generator are exact ([percentiles_nearest_rank]) up to 2^40 values.

    ** Plan

    Next: the connections of [Server] as the source of the requests of [Traffic],
    so that the connection cap bounds the tasks; the refinement of the abstract
    pool ([PoolSpec]) used in the theorems about requests. *)
From stdpp Require Export base option list list_numbers gmap strings numbers sorting.
From Stdlib Require Export ZArith Lia.
From Stdlib Require Import Ascii.

#[export] Set Default Goal Selector "!".

(** ** Scope *)

#[global] Open Scope Z_scope.

(** ** Rust's [Result] *)

(** [Result<A, E>], with the error type first so that [result E] is a monad. *)
Inductive result (E A : Type) : Type :=
| Ok (a : A)
| Err (e : E).
Arguments Ok {E A} a.
Arguments Err {E A} e.

#[global] Instance result_ret E : MRet (result E) := fun A a => Ok a.
#[global] Instance result_bind E : MBind (result E) :=
  fun A B k m => match m with Ok a => k a | Err e => Err e end.
#[global] Instance result_fmap E : FMap (result E) :=
  fun A B f m => match m with Ok a => Ok (f a) | Err e => Err e end.

(** [if cond { return Err(e) }] *)
Definition bail_if {E} (cond : bool) (e : E) : result E unit :=
  if cond then Err e else Ok tt.

(** [o.ok_or(e)] *)
Definition ok_or {E A} (o : option A) (e : E) : result E A :=
  match o with Some a => Ok a | None => Err e end.

(** [r.map_err(f)] *)
Definition map_err {E F A} (f : E -> F) (r : result E A) : result F A :=
  match r with Ok a => Ok a | Err e => Err (f e) end.

(** [r.is_ok()] *)
Definition is_ok {E A} (r : result E A) : bool :=
  match r with Ok _ => true | Err _ => false end.

(** A left fold in the error monad: [for x in xs { acc = f(acc, x)?; }]. *)
Fixpoint try_fold {E A B} (f : B -> A -> result E B) (acc : B) (xs : list A)
  : result E B :=
  match xs with
  | [] => Ok acc
  | x :: rest => match f acc x with
                 | Ok acc' => try_fold f acc' rest
                 | Err e => Err e
                 end
  end.

(** ** Machine integers *)

Definition u8_max : Z := 255.
Definition u16_max : Z := 65535.
Definition u32_max : Z := 4294967295.
Definition u64_max : Z := 18446744073709551615.
(** [usize] is 64 bits wide on the deployment targets. *)
Definition usize_max : Z := u64_max.

Definition wrap32 (n : Z) : Z := n mod 4294967296.
Definition wrap64 (n : Z) : Z := n mod 18446744073709551616.

(** [a.saturating_add(b)] on [u64] / [usize]. *)
Definition u64_saturating_add (a b : Z) : Z := Z.min u64_max (a + b).
(** [a.checked_mul(b)] on [u64]. *)
Definition u64_checked_mul (a b : Z) : option Z :=
  if a * b <=? u64_max then Some (a * b) else None.

(** ** [std::time]

    A [Duration] is a number of nanoseconds, an [Instant] a number of
    nanoseconds of the monotonic clock.  Both keep their range: a [Duration]
    holds a [u64] of seconds and fewer than [10^9] nanoseconds, the Unix
    [Instant] an [i64] of seconds. *)
Abbreviation Duration := Z (only parsing).
Abbreviation Instant := Z (only parsing).

Definition NANOS_PER_SEC : Z := 1000000000.
Definition DURATION_MAX : Duration := 18446744073709551615999999999.
Definition INSTANT_MAX : Instant := 9223372036854775807999999999.

Module Dur.
(** [Duration::from_secs] *)
Definition from_secs (secs : Z) : Duration := secs * NANOS_PER_SEC.
(** [Duration::as_secs] *)
Definition as_secs (d : Duration) : Z := d / NANOS_PER_SEC.
(** [Duration::as_millis] *)
Definition as_millis (d : Duration) : Z := d / 1000000.
(** [Duration::is_zero] *)
Definition is_zero (d : Duration) : bool := d =? 0.
(** [Duration::saturating_add] *)
Definition saturating_add (a b : Duration) : Duration := Z.min DURATION_MAX (a + b).
(** [Duration::saturating_mul] *)
Definition saturating_mul (a : Duration) (k : Z) : Duration := Z.min DURATION_MAX (a * k).
(** a value the type can hold *)
Definition valid (d : Duration) : Prop := 0 <= d <= DURATION_MAX.
End Dur.

Module Inst.
(** [Instant::checked_add] *)
Definition checked_add (t : Instant) (d : Duration) : option Instant :=
  if t + d <=? INSTANT_MAX then Some (t + d) else None.
(** [Instant::saturating_duration_since] *)
Definition saturating_duration_since (t earlier : Instant) : Duration := Z.max 0 (t - earlier).
End Inst.

(** ** Deadlines: [Option<Instant>] read as "cooling until" *)

(** [o.is_some_and(|d| d > now)] *)
Definition later_than (o : option Instant) (now : Instant) : bool :=
  match o with Some d => now <? d | None => false end.

(** The order of cooldowns: no deadline is below every deadline. *)
Definition deadline_le (a b : option Instant) : Prop :=
  match a, b with
  | None, _ => True
  | Some _, None => False
  | Some x, Some y => x <= y
  end.

(** ** The library's automation *)

Create HintDb orihsus.
Create Rewrite HintDb orihsus.

(** Case analysis on the innermost [match] or [if] of the goal. *)
Ltac break_goal :=
  match goal with
  | |- context [match ?x with _ => _ end] =>
      lazymatch x with
      | context [match _ with _ => _ end] => fail
      | _ => destruct x eqn:?
      end
  end.

(** The same for a hypothesis. *)
Ltac break_in H :=
  match type of H with
  | context [match ?x with _ => _ end] =>
      lazymatch x with
      | context [match _ with _ => _ end] => fail
      | _ => destruct x eqn:?
      end
  end.

(** Turn the boolean tests of a context into propositions. *)
Ltac bool_to_prop :=
  repeat match goal with
  | H : (_ && _)%bool = true |- _ => apply andb_true_iff in H as [? ?]
  | H : (_ || _)%bool = false |- _ => apply orb_false_iff in H as [? ?]
  | H : negb _ = true |- _ => apply negb_true_iff in H
  | H : negb _ = false |- _ => apply negb_false_iff in H
  | H : (_ <? _) = true |- _ => apply Z.ltb_lt in H
  | H : (_ <? _) = false |- _ => apply Z.ltb_ge in H
  | H : (_ <=? _) = true |- _ => apply Z.leb_le in H
  | H : (_ <=? _) = false |- _ => apply Z.leb_gt in H
  | H : (_ =? _) = true |- _ => apply Z.eqb_eq in H
  | H : (_ =? _) = false |- _ => apply Z.eqb_neq in H
  | H : bool_decide _ = true |- _ => apply bool_decide_eq_true in H
  | H : bool_decide _ = false |- _ => apply bool_decide_eq_false in H
  end.

(** [lia] after unfolding the widths of the machine types. *)
Ltac width_lia :=
  bool_to_prop;
  unfold Dur.from_secs, Dur.as_secs, Dur.as_millis, Dur.is_zero, Dur.saturating_add,
    Dur.saturating_mul, Dur.valid, Inst.checked_add, Inst.saturating_duration_since,
    NANOS_PER_SEC, DURATION_MAX, INSTANT_MAX, u64_saturating_add,
    wrap32, wrap64, u8_max, u16_max, u32_max, usize_max, u64_max in *;
  lia.

(** ** Facts the components share *)

Lemma bail_if_ok {E} (c : bool) (e : E) u : bail_if c e = Ok u <-> c = false.
Proof. destruct c, u; simpl; split; congruence. Qed.

Lemma result_bind_ok {E A B} (m : result E A) (k : A -> result E B) b :
  (m ≫= k) = Ok b <-> exists a, m = Ok a /\ k a = Ok b.
Proof.
  destruct m as [a | e]; simpl; split.
  - eauto.
  - intros (a' & [= ->] & H). exact H.
  - intros [=].
  - intros (a' & [=] & _).
Qed.

Lemma try_fold_app {E A B} (f : B -> A -> result E B) acc xs ys :
  try_fold f acc (xs ++ ys) =
  match try_fold f acc xs with Ok acc' => try_fold f acc' ys | Err e => Err e end.
Proof.
  revert acc; induction xs as [| x xs IH]; intros acc; simpl; [done |].
  destruct (f acc x); [apply IH | done].
Qed.

(** Invariant rule for the fold. *)
Lemma try_fold_inv {E A B} (f : B -> A -> result E B) (P : list A -> B -> Prop) :
  (forall done acc x acc', P done acc -> f acc x = Ok acc' -> P (done ++ [x]) acc') ->
  forall xs done acc out, P done acc -> try_fold f acc xs = Ok out -> P (done ++ xs) out.
Proof.
  intros Hstep xs; induction xs as [| x xs IH]; intros done acc out HP Hrun; simpl in Hrun.
  - injection Hrun as <-. by rewrite app_nil_r.
  - destruct (f acc x) as [acc' |] eqn:Hf; [| discriminate].
    replace (done ++ x :: xs) with ((done ++ [x]) ++ xs) by (by rewrite <- app_assoc).
    eapply IH; [| exact Hrun]. by eapply Hstep.
Qed.

Lemma later_than_true o now : later_than o now = true <-> exists d, o = Some d /\ now < d.
Proof.
  destruct o as [d |]; simpl; [rewrite Z.ltb_lt | split; [done | by intros (? & [=] & _)]].
  split; [eauto | by intros (? & [= ->] & ?)].
Qed.

Lemma later_than_false o now : later_than o now = false <-> forall d, o = Some d -> d <= now.
Proof.
  destruct o as [d |]; simpl; [rewrite Z.ltb_ge | by split].
  split; [by intros ? ? [= <-] | auto].
Qed.

Lemma deadline_le_refl o : deadline_le o o.
Proof. destruct o; simpl; [lia | done]. Qed.

Lemma deadline_le_trans a b c : deadline_le a b -> deadline_le b c -> deadline_le a c.
Proof. destruct a, b, c; simpl; try done; lia. Qed.

#[global] Instance deadline_le_preorder : PreOrder deadline_le.
Proof. split; [exact deadline_le_refl | exact deadline_le_trans]. Qed.

(** A deadline that the guard "never shorten" lets through. *)
Lemma not_later_than_le o d : later_than o d = false -> deadline_le o (Some d).
Proof. destruct o; simpl; [rewrite Z.ltb_ge; lia | done]. Qed.

Lemma later_than_mono a b now :
  deadline_le a b -> later_than a now = true -> later_than b now = true.
Proof. destruct a, b; simpl; try done; rewrite !Z.ltb_lt; lia. Qed.

Lemma wrap64_range n : 0 <= wrap64 n <= u64_max.
Proof. unfold wrap64, u64_max. pose proof (Z.mod_pos_bound n 18446744073709551616). lia. Qed.

Lemma wrap64_small n : 0 <= n <= u64_max -> wrap64 n = n.
Proof. intros. apply Z.mod_small. width_lia. Qed.

Lemma wrap32_range n : 0 <= wrap32 n <= u32_max.
Proof. unfold wrap32, u32_max. pose proof (Z.mod_pos_bound n 4294967296). lia. Qed.

Lemma wrap32_small n : 0 <= n <= u32_max -> wrap32 n = n.
Proof. intros. apply Z.mod_small. width_lia. Qed.

Lemma checked_add_some t d t' :
  Inst.checked_add t d = Some t' <-> t' = t + d /\ t + d <= INSTANT_MAX.
Proof.
  unfold Inst.checked_add. destruct (Z.leb_spec (t + d) INSTANT_MAX).
  - split; [by intros [= <-] | by intros [-> _]].
  - split; [done | intros [_ ?]; lia].
Qed.

(** Replacing one element of a list keeps every projection it keeps. *)
Lemma fmap_insert_same {A B} (f : A -> B) (l : list A) i x y :
  l !! i = Some x -> f y = f x -> f <$> <[i:=y]> l = f <$> l.
Proof.
  intros Hl Hf. rewrite list_fmap_insert. apply list_insert_id.
  by rewrite list_lookup_fmap, Hl, Hf.
Qed.

#[export] Hint Resolve deadline_le_refl deadline_le_trans not_later_than_le : orihsus.
#[export] Hint Rewrite @bail_if_ok @result_bind_ok : orihsus.
