(* ===== verification/Text.v ===== *)
(** * Rust text: bytes, UTF-8, [str] methods

    The operations of [std] on [str], [String] and [[u8]] that the gateway
    uses, on lists of 8-bit characters ([bytes]) and on strings of them
    ([string], a Rust [str] being its UTF-8 bytes).  Nothing here is specific
    to the gateway; the components translate their own code on top of it. *)
From Stdlib Require Export Ascii String.
From S2P Require Export Prelude.

(** A [&[u8]] or [Vec<u8>]. *)
Abbreviation bytes := (list ascii).

(** The bytes of a string and back. *)
Abbreviation as_bytes := list_ascii_of_string.
Abbreviation of_bytes := string_of_list_ascii.

#[global] Instance ascii_eq_dec : EqDecision ascii := ascii_dec.

(** A byte as a number. *)
Definition byte_val (b : ascii) : Z := Z.of_N (N_of_ascii b).

(** [s.len()] and [bytes.len()] *)
Definition str_len (s : string) : Z := Z.of_nat (String.length s).
Definition blen (b : bytes) : Z := Z.of_nat (length b).

Definition in_range (lo hi : Z) (b : ascii) : bool :=
  (lo <=? byte_val b) && (byte_val b <=? hi).

(** ** ASCII classes *)

Definition is_ascii_digit (b : ascii) : bool := in_range 48 57 b.
Definition is_ascii_upper (b : ascii) : bool := in_range 65 90 b.
Definition is_ascii_lower (b : ascii) : bool := in_range 97 122 b.
Definition is_ascii_alphabetic (b : ascii) : bool := is_ascii_upper b || is_ascii_lower b.
Definition is_ascii_alphanumeric (b : ascii) : bool := is_ascii_alphabetic b || is_ascii_digit b.

Definition ascii_lower (b : ascii) : ascii :=
  if is_ascii_upper b then ascii_of_N (N_of_ascii b + 32) else b.

(** [s.to_ascii_lowercase()] *)
Definition to_ascii_lowercase (s : string) : string :=
  of_bytes (ascii_lower <$> as_bytes s).

(** ** UTF-8 *)

Definition is_cont (b : ascii) : bool := in_range 128 191 b.

(** The second byte that may follow a lead byte of a three-byte sequence. *)
Definition second_of_three (b0 b1 : ascii) : bool :=
  if byte_val b0 =? 224 then in_range 160 191 b1
  else if byte_val b0 =? 237 then in_range 128 159 b1
  else is_cont b1.

(** The same for a four-byte sequence. *)
Definition second_of_four (b0 b1 : ascii) : bool :=
  if byte_val b0 =? 240 then in_range 144 191 b1
  else if byte_val b0 =? 244 then in_range 128 143 b1
  else is_cont b1.

(** [test l k] holds of the first element of [l] when it exists. *)
Definition head_is (p : ascii -> bool) (l : bytes) : bool :=
  match l with b :: _ => p b | [] => false end.

(** Length of the sequence at the front of a non-empty list, and whether it
    encodes a scalar value: when it does not, the length is that of the
    maximal prefix that [String::from_utf8_lossy] replaces by one U+FFFD. *)
Definition utf8_front (b0 : ascii) (rest : bytes) : bool * nat :=
  let b1 := rest in let b2 := tail rest in let b3 := tail b2 in
  if in_range 0 127 b0 then (true, 1%nat)
  else if in_range 194 223 b0 then
    if head_is is_cont b1 then (true, 2%nat) else (false, 1%nat)
  else if in_range 224 239 b0 then
    if negb (head_is (second_of_three b0) b1) then (false, 1%nat)
    else if head_is is_cont b2 then (true, 3%nat) else (false, 2%nat)
  else if in_range 240 244 b0 then
    if negb (head_is (second_of_four b0) b1) then (false, 1%nat)
    else if negb (head_is is_cont b2) then (false, 2%nat)
    else if head_is is_cont b3 then (true, 4%nat) else (false, 3%nat)
  else (false, 1%nat).

(** Cut a byte list into its sequences; every step consumes a byte, so the
    length of the list is enough fuel. *)
Fixpoint utf8_chunks_fuel (fuel : nat) (l : bytes) : list (bool * bytes) :=
  match fuel, l with
  | S fuel', b0 :: rest =>
      let '(ok, n) := utf8_front b0 rest in
      (ok, take n l) :: utf8_chunks_fuel fuel' (drop n l)
  | _, _ => []
  end.

Definition utf8_chunks (l : bytes) : list (bool * bytes) := utf8_chunks_fuel (length l) l.

(** [std::str::from_utf8] *)
Definition from_utf8 (l : bytes) : option string :=
  if forallb fst (utf8_chunks l) then Some (of_bytes l) else None.

(** U+FFFD in UTF-8. *)
Definition replacement : bytes := [ascii_of_N 239; ascii_of_N 191; ascii_of_N 189].

(** [String::from_utf8_lossy] *)
Definition from_utf8_lossy (l : bytes) : string :=
  of_bytes (concat ((fun c : bool * bytes => if c.1 then c.2 else replacement) <$> utf8_chunks l)).

(** [s.chars()], every [char] as its own bytes. *)
Definition chars (s : string) : list bytes := snd <$> utf8_chunks (as_bytes s).

(** The scalar value of one encoded [char]. *)
Definition char_code (c : bytes) : Z :=
  match byte_val <$> c with
  | [b0] => b0
  | [b0; b1] => Z.land b0 31 * 64 + Z.land b1 63
  | [b0; b1; b2] => Z.land b0 15 * 4096 + Z.land b1 63 * 64 + Z.land b2 63
  | [b0; b1; b2; b3] =>
      Z.land b0 7 * 262144 + Z.land b1 63 * 4096 + Z.land b2 63 * 64 + Z.land b3 63
  | _ => -1
  end.

(** [char::is_whitespace]: the Unicode property White_Space. *)
Definition is_whitespace (c : bytes) : bool :=
  let n := char_code c in
  ((9 <=? n) && (n <=? 13)) || (n =? 32) || (n =? 133) || (n =? 160) || (n =? 5760)
  || ((8192 <=? n) && (n <=? 8202)) || (n =? 8232) || (n =? 8233) || (n =? 8239)
  || (n =? 8287) || (n =? 12288).

(** ** [str] methods *)

Fixpoint drop_while {A} (p : A -> bool) (l : list A) : list A :=
  match l with
  | [] => []
  | x :: rest => if p x then drop_while p rest else l
  end.

Fixpoint take_while {A} (p : A -> bool) (l : list A) : list A :=
  match l with
  | [] => []
  | x :: rest => if p x then x :: take_while p rest else []
  end.

Definition of_chars (cs : list bytes) : string := of_bytes (concat cs).

(** [s.trim_start()], [s.trim_end()], [s.trim()] *)
Definition trim_start (s : string) : string := of_chars (drop_while is_whitespace (chars s)).
Definition trim_end (s : string) : string :=
  of_chars (reverse (drop_while is_whitespace (reverse (chars s)))).
Definition trim (s : string) : string :=
  of_chars (reverse (drop_while is_whitespace (reverse (drop_while is_whitespace (chars s))))).

(** [s.is_empty()] *)
Definition str_is_empty (s : string) : bool := String.eqb s "".

(** [s.trim().is_empty()] *)
Definition is_blank (s : string) : bool := str_is_empty (trim s).

(** [l.starts_with(p)] on bytes *)
Fixpoint bytes_starts_with (l p : bytes) {struct p} : bool :=
  match p, l with
  | [], _ => true
  | b :: p', c :: l' => Ascii.eqb b c && bytes_starts_with l' p'
  | _ :: _, [] => false
  end.

(** [l.ends_with(p)] on bytes *)
Definition bytes_ends_with (l p : bytes) : bool :=
  bytes_starts_with (reverse l) (reverse p).

Definition starts_with (s p : string) : bool := bytes_starts_with (as_bytes s) (as_bytes p).
Definition ends_with (s p : string) : bool := bytes_ends_with (as_bytes s) (as_bytes p).

(** [s.strip_prefix(p)] *)
Definition strip_prefix (s p : string) : option string :=
  if starts_with s p then Some (of_bytes (drop (String.length p) (as_bytes s))) else None.

(** [s.find(p)], a byte offset *)
Fixpoint bytes_find (l p : bytes) : option nat :=
  if bytes_starts_with l p then Some 0%nat
  else match l with
       | [] => None
       | _ :: l' => S <$> bytes_find l' p
       end.

Definition str_find (s p : string) : option nat := bytes_find (as_bytes s) (as_bytes p).

(** [&s[n..]] for a byte offset the caller got from a search *)
Definition str_from (n : nat) (s : string) : string := of_bytes (drop n (as_bytes s)).

(** [s.split(sep)] for one byte *)
Fixpoint bytes_split (sep : ascii) (l : bytes) : list bytes :=
  match l with
  | [] => [[]]
  | b :: rest =>
      if Ascii.eqb b sep then [] :: bytes_split sep rest
      else match bytes_split sep rest with
           | piece :: more => (b :: piece) :: more
           | [] => [[b]]
           end
  end.

Definition LF : ascii := ascii_of_N 10.
Definition CR : ascii := ascii_of_N 13.

(** a line without its trailing carriage return *)
Definition strip_cr (l : bytes) : bytes :=
  match last l with
  | Some c => if Ascii.eqb c CR then removelast l else l
  | None => l
  end.

(** [s.lines()]: pieces ended by [\n] or [\r\n]; a final piece without a
    newline counts when it is not empty, and keeps its [\r]. *)
Definition lines (s : string) : list string :=
  let pieces := bytes_split LF (as_bytes s) in
  let ended := strip_cr <$> removelast pieces in
  let final := match last pieces with
               | Some [] | None => []
               | Some p => [p]
               end in
  of_bytes <$> (ended ++ final).

(** [pieces.join("\n")] *)
Definition join_lf (pieces : list string) : string := String.concat (String LF "") pieces.

(** [s.parse::<u64>()]: an optional [+], then decimal digits, no overflow. *)
Fixpoint digits_val (acc : Z) (l : bytes) : option Z :=
  match l with
  | [] => Some acc
  | b :: rest =>
      if is_ascii_digit b then
        let acc' := acc * 10 + (byte_val b - 48) in
        if acc' <=? u64_max then digits_val acc' rest else None
      else None
  end.

Definition parse_u64 (s : string) : option Z :=
  match as_bytes s with
  | [] => None
  | b :: rest =>
      if Ascii.eqb b "+"%char then match rest with [] => None | _ => digits_val 0 rest end
      else digits_val 0 (b :: rest)
  end.

(** [n.to_string()] for a [u64]: at most 20 decimal digits. *)
Definition dec_digit (n : Z) : ascii := ascii_of_N (Z.to_N (48 + n)).
Fixpoint dec_digits (fuel : nat) (n : Z) : bytes :=
  match fuel with
  | O => []
  | S fuel' => if n <? 10 then [dec_digit n]
               else dec_digits fuel' (n / 10) ++ [dec_digit (n mod 10)]
  end.
Definition u64_to_string (n : Z) : string := of_bytes (dec_digits 20 n).

(** A lower-case hexadecimal digit and [format!("{b:02x}")]. *)
Definition hex_digit (n : Z) : ascii :=
  ascii_of_N (Z.to_N (if n <? 10 then 48 + n else 87 + n)).
Definition hex_byte (b : ascii) : bytes := [hex_digit (byte_val b / 16); hex_digit (byte_val b mod 16)].

(** [format!("{n:0width$x}")] for a number of at most [width] digits *)
Fixpoint hex_fixed (width : nat) (n : Z) : bytes :=
  match width with
  | O => []
  | S w => hex_fixed w (n / 16) ++ [hex_digit (n mod 16)]
  end.

(** The byte order of [str], which [sort] and [cmp] use. *)
Fixpoint bytes_leb (a b : bytes) : bool :=
  match a, b with
  | [], _ => true
  | _ :: _, [] => false
  | x :: a', y :: b' =>
      if byte_val x <? byte_val y then true
      else if byte_val y <? byte_val x then false
      else bytes_leb a' b'
  end.
Definition str_leb (a b : string) : bool := bytes_leb (as_bytes a) (as_bytes b).

(** ** Facts *)

Lemma byte_val_range b : 0 <= byte_val b <= 255.
Proof.
  unfold byte_val. pose proof (N_ascii_bounded b). lia.
Qed.

Lemma byte_val_inj a b : byte_val a = byte_val b -> a = b.
Proof.
  unfold byte_val. intros H. apply N2Z.inj in H.
  rewrite <- (ascii_N_embedding a), <- (ascii_N_embedding b). by f_equal.
Qed.

Lemma of_as_bytes s : of_bytes (as_bytes s) = s.
Proof. apply string_of_list_ascii_of_string. Qed.

Lemma as_of_bytes l : as_bytes (of_bytes l) = l.
Proof. apply list_ascii_of_string_of_list_ascii. Qed.

Lemma as_bytes_inj a b : as_bytes a = as_bytes b -> a = b.
Proof. intros H. by rewrite <- (of_as_bytes a), <- (of_as_bytes b), H. Qed.

Lemma length_as_bytes s : length (as_bytes s) = String.length s.
Proof. induction s; simpl; congruence. Qed.

(** Every step of the decoder consumes at least one byte. *)
Lemma utf8_front_pos b0 rest : (1 <= (utf8_front b0 rest).2)%nat.
Proof. unfold utf8_front. repeat (case_match; simpl; try lia). Qed.

(** Decoding loses no byte. *)
Lemma utf8_chunks_fuel_concat fuel l :
  (length l <= fuel)%nat -> concat (snd <$> utf8_chunks_fuel fuel l) = l.
Proof.
  revert l; induction fuel as [| fuel IH]; intros l Hlen.
  - destruct l; [done | simpl in Hlen; lia].
  - destruct l as [| b0 rest]; [done |]. cbn [utf8_chunks_fuel].
    pose proof (utf8_front_pos b0 rest) as Hpos.
    destruct (utf8_front b0 rest) as [ok n] eqn:Hf. cbn in Hpos.
    cbn [fmap list_fmap concat snd]. rewrite IH.
    + apply take_drop.
    + rewrite length_drop. simpl in *. lia.
Qed.

Lemma utf8_chunks_concat l : concat (snd <$> utf8_chunks l) = l.
Proof. by apply utf8_chunks_fuel_concat. Qed.

(** The characters of a string spell the string. *)
Lemma of_chars_chars s : of_chars (chars s) = s.
Proof. unfold of_chars, chars. by rewrite utf8_chunks_concat, of_as_bytes. Qed.

(** [from_utf8] accepts without changing anything. *)
Lemma from_utf8_some l s : from_utf8 l = Some s -> s = of_bytes l.
Proof. unfold from_utf8. case_match; congruence. Qed.

(** Valid UTF-8 is a fixed point of the lossy conversion. *)
Lemma from_utf8_lossy_valid l s : from_utf8 l = Some s -> from_utf8_lossy l = s.
Proof.
  unfold from_utf8, from_utf8_lossy. case_match eqn:Hv; [| done]. intros [= <-]. f_equal.
  rewrite <- (utf8_chunks_concat l) at 2. f_equal.
  induction (utf8_chunks l) as [| [ok c] cs IH]; [done |]. simpl in *.
  apply andb_true_iff in Hv as [-> Hv]. f_equal. by apply IH.
Qed.

Lemma bytes_starts_with_iff l p : bytes_starts_with l p = true <-> exists r, l = p ++ r.
Proof.
  revert l; induction p as [| b p IH]; intros l; simpl; [split; eauto |].
  destruct l as [| c l].
  - split; [done | by intros (? & [=])].
  - rewrite andb_true_iff, IH. split.
    + intros [->%Ascii.eqb_eq [r ->]]. eauto.
    + intros [r [= -> ->]]. rewrite Ascii.eqb_refl. eauto.
Qed.

Lemma bytes_ends_with_iff l p : bytes_ends_with l p = true <-> exists r, l = r ++ p.
Proof.
  unfold bytes_ends_with. rewrite bytes_starts_with_iff. split; intros [r Hr].
  - exists (reverse r). apply (f_equal reverse) in Hr.
    by rewrite reverse_app, !reverse_involutive in Hr.
  - exists (reverse r). by rewrite Hr, reverse_app.
Qed.

Lemma as_bytes_app a b : as_bytes (a ++ b)%string = as_bytes a ++ as_bytes b.
Proof.
  induction a as [| c a IH]; [done |].
  change (c :: as_bytes (a ++ b)%string = c :: (as_bytes a ++ as_bytes b)). by f_equal.
Qed.

Lemma starts_with_iff s p : starts_with s p = true <-> exists r, s = (p ++ r)%string.
Proof.
  unfold starts_with. rewrite bytes_starts_with_iff. split.
  - intros [r Hr]. exists (of_bytes r). apply as_bytes_inj.
    by rewrite as_bytes_app, as_of_bytes.
  - intros [r ->]. exists (as_bytes r). apply as_bytes_app.
Qed.

(** The range of a parsed number, and its value on plain digits. *)
Lemma digits_val_range l acc n : 0 <= acc <= u64_max -> digits_val acc l = Some n -> 0 <= n <= u64_max.
Proof.
  revert acc; induction l as [| b l IH]; intros acc Hacc Hrun; simpl in Hrun; [congruence |].
  destruct (is_ascii_digit b) eqn:Hd; [| done].
  destruct (Z.leb_spec (acc * 10 + (byte_val b - 48)) u64_max); [| done].
  apply IH in Hrun; [done |]. unfold is_ascii_digit, in_range in Hd. bool_to_prop. lia.
Qed.

Lemma parse_u64_range s n : parse_u64 s = Some n -> 0 <= n <= u64_max.
Proof.
  assert (0 <= 0 <= u64_max) by (unfold u64_max; lia).
  unfold parse_u64. destruct (as_bytes s) as [| b rest]; [done |].
  destruct (Ascii.eqb b "+"); [destruct rest; [done |] |]; by apply digits_val_range.
Qed.

(** Decimal numbers survive printing and parsing. *)
Lemma dec_digit_val n : 0 <= n <= 9 -> is_ascii_digit (dec_digit n) = true /\ byte_val (dec_digit n) = 48 + n.
Proof.
  intros Hn. assert (byte_val (dec_digit n) = 48 + n) as Hv.
  { unfold byte_val, dec_digit. rewrite N_ascii_embedding by lia. lia. }
  split; [| done]. unfold is_ascii_digit, in_range. rewrite Hv.
  apply andb_true_iff. rewrite !Z.leb_le. lia.
Qed.

Lemma digits_val_app acc l1 l2 :
  digits_val acc (l1 ++ l2) = match digits_val acc l1 with Some a => digits_val a l2 | None => None end.
Proof.
  revert acc; induction l1 as [| b l1 IH]; intros acc; simpl; [done |].
  destruct (is_ascii_digit b); [| done]. by case_match.
Qed.

Lemma dec_digits_val fuel n :
  0 <= n < 10 ^ Z.of_nat fuel -> n <= u64_max -> digits_val 0 (dec_digits fuel n) = Some n.
Proof.
  revert n; induction fuel as [| fuel IH]; intros n Hn Hmax.
  { change (10 ^ Z.of_nat 0) with 1 in Hn. simpl. f_equal. lia. }
  rewrite Nat2Z.inj_succ, Z.pow_succ_r in Hn by lia. cbn [dec_digits].
  destruct (Z.ltb_spec n 10) as [Hlt | Hge].
  - cbn [digits_val]. destruct (dec_digit_val n) as [-> ->]; [lia |].
    replace (0 * 10 + (48 + n - 48)) with n by lia. by destruct (Z.leb_spec n u64_max); [| lia].
  - pose proof (Z.mod_pos_bound n 10 ltac:(lia)). pose proof (Z.div_mod n 10 ltac:(lia)).
    rewrite digits_val_app, IH; [| split; [apply Z.div_pos | apply Z.div_lt_upper_bound]; lia | lia].
    cbn [digits_val]. destruct (dec_digit_val (n mod 10)) as [-> ->]; [lia |].
    replace (n / 10 * 10 + (48 + n mod 10 - 48)) with n by lia.
    by destruct (Z.leb_spec n u64_max); [| lia].
Qed.

Lemma dec_digits_all fuel n :
  0 <= n -> Forall (fun b => is_ascii_digit b = true) (dec_digits fuel n).
Proof.
  revert n; induction fuel as [| fuel IH]; intros n Hn; [constructor |]. cbn [dec_digits].
  destruct (Z.ltb_spec n 10).
  - constructor; [apply dec_digit_val; lia | constructor].
  - apply Forall_app. split; [apply IH, Z.div_pos; lia |]. constructor; [| constructor].
    apply dec_digit_val. pose proof (Z.mod_pos_bound n 10). lia.
Qed.

Lemma dec_digits_nonempty fuel n : dec_digits (S fuel) n <> [].
Proof. cbn [dec_digits]. destruct (n <? 10); [done |]. by intros [_ [=]]%app_eq_nil. Qed.

Lemma parse_u64_to_string n : 0 <= n <= u64_max -> parse_u64 (u64_to_string n) = Some n.
Proof.
  intros Hn. unfold parse_u64, u64_to_string. rewrite as_of_bytes.
  pose proof (dec_digits_all 20 n) as Hall. pose proof (dec_digits_nonempty 19 n) as Hne.
  assert (digits_val 0 (dec_digits 20 n) = Some n) as Hval.
  { apply dec_digits_val; [| lia]. split; [lia |].
    apply Z.le_lt_trans with u64_max; [lia | reflexivity]. }
  destruct (dec_digits 20 n) as [| b l]; [done |].
  destruct (Ascii.eqb_spec b "+"); [| done]. subst b.
  specialize (Hall ltac:(lia)). by inversion Hall.
Qed.

(** ASCII text: every byte is a character of its own. *)
Definition is_ascii (b : ascii) : bool := in_range 0 127 b.

Lemma utf8_chunks_fuel_ascii fuel l :
  (length l <= fuel)%nat -> Forall (fun b => is_ascii b = true) l ->
  utf8_chunks_fuel fuel l = (fun b => (true, [b])) <$> l.
Proof.
  revert l; induction fuel as [| fuel IH]; intros [| b l] Hlen Hall; try done;
    [simpl in Hlen; lia |].
  inversion Hall as [| ? ? Hb Hl]; subst. cbn [utf8_chunks_fuel].
  assert (utf8_front b l = (true, 1%nat)) as ->.
  { unfold utf8_front. unfold is_ascii in Hb. by rewrite Hb. }
  change (drop 1 (b :: l)) with (drop 0 l). rewrite drop_0, IH; [done | simpl in Hlen; lia | done].
Qed.

Lemma chars_ascii l :
  Forall (fun b => is_ascii b = true) l -> chars (of_bytes l) = (fun b => [b]) <$> l.
Proof.
  intros Hl. unfold chars, utf8_chunks. rewrite as_of_bytes, utf8_chunks_fuel_ascii by done.
  by rewrite <- list_fmap_compose.
Qed.

Lemma strip_prefix_iff s p r : strip_prefix s p = Some r <-> s = p +:+ r.
Proof.
  unfold strip_prefix. split.
  - destruct (starts_with s p) eqn:Hs; [| done]. apply starts_with_iff in Hs as [r' ->]. intros [= <-]. f_equal.
    rewrite as_bytes_app, <- length_as_bytes, drop_app_length. symmetry. apply of_as_bytes.
  - intros ->. rewrite (proj2 (starts_with_iff _ p)) by eauto. f_equal.
    rewrite as_bytes_app, <- length_as_bytes, drop_app_length. apply of_as_bytes.
Qed.

Lemma of_chars_singletons l : of_chars ((fun b => [b]) <$> l) = of_bytes l.
Proof.
  unfold of_chars. f_equal. induction l as [| b l IH]; [done |]. cbn. by f_equal.
Qed.

Lemma ascii_digit_is_ascii b : is_ascii_digit b = true -> is_ascii b = true.
Proof.
  unfold is_ascii_digit, is_ascii, in_range. rewrite !andb_true_iff, !Z.leb_le. lia.
Qed.

Lemma ascii_alphabetic_is_ascii b : is_ascii_alphabetic b = true -> is_ascii b = true.
Proof.
  unfold is_ascii_alphabetic, is_ascii_upper, is_ascii_lower, is_ascii, in_range.
  rewrite orb_true_iff, !andb_true_iff, !Z.leb_le. lia.
Qed.

Lemma bytes_leb_total a b : bytes_leb a b = true \/ bytes_leb b a = true.
Proof.
  revert b; induction a as [| x a IH]; intros [| y b]; simpl; auto.
  destruct (Z.ltb_spec (byte_val x) (byte_val y)); [auto |].
  destruct (Z.ltb_spec (byte_val y) (byte_val x)); auto.
Qed.

Lemma bytes_leb_trans a b c :
  bytes_leb a b = true -> bytes_leb b c = true -> bytes_leb a c = true.
Proof.
  revert b c; induction a as [| x a IH]; intros [| y b] [| z c]; simpl; try done.
  destruct (Z.ltb_spec (byte_val x) (byte_val y)), (Z.ltb_spec (byte_val y) (byte_val x)),
    (Z.ltb_spec (byte_val y) (byte_val z)), (Z.ltb_spec (byte_val z) (byte_val y)),
    (Z.ltb_spec (byte_val x) (byte_val z)), (Z.ltb_spec (byte_val z) (byte_val x));
    try done; try lia; apply IH.
Qed.

Lemma bytes_leb_antisym a b : bytes_leb a b = true -> bytes_leb b a = true -> a = b.
Proof.
  revert b; induction a as [| x a IH]; intros [| y b]; simpl; try done.
  destruct (Z.ltb_spec (byte_val x) (byte_val y)), (Z.ltb_spec (byte_val y) (byte_val x));
    try done; try lia.
  intros ? ?. f_equal; [apply byte_val_inj; lia | by apply IH].
Qed.

#[export] Hint Resolve bytes_leb_trans : orihsus.
#[export] Hint Rewrite of_as_bytes as_of_bytes : orihsus.
