(* ===== verification/Build.v ===== *)
(** * The build script ([src/build.rs])

    The commit shown by [--version] and the files whose change rebuilds the
    program.  What git prints and what [.git/HEAD] holds are arguments. *)
From S2P Require Export Text.

Definition is_ascii_hexdigit (b : ascii) : bool := is_ascii_digit b || in_range 65 70 b || in_range 97 102 b.

(** [git rev-parse HEAD]: whether it succeeded and its output; [None] when it
    could not be run. *)
Definition commit_hash (git : option (bool * bytes)) : string :=
  default "unknown"
    (out ← git;
     hash ← (if out.1 : bool then from_utf8 out.2 else None);
     let hash := trim hash in
     if (7 <=? str_len hash) && forallb is_ascii_hexdigit (as_bytes hash)
     then Some (of_bytes (take 7 (as_bytes hash))) else None).

(** [track_current_ref]; a reference that is an absolute path replaces [.git]. *)
Definition track_current_ref (head : option string) : list string :=
  match head ≫= fun head => strip_prefix (trim head) "ref: " with
  | None => []
  | Some reference =>
      ["cargo:rerun-if-changed=" +:+ (if starts_with reference "/" then reference else ".git/" +:+ reference)]
  end.

(** [main] *)
Definition build_directives (head : option string) (git : option (bool * bytes)) : list string :=
  "cargo:rerun-if-changed=.git/HEAD" :: track_current_ref head
    ++ ["cargo:rustc-env=ORIHSUS_COMMIT_HASH=" +:+ commit_hash git].

(** The commit is seven hexadecimal digits, the first of what git printed, or
    the word "unknown": nothing git prints can break the directive. *)
Lemma commit_hash_shape git :
  commit_hash git = "unknown" \/
  (length (as_bytes (commit_hash git)) = 7%nat /\ Forall (fun b => is_ascii_hexdigit b = true) (as_bytes (commit_hash git))).
Proof.
  unfold commit_hash. destruct git as [[ok out] |]; [| by left]. cbn [mbind option_bind fst snd].
  destruct (if ok then from_utf8 out else None) as [hash |]; [| by left]. cbn [mbind option_bind].
  destruct (Z.leb_spec 7 (str_len (trim hash))) as [Hlen |]; [| by left].
  destruct (forallb is_ascii_hexdigit (as_bytes (trim hash))) eqn:Hall; [| by left]. right. cbn [andb default].
  unfold id. rewrite as_of_bytes. split.
  - rewrite length_take, length_as_bytes. unfold str_len in Hlen. lia.
  - apply Forall_take, Forall_forall. intros b Hb. apply list_elem_of_In in Hb. rewrite forallb_forall in Hall. by apply Hall.
Qed.

Example commit_hash_ok : commit_hash (Some (true, as_bytes "0123abcdef" ++ [LF])) = "0123abc".
Proof. vm_compute. reflexivity. Qed.
