(* ===== verification/Net.v ===== *)
(** * IP addresses as [std::net] parses them

    [str::parse::<IpAddr>] and [IpAddr::is_loopback], which the configuration
    uses for the listen address and the gateway for client addresses.  A parser is a function from the
    remaining bytes to a value and the bytes left; a failing parser consumes
    nothing, which is [Parser::read_atomically]. *)
From S2P Require Export Text.

(** [enum IpAddr]: the octets of an IPv4 address, the eight groups of an IPv6
    address. *)
Inductive IpAddr :=
| V4 (octets : list Z)
| V6 (groups : list Z).

#[global] Instance IpAddr_eq_dec : EqDecision IpAddr.
Proof. solve_decision. Defined.

Definition ip_parser (A : Type) := bytes -> option (A * bytes).

(** [Parser::read_given_char] *)
Definition read_given_char (c : ascii) : ip_parser unit := fun l =>
  match l with
  | b :: rest => if Ascii.eqb b c then Some (tt, rest) else None
  | [] => None
  end.

(** The value of a digit in the given radix ([char::to_digit]). *)
Definition to_digit (radix : Z) (b : ascii) : option Z :=
  let v := if is_ascii_digit b then byte_val b - 48
           else if in_range 97 122 b then byte_val b - 87
           else if in_range 65 90 b then byte_val b - 55
           else radix in
  if v <? radix then Some v else None.

(** The digits at the front, at most [fuel] of them: value, count, rest. *)
Fixpoint read_digits (radix : Z) (fuel : nat) (acc : Z) (count : nat) (l : bytes)
    : Z * nat * bytes :=
  match fuel, l with
  | S fuel', b :: rest =>
      match to_digit radix b with
      | Some d => read_digits radix fuel' (acc * radix + d) (S count) rest
      | None => (acc, count, l)
      end
  | _, _ => (acc, count, l)
  end.

(** [Parser::read_number] with a digit limit: a longer digit run fails, and so
    does a value above the maximum of the type, or, unless allowed, a zero in
    front of other digits. *)
Definition read_number (radix : Z) (max_digits : nat) (max_value : Z) (allow_zero_prefix : bool)
    : ip_parser Z := fun l =>
  let has_leading_zero := head_is (fun b => Ascii.eqb b "0"%char) l in
  let '(v, count, rest) := read_digits radix (S max_digits) 0 0 l in
  if (max_digits <? count)%nat then None
  else if max_value <? v then None
  else if (count =? 0)%nat then None
  else if negb allow_zero_prefix && has_leading_zero && (1 <? count)%nat then None
  else Some (v, rest).

(** [Parser::read_separator] *)
Definition read_separator {A} (sep : ascii) (index : nat) (inner : ip_parser A) : ip_parser A :=
  fun l => if (0 <? index)%nat
           then '(_, l') ← read_given_char sep l; inner l'
           else inner l.

(** [Parser::read_ipv4_addr] *)
Definition read_ipv4_addr : ip_parser (list Z) := fun l =>
  let octet i := read_separator "."%char i (read_number 10 3 255 false) in
  '(a, l) ← octet 0%nat l;
  '(b, l) ← octet 1%nat l;
  '(c, l) ← octet 2%nat l;
  '(d, l) ← octet 3%nat l;
  Some ([a; b; c; d], l).

(** [read_groups]: up to [limit] groups of an IPv6 address, an IPv4 address
    counting as two; the flag says that the last two came from one. *)
Fixpoint read_groups (left i limit : nat) (acc : list Z) (l : bytes) : list Z * bool * bytes :=
  match left with
  | O => (acc, false, l)
  | S left' =>
      let v4 := if (i <? limit - 1)%nat
                then read_separator ":"%char i read_ipv4_addr l else None in
      match v4 with
      | Some ([a; b; c; d], rest) => (acc ++ [a * 256 + b; c * 256 + d], true, rest)
      | _ =>
          match read_separator ":"%char i (read_number 16 4 65535 true) l with
          | Some (g, rest) => read_groups left' (S i) limit (acc ++ [g]) rest
          | None => (acc, false, l)
          end
      end
  end.

(** [Parser::read_ipv6_addr] *)
Definition read_ipv6_addr : ip_parser (list Z) := fun l =>
  let '(head, head_ipv4, l1) := read_groups 8 0 8 [] l in
  if (length head =? 8)%nat then Some (head, l1)
  else if head_ipv4 : bool then None
  else
    '(_, l2) ← read_given_char ":"%char l1;
    '(_, l3) ← read_given_char ":"%char l2;
    let limit := (8 - (length head + 1))%nat in
    let '(tl, _, l4) := read_groups limit 0 limit [] l3 in
    Some (head ++ replicate (8 - length head - length tl) 0 ++ tl, l4).

(** [<IpAddr as FromStr>::from_str]: an address and nothing after it. *)
Definition parse_ip (s : string) : option IpAddr :=
  let l := as_bytes s in
  let r := match read_ipv4_addr l with
           | Some (o, rest) => Some (V4 o, rest)
           | None => match read_ipv6_addr l with
                     | Some (g, rest) => Some (V6 g, rest)
                     | None => None
                     end
           end in
  match r with
  | Some (ip, []) => Some ip
  | _ => None
  end.

(** [IpAddr::is_loopback] *)
Definition is_loopback (ip : IpAddr) : bool :=
  match ip with
  | V4 (a :: _) => a =? 127
  | V4 [] => false
  | V6 g => bool_decide (g = [0; 0; 0; 0; 0; 0; 0; 1])
  end.

Example parse_loopback : parse_ip "127.0.0.1" = Some (V4 [127; 0; 0; 1]).
Proof. reflexivity. Qed.
Example parse_loopback6 : parse_ip "::1" = Some (V6 [0; 0; 0; 0; 0; 0; 0; 1]).
Proof. reflexivity. Qed.
Example parse_mapped : parse_ip "::ffff:127.0.0.1" = Some (V6 [0; 0; 0; 0; 0; 65535; 32512; 1]).
Proof. reflexivity. Qed.
Example parse_leading_zero : parse_ip "127.0.0.01" = None.
Proof. reflexivity. Qed.

(** ** Facts *)

Lemma read_number_range radix n m z l v rest :
  0 <= radix -> read_number radix n m z l = Some (v, rest) -> 0 <= v <= m.
Proof.
  intros Hradix. unfold read_number.
  assert (forall fuel acc c l', 0 <= acc -> 0 <= (read_digits radix fuel acc c l').1.1) as Hpos.
  { induction fuel as [| fuel IH]; intros acc c [| b l'] Hacc; simpl; try done.
    unfold to_digit. case_match; simpl; try done.
    repeat case_match; simplify_eq; try (unfold is_ascii_digit, in_range in *; bool_to_prop);
      apply IH; pose proof (byte_val_range b); nia. }
  specialize (Hpos (S n) 0 0%nat l). destruct (read_digits radix (S n) 0 0 l) as [[v' c'] rest'].
  simpl in Hpos. repeat case_match; try done. intros [= -> ->]. bool_to_prop. lia.
Qed.
