(* ===== verification/Secrets.v ===== *)
(** * Secrets and their public names

    [config::Secret], [audit::fingerprint] and [pool::key_suffix]: the only
    three ways a key leaves its owner.  SHA-256 comes from the [sha2] crate and
    is a parameter: a function from bytes to the 32 bytes of a digest. *)
From stdpp Require Import vector.
From S2P Require Export Text.

(** A secret value ([Secret(String)]); the projection is [Secret::as_str]. *)
Record Secret := secret_new { as_str : string }.

#[global] Instance Secret_eq_dec : EqDecision Secret.
Proof. solve_decision. Defined.

#[global] Instance secret_new_inj : Inj (=) (=) secret_new.
Proof. by intros ? ? [=]. Qed.

(** [<Secret as Debug>::fmt] *)
Definition secret_debug (s : Secret) : string := "Secret(***)".

(** [Sha256::digest], whose result type is an array of 32 bytes. *)
Class Sha256 := sha256 : bytes -> vec ascii 32.

Section Fingerprint.
Context `{Sha256}.

(** The digest in lower-case hexadecimal. *)
Definition digest_hex (secret : string) : bytes :=
  concat (hex_byte <$> vec_to_list (sha256 (as_bytes secret))).

(** [audit::fingerprint]: the first 12 hexadecimal digits. *)
Definition fingerprint (secret : string) : string := of_bytes (take 12 (digest_hex secret)).

End Fingerprint.

(** [pool::key_suffix]: the last six characters, on character boundaries. *)
Definition key_suffix (secret : string) : string :=
  of_chars (reverse (take 6 (reverse (chars secret)))).

(** ** Facts *)

Section FingerprintFacts.
Context `{Sha256}.

Lemma hex_bytes_length l : length (concat (hex_byte <$> l)) = (2 * length l)%nat.
Proof.
  induction l as [| b l IH]; [done |].
  rewrite fmap_cons. cbn [concat length]. rewrite length_app, IH. simpl. lia.
Qed.

(** The slice [hex[..12]] is in bounds: the digest has 64 digits. *)
Lemma digest_hex_length s : length (digest_hex s) = 64%nat.
Proof.
  unfold digest_hex. by rewrite hex_bytes_length, length_vec_to_list.
Qed.

Lemma fingerprint_length s : String.length (fingerprint s) = 12%nat.
Proof.
  unfold fingerprint. rewrite <- length_as_bytes, as_of_bytes, length_take, digest_hex_length. lia.
Qed.

End FingerprintFacts.

(** The suffix shows at most six characters, and they end the key. *)
Lemma key_suffix_spec s :
  exists shown hidden, key_suffix s = of_chars shown
    /\ chars s = hidden ++ shown /\ (length shown <= 6)%nat.
Proof.
  exists (reverse (take 6 (reverse (chars s)))), (reverse (drop 6 (reverse (chars s)))).
  split; [done |]. split.
  - by rewrite <- reverse_app, take_drop, reverse_involutive.
  - rewrite length_reverse, length_take. lia.
Qed.

(** ** A concrete digest for examples

    The first 32 bytes of the input, padded with zero bytes. *)
Definition toy_digest (input : bytes) : vec ascii 32 :=
  fun_to_vec (fun i : fin 32 => default zero (input !! fin_to_nat i)).
