(* ===== verification/Task.v ===== *)
(** * Tasks that share a state

    An asynchronous function is the sequence of its operations on the shared
    state, each of them atomic; between two of them any other task may run.
    [task] is the monad in which such functions are written, [follows] what a
    task promises, and [acts] the interleaving of any number of tasks. *)
From S2P Require Export Prelude.

(** ** The monad *)

(** What an operation does in a state: it goes on, it has to wait for another
    task, or it panics. *)
Inductive move (S T : Type) :=
| Goes (t : T) (s : S)
| Waits
| Panics.
Arguments Goes {S T} t s.
Arguments Waits {S T}.
Arguments Panics {S T}.

(** A task has returned or is about to run an operation.  Where it is suspended in
    an await its future can be dropped: [cancel] is what the drop does. *)
Inductive task (S A : Type) :=
| Ret (a : A)
| Op (cancel : option (S -> S)) (op : S -> move S (task S A)).
Arguments Ret {S A} a.
Arguments Op {S A} cancel op.

Fixpoint task_bind {S A B} (k : A -> task S B) (t : task S A) : task S B :=
  match t with
  | Ret a => k a
  | Op c op => Op c (fun s => match op s with
                              | Goes t' s' => Goes (task_bind k t') s'
                              | Waits => Waits
                              | Panics => Panics
                              end)
  end.
#[global] Instance task_ret S : MRet (task S) := fun A a => Ret a.
#[global] Instance task_mbind S : MBind (task S) := fun A B k t => task_bind k t.

Section Operations.
Context {S : Type}.

(** One operation that always goes on, one that may panic. *)
Definition act {A} (op : S -> A * S) : task S A := Op None (fun s => let '(a, s') := op s in Goes (Ret a) s').
Definition act_or_panic {A} (op : S -> option (A * S)) : task S A :=
  Op None (fun s => match op s with Some (a, s') => Goes (Ret a) s' | None => Panics end).
Definition asks {A} (f : S -> A) : task S A := act (fun s => (f s, s)).
Definition changes (f : S -> S) : task S () := act (fun s => ((), f s)).
Definition panic {A} : task S A := Op None (fun _ => Panics).

(** An operation that is awaited: [None] of [op] is a wait, of its result a
    panic; [cancel] runs when the future is dropped meanwhile. *)
Definition await {A} (cancel : S -> S) (op : S -> option (option (A * S))) : task S A :=
  Op (Some cancel) (fun s => match op s with
                             | Some (Some (a, s')) => Goes (Ret a) s'
                             | Some None => Panics
                             | None => Waits
                             end).

(** A guard in scope while [t] runs: [release] is its [Drop]. *)
Fixpoint holding {A} (release : S -> S) (t : task S A) : task S A :=
  match t with
  | Ret a => Op None (fun s => Goes (Ret a) (release s))
  | Op c op => Op ((fun f s => release (f s)) <$> c)
                 (fun s => match op s with
                           | Goes t' s' => Goes (holding release t') s'
                           | Waits => Waits
                           | Panics => Panics
                           end)
  end.

(** A task on a part of the state. *)
Fixpoint zoom {P A} (get : S -> P) (set : P -> S -> S) (t : task P A) : task S A :=
  match t with
  | Ret a => Ret a
  | Op c op => Op ((fun f s => set (f (get s)) s) <$> c)
                 (fun s => match op (get s) with
                           | Goes t' p => Goes (zoom get set t') (set p s)
                           | Waits => Waits
                           | Panics => Panics
                           end)
  end.

(** A loop whose body returns or goes on with another state: at most [n] rounds of
    it, a binary number, and the loop that must return within them. *)
Fixpoint rounds {A X} (body : X -> task S (A + X)) (n : positive) (x : X) : task S (A + X) :=
  match n with
  | xH => body x
  | xO n =>
      r ← rounds body n x;
      match r with inl a => mret (inl a) | inr x => rounds body n x end
  | xI n =>
      r ← body x;
      match r with
      | inl a => mret (inl a)
      | inr x =>
          r ← rounds body n x;
          match r with inl a => mret (inl a) | inr x => rounds body n x end
      end
  end.
Definition loop_within {A X} (n : positive) (body : X -> task S (A + X)) (x : X) : task S A :=
  r ← rounds body n x;
  match r with inl a => mret a | inr _ => panic end.

(** The task runs to its end while [others n] acts before its [n]th operation. *)
Fixpoint run {A} (others : nat -> S -> S) (n : nat) (t : task S A) (s : S) : move S A :=
  match t with
  | Ret a => Goes a s
  | Op _ op => match op (others n s) with
               | Goes t' s' => run others (Datatypes.S n) t' s'
               | Waits => Waits
               | Panics => Panics
               end
  end.
Definition run_alone {A} (t : task S A) (s : S) : move S A := run (fun _ => id) 0 t s.

(** The states its operations find. *)
Fixpoint saw {A} (others : nat -> S -> S) (n : nat) (t : task S A) (s : S) : list S :=
  match t with
  | Ret _ => []
  | Op _ op => let s := others n s in
               s :: match op s with Goes t' s' => saw others (Datatypes.S n) t' s' | _ => [] end
  end.

(** ** Interleavings *)

Inductive proc (A : Type) := Live (t : task S A) | Cancelled.
Arguments Live {A} t.
Arguments Cancelled {A}.

(** The shared state and every task that was ever started. *)
Abbreviation world A := (S * list (proc A))%type.

(** A task runs its next operation. *)
Inductive moves {A} : world A -> world A -> Prop :=
| move_one s ps i c op t s' : ps !! i = Some (Live (Op c op)) -> op s = Goes t s' ->
    moves (s, ps) (s', <[i := Live t]> ps).

(** What can happen: a task starts, runs an operation, is dropped at an await; or
    the rest of the program changes the state. *)
Inductive acts {A} (starts : task S A -> Prop) (outside : S -> S -> Prop) : world A -> world A -> Prop :=
| act_start s ps t : starts t -> acts starts outside (s, ps) (s, ps ++ [Live t])
| act_move w w' : moves w w' -> acts starts outside w w'
| act_cancel s ps i f op : ps !! i = Some (Live (Op (Some f) op)) ->
    acts starts outside (s, ps) (f s, <[i := Cancelled]> ps)
| act_outside s s' ps : outside s s' -> acts starts outside (s, ps) (s', ps).

(** Nothing is left to do. *)
Definition at_rest {A} (p : proc A) : bool := match p with Live (Op _ _) => false | _ => true end.

(** ** Promises *)

(** A ghost state [G] follows the task: [step_ok x s s' y] says what an operation
    may do to the shared state while the ghost goes from [x] to [y], and
    [drop_ok x s s'] what dropping the task must do.  All of it where [keeps]
    holds of the shared state. *)
Record protocol (G : Type) := mk_protocol {
  keeps : S -> Prop;
  step_ok : G -> S -> S -> G -> Prop;
  drop_ok : G -> S -> S -> Prop;
  wait_ok : G -> S -> Prop;
  panic_ok : Prop;
}.
Arguments mk_protocol {G}.
Arguments keeps {G}.
Arguments step_ok {G}.
Arguments drop_ok {G}.
Arguments wait_ok {G}.
Arguments panic_ok {G}.

Definition cancel_ok {G} (P : protocol G) (x : G) (f : S -> S) : Prop :=
  forall s, keeps P s -> keeps P (f s) /\ drop_ok P x s (f s).

(** The result has the property [Q] then. *)
Fixpoint follows {G A} (P : protocol G) (Q : G -> A -> Prop) (x : G) (t : task S A) : Prop :=
  match t with
  | Ret a => Q x a
  | Op c op =>
      match c with Some f => cancel_ok P x f | None => True end
      /\ forall s, keeps P s ->
           match op s with
           | Goes t' s' => keeps P s' /\ exists y, step_ok P x s s' y /\ follows P Q y t'
           | Waits => wait_ok P x s
           | Panics => panic_ok P
           end
  end.

(** Other demands on a drop. *)
Definition dropping {G} (D : G -> S -> S -> Prop) (P : protocol G) : protocol G :=
  mk_protocol (keeps P) (step_ok P) D (wait_ok P) (panic_ok P).
End Operations.
Arguments Live {S A} t.
Arguments Cancelled {S A}.
Arguments proc S A : clear implicits.
Arguments protocol S G : clear implicits.
Arguments mk_protocol {S G}.
Arguments keeps {S G}.
Arguments step_ok {S G}.
Arguments drop_ok {S G}.
Arguments wait_ok {S G}.
Arguments panic_ok {S G}.
Abbreviation world S A := (S * list (proc S A))%type.

Definition task_ind' {S A} (R : task S A -> Prop) (Hret : forall a, R (Ret a))
    (Hop : forall c op, (forall s t s', op s = Goes t s' -> R t) -> R (Op c op)) : forall t, R t :=
  fix IH t :=
    match t with
    | Ret a => Hret a
    | Op c op => Hop c op (fun s t s' =>
        match op s as m return m = Goes t s' -> R t with
        | Goes t1 s1 => fun Heq => match Heq in _ = m0 return match m0 with Goes t2 _ => R t2 | _ => True end
                                   with eq_refl => IH t1 end
        | Waits => fun Heq => match Heq in _ = m0 return match m0 with Goes t2 _ => R t2 | _ => True end
                              with eq_refl => I end
        | Panics => fun Heq => match Heq in _ = m0 return match m0 with Goes t2 _ => R t2 | _ => True end
                               with eq_refl => I end
        end)
    end.

Section Rules.
Context {S G : Type}.
Implicit Types P : protocol S G.

Lemma follows_bind {A B} P (Q : G -> A -> Prop) (Q' : G -> B -> Prop) (k : A -> task S B) t : forall x,
  follows P Q x t -> (forall y a, Q y a -> follows P Q' y (k a)) -> follows P Q' x (t ≫= k).
Proof.
  induction t as [a | c op IH] using task_ind'; intros x Ht Hk; [by apply Hk |].
  destruct Ht as [Hc Hop]. split; [done |]. intros s Hs. specialize (Hop s Hs).
  destruct (op s) as [t' s' | |] eqn:Heq; [| done | done].
  destruct Hop as (Hs' & y & Hy & Ht'). split; [done |]. exists y. split; [done |]. by eapply IH.
Qed.

Lemma follows_mono {A} P (Q Q' : G -> A -> Prop) t : forall x,
  follows P Q x t -> (forall y a, Q y a -> Q' y a) -> follows P Q' x t.
Proof.
  induction t as [a | c op IH] using task_ind'; intros x Ht Hq; [by apply Hq |].
  destruct Ht as [Hc Hop]. split; [done |]. intros s Hs. specialize (Hop s Hs).
  destruct (op s) as [t' s' | |] eqn:Heq; [| done | done].
  destruct Hop as (Hs' & y & Hy & Ht'). split; [done |]. exists y. split; [done |]. by eapply IH.
Qed.

(** One operation, and the rest. *)
Lemma follows_act {A B} P (Q : G -> B -> Prop) x (op : S -> A * S) (k : A -> task S B) :
  (forall s, keeps P s -> keeps P (op s).2 /\ exists y, step_ok P x s (op s).2 y /\ follows P Q y (k (op s).1)) ->
  follows P Q x (act op ≫= k).
Proof. intros Hop. split; [done |]. intros s Hs. specialize (Hop s Hs). cbn. by destruct (op s). Qed.

Lemma follows_asks {A B} P (Q : G -> B -> Prop) x (f : S -> A) (k : A -> task S B) :
  (forall s, keeps P s -> exists y, step_ok P x s s y /\ follows P Q y (k (f s))) ->
  follows P Q x (asks f ≫= k).
Proof. intros Hop. apply follows_act. eauto. Qed.

Lemma follows_changes {B} P (Q : G -> B -> Prop) x f (k : () -> task S B) :
  (forall s, keeps P s -> keeps P (f s) /\ exists y, step_ok P x s (f s) y /\ follows P Q y (k ())) ->
  follows P Q x (changes f ≫= k).
Proof. intros Hop. by apply follows_act. Qed.

Lemma follows_act_or_panic {A B} P (Q : G -> B -> Prop) x (op : S -> option (A * S)) (k : A -> task S B) :
  (forall s, keeps P s ->
     match op s with
     | Some (a, s') => keeps P s' /\ exists y, step_ok P x s s' y /\ follows P Q y (k a)
     | None => panic_ok P
     end) -> follows P Q x (act_or_panic op ≫= k).
Proof. intros Hop. split; [done |]. intros s Hs. specialize (Hop s Hs). cbn. by destruct (op s) as [[a s'] |]. Qed.

Lemma follows_await {A B} P (Q : G -> B -> Prop) x f (op : S -> option (option (A * S))) (k : A -> task S B) :
  cancel_ok P x f ->
  (forall s, keeps P s ->
     match op s with
     | Some (Some (a, s')) => keeps P s' /\ exists y, step_ok P x s s' y /\ follows P Q y (k a)
     | Some None => panic_ok P
     | None => wait_ok P x s
     end) -> follows P Q x (await f op ≫= k).
Proof.
  intros Hc Hop. split; [done |]. intros s Hs. specialize (Hop s Hs). cbn. by destruct (op s) as [[[a s'] |] |].
Qed.

(** A loop; [I i] holds when at most [i] rounds are left. *)
Lemma follows_rounds {A X} P (I : nat -> G -> X -> Prop) (Q : G -> A -> Prop) (body : X -> task S (A + X)) :
  (forall i y x, I (Datatypes.S i) y x ->
     follows P (fun z r => match r with inl a => Q z a | inr x' => I i z x' end) y (body x)) ->
  forall n i y x, I (Pos.to_nat n + i)%nat y x ->
  follows P (fun z r => match r with inl a => Q z a | inr x' => I i z x' end) y (rounds body n x).
Proof.
  intros Hbody. induction n as [n IH | n IH |]; intros i y x Hx; cbn [rounds].
  - replace (Pos.to_nat n~1 + i)%nat with (Datatypes.S (Pos.to_nat n + (Pos.to_nat n + i)))%nat in Hx by lia.
    eapply follows_bind; [by apply Hbody |]. intros z [a | x'] Hz; [exact Hz |].
    eapply follows_bind; [by apply IH |]. intros z' [a | x''] Hz'; [exact Hz' | by apply IH].
  - replace (Pos.to_nat n~0 + i)%nat with (Pos.to_nat n + (Pos.to_nat n + i))%nat in Hx by lia.
    eapply follows_bind; [by apply IH |]. intros z [a | x'] Hz; [exact Hz | by apply IH].
  - by apply Hbody.
Qed.

Lemma follows_loop {A X} P (I : nat -> G -> X -> Prop) (Q : G -> A -> Prop) (body : X -> task S (A + X)) n y x :
  (forall i y x, I (Datatypes.S i) y x ->
     follows P (fun z r => match r with inl a => Q z a | inr x' => I i z x' end) y (body x)) ->
  (forall z x, I 0%nat z x -> panic_ok P) -> I (Pos.to_nat n) y x ->
  follows P Q y (loop_within n body x).
Proof.
  intros Hbody Hout Hx. unfold loop_within. eapply follows_bind; [apply (follows_rounds P I Q); [done |]; by rewrite Nat.add_0_r |].
  intros z [a | x'] Hz; [exact Hz |]. split; [done |]. intros s _. by eapply Hout.
Qed.

(** A task at its last operation. *)
Lemma follows_last {A} P (Q : G -> A -> Prop) x (t : task S A) : follows P Q x (t ≫= mret) -> follows P Q x t.
Proof.
  revert x. induction t as [a | c op IH] using task_ind'; intros x Ht; [done |].
  destruct Ht as [Hc Hop]. split; [done |]. intros s Hs. specialize (Hop s Hs).
  destruct (op s) as [t' s' | |] eqn:Heq; [| done | done].
  destruct Hop as (Hs' & y & Hy & Ht'). eauto 10.
Qed.

(** A protocol that demands nothing but that the ghost keeps up. *)
Lemma follows_free {A} P (K : G -> Prop) (t : task S A) :
  (forall s, keeps P s) -> (forall x s s', K x -> exists y, step_ok P x s s' y /\ K y) ->
  (forall x s s', drop_ok P x s s') -> (forall x s, wait_ok P x s) -> panic_ok P ->
  forall x, K x -> follows P (fun y _ => K y) x t.
Proof.
  intros Hk Hstep Hdrop Hwait Hpan. induction t as [a | c op IH] using task_ind'; intros x Hx; [done |].
  split; [destruct c; [by split | done] |]. intros s Hs. destruct (op s) as [t' s' | |] eqn:Heq; [| done | done].
  destruct (Hstep x s s' Hx) as (y & Hy & HK). split; [done |]. exists y. split; [done |]. by eapply IH.
Qed.

(** A guard: a drop of the body is followed by the guard's release, and so is its
    result. *)
Lemma follows_holding {A} P D (Q Q' : G -> A -> Prop) release t :
  (forall x s s', keeps P s' -> drop_ok P x s s' -> keeps P (release s') /\ D x s (release s')) ->
  (forall x a s, keeps P s -> Q x a ->
     keeps P (release s) /\ exists y, step_ok P x s (release s) y /\ Q' y a) ->
  forall x, follows P Q x t -> follows (dropping D P) Q' x (holding release t).
Proof.
  intros Hdrop Hend. induction t as [a | c op IH] using task_ind'; intros x Ht.
  { split; [done |]. intros s Hs. by apply Hend. }
  destruct Ht as [Hc Hop]. split.
  - destruct c as [f |]; [| done]. intros s Hs. destruct (Hc s Hs). by apply Hdrop.
  - intros s Hs. specialize (Hop s Hs). destruct (op s) as [t' s' | |] eqn:Heq; [| done | done].
    destruct Hop as (Hs' & y & Hy & Ht'). split; [done |]. exists y. split; [done |]. by eapply IH.
Qed.

(** Another protocol for the same task; [e] turns the ghosts of the one into those
    of the other. *)
Lemma follows_map {G' A} (P : protocol S G) (P' : protocol S G') (e : G -> G') (Q : G -> A -> Prop) (Q' : G' -> A -> Prop) t :
  (forall s, keeps P' s -> keeps P s) ->
  (forall x s s' y, keeps P' s -> keeps P s' -> step_ok P x s s' y -> keeps P' s' /\ step_ok P' (e x) s s' (e y)) ->
  (forall x s s', keeps P' s -> keeps P s' -> drop_ok P x s s' -> keeps P' s' /\ drop_ok P' (e x) s s') ->
  (forall x s, wait_ok P x s -> wait_ok P' (e x) s) -> (panic_ok P -> panic_ok P') ->
  (forall x a, Q x a -> Q' (e x) a) ->
  forall x, follows P Q x t -> follows P' Q' (e x) t.
Proof.
  intros Hk Hstep Hdrop Hwait Hpan Hq. induction t as [a | c op IH] using task_ind'; intros x Ht; [by apply Hq |].
  destruct Ht as [Hc Hop]. split.
  - destruct c as [f |]; [| done]. intros s Hs. destruct (Hc _ (Hk _ Hs)). by apply Hdrop.
  - intros s Hs. specialize (Hop _ (Hk s Hs)). destruct (op s) as [t' s' | |] eqn:Heq; [| auto | auto].
    destruct Hop as (Hs' & y & Hy & Ht'). destruct (Hstep x s s' y Hs Hs' Hy) as [? ?].
    split; [done |]. exists (e y). split; [done |]. by eapply IH.
Qed.

(** A task on a part of the state; [e] turns its ghost into that of the whole. *)
Lemma follows_zoom_map {T G' A} (P : protocol S G) (P' : protocol T G') (e : G -> G') (Q : G -> A -> Prop) (Q' : G' -> A -> Prop)
    get set t :
  (forall s, keeps P' s -> keeps P (get s)) ->
  (forall x s p y, keeps P' s -> keeps P p -> step_ok P x (get s) p y ->
     keeps P' (set p s) /\ step_ok P' (e x) s (set p s) (e y)) ->
  (forall x s p, keeps P' s -> keeps P p -> drop_ok P x (get s) p ->
     keeps P' (set p s) /\ drop_ok P' (e x) s (set p s)) ->
  (forall x s, wait_ok P x (get s) -> wait_ok P' (e x) s) -> (panic_ok P -> panic_ok P') ->
  (forall x a, Q x a -> Q' (e x) a) ->
  forall x, follows P Q x t -> follows P' Q' (e x) (zoom get set t).
Proof.
  intros Hk Hstep Hdrop Hwait Hpan Hq. induction t as [a | c op IH] using task_ind'; intros x Ht; [by apply Hq |].
  destruct Ht as [Hc Hop]. split.
  - destruct c as [f |]; [| done]. intros s Hs. destruct (Hc _ (Hk _ Hs)). by apply Hdrop.
  - intros s Hs. specialize (Hop _ (Hk s Hs)). destruct (op (get s)) as [t' p | |] eqn:Heq; [| auto | auto].
    destruct Hop as (Hp & y & Hy & Ht'). destruct (Hstep x s p y Hs Hp Hy) as [? ?].
    split; [done |]. exists (e y). split; [done |]. by eapply IH.
Qed.

Lemma follows_zoom {T A} (P : protocol S G) (P' : protocol T G) (Q : G -> A -> Prop) get set t :
  (forall s, keeps P' s -> keeps P (get s)) ->
  (forall x s p y, keeps P' s -> keeps P p -> step_ok P x (get s) p y ->
     keeps P' (set p s) /\ step_ok P' x s (set p s) y) ->
  (forall x s p, keeps P' s -> keeps P p -> drop_ok P x (get s) p -> keeps P' (set p s) /\ drop_ok P' x s (set p s)) ->
  (forall x s, wait_ok P x (get s) -> wait_ok P' x s) -> (panic_ok P -> panic_ok P') ->
  forall x, follows P Q x t -> follows P' Q x (zoom get set t).
Proof. intros. by apply (follows_zoom_map P P' id Q Q). Qed.

(** The ghost counts the operations that are left; nothing panics where [K] holds. *)
Definition counting (K : S -> Prop) : protocol S nat :=
  mk_protocol K (fun x _ _ y => (y < x)%nat) (fun _ _ _ => True) (fun _ _ => True) False.

(** A guard costs one operation. *)
Lemma holding_counting {A} (K : S -> Prop) (n : nat) (Q : A -> Prop) x f (t : task S A) :
  (forall s, K s -> K (f s)) -> follows (counting K) (fun y a => (Datatypes.S n <= y)%nat /\ Q a) x t ->
  follows (counting K) (fun y a => (n <= y)%nat /\ Q a) x (holding f t).
Proof.
  intros Hf. revert x. induction t as [a | c op IH] using task_ind'; intros x Ht.
  { split; [done |]. intros s Hs. split; [by apply Hf |]. destruct Ht as [Hy Ha]. exists n. split; [simpl; lia | by split]. }
  destruct Ht as [Hc Hop]. split.
  - destruct c as [g |]; [| done]. intros s Hs. destruct (Hc s Hs). split; [by apply Hf | done].
  - intros s Hs. specialize (Hop s Hs). destruct (op s) as [t' s' | |] eqn:Heq; [| done | done].
    destruct Hop as (Hs' & y & Hy & Ht'). split; [done |]. exists y. split; [done |]. by eapply IH.
Qed.

(** [run] meets the promises of a task that neither waits nor panics. *)
Lemma follows_run {A} P (Q : G -> A -> Prop) others t : forall n x s,
  follows P Q x t -> keeps P s -> (forall n s, keeps P s -> keeps P (others n s)) ->
  (forall x s, ~ wait_ok P x s) -> ~ panic_ok P ->
  exists y a s', run others n t s = Goes a s' /\ Q y a /\ keeps P s'.
Proof.
  induction t as [a | c op IH] using task_ind'; intros n x s Ht Hs Hoth Hwait Hpan; [eauto 10 |].
  destruct Ht as [_ Hop]. specialize (Hop _ (Hoth n s Hs)). cbn [run].
  destruct (op (others n s)) as [t' s' | |] eqn:Heq; [| by apply Hwait in Hop | done].
  destruct Hop as (Hs' & y & _ & Ht'). by eapply IH.
Qed.

(** *** Every interleaving *)

Definition proc_ok {A} P (Q : G -> A -> Prop) (x : option G) (p : proc S A) : Prop :=
  match p, x with
  | Live t, Some x => follows P Q x t
  | Cancelled, None => True
  | _, _ => False
  end.

(** An invariant of the shared state and the ghosts of all tasks, with what it has
    become after one event. *)
Record preserves P (x0 : G) (outside : S -> S -> Prop) (Inv Inv' : S -> list (option G) -> Prop) : Prop := {
  wi_keeps : forall s xs, Inv s xs -> keeps P s;
  wi_start : forall s xs, Inv s xs -> Inv' s (xs ++ [Some x0]);
  wi_step : forall s xs i x s' y, Inv s xs -> xs !! i = Some (Some x) -> keeps P s' -> step_ok P x s s' y ->
    Inv' s' (<[i := Some y]> xs);
  wi_drop : forall s xs i x s', Inv s xs -> xs !! i = Some (Some x) -> keeps P s' -> drop_ok P x s s' ->
    Inv' s' (<[i := None]> xs);
  wi_outside : forall s xs s', Inv s xs -> outside s s' -> Inv' s' xs;
}.
Lemma acts_ok {A} P (Q : G -> A -> Prop) x0 starts outside Inv Inv' w w' xs :
  preserves P x0 outside Inv Inv' -> (forall t, starts t -> follows P Q x0 t) ->
  acts starts outside w w' -> Forall2 (proc_ok P Q) xs w.2 -> Inv w.1 xs ->
  exists xs', Forall2 (proc_ok P Q) xs' w'.2 /\ Inv' w'.1 xs'.
Proof.
  intros HI Hst Hact Hps Hinv. destruct Hact as [s ps t Ht | w w' Hmove | s ps i f op Hi | s s' ps Hout]; simpl in *.
  - exists (xs ++ [Some x0]). split; [apply Forall2_app; [done |]; constructor; [by apply Hst | done] |].
    by eapply wi_start.
  - destruct Hmove as [s ps i c op t s' Hi Hop]. simpl in *.
    destruct (Forall2_lookup_r _ _ _ _ _ Hps Hi) as ([x |] & Hx & Hp); [| done].
    destruct Hp as [_ Hp]. specialize (Hp s (wi_keeps _ _ _ _ _ HI _ _ Hinv)). rewrite Hop in Hp.
    destruct Hp as (Hs' & y & Hy & Ht). exists (<[i := Some y]> xs).
    split; [by apply Forall2_insert | by eapply wi_step].
  - destruct (Forall2_lookup_r _ _ _ _ _ Hps Hi) as ([x |] & Hx & Hp); [| done].
    destruct Hp as [Hp _]. destruct (Hp s (wi_keeps _ _ _ _ _ HI _ _ Hinv)) as [Hs' Hd].
    exists (<[i := None]> xs). split; [by apply Forall2_insert | by eapply wi_drop].
  - exists xs. split; [done |]. by eapply wi_outside.
Qed.

(** After [n] events, when the invariant depends on their number. *)
Lemma events_ok {A} P (Q : G -> A -> Prop) x0 starts outside (Inv : nat -> S -> list (option G) -> Prop) n : forall s w,
  (forall n, preserves P x0 outside (Inv n) (Inv (Datatypes.S n))) -> (forall t, starts t -> follows P Q x0 t) ->
  Inv 0%nat s [] -> nsteps (acts starts outside) n (s, []) w ->
  exists xs, Forall2 (proc_ok P Q) xs w.2 /\ Inv n w.1 xs.
Proof.
  intros s w HI Hst Hs. revert w. induction n as [| n IH]; intros w.
  - intros Hrun. inversion Hrun; subst. by exists [].
  - intros (w1 & Hrun & Hact)%nsteps_inv_r. destruct (IH _ Hrun) as (xs & Hps & Hinv). by eapply acts_ok.
Qed.

Lemma reachable_ok {A} P (Q : G -> A -> Prop) x0 starts outside Inv s w :
  preserves P x0 outside Inv Inv -> (forall t, starts t -> follows P Q x0 t) ->
  Inv s [] -> rtc (acts starts outside) (s, []) w ->
  exists xs, Forall2 (proc_ok P Q) xs w.2 /\ Inv w.1 xs.
Proof.
  intros HI Hst Hs [n Hrun]%rtc_nsteps. by eapply (events_ok _ _ _ _ _ (fun _ => Inv)).
Qed.
End Rules.
Lemma counting_zoom {S T A} (K : S -> Prop) (K' : T -> Prop) (Q : nat -> A -> Prop) get set x (t : task S A) :
  (forall s, K' s -> K (get s)) -> (forall s p, K' s -> K p -> K' (set p s)) ->
  follows (counting K) Q x t -> follows (counting K') Q x (zoom get set t).
Proof.
  intros Hk Hs. apply (follows_zoom (counting K)); [done | | | done | done].
  - intros y s p z Hy Hp Hz. split; [by apply Hs | done].
  - intros y s p Hy Hp _. split; [by apply Hs | done].
Qed.

(** An invariant whatever the number of events. *)
Abbreviation world_invariant P x0 outside Inv := (preserves P x0 outside Inv Inv).

(** From any world on. *)
Lemma continues_ok {S A G} (P : protocol S G) (Q : G -> A -> Prop) x0 starts outside Inv w w' xs :
  world_invariant P x0 outside Inv -> (forall t, starts t -> follows P Q x0 t) ->
  rtc (acts starts outside) w w' -> Forall2 (proc_ok P Q) xs w.2 -> Inv w.1 xs ->
  exists xs', Forall2 (proc_ok P Q) xs' w'.2 /\ Inv w'.1 xs'.
Proof.
  intros HI Hst Hrun. revert xs. induction Hrun as [w | w1 w2 w3 Hact _ IH]; intros xs Hps Hinv; [eauto |].
  destruct (acts_ok _ _ _ _ _ _ _ _ _ _ HI Hst Hact Hps Hinv) as (xs' & Hps' & Hinv'). eauto.
Qed.

(** More may happen. *)
Lemma acts_mono {S A} (starts starts' : task S A -> Prop) (outside outside' : S -> S -> Prop) w w' :
  (forall t, starts t -> starts' t) -> (forall s s', outside s s' -> outside' s s') ->
  rtc (acts starts outside) w w' -> rtc (acts starts' outside') w w'.
Proof.
  intros Hst Hout Hrun. eapply rtc_congruence with (f := fun w => w); [| exact Hrun]. clear w w' Hrun.
  intros w w' []; [apply act_start | apply act_move | eapply act_cancel | apply act_outside]; eauto.
Qed.

(** *** Sums over the ghosts of all tasks *)

(** A dropped task has none. *)
Definition sum_over {G} (f : G -> Z) (xs : list (option G)) : Z := foldr (fun o n => from_option f 0 o + n) 0 xs.

Lemma sum_over_app {G} (f : G -> Z) xs ys : sum_over f (xs ++ ys) = sum_over f xs + sum_over f ys.
Proof. unfold sum_over. induction xs as [| x xs IH]; simpl; [done |]. rewrite IH. lia. Qed.

Lemma sum_over_insert {G} (f : G -> Z) xs i x y :
  xs !! i = Some x -> sum_over f (<[i := y]> xs) = sum_over f xs - from_option f 0 x + from_option f 0 y.
Proof.
  intros Hi. rewrite insert_take_drop by (by eapply lookup_lt_Some).
  rewrite <- (take_drop_middle xs i x Hi) at 3. rewrite !sum_over_app. simpl. lia.
Qed.

Lemma sum_over_zero {G} (f : G -> Z) xs : (forall i x, xs !! i = Some (Some x) -> f x = 0) -> sum_over f xs = 0.
Proof.
  induction xs as [| [x |] xs IH]; intros Hz; [done | |]; simpl.
  - rewrite (Hz 0%nat x eq_refl), IH; [done |]. intros i y Hi. by apply (Hz (S i)).
  - rewrite IH; [done |]. intros i y Hi. by apply (Hz (S i)).
Qed.

Lemma sum_over_mono {G} (f g : G -> Z) xs : (forall i x, xs !! i = Some (Some x) -> f x <= g x) -> sum_over f xs <= sum_over g xs.
Proof.
  induction xs as [| [x |] xs IH]; intros Hle; [done | |]; simpl.
  - pose proof (Hle 0%nat x eq_refl). assert (sum_over f xs <= sum_over g xs); [| lia]. apply IH. intros i y Hi. by apply (Hle (S i)).
  - apply IH. intros i y Hi. by apply (Hle (S i)).
Qed.

Lemma sum_over_nonneg {G} (f : G -> Z) xs : (forall i x, xs !! i = Some (Some x) -> 0 <= f x) -> 0 <= sum_over f xs.
Proof.
  intros Hf. pose proof (sum_over_mono (fun _ => 0) f xs Hf) as Hle. rewrite sum_over_zero in Hle by done. done.
Qed.

Lemma sum_over_nonzero {G} (f : G -> Z) xs : sum_over f xs <> 0 -> exists i x, xs !! i = Some (Some x) /\ f x <> 0.
Proof.
  induction xs as [| [x |] xs IH]; intros Hne; [done | |]; simpl in Hne.
  - destruct (decide (f x = 0)) as [Hx | Hx]; [| by exists 0%nat, x]. rewrite Hx in Hne.
    destruct IH as (i & y & Hy); [done |]. by exists (S i), y.
  - destruct IH as (i & y & Hy); [done |]. by exists (S i), y.
Qed.

(** One of several amounts that are not negative. *)
Lemma sum_over_lookup {G} (f : G -> Z) xs i x :
  (forall i x, xs !! i = Some (Some x) -> 0 <= f x) -> xs !! i = Some (Some x) -> f x <= sum_over f xs.
Proof.
  intros Hf Hi. rewrite <- (take_drop_middle xs i _ Hi), sum_over_app. simpl.
  assert (0 <= sum_over f (take i xs)).
  { apply sum_over_nonneg. intros j y Hj. apply (Hf j). apply lookup_take_Some in Hj. apply Hj. }
  assert (0 <= sum_over f (drop (S i) xs)); [| lia].
  apply sum_over_nonneg. intros j y Hj. rewrite lookup_drop in Hj. by eapply Hf.
Qed.

(** *** What a task sees *)

Section Seeing.
Context {S : Type}.

(** The ghost that collects the states of [saw]; nothing is demanded. *)
Definition seeing : protocol S (list S) :=
  mk_protocol (fun _ => True) (fun x s _ y => y = x ++ [s]) (fun _ _ _ => True) (fun _ _ => True) True.

Lemma follows_saw {A} (Q : list S -> A -> Prop) others t : forall n x s a s',
  follows seeing Q x t -> run others n t s = Goes a s' -> Q (x ++ saw others n t s) a.
Proof.
  induction t as [a | c op IH] using task_ind'; intros n x s b s' Ht Hrun; cbn [run saw] in *.
  { injection Hrun as <- <-. by rewrite app_nil_r. }
  destruct Ht as [_ Hop]. specialize (Hop (others n s) Logic.I).
  destruct (op (others n s)) as [t' s1 | |] eqn:Heq; [| done | done].
  destruct Hop as (_ & y & -> & Ht'). rewrite cons_middle, app_assoc. eapply IH; [exact Heq | exact Ht' | done].
Qed.

(** The state in which it leaves the shared state, or the one at the start when it
    runs no operation. *)
Definition leaving : protocol S S :=
  mk_protocol (fun _ => True) (fun _ _ s' y => y = s') (fun _ _ _ => True) (fun _ _ => True) True.

Lemma follows_leaves {A} (Q : S -> A -> Prop) others t : forall n s a s',
  follows leaving Q s t -> run others n t s = Goes a s' -> Q s' a.
Proof.
  induction t as [a | c op IH] using task_ind'; intros n s b s' Ht Hrun; cbn [run] in *.
  { by injection Hrun as <- <-. }
  destruct Ht as [_ Hop]. specialize (Hop (others n s) Logic.I).
  destruct (op (others n s)) as [t' s1 | |] eqn:Heq; [| done | done].
  destruct Hop as (_ & y & -> & Ht'). by eapply IH.
Qed.

Lemma follows_seeing {A} (K : list S -> Prop) (t : task S A) x :
  (forall x s, K x -> K (x ++ [s])) -> K x -> follows seeing (fun y _ => K y) x t.
Proof. intros HK Hx. apply follows_free; try done. intros y s s' Hy. exists (y ++ [s]). split; [done | by apply HK]. Qed.
End Seeing.

(** ** An interleaved task is a task among others *)

Section Interleaved.
Context {S A : Type} (starts : task S A -> Prop) (outside : S -> S -> Prop).

(** A state that occurs on the way to [w]. *)
Definition occurs (s0 s : S) (w : world S A) : Prop :=
  exists ps, rtc (acts starts outside) (s0, []) (s, ps) /\ rtc (acts starts outside) (s, ps) w.

(** A task has come from its start to [t] through operations that found the states
    [l]. *)
Definition came_to (s0 : S) (w : world S A) (t : task S A) : Prop :=
  exists t0 l, starts t0 /\ Forall (fun s => occurs s0 s w) l /\
    forall others s, (forall k x y, l !! k = Some x -> others k y = x) ->
    exists s', run others 0 t0 s = run others (length l) t s'
      /\ saw others 0 t0 s = l ++ saw others (length l) t s'.

Lemma occurs_more s0 s w w' : occurs s0 s w -> acts starts outside w w' -> occurs s0 s w'.
Proof. intros (ps & Hpre & Hpost) Hact. exists ps. split; [done | by eapply rtc_r]. Qed.
Lemma came_to_more s0 w w' t : came_to s0 w t -> acts starts outside w w' -> came_to s0 w' t.
Proof.
  intros (t0 & l & Ht0 & Hl & Hrun) Hact. exists t0, l. split_and!; [done | | done].
  eapply Forall_impl; [exact Hl |]. intros s Hs. exact (occurs_more _ _ _ _ Hs Hact).
Qed.

Lemma came_to_step s0 s ps w' i c op t s' :
  rtc (acts starts outside) (s0, []) (s, ps) -> ps !! i = Some (Live (Op c op)) -> op s = Goes t s' ->
  acts starts outside (s, ps) w' -> came_to s0 (s, ps) (Op c op) -> came_to s0 w' t.
Proof.
  intros Hrun Hi Hop Hact (t0 & l & Ht0 & Hl & Heq). exists t0, (l ++ [s]). split_and!; [done | |].
  - apply Forall_app. split; [eapply Forall_impl; [exact Hl |]; intros x Hx; exact (occurs_more _ _ _ _ Hx Hact) |].
    constructor; [| done]. exists ps. split; [done | by apply rtc_once].
  - intros others x Hoth. destruct (Heq others x) as (y & Hr & Hs).
    { intros k z u Hk. apply Hoth. rewrite lookup_app_l; [exact Hk | by eapply lookup_lt_Some]. }
    assert (others (length l) y = s) as Hy.
    { apply Hoth. by rewrite lookup_app_r, Nat.sub_diag by lia. }
    cbn [run saw] in Hr, Hs. rewrite Hy, Hop in Hr, Hs. exists s'. rewrite length_app, Nat.add_1_r. split; [done |].
    by rewrite Hs, <- app_assoc.
Qed.

Lemma reachable_came_to s0 w :
  rtc (acts starts outside) (s0, []) w -> forall i t, w.2 !! i = Some (Live t) -> came_to s0 w t.
Proof.
  intros Hreach. refine (rtc_ind_r (fun w => forall i t, w.2 !! i = Some (Live t) -> came_to s0 w t) _ _ _ w Hreach);
    [done |]. clear w Hreach. intros w w' Hrun Hact IH i t Hi.
  pose proof Hact as Hact'. destruct Hact as [s ps t1 Ht1 | w w' Hmove | s ps j f op Hj | s s' ps Hout]; simpl in *.
  - apply lookup_app_Some in Hi as [Hi | [_ Hi]]; [eapply came_to_more; eauto |].
    apply list_lookup_singleton_Some in Hi as [_ [= ->]]. exists t, []. split_and!; [done | done |].
    intros others x _. by exists x.
  - destruct Hmove as [s ps j c op t1 s' Hj Hop]. simpl in *. destruct (decide (j = i)) as [-> | Hne].
    + rewrite list_lookup_insert_eq in Hi by (by eapply lookup_lt_Some). injection Hi as ->.
      eapply came_to_step; eauto.
    + rewrite list_lookup_insert_ne in Hi by done. eapply came_to_more; eauto.
  - destruct (decide (j = i)) as [-> | Hne].
    + by rewrite list_lookup_insert_eq in Hi by (by eapply lookup_lt_Some).
    + rewrite list_lookup_insert_ne in Hi by done. eapply came_to_more; eauto.
  - eapply came_to_more; eauto.
Qed.

(** So what holds of [run] for all [others] holds of every task of every
    interleaving, and the states it saw occurred. *)
Lemma interleaved_runs s0 w i a :
  rtc (acts starts outside) (s0, []) w -> w.2 !! i = Some (Live (Ret a)) ->
  exists t others s', starts t /\ run others 0 t s0 = Goes a s' /\ Forall (fun s => occurs s0 s w) (saw others 0 t s0).
Proof.
  intros Hrun Hi. destruct (reachable_came_to s0 w Hrun i _ Hi) as (t & l & Ht & Hl & Heq).
  destruct (Heq (fun k => match l !! k with Some x => fun _ => x | None => id end) s0) as (s' & Hr & Hs).
  { intros k x y Hk. by rewrite Hk. }
  cbn [run saw] in Hr, Hs. rewrite app_nil_r in Hs. eexists t, _, s'. split_and!; [done | exact Hr | by rewrite Hs].
Qed.
End Interleaved.

(** ** Schedules *)

Section Schedules.
Context {S A : Type}.
Implicit Types w : world S A.

(** Task [i] runs its next operation if it can; its future is dropped if it can be. *)
Definition step_task (i : nat) w : world S A :=
  match w.2 !! i with
  | Some (Live (Op _ op)) => match op w.1 with Goes t s' => (s', <[i := Live t]> w.2) | _ => w end
  | _ => w
  end.
Definition drop_task (i : nat) w : world S A :=
  match w.2 !! i with
  | Some (Live (Op (Some f) _)) => (f w.1, <[i := Cancelled]> w.2)
  | _ => w
  end.

(** The tasks of a list run one operation each, in this order. *)
Definition schedule (order : list nat) w : world S A := foldl (fun w i => step_task i w) w order.

Lemma step_task_moves i w : rtc moves w (step_task i w).
Proof.
  unfold step_task. destruct w as [s ps]. simpl. destruct (ps !! i) as [[[a | c op] |] |] eqn:Hi; try reflexivity.
  destruct (op s) as [t s' | |] eqn:Hop; [| done | done]. apply rtc_once. by econstructor.
Qed.
Lemma schedule_moves order : forall w, rtc moves w (schedule order w).
Proof.
  induction order as [| i order IH]; intros w; [done |]. etransitivity; [apply step_task_moves | apply IH].
Qed.
Lemma moves_acts starts outside w w' : rtc moves w w' -> rtc (acts starts outside) w w'.
Proof. intros Hrun. eapply rtc_congruence with (f := fun w => w); [| exact Hrun]. intros. by apply act_move. Qed.
Lemma drop_task_acts starts outside i w : rtc (acts starts outside) w (drop_task i w).
Proof.
  unfold drop_task. destruct w as [s ps]. simpl. destruct (ps !! i) as [[[a | [f |] op] |] |] eqn:Hi; try reflexivity.
  apply rtc_once. by eapply act_cancel.
Qed.
Lemma starts_acts (starts : task S A -> Prop) (outside : S -> S -> Prop) s ps (ts : list (task S A)) :
  Forall starts ts -> rtc (acts starts outside) (s, ps) (s, ps ++ (Live <$> ts)).
Proof.
  intros Hts. revert ps. induction Hts as [| t ts Ht _ IH]; intros ps; simpl; [by rewrite app_nil_r |].
  specialize (IH (ps ++ [Live t])). rewrite <- app_assoc in IH. eapply rtc_l; [by apply act_start | exact IH].
Qed.

(** With the number of events. *)
Lemma schedule_within starts outside order : forall w, bsteps (acts starts outside) (length order) w (schedule order w).
Proof.
  induction order as [| i order IH]; intros w; [constructor |].
  change (bsteps (acts starts outside) (1 + length order) w (schedule order (step_task i w))).
  eapply bsteps_trans; [| apply IH]. unfold step_task. destruct w as [s ps]. simpl.
  destruct (ps !! i) as [[[a | c op] |] |] eqn:Hi; try constructor.
  destruct (op s) as [t s' | |] eqn:Hop; try constructor. apply bsteps_once, act_move. by econstructor.
Qed.
Lemma starts_within (starts : task S A -> Prop) (outside : S -> S -> Prop) s ps (ts : list (task S A)) :
  Forall starts ts -> bsteps (acts starts outside) (length ts) (s, ps) (s, ps ++ (Live <$> ts)).
Proof.
  intros Hts. revert ps. induction Hts as [| t ts Ht _ IH]; intros ps; simpl; [rewrite app_nil_r; constructor |].
  specialize (IH (ps ++ [Live t])). rewrite <- app_assoc in IH. eapply bsteps_l; [by apply act_start | exact IH].
Qed.
End Schedules.
