(* ===== verification/Pool.v ===== *)
(** * The key pool ([src/src/pool.rs]): data and operations

    The fill-first rotating pool of upstream keys.  Every operation of the
    code but one is one critical section under the pool's lock; here it is a
    function of the pool state and of the clock readings the section takes.
    [next], which looks at the pool, sleeps and looks again, is a task.  [None] is
    a panic of the process (the only source is the [expect] of
    [deadline_after]).  The state is the code's [PoolInner]: the lock's
    content, the immutable policy, the jitter source with its own state, and
    the atomic selection counter. *)
From S2P Require Export Secrets Task.

(** ** Backoff jitter *)

(** [trait Jitter], with the state behind its [&self] made explicit. *)
Class Jitter (J : Type) := jitter : J -> Duration -> Duration * J.

(** [struct NoJitter] *)
Inductive NoJitter := no_jitter.
#[global] Instance NoJitter_jitter : Jitter NoJitter := fun j base => (base, j).

(** [struct XorShift64(u64)] *)
Record XorShift64 := xorshift { xs_state : Z }.

(** [XorShift64::new] *)
Definition xorshift_new (seed : Z) : XorShift64 := xorshift (Z.max seed 1).

(** [XorShift64::next_u64]; [<<] on [u64] drops the bits shifted out. *)
Definition next_u64 (r : XorShift64) : Z * XorShift64 :=
  let x := xs_state r in
  let x := Z.lxor x (wrap64 (Z.shiftl x 13)) in
  let x := Z.lxor x (Z.shiftr x 7) in
  let x := Z.lxor x (wrap64 (Z.shiftl x 17)) in
  (x, xorshift x).

(** [struct UniformJitter] *)
Record UniformJitter := uniform_jitter { uj_rng : XorShift64 }.

(** [<UniformJitter as Default>::default]; the argument is the wall clock's
    nanoseconds since the epoch, absent when the clock is before it. *)
Definition uniform_default (since_epoch : option Z) : UniformJitter :=
  let seed := match since_epoch with
              | Some nanos => wrap64 nanos
              | None => 11400714819323198485
              end in
  uniform_jitter (xorshift_new (Z.lxor seed 5871781006564002453)).

(** [<UniformJitter as Jitter>::jitter] *)
#[global] Instance UniformJitter_jitter : Jitter UniformJitter := fun j base =>
  let half_nanos := wrap64 (base / 2) in
  let '(r, rng) := next_u64 (uj_rng j) in
  let offset := r mod u64_saturating_add half_nanos 1 in
  (Dur.saturating_add base offset, uniform_jitter rng).

(** ** Policy *)

(** [WAIT_TIMEOUT] and [MAX_COOLDOWN] *)
Definition WAIT_TIMEOUT : Duration := Dur.from_secs 30.
Definition MAX_COOLDOWN : Duration := Dur.from_secs (90 * 24 * 3600).

(** [struct PoolPolicy] *)
Record PoolPolicy := mk_policy {
  backoff_initial : Duration;
  backoff_max : Duration;
  breaker_threshold : Z;
  breaker_cooldown : Duration;
  wait_timeout : Duration;
  max_attempts : Z;
}.

(** [enum PoolError] *)
Inductive PoolError :=
| EmptyKeys
| InvalidPolicy (msg : string).

(** [<PoolError as Display>::fmt] *)
Definition display_pool_error (e : PoolError) : string :=
  match e with
  | EmptyKeys => "key pool requires at least one key"
  | InvalidPolicy msg => "invalid pool policy: " +:+ msg
  end.

(** [PoolPolicy::validate] *)
Definition validate (p : PoolPolicy) : result PoolError unit :=
  bail_if (Dur.is_zero (backoff_initial p))
    (InvalidPolicy "backoff_initial must be greater than zero") ;;
  bail_if (backoff_max p <? backoff_initial p)
    (InvalidPolicy "backoff_max must be >= backoff_initial") ;;
  bail_if (breaker_threshold p =? 0)
    (InvalidPolicy "breaker_threshold must be at least 1") ;;
  bail_if (Dur.is_zero (breaker_cooldown p))
    (InvalidPolicy "breaker_cooldown must be greater than zero") ;;
  bail_if (Dur.is_zero (wait_timeout p))
    (InvalidPolicy "wait_timeout must be greater than zero") ;;
  bail_if (negb ((1 <=? max_attempts p) && (max_attempts p <=? 2)))
    (InvalidPolicy "max_attempts must be 1 or 2").

(** [backoff_at]'s loop body, [break]ing at the cap. *)
Fixpoint backoff_loop (max : Duration) (fuel : nat) (d : Duration) : Duration :=
  match fuel with
  | O => d
  | S fuel' => if max <=? d then d
               else backoff_loop max fuel' (Z.min (Dur.saturating_mul d 2) max)
  end.

(** [backoff_at] *)
Definition backoff_at (p : PoolPolicy) (step : Z) : Duration :=
  Z.min (backoff_loop (backoff_max p) (Z.to_nat (Z.min step 20)) (backoff_initial p))
    (backoff_max p).

(** [deadline_after]; [None] is the panic of its [expect]. *)
Definition deadline_after (now : Instant) (cooldown : Duration) : option Instant :=
  Inst.checked_add now (Z.min cooldown MAX_COOLDOWN).

(** ** State *)

(** [enum CoolingReason] *)
Module CoolingReason.
Inductive t :=
| ProactiveUsage
| UsageLimit
| RateLimited
| Unavailable
| CircuitBreaker.

(** [CoolingReason::as_str] *)
Definition as_str (r : t) : string :=
  match r with
  | ProactiveUsage => "proactive_usage"
  | UsageLimit => "usage_limit"
  | RateLimited => "rate_limited"
  | Unavailable => "unavailable"
  | CircuitBreaker => "circuit_breaker"
  end.
End CoolingReason.

(** [struct KeyEntry] *)
Record KeyEntry := mk_entry {
  ke_key : Secret;
  ke_fingerprint : string;
  ke_status_id : string;
  ke_cooling_until : option Instant;
  ke_cooling_reason : option CoolingReason.t;
  ke_cooling_by : option Z;
  ke_consecutive_failures : Z;
  ke_backoff_step : Z;
  ke_last_failure_by : option Z;
  ke_half_open : bool;
  ke_liveness_cooling : gmap string Instant;
}.

(** [struct PoolState] *)
Record PoolState := mk_state {
  entries : list KeyEntry;
  cursor : nat;
}.

(** [struct PoolInner] *)
Record KeyPool (J : Type) := mk_pool {
  state : PoolState;
  policy : PoolPolicy;
  jitter_state : J;
  next_id : Z;
}.
Arguments mk_pool {J}.
Arguments state {J}.
Arguments policy {J}.
Arguments jitter_state {J}.
Arguments next_id {J}.

(** [struct Selection] *)
Record Selection := mk_selection {
  sel_fingerprint : string;
  sel_key : Secret;
  sel_id : Z;
}.

(** [enum UsageDimension] *)
Inductive UsageDimension := Weekly | Monthly | FiveHour.

#[global] Instance UsageDimension_eq_dec : EqDecision UsageDimension.
Proof. solve_decision. Defined.

(** [enum Failure] *)
Module Failure.
Inductive t :=
| UsageLimit (dimension : UsageDimension) (cooldown : Duration)
| RateLimited (retry_after : option Duration)
| Unavailable (retry_after : option Duration)
| Server
| Network.
End Failure.

(** [enum AttemptResult] *)
Module AttemptResult.
Inductive t :=
| Selected (sel : Selection)
| Unavailable (retry_after : Duration)
| Exhausted.
End AttemptResult.

(** [struct RequestCandidate] *)
Record RequestCandidate := mk_candidate {
  rc_fingerprint : string;
  rc_key : Secret;
}.

(** [struct RequestAttempts]; the pool it points to is passed separately. *)
Record RequestAttempts := mk_attempts {
  ra_candidates : list RequestCandidate;
  ra_used : list string;
  ra_max : Z;
  ra_deadline : Instant;
  ra_model : option string;
}.

(** Field updates of the records above. *)
Definition set_cooling (until : option Instant) (reason : option CoolingReason.t)
    (by_ : option Z) (e : KeyEntry) : KeyEntry :=
  mk_entry (ke_key e) (ke_fingerprint e) (ke_status_id e) until reason by_
    (ke_consecutive_failures e) (ke_backoff_step e) (ke_last_failure_by e)
    (ke_half_open e) (ke_liveness_cooling e).
Definition set_consecutive_failures (n : Z) (e : KeyEntry) : KeyEntry :=
  mk_entry (ke_key e) (ke_fingerprint e) (ke_status_id e) (ke_cooling_until e)
    (ke_cooling_reason e) (ke_cooling_by e) n (ke_backoff_step e) (ke_last_failure_by e)
    (ke_half_open e) (ke_liveness_cooling e).
Definition set_backoff_step (n : Z) (e : KeyEntry) : KeyEntry :=
  mk_entry (ke_key e) (ke_fingerprint e) (ke_status_id e) (ke_cooling_until e)
    (ke_cooling_reason e) (ke_cooling_by e) (ke_consecutive_failures e) n
    (ke_last_failure_by e) (ke_half_open e) (ke_liveness_cooling e).
Definition set_last_failure_by (by_ : option Z) (e : KeyEntry) : KeyEntry :=
  mk_entry (ke_key e) (ke_fingerprint e) (ke_status_id e) (ke_cooling_until e)
    (ke_cooling_reason e) (ke_cooling_by e) (ke_consecutive_failures e)
    (ke_backoff_step e) by_ (ke_half_open e) (ke_liveness_cooling e).
Definition set_half_open (b : bool) (e : KeyEntry) : KeyEntry :=
  mk_entry (ke_key e) (ke_fingerprint e) (ke_status_id e) (ke_cooling_until e)
    (ke_cooling_reason e) (ke_cooling_by e) (ke_consecutive_failures e)
    (ke_backoff_step e) (ke_last_failure_by e) b (ke_liveness_cooling e).
Definition set_liveness_cooling (m : gmap string Instant) (e : KeyEntry) : KeyEntry :=
  mk_entry (ke_key e) (ke_fingerprint e) (ke_status_id e) (ke_cooling_until e)
    (ke_cooling_reason e) (ke_cooling_by e) (ke_consecutive_failures e)
    (ke_backoff_step e) (ke_last_failure_by e) (ke_half_open e) m.

(** The four assignments a cooling report makes together. *)
Definition cool_entry (deadline : Instant) (reason : CoolingReason.t) (id : Z)
    (e : KeyEntry) : KeyEntry :=
  set_last_failure_by (Some id) (set_cooling (Some deadline) (Some reason) (Some id) e).

Definition with_state {J} (p : KeyPool J) (s : PoolState) : KeyPool J :=
  mk_pool s (policy p) (jitter_state p) (next_id p).
Definition with_jitter_state {J} (p : KeyPool J) (j : J) : KeyPool J :=
  mk_pool (state p) (policy p) j (next_id p).
Definition with_next_id {J} (p : KeyPool J) (n : Z) : KeyPool J :=
  mk_pool (state p) (policy p) (jitter_state p) n.
(** [*entry = e] for the entry found at position [i] *)
Definition put_entry (i : nat) (e : KeyEntry) (s : PoolState) : PoolState :=
  mk_state (<[i := e]> (entries s)) (cursor s).
Definition push_used (fp : string) (ra : RequestAttempts) : RequestAttempts :=
  mk_attempts (ra_candidates ra) (ra_used ra ++ [fp]) (ra_max ra) (ra_deadline ra) (ra_model ra).

(** [entries.iter().find(|e| e.fingerprint == fp)], with its position *)
Definition find_entry (fp : string) (es : list KeyEntry) : option (nat * KeyEntry) :=
  list_find (fun e => ke_fingerprint e = fp) es.

(** ** [KeyPool] *)

Section Pool.
Context `{Sha256} {J : Type} `{Jitter J}.

(** An entry of a key the pool has not seen. *)
Definition fresh_entry (key : Secret) : KeyEntry :=
  mk_entry key (fingerprint (as_str key)) (key_suffix (as_str key))
    None None None 0 0 None false ∅.

(** [KeyPool::with_jitter] ([KeyPool::new] passes [UniformJitter::default]) *)
Definition with_jitter (keys : list Secret) (pol : PoolPolicy) (j : J)
    : result PoolError (KeyPool J) :=
  validate pol ;;
  bail_if (bool_decide (keys = [])) EmptyKeys ;;
  Ok (mk_pool (mk_state (fresh_entry <$> keys) 0) pol j 0).

(** The entry [replace_keys] builds for [key] from the previous entries. *)
Definition carry_entry (old : list KeyEntry) (key : Secret) : KeyEntry :=
  let fp := fingerprint (as_str key) in
  let prev := snd <$> find_entry fp old in
  mk_entry key fp (key_suffix (as_str key))
    (prev ≫= ke_cooling_until)
    (prev ≫= ke_cooling_reason)
    (prev ≫= ke_cooling_by)
    (from_option ke_consecutive_failures 0 prev)
    (from_option ke_backoff_step 0 prev)
    (prev ≫= ke_last_failure_by)
    (from_option ke_half_open false prev)
    (from_option ke_liveness_cooling ∅ prev).

(** [KeyPool::replace_keys] *)
Definition replace_keys (keys : list Secret) (p : KeyPool J) : result PoolError (KeyPool J) :=
  bail_if (bool_decide (keys = [])) EmptyKeys ;;
  let es := carry_entry (entries (state p)) <$> keys in
  Ok (with_state p (mk_state es (Nat.min (cursor (state p)) (length es - 1)))).

(** [advance_cursor]: the first entry after the cursor, in cyclic order, that
    is not cooling.  [offs] are the offsets [1..=n] still to try; the index
    is a remainder by [n], so the lookup always succeeds. *)
Fixpoint advance_scan (es : list KeyEntry) (cur : nat) (now : Instant) (offs : list nat) : nat :=
  match offs with
  | [] => cur
  | off :: rest =>
      let idx := ((cur + off) mod length es)%nat in
      match es !! idx with
      | Some e => if negb (later_than (ke_cooling_until e) now) then idx
                  else advance_scan es cur now rest
      | None => cur
      end
  end.

Definition advance_cursor (now : Instant) (s : PoolState) : PoolState :=
  mk_state (entries s) (advance_scan (entries s) (cursor s) now (seq 1 (length (entries s)))).

(** [KeyPool::request_with_model]: the candidates in cursor order.  [None]
    also stands for an index out of bounds, which never happens. *)
Definition request_with_model (model : option string) (now : Instant) (p : KeyPool J)
    : option RequestAttempts :=
  let es := entries (state p) in
  let n := length es in
  cands ← mapM (fun off => es !! ((cursor (state p) + off) mod n)%nat) (seq 0 n);
  deadline ← deadline_after now (wait_timeout (policy p));
  Some (mk_attempts ((fun e => mk_candidate (ke_fingerprint e) (ke_key e)) <$> cands)
          [] (max_attempts (policy p)) deadline model).

(** [KeyPool::request] and [KeyPool::request_for_model] *)
Definition request := request_with_model None.
Definition request_for_model (model : string) := request_with_model (Some model).

(** [RequestAttempts::set_model] *)
Definition set_model (model : string) (ra : RequestAttempts) : RequestAttempts :=
  mk_attempts (ra_candidates ra) (ra_used ra) (ra_max ra) (ra_deadline ra) (Some model).

(** [KeyPool::report_liveness_failure] *)
Definition report_liveness_failure (sel : Selection) (model : string) (now : Instant)
    (p : KeyPool J) : option (KeyPool J) :=
  match find_entry (sel_fingerprint sel) (entries (state p)) with
  | None => Some p
  | Some (i, e) =>
      d ← deadline_after now (backoff_initial (policy p));
      Some (with_state p
        (put_entry i (set_liveness_cooling (<[model := d]> (ke_liveness_cooling e)) e) (state p)))
  end.

(** [KeyPool::has_available_key] *)
Definition has_available_key (now : Instant) (p : KeyPool J) : bool :=
  existsb (fun e => negb (later_than (ke_cooling_until e) now)) (entries (state p)).

(** [KeyPool::report_success] *)
Definition report_success (sel : Selection) (p : KeyPool J) : KeyPool J :=
  match find_entry (sel_fingerprint sel) (entries (state p)) with
  | None => p
  | Some (i, e) =>
      if later_than (ke_last_failure_by e) (sel_id sel) then p
      else with_state p (put_entry i
             (set_last_failure_by None (set_half_open false (set_cooling None None None
               (set_consecutive_failures 0 (set_backoff_step 0 e))))) (state p))
  end.

(** [KeyPool::report_proactive_cooldown]; the id is drawn inside the section,
    and only for a live key. *)
Definition report_proactive_cooldown (fp : string) (cooldown : Duration) (now : Instant)
    (p : KeyPool J) : option (KeyPool J) :=
  deadline ← deadline_after now cooldown;
  match find_entry fp (entries (state p)) with
  | None => Some p
  | Some (i, e) =>
      let report_id := next_id p in
      let p := with_next_id p (wrap64 (report_id + 1)) in
      if negb (later_than (ke_cooling_until e) deadline) then
        let e' := cool_entry deadline CoolingReason.ProactiveUsage report_id e in
        Some (with_state p (advance_cursor now (put_entry i e' (state p))))
      else Some p
  end.

(** The cooldown of a report with an optional Retry-After: honoured when
    positive, otherwise exponential backoff with jitter; with the flag
    [backed_off] and the jitter source afterwards. *)
Definition choose_cooldown (retry_after : option Duration) (e : KeyEntry) (p : KeyPool J)
    : Duration * bool * J :=
  let backoff :=
    let '(d, j) := jitter (jitter_state p) (backoff_at (policy p) (ke_backoff_step e)) in
    (Z.min d (backoff_max (policy p)), true, j) in
  match retry_after with
  | Some ra => if 0 <? ra then (ra, false, jitter_state p) else backoff
  | None => backoff
  end.

(** The [RateLimited | Unavailable] arm of [report_failure]. *)
Definition report_backoff (id : Z) (reason : CoolingReason.t) (retry_after : option Duration)
    (i : nat) (e : KeyEntry) (now : Instant) (p : KeyPool J) : option (KeyPool J) :=
  let '(cooldown, backed_off, j) := choose_cooldown retry_after e p in
  let p := with_jitter_state p j in
  new_deadline ← deadline_after now cooldown;
  if negb (later_than (ke_cooling_until e) new_deadline) then
    let e1 := if backed_off : bool then set_backoff_step (wrap32 (ke_backoff_step e + 1)) e else e in
    let e2 := cool_entry new_deadline reason id e1 in
    Some (with_state p (advance_cursor now (put_entry i e2 (state p))))
  else Some p.

(** [KeyPool::report_failure]; [+= 1] on [u32] wraps in a release build. *)
Definition report_failure (sel : Selection) (failure : Failure.t) (now : Instant)
    (p : KeyPool J) : option (KeyPool J) :=
  match find_entry (sel_fingerprint sel) (entries (state p)) with
  | None => Some p
  | Some (i, e) =>
      match failure with
      | Failure.UsageLimit _ cooldown =>
          new_deadline ← deadline_after now cooldown;
          if negb (later_than (ke_cooling_until e) new_deadline) then
            let e' := cool_entry new_deadline CoolingReason.UsageLimit (sel_id sel) e in
            Some (with_state p (advance_cursor now (put_entry i e' (state p))))
          else Some p
      | Failure.RateLimited retry_after =>
          report_backoff (sel_id sel) CoolingReason.RateLimited retry_after i e now p
      | Failure.Unavailable retry_after =>
          report_backoff (sel_id sel) CoolingReason.Unavailable retry_after i e now p
      | Failure.Server => Some p
      | Failure.Network =>
          let e1 := set_last_failure_by (Some (sel_id sel))
                      (set_consecutive_failures (wrap32 (ke_consecutive_failures e + 1)) e) in
          let counted := with_state p (put_entry i e1 (state p)) in
          if breaker_threshold (policy p) <=? ke_consecutive_failures e1 then
            new_deadline ← deadline_after now (breaker_cooldown (policy p));
            if negb (later_than (ke_cooling_until e) new_deadline) then
              let e2 := set_half_open true (set_consecutive_failures 0
                          (set_cooling (Some new_deadline) (Some CoolingReason.CircuitBreaker)
                             (Some (sel_id sel)) e1)) in
              Some (with_state p (advance_cursor now (put_entry i e2 (state p))))
            else Some counted
          else Some counted
      end
  end.

(** ** [RequestAttempts] *)

(** The model-scoped liveness cooldown of an entry. *)
Definition model_deadline (model : option string) (e : KeyEntry) : option Instant :=
  m ← model; ke_liveness_cooling e !! m.

(** The closure of [try_select_unused]: an unused candidate still in the pool,
    cooling neither as a key nor for the request's model. *)
Definition selectable (ra : RequestAttempts) (now : Instant) (es : list KeyEntry)
    (c : RequestCandidate) : bool :=
  if bool_decide (rc_fingerprint c ∈ ra_used ra) then false
  else match find_entry (rc_fingerprint c) es with
       | Some (_, e) => negb (later_than (ke_cooling_until e) now)
                        && negb (later_than (model_deadline (ra_model ra) e) now)
       | None => false
       end.

(** The half-open claim of [try_select_unused]. *)
Definition claim_half_open (id : Z) (fp : string) (now : Instant) (p : KeyPool J)
    : option (KeyPool J) :=
  match find_entry fp (entries (state p)) with
  | Some (i, e) =>
      if ke_half_open e then
        d ← deadline_after now (breaker_cooldown (policy p));
        Some (with_state p (put_entry i (cool_entry d CoolingReason.CircuitBreaker id e) (state p)))
      else Some p
  | None => Some p
  end.

(** [RequestAttempts::try_select_unused] *)
Definition try_select_unused (ra : RequestAttempts) (now : Instant) (p : KeyPool J)
    : option (option Selection * KeyPool J) :=
  match list_find (fun c => Is_true (selectable ra now (entries (state p)) c)) (ra_candidates ra) with
  | None => Some (None, p)
  | Some (_, cand) =>
      let sel := mk_selection (rc_fingerprint cand) (rc_key cand) (next_id p) in
      let p := with_next_id p (wrap64 (next_id p + 1)) in
      p' ← claim_half_open (sel_id sel) (rc_fingerprint cand) now p;
      Some (Some sel, p')
  end.

(** [RequestAttempts::has_unused] *)
Definition has_unused (ra : RequestAttempts) : bool :=
  existsb (fun c => negb (bool_decide (rc_fingerprint c ∈ ra_used ra))) (ra_candidates ra).

(** When a candidate recovers: the later of its two cooldowns. *)
Definition recovery_of (ra : RequestAttempts) (es : list KeyEntry) (c : RequestCandidate)
    : option Instant :=
  match find_entry (rc_fingerprint c) es with
  | None => None
  | Some (_, e) =>
      match ke_cooling_until e, model_deadline (ra_model ra) e with
      | Some global, Some model => Some (Z.max global model)
      | Some global, None => Some global
      | None, Some model => Some model
      | None, None => None
      end
  end.

(** [Iterator::min] on instants *)
Definition min_instant (l : list Instant) : option Instant :=
  match l with
  | [] => None
  | x :: rest => Some (fold_left Z.min rest x)
  end.

(** [RequestAttempts::earliest_recovery] *)
Definition earliest_recovery (ra : RequestAttempts) (now : Instant) (p : KeyPool J)
    : option Instant :=
  min_instant (filter (Z.lt now)
    (omap (recovery_of ra (entries (state p))) (ra_candidates ra))).

(** [RequestAttempts::next_immediate] *)
Definition next_immediate (ra : RequestAttempts) (now : Instant) (p : KeyPool J)
    : option (AttemptResult.t * RequestAttempts * KeyPool J) :=
  if ra_max ra <=? Z.of_nat (length (ra_used ra)) then Some (AttemptResult.Exhausted, ra, p)
  else
    r ← try_select_unused ra now p;
    match r with
    | (Some sel, p') => Some (AttemptResult.Selected sel, push_used (sel_fingerprint sel) ra, p')
    | (None, p') => Some (AttemptResult.Exhausted, ra, p')
    end.

(** The clock at its [k]-th reading by a task that has slept until [awake]. *)
Definition reading (clock : nat -> Instant) (awake : Instant) (k : nat) : Instant := Z.max awake (clock k).

(** One iteration of the loop of [RequestAttempts::next], from the [k]-th reading of
    the clock on.  The pool is locked twice, for the selection and for
    [earliest_recovery]; in between, and during the sleep, other tasks may use it. *)
Definition next_round (clock : nat -> Instant) (ra : RequestAttempts) (x : nat * Instant)
    : task (KeyPool J) ((AttemptResult.t * RequestAttempts) + nat * Instant) :=
  let '(k, awake) := x in
  let at_reading i := reading clock awake (k + i)%nat in
  selected ← act_or_panic (try_select_unused ra (at_reading 0%nat));
  match selected with
  | Some sel => mret (inl (AttemptResult.Selected sel, push_used (sel_fingerprint sel) ra))
  | None =>
      if negb (has_unused ra) then mret (inl (AttemptResult.Exhausted, ra))
      else
        let now := at_reading 1%nat in
        recovery ← asks (earliest_recovery ra (at_reading 2%nat));
        if ra_deadline ra <=? now then
          mret (inl (AttemptResult.Unavailable (Inst.saturating_duration_since (default now recovery) now), ra))
        else match recovery with
             | None => mret (inl (AttemptResult.Unavailable 0, ra))
             | Some earliest =>
                 if earliest <=? now then mret (inr (k + 3, awake)%nat)
                 else
                   let until := Z.min earliest (ra_deadline ra) in
                   _ ← await id (fun p => Some (Some ((), p)));
                   mret (inr ((k + 3)%nat, Z.max awake until))
             end
  end.

(** A round for every nanosecond that is left when it starts, and one more; see
    [PoolRequest] for why they are enough. *)
Definition next_fuel (ra : RequestAttempts) (now : Instant) : positive := Z.to_pos (1 + (ra_deadline ra - now)).

(** [RequestAttempts::next] *)
Definition next (clock : nat -> Instant) (ra : RequestAttempts) : task (KeyPool J) (AttemptResult.t * RequestAttempts) :=
  if ra_max ra <=? Z.of_nat (length (ra_used ra)) then mret (AttemptResult.Exhausted, ra)
  else loop_within (next_fuel ra (clock 0%nat)) (next_round clock ra) (0%nat, clock 0%nat).

(** ** Status *)

(** [struct PoolKeyStatus] *)
Record PoolKeyStatus := mk_status {
  st_usage_fingerprint : string;
  st_id : string;
  st_health : string;
  st_cooling_reason : option string;
  st_cooling_remaining : option Duration;
}.

(** The closure of [status_snapshot]. *)
Definition entry_status (now : Instant) (e : KeyEntry) : PoolKeyStatus :=
  let remaining :=
    if later_than (ke_cooling_until e) now
    then (fun d => Inst.saturating_duration_since d now) <$> ke_cooling_until e
    else None in
  mk_status (ke_fingerprint e) (ke_status_id e)
    (match remaining with Some _ => "cooling" | None => "healthy" end)
    (match remaining with
     | Some _ => CoolingReason.as_str <$> ke_cooling_reason e
     | None => None
     end)
    remaining.

(** The comparison of [status_snapshot]: by displayed suffix, then fingerprint. *)
Definition status_le (a b : PoolKeyStatus) : Prop :=
  if String.eqb (st_id a) (st_id b)
  then Is_true (str_leb (st_usage_fingerprint a) (st_usage_fingerprint b))
  else Is_true (str_leb (st_id a) (st_id b)).

#[global] Instance status_le_dec : RelDecision status_le.
Proof. intros a b. unfold status_le. case_match; apply _. Defined.

(** [KeyPool::status_snapshot] *)
Definition status_snapshot (now : Instant) (p : KeyPool J) : list PoolKeyStatus :=
  merge_sort status_le (entry_status now <$> entries (state p)).

End Pool.
