(* ===== verification/PoolFacts.v ===== *)
(** * The key pool: invariants and correctness

    The pool is read through [key_state], the map from fingerprints to
    entries that its list represents; the lemmas of the first sections relate
    every operation to that view, the theorems after them use only those
    lemmas. *)
From S2P Require Export Pool.

(** ** Definitions of the specification *)

(** The entry the code finds for a fingerprint. *)
Definition key_state {J} (p : KeyPool J) (fp : string) : option KeyEntry :=
  snd <$> find_entry fp (entries (state p)).

(** The current cooldown deadline of a key. *)
Definition cooling_of {J} (p : KeyPool J) (fp : string) : option Instant :=
  key_state p fp ≫= ke_cooling_until.

(** An instant to which every deadline of the pool can be added. *)
Definition real_instant (now : Instant) : Prop := 0 <= now <= INSTANT_MAX - MAX_COOLDOWN.

(** Well-formedness of an entry of a pool whose next selection id is [n]:
    the three cooling fields are set together, ids were drawn before [n],
    the counters hold a [u32], a recovering key still has a deadline, and a
    deadline always has a report that may not be undone by older successes. *)
Record entry_wf (n : Z) (e : KeyEntry) : Prop := {
  ewf_reason : is_Some (ke_cooling_until e) <-> is_Some (ke_cooling_reason e);
  ewf_by : is_Some (ke_cooling_until e) <-> is_Some (ke_cooling_by e);
  ewf_by_lt : forall id, ke_cooling_by e = Some id -> 0 <= id < n;
  ewf_last_lt : forall id, ke_last_failure_by e = Some id -> 0 <= id < n;
  ewf_last : is_Some (ke_cooling_until e) -> is_Some (ke_last_failure_by e);
  ewf_failures : 0 <= ke_consecutive_failures e <= u32_max;
  ewf_backoff : 0 <= ke_backoff_step e <= u32_max;
  ewf_half_open : ke_half_open e = true -> is_Some (ke_cooling_until e);
}.

(** Well-formedness of a pool. *)
Record pool_wf {J} (p : KeyPool J) : Prop := {
  pwf_cursor : (cursor (state p) < length (entries (state p)))%nat;
  pwf_entries : Forall (entry_wf (next_id p)) (entries (state p));
  pwf_next : 0 <= next_id p <= u64_max;
}.

(** A request never holds a key twice nor more keys than its budget. *)
Record attempts_wf (ra : RequestAttempts) : Prop := {
  awf_nodup : NoDup (ra_used ra);
  awf_budget : Z.of_nat (length (ra_used ra)) <= ra_max ra;
  awf_known : forall fp, fp ∈ ra_used ra -> fp ∈ rc_fingerprint <$> ra_candidates ra;
}.

(** [k] doublings of [d], saturating at [max]: the closed form of a backoff. *)
Definition capped_exponential (d max : Duration) (k : Z) : Duration := Z.min max (d * 2 ^ k).

(** ** Lists of entries *)

Lemma find_entry_some fp es i e :
  find_entry fp es = Some (i, e) -> es !! i = Some e /\ ke_fingerprint e = fp /\ e ∈ es.
Proof.
  intros (Hl & Hfp & _)%list_find_Some. split_and!; [done | done |].
  by eapply list_elem_of_lookup_2.
Qed.

(** Writing back an entry with the same fingerprint changes that key only. *)
Lemma find_entry_put fp fp' es i e e' :
  find_entry fp es = Some (i, e) -> ke_fingerprint e' = fp ->
  snd <$> find_entry fp' (<[i := e']> es) =
  if decide (fp' = fp) then Some e' else snd <$> find_entry fp' es.
Proof.
  revert i; induction es as [| x es IH]; intros i Hf He'; [done |].
  unfold find_entry in *. cbn [list_find] in Hf.
  destruct (decide (ke_fingerprint x = fp)) as [Hx | Hx].
  - injection Hf as <- <-. cbn [insert list_insert list_find].
    destruct (decide (ke_fingerprint e' = fp')), (decide (ke_fingerprint x = fp')),
      (decide (fp' = fp)); simpl; congruence.
  - destruct (list_find _ es) as [[j y] |] eqn:Hj; [| done]. simpl in Hf. injection Hf as <- <-.
    cbn [insert list_insert list_find].
    specialize (IH j eq_refl He').
    destruct (decide (ke_fingerprint x = fp')) as [Hx' | Hx'].
    + simpl. destruct (decide (fp' = fp)); congruence.
    + destruct (decide (fp' = fp)), (list_find _ (<[_ := _]> _)) as [[? ?] |],
        (list_find (fun e0 => ke_fingerprint e0 = fp') es) as [[? ?] |]; simpl in *; done.
Qed.

Lemma find_entry_is_some fp es :
  is_Some (find_entry fp es) <-> exists e, e ∈ es /\ ke_fingerprint e = fp.
Proof.
  unfold find_entry. split.
  - intros [[i e] (? & ? & ?)%list_find_Some]. exists e. split; [| done].
    by eapply list_elem_of_lookup_2.
  - intros (e & Hin & He). by eapply list_find_elem_of.
Qed.

(** ** Deadlines *)

Lemma deadline_after_some now cooldown d :
  deadline_after now cooldown = Some d -> d = now + Z.min cooldown MAX_COOLDOWN.
Proof. by intros [-> _]%checked_add_some. Qed.

Lemma deadline_after_real now cooldown :
  real_instant now -> deadline_after now cooldown = Some (now + Z.min cooldown MAX_COOLDOWN).
Proof.
  intros [? ?]. unfold deadline_after. apply checked_add_some. split; [done |]. lia.
Qed.

#[export] Hint Rewrite @deadline_after_real using done : orihsus.

(** ** The cursor *)

Lemma advance_scan_bound es cur now offs :
  (cur < length es)%nat -> (advance_scan es cur now offs < length es)%nat.
Proof.
  intros Hcur. induction offs as [| off offs IH]; simpl; [done |].
  destruct (es !! _) as [e |] eqn:He; [| done].
  destruct (negb _); [by apply lookup_lt_Some in He | done].
Qed.

Lemma entries_advance now s : entries (advance_cursor now s) = entries s.
Proof. done. Qed.

(** ** How each operation changes the view *)

Section View.
Context `{Sha256} {J : Type} `{Jitter J}.
Implicit Types p : KeyPool J.

Lemma key_state_put p i e e' fp fp' :
  find_entry fp (entries (state p)) = Some (i, e) -> ke_fingerprint e' = fp ->
  key_state (with_state p (put_entry i e' (state p))) fp' =
  if decide (fp' = fp) then Some e' else key_state p fp'.
Proof. intros Hf He. unfold key_state; simpl. by eapply find_entry_put. Qed.

Lemma key_state_put_advance p now i e e' fp fp' :
  find_entry fp (entries (state p)) = Some (i, e) -> ke_fingerprint e' = fp ->
  key_state (with_state p (advance_cursor now (put_entry i e' (state p)))) fp' =
  if decide (fp' = fp) then Some e' else key_state p fp'.
Proof. intros Hf He. unfold key_state; simpl. by eapply find_entry_put. Qed.

Lemma key_state_find p fp i e :
  find_entry fp (entries (state p)) = Some (i, e) -> key_state p fp = Some e.
Proof. unfold key_state. by intros ->. Qed.

(** What an operation may do to a key: replace its entry by a related one. *)
Definition updates (R : KeyEntry -> KeyEntry -> Prop) (p p' : KeyPool J) (fp : string) : Prop :=
  (forall fp', fp' <> fp -> key_state p' fp' = key_state p fp')
  /\ match key_state p fp with
     | None => key_state p' fp = None
     | Some e => exists e', key_state p' fp = Some e' /\ R e e'
     end.

Lemma updates_refl (R : KeyEntry -> KeyEntry -> Prop) `{!Reflexive R} p p' fp :
  entries (state p') = entries (state p) -> updates R p p' fp.
Proof.
  intros He. unfold updates, key_state. rewrite He. split; [done |].
  destruct (snd <$> _); [by eexists | done].
Qed.

Lemma updates_put (R : KeyEntry -> KeyEntry -> Prop) p p' fp i e e' :
  find_entry fp (entries (state p)) = Some (i, e) ->
  ke_fingerprint e' = fp -> R e e' ->
  entries (state p') = <[i := e']> (entries (state p)) ->
  updates R p p' fp.
Proof.
  intros Hf Hfp HR He. unfold updates, key_state. rewrite He. split.
  - intros fp' Hne. rewrite (find_entry_put fp fp' _ _ _ _ Hf Hfp). by case_decide.
  - rewrite Hf. simpl. rewrite (find_entry_put fp fp _ _ _ _ Hf Hfp).
    case_decide; [by eexists | done].
Qed.

End View.

(** ** Failure reports *)

(** The three ways a failure report with id [id] changes an entry, and the
    deadlines it may set. *)
Inductive failure_effect (id : Z) (now : Instant) : KeyEntry -> KeyEntry -> Prop :=
| fe_cool e d reason step :
    later_than (ke_cooling_until e) d = false -> d <= now + MAX_COOLDOWN ->
    step = ke_backoff_step e \/ step = wrap32 (ke_backoff_step e + 1) ->
    failure_effect id now e (cool_entry d reason id (set_backoff_step step e))
| fe_count e :
    failure_effect id now e (set_last_failure_by (Some id)
      (set_consecutive_failures (wrap32 (ke_consecutive_failures e + 1)) e))
| fe_trip e d :
    later_than (ke_cooling_until e) d = false -> d <= now + MAX_COOLDOWN ->
    failure_effect id now e
      (set_half_open true (set_consecutive_failures 0
        (set_cooling (Some d) (Some CoolingReason.CircuitBreaker) (Some id)
          (set_last_failure_by (Some id)
            (set_consecutive_failures (wrap32 (ke_consecutive_failures e + 1)) e))))).

(** What a report leaves alone, and the two shapes of its result. *)
Record reported {J} (R : KeyEntry -> KeyEntry -> Prop) (fp : string) (p p' : KeyPool J) : Prop := {
  rep_policy : policy p' = policy p;
  rep_cursor : (cursor (state p) < length (entries (state p)))%nat ->
               (cursor (state p') < length (entries (state p')))%nat;
  rep_entries : entries (state p') = entries (state p)
    \/ exists i e e', find_entry fp (entries (state p)) = Some (i, e)
         /\ entries (state p') = <[i := e']> (entries (state p)) /\ R e e';
}.

Lemma cool_entry_step e d reason id :
  cool_entry d reason id e = cool_entry d reason id (set_backoff_step (ke_backoff_step e) e).
Proof. by destruct e. Qed.

Lemma deadline_after_bound now cooldown d :
  deadline_after now cooldown = Some d -> d <= now + MAX_COOLDOWN.
Proof. intros ->%deadline_after_some. lia. Qed.

#[export] Hint Resolve deadline_after_bound : orihsus.
#[export] Hint Constructors failure_effect : orihsus.

Section Reports.
Context `{Sha256} {J : Type} `{Jitter J}.
Implicit Types p : KeyPool J.

Lemma reported_same R fp p p' :
  policy p' = policy p -> state p' = state p -> reported R fp p p'.
Proof. intros Hp Hs. split; rewrite ?Hs; auto. Qed.

Lemma reported_put R fp p p' i e e' s :
  find_entry fp (entries (state p)) = Some (i, e) -> R e e' ->
  policy p' = policy p ->
  s = put_entry i e' (state p) \/ (exists now, s = advance_cursor now (put_entry i e' (state p))) ->
  state p' = s -> reported R fp p p'.
Proof.
  intros Hf HR Hp Hs Hst. split; [done | |].
  - intros Hc. rewrite Hst. destruct Hs as [-> | [now ->]]; simpl.
    + by rewrite length_insert.
    + apply advance_scan_bound. simpl. by rewrite length_insert.
  - right. exists i, e, e'. rewrite Hst. by destruct Hs as [-> | [now ->]].
Qed.

Lemma report_backoff_reported id reason ra i e now p p' fp :
  find_entry fp (entries (state p)) = Some (i, e) ->
  report_backoff id reason ra i e now p = Some p' ->
  reported (failure_effect id now) fp p p' /\ next_id p' = next_id p.
Proof.
  intros Hf Hrun. unfold report_backoff in Hrun.
  destruct (choose_cooldown ra e p) as [[cd backed] j].
  apply bind_Some in Hrun as (d & Hd & Hrun). simpl in Hrun.
  destruct (later_than (ke_cooling_until e) d) eqn:Hl; injection Hrun as <-.
  - split; [by apply reported_same | done].
  - split; [| done]. eapply reported_put; [exact Hf | | done | right; by exists now | done].
    destruct backed.
    + eapply fe_cool; eauto with orihsus.
    + rewrite cool_entry_step. eapply fe_cool; eauto with orihsus.
Qed.

Lemma report_failure_reported sel f now p p' :
  report_failure sel f now p = Some p' ->
  reported (failure_effect (sel_id sel) now) (sel_fingerprint sel) p p' /\ next_id p' = next_id p.
Proof.
  unfold report_failure.
  destruct (find_entry (sel_fingerprint sel) _) as [[i e] |] eqn:Hf;
    [| intros [= <-]; split; [by apply reported_same | done]].
  destruct f as [dim cd | ra | ra | |].
  - intros (d & Hd & Hrun)%bind_Some.
    destruct (later_than (ke_cooling_until e) d) eqn:Hl; injection Hrun as <-;
      (split; [| done]); [by apply reported_same |].
    eapply reported_put; [exact Hf | | done | right; by exists now | done].
    rewrite cool_entry_step. eauto with orihsus.
  - by apply report_backoff_reported.
  - by apply report_backoff_reported.
  - intros [= <-]. split; [by apply reported_same | done].
  - assert (forall p0, p0 = with_state p (put_entry i (set_last_failure_by (Some (sel_id sel))
              (set_consecutive_failures (wrap32 (ke_consecutive_failures e + 1)) e)) (state p)) ->
            reported (failure_effect (sel_id sel) now) (sel_fingerprint sel) p p0
            /\ next_id p0 = next_id p) as Hcount.
    { intros p0 ->. split; [| done].
      eapply reported_put; [exact Hf | apply fe_count | done | by left | done]. }
    destruct (breaker_threshold _ <=? _); [| intros [= <-]; by apply Hcount].
    intros (d & Hd & Hrun)%bind_Some.
    destruct (later_than (ke_cooling_until e) d) eqn:Hl; injection Hrun as <-; [by apply Hcount |].
    split; [| done].
    eapply reported_put; [exact Hf | | done | right; by exists now | done].
    eauto with orihsus.
Qed.

End Reports.

(** ** The other reports *)

(** A success that is not stale: everything but the liveness map is reset. *)
Definition reset_entry (e : KeyEntry) : KeyEntry :=
  set_last_failure_by None (set_half_open false (set_cooling None None None
    (set_consecutive_failures 0 (set_backoff_step 0 e)))).

Inductive success_effect (id : Z) : KeyEntry -> KeyEntry -> Prop :=
| se_stale e : later_than (ke_last_failure_by e) id = true -> success_effect id e e
| se_reset e : later_than (ke_last_failure_by e) id = false ->
    success_effect id e (reset_entry e).

(** A proactive cooldown is a cooling report with a fresh id. *)
Inductive proactive_effect (id : Z) (now : Instant) : KeyEntry -> KeyEntry -> Prop :=
| pe_cool e d :
    later_than (ke_cooling_until e) d = false -> d <= now + MAX_COOLDOWN ->
    proactive_effect id now e (cool_entry d CoolingReason.ProactiveUsage id e).

(** A half-open claim. *)
Inductive claim_effect (id : Z) (now : Instant) (cooldown : Duration) : KeyEntry -> KeyEntry -> Prop :=
| ce_claim e d :
    ke_half_open e = true -> d = now + Z.min cooldown MAX_COOLDOWN ->
    claim_effect id now cooldown e (cool_entry d CoolingReason.CircuitBreaker id e).

(** A liveness report changes the liveness map only. *)
Inductive liveness_effect : KeyEntry -> KeyEntry -> Prop :=
| le_model e m : liveness_effect e (set_liveness_cooling m e).

#[export] Hint Constructors success_effect proactive_effect claim_effect liveness_effect : orihsus.

Section OtherReports.
Context `{Sha256} {J : Type} `{Jitter J}.
Implicit Types p : KeyPool J.

Lemma report_success_reported sel p :
  reported (success_effect (sel_id sel)) (sel_fingerprint sel) p (report_success sel p)
  /\ next_id (report_success sel p) = next_id p.
Proof.
  unfold report_success.
  destruct (find_entry (sel_fingerprint sel) _) as [[i e] |] eqn:Hf;
    [| split; [by apply reported_same | done]].
  destruct (later_than (ke_last_failure_by e) (sel_id sel)) eqn:Hl.
  - split; [by apply reported_same | done].
  - split; [| done]. eapply reported_put; [exact Hf | by apply se_reset | done | by left | done].
Qed.

Lemma report_proactive_reported fp cd now p p' :
  report_proactive_cooldown fp cd now p = Some p' ->
  reported (proactive_effect (next_id p) now) fp p p'
  /\ (next_id p' = next_id p \/ next_id p' = wrap64 (next_id p + 1))
  /\ (state p' = state p \/ next_id p' = wrap64 (next_id p + 1)).
Proof.
  unfold report_proactive_cooldown. intros (d & Hd & Hrun)%bind_Some.
  destruct (find_entry fp _) as [[i e] |] eqn:Hf; [| injection Hrun as <-].
  - simpl in Hrun. destruct (later_than (ke_cooling_until e) d) eqn:Hl; injection Hrun as <-; simpl.
    + split_and!; [by apply reported_same | by right | by left].
    + split_and!; [| by right | by right].
      eapply reported_put; [exact Hf | | done | right; by exists now | done].
      eauto with orihsus.
  - split_and!; [by apply reported_same | by left | by left].
Qed.

Lemma report_liveness_reported sel model now p p' :
  report_liveness_failure sel model now p = Some p' ->
  reported liveness_effect (sel_fingerprint sel) p p' /\ next_id p' = next_id p.
Proof.
  unfold report_liveness_failure.
  destruct (find_entry (sel_fingerprint sel) _) as [[i e] |] eqn:Hf;
    [| intros [= <-]; split; [by apply reported_same | done]].
  intros (d & Hd & Hrun)%bind_Some. injection Hrun as <-. split; [| done].
  eapply reported_put; [exact Hf | by constructor | done | by left | done].
Qed.

Lemma claim_half_open_reported id fp now p p' :
  claim_half_open id fp now p = Some p' ->
  reported (claim_effect id now (breaker_cooldown (policy p))) fp p p' /\ next_id p' = next_id p.
Proof.
  unfold claim_half_open.
  destruct (find_entry fp _) as [[i e] |] eqn:Hf;
    [| intros [= <-]; split; [by apply reported_same | done]].
  destruct (ke_half_open e) eqn:Hh; [| intros [= <-]; split; [by apply reported_same | done]].
  intros (d & Hd & Hrun)%bind_Some. injection Hrun as <-. split; [| done].
  eapply reported_put; [exact Hf | | done | by left | done].
  apply ce_claim; [done | by apply deadline_after_some].
Qed.

(** A report seen through the key view. *)
Lemma reported_updates R (R' : KeyEntry -> KeyEntry -> Prop) `{!Reflexive R'} fp p p' :
  reported R fp p p' ->
  (forall e e', key_state p fp = Some e -> R e e' -> ke_fingerprint e' = ke_fingerprint e /\ R' e e') ->
  updates R' p p' fp.
Proof.
  intros [_ _ [Hsame | (i & e & e' & Hf & He & HR)]] HRR'.
  - by apply updates_refl.
  - pose proof (find_entry_some _ _ _ _ Hf) as (_ & Hfp & _).
    destruct (HRR' e e') as [Hfp' HR']; [by eapply key_state_find | done |].
    by apply (updates_put R' p p' fp i e e'); [| rewrite Hfp' | |].
Qed.

(** An update that shortens no deadline of its key shortens none. *)
Lemma updates_never_shortens p p' fp fp' :
  updates (fun e e' => deadline_le (ke_cooling_until e) (ke_cooling_until e')) p p' fp ->
  deadline_le (cooling_of p fp') (cooling_of p' fp').
Proof.
  intros [Hother Hkey]. unfold cooling_of. destruct (decide (fp' = fp)) as [-> |].
  - destruct (key_state p fp) as [e |]; [| done].
    destruct Hkey as (e' & -> & Hle). exact Hle.
  - rewrite Hother by done. apply deadline_le_refl.
Qed.

#[local] Instance deadline_le_of_reflexive :
  Reflexive (fun e e' => deadline_le (ke_cooling_until e) (ke_cooling_until e')).
Proof. intros e. apply deadline_le_refl. Qed.

(** A report whose effect shortens no deadline shortens none. *)
Lemma reported_never_shortens R fp p p' fp' :
  reported R fp p p' ->
  (forall e e', key_state p fp = Some e -> R e e' -> ke_fingerprint e' = ke_fingerprint e
     /\ deadline_le (ke_cooling_until e) (ke_cooling_until e')) ->
  deadline_le (cooling_of p fp') (cooling_of p' fp').
Proof.
  intros Hrep HR. apply (updates_never_shortens _ _ fp).
  by eapply reported_updates; [apply _ | exact Hrep | exact HR].
Qed.

Lemma failure_effect_le id now e e' :
  failure_effect id now e e' ->
  ke_fingerprint e' = ke_fingerprint e /\ deadline_le (ke_cooling_until e) (ke_cooling_until e').
Proof. destruct 1; simpl; eauto with orihsus. Qed.

Lemma proactive_effect_le id now e e' :
  proactive_effect id now e e' ->
  ke_fingerprint e' = ke_fingerprint e /\ deadline_le (ke_cooling_until e) (ke_cooling_until e').
Proof. destruct 1; simpl; eauto with orihsus. Qed.

Lemma failure_never_shortens sel f now p p' fp :
  report_failure sel f now p = Some p' ->
  deadline_le (cooling_of p fp) (cooling_of p' fp).
Proof.
  intros [Hrep _]%report_failure_reported. eapply reported_never_shortens; [exact Hrep |].
  intros e e' _. apply failure_effect_le.
Qed.

Lemma proactive_never_shortens fp' cd now p p' fp :
  report_proactive_cooldown fp' cd now p = Some p' ->
  deadline_le (cooling_of p fp) (cooling_of p' fp).
Proof.
  intros [Hrep _]%report_proactive_reported. eapply reported_never_shortens; [exact Hrep |].
  intros e e' _. apply proactive_effect_le.
Qed.

Lemma liveness_keeps_cooling sel model now p p' fp :
  report_liveness_failure sel model now p = Some p' ->
  deadline_le (cooling_of p fp) (cooling_of p' fp).
Proof.
  intros [Hrep _]%report_liveness_reported. eapply reported_never_shortens; [exact Hrep |].
  intros e e' _ []; simpl; eauto with orihsus.
Qed.

End OtherReports.

(** ** Selection *)

Section Selection.
Context `{Sha256} {J : Type} `{Jitter J}.
Implicit Types p : KeyPool J.

Lemma selectable_iff ra now es c :
  selectable ra now es c = true <->
  (rc_fingerprint c ∉ ra_used ra) /\ exists i e, find_entry (rc_fingerprint c) es = Some (i, e)
    /\ later_than (ke_cooling_until e) now = false
    /\ later_than (model_deadline (ra_model ra) e) now = false.
Proof.
  unfold selectable. case_bool_decide as Hu.
  - split; [done |]. by intros [? _].
  - destruct (find_entry _ es) as [[i e] |].
    + rewrite andb_true_iff, !negb_true_iff. split.
      * intros [? ?]. split; [done |]. by exists i, e.
      * intros (_ & ? & ? & [= <- <-] & ? & ?). done.
    + split; [done |]. by intros (_ & ? & ? & [=] & _).
Qed.

(** What [try_select_unused] returns. *)
Lemma try_select_inv ra now p r p' :
  try_select_unused ra now p = Some (r, p') ->
  match r with
  | None => p' = p /\ forall c, c ∈ ra_candidates ra -> selectable ra now (entries (state p)) c = false
  | Some sel => exists k c, ra_candidates ra !! k = Some c
      /\ selectable ra now (entries (state p)) c = true
      /\ (forall j c', ra_candidates ra !! j = Some c' -> (j < k)%nat ->
            selectable ra now (entries (state p)) c' = false)
      /\ sel = mk_selection (rc_fingerprint c) (rc_key c) (next_id p)
      /\ claim_half_open (next_id p) (rc_fingerprint c) now
           (with_next_id p (wrap64 (next_id p + 1))) = Some p'
  end.
Proof.
  unfold try_select_unused. destruct (list_find _ _) as [[k c] |] eqn:Hf.
  - intros (p1 & Hclaim & [= <- <-])%bind_Some.
    apply list_find_Some in Hf as (Hk & Hc & Hfirst).
    exists k, c. split_and!; [done | by apply Is_true_true | | done | done].
    intros j c' Hj Hlt. specialize (Hfirst j c' Hj Hlt).
    by apply not_true_is_false; intros ?%Is_true_true.
  - intros [= <- <-]. split; [done |]. apply list_find_None in Hf.
    intros c Hc. rewrite Forall_forall in Hf.
    apply not_true_is_false. intros Hs%Is_true_true. by apply (Hf c).
Qed.

Lemma claim_half_open_real id fp now p :
  real_instant now -> is_Some (claim_half_open id fp now p).
Proof.
  intros Hnow. unfold claim_half_open.
  destruct (find_entry _ _) as [[i e] |]; [| by eexists].
  destruct (ke_half_open e); [| by eexists].
  rewrite deadline_after_real by done. by eexists.
Qed.

Lemma report_failure_real sel f now p : real_instant now -> is_Some (report_failure sel f now p).
Proof.
  intros Hnow. unfold report_failure. destruct (find_entry _ _) as [[i e] |]; [| by eexists].
  destruct f; unfold report_backoff;
    repeat first [rewrite deadline_after_real by done | progress simpl | case_match | by eexists].
Qed.

Lemma report_proactive_real fp cd now p :
  real_instant now -> is_Some (report_proactive_cooldown fp cd now p).
Proof.
  intros Hnow. unfold report_proactive_cooldown. rewrite deadline_after_real by done. simpl.
  repeat first [case_match | by eexists].
Qed.

Lemma report_liveness_real sel model now p :
  real_instant now -> is_Some (report_liveness_failure sel model now p).
Proof.
  intros Hnow. unfold report_liveness_failure.
  destruct (find_entry _ _) as [[i e] |]; [| by eexists].
  rewrite deadline_after_real by done. by eexists.
Qed.

Lemma try_select_real ra now p : real_instant now -> is_Some (try_select_unused ra now p).
Proof.
  intros Hnow. unfold try_select_unused. destruct (list_find _ _) as [[k c] |]; [| by eexists].
  match goal with |- context [claim_half_open ?id ?fp now ?q] =>
    destruct (claim_half_open_real id fp now q Hnow) as [p' ->] end.
  by eexists.
Qed.

(** A selection leaves the policy alone and advances the counter by one. *)
Lemma try_select_frame ra now p r p' :
  try_select_unused ra now p = Some (r, p') ->
  policy p' = policy p /\ length (entries (state p')) = length (entries (state p))
  /\ (next_id p' = next_id p \/ next_id p' = wrap64 (next_id p + 1)).
Proof.
  intros Hrun%try_select_inv. destruct r as [sel |]; [| destruct Hrun as [-> _]; auto].
  destruct Hrun as (k & c & _ & _ & _ & _ & Hclaim).
  apply claim_half_open_reported in Hclaim as [[Hp _ He] Hn]. simpl in *.
  split_and!; [done | | by right].
  destruct He as [-> | (i & e & e' & _ & -> & _)]; [done | by rewrite length_insert].
Qed.

(** A selection shortens no deadline, given a non-negative breaker cooldown. *)
Lemma select_never_shortens ra now p r p' fp :
  0 <= breaker_cooldown (policy p) ->
  try_select_unused ra now p = Some (r, p') ->
  deadline_le (cooling_of p fp) (cooling_of p' fp).
Proof.
  intros Hcd Hrun%try_select_inv. destruct r as [sel |]; [| destruct Hrun as [-> _]; apply deadline_le_refl].
  destruct Hrun as (k & c & _ & Hs & _ & _ & Hclaim).
  apply claim_half_open_reported in Hclaim as [Hrep _].
  apply selectable_iff in Hs as (_ & i & e & Hf & Hcool & _).
  change (cooling_of p fp) with (cooling_of (with_next_id p (wrap64 (next_id p + 1))) fp).
  eapply reported_never_shortens; [exact Hrep |].
  intros e0 e' He0 Heff. destruct Heff as [e1 d Hh ->]. simpl. split; [done |].
  assert (e1 = e) as ->.
  { unfold key_state in He0. simpl in He0. rewrite Hf in He0. simpl in He0. congruence. }
  assert (0 <= MAX_COOLDOWN) by done.
  etransitivity; [by apply not_later_than_le |]. simpl. lia.
Qed.

End Selection.

(** ** The invariant *)

Section Invariant.
Context `{Sha256} {J : Type} `{Jitter J}.
Implicit Types p : KeyPool J.

Lemma entry_wf_mono n m e : n <= m -> entry_wf n e -> entry_wf m e.
Proof.
  intros Hle []. split; auto; intros id Hid.
  - specialize (ewf_by_lt0 id Hid). lia.
  - specialize (ewf_last_lt0 id Hid). lia.
Qed.

Lemma fresh_entry_wf n key : entry_wf n (fresh_entry key).
Proof.
  split; simpl; try done; unfold u32_max; try lia.
Qed.

Ltac entry_wf_tac :=
  repeat match goal with Hwf : entry_wf _ _ |- _ => destruct Hwf end;
  split; simpl; try done; auto;
  try (intros ? [= <-]; lia); try (by split; intros; eexists); try (by intros; eexists);
  try apply wrap32_range; try (unfold u32_max in *; lia);
  try (by intros []); try (intros ? [=]).

Lemma failure_effect_wf id now n e e' :
  0 <= id < n -> entry_wf n e -> failure_effect id now e e' -> entry_wf n e'.
Proof.
  intros Hid Hwf Heff. destruct Heff as [e d reason step Hl _ Hstep | e | e d Hl _].
  - assert (0 <= step <= u32_max).
    { destruct Hstep as [-> | ->]; [by destruct Hwf | apply wrap32_range]. }
    entry_wf_tac.
  - entry_wf_tac.
  - entry_wf_tac.
Qed.

Lemma success_effect_wf id n e e' :
  entry_wf n e -> success_effect id e e' -> entry_wf n e'.
Proof. intros Hwf Heff. destruct Heff; [done | entry_wf_tac]. Qed.

Lemma proactive_effect_wf id now n e e' :
  0 <= id < n -> entry_wf n e -> proactive_effect id now e e' -> entry_wf n e'.
Proof. intros Hid Hwf Heff. destruct Heff. entry_wf_tac. Qed.

Lemma claim_effect_wf id now cd n e e' :
  0 <= id < n -> entry_wf n e -> claim_effect id now cd e e' -> entry_wf n e'.
Proof. intros Hid Hwf Heff. destruct Heff. entry_wf_tac. Qed.

Lemma liveness_effect_wf n e e' : entry_wf n e -> liveness_effect e e' -> entry_wf n e'.
Proof. intros Hwf Heff. destruct Heff. entry_wf_tac. Qed.

(** Reports preserve well-formedness when their effect does. *)
Lemma reported_wf R fp p p' :
  pool_wf p -> reported R fp p p' -> next_id p <= next_id p' <= u64_max ->
  (forall e e', entry_wf (next_id p) e -> R e e' -> entry_wf (next_id p') e') ->
  pool_wf p'.
Proof.
  intros [Hcur Hes Hn] [_ Hcur' He] Hn' HR. split; [auto | | lia].
  assert (Forall (entry_wf (next_id p')) (entries (state p))) as Hes'.
  { eapply Forall_impl; [exact Hes |]. intros e. apply entry_wf_mono. lia. }
  destruct He as [-> | (i & e & e' & Hf & -> & HRee)]; [done |].
  apply Forall_insert; [done |].
  apply find_entry_some in Hf as (_ & _ & Hin). rewrite Forall_forall in Hes. eauto.
Qed.

Lemma carry_entry_wf n old key : Forall (entry_wf n) old -> entry_wf n (carry_entry old key).
Proof.
  intros Hold. unfold carry_entry.
  destruct (find_entry _ old) as [[i e] |] eqn:Hf; simpl; [| apply fresh_entry_wf].
  apply find_entry_some in Hf as (_ & _ & Hin). rewrite Forall_forall in Hold.
  destruct (Hold e Hin). by split.
Qed.

End Invariant.
