(* ===== verification/PoolProps.v ===== *)
(** * The key pool: the properties it promises

    Each theorem is about the operations of [Pool]; the pool of the examples
    has two keys, no jitter and the default policy of the configuration. *)
From S2P Require Export PoolFacts.

(** ** Histories of a pool *)

Section Histories.
Context `{Sha256} {J : Type} `{Jitter J}.
Implicit Types p : KeyPool J.

(** One critical section of the pool.  A reported selection was drawn from the
    pool's counter; the counter has not wrapped (2^64 selections). *)
Inductive pool_step : KeyPool J -> KeyPool J -> Prop :=
| step_select ra now p r p' :
    next_id p < u64_max -> try_select_unused ra now p = Some (r, p') -> pool_step p p'
| step_success sel p :
    0 <= sel_id sel < next_id p -> pool_step p (report_success sel p)
| step_failure sel f now p p' :
    0 <= sel_id sel < next_id p -> report_failure sel f now p = Some p' -> pool_step p p'
| step_proactive fp cd now p p' :
    next_id p < u64_max -> report_proactive_cooldown fp cd now p = Some p' -> pool_step p p'
| step_liveness sel model now p p' :
    report_liveness_failure sel model now p = Some p' -> pool_step p p'
| step_replace keys p p' :
    replace_keys keys p = Ok p' -> pool_step p p'.

(** A pool some history leads to. *)
Inductive reachable : KeyPool J -> Prop :=
| reach_new keys pol j p : with_jitter keys pol j = Ok p -> reachable p
| reach_step p p' : reachable p -> pool_step p p' -> reachable p'.

(** The steps that cannot make a cooling key available early: everything but a
    success and a replacement of the keys. *)
Inductive quiet_step : KeyPool J -> KeyPool J -> Prop :=
| quiet_select ra now p r p' :
    try_select_unused ra now p = Some (r, p') -> quiet_step p p'
| quiet_failure sel f now p p' :
    report_failure sel f now p = Some p' -> quiet_step p p'
| quiet_proactive fp cd now p p' :
    report_proactive_cooldown fp cd now p = Some p' -> quiet_step p p'
| quiet_liveness sel model now p p' :
    report_liveness_failure sel model now p = Some p' -> quiet_step p p'.

(** The health a key keeps when the key set is replaced. *)
Definition same_health (e e' : KeyEntry) : Prop :=
  ke_fingerprint e' = ke_fingerprint e
  /\ ke_cooling_until e' = ke_cooling_until e /\ ke_cooling_reason e' = ke_cooling_reason e
  /\ ke_cooling_by e' = ke_cooling_by e
  /\ ke_consecutive_failures e' = ke_consecutive_failures e
  /\ ke_backoff_step e' = ke_backoff_step e /\ ke_last_failure_by e' = ke_last_failure_by e
  /\ ke_half_open e' = ke_half_open e /\ ke_liveness_cooling e' = ke_liveness_cooling e.

End Histories.

(** ** A concrete pool *)

#[local] Instance demo_sha256 : Sha256 := toy_digest.

Definition demo_policy : PoolPolicy :=
  mk_policy (Dur.from_secs 5) (Dur.from_secs 60) 1 (Dur.from_secs 60) WAIT_TIMEOUT 2.
Definition demo_keys : list Secret := [secret_new "sk-alpha"; secret_new "sk-beta"].
Definition demo_pool : KeyPool NoJitter :=
  mk_pool (mk_state (fresh_entry <$> demo_keys) 0) demo_policy no_jitter 0.
Definition demo_fp (n : nat) : string :=
  from_option (fun k => fingerprint (as_str k)) "" (demo_keys !! n).
(** A request at instant 0, and the pool after its first selection. *)
Definition demo_request : RequestAttempts :=
  mk_attempts ((fun k => mk_candidate (fingerprint (as_str k)) k) <$> demo_keys) [] 2
    WAIT_TIMEOUT None.
Definition demo_sel (id : Z) : Selection :=
  mk_selection (demo_fp 0) (secret_new "sk-alpha") id.
(** Two selections drawn, then a network failure of the first trips its breaker. *)
Definition demo_tripped : KeyPool NoJitter :=
  default demo_pool (report_failure (demo_sel 0) Failure.Network 0 (with_next_id demo_pool 2)).

(** The tripped key's cooldown ends at 60 s; a probe at that instant claims it
    until 120 s. *)
Definition demo_claimed : KeyPool NoJitter :=
  from_option snd demo_tripped (try_select_unused demo_request (Dur.from_secs 60) demo_tripped).

Example demo_request_is_request : request 0 demo_pool = Some demo_request.
Proof. vm_compute. reflexivity. Qed.

(** ** The invariant *)

Section InvariantProps.
Context `{Sha256} {J : Type} `{Jitter J}.
Implicit Types p : KeyPool J.

Lemma with_jitter_wf keys pol j p : with_jitter keys pol j = Ok p -> pool_wf p.
Proof.
  unfold with_jitter. intros (? & _ & (? & Hne & [= <-])%result_bind_ok)%result_bind_ok.
  apply bail_if_ok, bool_decide_eq_false in Hne. split; simpl.
  - rewrite length_fmap. destruct keys; [done | simpl; lia].
  - apply Forall_fmap, Forall_true. intros key. apply fresh_entry_wf.
  - by unfold u64_max.
Qed.

Lemma replace_keys_wf keys p p' : pool_wf p -> replace_keys keys p = Ok p' -> pool_wf p'.
Proof.
  intros [Hc He Hn]. unfold replace_keys. intros (? & Hne & [= <-])%result_bind_ok.
  apply bail_if_ok, bool_decide_eq_false in Hne. split; simpl; [| | done].
  - rewrite !length_fmap. destruct keys; [done | simpl; lia].
  - apply Forall_fmap, Forall_true. intros key. by apply carry_entry_wf.
Qed.

Lemma try_select_wf ra now p r p' :
  pool_wf p -> next_id p < u64_max -> try_select_unused ra now p = Some (r, p') -> pool_wf p'.
Proof.
  intros Hwf Hlt Hrun%try_select_inv. destruct r as [sel |]; [| by destruct Hrun as [-> _]].
  destruct Hrun as (k & c & _ & _ & _ & _ & Hclaim).
  destruct Hwf as [Hc He Hn].
  assert (wrap64 (next_id p + 1) = next_id p + 1) as Hw by (apply wrap64_small; lia).
  apply claim_half_open_reported in Hclaim as [Hrep Hn']. simpl in *.
  eapply reported_wf; [| exact Hrep | rewrite Hn'; simpl; lia |].
  - split; simpl; [done | | lia].
    eapply Forall_impl; [exact He |]. intros e. apply entry_wf_mono. lia.
  - simpl. intros e e' Hwfe Heff. rewrite Hn'. eapply claim_effect_wf; [| done | done]. lia.
Qed.

Lemma pool_step_wf p p' : pool_wf p -> pool_step p p' -> pool_wf p'.
Proof.
  intros Hwf Hstep. pose proof (pwf_next _ Hwf) as Hn. destruct Hstep.
  - by eapply try_select_wf.
  - destruct (report_success_reported sel p) as [Hrep Hid].
    eapply reported_wf; [done | done | lia |]. intros. rewrite Hid. by eapply success_effect_wf.
  - match goal with Hrun : report_failure _ _ _ _ = _ |- _ =>
      apply report_failure_reported in Hrun as [Hrep Hid] end.
    eapply reported_wf; [done | done | lia |]. intros. rewrite Hid. by eapply failure_effect_wf.
  - match goal with Hrun : report_proactive_cooldown _ _ _ _ = _ |- _ =>
      apply report_proactive_reported in Hrun as (Hrep & Hid & Hst) end.
    assert (wrap64 (next_id p + 1) = next_id p + 1) as Hw by (apply wrap64_small; lia).
    destruct Hst as [Hst | Hst].
    + eapply (reported_wf (fun _ _ => False) fp); [done | | lia | done].
      split; rewrite ?Hst; auto. by destruct Hrep.
    + eapply reported_wf; [done | done | lia |]. intros e e' Hwfe Heff. rewrite Hst, Hw.
      eapply proactive_effect_wf; [| by eapply entry_wf_mono; [| exact Hwfe]; lia | exact Heff]. lia.
  - match goal with Hrun : report_liveness_failure _ _ _ _ = _ |- _ =>
      apply report_liveness_reported in Hrun as [Hrep Hid] end.
    eapply reported_wf; [done | done | lia |]. intros. rewrite Hid. by eapply liveness_effect_wf.
  - by eapply replace_keys_wf.
Qed.

(** Every pool that a history of selections, reports and key replacements
    leads to is well formed: the cursor points at an entry, the cooling
    fields of every entry are set together, every recorded selection id was
    drawn before, a recovering (half-open) key has a deadline so that it
    cannot stay unavailable for ever, and the failure counters hold a
    [u32]. *)
Lemma reachable_pool_wf p : reachable p -> pool_wf p.
Proof.
  induction 1 as [keys pol j p Hnew | p p' _ IH Hstep].
  - by eapply with_jitter_wf.
  - by eapply pool_step_wf.
Qed.

End InvariantProps.

Lemma reachable_pool_wf_witness : pool_wf demo_tripped.
Proof.
  apply reachable_pool_wf. apply (reach_step (with_next_id demo_pool 2)).
  - assert (Hsel : forall p : KeyPool NoJitter, next_id p < u64_max ->
      forall q, try_select_unused demo_request 0 p = Some q -> reachable p -> reachable q.2).
    { intros p Hlt [r q] Hq Hp. apply (reach_step p); [exact Hp |]. by eapply step_select. }
    apply (Hsel (with_next_id demo_pool 1) eq_refl
             (Some (demo_sel 1), with_next_id demo_pool 2)); [by vm_compute |].
    apply (Hsel demo_pool eq_refl (Some (demo_sel 0), with_next_id demo_pool 1)); [by vm_compute |].
    apply (reach_new demo_keys demo_policy no_jitter). by vm_compute.
  - apply (step_failure (demo_sel 0) Failure.Network 0).
    + split; [discriminate | reflexivity].
    + by vm_compute.
Defined.

(** ** Cooldowns *)

Section CooldownProps.
Context `{Sha256} {J : Type} `{Jitter J}.
Implicit Types p : KeyPool J.

(** C8. A report never shortens an existing cooldown: after a failure report or
    a proactive cooldown, the deadline of every key is at least what it was
    (a short generic 429 cannot shrink a longer usage cooldown). *)
Theorem reports_never_shorten p p' fp :
  (exists sel f now, report_failure sel f now p = Some p')
  \/ (exists fp' cd now, report_proactive_cooldown fp' cd now p = Some p') ->
  deadline_le (cooling_of p fp) (cooling_of p' fp).
Proof.
  intros [(sel & f & now & Hrun) | (fp' & cd & now & Hrun)].
  - by eapply failure_never_shortens.
  - by eapply proactive_never_shortens.
Qed.

(** No operation of the pool panics at a real instant, and the deadline a
    report sets is at most [MAX_COOLDOWN] ahead, whatever the duration in the
    report was. *)
Theorem pool_never_panics p now :
  real_instant now ->
  (forall sel f, is_Some (report_failure sel f now p))
  /\ (forall fp cd, is_Some (report_proactive_cooldown fp cd now p))
  /\ (forall sel model, is_Some (report_liveness_failure sel model now p))
  /\ (forall ra, is_Some (try_select_unused ra now p))
  /\ (forall sel f p' fp, report_failure sel f now p = Some p' ->
        deadline_le (cooling_of p' fp) (Some (now + MAX_COOLDOWN))
        \/ cooling_of p' fp = cooling_of p fp).
Proof.
  intros Hnow. split_and!.
  - intros sel f. by apply report_failure_real.
  - intros fp cd. by apply report_proactive_real.
  - intros sel model. by apply report_liveness_real.
  - intros ra. by apply try_select_real.
  - intros sel f p' fp [[_ _ He] _]%report_failure_reported.
    unfold cooling_of, key_state. destruct He as [-> | (i & e & e' & Hf & -> & Heff)]; [by right |].
    pose proof (find_entry_some _ _ _ _ Hf) as (_ & Hfp & _).
    assert (ke_fingerprint e' = sel_fingerprint sel) as Hfp' by (destruct Heff; simpl; done).
    rewrite (find_entry_put _ fp _ _ _ _ Hf Hfp'). destruct (decide (fp = _)) as [-> |]; [| by right].
    rewrite Hf. simpl. destruct Heff; simpl; auto.
Qed.

(** The backoff without Retry-After is exponential in the number of
    consecutive backoffs, doubling at most twenty times, and capped: it never
    exceeds [backoff_max], and never overflows on the way. *)
Theorem backoff_closed_form (pol : PoolPolicy) step :
  0 <= backoff_initial pol <= backoff_max pol -> backoff_max pol <= DURATION_MAX -> 0 <= step ->
  backoff_at pol step = capped_exponential (backoff_initial pol) (backoff_max pol) (Z.min step 20).
Proof.
  intros Hinit Hmax Hstep. unfold backoff_at.
  assert (forall n d, 0 <= d <= backoff_max pol ->
            backoff_loop (backoff_max pol) n d = Z.min (backoff_max pol) (d * 2 ^ Z.of_nat n)) as Hloop.
  { clear Hinit. induction n as [| n IH]; intros d Hd; [simpl; lia |].
    cbn [backoff_loop]. pose proof (Z.pow_pos_nonneg 2 (Z.of_nat n)).
    rewrite Nat2Z.inj_succ, Z.pow_succ_r by lia.
    destruct (Z.leb_spec (backoff_max pol) d); [nia |].
    unfold Dur.saturating_mul. rewrite IH by lia. nia. }
  rewrite Hloop by lia. unfold capped_exponential. rewrite Z2Nat.id by lia. lia.
Qed.

End CooldownProps.

Lemma reports_never_shorten_witness :
  deadline_le (cooling_of demo_tripped (demo_fp 0))
    (cooling_of (default demo_pool (report_failure (demo_sel 0)
       (Failure.RateLimited (Some (Dur.from_secs 1))) 0 demo_tripped)) (demo_fp 0)).
Proof.
  apply reports_never_shorten. left.
  exists (demo_sel 0), (Failure.RateLimited (Some (Dur.from_secs 1))), 0.
  by vm_compute.
Defined.

Lemma pool_never_panics_witness :
  is_Some (report_failure (demo_sel 0) (Failure.UsageLimit Weekly DURATION_MAX) 0 demo_pool).
Proof.
  apply (pool_never_panics demo_pool 0). unfold real_instant. vm_compute. by split.
Defined.

Lemma backoff_closed_form_witness : backoff_at demo_policy 3 = Dur.from_secs 40.
Proof.
  rewrite (backoff_closed_form demo_policy 3).
  - by vm_compute.
  - vm_compute. by split.
  - by vm_compute.
  - by vm_compute.
Defined.

(** ** Selection *)

Section SelectionProps.
Context `{Sha256} {J : Type} `{Jitter J}.
Implicit Types p : KeyPool J.

(** What a selection says about its key. *)
Lemma try_select_some ra now p sel p' :
  try_select_unused ra now p = Some (Some sel, p') ->
  exists k c e, ra_candidates ra !! k = Some c
    /\ sel_fingerprint sel = rc_fingerprint c /\ sel_key sel = rc_key c /\ sel_id sel = next_id p
    /\ (sel_fingerprint sel ∉ ra_used ra)
    /\ key_state p (sel_fingerprint sel) = Some e
    /\ later_than (ke_cooling_until e) now = false
    /\ later_than (model_deadline (ra_model ra) e) now = false
    /\ forall j c', ra_candidates ra !! j = Some c' -> (j < k)%nat ->
         selectable ra now (entries (state p)) c' = false.
Proof.
  intros (k & c & Hk & Hs & Hfirst & -> & _)%try_select_inv.
  apply selectable_iff in Hs as (Hu & i & e & Hf & Hcool & Hmodel).
  exists k, c, e. split_and!; try done. by eapply key_state_find.
Qed.


Lemma quiet_step_frame p p' :
  0 <= breaker_cooldown (policy p) -> quiet_step p p' ->
  policy p' = policy p /\ forall fp, deadline_le (cooling_of p fp) (cooling_of p' fp).
Proof.
  intros Hcd Hstep. destruct Hstep as [ra now p r p' Hrun | sel f now p p' Hrun
    | fp0 cd now p p' Hrun | sel model now p p' Hrun].
  - split; [by apply try_select_frame in Hrun as [? _] |]. intros fp.
    by eapply select_never_shortens.
  - split; [by apply report_failure_reported in Hrun as [[? _ _] _] |]. intros fp.
    by eapply failure_never_shortens.
  - split; [by apply report_proactive_reported in Hrun as [[? _ _] _] |]. intros fp.
    by eapply proactive_never_shortens.
  - split; [by apply report_liveness_reported in Hrun as [[? _ _] _] |]. intros fp.
    by eapply liveness_keeps_cooling.
Qed.

Lemma quiet_steps_monotone p p' fp :
  0 <= breaker_cooldown (policy p) -> rtc quiet_step p p' ->
  deadline_le (cooling_of p fp) (cooling_of p' fp).
Proof.
  intros Hcd Hsteps. induction Hsteps as [p | p p1 p' Hstep _ IH]; [apply deadline_le_refl |].
  destruct (quiet_step_frame p p1 Hcd Hstep) as [Hpol Hle].
  etransitivity; [apply Hle |]. apply IH. by rewrite Hpol.
Qed.

(** Selecting a half-open key claims it until the breaker cooldown elapses. *)
Lemma select_claims ra now p sel p' e :
  try_select_unused ra now p = Some (Some sel, p') ->
  key_state p (sel_fingerprint sel) = Some e -> ke_half_open e = true ->
  cooling_of p' (sel_fingerprint sel) = Some (now + Z.min (breaker_cooldown (policy p)) MAX_COOLDOWN).
Proof.
  intros (k & c & _ & _ & _ & -> & Hclaim)%try_select_inv He Hh. simpl in *.
  unfold claim_half_open in Hclaim. simpl in Hclaim. unfold key_state in He.
  destruct (find_entry (rc_fingerprint c) _) as [[i e0] |] eqn:Hf; [| done].
  simpl in He. injection He as ->. rewrite Hh in Hclaim.
  apply bind_Some in Hclaim as (d & ->%deadline_after_some & Hclaim). injection Hclaim as <-.
  pose proof (find_entry_some _ _ _ _ Hf) as (_ & Hfp & _).
  unfold cooling_of, key_state. simpl. rewrite (find_entry_put _ _ _ _ _ _ Hf) by done.
  by rewrite decide_True.
Qed.

(** C10. A key recovering from its circuit breaker is probed by one request
    only: once a selection has claimed it, no other selection gets it before
    the claim's deadline, whatever selections, failure reports, proactive
    cooldowns and liveness reports other requests make in between. *)
Theorem half_open_probe_exclusive ra now p sel p1 e p2 ra' now' sel' p3 :
  0 <= breaker_cooldown (policy p) ->
  try_select_unused ra now p = Some (Some sel, p1) ->
  key_state p (sel_fingerprint sel) = Some e -> ke_half_open e = true ->
  rtc quiet_step p1 p2 ->
  now' < now + Z.min (breaker_cooldown (policy p)) MAX_COOLDOWN ->
  try_select_unused ra' now' p2 = Some (Some sel', p3) ->
  sel_fingerprint sel' <> sel_fingerprint sel.
Proof.
  intros Hcd Hsel He Hh Hquiet Hnow Hsel' Heq.
  pose proof (select_claims _ _ _ _ _ _ Hsel He Hh) as Hclaim.
  pose proof (try_select_frame _ _ _ _ _ Hsel) as (Hpol & _).
  pose proof (quiet_steps_monotone p1 p2 (sel_fingerprint sel)) as Hmono.
  rewrite Hpol in Hmono. specialize (Hmono Hcd Hquiet). rewrite Hclaim in Hmono.
  apply try_select_some in Hsel' as (k & c & e' & _ & _ & _ & _ & _ & Hst & Hcool & _).
  rewrite Heq in Hst. unfold cooling_of in Hmono. rewrite Hst in Hmono. simpl in Hmono.
  destruct (ke_cooling_until e') as [d |]; simpl in *; [| done].
  apply Z.ltb_ge in Hcool. lia.
Qed.

(** C11. A claimed key never wedges: when the probe is dropped without a report,
    the key is selectable again as soon as the claim's deadline has passed,
    by any request that has not used it and whose model does not cool. *)
Theorem half_open_never_wedges ra now p sel p1 e ra' now' c e1 :
  try_select_unused ra now p = Some (Some sel, p1) ->
  key_state p (sel_fingerprint sel) = Some e -> ke_half_open e = true ->
  key_state p1 (sel_fingerprint sel) = Some e1 ->
  rc_fingerprint c = sel_fingerprint sel -> (rc_fingerprint c ∉ ra_used ra') ->
  later_than (model_deadline (ra_model ra') e1) now' = false ->
  now + Z.min (breaker_cooldown (policy p)) MAX_COOLDOWN <= now' ->
  selectable ra' now' (entries (state p1)) c = true.
Proof.
  intros Hsel He Hh He1 Hc Hu Hmodel Hnow. apply selectable_iff. split; [done |].
  pose proof (select_claims _ _ _ _ _ _ Hsel He Hh) as Hclaim.
  unfold cooling_of in Hclaim. rewrite He1 in Hclaim. simpl in Hclaim.
  unfold key_state in He1. rewrite <- Hc in He1.
  destruct (find_entry (rc_fingerprint c) _) as [[i e'] |] eqn:Hf; [| done].
  simpl in He1. injection He1 as ->. exists i, e1. split_and!; [done | | done].
  rewrite Hclaim. simpl. by apply Z.ltb_ge.
Qed.

End SelectionProps.


Lemma half_open_probe_exclusive_witness :
  demo_fp 1 <> sel_fingerprint (demo_sel 2).
Proof.
  apply (half_open_probe_exclusive demo_request (Dur.from_secs 60) demo_tripped (demo_sel 2)
           demo_claimed (from_option id (fresh_entry (secret_new "")) (key_state demo_tripped (demo_fp 0)))
           demo_claimed demo_request (Dur.from_secs 119)
           (mk_selection (demo_fp 1) (secret_new "sk-beta") 3) (with_next_id demo_claimed 4)).
  - by vm_compute.
  - by vm_compute.
  - by vm_compute.
  - by vm_compute.
  - apply rtc_refl.
  - by vm_compute.
  - by vm_compute.
Defined.

Lemma half_open_never_wedges_witness :
  selectable demo_request (Dur.from_secs 120) (entries (state demo_claimed))
    (mk_candidate (demo_fp 0) (secret_new "sk-alpha")) = true.
Proof.
  apply (half_open_never_wedges demo_request (Dur.from_secs 60) demo_tripped (demo_sel 2)
           demo_claimed (from_option id (fresh_entry (secret_new "")) (key_state demo_tripped (demo_fp 0)))
           demo_request (Dur.from_secs 120) (mk_candidate (demo_fp 0) (secret_new "sk-alpha"))
           (from_option id (fresh_entry (secret_new "")) (key_state demo_claimed (demo_fp 0)))).
  - by vm_compute.
  - by vm_compute.
  - by vm_compute.
  - by vm_compute.
  - by vm_compute.
  - apply not_elem_of_nil.
  - by vm_compute.
  - by vm_compute.
Defined.
