(* ===== verification/PoolRequest.v ===== *)
(** * The key pool: requests, successes and key replacement

    The attempt series of one request ([next], [next_immediate]), the reports
    that restore a key, the hot swap of the key set, the cursor, the jitter
    and the status snapshot. *)
From S2P Require Export PoolProps.

(** ** Definitions of the specification *)

(** An honest refusal, with what it tells the client to wait: the deadline is over
    and the time is that to the earliest recovery; or nothing is going to
    recover. *)
Definition refusal `{Sha256} {J} (ra : RequestAttempts) (p : KeyPool J) (d : Duration) : Prop :=
  exists now t, now <= t
    /\ (ra_deadline ra <= now
          /\ d = Inst.saturating_duration_since (default now (earliest_recovery ra t p)) now
        \/ earliest_recovery ra t p = None /\ d = 0).

(** What a returned attempt means for the request and the pool it left behind. *)
Definition attempt_ok `{Sha256} {J} (ra : RequestAttempts) (p : KeyPool J)
    (res : AttemptResult.t) (ra' : RequestAttempts) : Prop :=
  match res with
  | AttemptResult.Selected sel =>
      ra_used ra' = ra_used ra ++ [sel_fingerprint sel]
      /\ (sel_fingerprint sel ∉ ra_used ra)
      /\ sel_fingerprint sel ∈ rc_fingerprint <$> ra_candidates ra
      /\ is_Some (key_state p (sel_fingerprint sel))
  | AttemptResult.Unavailable d => ra' = ra /\ has_unused ra = true /\ refusal ra p d
  | AttemptResult.Exhausted =>
      ra' = ra /\ (ra_max ra <= Z.of_nat (length (ra_used ra)) \/ has_unused ra = false)
  end.

(** One more attempt of a request, on any pool, while other tasks do to the pool
    what they like. *)
Inductive attempt_step `{Sha256} {J} `{Jitter J} : RequestAttempts -> RequestAttempts -> Prop :=
| attempt_next clock ra others (p : KeyPool J) res ra' p' :
    run others 0 (next clock ra) p = Goes (res, ra') p' -> attempt_step ra ra'
| attempt_immediate ra now (p : KeyPool J) res ra' p' :
    next_immediate ra now p = Some (res, ra', p') -> attempt_step ra ra'
| attempt_model ra m : attempt_step ra (set_model m ra).

(** Readings of a clock that does not go back, far enough from the end of time. *)
Record clock_ok (clock : nat -> Instant) (deadline : Instant) : Prop := {
  ck_real : forall k, real_instant (clock k);
  ck_mono : forall i j, (i <= j)%nat -> clock i <= clock j;
  ck_deadline : deadline <= INSTANT_MAX - MAX_COOLDOWN;
}.

(** The state a xorshift generator must keep: a non-zero [u64]. *)
Definition rng_valid (r : XorShift64) : Prop := 0 < xs_state r <= u64_max.

(** A marker that protects the cooldown: it is not older than the report that
    applied the cooldown. *)
Definition marker_dominates (e : KeyEntry) : Prop :=
  forall c, ke_cooling_by e = Some c -> exists l, ke_last_failure_by e = Some l /\ c <= l.

(** ** Requests *)

Section RequestProps.
Context `{Sha256} {J : Type} `{Jitter J}.
Implicit Types p : KeyPool J.

(** A selected key stays in the pool. *)
Lemma select_keeps_key ra now p sel p' :
  try_select_unused ra now p = Some (Some sel, p') ->
  is_Some (key_state p (sel_fingerprint sel)) -> is_Some (key_state p' (sel_fingerprint sel)).
Proof.
  intros (k & c & _ & _ & _ & -> & [Hr _]%claim_half_open_reported)%try_select_inv [e He]. simpl in *.
  assert (Reflexive (fun _ _ : KeyEntry => True)) by done.
  destruct (reported_updates _ (fun _ _ => True) _ _ _ Hr) as [_ Hkey]; [by intros ? ? _ [] |].
  change (key_state (with_next_id p _) ?fp) with (key_state p fp) in Hkey. rewrite He in Hkey.
  destruct Hkey as (e' & -> & _). by eexists.
Qed.

Lemma select_ok ra now p sel p' :
  try_select_unused ra now p = Some (Some sel, p') -> attempt_ok ra p' (AttemptResult.Selected sel) (push_used (sel_fingerprint sel) ra).
Proof.
  intros Hs. pose proof Hs as (k & c & e & Hk & Hfp & _ & _ & Hu & He & _)%try_select_some. simpl. split_and!; [done | done | |].
  - rewrite Hfp. apply list_elem_of_fmap_2. by eapply list_elem_of_lookup_2.
  - apply (select_keeps_key _ _ _ _ _ Hs). by eexists.
Qed.

Lemma attempt_ok_wf ra p res ra' :
  attempts_wf ra -> Z.of_nat (length (ra_used ra)) < ra_max ra ->
  ra_candidates ra' = ra_candidates ra -> ra_max ra' = ra_max ra ->
  attempt_ok ra p res ra' -> attempts_wf ra'.
Proof.
  intros [Hnd Hbud Hknown] Hlt Hc Hm Hok. destruct res as [sel | d |]; simpl in Hok;
    [| by destruct Hok as (-> & _) | by destruct Hok as (-> & _)].
  destruct Hok as (Hu & Hnew & Hcand & _). split.
  - rewrite Hu. apply NoDup_app. split_and!; [done | | apply NoDup_singleton].
    intros fp Hfp ->%list_elem_of_singleton. done.
  - rewrite Hu, Hm, length_app. simpl. lia.
  - intros fp. rewrite Hu, Hc, elem_of_app, list_elem_of_singleton. intros [? | ->]; auto.
Qed.

(** What [next_immediate] answers. *)
Lemma immediate_ok ra now p res ra' p' :
  next_immediate ra now p = Some (res, ra', p') ->
  match res with
  | AttemptResult.Selected sel => Z.of_nat (length (ra_used ra)) < ra_max ra
      /\ ra' = push_used (sel_fingerprint sel) ra /\ try_select_unused ra now p = Some (Some sel, p')
  | AttemptResult.Unavailable _ => False
  | AttemptResult.Exhausted => ra' = ra /\ p' = p
      /\ (ra_max ra <= Z.of_nat (length (ra_used ra)) \/ try_select_unused ra now p = Some (None, p))
  end.
Proof.
  unfold next_immediate. destruct (Z.leb_spec (ra_max ra) (Z.of_nat (length (ra_used ra)))); [intros [= <- <- <-]; by split_and!; [| | left] |].
  intros ([[sel |] q] & Hs & Hrun)%bind_Some; injection Hrun as <- <- <-; [done |].
  pose proof (try_select_inv _ _ _ _ _ Hs) as [-> _]. by split_and!; [| | right].
Qed.

Lemma request_rotation (es : list KeyEntry) cur :
  (cur < length es)%nat ->
  mapM (fun off => es !! ((cur + off) mod length es)%nat) (seq 0 (length es)) =
  Some (drop cur es ++ take cur es).
Proof.
  intros Hcur. apply mapM_Some. apply Forall2_same_length_lookup. split.
  - rewrite length_seq, length_app, length_drop, length_take. lia.
  - intros i off e Hoff He. apply lookup_seq in Hoff as [-> Hi]. simpl.
    destruct (decide (cur + i < length es)%nat) as [Hlt | Hge].
    + rewrite Nat.mod_small by lia.
      rewrite lookup_app_l in He by (rewrite length_drop; lia). by rewrite lookup_drop in He.
    + rewrite lookup_app_r in He by (rewrite length_drop; lia).
      rewrite length_drop, lookup_take_lt in He by lia.
      replace ((cur + i) mod length es)%nat with (i - (length es - cur))%nat; [done |].
      replace (cur + i)%nat with ((i - (length es - cur)) + 1 * length es)%nat by lia.
      rewrite Nat.Div0.mod_add, Nat.mod_small; lia.
Qed.

(** A request starts from every key of the pool, each once, in cyclic order
    from the cursor, with no key used and a deadline [wait_timeout] ahead; it
    never fails on a well-formed pool. *)
Theorem request_snapshot p now model :
  pool_wf p -> real_instant now ->
  exists ra, request_with_model model now p = Some ra
    /\ ra_candidates ra = (fun e => mk_candidate (ke_fingerprint e) (ke_key e)) <$>
         (drop (cursor (state p)) (entries (state p)) ++ take (cursor (state p)) (entries (state p)))
    /\ ra_used ra = [] /\ ra_max ra = max_attempts (policy p) /\ ra_model ra = model
    /\ ra_deadline ra = now + Z.min (wait_timeout (policy p)) MAX_COOLDOWN.
Proof.
  intros [Hcur _ _] Hnow. unfold request_with_model.
  rewrite request_rotation by done. simpl. rewrite deadline_after_real by done. simpl. eauto 10.
Qed.

End RequestProps.

(** ** [next] *)

Section NextFollows.
Context `{Sha256} {J : Type} `{Jitter J}.
Implicit Types p : KeyPool J.

Lemma fold_min_spec l x :
  fold_left Z.min l x ∈ x :: l /\ forall y, y ∈ x :: l -> fold_left Z.min l x <= y.
Proof.
  revert x; induction l as [| y l IH]; intros x; cbn [fold_left].
  - split; [by left |]. by intros z ->%list_elem_of_singleton.
  - destruct (IH (Z.min x y)) as [Hin Hle]. split.
    + rewrite !elem_of_cons in *. destruct Hin as [-> | ?]; [lia | auto].
    + assert (fold_left Z.min l (Z.min x y) <= Z.min x y) by (apply Hle; by left).
      intros z. rewrite !elem_of_cons. intros [-> | [-> | Hz]]; [lia | lia |].
      apply Hle. by right.
Qed.

Lemma min_instant_spec l m : min_instant l = Some m -> m ∈ l /\ forall x, x ∈ l -> m <= x.
Proof. destruct l as [| x l]; [done |]. intros [= <-]. apply fold_min_spec. Qed.

Lemma earliest_recovery_spec ra now p t :
  earliest_recovery ra now p = Some t ->
  now < t /\ t ∈ omap (recovery_of ra (entries (state p))) (ra_candidates ra).
Proof.
  intros [Hin _]%min_instant_spec. by apply list_elem_of_filter in Hin.
Qed.

(** What [next] does, for any promise [P] its two looks at the pool keep.  [I i]
    says that [i] more operations are allowed. *)
Context {G : Type} (P : protocol (KeyPool J) G) (I : nat -> G -> Prop)
  (Sel : G -> Selection -> Prop) (Una : G -> Duration -> Prop) (clock : nat -> Instant) (ra : RequestAttempts).

Record looks_ok : Prop := {
  lo_cancel : forall i y, I i y -> cancel_ok P y id;
  lo_less : forall i y, I (S i) y -> I i y;
  lo_select : forall i y t p, I (S i) y -> keeps P p -> (clock_ok clock (ra_deadline ra) -> real_instant t) ->
    match try_select_unused ra t p with
    | Some (r, p') => keeps P p' /\ exists z, step_ok P y p p' z /\ I i z /\ forall sel, r = Some sel -> Sel z sel
    | None => panic_ok P
    end;
  lo_look : forall i y p, I (S i) y -> keeps P p ->
    exists z, step_ok P y p p z /\ I i z /\ forall d, refusal ra p d -> Una z d;
  lo_live : clock_ok clock (ra_deadline ra) \/ panic_ok P /\ forall z d, Una z d;
}.

Definition next_answer (n : nat) (z : G) (r : AttemptResult.t * RequestAttempts) : Prop :=
  I n z /\
  match r.1 with
  | AttemptResult.Selected sel => Sel z sel /\ r.2 = push_used (sel_fingerprint sel) ra
      /\ Z.of_nat (length (ra_used ra)) < ra_max ra
  | AttemptResult.Unavailable d => Una z d /\ r.2 = ra /\ has_unused ra = true
  | AttemptResult.Exhausted => r.2 = ra /\ (ra_max ra <= Z.of_nat (length (ra_used ra)) \/ has_unused ra = false)
  end.

(** At most [i] rounds are left: each one that does not answer sleeps until a later
    instant, and not beyond the deadline. *)
Definition rounds_left (i : nat) (awake : Instant) : Prop :=
  (0 < i)%nat /\ real_instant awake /\ ra_deadline ra - awake < Z.of_nat i.
Definition round_inv (n i : nat) (z : G) (x : nat * Instant) : Prop :=
  I (n + 3 * i)%nat z /\ (clock_ok clock (ra_deadline ra) -> rounds_left i x.2).

Lemma looks_less k i y : looks_ok -> I (k + i)%nat y -> I i y.
Proof. intros HI. induction k as [| k IH]; [done |]. intros Hy. by apply IH, (lo_less HI). Qed.

(** With an honest clock the [continue] of the loop is never taken: the earliest
    recovery is ahead of a later reading. *)
Lemma rounds_left_sleep k i awake p t :
  clock_ok clock (ra_deadline ra) -> rounds_left (S i) awake ->
  let now := reading clock awake (k + 1) in
  now < ra_deadline ra -> earliest_recovery ra (reading clock awake (k + 2)) p = Some t ->
  now < t /\ rounds_left i (Z.max awake (Z.min t (ra_deadline ra))).
Proof.
  intros [Hreal Hmono Hd] (_ & [Ha0 Ha1] & Hi) now Hnow [Ht _]%earliest_recovery_spec. unfold now, reading in *.
  pose proof (Hmono (k + 1)%nat (k + 2)%nat ltac:(lia)).
  split; [lia |]. unfold rounds_left, real_instant. split_and!; lia.
Qed.

Lemma reading_real awake k : clock_ok clock (ra_deadline ra) -> real_instant awake -> real_instant (reading clock awake k).
Proof. intros [Hreal _ _] [? ?]. destruct (Hreal k). unfold reading. split; lia. Qed.

Lemma round_follows n : looks_ok -> Z.of_nat (length (ra_used ra)) < ra_max ra -> forall i y x, round_inv n (S i) y x ->
  follows P (fun z r => match r with inl a => next_answer n z a | inr x' => round_inv n i z x' end) y (next_round clock ra x).
Proof.
  intros HI Hlt i y [k awake] [Hy Hleft]. unfold next_round. replace (n + 3 * S i)%nat with (3 + (n + 3 * i))%nat in Hy by lia.
  assert (forall m z, I (m + (n + 3 * i))%nat z -> I n z) as Hless.
  { intros m z Hm. apply (looks_less (m + 3 * i)); [done |]. by replace (m + 3 * i + n)%nat with (m + (n + 3 * i))%nat by lia. }
  apply follows_act_or_panic. intros p Hp.
  pose proof (lo_select HI _ _ (reading clock awake (k + 0)) p Hy Hp) as Hs.
  destruct (try_select_unused _ _ _) as [[[sel |] p'] |].
  - destruct Hs as (Hp' & z & Hz & HIz & Hsel); [intros Hck; apply reading_real; [done | by apply Hleft] |].
    split; [done |]. exists z. split; [done |]. split; [by apply (Hless 2%nat) |]. split_and!; auto.
  - destruct Hs as (Hp' & z & Hz & HIz & _); [intros Hck; apply reading_real; [done | by apply Hleft] |].
    split; [done |]. exists z. split; [done |].
    destruct (has_unused ra) eqn:Hun; [| by split; [apply (Hless 2%nat) | split; [| right]]]. cbn [negb].
    apply follows_asks. intros q Hq. destruct (lo_look HI _ _ q HIz Hq) as (z1 & Hz1 & HI1 & Hrefuse).
    exists z1. split; [done |]. set (now := reading clock awake (k + 1)).
    assert (forall d, (ra_deadline ra <= now
        /\ d = Inst.saturating_duration_since (default now (earliest_recovery ra (reading clock awake (k + 2)) q)) now
        \/ earliest_recovery ra (reading clock awake (k + 2)) q = None /\ d = 0) -> Una z1 d) as Huna.
    { intros d Hd. destruct (lo_live HI) as [Hck | [_ Hany]]; [| done]. apply Hrefuse. exists now, (reading clock awake (k + 2)).
      split; [| done]. unfold now, reading. pose proof (ck_mono _ _ Hck (k + 1)%nat (k + 2)%nat ltac:(lia)). lia. }
    destruct (Z.leb_spec (ra_deadline ra) now) as [Hover | Hnow].
    { split; [by apply (Hless 1%nat) |]. split_and!; auto. }
    destruct (earliest_recovery ra _ q) as [t |] eqn:He; [| split; [by apply (Hless 1%nat) |]; split_and!; auto].
    destruct (Z.leb_spec t now).
    + split; [apply (lo_less HI); exact HI1 |]. intros Hck.
      destruct (rounds_left_sleep k i awake q t Hck (Hleft Hck)) as [? _]; [done | done |]. unfold now in *. lia.
    + apply follows_await; [apply (lo_cancel HI _ _ HI1) |]. intros q' Hq'. split; [done |].
      destruct (lo_look HI _ _ q' HI1 Hq') as (z2 & Hz2 & HI2 & _). exists z2. split; [done |]. split; [done |]. intros Hck.
      by destruct (rounds_left_sleep k i awake q t Hck (Hleft Hck)).
  - apply Hs. intros Hck. apply reading_real; [done | by apply Hleft].
Qed.

(** The operations a wait for a key may need. *)
Definition next_operations : nat := 3 * Pos.to_nat (next_fuel ra (clock 0%nat)).

Lemma next_follows n y :
  looks_ok -> I (n + next_operations)%nat y -> follows P (next_answer n) y (next clock ra).
Proof.
  intros HI Hy. unfold next. destruct (Z.leb_spec (ra_max ra) (Z.of_nat (length (ra_used ra)))).
  { split; [| by split; [| left]]. apply (looks_less next_operations); [done |]. by rewrite Nat.add_comm. }
  apply (follows_loop P (round_inv n)); [by apply round_follows | |].
  - intros z x [_ Hleft]. destruct (lo_live HI) as [Hck | [Hpan _]]; [| done]. destruct (Hleft Hck) as [? _]. lia.
  - split; [exact Hy |]. intros Hck. simpl. split_and!; [lia | apply (ck_real _ _ Hck) |]. unfold next_fuel. lia.
Qed.
End NextFollows.

Section NextTheorems.
Context `{Sha256} {J : Type} `{Jitter J}.
Implicit Types p : KeyPool J.

(** The pool that is left when it answers. *)
Lemma leaving_looks clock ra Una :
  (forall p d, refusal ra p d -> Una p d) -> clock_ok clock (ra_deadline ra) \/ (forall p d, Una p d) ->
  looks_ok (leaving (S := KeyPool J)) (fun _ _ => True)
    (fun p sel => attempt_ok ra p (AttemptResult.Selected sel) (push_used (sel_fingerprint sel) ra)) Una clock ra.
Proof.
  intros Hrefuse Hlive. split; [done | done | | |].
  - intros i y t p _ _ _. destruct (try_select_unused ra t p) as [[r p'] |] eqn:Hs; [| done]. split; [done |].
    exists p'. split; [done |]. split; [done |]. intros sel ->. by eapply select_ok.
  - intros i y p _ _. exists p. split_and!; [done | done | apply Hrefuse].
  - destruct Hlive; [by left | by right].
Qed.

(** It neither panics nor waits for another task, in at most [next_operations]. *)
Definition ending : protocol (KeyPool J) nat :=
  mk_protocol (fun _ => True) (fun x _ _ y => (y < x)%nat) (fun _ _ _ => True) (fun _ _ => False) False.

Lemma ending_looks clock ra :
  clock_ok clock (ra_deadline ra) ->
  looks_ok ending (fun i y => (i <= y)%nat) (fun _ _ => True) (fun _ _ => True) clock ra.
Proof.
  intros Hck. split; [done | lia | | | by left].
  - intros i y t p Hi _ Ht. destruct (try_select_real ra t p (Ht Hck)) as [[r p'] ->]. split; [done |].
    exists i. split_and!; [simpl; lia | done | done].
  - intros i y p Hi _. exists i. split_and!; [simpl; lia | done | done].
Qed.



End NextTheorems.

(** ** Successes *)

Section SuccessProps.
Context `{Sha256} {J : Type} `{Jitter J}.
Implicit Types p : KeyPool J.

Lemma stale_success_noop p sel e :
  key_state p (sel_fingerprint sel) = Some e ->
  later_than (ke_last_failure_by e) (sel_id sel) = true -> report_success sel p = p.
Proof.
  unfold report_success, key_state. intros He Hl.
  destruct (find_entry (sel_fingerprint sel) _) as [[i e0] |] eqn:Hf; [| done].
  simpl in He. injection He as ->. by rewrite Hl.
Qed.

(** A success is ordered against the marker of its key: when a newer
    selection is recorded there it is a total no-op; otherwise it clears the
    cooldown, the counters, the half-open flag and the marker of its key,
    keeps its model cooldowns, and touches no other key. *)
Theorem success_ordering p sel e :
  key_state p (sel_fingerprint sel) = Some e ->
  (later_than (ke_last_failure_by e) (sel_id sel) = true -> report_success sel p = p)
  /\ (later_than (ke_last_failure_by e) (sel_id sel) = false ->
        key_state (report_success sel p) (sel_fingerprint sel) = Some (reset_entry e)
        /\ forall fp, fp <> sel_fingerprint sel -> key_state (report_success sel p) fp = key_state p fp).
Proof.
  intros He. split; [by apply stale_success_noop |].
  unfold report_success. unfold key_state in He.
  destruct (find_entry (sel_fingerprint sel) _) as [[i e0] |] eqn:Hf; [| done].
  simpl in He. injection He as ->.
  pose proof (find_entry_some _ _ _ _ Hf) as (_ & Hfp & _).
  intros Hl. rewrite Hl. split.
  - rewrite (key_state_put _ _ _ _ _ _ Hf) by done. by rewrite decide_True.
  - intros fp Hne. rewrite (key_state_put _ _ _ _ _ _ Hf) by done. by rewrite decide_False.
Qed.

Lemma in_order_failure_dominates id now e e' :
  marker_dominates e -> (forall l, ke_last_failure_by e = Some l -> l <= id) ->
  failure_effect id now e e' -> marker_dominates e'.
Proof.
  intros Hdom Hord Heff. destruct Heff; intros c; simpl.
  - intros [= <-]. eauto with lia.
  - intros Hc. destruct (Hdom c Hc) as (l & Hl & Hle). specialize (Hord l Hl). eauto with lia.
  - intros [= <-]. eauto with lia.
Qed.

(** When the failure reports of a key arrive in selection order, its marker
    is never older than the report that applied its cooldown, so a success of
    an older selection cannot clear the cooldown. *)
Theorem in_order_reports_protect p p' sel f now e e' sel' :
  key_state p (sel_fingerprint sel) = Some e -> marker_dominates e ->
  (forall l, ke_last_failure_by e = Some l -> l <= sel_id sel) ->
  report_failure sel f now p = Some p' ->
  key_state p' (sel_fingerprint sel) = Some e' ->
  sel_fingerprint sel' = sel_fingerprint sel ->
  (forall c, ke_cooling_by e' = Some c -> sel_id sel' < c) -> is_Some (ke_cooling_by e') ->
  marker_dominates e' /\ report_success sel' p' = p'.
Proof.
  intros He Hdom Hord [[_ _ Hes] _]%report_failure_reported He' Hfp Hold [c Hc].
  assert (marker_dominates e') as Hdom'.
  { unfold key_state in *. destruct Hes as [Hsame | (i & e0 & e1 & Hf & Hins & Heff)].
    - rewrite Hsame, He in He'. by injection He' as <-.
    - pose proof (find_entry_some _ _ _ _ Hf) as (_ & Hfp0 & _).
      assert (ke_fingerprint e1 = sel_fingerprint sel) as Hfp1 by (destruct Heff; simpl; done).
      rewrite Hf in He. simpl in He. injection He as ->.
      rewrite Hins, (find_entry_put _ _ _ _ _ _ Hf Hfp1), decide_True in He' by done.
      injection He' as <-. by eapply in_order_failure_dominates. }
  split; [done |]. destruct (Hdom' c Hc) as (l & Hl & Hle). specialize (Hold c Hc).
  rewrite <- Hfp in He'. apply (stale_success_noop _ _ _ He').
  rewrite Hl. simpl. apply Z.ltb_lt. lia.
Qed.

End SuccessProps.

(** ** Replacing the keys *)

Section ReplaceProps.
Context `{Sha256} {J : Type} `{Jitter J}.
Implicit Types p : KeyPool J.

Lemma find_entry_carry old keys fp :
  find_entry fp (carry_entry old <$> keys) =
  prod_map id (carry_entry old) <$> list_find (fun k => fingerprint (as_str k) = fp) keys.
Proof. unfold find_entry. rewrite list_find_fmap. done. Qed.

(** C14. A hot swap of the key set keeps the whole health record of every key
    that stays, starts every new key fresh, forgets every removed key (which
    no request can select any more, however old), keeps the order of the
    list, and refuses an empty list. *)
Theorem replace_keys_correct p keys :
  match replace_keys keys p with
  | Err e => keys = [] /\ e = EmptyKeys
  | Ok p' =>
      ke_key <$> entries (state p') = keys /\ next_id p' = next_id p /\ policy p' = policy p
      /\ (cursor (state p') < length keys)%nat
      /\ (forall k, k ∈ keys -> exists e', key_state p' (fingerprint (as_str k)) = Some e'
            /\ match key_state p (fingerprint (as_str k)) with
               | Some e => same_health e e'
               | None => same_health (fresh_entry k) e'
               end)
      /\ (forall fp, fp ∉ (fun k => fingerprint (as_str k)) <$> keys ->
            key_state p' fp = None
            /\ forall ra now c, rc_fingerprint c = fp ->
                 selectable ra now (entries (state p')) c = false)
  end.
Proof.
  unfold replace_keys. case_bool_decide as Hne; simpl; [done |].
  split_and!; [| done | done | | |].
  - rewrite <- list_fmap_compose. apply list_fmap_id.
  - rewrite !length_fmap. destruct keys; [done | simpl; lia].
  - intros k Hk. unfold key_state. simpl. rewrite find_entry_carry.
    destruct (list_find (fun k0 => fingerprint (as_str k0) = fingerprint (as_str k)) keys)
      as [[i k'] |] eqn:Hf.
    + apply list_find_Some in Hf as (_ & Hfp & _). simpl. eexists. split; [done |].
      unfold carry_entry. rewrite Hfp.
      destruct (find_entry _ (entries (state p))) as [[j e] |] eqn:Hold; simpl.
      * apply find_entry_some in Hold as (_ & Hefp & _). unfold same_health. simpl. by rewrite Hefp.
      * by split_and!.
    + apply list_find_None in Hf. rewrite Forall_forall in Hf. by specialize (Hf k Hk).
  - intros fp Hfp.
    assert (find_entry fp (carry_entry (entries (state p)) <$> keys) = None) as Hnone.
    { rewrite find_entry_carry.
      destruct (list_find _ keys) as [[i k] |] eqn:Hf; [| done]. exfalso. apply Hfp.
      apply list_find_Some in Hf as (Hk & <- & _). apply (list_elem_of_fmap_2 (fun k => fingerprint (as_str k))).
      by eapply list_elem_of_lookup_2. }
    unfold key_state. simpl. rewrite Hnone. split; [done |].
    intros ra now c <-. unfold selectable. rewrite Hnone. by case_bool_decide.
Qed.

End ReplaceProps.

(** ** The cursor *)

Section CursorProps.

Lemma advance_scan_spec es cur now offs :
  (0 < length es)%nat ->
  let c' := advance_scan es cur now offs in
  (exists k off, offs !! k = Some off /\ c' = ((cur + off) mod length es)%nat
     /\ (exists e, es !! c' = Some e /\ later_than (ke_cooling_until e) now = false)
     /\ forall j off' e, (j < k)%nat -> offs !! j = Some off' ->
          es !! ((cur + off') mod length es)%nat = Some e ->
          later_than (ke_cooling_until e) now = true)
  \/ (c' = cur /\ forall off e, off ∈ offs -> es !! ((cur + off) mod length es)%nat = Some e ->
          later_than (ke_cooling_until e) now = true).
Proof.
  intros Hpos. induction offs as [| off offs IH]; cbn [advance_scan].
  - right. split; [done |]. by intros ? ? ?%not_elem_of_nil.
  - destruct (lookup_lt_is_Some_2 es ((cur + off) mod length es)%nat) as [e He];
      [apply Nat.mod_upper_bound; lia |].
    rewrite He. destruct (later_than (ke_cooling_until e) now) eqn:Hl; cbn [negb].
    + destruct IH as [(k & off' & Hk & Hc & Hrec & Hmin) | [Hc Hall]].
      * left. exists (S k), off'. split_and!; [done | done | done |].
        intros [| j] off'' e' Hj; simpl; [intros [= <-] He'; congruence | apply Hmin; lia].
      * right. split; [done |]. intros off' e' [-> | Hin]%elem_of_cons He'; [congruence | eauto].
    + left. exists 0%nat, off. split_and!; [done | done | by exists e | intros; lia].
Qed.

(** After a cooling report the cursor moves to the next key, in cyclic
    order, that is not cooling: every key it skips is cooling; when all keys
    are, it stays. *)
Theorem advance_cursor_correct now s :
  (0 < length (entries s))%nat ->
  let es := entries s in let n := length es in let c' := cursor (advance_cursor now s) in
  (exists off, (1 <= off <= n)%nat /\ c' = ((cursor s + off) mod n)%nat
     /\ (exists e, es !! c' = Some e /\ later_than (ke_cooling_until e) now = false)
     /\ forall off' e, (1 <= off' < off)%nat -> es !! ((cursor s + off') mod n)%nat = Some e ->
          later_than (ke_cooling_until e) now = true)
  \/ (c' = cursor s /\ forall off e, (1 <= off <= n)%nat -> es !! ((cursor s + off) mod n)%nat = Some e ->
          later_than (ke_cooling_until e) now = true).
Proof.
  intros Hpos. cbn zeta. unfold advance_cursor. cbn [cursor].
  destruct (advance_scan_spec (entries s) (cursor s) now (seq 1 (length (entries s))) Hpos)
    as [(k & off & Hk & Hc & Hrec & Hmin) | [Hc Hall]].
  - apply lookup_seq in Hk as [-> Hk]. left. exists (1 + k)%nat.
    split; [lia |]. split; [done |]. split; [done |].
    intros off' e Hoff. apply (Hmin (off' - 1)%nat); [lia |]. apply lookup_seq. lia.
  - right. split; [done |]. intros off e Hoff. apply Hall. apply elem_of_seq. lia.
Qed.

End CursorProps.

(** ** Jitter *)

Section JitterProps.

Lemma lxor_u64 a b : 0 <= a <= u64_max -> 0 <= b <= u64_max -> 0 <= Z.lxor a b <= u64_max.
Proof.
  intros Ha Hb. assert (0 <= Z.lxor a b) as Hpos by (apply Z.lxor_nonneg; lia).
  split; [done |]. assert (Z.lxor a b < 2 ^ 64); [| unfold u64_max; lia].
  apply Z.bounded_iff_bits_nonneg; [lia | done |]. intros l Hl.
  assert (forall n, 0 <= n <= u64_max -> Z.testbit n l = false) as Hbit.
  { intros n Hn. apply (Z.bounded_iff_bits_nonneg 64); [lia | lia | unfold u64_max in Hn; lia | done]. }
  rewrite Z.lxor_spec, (Hbit a Ha), (Hbit b Hb). done.
Qed.

(** A left shift by a positive amount on [u64] fixes zero only. *)
Lemma shl_fixpoint x k : 0 <= x <= u64_max -> 0 < k -> wrap64 (Z.shiftl x k) = x -> x = 0.
Proof.
  intros Hx Hk Hfix.
  assert (forall i, 0 <= i -> Z.testbit x i = false) as Hbits.
  { intros i0 Hi0. refine (Z_lt_induction (fun i => 0 <= i -> Z.testbit x i = false) _ i0 Hi0 Hi0).
    intros i IH Hi. rewrite <- Hfix. unfold wrap64.
    change 18446744073709551616 with (2 ^ 64).
    destruct (Z.lt_ge_cases i 64).
    - rewrite Z.mod_pow2_bits_low by lia. rewrite Z.shiftl_spec by done.
      destruct (Z.lt_ge_cases i k); [by apply Z.testbit_neg_r; lia |]. apply IH; lia.
    - by rewrite Z.mod_pow2_bits_high by lia. }
  apply Z.bits_inj'. intros n Hn. rewrite Z.bits_0. auto.
Qed.

Lemma shr_fixpoint x k : 0 <= x -> 0 < k -> Z.shiftr x k = x -> x = 0.
Proof.
  intros Hx Hk. rewrite Z.shiftr_div_pow2 by lia. intros Hfix.
  destruct (Z.eq_dec x 0) as [| Hne]; [done |].
  assert (x / 2 ^ k < x); [| lia]. apply Z.div_lt; [lia |].
  apply Z.pow_gt_1; lia.
Qed.

Lemma lxor_valid a b : 0 < a <= u64_max -> 0 <= b <= u64_max -> b <> a -> 0 < Z.lxor a b <= u64_max.
Proof.
  intros Ha Hb Hne. destruct (lxor_u64 a b) as [H0 H1]; [lia | lia |].
  assert (Z.lxor a b <> 0) by (rewrite Z.lxor_eq_0_iff; congruence). lia.
Qed.

(** The generator never reaches its absorbing zero state. *)
Lemma next_u64_valid r : rng_valid r -> rng_valid (next_u64 r).2 /\ (next_u64 r).1 = xs_state (next_u64 r).2.
Proof.
  unfold rng_valid, next_u64. intros Hx. cbn [xs_state snd fst]. split; [| done].
  set (a := Z.lxor (xs_state r) (wrap64 (Z.shiftl (xs_state r) 13))).
  assert (0 < a <= u64_max) as Ha.
  { apply lxor_valid; [done | apply wrap64_range |]. intros Heq.
    apply shl_fixpoint in Heq; lia. }
  set (b := Z.lxor a (Z.shiftr a 7)).
  assert (0 < b <= u64_max) as Hb.
  { apply lxor_valid; [done | |].
    - rewrite Z.shiftr_div_pow2 by lia. change (2 ^ 7) with 128.
      split; [apply Z.div_pos; lia |]. assert (a / 128 <= a) by (apply Z.div_le_upper_bound; lia). lia.
    - intros Heq. apply shr_fixpoint in Heq; lia. }
  apply lxor_valid; [done | apply wrap64_range |]. intros Heq. apply shl_fixpoint in Heq; lia.
Qed.

(** The production jitter is total and bounded: from a valid generator state
    it returns a duration between the base and one and a half times the base,
    never divides by zero (even when the truncated half is the largest
    [u64]), and leaves a valid generator state. *)
Theorem uniform_jitter_bounded (j : UniformJitter) base :
  rng_valid (uj_rng j) -> Dur.valid base ->
  let '(d, j') := jitter j base in
  base <= d <= base + base / 2 /\ Dur.valid d /\ rng_valid (uj_rng j')
  /\ 0 < u64_saturating_add (wrap64 (base / 2)) 1.
Proof.
  intros Hrng [Hb0 Hb1]. unfold jitter, UniformJitter_jitter.
  destruct (next_u64_valid _ Hrng) as [Hvalid Hval].
  destruct (next_u64 (uj_rng j)) as [r rng]. cbn [snd fst] in *. cbn [uj_rng].
  pose proof (wrap64_range (base / 2)) as [Hw0 Hw1].
  assert (wrap64 (base / 2) <= base / 2) as Hwle.
  { unfold wrap64. apply Z.mod_le; [apply Z.div_pos; lia | lia]. }
  assert (0 < u64_saturating_add (wrap64 (base / 2)) 1) as Hpos
    by (unfold u64_saturating_add, u64_max in *; lia).
  pose proof (Z.mod_pos_bound r _ Hpos) as Hoff.
  assert (u64_saturating_add (wrap64 (base / 2)) 1 <= wrap64 (base / 2) + 1)
    by (unfold u64_saturating_add; lia).
  unfold Dur.saturating_add, Dur.valid. split_and!; try done; lia.
Qed.

End JitterProps.

(** ** Status *)

Lemma status_le_bool a b :
  status_le a b <->
  (if String.eqb (st_id a) (st_id b) then str_leb (st_usage_fingerprint a) (st_usage_fingerprint b)
   else str_leb (st_id a) (st_id b)) = true.
Proof. unfold status_le. destruct (String.eqb (st_id a) (st_id b)); apply Is_true_true. Qed.

#[local] Instance status_le_total : Total status_le.
Proof.
  intros a b. rewrite !status_le_bool, (String.eqb_sym (st_id b) (st_id a)).
  destruct (String.eqb (st_id a) (st_id b)); apply bytes_leb_total.
Qed.

#[local] Instance status_le_trans : Transitive status_le.
Proof.
  intros a b c. rewrite !status_le_bool. unfold str_leb.
  destruct (String.eqb_spec (st_id a) (st_id b)) as [Hab | Hab];
    destruct (String.eqb_spec (st_id b) (st_id c)) as [Hbc | Hbc];
    destruct (String.eqb_spec (st_id a) (st_id c)) as [Hac | Hac];
    try congruence; try apply bytes_leb_trans.
  intros Hle Hle'. exfalso. apply Hab, as_bytes_inj. rewrite Hac in *. by apply bytes_leb_antisym.
Qed.

Section StatusProps.
Context `{Sha256} {J : Type} `{Jitter J}.
Implicit Types p : KeyPool J.

(** The snapshot says of one key what the selection would. *)
Lemma entry_status_health now e :
  st_health (entry_status now e) =
    (if later_than (ke_cooling_until e) now then "cooling" else "healthy")
  /\ (forall d, st_cooling_remaining (entry_status now e) = Some d <->
        ke_cooling_until e = Some (now + d) /\ 0 < d).
Proof.
  unfold entry_status, Inst.saturating_duration_since.
  destruct (ke_cooling_until e) as [t |]; simpl; [destruct (Z.ltb_spec now t); simpl |];
    (split; [done |]); intros d; split; try (intros [[= ->] ?]); try (intros [= <-]); try lia;
    first [split; f_equal; lia | f_equal; lia | by intros [? _] | done].
Qed.

(** The status snapshot lists every key of the pool exactly once, sorted by
    the displayed id and then the fingerprint; a key is shown as cooling
    exactly when selection skips it, with the time that is left. *)
Theorem status_snapshot_faithful p now :
  let l := status_snapshot now p in
  StronglySorted status_le l
  /\ l ≡ₚ entry_status now <$> entries (state p)
  /\ forall e, e ∈ entries (state p) ->
       st_health (entry_status now e) =
         (if later_than (ke_cooling_until e) now then "cooling" else "healthy")
       /\ forall d, st_cooling_remaining (entry_status now e) = Some d <->
            ke_cooling_until e = Some (now + d) /\ 0 < d.
Proof.
  cbn zeta. unfold status_snapshot. split_and!.
  - apply (StronglySorted_merge_sort status_le).
  - apply merge_sort_Permutation.
  - intros e _. apply entry_status_health.
Qed.

End StatusProps.

(** ** The properties at the concrete pool *)

#[local] Existing Instance demo_sha256.

Definition demo_entry : KeyEntry := fresh_entry (secret_new "sk-alpha").
Definition demo_claimed_entry : KeyEntry :=
  default demo_entry (key_state demo_claimed (demo_fp 0)).

Lemma demo_request_wf : attempts_wf demo_request.
Proof.
  split; simpl.
  - by apply NoDup_nil.
  - done.
  - intros fp Hfp. by apply not_elem_of_nil in Hfp.
Defined.


Lemma request_snapshot_witness :
  exists ra, request_with_model (Some "kimi") 7 demo_pool = Some ra
    /\ ra_candidates ra = (fun e => mk_candidate (ke_fingerprint e) (ke_key e)) <$>
         (drop 0 (entries (state demo_pool)) ++ take 0 (entries (state demo_pool)))
    /\ ra_used ra = [] /\ ra_max ra = 2 /\ ra_model ra = Some "kimi"
    /\ ra_deadline ra = 7 + Z.min WAIT_TIMEOUT MAX_COOLDOWN.
Proof.
  apply (request_snapshot demo_pool 7 (Some "kimi")).
  - apply (with_jitter_wf demo_keys demo_policy no_jitter). by vm_compute.
  - split; vm_compute; congruence.
Defined.

(** The only key it has not used cools for longer than the request may wait: it sleeps until its
    deadline and passes on the rest of the cooldown. *)
Example next_out_of_time :
  match run (fun _ => id) 0 (next (fun _ => 0) (push_used (demo_fp 1) demo_request)) demo_claimed with
  | Goes (AttemptResult.Unavailable d, _) _ => Some d
  | _ => None
  end = Some (Dur.from_secs 90).
Proof. vm_compute. reflexivity. Qed.

(** It gets the key when another task brings it back while it sleeps. *)
Example next_sees_a_report :
  match run (fun n p => if Nat.eqb n 3 then demo_pool else p) 0 (next (fun _ => 0) (push_used (demo_fp 1) demo_request)) demo_claimed with
  | Goes (AttemptResult.Selected sel, _) _ => Some (sel_fingerprint sel)
  | _ => None
  end = Some (demo_fp 0).
Proof. vm_compute. reflexivity. Qed.


Lemma success_ordering_witness :
  (later_than (ke_last_failure_by demo_claimed_entry) 1 = true ->
     report_success (demo_sel 1) demo_claimed = demo_claimed)
  /\ (later_than (ke_last_failure_by demo_claimed_entry) 1 = false ->
        key_state (report_success (demo_sel 1) demo_claimed) (demo_fp 0)
          = Some (reset_entry demo_claimed_entry)
        /\ forall fp, fp <> demo_fp 0 ->
             key_state (report_success (demo_sel 1) demo_claimed) fp = key_state demo_claimed fp).
Proof.
  apply (success_ordering demo_claimed (demo_sel 1) demo_claimed_entry). vm_compute. reflexivity.
Defined.

Lemma in_order_reports_protect_witness :
  marker_dominates (default demo_entry (key_state demo_tripped (demo_fp 0)))
  /\ report_success (demo_sel (-1)) demo_tripped = demo_tripped.
Proof.
  apply (in_order_reports_protect (with_next_id demo_pool 2) demo_tripped (demo_sel 0)
           Failure.Network 0 demo_entry _ (demo_sel (-1))).
  - vm_compute. reflexivity.
  - intros c Hc. vm_compute in Hc. congruence.
  - intros l Hl. vm_compute in Hl. congruence.
  - vm_compute. reflexivity.
  - vm_compute. reflexivity.
  - reflexivity.
  - intros c Hc. vm_compute in Hc. injection Hc as <-. reflexivity.
  - vm_compute. by eexists.
Defined.

Lemma advance_cursor_correct_witness :
  let s := state demo_tripped in
  let es := entries s in let n := length es in let c' := cursor (advance_cursor 0 s) in
  (exists off, (1 <= off <= n)%nat /\ c' = ((cursor s + off) mod n)%nat
     /\ (exists e, es !! c' = Some e /\ later_than (ke_cooling_until e) 0 = false)
     /\ forall off' e, (1 <= off' < off)%nat -> es !! ((cursor s + off') mod n)%nat = Some e ->
          later_than (ke_cooling_until e) 0 = true)
  \/ (c' = cursor s /\ forall off e, (1 <= off <= n)%nat -> es !! ((cursor s + off) mod n)%nat = Some e ->
          later_than (ke_cooling_until e) 0 = true).
Proof. apply (advance_cursor_correct 0 (state demo_tripped)). vm_compute. lia. Defined.

Lemma uniform_jitter_bounded_witness :
  let '(d, j') := jitter (uniform_default (Some 0)) (Dur.from_secs 5) in
  Dur.from_secs 5 <= d <= Dur.from_secs 5 + Dur.from_secs 5 / 2 /\ Dur.valid d /\ rng_valid (uj_rng j')
  /\ 0 < u64_saturating_add (wrap64 (Dur.from_secs 5 / 2)) 1.
Proof.
  apply (uniform_jitter_bounded (uniform_default (Some 0)) (Dur.from_secs 5)).
  - split; vm_compute; congruence.
  - split; vm_compute; congruence.
Defined.

(** ** An out-of-order report *)

(** Three selections of one key; the third reports an exhausted quota of one
    hour, then the first a network failure, then the second a success. *)
Definition stale_trace : option (KeyPool NoJitter * KeyPool NoJitter) :=
  let p0 := with_next_id demo_pool 3 in
  p1 ← report_failure (demo_sel 2) (Failure.UsageLimit Weekly (Dur.from_secs 3600)) 0 p0;
  p2 ← report_failure (demo_sel 0) Failure.Network 1 p1;
  Some (p1, report_success (demo_sel 1) p2).

(** A failure report of an older selection lowers the marker of its key, and a
    success that is older than the cooldown then clears the cooldown. *)
Theorem stale_success_clears_newer_cooldown :
  exists p1 p3, stale_trace = Some (p1, p3)
    /\ cooling_of p1 (demo_fp 0) = Some (Dur.from_secs 3600)
    /\ (ke_cooling_by <$> key_state p1 (demo_fp 0)) = Some (Some 2)
    /\ cooling_of p3 (demo_fp 0) = None.
Proof. do 2 eexists. split_and!; vm_compute; reflexivity. Qed.
