(* ===== verification/PoolSpec.v ===== *)
(** * What the key pool promises

    The abstract pool is a map from fingerprints to what a caller can depend
    on: until when a key is cooling, whether it recovers through one probe at a
    time, and for which models it is set aside.  The list with its positions
    and cursor, the report identifiers, the failure counters and the backoff
    step are gone; what they decide is left open where the caller must not
    depend on it.  [pool_refines]: every history of the pool is one of the
    abstract pool. *)
From S2P Require Export PoolRequest.

(** ** The abstract pool *)

Record SpecKey := mk_spec_key {
  sk_cooling : option Instant;
  sk_probing : bool;
  sk_models : gmap string Instant;
}.

Abbreviation SpecPool := (gmap string SpecKey).

Definition sk_fresh : SpecKey := mk_spec_key None false ∅.

(** Usable at [now] for [model]. *)
Definition sk_free (now : Instant) (model : option string) (k : SpecKey) : Prop :=
  later_than (sk_cooling k) now = false /\
  later_than (m ← model; sk_models k !! m) now = false.

(** A deadline is only ever moved forward. *)
Definition sk_extend (d : Instant) (k : SpecKey) : SpecKey :=
  if later_than (sk_cooling k) d then k else mk_spec_key (Some d) (sk_probing k) (sk_models k).
Definition sk_trip (d : Instant) (k : SpecKey) : SpecKey :=
  if later_than (sk_cooling k) d then k else mk_spec_key (Some d) true (sk_models k).
Definition sk_recover (k : SpecKey) : SpecKey := mk_spec_key None false (sk_models k).
Definition sk_mark (model : string) (d : Instant) (k : SpecKey) : SpecKey :=
  mk_spec_key (sk_cooling k) (sk_probing k) (<[model := d]> (sk_models k)).
(** The key given out: the next probe has to wait. *)
Definition sk_claim (d : Instant) (k : SpecKey) : SpecKey :=
  if sk_probing k then mk_spec_key (Some d) true (sk_models k) else k.

(** [now] plus a cooldown, at most the pool's largest cooldown away. *)
Definition clamp (now : Instant) (cooldown : Duration) : Instant := now + Z.min cooldown MAX_COOLDOWN.

(** ** Operations and what they may do *)

Inductive Op :=
| OSelect (ra : RequestAttempts) (now : Instant)
| OFail (sel : Selection) (f : Failure.t) (now : Instant)
| OSucceed (sel : Selection)
| OProactive (fp : string) (cooldown : Duration) (now : Instant)
| OLiveness (sel : Selection) (model : string) (now : Instant)
| OReplace (keys : list Secret)
| OAvailable (now : Instant).

Inductive Answer :=
| AnsNone
| AnsSelected (sel : option Selection)
| AnsReplaced (ok : bool)
| AnsAvailable (b : bool).

(** The cooldown a failure may lead to: the one it names, or a backoff. *)
Definition spec_cooldown (pol : PoolPolicy) (f : Failure.t) (cd : Duration) : Prop :=
  match f with
  | Failure.UsageLimit _ c => cd = c
  | Failure.RateLimited (Some r) | Failure.Unavailable (Some r) =>
      if 0 <? r then cd = r else cd <= backoff_max pol
  | Failure.RateLimited None | Failure.Unavailable None => cd <= backoff_max pol
  | Failure.Server | Failure.Network => False
  end.

Section Spec.
Context `{Sha256}.

Inductive spec_step (pol : PoolPolicy) (s : SpecPool) : Op -> Answer -> SpecPool -> Prop :=
| spec_selected ra now c k id :
    c ∈ ra_candidates ra -> rc_fingerprint c ∉ ra_used ra ->
    s !! rc_fingerprint c = Some k -> sk_free now (ra_model ra) k ->
    spec_step pol s (OSelect ra now)
      (AnsSelected (Some (mk_selection (rc_fingerprint c) (rc_key c) id)))
      (alter (sk_claim (clamp now (breaker_cooldown pol))) (rc_fingerprint c) s)
| spec_none_left ra now :
    (forall c k, c ∈ ra_candidates ra -> rc_fingerprint c ∉ ra_used ra ->
       s !! rc_fingerprint c = Some k -> ~ sk_free now (ra_model ra) k) ->
    spec_step pol s (OSelect ra now) (AnsSelected None) s
| spec_failed sel f now cd :
    spec_cooldown pol f cd ->
    spec_step pol s (OFail sel f now) AnsNone (alter (sk_extend (clamp now cd)) (sel_fingerprint sel) s)
| spec_failed_quiet sel f now :
    f = Failure.Server \/ f = Failure.Network ->
    spec_step pol s (OFail sel f now) AnsNone s
| spec_failed_trip sel now :
    spec_step pol s (OFail sel Failure.Network now) AnsNone
      (alter (sk_trip (clamp now (breaker_cooldown pol))) (sel_fingerprint sel) s)
| spec_succeeded sel :
    spec_step pol s (OSucceed sel) AnsNone (alter sk_recover (sel_fingerprint sel) s)
| spec_succeeded_late sel :
    spec_step pol s (OSucceed sel) AnsNone s
| spec_proactive fp cd now :
    spec_step pol s (OProactive fp cd now) AnsNone (alter (sk_extend (clamp now cd)) fp s)
| spec_liveness sel model now :
    spec_step pol s (OLiveness sel model now) AnsNone
      (alter (sk_mark model (clamp now (backoff_initial pol))) (sel_fingerprint sel) s)
| spec_replaced keys :
    keys <> [] ->
    spec_step pol s (OReplace keys) (AnsReplaced true)
      (list_to_map ((fun k => let fp := fingerprint (as_str k) in
                              (fp, default sk_fresh (s !! fp))) <$> keys))
| spec_not_replaced :
    spec_step pol s (OReplace []) (AnsReplaced false) s
| spec_available now b :
    b = true <-> (exists fp k, s !! fp = Some k /\ later_than (sk_cooling k) now = false) ->
    spec_step pol s (OAvailable now) (AnsAvailable b) s.

(** Histories. *)
Inductive spec_run (pol : PoolPolicy) : SpecPool -> list (Op * Answer) -> SpecPool -> Prop :=
| spec_run_nil s : spec_run pol s [] s
| spec_run_cons s op a s' rest s'' :
    spec_step pol s op a s' -> spec_run pol s' rest s'' -> spec_run pol s ((op, a) :: rest) s''.

(** ** The pool as such a system *)

Context {J : Type} `{Jitter J}.
Implicit Types p : KeyPool J.

Definition exec (op : Op) p : option (Answer * KeyPool J) :=
  match op with
  | OSelect ra now => '(r, p') ← try_select_unused ra now p; Some (AnsSelected r, p')
  | OFail sel f now => p' ← report_failure sel f now p; Some (AnsNone, p')
  | OSucceed sel => Some (AnsNone, report_success sel p)
  | OProactive fp cd now => p' ← report_proactive_cooldown fp cd now p; Some (AnsNone, p')
  | OLiveness sel model now => p' ← report_liveness_failure sel model now p; Some (AnsNone, p')
  | OReplace keys =>
      match replace_keys keys p with
      | Ok p' => Some (AnsReplaced true, p')
      | Err _ => Some (AnsReplaced false, p)
      end
  | OAvailable now => Some (AnsAvailable (has_available_key now p), p)
  end.

Fixpoint exec_all (ops : list Op) p : option (list (Op * Answer) * KeyPool J) :=
  match ops with
  | [] => Some ([], p)
  | op :: rest =>
      '(a, p') ← exec op p;
      '(history, p'') ← exec_all rest p';
      Some ((op, a) :: history, p'')
  end.

(** What a key looks like from outside. *)
Definition view (e : KeyEntry) : SpecKey :=
  mk_spec_key (ke_cooling_until e) (ke_half_open e) (ke_liveness_cooling e).

(** The pool [p] implements the abstract pool [s]. *)
Record implements (pol : PoolPolicy) p (s : SpecPool) : Prop := {
  imp_policy : policy p = pol;
  imp_distinct : NoDup (ke_fingerprint <$> entries (state p));
  imp_view : forall fp, s !! fp = view <$> key_state p fp;
}.

(** Key lists of the configuration name no key twice. *)
Definition distinct_keys (keys : list Secret) : Prop := NoDup ((fun k => fingerprint (as_str k)) <$> keys).

(** An operation whose instant is real and whose key list is one a
    configuration can hold. *)
Definition op_ok (op : Op) : Prop :=
  match op with
  | OSelect _ now | OFail _ _ now | OProactive _ _ now | OLiveness _ _ now => real_instant now
  | OReplace keys => distinct_keys keys
  | OSucceed _ | OAvailable _ => True
  end.

(** ** Simulation *)

(** Replacing the entry of one key is [alter] on the map. *)
Lemma implements_put pol p p' s fp i e e' g :
  implements pol p s -> find_entry fp (entries (state p)) = Some (i, e) ->
  policy p' = policy p -> entries (state p') = <[i := e']> (entries (state p)) ->
  ke_fingerprint e' = fp -> view e' = g (view e) ->
  implements pol p' (alter g fp s).
Proof.
  intros [Hpol Hnd Hview] Hf Hp He Hfp Hg.
  pose proof (find_entry_some _ _ _ _ Hf) as (Hi & Hfpe & _). constructor.
  - congruence.
  - rewrite He, (fmap_insert_same _ _ _ _ _ Hi); [done | congruence].
  - intros fp'. unfold key_state. rewrite He, (find_entry_put fp fp' _ _ _ _ Hf Hfp).
    destruct (decide (fp' = fp)) as [-> | Hne].
    + rewrite lookup_alter_eq, Hview. unfold key_state. rewrite Hf. simpl. by rewrite Hg.
    + rewrite lookup_alter_ne by done. apply Hview.
Qed.

(** An operation that keeps the entries changes nothing. *)
Lemma implements_same pol p p' s :
  implements pol p s -> policy p' = policy p -> entries (state p') = entries (state p) ->
  implements pol p' s.
Proof.
  intros [Hpol Hnd Hview] Hp He. constructor; [congruence | by rewrite He |].
  intros fp. unfold key_state. rewrite He. apply Hview.
Qed.

(** A key the pool does not know. *)
Lemma implements_unknown pol p s fp g :
  implements pol p s -> find_entry fp (entries (state p)) = None -> alter g fp s = s.
Proof.
  intros [_ _ Hview] Hf. apply alter_id. intros k Hk. rewrite Hview in Hk.
  unfold key_state in Hk. by rewrite Hf in Hk.
Qed.

(** Where a guard leaves the entry alone, so does the abstract operation. *)
Lemma alter_guarded pol p s fp i e g :
  implements pol p s -> find_entry fp (entries (state p)) = Some (i, e) -> g (view e) = view e ->
  alter g fp s = s.
Proof.
  intros [_ _ Hview] Hf Hg. apply alter_id. intros k Hk. rewrite Hview in Hk.
  unfold key_state in Hk. rewrite Hf in Hk. simpl in Hk. by injection Hk as <-.
Qed.

Lemma view_free e now model :
  sk_free now model (view e) <->
  later_than (ke_cooling_until e) now = false /\ later_than (model_deadline model e) now = false.
Proof. done. Qed.
(** A cooling report: the guard of the code is the guard of [sk_extend]. *)
Lemma cool_simulates pol p p' s fp i e d by_ reason step now :
  implements pol p s -> find_entry fp (entries (state p)) = Some (i, e) ->
  policy p' = policy p ->
  entries (state p') =
    (if later_than (ke_cooling_until e) d then entries (state p)
     else <[i := cool_entry d reason by_ (set_backoff_step step e)]> (entries (state p))) ->
  d = now -> implements pol p' (alter (sk_extend d) fp s).
Proof.
  intros Himp Hf Hp He _. pose proof (find_entry_some _ _ _ _ Hf) as (_ & Hfp & _).
  destruct (later_than (ke_cooling_until e) d) eqn:Hl.
  - rewrite (alter_guarded pol p s fp i e); [by eapply implements_same | done | done |].
    unfold sk_extend. simpl. by rewrite Hl.
  - eapply implements_put; [done | exact Hf | done | exact He | done |].
    unfold sk_extend. simpl. by rewrite Hl.
Qed.

Lemma select_simulates pol p s ra now r p' :
  real_instant now -> implements pol p s -> try_select_unused ra now p = Some (r, p') ->
  exists s', spec_step pol s (OSelect ra now) (AnsSelected r) s' /\ implements pol p' s'.
Proof.
  intros Hnow Himp Hrun. pose proof (imp_view _ _ _ Himp) as Hview.
  apply try_select_inv in Hrun. destruct r as [sel |].
  - destruct Hrun as (k & c & Hk & Hs & _ & -> & Hclaim).
    apply selectable_iff in Hs as (Hunused & i & e & Hf & Hcool & Hmodel).
    assert (s !! rc_fingerprint c = Some (view e)) as Hlook.
    { rewrite Hview. unfold key_state. by rewrite Hf. }
    eexists. split.
    { apply (spec_selected pol s ra now c (view e)); [by eapply list_elem_of_lookup_2 | done | done |].
      by apply view_free. }
    pose proof (find_entry_some _ _ _ _ Hf) as (_ & Hfp & _).
    unfold claim_half_open in Hclaim. simpl in Hclaim. rewrite Hf in Hclaim.
    destruct (ke_half_open e) eqn:Hh.
    + rewrite deadline_after_real in Hclaim by done. injection Hclaim as <-.
      eapply implements_put; [exact Himp | exact Hf | done | done | done |].
      unfold sk_claim, clamp, view. cbn. rewrite Hh, (imp_policy _ _ _ Himp). done.
    + injection Hclaim as <-. rewrite (alter_guarded pol p s _ i e); [by eapply implements_same | done | done |].
      unfold sk_claim. simpl. by rewrite Hh.
  - destruct Hrun as [-> Hnone]. exists s. split; [| done]. apply spec_none_left.
    intros c k Hc Hunused Hlook [Hcool Hmodel]. specialize (Hnone c Hc).
    rewrite Hview in Hlook. unfold key_state in Hlook.
    destruct (find_entry (rc_fingerprint c) (entries (state p))) as [[i e] |] eqn:Hf; [| done].
    injection Hlook as <-. apply not_true_iff_false in Hnone. apply Hnone, selectable_iff.
    split; [done |]. by exists i, e.
Qed.

Lemma choose_cooldown_spec f ra e p :
  f = Failure.RateLimited ra \/ f = Failure.Unavailable ra ->
  spec_cooldown (policy p) f (choose_cooldown ra e p).1.1.
Proof.
  intros Hf. unfold choose_cooldown.
  destruct (jitter (jitter_state p) (backoff_at (policy p) (ke_backoff_step e))) as [d j].
  destruct Hf as [-> | ->]; simpl; destruct ra as [r |]; simpl; try lia;
    destruct (0 <? r); simpl; try done; lia.
Qed.

Lemma backoff_simulates pol p s sel f reason ra now i e p' :
  f = Failure.RateLimited ra \/ f = Failure.Unavailable ra ->
  real_instant now -> implements pol p s ->
  find_entry (sel_fingerprint sel) (entries (state p)) = Some (i, e) ->
  report_backoff (sel_id sel) reason ra i e now p = Some p' ->
  exists s', spec_step pol s (OFail sel f now) AnsNone s' /\ implements pol p' s'.
Proof.
  intros Hfail Hnow Himp Hf Hrun. unfold report_backoff in Hrun.
  pose proof (choose_cooldown_spec f ra e p Hfail) as Hcd. rewrite (imp_policy _ _ _ Himp) in Hcd.
  destruct (choose_cooldown ra e p) as [[cd backed] j]. simpl in Hcd.
  rewrite deadline_after_real in Hrun by done. cbn [mbind option_bind] in Hrun.
  eexists. split; [by apply (spec_failed pol s sel f now cd) |].
  eapply (cool_simulates pol p p' s _ i e (clamp now cd) (sel_id sel) reason
            (if backed : bool then wrap32 (ke_backoff_step e + 1) else ke_backoff_step e)); try done;
    unfold clamp.
  - simpl in Hrun. by destruct (later_than _ _); injection Hrun as <-.
  - simpl in Hrun. destruct (later_than _ _); injection Hrun as <-; [done |].
    simpl. destruct backed; [done |]. by rewrite <- cool_entry_step.
Qed.

Lemma spec_cooldown_some pol f :
  f <> Failure.Server -> f <> Failure.Network -> exists cd, spec_cooldown pol f cd.
Proof.
  intros Hs Hn. assert (backoff_max pol <= backoff_max pol) by lia.
  destruct f as [dim c | [r |] | [r |] | |]; simpl; eauto; try done; destruct (0 <? r); eauto.
Qed.

Lemma fail_simulates pol p s sel f now p' :
  real_instant now -> implements pol p s -> report_failure sel f now p = Some p' ->
  exists s', spec_step pol s (OFail sel f now) AnsNone s' /\ implements pol p' s'.
Proof.
  intros Hnow Himp Hrun. unfold report_failure in Hrun.
  destruct (find_entry (sel_fingerprint sel) (entries (state p))) as [[i e] |] eqn:Hf.
  2: { injection Hrun as <-.
       assert ((f = Failure.Server \/ f = Failure.Network) \/ exists cd, spec_cooldown pol f cd) as [Hq | [cd Hcd]].
       { destruct f; eauto; right; by apply spec_cooldown_some. }
       - exists s. split; [by constructor | done].
       - eexists. split; [by apply (spec_failed pol s sel f now cd) |].
         by rewrite (implements_unknown pol p). }
  destruct f as [dim cd | ra | ra | |].
  - rewrite deadline_after_real in Hrun by done. cbn [mbind option_bind] in Hrun.
    eexists. split; [by apply (spec_failed pol s sel (Failure.UsageLimit dim cd) now cd) |].
    eapply (cool_simulates pol p p' s _ i e (clamp now cd) (sel_id sel) CoolingReason.UsageLimit (ke_backoff_step e));
      try done; unfold clamp.
    + by destruct (later_than _ _); injection Hrun as <-.
    + destruct (later_than _ _); injection Hrun as <-; [done |]. simpl. by rewrite <- cool_entry_step.
  - eapply (backoff_simulates pol p s sel _ _ ra); eauto.
  - eapply (backoff_simulates pol p s sel _ _ ra); eauto.
  - injection Hrun as <-. exists s. split; [apply spec_failed_quiet; by left | done].
  - set (e1 := set_last_failure_by (Some (sel_id sel))
                 (set_consecutive_failures (wrap32 (ke_consecutive_failures e + 1)) e)) in Hrun.
    pose proof (find_entry_some _ _ _ _ Hf) as (_ & Hfp & _).
    assert (implements pol (with_state p (put_entry i e1 (state p))) s) as Hcounted.
    { rewrite <- (alter_guarded pol p s (sel_fingerprint sel) i e id) by done.
      by eapply implements_put; [exact Himp | exact Hf | done.. |]. }
    destruct (breaker_threshold (policy p) <=? ke_consecutive_failures e1).
    2: { injection Hrun as <-. exists s. split; [apply spec_failed_quiet; by right | done]. }
    rewrite deadline_after_real in Hrun by done. cbn [mbind option_bind] in Hrun.
    destruct (later_than _ _) eqn:Hl; injection Hrun as <-.
    { exists s. split; [apply spec_failed_quiet; by right | done]. }
    eexists. split; [apply spec_failed_trip |].
    eapply implements_put; [exact Himp | exact Hf | done | done | done |].
    unfold sk_trip, clamp, view. simpl. rewrite <- (imp_policy _ _ _ Himp), Hl. done.
Qed.

Lemma succeed_simulates pol p s sel :
  implements pol p s ->
  exists s', spec_step pol s (OSucceed sel) AnsNone s' /\ implements pol (report_success sel p) s'.
Proof.
  intros Himp. unfold report_success.
  destruct (find_entry (sel_fingerprint sel) (entries (state p))) as [[i e] |] eqn:Hf;
    [| exists s; split; [apply spec_succeeded_late | done]].
  pose proof (find_entry_some _ _ _ _ Hf) as (_ & Hfp & _).
  destruct (later_than _ _); [exists s; split; [apply spec_succeeded_late | done] |].
  eexists. split; [apply spec_succeeded |].
  by eapply implements_put; [exact Himp | exact Hf | done.. |].
Qed.

Lemma proactive_simulates pol p s fp cd now p' :
  real_instant now -> implements pol p s -> report_proactive_cooldown fp cd now p = Some p' ->
  exists s', spec_step pol s (OProactive fp cd now) AnsNone s' /\ implements pol p' s'.
Proof.
  intros Hnow Himp Hrun. unfold report_proactive_cooldown in Hrun.
  rewrite deadline_after_real in Hrun by done. cbn [mbind option_bind] in Hrun.
  eexists. split; [apply spec_proactive |].
  destruct (find_entry fp (entries (state p))) as [[i e] |] eqn:Hf;
    [| injection Hrun as <-; by rewrite (implements_unknown pol p)].
  eapply (cool_simulates pol p p' s _ i e (clamp now cd) (next_id p) CoolingReason.ProactiveUsage (ke_backoff_step e));
    try done; unfold clamp.
  - by destruct (later_than _ _); injection Hrun as <-.
  - destruct (later_than _ _); injection Hrun as <-; [done |]. simpl. by rewrite <- cool_entry_step.
Qed.

Lemma liveness_simulates pol p s sel model now p' :
  real_instant now -> implements pol p s -> report_liveness_failure sel model now p = Some p' ->
  exists s', spec_step pol s (OLiveness sel model now) AnsNone s' /\ implements pol p' s'.
Proof.
  intros Hnow Himp Hrun. unfold report_liveness_failure in Hrun. eexists. split; [apply spec_liveness |].
  destruct (find_entry (sel_fingerprint sel) (entries (state p))) as [[i e] |] eqn:Hf;
    [| injection Hrun as <-; by rewrite (implements_unknown pol p)].
  pose proof (find_entry_some _ _ _ _ Hf) as (_ & Hfp & _).
  rewrite deadline_after_real in Hrun by done. injection Hrun as <-.
  eapply implements_put; [exact Himp | exact Hf | done | done | done |].
  unfold sk_mark, clamp, view. simpl. by rewrite (imp_policy _ _ _ Himp).
Qed.

Lemma carry_entries_fingerprints old (keys : list Secret) :
  ke_fingerprint <$> (carry_entry old <$> keys) = (fun k => fingerprint (as_str k)) <$> keys.
Proof. by rewrite <- list_fmap_compose. Qed.

Lemma replace_simulates pol p s keys p' :
  distinct_keys keys -> implements pol p s -> replace_keys keys p = Ok p' ->
  exists s', spec_step pol s (OReplace keys) (AnsReplaced true) s' /\ implements pol p' s'.
Proof.
  intros Hdist Himp Hrun. unfold replace_keys in Hrun.
  case_bool_decide as Hne; [done |]. injection Hrun as <-. eexists. split; [by apply spec_replaced |].
  constructor.
  - apply Himp.
  - cbn [state with_state entries]. by rewrite carry_entries_fingerprints.
  - intros fp. unfold key_state. cbn [state with_state entries]. rewrite find_entry_carry.
    set (m := (fun k : Secret => let f := fingerprint (as_str k) in (f, default sk_fresh (s !! f))) <$> keys).
    assert (m.*1 = (fun k => fingerprint (as_str k)) <$> keys) as Hdom.
    { unfold m. by rewrite <- list_fmap_compose. }
    destruct (list_find (fun k => fingerprint (as_str k) = fp) keys) as [[j k] |] eqn:Hfind; simpl.
    + apply list_find_Some in Hfind as (Hj & Hfp & _). apply list_elem_of_lookup_2 in Hj.
      apply elem_of_list_to_map; [by rewrite Hdom |].
      apply list_elem_of_fmap. exists k. split; [| done]. rewrite Hfp. f_equal.
      rewrite (imp_view _ _ _ Himp). unfold carry_entry, key_state. rewrite Hfp.
      by destruct (find_entry fp (entries (state p))) as [[i e] |].
    + apply list_find_None in Hfind. apply not_elem_of_list_to_map. rewrite Hdom.
      intros (k & -> & Hk)%list_elem_of_fmap. by apply (proj1 (Forall_forall _ _) Hfind k Hk).
Qed.

Lemma available_simulates pol p s now :
  implements pol p s ->
  spec_step pol s (OAvailable now) (AnsAvailable (has_available_key now p)) s.
Proof.
  intros [Hpol Hnd Hview]. apply spec_available. unfold has_available_key. rewrite existsb_exists. split.
  - intros (e & Hin%list_elem_of_In & He%negb_true_iff). exists (ke_fingerprint e), (view e).
    split; [| done]. rewrite Hview. unfold key_state.
    destruct (proj2 (find_entry_is_some (ke_fingerprint e) (entries (state p)))) as [[i e'] Hf]; [eauto |].
    rewrite Hf. simpl. do 2 f_equal.
    apply find_entry_some in Hf as (Hi & Hfp & _). apply list_elem_of_lookup in Hin as [j Hj].
    assert (i = j) as ->; [| congruence].
    eapply (NoDup_lookup _ _ _ (ke_fingerprint e) Hnd); rewrite list_lookup_fmap; [by rewrite Hi, <- Hfp | by rewrite Hj].
  - intros (fp & k & Hk & Hcool). rewrite Hview in Hk. unfold key_state in Hk.
    destruct (find_entry fp (entries (state p))) as [[i e] |] eqn:Hf; [| done]. injection Hk as <-.
    apply find_entry_some in Hf as (_ & _ & Hin). exists e. split; [by apply list_elem_of_In |].
    by apply negb_true_iff.
Qed.

Lemma exec_simulates pol op p s a p' :
  op_ok op -> implements pol p s -> exec op p = Some (a, p') ->
  exists s', spec_step pol s op a s' /\ implements pol p' s'.
Proof.
  intros Hop Himp Hrun. destruct op as [ra now | sel f now | sel | fp cd now | sel model now | keys | now];
    cbn [exec op_ok] in *.
  - apply bind_Some in Hrun as ([r q] & Hr & [= <- <-]). by eapply select_simulates.
  - apply bind_Some in Hrun as (q & Hr & [= <- <-]). by eapply fail_simulates.
  - injection Hrun as <- <-. by apply succeed_simulates.
  - apply bind_Some in Hrun as (q & Hr & [= <- <-]). by eapply proactive_simulates.
  - apply bind_Some in Hrun as (q & Hr & [= <- <-]). by eapply liveness_simulates.
  - destruct (replace_keys keys p) as [q | e] eqn:Hr; injection Hrun as <- <-; [by eapply replace_simulates |].
    unfold replace_keys in Hr. case_bool_decide as Hne; [| done]. subst keys.
    exists s. split; [apply spec_not_replaced | done].
  - injection Hrun as <- <-. exists s. split; [by apply available_simulates | done].
Qed.

Lemma exec_real op p : op_ok op -> is_Some (exec op p).
Proof.
  intros Hop. destruct op as [ra now | sel f now | sel | fp cd now | sel model now | keys | now]; cbn [exec op_ok] in *.
  - by destruct (try_select_real ra now p Hop) as [[r q] ->].
  - by destruct (report_failure_real sel f now p Hop) as [q ->].
  - done.
  - by destruct (report_proactive_real fp cd now p Hop) as [q ->].
  - by destruct (report_liveness_real sel model now p Hop) as [q ->].
  - by destruct (replace_keys keys p).
  - done.
Qed.

Lemma exec_all_simulates pol ops p s :
  Forall op_ok ops -> implements pol p s ->
  exists history p' s', exec_all ops p = Some (history, p') /\ (history.*1 = ops) /\
    spec_run pol s history s' /\ implements pol p' s'.
Proof.
  intros Hops. revert p s. induction Hops as [| op ops Hop Hops IH]; intros p s Himp.
  - exists [], p, s. split_and!; try done. constructor.
  - destruct (exec_real op p Hop) as [[a p1] Hexec].
    destruct (exec_simulates pol op p s a p1 Hop Himp Hexec) as (s1 & Hstep & Himp1).
    destruct (IH p1 s1 Himp1) as (history & p2 & s2 & Hall & Hfst & Hrun & Himp2).
    exists ((op, a) :: history), p2, s2. split_and!; [| cbn; by rewrite Hfst | by econstructor | done].
    cbn [exec_all]. rewrite Hexec. cbn [mbind option_bind]. by rewrite Hall.
Qed.

(** The abstract pool of a list of keys. *)
Definition spec_init (keys : list Secret) : SpecPool :=
  list_to_map ((fun k => (fingerprint (as_str k), sk_fresh)) <$> keys).

Lemma with_jitter_implements keys pol j p :
  distinct_keys keys -> with_jitter keys pol j = Ok p -> implements pol p (spec_init keys).
Proof.
  intros Hdist. unfold with_jitter. rewrite result_bind_ok. intros ([] & _ & Hrun).
  apply result_bind_ok in Hrun as ([] & _ & [= <-]).
  constructor; cbn [policy state entries].
  - done.
  - by rewrite <- list_fmap_compose.
  - intros fp. unfold key_state, find_entry, spec_init. cbn [state entries]. rewrite list_find_fmap.
    set (m := (fun k : Secret => (fingerprint (as_str k), sk_fresh)) <$> keys).
    assert (m.*1 = (fun k => fingerprint (as_str k)) <$> keys) as Hdom.
    { unfold m. by rewrite <- list_fmap_compose. }
    destruct (list_find ((fun e => ke_fingerprint e = fp) ∘ fresh_entry) keys) as [[i k] |] eqn:Hfind; simpl.
    + apply list_find_Some in Hfind as (Hi & Hfp & _). apply list_elem_of_lookup_2 in Hi.
      apply elem_of_list_to_map; [by rewrite Hdom |]. apply list_elem_of_fmap. exists k.
      split; [| done]. by rewrite <- Hfp.
    + apply list_find_None in Hfind. apply not_elem_of_list_to_map. rewrite Hdom.
      intros (k & -> & Hk)%list_elem_of_fmap. by apply (proj1 (Forall_forall _ _) Hfind k Hk).
Qed.

(** C5. The pool keeps its promises.  Start a pool over keys that differ, with any
    accepted policy and any jitter, and let its callers select, report, replace
    keys and ask for availability in any order and at any real instants: every
    operation answers, and the whole history is one that the abstract pool
    allows.  A selected key is a candidate the request has not used, is known,
    and cools neither for everyone nor for the request's model; nothing is
    refused while such a key exists; a report moves one key's deadline forward,
    to the cooldown it names or to a backoff within the policy, and touches no
    other key; a recovering key is claimed by the probe that gets it. *)
Theorem pool_refines (keys : list Secret) (pol : PoolPolicy) (j : J) p (ops : list Op) :
  distinct_keys keys -> with_jitter keys pol j = Ok p -> Forall op_ok ops ->
  exists history p' s', exec_all ops p = Some (history, p') /\ (history.*1 = ops) /\
    spec_run pol (spec_init keys) history s' /\
    forall fp, s' !! fp = view <$> key_state p' fp.
Proof.
  intros Hdist Hp Hops.
  destruct (exec_all_simulates pol ops p (spec_init keys) Hops) as (history & p' & s' & H1 & H2 & H3 & H4);
    [by eapply with_jitter_implements |].
  exists history, p', s'. split_and!; try done. apply H4.
Qed.
End Spec.

#[local] Instance demo_sha256 : Sha256 := toy_digest.

(** Trip the first key, see it refused, replace the keys, ask for the second. *)
Definition demo_ops : list Op :=
  [OSelect demo_request 0; OFail (demo_sel 0) Failure.Network 0; OSelect demo_request 0;
   OReplace (reverse demo_keys); OAvailable 0].

Lemma pool_refines_witness :
  exists history p' s', exec_all demo_ops demo_pool = Some (history, p') /\ history.*1 = demo_ops /\
    spec_run demo_policy (spec_init demo_keys) history s' /\
    forall fp, s' !! fp = view <$> key_state p' fp.
Proof.
  apply (pool_refines demo_keys demo_policy no_jitter).
  - apply (bool_decide_unpack _). by vm_compute.
  - by vm_compute.
  - assert (real_instant 0) by (split; by vm_compute).
    assert (distinct_keys (reverse demo_keys)) by (apply (bool_decide_unpack _); by vm_compute).
    repeat (apply Forall_cons_2; [done |]). by apply Forall_nil_2.
Defined.

(** What the callers of [demo_ops] are told: the first key, nothing, the second
    key although it comes second, the replacement, and that a key is free. *)
Definition answered (a : Answer) : option string :=
  match a with AnsSelected (Some sel) => Some (sel_fingerprint sel) | _ => None end.

Example demo_answers :
  match exec_all demo_ops demo_pool with
  | Some (history, _) => map (fun oa : Op * Answer => answered oa.2) history
  | None => []
  end = [Some (demo_fp 0); None; Some (demo_fp 1); None; None].
Proof. vm_compute. reflexivity. Qed.
