(* ===== verification/Semaphore.v ===== *)
(** * tokio's semaphore

    The crate is outside the repository.  [Semaphore] is the interface the code
    uses, [FairSem] the abstract semaphore the crate documents: permits are
    handed out in the order in which they were asked for, a large request at the
    head of the line holds up the small ones behind it, a waiter that gives up
    loses its place and what it had been handed goes to the next, and closing
    wakes every waiter with an error.  [SemaphoreLaws] says that an implementation
    seen through [sem_view] behaves like it; [FairSem] itself is an instance. *)
From S2P Require Export Prelude.

(** ** The abstract semaphore *)

(** A waiting [acquire]: its ticket, the permits it asked for, and how many of them
    it has not been handed yet. *)
Record Waiter := mk_waiter { wt_ticket : nat; wt_need : Z; wt_missing : Z }.

(** The free permits, the waiters in the order of their arrival, the next ticket. *)
Record FairSem := mk_fair {
  fs_permits : Z;
  fs_line : list Waiter;
  fs_next : nat;
  fs_closed : bool;
}.

(** Permits go to the waiters in order; what nobody misses is left over. *)
Fixpoint hand_out (n : Z) (ws : list Waiter) : list Waiter * Z :=
  match ws with
  | [] => ([], n)
  | w :: ws =>
      let k := Z.min n (wt_missing w) in
      let '(ws', rest) := hand_out (n - k) ws in
      (mk_waiter (wt_ticket w) (wt_need w) (wt_missing w - k) :: ws', rest)
  end.

Definition with_line (permits : Z) (ws : list Waiter) (s : FairSem) : FairSem :=
  mk_fair permits ws (fs_next s) (fs_closed s).

(** A closed semaphore hands out nothing. *)
Definition fair_release (n : Z) (s : FairSem) : FairSem :=
  if fs_closed s then with_line (fs_permits s + n) (fs_line s) s
  else let '(ws, rest) := hand_out n (fs_line s) in with_line (fs_permits s + rest) ws s.
Definition fair_try (n : Z) (s : FairSem) : option FairSem :=
  if negb (fs_closed s) && (n <=? fs_permits s)
  then Some (with_line (fs_permits s - n) (fs_line s) s) else None.

(** A new waiter gets what is free and stands at the end of the line. *)
Definition fair_enter (n : Z) (s : FairSem) : nat * FairSem :=
  let k := if fs_closed s then 0 else Z.min n (fs_permits s) in
  (fs_next s, mk_fair (fs_permits s - k) (fs_line s ++ [mk_waiter (fs_next s) n (n - k)])
                (S (fs_next s)) (fs_closed s)).

Definition waiter_of (t : nat) (s : FairSem) : option Waiter :=
  snd <$> list_find (fun w => wt_ticket w = t) (fs_line s).
Definition without (t : nat) (ws : list Waiter) : list Waiter := filter (fun w => wt_ticket w <> t) ws.

(** A waiter gives up. *)
Definition fair_leave (t : nat) (s : FairSem) : FairSem :=
  match waiter_of t s with
  | Some w => fair_release (wt_need w - wt_missing w) (with_line (fs_permits s) (without t (fs_line s)) s)
  | None => s
  end.

(** [None] while the waiter has to wait; an error when the semaphore is closed. *)
Definition fair_poll (t : nat) (s : FairSem) : option (result () () * FairSem) :=
  if fs_closed s then Some (Err (), fair_leave t s)
  else w ← waiter_of t s;
       if wt_missing w <=? 0 then Some (Ok (), with_line (fs_permits s) (without t (fs_line s)) s) else None.

Definition fair_new (n : Z) : FairSem := mk_fair n [] 0 false.
Definition fair_close (s : FairSem) : FairSem := mk_fair (fs_permits s) (fs_line s) (fs_next s) true.

(** ** The interface *)

(** [Semaphore::{new, try_acquire_many_owned, close, is_closed,
    available_permits}]; [sem_release] is the drop of a permit; [sem_enter] the
    first poll of [acquire_many_owned], [sem_poll] a poll of it and [sem_leave] the
    drop of its future before it is ready. *)
Class Semaphore (S : Type) := {
  sem_new : Z -> S;
  sem_try_acquire : Z -> S -> option S;
  sem_release : Z -> S -> S;
  sem_enter : Z -> S -> nat * S;
  sem_poll : nat -> S -> option (result () () * S);
  sem_leave : nat -> S -> S;
  sem_close : S -> S;
  sem_is_closed : S -> bool;
  sem_available : S -> Z;
}.

Class SemaphoreLaws (S : Type) `{Semaphore S} := {
  sem_view : S -> FairSem;
  view_new : forall n, sem_view (sem_new n) = fair_new n;
  view_try : forall n s, sem_view <$> sem_try_acquire n s = fair_try n (sem_view s);
  view_release : forall n s, sem_view (sem_release n s) = fair_release n (sem_view s);
  view_enter : forall n s, prod_map id sem_view (sem_enter n s) = fair_enter n (sem_view s);
  view_poll : forall t s, prod_map id sem_view <$> sem_poll t s = fair_poll t (sem_view s);
  view_leave : forall t s, sem_view (sem_leave t s) = fair_leave t (sem_view s);
  view_close : forall s, sem_view (sem_close s) = fair_close (sem_view s);
  view_closed : forall s, sem_is_closed s = fs_closed (sem_view s);
  view_available : forall s, sem_available s = fs_permits (sem_view s);
}.

#[global] Instance fair_semaphore : Semaphore FairSem := {|
  sem_new := fair_new;
  sem_try_acquire := fair_try;
  sem_release := fair_release;
  sem_enter := fair_enter;
  sem_poll := fair_poll;
  sem_leave := fair_leave;
  sem_close := fair_close;
  sem_is_closed := fs_closed;
  sem_available := fs_permits;
|}.

#[global] Instance fair_semaphore_laws : SemaphoreLaws FairSem.
Proof.
  refine {| sem_view := id |}; try done; intros.
  - cbn. by destruct (fair_try n s).
  - cbn. by destruct (fair_poll t s) as [[r s'] |].
Defined.

(** ** What the abstract semaphore keeps *)

(** Whoever stands behind a waiter that still misses permits has got none. *)
Fixpoint in_order (ws : list Waiter) : Prop :=
  match ws with
  | [] => True
  | w :: ws => (wt_missing w = 0 \/ Forall (fun v => wt_missing v = wt_need v) ws) /\ in_order ws
  end.
Definition tickets (ws : list Waiter) : list nat := wt_ticket <$> ws.
#[global] Arguments tickets ws : simpl never.
Definition satisfied (w : Waiter) : Prop := wt_missing w = 0.

(** Every waiter asked for [m] permits; nobody waits while a permit is free. *)
Record fair_wf (m : Z) (s : FairSem) : Prop := {
  fw_asked : 0 <= m;
  fw_permits : 0 <= fs_permits s;
  fw_need : Forall (fun w => wt_need w = m /\ 0 <= wt_missing w <= m) (fs_line s);
  fw_sorted : StronglySorted lt (tickets (fs_line s));
  fw_next : Forall (fun t => t < fs_next s)%nat (tickets (fs_line s));
  fw_order : in_order (fs_line s);
  fw_busy : fs_closed s = false -> fs_permits s = 0 \/ Forall satisfied (fs_line s);
}.

(** What the waiters have been handed, and every permit that nobody holds. *)
Definition handed (ws : list Waiter) : Z := foldr (fun w n => wt_need w - wt_missing w + n) 0 ws.
#[global] Arguments handed ws : simpl never.
Definition fair_unheld (s : FairSem) : Z := fs_permits s + handed (fs_line s).
Definition in_line (s : FairSem) (t : nat) : Z := if bool_decide (t ∈ tickets (fs_line s)) then 1 else 0.

Lemma in_line_range s t : 0 <= in_line s t <= 1.
Proof. unfold in_line. case_bool_decide; lia. Qed.

Lemma Forall_filter {A} (Q P : A -> Prop) `{!forall x, Decision (P x)} (l : list A) : Forall Q l -> Forall Q (filter P l).
Proof. rewrite !Forall_forall. intros Hl x [_ Hx]%list_elem_of_filter. auto. Qed.

Lemma filter_keeps_all {A} (P : A -> Prop) `{!forall x, Decision (P x)} (l : list A) : Forall P l -> filter P l = l.
Proof. induction 1 as [| x l Hx _ IH]; [done |]. by rewrite filter_cons, decide_True, IH. Qed.

Lemma tickets_without t ws : tickets (without t ws) = filter (fun u => u <> t) (tickets ws).
Proof.
  unfold tickets, without. induction ws as [| w ws IH]; [done |].
  rewrite filter_cons, fmap_cons, filter_cons. destruct (decide (wt_ticket w <> t)); [| done].
  by rewrite fmap_cons, IH.
Qed.

Lemma without_needs t m ws :
  Forall (fun w => wt_need w = m /\ 0 <= wt_missing w <= m) ws ->
  Forall (fun w => wt_need w = m /\ 0 <= wt_missing w <= m) (without t ws).
Proof. intros Hn. by apply Forall_filter. Qed.

Lemma without_order t ws : in_order ws -> in_order (without t ws).
Proof.
  unfold without. induction ws as [| w ws IH]; [done |]. cbn [in_order]. intros [Hw Hws]. rewrite filter_cons.
  case_decide; [| auto]. split; [| auto]. destruct Hw as [? | Hw]; [by left | right]. by apply Forall_filter.
Qed.

Lemma sorted_filter (P : nat -> Prop) `{!forall x, Decision (P x)} (l : list nat) :
  StronglySorted lt l -> StronglySorted lt (filter P l).
Proof.
  induction 1 as [| x l Hl IH Hx]; [constructor |]. rewrite filter_cons. case_decide; [| done].
  constructor; [done | by apply Forall_filter].
Qed.

(** *** Handing out *)

Lemma hand_out_tickets n ws : tickets (hand_out n ws).1 = tickets ws.
Proof.
  revert n. induction ws as [| w ws IH]; intros n; [done |]. cbn [hand_out]. specialize (IH (n - Z.min n (wt_missing w))).
  destruct (hand_out _ ws). unfold tickets in *. rewrite fmap_cons. cbn [fst] in *. by rewrite fmap_cons, IH.
Qed.

Lemma hand_out_total n ws : handed (hand_out n ws).1 + (hand_out n ws).2 = handed ws + n.
Proof.
  revert n. induction ws as [| w ws IH]; intros n; [cbn; lia |]. cbn [hand_out]. specialize (IH (n - Z.min n (wt_missing w))).
  destruct (hand_out _ ws). unfold handed in *. cbn in *. lia.
Qed.

Lemma hand_out_needs n m ws :
  0 <= n -> Forall (fun w => wt_need w = m /\ 0 <= wt_missing w <= m) ws ->
  Forall (fun w => wt_need w = m /\ 0 <= wt_missing w <= m) (hand_out n ws).1 /\ 0 <= (hand_out n ws).2.
Proof.
  intros Hn Hws. revert n Hn. induction Hws as [| w ws [Hw Hm] _ IH]; intros n Hn; [done |]. cbn.
  specialize (IH (n - Z.min n (wt_missing w)) ltac:(lia)). destruct (hand_out _ ws). cbn in *.
  split; [| apply IH]. constructor; [cbn; lia | apply IH].
Qed.

Lemma hand_out_nothing ws : Forall (fun w => 0 <= wt_missing w) ws -> hand_out 0 ws = (ws, 0).
Proof.
  induction 1 as [| w ws Hw _ IH]; [done |]. cbn. replace (Z.min 0 (wt_missing w)) with 0 by lia.
  rewrite Z.sub_0_r, IH. destruct w. cbn. by rewrite Z.sub_0_r.
Qed.

Lemma hand_out_satisfied n ws : 0 <= n -> Forall satisfied ws -> hand_out n ws = (ws, n).
Proof.
  intros Hn. induction 1 as [| w ws Hw _ IH]; [done |]. cbn. unfold satisfied in Hw. rewrite Hw, Z.min_r, Z.sub_0_r, IH by lia.
  destruct w. cbn in *. by subst.
Qed.

Lemma hand_out_order n m ws :
  0 <= n -> Forall (fun w => wt_need w = m /\ 0 <= wt_missing w <= m) ws -> in_order ws -> in_order (hand_out n ws).1.
Proof.
  intros Hn Hws. revert n Hn. induction Hws as [| w ws [Hw Hm] Hws IH]; intros n Hn; [done |]. cbn [in_order]. intros [Ho Hos].
  cbn. specialize (IH (n - Z.min n (wt_missing w)) ltac:(lia) Hos).
  destruct (Z.le_gt_cases (wt_missing w) n) as [Hle | Hgt].
  - destruct (hand_out _ ws). split; [left; cbn; lia | done].
  - rewrite Z.min_l, Z.sub_diag in * by lia. rewrite hand_out_nothing in * by (eapply Forall_impl; [done | naive_solver]).
    cbn. split; [| done]. destruct Ho as [? | Ho]; [lia | by right].
Qed.

Lemma hand_out_rest n m ws :
  0 <= n -> Forall (fun w => wt_need w = m /\ 0 <= wt_missing w <= m) ws ->
  (hand_out n ws).2 = 0 \/ Forall satisfied (hand_out n ws).1.
Proof.
  intros Hn Hws. revert n Hn. induction Hws as [| w ws [Hw Hm] Hws IH]; intros n Hn; [by right |]. cbn.
  specialize (IH (n - Z.min n (wt_missing w)) ltac:(lia)).
  destruct (Z.le_gt_cases (wt_missing w) n) as [Hle | Hgt].
  - destruct (hand_out _ ws). destruct IH as [? | IH]; [by left | right]. constructor; [| done]. unfold satisfied. cbn. lia.
  - left. rewrite Z.min_l, Z.sub_diag by lia. by rewrite hand_out_nothing by (eapply Forall_impl; [done | naive_solver]).
Qed.

(** What the waiters up to a ticket still miss: the permits that must come back
    before it is served. *)
Definition owed (t : nat) (ws : list Waiter) : Z :=
  foldr (fun w n => (if decide (wt_ticket w <= t)%nat then wt_missing w else 0) + n) 0 ws.

Lemma owed_nonneg t ws : Forall (fun w => 0 <= wt_missing w) ws -> 0 <= owed t ws.
Proof. unfold owed. induction 1; cbn; [done |]. case_decide; lia. Qed.

Lemma owed_later t ws : Forall (fun u => t < u)%nat (tickets ws) -> owed t ws = 0.
Proof.
  induction ws as [| w ws IH]; [done |]. unfold tickets, owed in *. rewrite fmap_cons, Forall_cons. intros [Hw Hws]. cbn.
  rewrite decide_False, IH by (done || lia). done.
Qed.

(** Whoever comes first is served first: permits go to the waiters in order. *)
Lemma hand_out_owed t n m ws :
  0 <= n -> Forall (fun w => wt_need w = m /\ 0 <= wt_missing w <= m) ws -> StronglySorted lt (tickets ws) ->
  owed t (hand_out n ws).1 = Z.max 0 (owed t ws - n).
Proof.
  intros Hn Hws. revert n Hn. induction Hws as [| w ws [Hw Hm] Hws IH]; intros n Hn Hs; [cbn; lia |].
  inversion Hs as [| ? ? Hs' Hlt]; subst. specialize (IH (n - Z.min n (wt_missing w)) ltac:(lia) Hs').
  assert (0 <= owed t ws) as Hnn by (apply owed_nonneg; eapply Forall_impl; [done | naive_solver]).
  destruct (decide (wt_ticket w <= t)%nat) as [Hle | Hgt].
  - cbn [hand_out]. destruct (hand_out _ ws). cbn [fst] in *. unfold owed in *. cbn [foldr wt_ticket wt_missing].
    rewrite !decide_True by done. rewrite IH. lia.
  - rewrite !owed_later; [lia | |]; rewrite ?hand_out_tickets; unfold tickets; rewrite fmap_cons; constructor; try lia;
      (eapply Forall_impl; [exact Hlt |]; cbn; lia).
Qed.

#[global] Arguments owed t ws : simpl never.

Lemma owed_app t ws ws' : owed t (ws ++ ws') = owed t ws + owed t ws'.
Proof. unfold owed. induction ws as [| w ws IH]; cbn; [done |]. rewrite IH. lia. Qed.

Lemma owed_without t u ws : Forall (fun w => 0 <= wt_missing w) ws -> owed t (without u ws) <= owed t ws.
Proof.
  unfold owed, without. induction 1 as [| w ws Hw _ IH]; [done |]. rewrite filter_cons.
  destruct (decide (wt_ticket w <> u)); cbn; case_decide; lia.
Qed.

Lemma missing_nonneg m ws :
  Forall (fun w => wt_need w = m /\ 0 <= wt_missing w <= m) ws -> Forall (fun w => 0 <= wt_missing w) ws.
Proof. intros Hws. eapply Forall_impl; [done | naive_solver]. Qed.

Lemma owed_mono t u ws : (t <= u)%nat -> Forall (fun w => 0 <= wt_missing w) ws -> owed t ws <= owed u ws.
Proof. intros Hle. unfold owed. induction 1; cbn; [done |]. repeat case_decide; lia. Qed.

Lemma owed_satisfied t ws : Forall satisfied ws -> owed t ws = 0.
Proof. unfold owed, satisfied. induction 1 as [| w ws Hw _ IH]; cbn; [done |]. case_decide; lia. Qed.

(** *** The ledger of a semaphore *)

(** What a task holds of it: permits, or a place in the line. *)
Record hold := mk_hold { hd_permits : Z; hd_ticket : option nat }.
Definition waits (o : option nat) : Z := if o is Some _ then 1 else 0.
Definition ticket_is (o : option nat) (t : nat) : Z := if decide (o = Some t) then 1 else 0.

(** An operation by a task that held [x] before and holds [y] afterwards, as it
    must be: nothing is created or lost. *)
Record fair_balance (m : Z) (x y : hold) (s s' : FairSem) : Prop := {
  fb_wf : fair_wf m s';
  fb_permits : fair_unheld s' + hd_permits y = fair_unheld s + hd_permits x;
  fb_line : forall t, in_line s' t - ticket_is (hd_ticket y) t = in_line s t - ticket_is (hd_ticket x) t;
  fb_length : Z.of_nat (length (fs_line s')) - waits (hd_ticket y) = Z.of_nat (length (fs_line s)) - waits (hd_ticket x);
  fb_closed : fs_closed s' = fs_closed s;
  fb_next : (fs_next s <= fs_next s')%nat;
  fb_owed : forall t, (t < fs_next s)%nat -> owed t (fs_line s') <= owed t (fs_line s);
}.

Lemma fair_wf_free m s : fair_wf m s -> 0 <= fs_permits s /\ 0 <= handed (fs_line s).
Proof.
  intros [_ Hp Hn _ _ _ _]. split; [done |]. unfold handed. induction Hn as [| w ws [? ?] _ IH]; cbn; lia.
Qed.

Lemma ticket_is_none t : ticket_is None t = 0.
Proof. done. Qed.

Lemma fair_new_wf m n : 0 <= m -> 0 <= n -> fair_wf m (fair_new n).
Proof. intros Hm Hn. split; cbn; [done | done | done | constructor | done | done | by right]. Qed.

Lemma fair_release_balance m n k o s :
  0 <= n -> fair_wf m s -> fair_balance m (mk_hold (k + n) o) (mk_hold k o) s (fair_release n s).
Proof.
  intros Hn [Hm Hp Hneed Hsort Hnext Hord Hbusy]. unfold fair_release. destruct (fs_closed s) eqn:Hc.
  - split; [| unfold fair_unheld; cbn; lia | done | done | done | done | done].
    split; cbn; [done | lia | done | done | done | done | congruence].
  - pose proof (hand_out_tickets n (fs_line s)) as Ht. pose proof (hand_out_total n (fs_line s)) as Htot.
    pose proof (hand_out_needs n m _ Hn Hneed) as [Hneed' Hrest]. pose proof (hand_out_order n m _ Hn Hneed Hord) as Hord'.
    pose proof (hand_out_rest n m _ Hn Hneed) as Hr.
    assert (Forall satisfied (fs_line s) -> Forall satisfied (hand_out n (fs_line s)).1) as Hsat.
    { intros Hall. by rewrite hand_out_satisfied. }
    pose proof (fun t => hand_out_owed t n m _ Hn Hneed Hsort) as Howed.
    assert (length (hand_out n (fs_line s)).1 = length (fs_line s)) as Hlen.
    { apply (f_equal length) in Ht. unfold tickets in Ht. by rewrite !length_fmap in Ht. }
    destruct (hand_out n (fs_line s)) as [ws rest]. cbn [fst snd] in *.
    split; [| unfold fair_unheld; cbn; lia | intros t; unfold in_line; cbn; by rewrite Ht
      | cbn; by rewrite Hlen | done | done |].
    + split; cbn; rewrite ?Ht; try done; [lia |]. intros _.
      destruct (Hbusy eq_refl) as [? | ?]; [| by right; apply Hsat]. destruct Hr as [? | ?]; [left; lia | by right].
    + intros t _. cbn. rewrite Howed. pose proof (owed_nonneg t _ (missing_nonneg _ _ Hneed)). lia.
Qed.

(** While the semaphore is open, a released permit shortens everybody's wait. *)
Lemma fair_release_owed m n s t :
  0 <= n -> fair_wf m s -> fs_closed s = false ->
  owed t (fs_line (fair_release n s)) = Z.max 0 (owed t (fs_line s) - n).
Proof.
  intros Hn [_ _ Hneed Hsort _ _ _] Hc. unfold fair_release. rewrite Hc.
  pose proof (hand_out_owed t n m _ Hn Hneed Hsort) as Howed. by destruct (hand_out n (fs_line s)).
Qed.

Lemma fair_try_balance m n k o s s' :
  0 <= n -> fair_wf m s -> fair_try n s = Some s' ->
  fair_balance m (mk_hold k o) (mk_hold (k + n) o) s s' /\ fs_closed s = false /\ n <= fs_permits s.
Proof.
  intros Hn [Hm Hp Hneed Hsort Hnext Hord Hbusy]. unfold fair_try. destruct (fs_closed s) eqn:Hc; [done |]. simpl.
  destruct (Z.leb_spec n (fs_permits s)); [| done]. intros [= <-]. split_and!; [| done | done].
  split; [| unfold fair_unheld; cbn; lia | done | done | done | done | done]. split; cbn; try done; [lia |].
  intros _. destruct (Hbusy eq_refl); [left; lia | by right].
Qed.

Lemma fair_try_none m n s :
  0 < n -> fair_wf m s -> fair_try n s = None -> fs_closed s = true \/ fs_permits s < n.
Proof.
  intros Hn Hwf. unfold fair_try. destruct (fs_closed s); [by left |]. simpl.
  destruct (Z.leb_spec n (fs_permits s)); [done | by right].
Qed.

Lemma in_line_app s s' t u :
  tickets (fs_line s') = tickets (fs_line s) ++ [u] -> Forall (fun t => t < u)%nat (tickets (fs_line s)) ->
  in_line s' t = in_line s t + ticket_is (Some u) t.
Proof.
  intros Heq Hlt. unfold in_line, ticket_is. rewrite Heq. destruct (decide (Some u = Some t)) as [[= ->] | Hne].
  - rewrite (bool_decide_true (t ∈ _ ++ _)) by (apply elem_of_app; right; by left).
    rewrite bool_decide_false; [done |]. intros Hin. rewrite Forall_forall in Hlt. specialize (Hlt t Hin). lia.
  - rewrite Z.add_0_r. erewrite bool_decide_ext; [done |]. rewrite elem_of_app, list_elem_of_singleton. naive_solver.
Qed.

Lemma in_line_without s s' t u :
  tickets (fs_line s') = tickets (without u (fs_line s)) -> u ∈ tickets (fs_line s) ->
  in_line s' t = in_line s t - ticket_is (Some u) t.
Proof.
  intros Heq Hu. unfold in_line, ticket_is. rewrite Heq, tickets_without. destruct (decide (Some u = Some t)) as [[= ->] | Hne].
  - rewrite (bool_decide_true (t ∈ tickets (fs_line s))) by done. rewrite bool_decide_false; [done |].
    by intros [? _]%list_elem_of_filter.
  - rewrite Z.sub_0_r. erewrite bool_decide_ext; [done |]. rewrite list_elem_of_filter. naive_solver.
Qed.

Lemma in_order_snoc ws w :
  in_order ws -> Forall satisfied ws \/ wt_missing w = wt_need w -> in_order (ws ++ [w]).
Proof.
  induction ws as [| v ws IH]; cbn; [by intros _ _; split; [right |] |]. intros [Hv Hws] Hw. split.
  - destruct Hw as [Hall | Hw]; [left; by inversion Hall |]. destruct Hv as [? | Hv]; [by left | right].
    apply Forall_app. split; [done |]. by constructor.
  - apply IH; [done |]. destruct Hw as [Hall | ?]; [left; by inversion Hall | by right].
Qed.

Lemma handed_app ws ws' : handed (ws ++ ws') = handed ws + handed ws'.
Proof. unfold handed. induction ws as [| w ws IH]; cbn; [done |]. rewrite IH. lia. Qed.

Lemma fair_enter_balance m k s :
  fair_wf m s ->
  fair_balance m (mk_hold k None) (mk_hold k (Some (fair_enter m s).1)) s (fair_enter m s).2.
Proof.
  intros [Hm Hp Hneed Hsort Hnext Hord Hbusy]. unfold fair_enter. cbn [fst snd]. set (got := if fs_closed s then 0 else _).
  assert (0 <= got <= m /\ got <= fs_permits s /\ (fs_closed s = false -> got = m \/ got = fs_permits s)
    /\ (Forall satisfied (fs_line s) \/ got = 0)) as (Hgot & Hle & Hall & Hfirst).
  { unfold got. destruct (fs_closed s); split_and!; try lia; try done.
    destruct (Hbusy eq_refl); [right; lia | by left]. }
  split; [split; cbn | unfold fair_unheld; cbn; rewrite handed_app; unfold handed at 2; cbn; lia
    | | cbn; rewrite length_app; cbn; lia | done | cbn; lia |].
  - done.
  - lia.
  - apply Forall_app. split; [done |]. repeat constructor; cbn; lia.
  - unfold tickets. rewrite fmap_app. apply StronglySorted_app_2; [| done | repeat constructor].
    intros x y Hx ->%list_elem_of_singleton. rewrite Forall_forall in Hnext. by apply Hnext.
  - unfold tickets in *. rewrite fmap_app. cbn. apply Forall_app. split; [| repeat constructor; lia].
    eapply Forall_impl; [exact Hnext |]. cbn. lia.
  - apply in_order_snoc; [done |]. destruct Hfirst; [by left | right; cbn; lia].
  - intros Hc. destruct (Hbusy Hc) as [Hz | Hs]; [left; lia |]. destruct (Hall Hc) as [-> | ->]; [| left; lia].
    right. apply Forall_app. split; [done |]. repeat constructor. unfold satisfied. cbn. lia.
  - intros t. cbn [hd_ticket]. rewrite (in_line_app s _ t (fs_next s)), ticket_is_none; [lia | | done].
    cbn. unfold tickets. by rewrite fmap_app.
  - intros t Ht. cbn. rewrite owed_app, (owed_later t [_]); [lia |]. repeat constructor. cbn. lia.
Qed.

Lemma waiter_of_some t s w : waiter_of t s = Some w -> w ∈ fs_line s /\ wt_ticket w = t.
Proof.
  unfold waiter_of. intros ([i w'] & (Hi & Hw & _)%list_find_Some & ->)%fmap_Some.
  split; [by eapply list_elem_of_lookup_2 | done].
Qed.

Lemma waiter_of_in t s : t ∈ tickets (fs_line s) <-> is_Some (waiter_of t s).
Proof.
  unfold waiter_of, tickets. rewrite fmap_is_Some, list_elem_of_fmap. split.
  - intros (w & -> & Hw). by eapply list_find_elem_of.
  - intros [[i w] (Hi & Hw & _)%list_find_Some]. exists w. split; [done | by eapply list_elem_of_lookup_2].
Qed.

(** Without a waiter. *)
Lemma without_one t ws w :
  StronglySorted lt (tickets ws) -> w ∈ ws -> wt_ticket w = t -> ws ≡ₚ w :: without t ws.
Proof.
  unfold without, tickets. induction ws as [| v ws IH]; [by intros _ ?%not_elem_of_nil |].
  rewrite fmap_cons. intros Hs Hin Ht. inversion Hs as [| ? ? Hs' Hlt]; subst. rewrite Forall_fmap in Hlt.
  rewrite filter_cons. apply elem_of_cons in Hin as [-> | Hin].
  - rewrite decide_False by naive_solver. rewrite filter_keeps_all; [done |]. eapply Forall_impl; [exact Hlt |]. cbn. lia.
  - rewrite decide_True; [rewrite Permutation_swap; by constructor; apply IH |].
    intros Heq. rewrite Forall_forall in Hlt. specialize (Hlt w Hin). cbn in Hlt. lia.
Qed.

#[global] Instance handed_proper : Proper ((≡ₚ) ==> eq) handed.
Proof. unfold handed. intros ws ws' Hws. induction Hws; cbn; lia. Qed.

Lemma fair_without_balance m k s t w :
  fair_wf m s -> w ∈ fs_line s -> wt_ticket w = t ->
  fair_balance m (mk_hold k (Some t)) (mk_hold (k + (m - wt_missing w)) None) s
    (with_line (fs_permits s) (without t (fs_line s)) s).
Proof.
  intros [Hm0 Hp Hneed Hsort Hnext Hord Hbusy] Hw Ht. assert (wt_need w = m) as Hm.
  { rewrite Forall_forall in Hneed. by apply Hneed. }
  pose proof (without_one t _ w Hsort Hw Ht) as Hone.
  split; [split; cbn | | | | done | done |].
  - done.
  - done.
  - by apply Forall_filter.
  - rewrite tickets_without. by apply sorted_filter.
  - rewrite tickets_without. by apply Forall_filter.
  - by apply without_order.
  - intros Hc. destruct (Hbusy Hc); [by left | right]. by apply Forall_filter.
  - unfold fair_unheld. cbn. rewrite Hone at 2. unfold handed at 2. cbn. fold (handed (without t (fs_line s))). lia.
  - intros u. cbn [hd_ticket]. rewrite (in_line_without s _ u t); [rewrite ticket_is_none; lia | done |].
    unfold tickets. rewrite <- Ht. apply list_elem_of_fmap. eauto.
  - cbn. rewrite Hone at 2. cbn [length]. lia.
  - intros u _. by eapply owed_without, missing_nonneg.
Qed.

Lemma fair_balance_trans m x y z s1 s2 s3 :
  fair_balance m x y s1 s2 -> fair_balance m y z s2 s3 -> fair_balance m x z s1 s3.
Proof.
  intros [? Hp Hl Hlen Hc Hn Ho] [? Hp' Hl' Hlen' Hc' Hn' Ho']. split; [done | lia | | lia | congruence | lia |].
  - intros t. rewrite Hl'. apply Hl.
  - intros t Ht. specialize (Ho t Ht). specialize (Ho' t ltac:(lia)). lia.
Qed.

Lemma fair_leave_balance m k s t :
  fair_wf m s -> t ∈ tickets (fs_line s) ->
  fair_balance m (mk_hold k (Some t)) (mk_hold k None) s (fair_leave t s).
Proof.
  intros Hwf [w Hw]%waiter_of_in. unfold fair_leave. rewrite Hw. apply waiter_of_some in Hw as [Hin Ht].
  pose proof (fair_without_balance m k s t w Hwf Hin Ht) as Hb. pose proof (fw_need _ _ Hwf) as Hneed.
  rewrite Forall_forall in Hneed. destruct (Hneed w Hin) as [-> Hm].
  eapply fair_balance_trans; [exact Hb |]. apply fair_release_balance; [lia | apply Hb].
Qed.

Lemma fair_poll_balance m k s t r s' :
  fair_wf m s -> t ∈ tickets (fs_line s) -> fair_poll t s = Some (r, s') ->
  fair_balance m (mk_hold k (Some t)) (mk_hold (match r with Ok _ => k + m | Err _ => k end) None) s s'
  /\ r = if fs_closed s then Err () else Ok ().
Proof.
  intros Hwf Ht. unfold fair_poll. destruct (fs_closed s) eqn:Hc.
  - intros [= <- <-]. split; [by apply fair_leave_balance | done].
  - intros (w & Hw & Hp)%bind_Some. destruct (Z.leb_spec (wt_missing w) 0) as [Hle |]; [| done]. injection Hp as <- <-.
    apply waiter_of_some in Hw as [Hin Heq]. split; [| done].
    assert (wt_missing w = 0) as Hz by (pose proof (fw_need _ _ Hwf) as Hneed; rewrite Forall_forall in Hneed; specialize (Hneed w Hin); lia).
    pose proof (fair_without_balance m k s t w Hwf Hin Heq) as Hb. by rewrite Hz, Z.sub_0_r in Hb.
Qed.

Lemma fair_close_wf m s :
  fair_wf m s -> fair_wf m (fair_close s) /\ fair_unheld (fair_close s) = fair_unheld s
    /\ (forall t, in_line (fair_close s) t = in_line s t).
Proof. intros [Hm Hp Hneed Hsort Hnext Hord Hbusy]. by split_and!; [split | ..]. Qed.

(** *** First come, first served *)

Lemma owed_in_order t ws w :
  in_order ws -> w ∈ ws -> wt_ticket w = t -> StronglySorted lt (tickets ws) ->
  wt_need w <> 0 -> wt_missing w = 0 -> owed t ws = 0.
Proof.
  unfold tickets, owed. induction ws as [| v ws IH]; [by intros _ ?%not_elem_of_nil |]. cbn [in_order].
  rewrite fmap_cons. intros [Hv Hws] Hin Ht Hs Hneed Hw. inversion Hs as [| ? ? Hs' Hlt]; subst. cbn.
  apply elem_of_cons in Hin as [<- | Hin].
  - rewrite decide_True, Hw by lia. pose proof (owed_later (wt_ticket w) ws) as Hl. unfold owed, tickets in Hl.
    rewrite Hl; done.
  - rewrite IH by done. destruct Hv as [-> | Hv]; [by case_decide |].
    rewrite Forall_forall in Hv. specialize (Hv w Hin). congruence.
Qed.

(** A waiter is served exactly when nothing is owed up to it. *)
Lemma fair_poll_owed m s t :
  0 < m -> fair_wf m s -> fs_closed s = false -> t ∈ tickets (fs_line s) ->
  is_Some (fair_poll t s) <-> owed t (fs_line s) = 0.
Proof.
  intros Hm [_ _ Hneed Hsort _ Hord _] Hc [w Hw]%waiter_of_in. unfold fair_poll. rewrite Hc, Hw. cbn [mbind option_bind].
  apply waiter_of_some in Hw as [Hin Ht]. pose proof (missing_nonneg _ _ Hneed) as Hnn. rewrite Forall_forall in Hneed.
  destruct (Hneed w Hin) as [Hwm Hmiss]. destruct (Z.leb_spec (wt_missing w) 0).
  - split; [intros _ | by eexists]. eapply owed_in_order; [done | done | done | done | lia | lia].
  - split; [by intros [? [=]] |]. intros Ho. exfalso. clear Hneed Hsort Hord. unfold owed in Ho.
    induction Hnn as [| v ws Hv Hws IH]; [by apply not_elem_of_nil in Hin |]. cbn in Ho.
    assert (0 <= owed t ws) as Hnn by (by apply owed_nonneg). unfold owed in Hnn.
    apply elem_of_cons in Hin as [-> | Hin]; [rewrite decide_True in Ho by lia; lia |].
    apply IH; [done |]. case_decide; lia.
Qed.

(** As long as enough permits are held by nobody, the first in the line is served. *)
Lemma fair_head_served m s :
  fair_wf m s -> fs_closed s = false -> m <= fair_unheld s -> fs_line s <> [] ->
  exists t, t ∈ tickets (fs_line s) /\ is_Some (fair_poll t s).
Proof.
  intros [Hm0 Hp Hneed Hsort _ Hord Hbusy] Hc Hle Hne. unfold fair_unheld in Hle. destruct (fs_line s) as [| w ws] eqn:Hl; [done |].
  exists (wt_ticket w). split; [by left |]. unfold fair_poll, waiter_of. rewrite Hc, Hl. cbn.
  destruct (decide (wt_ticket w = wt_ticket w)); [| done]. cbn.
  assert (wt_missing w = 0) as ->; [| by eexists]. apply Forall_cons in Hneed as [[Hm Hmiss] Hneed]. destruct Hord as [[? | Ho] _]; [done |].
  destruct (Hbusy Hc) as [Hz | Hall]; [| by inversion Hall].
  assert (handed ws = 0) as Hh.
  { clear -Ho. induction Ho as [| v ws Hv _ IH]; [done |]. unfold handed in *. cbn. lia. }
  unfold handed in Hle, Hh. cbn in Hle. lia.
Qed.

(** ** The interface's lemmas *)

Section Semaphores.
Context {S : Type} `{SemaphoreLaws S}.
Implicit Types s : S.

Definition sem_wf (m : Z) s : Prop := fair_wf m (sem_view s).
Definition sem_unheld s : Z := fair_unheld (sem_view s).
Definition sem_line s : list nat := tickets (fs_line (sem_view s)).
Definition sem_in_line s (t : nat) : Z := in_line (sem_view s) t.
Definition sem_owed (t : nat) s : Z := owed t (fs_line (sem_view s)).
Definition sem_balance (m : Z) (x y : hold) s s' : Prop := fair_balance m x y (sem_view s) (sem_view s').

Lemma sem_new_wf m n : 0 <= m -> 0 <= n -> sem_wf m (sem_new n).
Proof. intros Hm Hn. unfold sem_wf. rewrite view_new. by apply fair_new_wf. Qed.

Lemma sem_available_unheld m s : sem_wf m s -> 0 <= sem_available s <= sem_unheld s.
Proof. intros Hwf. rewrite view_available. destruct (fair_wf_free _ _ Hwf). unfold sem_unheld, fair_unheld. lia. Qed.

Lemma sem_balance_refl m x s : sem_wf m s -> sem_balance m x x s s.
Proof. intros Hwf. by split. Qed.

Lemma sem_try_balance m n k o s s' :
  0 <= n -> sem_wf m s -> sem_try_acquire n s = Some s' ->
  sem_balance m (mk_hold k o) (mk_hold (k + n) o) s s' /\ sem_is_closed s = false /\ n <= sem_available s.
Proof.
  intros Hn Hwf Hs. pose proof (view_try n s) as Hv. rewrite Hs in Hv. rewrite view_closed, view_available.
  by apply fair_try_balance.
Qed.

Lemma sem_try_acquire_iff n s :
  is_Some (sem_try_acquire n s) <-> sem_is_closed s = false /\ n <= sem_available s.
Proof.
  pose proof (view_try n s) as Hv. rewrite view_closed, view_available. unfold fair_try in Hv.
  destruct (fs_closed (sem_view s)), (Z.leb_spec n (fs_permits (sem_view s))), (sem_try_acquire n s); try done; simpl in *;
    (split; [try by intros [? [=]] | try (intros [? ?]; done || lia)]); by eexists.
Qed.

Lemma sem_release_balance m n k o s :
  0 <= n -> sem_wf m s -> sem_balance m (mk_hold (k + n) o) (mk_hold k o) s (sem_release n s).
Proof. intros Hn Hwf. unfold sem_balance. rewrite view_release. by apply fair_release_balance. Qed.

Lemma sem_enter_balance m k s t s' :
  sem_wf m s -> sem_enter m s = (t, s') -> sem_balance m (mk_hold k None) (mk_hold k (Some t)) s s'.
Proof.
  intros Hwf Hs. pose proof (view_enter m s) as Hv. rewrite Hs in Hv. cbn in Hv.
  pose proof (fair_enter_balance m k (sem_view s) Hwf) as Hb. by rewrite <- Hv in Hb.
Qed.

Lemma sem_leave_balance m k s t :
  sem_wf m s -> t ∈ sem_line s -> sem_balance m (mk_hold k (Some t)) (mk_hold k None) s (sem_leave t s).
Proof. intros Hwf Ht. unfold sem_balance. rewrite view_leave. by apply fair_leave_balance. Qed.

Lemma sem_poll_balance m k s t r s' :
  sem_wf m s -> t ∈ sem_line s -> sem_poll t s = Some (r, s') ->
  sem_balance m (mk_hold k (Some t)) (mk_hold (match r with Ok _ => k + m | Err _ => k end) None) s s'
  /\ r = if sem_is_closed s then Err () else Ok ().
Proof.
  intros Hwf Ht Hs. pose proof (view_poll t s) as Hv. rewrite Hs in Hv. rewrite view_closed. by apply fair_poll_balance.
Qed.

Lemma sem_close_wf m s :
  sem_wf m s -> sem_wf m (sem_close s) /\ sem_unheld (sem_close s) = sem_unheld s
    /\ (forall t, sem_in_line (sem_close s) t = sem_in_line s t) /\ sem_is_closed (sem_close s) = true.
Proof.
  intros Hwf. unfold sem_wf, sem_unheld, sem_in_line. rewrite view_closed, view_close.
  destruct (fair_close_wf _ _ Hwf) as (? & ? & ?). by split_and!.
Qed.

(** The place in the line is a claim on it. *)
Lemma sem_in_line_iff s t : t ∈ sem_line s <-> sem_in_line s t = 1.
Proof. unfold sem_line, sem_in_line, in_line. case_bool_decide; naive_solver. Qed.

Lemma sem_head_served m s :
  sem_wf m s -> sem_is_closed s = false -> m <= sem_unheld s -> sem_line s <> [] ->
  exists t, t ∈ sem_line s /\ is_Some (sem_poll t s).
Proof.
  intros Hwf Hc Hle Hne. rewrite view_closed in Hc. destruct (fair_head_served m (sem_view s)) as (t & Ht & Hp); try done.
  - intros Hnil. apply Hne. unfold sem_line. by rewrite Hnil.
  - exists t. split; [done |]. rewrite <- view_poll in Hp. by apply fmap_is_Some in Hp.
Qed.

(** Only [sem_close] closes, and only a closed semaphore answers with an error. *)
Lemma fair_release_closed n f : fs_closed (fair_release n f) = fs_closed f.
Proof. unfold fair_release. destruct (fs_closed f) eqn:Hc; [done |]. by destruct (hand_out n (fs_line f)). Qed.
Lemma fair_leave_closed t f : fs_closed (fair_leave t f) = fs_closed f.
Proof. unfold fair_leave. destruct (waiter_of t f); [by rewrite fair_release_closed | done]. Qed.

Lemma sem_try_closed n s s' : sem_try_acquire n s = Some s' -> sem_is_closed s' = sem_is_closed s.
Proof.
  intros Hs. pose proof (view_try n s) as Hv. rewrite Hs in Hv. rewrite !view_closed. unfold fair_try in Hv.
  destruct (negb _ && _); [| done]. by injection Hv as ->.
Qed.
Lemma sem_release_closed n s : sem_is_closed (sem_release n s) = sem_is_closed s.
Proof. rewrite !view_closed, view_release. apply fair_release_closed. Qed.
Lemma sem_leave_closed t s : sem_is_closed (sem_leave t s) = sem_is_closed s.
Proof. rewrite !view_closed, view_leave. apply fair_leave_closed. Qed.
Lemma sem_enter_closed n s t s' : sem_enter n s = (t, s') -> sem_is_closed s' = sem_is_closed s.
Proof.
  intros Hs. pose proof (view_enter n s) as Hv. rewrite Hs in Hv. rewrite !view_closed.
  unfold fair_enter in Hv. cbn in Hv. by injection Hv as _ ->.
Qed.
Lemma sem_poll_closed t s r s' :
  sem_poll t s = Some (r, s') -> sem_is_closed s' = sem_is_closed s /\ r = if sem_is_closed s then Err () else Ok ().
Proof.
  intros Hs. pose proof (view_poll t s) as Hv. rewrite Hs in Hv. rewrite !view_closed. unfold fair_poll in Hv.
  destruct (fs_closed (sem_view s)) eqn:Hc; cbn in Hv.
  - injection Hv as -> ->. by rewrite fair_leave_closed.
  - destruct (waiter_of t (sem_view s)) as [w |]; [| done]. cbn in Hv. destruct (wt_missing w <=? 0); [| done]. by injection Hv as -> ->.
Qed.

(** A semaphore without waiters is a counter. *)
Definition sem_idle s : Prop := fs_line (sem_view s) = [].

Lemma sem_idle_unheld s : sem_idle s -> sem_unheld s = sem_available s.
Proof. intros Hi. rewrite view_available. unfold sem_unheld, fair_unheld, handed. rewrite Hi. cbn. lia. Qed.

Lemma sem_new_idle n : sem_idle (sem_new n) /\ sem_available (sem_new n) = n /\ sem_is_closed (sem_new n) = false.
Proof. unfold sem_idle. rewrite view_available, view_closed, view_new. done. Qed.

Lemma sem_try_idle n s s' :
  sem_try_acquire n s = Some s' -> sem_idle s ->
  sem_idle s' /\ sem_available s' = sem_available s - n /\ n <= sem_available s
  /\ sem_is_closed s = false /\ sem_is_closed s' = false.
Proof.
  intros Hs Hi. pose proof (view_try n s) as Hv. rewrite Hs in Hv. unfold sem_idle in *.
  rewrite !view_available, !view_closed. unfold fair_try in Hv. destruct (fs_closed (sem_view s)) eqn:Hc; [done |]. simpl in Hv.
  destruct (Z.leb_spec n (fs_permits (sem_view s))); [| done]. injection Hv as ->. by split_and!.
Qed.

Lemma sem_release_idle n s :
  sem_idle s -> sem_idle (sem_release n s) /\ sem_available (sem_release n s) = sem_available s + n
    /\ sem_is_closed (sem_release n s) = sem_is_closed s.
Proof.
  unfold sem_idle. rewrite !view_available, !view_closed, view_release. unfold fair_release. intros ->.
  by destruct (fs_closed (sem_view s)) eqn:Hc.
Qed.
End Semaphores.
