(* ===== verification/Queue.v ===== *)
(** * Admission control ([src/src/queue.rs]) and the body budget

    Both are built on tokio's semaphore, an interface of [Semaphore].  Their
    operations are tasks: what runs before an await, what the await waits for, what
    a drop of the future gives back.  The theorems are about any number of callers
    whose operations interleave. *)
From S2P Require Export Semaphore Task.

(** ** Acquiring from a semaphore *)

Section Acquire.
Context {S T : Type} `{Semaphore S} (sem : T -> S) (set : S -> T -> T) (need : T -> Z).

(** [acquire_many_owned(need).await] on the semaphore in a state, under a timeout
    when [elapses]: the permits or the error of a closed semaphore, with whether it
    had to wait; [None] when the time is up first.  A poll looks at the
    semaphore before it looks at the clock, and a future that is given up leaves
    the line. *)
Definition acquire_owned (elapses : bool) : task T (option (bool * result () ())) :=
  first ← act (fun x =>
    let '(t, s) := sem_enter (need x) (sem x) in
    match sem_poll t s with
    | Some (r, s') => (inl r, set s' x)
    | None => (inr t, set s x)
    end);
  match first with
  | inl r => mret (Some (false, r))
  | inr t =>
      await (fun x => set (sem_leave t (sem x)) x)
        (fun x => match sem_poll t (sem x) with
                  | Some (r, s) => Some (Some (Some (true, r), set s x))
                  | None => if elapses then Some (Some (None, set (sem_leave t (sem x)) x)) else None
                  end)
  end.
End Acquire.

(** ** The admission queue *)

(** [enum AdmissionError] *)
Inductive AdmissionError := Full | Timeout | Closed.

#[global] Instance AdmissionError_eq_dec : EqDecision AdmissionError.
Proof. solve_decision. Defined.

(** [struct AdmissionQueue] *)
Record AdmissionQueue (S : Type) := mk_queue {
  aq_concurrency : S;
  aq_queue_slots : S;
  aq_max_concurrency : Z;
  aq_max_queue : Z;
  aq_wait_timeout : Duration;
}.
Arguments mk_queue {S}.
Arguments aq_concurrency {S}.
Arguments aq_queue_slots {S}.
Arguments aq_max_concurrency {S}.
Arguments aq_max_queue {S}.
Arguments aq_wait_timeout {S}.

(** [struct QueueSnapshot] *)
Record QueueSnapshot := mk_queue_snapshot {
  qs_active : Z; qs_queued : Z; qs_max_concurrency : Z; qs_max_queue : Z; qs_wait_timeout : Duration;
}.

Inductive TryAcquireError := NoPermits | TryClosed.

Section Queue.
Context {S : Type} `{Semaphore S}.

Definition with_sems (q : AdmissionQueue S) (c s : S) : AdmissionQueue S :=
  mk_queue c s (aq_max_concurrency q) (aq_max_queue q) (aq_wait_timeout q).
Definition set_concurrency (c : S) (q : AdmissionQueue S) : AdmissionQueue S := with_sems q c (aq_queue_slots q).
Definition set_queue_slots (s : S) (q : AdmissionQueue S) : AdmissionQueue S := with_sems q (aq_concurrency q) s.

(** [AdmissionQueue::new]; [None] is a failed assertion. *)
Definition queue_new (max_concurrency max_queue : Z) (wait_timeout : Duration)
    : option (AdmissionQueue S) :=
  if negb (0 <? max_concurrency) then None
  else if negb (0 <? wait_timeout) then None
  else Some (mk_queue (sem_new max_concurrency) (sem_new max_queue)
               max_concurrency max_queue wait_timeout).

(** [try_acquire_owned()] *)
Definition try_acquire_owned (s : S) : result TryAcquireError () * S :=
  match sem_try_acquire 1 s with
  | Some s' => (Ok (), s')
  | None => (Err (if sem_is_closed s then TryClosed else NoPermits), s)
  end.
Definition try_concurrency (q : AdmissionQueue S) : result TryAcquireError () * AdmissionQueue S :=
  let '(r, c) := try_acquire_owned (aq_concurrency q) in (r, set_concurrency c q).
Definition try_queue_slot (q : AdmissionQueue S) : result TryAcquireError () * AdmissionQueue S :=
  let '(r, s) := try_acquire_owned (aq_queue_slots q) in (r, set_queue_slots s q).

(** Dropping a [Permit], and the slot of [enqueue]. *)
Definition release_permit (q : AdmissionQueue S) : AdmissionQueue S :=
  set_concurrency (sem_release 1 (aq_concurrency q)) q.
Definition drop_slot (q : AdmissionQueue S) : AdmissionQueue S :=
  set_queue_slots (sem_release 1 (aq_queue_slots q)) q.

(** [AdmissionQueue::enqueue]; the slot is dropped on every way out. *)
Definition enqueue (elapses : bool) : task (AdmissionQueue S) (result AdmissionError ()) :=
  slot ← act try_queue_slot;
  match slot with
  | Err NoPermits => mret (Err Full)
  | Err TryClosed => mret (Err Closed)
  | Ok _ =>
      holding drop_slot
        (permit ← acquire_owned aq_concurrency set_concurrency (fun _ => 1) elapses;
         mret match permit with
              | Some (_, Ok _) => Ok ()
              | Some (_, Err _) => Err Closed
              | None => Err Timeout
              end)
  end.

(** [AdmissionQueue::acquire] *)
Definition acquire (elapses : bool) : task (AdmissionQueue S) (result AdmissionError ()) :=
  permit ← act try_concurrency;
  match permit with
  | Ok _ => mret (Ok ())
  | Err NoPermits => enqueue elapses
  | Err TryClosed => mret (Err Closed)
  end.

(** [AdmissionQueue::close], one semaphore after the other. *)
Definition close_concurrency (q : AdmissionQueue S) : AdmissionQueue S :=
  set_concurrency (sem_close (aq_concurrency q)) q.
Definition close_queue_slots (q : AdmissionQueue S) : AdmissionQueue S :=
  set_queue_slots (sem_close (aq_queue_slots q)) q.
Definition queue_close : task (AdmissionQueue S) () :=
  _ ← changes close_concurrency;
  changes close_queue_slots.

(** [AdmissionQueue::is_closed] *)
Definition queue_is_closed (q : AdmissionQueue S) : bool := sem_is_closed (aq_concurrency q).

(** [AdmissionQueue::snapshot] *)
Definition queue_snapshot (q : AdmissionQueue S) : QueueSnapshot :=
  mk_queue_snapshot (aq_max_concurrency q - sem_available (aq_concurrency q))
    (aq_max_queue q - sem_available (aq_queue_slots q))
    (aq_max_concurrency q) (aq_max_queue q) (aq_wait_timeout q).
End Queue.

(** ** The body budget of [src/src/gateway.rs] *)

(** [struct BodyBudget] *)
Record BodyBudget (S : Type) := mk_budget { bb_sem : S; bb_permits_per_request : Z; bb_capacity : Z }.
Arguments mk_budget {S}.
Arguments bb_sem {S}.
Arguments bb_permits_per_request {S}.
Arguments bb_capacity {S}.

Section Budget.
Context {S : Type} `{Semaphore S}.

(** [BodyBudget::new]; [None] is a failed assertion. *)
Definition budget_new (capacity permits_per_request : Z) : option (BodyBudget S) :=
  if negb (0 <? capacity) then None
  else if negb (permits_per_request <=? capacity) then None
  else Some (mk_budget (sem_new capacity) permits_per_request capacity).

Definition set_budget_sem (s : S) (b : BodyBudget S) : BodyBudget S :=
  mk_budget s (bb_permits_per_request b) (bb_capacity b).

(** [BodyBudget::acquire] under the caller's deadline: whether it had to wait; [None]
    when the deadline comes first.  The semaphore is expected to be open. *)
Definition budget_acquire (elapses : bool) : task (BodyBudget S) (option bool) :=
  permit ← acquire_owned bb_sem set_budget_sem bb_permits_per_request elapses;
  match permit with
  | Some (waited, Ok _) => mret (Some waited)
  | Some (_, Err _) => panic
  | None => mret None
  end.
(** Dropping a [BodyPermit]. *)
Definition budget_release (b : BodyBudget S) : BodyBudget S :=
  set_budget_sem (sem_release (bb_permits_per_request b) (bb_sem b)) b.
(** [BodyBudget::capacity], [BodyBudget::available] *)
Definition budget_capacity (b : BodyBudget S) : Z := bb_capacity b.
Definition budget_available (b : BodyBudget S) : Z := sem_available (bb_sem b).
End Budget.

(** ** What an acquisition promises *)

Section AcquireTheorems.
Context {S T : Type} `{SemaphoreLaws S} (sem : T -> S) (set : S -> T -> T) (need : T -> Z).
Hypothesis sem_set : forall s x, sem (set s x) = s.
Implicit Types v : T.

(** Permits counted in requests. *)
Definition scaled (n : Z) (x : hold) : hold := mk_hold (n * hd_permits x) (hd_ticket x).
Definition claims (x : hold) (s : S) : Prop := forall t, hd_ticket x = Some t -> t ∈ sem_line s.

(** One operation on the semaphore by a task that holds [x] before and [y]
    afterwards; from a closed semaphore nothing is taken. *)
Definition owned_step (x y : hold) v v' : Prop :=
  sem_wf (need v) (sem v) -> claims x (sem v) ->
  sem_balance (need v) (scaled (need v) x) (scaled (need v) y) (sem v) (sem v')
  /\ v' = set (sem v') v
  /\ (sem_is_closed (sem v) = true -> hd_permits y <= hd_permits x)
  /\ 0 <= hd_permits y.

Definition hold_protocol (panics : Prop) : protocol T hold :=
  mk_protocol (fun _ => True) (fun x v v' y => owned_step x y v v') (fun x => owned_step x (mk_hold 0 None))
    (fun x v => hd_permits x = 0 /\ exists t, hd_ticket x = Some t /\ sem_poll t (sem v) = None) panics.

Lemma owned_leave t v : owned_step (mk_hold 0 (Some t)) (mk_hold 0 None) v (set (sem_leave t (sem v)) v).
Proof.
  intros Hwf Hcl. rewrite sem_set. unfold scaled. cbn. rewrite Z.mul_0_r.
  split_and!; [apply sem_leave_balance; [done | by apply Hcl] | done | lia | lia].
Qed.

Lemma owned_poll t r s v :
  sem_poll t (sem v) = Some (r, s) ->
  owned_step (mk_hold 0 (Some t)) (mk_hold (match r with Ok _ => 1 | Err _ => 0 end) None) v (set s v).
Proof.
  intros Hp Hwf Hcl. rewrite sem_set. destruct (sem_poll_balance _ 0 _ t r s Hwf (Hcl t eq_refl) Hp) as [Hb Hr].
  split_and!; [| done | intros Hc; rewrite Hc in Hr; by subst | by destruct r].
  unfold scaled. cbn. rewrite Z.mul_0_r. destruct r; by rewrite ?Z.mul_1_r, ?Z.mul_0_r.
Qed.

Lemma entered_in_line m k t s s' : sem_balance m (mk_hold k None) (mk_hold k (Some t)) s s' -> t ∈ sem_line s'.
Proof.
  intros Hb. apply sem_in_line_iff. pose proof (fb_line _ _ _ _ _ Hb t) as Hl. cbn in Hl.
  unfold ticket_is in Hl. rewrite decide_True, decide_False in Hl by done.
  pose proof (in_line_range (sem_view s) t). pose proof (in_line_range (sem_view s') t). unfold sem_in_line. lia.
Qed.

Lemma owned_enter v t s :
  sem_enter (need v) (sem v) = (t, s) ->
  match sem_poll t s with
  | Some (r, s') => owned_step (mk_hold 0 None) (mk_hold (match r with Ok _ => 1 | Err _ => 0 end) None) v (set s' v)
  | None => owned_step (mk_hold 0 None) (mk_hold 0 (Some t)) v (set s v)
  end.
Proof.
  intros He. assert (sem_wf (need v) (sem v) -> sem_balance (need v) (mk_hold 0 None) (mk_hold 0 (Some t)) (sem v) s) as Hb.
  { intros Hwf. by apply sem_enter_balance. }
  destruct (sem_poll t s) as [[r s'] |] eqn:Hp; intros Hwf _; specialize (Hb Hwf);
    rewrite sem_set; unfold scaled; cbn [hd_permits hd_ticket]; rewrite Z.mul_0_r.
  - destruct (sem_poll_balance _ 0 s t r s' (fb_wf _ _ _ _ _ Hb) (entered_in_line _ _ _ _ _ Hb) Hp) as [Hb' Hr].
    pose proof (fb_closed _ _ _ _ _ Hb) as Hc. rewrite <- !view_closed in Hc.
    split_and!; [| done | intros Hcl; rewrite Hc, Hcl in Hr; by subst | by destruct r].
    eapply fair_balance_trans; [exact Hb |]. destruct r; by rewrite ?Z.mul_1_r, ?Z.mul_0_r.
  - by split_and!.
Qed.

Lemma acquire_owned_follows panics elapses :
  follows (hold_protocol panics) (fun y r => y = mk_hold (if r is Some (_, Ok _) then 1 else 0) None)
    (mk_hold 0 None) (acquire_owned sem set need elapses).
Proof.
  apply follows_act. intros v _. split; [done |]. destruct (sem_enter (need v) (sem v)) as [t s] eqn:He.
  pose proof (owned_enter v t s He) as Hstep. destruct (sem_poll t s) as [[r s'] |]; cbn [fst snd].
  - eexists. split; [exact Hstep |]. by destruct r.
  - eexists. split; [exact Hstep |]. apply follows_last, follows_await; [intros v' _; split; [done | apply owned_leave] |].
    intros v' _. destruct (sem_poll t (sem v')) as [[r s'] |] eqn:Hp.
    + split; [done |]. eexists. split; [by apply owned_poll |]. by destruct r.
    + destruct elapses; [| by split; [| exists t]]. split; [done |]. eexists. split; [apply owned_leave | done].
Qed.

(** It takes two operations at most, and fails only where the semaphore is closed. *)
Lemma acquire_owned_counts (K : T -> Prop) elapses n :
  (forall v s, K v -> sem_is_closed s = sem_is_closed (sem v) -> K (set s v)) ->
  follows (counting K)
    (fun y r => (n <= y)%nat /\ forall w, r = Some (w, Err ()) -> exists v, K v /\ sem_is_closed (sem v) = true)
    (2 + n)%nat (acquire_owned sem set need elapses).
Proof.
  intros HK. apply follows_act. intros v Hv. destruct (sem_enter (need v) (sem v)) as [t s] eqn:He.
  apply sem_enter_closed in He. destruct (sem_poll t s) as [[r s'] |] eqn:Hp; cbn [fst snd].
  - apply sem_poll_closed in Hp as [Hc Hr]. split; [apply HK; [done | congruence] |]. exists (1 + n)%nat. split; [simpl; lia |].
    split; [lia |]. intros w [= _ ->]. exists v. split; [done |]. rewrite <- He. by destruct (sem_is_closed s).
  - split; [by apply HK |]. exists (1 + n)%nat. split; [simpl; lia |]. apply follows_last, follows_await.
    { intros v' Hv'. split; [apply HK; [done | apply sem_leave_closed] | done]. }
    intros v' Hv'. destruct (sem_poll t (sem v')) as [[r s'] |] eqn:Hp'.
    + apply sem_poll_closed in Hp' as [Hc Hr]. split; [by apply HK |]. exists n. split; [simpl; lia |].
      split; [done |]. intros w [= _ ->]. exists v'. split; [done |]. by destruct (sem_is_closed (sem v')).
    + destruct elapses; [| done]. split; [apply HK; [done | apply sem_leave_closed] |]. exists n. split; [simpl; lia |]. by split.
Qed.
End AcquireTheorems.

(** ** The admission queue *)

Section QueueTheorems.
Context {S : Type} `{SemaphoreLaws S}.
Implicit Types q : AdmissionQueue S.

(** What a caller holds: a permit, a queue slot, a place in the line. *)
Record stake := mk_stake { sk_permit : Z; sk_slot : Z; sk_ticket : option nat }.
Definition stake_hold (x : stake) : hold := mk_hold (sk_permit x) (sk_ticket x).
Definition no_stake : stake := mk_stake 0 0 None.

Definition stake_ok (x : stake) : Prop := 0 <= sk_permit x /\ waits (sk_ticket x) <= sk_slot x.

(** Nobody ever waits for a slot. *)
Record queue_ok q : Prop := {
  qo_sem : sem_wf 1 (aq_concurrency q);
  qo_idle : sem_idle (aq_queue_slots q);
  qo_slots : 0 <= sem_available (aq_queue_slots q);
}.

(** An operation by a caller with the stake [x] before and [y] afterwards. *)
Record queue_balance (x y : stake) q q' : Prop := {
  qb_ok : queue_ok q';
  qb_sem : sem_balance 1 (stake_hold x) (stake_hold y) (aq_concurrency q) (aq_concurrency q');
  qb_slots : sem_available (aq_queue_slots q') + sk_slot y = sem_available (aq_queue_slots q) + sk_slot x;
  qb_drain : queue_is_closed q = true -> sk_permit y <= sk_permit x;
  qb_concurrency : aq_max_concurrency q' = aq_max_concurrency q;
  qb_queue : aq_max_queue q' = aq_max_queue q;
  qb_stake : stake_ok y;
}.
Definition queue_step (x y : stake) q q' : Prop :=
  queue_ok q -> stake_ok x -> claims (stake_hold x) (aq_concurrency q) -> queue_balance x y q q'.

(** A drop gives back all but the [c] slots of guards further out. *)
Definition queue_protocol (c : Z) : protocol (AdmissionQueue S) stake :=
  mk_protocol (fun _ => True) (fun x q q' y => queue_step x y q q') (fun x => queue_step x (mk_stake 0 c None))
    (fun x q => sk_permit x = 0 /\ exists t, sk_ticket x = Some t /\ sem_poll t (aq_concurrency q) = None) False.

Lemma queue_step_refl x q : queue_step x x q q.
Proof. intros Hq Hx _. by split; [| apply sem_balance_refl, Hq | ..]. Qed.

Lemma scaled_1 x : scaled 1 x = x.
Proof. unfold scaled. rewrite Z.mul_1_l. by destruct x. Qed.

(** With a slot in the hand. *)
Lemma queue_step_owned x y q q' :
  owned_step aq_concurrency set_concurrency (fun _ => 1) x y q q' ->
  queue_step (mk_stake (hd_permits x) 1 (hd_ticket x)) (mk_stake (hd_permits y) 1 (hd_ticket y)) q q'.
Proof.
  intros Hstep [Hwf Hi Hs] _ Hcl. destruct (Hstep Hwf Hcl) as (Hb & Hq & Hd & Hy). rewrite !scaled_1 in Hb.
  rewrite Hq. destruct x as [px tx], y as [py ty]. split; simpl; [by split; [apply (fb_wf _ _ _ _ _ Hb) | |] | exact Hb | done.. |].
  split; [done |]. simpl. by destruct ty.
Qed.

Lemma try_concurrency_step q :
  queue_step no_stake (if (try_concurrency q).1 is Ok _ then mk_stake 1 0 None else no_stake) q (try_concurrency q).2.
Proof.
  intros Hq _ _. unfold try_concurrency, try_acquire_owned.
  destruct (sem_try_acquire 1 (aq_concurrency q)) as [c |] eqn:Ht; cbn [fst snd].
  - destruct (sem_try_balance 1 1 0 None _ _ ltac:(lia) (qo_sem _ Hq) Ht) as (Hb & Ho & _).
    split; try done; [split; [apply Hb | apply Hq..] | unfold queue_is_closed; congruence].
  - destruct q. by apply queue_step_refl; [| split |].
Qed.

Lemma try_queue_slot_step q :
  queue_step no_stake (if (try_queue_slot q).1 is Ok _ then mk_stake 0 1 None else no_stake) q (try_queue_slot q).2.
Proof.
  intros Hq _ _. unfold try_queue_slot, try_acquire_owned.
  destruct (sem_try_acquire 1 (aq_queue_slots q)) as [c |] eqn:Ht; cbn [fst snd].
  - destruct (sem_try_idle _ _ _ Ht (qo_idle _ Hq)) as (Hi & Ha & Hle & _ & _).
    split; simpl; try done; [split; simpl; [apply Hq | done | lia] | by apply sem_balance_refl, Hq | lia].
  - destruct q. by apply queue_step_refl; [| split |].
Qed.

Lemma drop_slot_step k q : queue_step (mk_stake k 1 None) (mk_stake k 0 None) q (drop_slot q).
Proof.
  intros Hq [Hk _] _. simpl in Hk. destruct (sem_release_idle 1 _ (qo_idle _ Hq)) as (Hi & Ha & _). pose proof (qo_slots _ Hq).
  split; simpl; try done; [split; simpl; [apply Hq | done | lia] | by apply sem_balance_refl, Hq | lia].
Qed.

Lemma release_permit_step q : queue_step (mk_stake 1 0 None) no_stake q (release_permit q).
Proof.
  intros Hq _ _. pose proof (sem_release_balance 1 1 0 None _ ltac:(lia) (qo_sem _ Hq)) as Hb.
  split; simpl; try done. split; [apply Hb | apply Hq..].
Qed.

Lemma queue_balance_trans x y z q1 q2 q3 : queue_balance x y q1 q2 -> queue_balance y z q2 q3 -> queue_balance x z q1 q3.
Proof.
  intros [Hq' Hb Hs Hd Hc Hm Hok] [? Hb' Hs' Hd' ? ? ?].
  split; [done | by eapply fair_balance_trans | lia | | congruence | congruence | done].
  intros Hcl1. pose proof (fb_closed _ _ _ _ _ Hb) as Hc'. rewrite <- !view_closed in Hc'.
  unfold queue_is_closed in *. specialize (Hd Hcl1). specialize (Hd' ltac:(congruence)). lia.
Qed.

Lemma no_claims x (s : S) : sk_ticket x = None -> claims (stake_hold x) s.
Proof. intros Hx t Ht. simpl in Ht. congruence. Qed.

Lemma queue_step_trans x y z q1 q2 q3 :
  queue_step x y q1 q2 -> queue_step y z q2 q3 -> sk_ticket y = None -> queue_step x z q1 q3.
Proof.
  intros Hxy Hyz Hy Hq Hx Hcl. pose proof (Hxy Hq Hx Hcl) as Hb.
  eapply queue_balance_trans; [exact Hb |]. apply Hyz; [apply Hb | apply Hb | by apply no_claims].
Qed.

Lemma enqueue_follows elapses :
  follows (queue_protocol 0) (fun y r => y = mk_stake (if r is Ok _ then 1 else 0) 0 None) no_stake (enqueue elapses).
Proof.
  apply follows_act. intros q _. split; [done |]. pose proof (try_queue_slot_step q) as Hstep.
  destruct (try_queue_slot q) as [[[] | [|]] q']; cbn [fst snd] in *; eexists; (split; [exact Hstep |]); [| done | done].
  apply (follows_holding (queue_protocol 1) (fun x => queue_step x no_stake)
    (fun y r => y = mk_stake (if r is Ok _ then 1 else 0) 1 None)).
  - intros x s s' _ Hd. split; [done |]. eapply queue_step_trans; [exact Hd | apply (drop_slot_step 0) | done].
  - intros x a s _ ->. split; [done |]. eexists. split; [apply drop_slot_step | done].
  - eapply follows_bind.
    + apply (follows_map (hold_protocol aq_concurrency set_concurrency (fun _ => 1) False) (queue_protocol 1)
        (fun x => mk_stake (hd_permits x) 1 (hd_ticket x)) (fun y r => y = mk_hold (if r is Some (_, Ok _) then 1 else 0) None)
        (fun y r => y = mk_stake (if r is Some (_, Ok _) then 1 else 0) 1 None)) with (x := mk_hold 0 None); try done.
      * intros x s s' y _ _ Hs. split; [done |]. by apply queue_step_owned.
      * intros x s s' _ _ Hs. split; [done |]. by apply (queue_step_owned x (mk_hold 0 None)).
      * by intros x a ->.
      * by apply acquire_owned_follows.
    + intros y [[w [[] | []]] |] ->; done.
Qed.

Lemma acquire_follows elapses :
  follows (queue_protocol 0) (fun y r => y = mk_stake (if r is Ok _ then 1 else 0) 0 None) no_stake (acquire elapses).
Proof.
  apply follows_act. intros q _. split; [done |]. pose proof (try_concurrency_step q) as Hstep.
  destruct (try_concurrency q) as [[[] | [|]] q']; cbn [fst snd] in *; eexists; (split; [exact Hstep |]);
    [done | apply enqueue_follows | done].
Qed.

(** Five operations at most. *)
Lemma acquire_counts elapses n :
  follows (counting (fun _ => True)) (fun y _ => (n <= y)%nat) (5 + n)%nat (acquire elapses).
Proof.
  apply follows_act. intros q _. split; [done |]. exists (4 + n)%nat. split; [simpl; lia |].
  destruct (try_concurrency q) as [[[] | [|]] q']; cbn [fst snd]; [simpl; lia | | simpl; lia].
  apply follows_act. clear q q'. intros q _. split; [done |]. exists (3 + n)%nat. split; [simpl; lia |].
  destruct (try_queue_slot q) as [[[] | [|]] q']; cbn [fst snd]; [| simpl; lia | simpl; lia].
  eapply follows_mono; [apply (holding_counting _ n (fun _ => True)); [done |] | naive_solver].
  eapply follows_bind; [by apply (acquire_owned_counts _ _ _ (fun _ => True) elapses (1 + n)) |].
  intros y [[w [[] | []]] |] [Hy _]; simpl; (split; [lia | done]).
Qed.
End QueueTheorems.

(** *** Any number of callers *)

Section Visitors.
Context {S : Type} `{SemaphoreLaws S}.
(** The queue, and how many callers are inside. *)
Abbreviation place := (AdmissionQueue S * Z)%type.
Implicit Types s : place.

Definition on_queue (f : AdmissionQueue S -> AdmissionQueue S) : place -> place := fun s => (f s.1, s.2).
Fixpoint lingers (n : nat) : task place () :=
  match n with
  | O => mret ()
  | Datatypes.S n => _ ← await id (fun s => Some (Some ((), s))); lingers n
  end.

(** A caller: it asks for a permit, is inside for a while, and drops the permit;
    it can be dropped wherever it waits. *)
Definition visit (elapses : bool) (stay : nat) : task place (result AdmissionError ()) :=
  permit ← zoom fst (fun q s => (q, s.2)) (acquire elapses);
  match permit with
  | Err e => mret (Err e)
  | Ok _ =>
      holding (on_queue release_permit)
        (_ ← changes (fun s => (s.1, s.2 + 1));
         holding (fun s => (s.1, s.2 - 1)) (_ ← lingers stay; mret (Ok ())))
  end.
Definition visitor (t : task place (result AdmissionError ())) : Prop := exists elapses stay, t = visit elapses stay.
(** [close] may run at any moment, one semaphore after the other. *)
Definition closing s s' : Prop := s' = on_queue close_concurrency s \/ s' = on_queue close_queue_slots s.

(** The stake, and whether the caller is inside. *)
Abbreviation presence := (stake * Z)%type.
Definition presence_ok (x : presence) : Prop := stake_ok x.1 /\ 0 <= x.2 <= sk_permit x.1.
Definition visit_step (x y : presence) s s' : Prop :=
  queue_ok s.1 -> presence_ok x -> claims (stake_hold x.1) (aq_concurrency s.1) ->
  queue_balance x.1 y.1 s.1 s'.1 /\ s'.2 - y.2 = s.2 - x.2 /\ presence_ok y.

Definition visit_protocol (z : presence) : protocol place presence :=
  mk_protocol (fun _ => True) (fun x s s' y => visit_step x y s s') (fun x => visit_step x z)
    (fun x s => sk_permit x.1 = 0 /\ exists t, sk_ticket x.1 = Some t /\ sem_poll t (aq_concurrency s.1) = None) False.
Definition outside_place : presence := (no_stake, 0).
Definition at_door : presence := (mk_stake 1 0 None, 0).
Definition inside : presence := (mk_stake 1 0 None, 1).

Lemma visit_step_trans x y z s1 s2 s3 :
  visit_step x y s1 s2 -> visit_step y z s2 s3 -> sk_ticket y.1 = None -> visit_step x z s1 s3.
Proof.
  intros Hxy Hyz Hy Hq Hx Hcl. destruct (Hxy Hq Hx Hcl) as (Hb & Hin & Hok).
  destruct (Hyz (qb_ok _ _ _ _ Hb) Hok (no_claims _ _ Hy)) as (Hb' & Hin' & Hok').
  split; [by eapply queue_balance_trans | by split; [lia |]].
Qed.

Lemma visit_step_queue x y s q : queue_step x y s.1 q -> visit_step (x, 0) (y, 0) s (q, s.2).
Proof.
  intros Hstep Hq [Hx Hin] Hcl. pose proof (Hstep Hq Hx Hcl) as Hb. split; [done |]. split; [simpl; lia |].
  pose proof (qb_stake _ _ _ _ Hb) as Hy. split; [done |]. destruct Hy. simpl. lia.
Qed.

Lemma visit_step_refl x s : visit_step x x s s.
Proof. intros Hq Hx Hcl. split; [by apply queue_step_refl; [| apply Hx |] | done]. Qed.

Lemma visit_step_count x n m s : 0 <= m <= sk_permit x -> visit_step (x, n) (x, m) s (s.1, s.2 + (m - n)).
Proof.
  intros Hm Hq [Hx Hin] Hcl. split; [by apply queue_step_refl |]. split; [simpl; lia | done].
Qed.

Lemma lingers_follows n : follows (visit_protocol inside) (fun y _ => y = inside) inside (lingers n).
Proof.
  induction n as [| n IH]; [done |]. apply follows_await.
  - intros s _. split; [done |]. apply visit_step_refl.
  - intros s _. split; [done |]. exists inside. split; [apply visit_step_refl | exact IH].
Qed.

Lemma visit_follows t : visitor t -> follows (visit_protocol outside_place) (fun y _ => y = outside_place) outside_place t.
Proof.
  intros (elapses & stay & ->). unfold visit.
  eapply (follows_bind _ (fun y r => y = if r is Ok _ then at_door else outside_place)).
  - apply (follows_zoom_map (queue_protocol 0) (visit_protocol outside_place) (fun x => (x, 0))
      (fun y r => y = mk_stake (if r is Ok _ then 1 else 0) 0 None)) with (x := no_stake); try done.
    + intros x s q y _ _ Hs. split; [done |]. by apply visit_step_queue.
    + intros x s q _ _ Hs. split; [done |]. by apply visit_step_queue.
    + by intros x [[] | e] ->.
    + apply acquire_follows.
  - intros y [[] | e] ->; [| done].
    assert (forall s, visit_step at_door outside_place s (on_queue release_permit s)) as Hrelease.
    { intros s. apply visit_step_queue, release_permit_step. }
    assert (forall s, visit_step inside at_door s (s.1, s.2 - 1)) as Hleave.
    { intros s. by apply (visit_step_count (mk_stake 1 0 None) 1 0). }
    apply (follows_holding (visit_protocol at_door) (fun x => visit_step x outside_place) (fun y _ => y = at_door)).
    + intros x s s' _ Hd. split; [done |]. eapply visit_step_trans; [exact Hd | apply Hrelease | done].
    + intros x a s _ ->. split; [done |]. exists outside_place. split; [apply Hrelease | done].
    + apply follows_changes. intros s _. split; [done |]. exists inside.
      split; [by apply (visit_step_count (mk_stake 1 0 None) 0 1) |].
      apply (follows_holding (visit_protocol inside) (fun x => visit_step x at_door) (fun y _ => y = inside)).
      * intros x s1 s' _ Hd. split; [done |]. eapply visit_step_trans; [exact Hd | apply Hleave | done].
      * intros x a s1 _ ->. split; [done |]. exists at_door. split; [apply Hleave | done].
      * eapply follows_bind; [apply lingers_follows |]. done.
Qed.

(** What is known of the queue in every reachable state: the semaphores account for
    every caller. *)
Record visited (q0 : AdmissionQueue S) s (xs : list (option presence)) : Prop := {
  vs_ok : queue_ok s.1;
  vs_permits : sem_unheld (aq_concurrency s.1) + sum_over (fun x => sk_permit x.1) xs = sem_unheld (aq_concurrency q0);
  vs_slots : sem_available (aq_queue_slots s.1) + sum_over (fun x => sk_slot x.1) xs = sem_available (aq_queue_slots q0);
  vs_line : forall t, sem_in_line (aq_concurrency s.1) t = sum_over (fun x => ticket_is (sk_ticket x.1) t) xs;
  vs_length : Z.of_nat (length (sem_line (aq_concurrency s.1))) = sum_over (fun x => waits (sk_ticket x.1)) xs;
  vs_inside : s.2 = sum_over snd xs;
  vs_concurrency : aq_max_concurrency s.1 = aq_max_concurrency q0;
  vs_queue : aq_max_queue s.1 = aq_max_queue q0;
  vs_each : forall i x, xs !! i = Some (Some x) -> presence_ok x;
}.

(** An invariant that grows with each operation: nobody in the line is overtaken,
    and a closed queue only gets permits back. *)
Record later (q : AdmissionQueue S) s : Prop := {
  lt_next : (fs_next (sem_view (aq_concurrency q)) <= fs_next (sem_view (aq_concurrency s.1)))%nat;
  lt_owed : forall t, (t < fs_next (sem_view (aq_concurrency q)))%nat ->
    sem_owed t (aq_concurrency s.1) <= sem_owed t (aq_concurrency q);
  lt_closed : queue_is_closed q = true -> queue_is_closed s.1 = true
    /\ sem_unheld (aq_concurrency q) <= sem_unheld (aq_concurrency s.1);
}.

Lemma waiting_claims q0 s xs i x :
  visited q0 s xs -> xs !! i = Some (Some x) -> claims (stake_hold x.1) (aq_concurrency s.1).
Proof.
  intros Hv Hi t Ht. apply sem_in_line_iff. simpl in Ht.
  assert (ticket_is (sk_ticket x.1) t <= sem_in_line (aq_concurrency s.1) t) as Hle.
  { rewrite (vs_line _ _ _ Hv). apply (sum_over_lookup (fun x => ticket_is (sk_ticket x.1) t) xs i x); [| done].
    intros j y _. unfold ticket_is. by case_decide. }
  rewrite Ht in Hle. unfold ticket_is in Hle. rewrite decide_True in Hle by done.
  pose proof (in_line_range (sem_view (aq_concurrency s.1)) t). unfold sem_in_line in *. lia.
Qed.

(** One caller changes. *)
Lemma visited_change q0 q s s' xs i x y :
  visited q0 s xs -> later q s -> xs !! i = Some (Some x) -> visit_step x (default outside_place y) s s' ->
  visited q0 s' (<[i := y]> xs) /\ later q s'.
Proof.
  intros Hv Hl Hi Hstep.
  destruct (Hstep (vs_ok _ _ _ Hv) (vs_each _ _ _ Hv i x Hi) (waiting_claims _ _ _ _ _ Hv Hi)) as ([Hq Hb Hs Hd Hc Hm Hst] & Hin & Hok).
  assert (forall f : presence -> Z, f outside_place = 0 ->
    sum_over f (<[i := y]> xs) = sum_over f xs - f x + f (default outside_place y)) as Ht.
  { intros f Hf. rewrite (sum_over_insert _ _ _ _ _ Hi). by destruct y; simpl; rewrite ?Hf. }
  destruct Hv as [Vo Vp Vs Vl Vn Vi Vc Vq Ve], Hl as [Ln Lo Lc]. destruct Hb as [_ Bp Bl Bn Bc Bx Bo].
  unfold sem_unheld, sem_in_line, sem_line, sem_owed, tickets in *. rewrite length_fmap in *. simpl in *. split.
  - split; [done | ..].
    + rewrite Ht by done. unfold sem_unheld. lia.
    + rewrite Ht by done. lia.
    + intros t. rewrite Ht by done. specialize (Bl t). specialize (Vl t). unfold sem_in_line. lia.
    + rewrite Ht by done. unfold sem_line, tickets. rewrite length_fmap. lia.
    + rewrite Ht by done. lia.
    + congruence.
    + congruence.
    + intros j z Hj. destruct (decide (i = j)) as [<- | Hne].
      * rewrite list_lookup_insert_eq in Hj by (by eapply lookup_lt_Some). injection Hj as ->. exact Hok.
      * rewrite list_lookup_insert_ne in Hj by done. eauto.
  - split; [lia | |].
    + intros t Hlt. specialize (Lo t Hlt). specialize (Bo t ltac:(lia)). unfold sem_owed. lia.
    + intros Hcl. destruct (Lc Hcl) as [Hcl' Hle]. unfold queue_is_closed in *. rewrite !view_closed in *.
      split; [congruence |]. specialize (Hd Hcl'). unfold sem_unheld. lia.
Qed.

Lemma visited_closing q0 q s s' xs : visited q0 s xs -> later q s -> closing s s' -> visited q0 s' xs /\ later q s'.
Proof.
  intros [[Hwf Hi Hsl] Vp Vs Vl Vn Vi Vc Vq Ve] [Ln Lo Lc] [-> | ->].
  - destruct (sem_close_wf _ _ Hwf) as (Hwf' & Hu & Hl & Hcl).
    assert (fs_line (sem_view (sem_close (aq_concurrency s.1))) = fs_line (sem_view (aq_concurrency s.1))) as Hline
      by by rewrite view_close.
    split.
    + split; simpl; [by split | congruence | done | intros t; rewrite Hl; apply Vl | | done..].
      unfold sem_line in *. by rewrite Hline.
    + split; simpl; [by rewrite view_close | |].
      * intros t Ht. unfold sem_owed. rewrite Hline. by apply Lo.
      * intros Hc. destruct (Lc Hc). unfold queue_is_closed. simpl. split; [done | lia].
  - split; [| by split]. split; simpl; try done; [split; simpl; [done | |] |].
    + unfold sem_idle in *. by rewrite view_close.
    + rewrite view_available, view_close. cbn. by rewrite <- view_available.
    + rewrite view_available, view_close. cbn. by rewrite <- view_available.
Qed.

Lemma visited_invariant q0 q :
  world_invariant (visit_protocol outside_place) outside_place closing (fun s xs => visited q0 s xs /\ later q s).
Proof.
  split.
  - done.
  - intros s xs [[Vo Vp Vs Vl Vn Vi Vc Vq Ve] Hl]. split; [| done]. split; rewrite ?sum_over_app; simpl; try done; try lia.
    + intros t. rewrite sum_over_app, Vl. unfold ticket_is. simpl. lia.
    + intros i x Hi. apply lookup_app_Some in Hi as [Hi | [_ Hi]]; [eauto |].
      apply list_lookup_singleton_Some in Hi as [_ [= <-]]. by repeat split.
  - intros s xs i x s' y [Hv Hl] Hi _ Hstep. by apply (visited_change q0 q s s' xs i x (Some y)).
  - intros s xs i x s' [Hv Hl] Hi _ Hstep. by apply (visited_change q0 q s s' xs i x None).
  - intros s xs s' [Hv Hl] Hout. by apply (visited_closing q0 q s s').
Qed.

Lemma queue_new_start mc mq wt q :
  0 <= mq -> queue_new mc mq wt = Some q ->
  visited q (q, 0) [] /\ sem_unheld (aq_concurrency q) = mc /\ sem_available (aq_queue_slots q) = mq
  /\ aq_max_concurrency q = mc /\ aq_max_queue q = mq /\ 0 < mc.
Proof.
  unfold queue_new. intros Hmq Hq. repeat case_match; simplify_eq. bool_to_prop.
  destruct (sem_new_idle mc) as (Hi & Ha & Hc), (sem_new_idle mq) as (Hi' & Ha' & _).
  split_and!; simpl; [| by rewrite sem_idle_unheld | done | done | done | lia].
  assert (fs_line (sem_view (sem_new mc)) = []) as Hline by exact Hi.
  split; simpl; try done; [split; simpl; [apply sem_new_wf; lia | done | lia] | lia | lia | |].
  - intros t. unfold sem_in_line, in_line. by rewrite Hline.
  - unfold sem_line. by rewrite Hline.
Qed.

Lemma later_refl q n : later q (q, n).
Proof. by split. Qed.

(** The books of a reachable world, and of a world reached from it. *)
Lemma visits_reach mc mq wt q w w' :
  0 <= mq -> queue_new mc mq wt = Some q ->
  rtc (acts visitor closing) ((q, 0), []) w -> rtc (acts visitor closing) w w' ->
  exists xs, Forall2 (proc_ok (visit_protocol outside_place) (fun y _ => y = outside_place)) xs w'.2
    /\ visited q w'.1 xs /\ later w.1.1 w'.1.
Proof.
  intros Hmq Hq Hw Hw'. destruct (queue_new_start _ _ _ _ Hmq Hq) as (Hv & _).
  destruct (continues_ok _ (fun y _ => y = outside_place) _ _ _ _ _ _ []
    (visited_invariant q q) visit_follows Hw (List.Forall2_nil _)) as (xs & Hps & Hvis & _).
  { split; [done | apply later_refl]. }
  destruct (continues_ok _ (fun y _ => y = outside_place) _ _ _ _ _ _ xs
    (visited_invariant q w.1.1) visit_follows Hw' Hps) as (xs' & Hps' & Hvis' & Hl); [| eauto].
  split; [done |]. destruct w as [[q1 n] ps]. apply later_refl.
Qed.

(** Every caller inside has a permit in use. *)
Lemma visited_inside q0 s xs :
  visited q0 s xs -> 0 <= s.2 <= sem_unheld (aq_concurrency q0) - sem_unheld (aq_concurrency s.1).
Proof.
  intros [_ Vp _ _ _ Vi _ _ Ve].
  assert (0 <= sum_over snd xs) by (apply sum_over_nonneg; intros i x Hx; by apply (Ve i x)).
  assert (sum_over snd xs <= sum_over (fun x => sk_permit x.1) xs) by (apply sum_over_mono; intros i x Hx; by apply (Ve i x)).
  lia.
Qed.

(** C22. Whatever callers arrive, wait, time out, are dropped, are inside and leave,
    or find the queue closed, their operations interleaved in any way: never more
    than [max_concurrency] are inside and never more than [max_queue] wait in line;
    the snapshot covers them, and its subtractions never underflow; and when all
    have left, all permits and slots are back: no way out, a drop in the middle of
    the wait included, leaks one. *)
Theorem admission_bounded mc mq wt q w :
  0 <= mq -> queue_new mc mq wt = Some q -> rtc (acts visitor closing) ((q, 0), []) w ->
  let s := queue_snapshot w.1.1 in
  0 <= w.1.2 <= qs_active s /\ qs_active s <= mc
  /\ Z.of_nat (length (sem_line (aq_concurrency w.1.1))) <= qs_queued s <= mq
  /\ (Forall (fun p => at_rest p = true) w.2 -> w.1.2 = 0 /\ qs_active s = 0 /\ qs_queued s = 0).
Proof.
  intros Hmq Hq Hrun. destruct (queue_new_start _ _ _ _ Hmq Hq) as (_ & Hc & Hs & Hmc & Hmx & Hpos).
  destruct (visits_reach _ _ _ _ _ _ Hmq Hq Hrun (rtc_refl _ _)) as (xs & Hps & [[Hwf Hi Hsl] Vp Vs Vl Vn Vi Vc Vq Ve] & _).
  cbv zeta. unfold queue_snapshot. cbn [qs_active qs_queued]. rewrite Vc, Vq, Hmc, Hmx.
  pose proof (sem_available_unheld _ _ Hwf).
  assert (0 <= sum_over snd xs) by (apply sum_over_nonneg; intros i x Hx; by apply (Ve i x)).
  assert (sum_over snd xs <= sum_over (fun x => sk_permit x.1) xs) by (apply sum_over_mono; intros i x Hx; by apply (Ve i x)).
  assert (sum_over (fun x => waits (sk_ticket x.1)) xs <= sum_over (fun x => sk_slot x.1) xs)
    by (apply sum_over_mono; intros i x Hx; by apply (Ve i x)).
  split_and!; try lia. intros Hrest.
  assert (forall f : presence -> Z, f outside_place = 0 -> sum_over f xs = 0) as Hz.
  { intros f Hf. apply sum_over_zero. intros i x Hx. destruct (Forall2_lookup_l _ _ _ _ _ Hps Hx) as (p & Hp & Hok).
    rewrite Forall_lookup in Hrest. specialize (Hrest i p Hp). destruct p as [[r | c op] |]; [| done | done].
    simpl in Hok. by rewrite Hok. }
  rewrite Hz in Vp, Vs, Vn, Vi by done.
  assert (sem_idle (aq_concurrency w.1.1)) as Hidle.
  { apply length_zero_iff_nil. unfold sem_line, tickets in Vn. rewrite length_fmap in Vn. lia. }
  rewrite (sem_idle_unheld _ Hidle) in Vp. split_and!; lia.
Qed.

(** What must come back before the waiter with ticket [t] is served. *)
Definition ahead (t : nat) (q : AdmissionQueue S) : Z := sem_owed t (aq_concurrency q).



(** [Full] means what it says: it is returned exactly when the queue is open, no
    permit is free and every queue slot is taken, so with no queue ([max_queue = 0])
    a busy gateway refuses at once; and a free permit of an open queue is taken at
    once. *)
Lemma acquire_refusals elapses q :
  queue_ok q -> sem_is_closed (aq_queue_slots q) = queue_is_closed q ->
  ((exists q', run_alone (acquire elapses) q = Goes (Err Full) q')
     <-> queue_is_closed q = false /\ sem_available (aq_concurrency q) < 1 /\ sem_available (aq_queue_slots q) < 1)
  /\ (queue_is_closed q = false -> 1 <= sem_available (aq_concurrency q) ->
        exists q', run_alone (acquire elapses) q = Goes (Ok ()) q').
Proof.
  intros Hq Hsame. unfold run_alone, acquire. cbn. unfold try_concurrency, try_acquire_owned.
  pose proof (sem_try_acquire_iff 1 (aq_concurrency q)) as Hc. pose proof (sem_try_acquire_iff 1 (aq_queue_slots q)) as Hs.
  unfold queue_is_closed in *. destruct (sem_try_acquire 1 (aq_concurrency q)) as [c |]; cbn.
  { destruct (proj1 Hc ltac:(by eexists)). split; [| by eexists]. split; [by intros [q' [=]] | lia]. }
  split; [| intros Ho Ha; by destruct (proj2 Hc (conj Ho Ha)) as [? [=]]].
  destruct (sem_is_closed (aq_concurrency q)) eqn:Hcl; cbn; [split; [by intros [q' [=]] | by intros [? _]] |].
  unfold try_queue_slot, try_acquire_owned. cbn. destruct (sem_try_acquire 1 (aq_queue_slots q)) as [sl |]; cbn.
  - destruct (proj1 Hs ltac:(by eexists)). split; [| lia]. intros [q' Hrun]. exfalso. revert Hrun.
    destruct (sem_enter 1 _) as [t s1]; cbn. destruct (sem_poll t s1) as [[[] s2] |]; cbn; [done | done |].
    destruct (sem_poll t s1) as [[[] s2] |]; cbn; [done | done |]. by destruct elapses.
  - rewrite Hsame. cbn. split; [intros _ | by eexists]. split_and!; [done | |].
    + apply Z.nle_gt. intros Ha. by destruct (proj2 Hc (conj eq_refl Ha)) as [? [=]].
    + apply Z.nle_gt. intros Ha. by destruct (proj2 Hs (conj Hsame Ha)) as [? [=]].
Qed.
End Visitors.

(** ** The body budget *)

Section BudgetTheorems.
Context {S : Type} `{SemaphoreLaws S}.

Lemma budget_acquire_follows elapses :
  follows (hold_protocol bb_sem set_budget_sem bb_permits_per_request True)
    (fun y r => y = mk_hold (if r is Some _ then 1 else 0) None) (mk_hold 0 None) (budget_acquire elapses).
Proof.
  eapply follows_bind; [by apply acquire_owned_follows |]. intros y [[waited [[] | []]] |] ->; [done | by split | done].
Qed.

(** Two operations, and no panic while the semaphore is open. *)
Lemma budget_acquire_counts elapses n :
  follows (counting (fun b : BodyBudget S => sem_is_closed (bb_sem b) = false)) (fun y _ => (n <= y)%nat) (2 + n)%nat
    (budget_acquire elapses).
Proof.
  eapply follows_bind; [apply (acquire_owned_counts _ _ _ _ elapses n); intros b s Hb Hs; simpl; congruence |].
  intros y [[w [[] | []]] |] [Hy Hr]; simpl; [lia | | lia].
  destruct (Hr w eq_refl) as (b & Hb & Hc). congruence.
Qed.

Lemma budget_release_step n t (b : BodyBudget S) :
  0 <= n -> owned_step bb_sem set_budget_sem bb_permits_per_request (mk_hold (n + 1) t) (mk_hold n t) b (budget_release b).
Proof.
  intros Hn Hwf _. split_and!; [| done | simpl; lia | done].
  pose proof (sem_release_balance _ (bb_permits_per_request b) (bb_permits_per_request b * n) t _ (fw_asked _ _ Hwf) Hwf) as Hb.
  unfold scaled. cbn. by rewrite Z.mul_add_distr_l, Z.mul_1_r.
Qed.
End BudgetTheorems.

(** ** At concrete inputs *)

(** One permit and two queue slots: the first caller is inside, two wait, the fourth
    is refused. *)
Definition demo_queue : AdmissionQueue FairSem := mk_queue (fair_new 1) (fair_new 2) 1 2 (Dur.from_secs 30).
Definition demo_callers : list (task (AdmissionQueue FairSem * Z) (result AdmissionError ())) :=
  [visit false 1; visit false 1; visit false 1; visit false 1].
Abbreviation demo_place := (world (AdmissionQueue FairSem * Z) (result AdmissionError ())) (only parsing).
Definition demo_arrived : demo_place := ((demo_queue, 0), [] ++ (Live <$> demo_callers)).
Definition demo_line : demo_place := schedule [0; 0; 1; 1; 1; 2; 2; 2; 3; 3]%nat demo_arrived.
(** The first leaves; its permit goes to the second. *)
Definition demo_next : demo_place := schedule [0; 0; 0]%nat demo_line.

Example demo_line_is :
  (sem_line (aq_concurrency demo_line.1.1), demo_line.1.2,
   (fun p => if p is Live (Ret (Err e)) then Some e else None) <$> demo_line.2)
  = ([0; 1]%nat, 1, [None; None; None; Some Full]).
Proof. vm_compute. reflexivity. Qed.

Lemma demo_callers_visit : Forall visitor demo_callers.
Proof. unfold demo_callers. repeat constructor; by eexists _, _. Qed.
Lemma demo_line_reached : rtc (acts visitor closing) ((demo_queue, 0), []) demo_line.
Proof.
  etransitivity; [exact (starts_acts visitor closing _ _ _ demo_callers_visit) |].
  exact (moves_acts _ _ _ _ (schedule_moves _ demo_arrived)).
Qed.
Lemma demo_next_reached : rtc (acts visitor closing) demo_line demo_next.
Proof. exact (moves_acts _ _ _ _ (schedule_moves _ demo_line)). Qed.

Lemma admission_bounded_witness :
  let s := queue_snapshot demo_line.1.1 in
  qs_active s = 1 /\ qs_queued s = 2 /\ 0 <= demo_line.1.2 <= qs_active s /\ qs_active s <= 1
  /\ Z.of_nat (length (sem_line (aq_concurrency demo_line.1.1))) <= qs_queued s <= 2.
Proof.
  destruct (admission_bounded 1 2 (Dur.from_secs 30) demo_queue demo_line) as (Hin & Ha & Hq & _).
  - lia.
  - reflexivity.
  - exact demo_line_reached.
  - cbv zeta. split_and!; [vm_compute; reflexivity | vm_compute; reflexivity | apply Hin | apply Hin | exact Ha | apply Hq | apply Hq].
Defined.


(** The queue is closed while two wait. *)
Definition demo_closed : demo_place := (on_queue close_concurrency demo_line.1, demo_line.2).
Lemma demo_closed_reached : rtc (acts visitor closing) ((demo_queue, 0), []) demo_closed.
Proof.
  eapply rtc_r; [exact demo_line_reached |]. unfold demo_closed. rewrite (surjective_pairing demo_line) at 1.
  apply act_outside. by left.
Qed.

