(* ===== verification/Config.v ===== *)
(** * The configuration ([src/src/config.rs])

    From the deserialised YAML document ([RawConfig]) to the validated
    [Config]: every check of [Config::try_from] in the order of the code, the
    defaults it fills in, the file checks of [open_config], and the closed
    list of upstream URLs.  The YAML parser, the file system and the permit
    limit of tokio's semaphore are parameters. *)
From Stdlib Require Export SpecFloat.
From stdpp Require Import pretty.
From S2P Require Export Pool Net.

(** ** [f64]

    IEEE double precision through the Standard Library's executable
    specification of floating-point numbers. *)
Abbreviation f64 := spec_float (only parsing).

(** The literal [n as f64]; exact for the integers that occur. *)
Definition f64_of_Z (n : Z) : f64 := binary_normalize 53 1024 n 0 false.
(** [x.is_finite()] *)
Definition is_finite (x : f64) : bool :=
  match x with S754_zero _ | S754_finite _ _ _ => true | _ => false end.

(** ** Upstream APIs *)

(** [OPENCODE_GO_BASE_URL] *)
Definition OPENCODE_GO_BASE_URL : string := "https://opencode.ai/zen/go/".
(** [MAX_MODEL_BYTES] *)
Definition MAX_MODEL_BYTES : Z := 256.

(** [enum UpstreamApi] *)
Inductive UpstreamApi := ChatCompletions | Messages | Responses | ApiUsage | Models.

#[global] Instance UpstreamApi_eq_dec : EqDecision UpstreamApi.
Proof. solve_decision. Defined.

(** The [match] of [upstream_api_url]. *)
Definition upstream_api_path (api : UpstreamApi) : string :=
  match api with
  | ChatCompletions => "v1/chat/completions"
  | Messages => "v1/messages"
  | Responses => "v1/responses"
  | ApiUsage => "v1/usage"
  | Models => "v1/models"
  end.

(** [upstream_api_url], for the [join] of the [url] crate; [None] is the panic
    of its [expect]. *)
Definition upstream_api_url {Url} (join : Url -> string -> option Url) (base : Url)
    (api : UpstreamApi) : option Url := join base (upstream_api_path api).

(** ** Defaults *)

Definition DEFAULT_LISTEN_HOST : string := "127.0.0.1".
Definition DEFAULT_LISTEN_PORT : Z := 8080.
Definition DEFAULT_MAX_CONCURRENCY : Z := 200.
Definition DEFAULT_MAX_QUEUE : Z := 500.
Definition DEFAULT_QUEUE_WAIT_TIMEOUT : Duration := Dur.from_secs 30.
Definition DEFAULT_MAX_BODY_BYTES : Z := 10 * 1024 * 1024.
Definition DEFAULT_MAX_INFLIGHT_BODY_BYTES : Z := 256 * 1024 * 1024.
Definition DEFAULT_BACKOFF_INITIAL : Duration := Dur.from_secs 5.
Definition DEFAULT_BACKOFF_MAX : Duration := Dur.from_secs 60.
Definition DEFAULT_MODELS : list string := ["deepseek-chat"].
Definition DEFAULT_MODEL_SYNC_INTERVAL : Duration := Dur.from_secs (60 * 60).
Definition DEFAULT_BREAKER_THRESHOLD : Z := 5.
Definition DEFAULT_BREAKER_COOLDOWN : Duration := Dur.from_secs 60.
Definition DEFAULT_MAX_ATTEMPTS : Z := 2.
Definition DEFAULT_USAGE_SOFT_THRESHOLD_PERCENT : f64 := f64_of_Z 80.
Definition DEFAULT_USAGE_POLL_INTERVAL : Duration := Dur.from_secs (5 * 60).
Definition DEFAULT_USAGE_HISTORY_DIR : string := "/var/log/orihsus/usage".
Definition DEFAULT_AUDIT_PATH : string := "/var/log/orihsus/audit.jsonl".
Definition DEFAULT_AUDIT_QUEUE_CAPACITY : Z := 4096.
Definition DEFAULT_READ_HEADER_TIMEOUT : Duration := Dur.from_secs 5.
Definition DEFAULT_MAX_HEADER_BYTES : Z := 32 * 1024.
Definition DEFAULT_MAX_CONNECTIONS : Z := 1024.
Definition MAX_CONNECTIONS_CEILING : Z := 65536.
Definition DEFAULT_BODY_READ_TIMEOUT : Duration := Dur.from_secs 30.
Definition DEFAULT_UPSTREAM_RESPONSE_HEADER_TIMEOUT : Duration := Dur.from_secs 60.
Definition DEFAULT_FIRST_EVENT_TIMEOUT : Duration := Dur.from_secs 60.
Definition DEFAULT_INTER_EVENT_TIMEOUT : Duration := Dur.from_secs 90.
Definition DEFAULT_UPSTREAM_ERROR_BODY_TIMEOUT : Duration := Dur.from_secs 5.
Definition DEFAULT_RESPONSE_WRITE_TIMEOUT : Duration := Dur.from_secs 30.

(** ** The document *)

(** [struct RawGatewayKey] *)
Record RawGatewayKey := mk_raw_gateway_key { rgk_name : string; rgk_token : string }.

(** [enum RawKey] *)
Inductive RawKey :=
| Plain (key : string)
| Named (key : string) (name : option string).

Module RawModelSync.
Record t := mk { enabled : option bool; interval_seconds : option Z }.
Definition default : t := mk None None.
End RawModelSync.

Module RawUsage.
Record t := mk { soft_threshold_percent : option f64; poll_interval_seconds : option Z }.
Definition default : t := mk None None.
End RawUsage.

Module RawListen.
Record t := mk { host : option string; port : option Z }.
Definition default : t := mk None None.
End RawListen.

Module RawLimits.
Record t := mk {
  max_concurrency : option Z;
  max_queue : option Z;
  queue_wait_timeout_seconds : option Z;
  max_body_bytes : option Z;
  max_inflight_body_bytes : option Z;
}.
Definition default : t := mk None None None None None.
End RawLimits.

(** [struct RawKeyFailureHandling]; of the retired field only its presence
    matters, its YAML value is dropped. *)
Module RawKeyFailureHandling.
Record t := mk {
  soft_threshold : option unit;
  backoff_initial_seconds : option Z;
  backoff_max_seconds : option Z;
  breaker_threshold : option Z;
  breaker_cooldown_seconds : option Z;
  max_attempts : option Z;
}.
Definition default : t := mk None None None None None None.
End RawKeyFailureHandling.

Module RawAudit.
Record t := mk { path : option string; queue_capacity : option Z }.
Definition default : t := mk None None.
End RawAudit.

Module RawEventTimeouts.
Record t := mk {
  first_event_timeout_seconds : option Z;
  inter_event_timeout_seconds : option Z;
}.
End RawEventTimeouts.

Module RawServer.
Record t := mk {
  read_header_timeout_seconds : option Z;
  max_header_bytes : option Z;
  body_read_timeout_seconds : option Z;
  upstream_response_header_timeout_seconds : option Z;
  first_event_timeout_seconds : option Z;
  inter_event_timeout_seconds : option Z;
  model_event_timeouts : gmap string RawEventTimeouts.t;
  upstream_error_body_timeout_seconds : option Z;
  response_write_timeout_seconds : option Z;
  max_connections : option Z;
}.
Definition default : t := mk None None None None None None ∅ None None None.
End RawServer.

Module RawConfig.
Record t := mk {
  gateway_token : option string;
  gateway_keys : option (list RawGatewayKey);
  listen : option RawListen.t;
  keys : option (list RawKey);
  models : option (list string);
  model_sync : option RawModelSync.t;
  limits : option RawLimits.t;
  key_failure_handling : option RawKeyFailureHandling.t;
  usage : option RawUsage.t;
  usage_history_dir : option string;
  audit : option RawAudit.t;
  server : option RawServer.t;
}.
End RawConfig.

(** ** The validated configuration *)

(** [struct GatewayKey] *)
Record GatewayKey := mk_gateway_key { gk_name : string; gk_token : Secret }.

#[global] Instance GatewayKey_eq_dec : EqDecision GatewayKey.
Proof. solve_decision. Defined.

(** [struct SocketAddr] *)
Record SocketAddr := mk_addr { addr_ip : IpAddr; addr_port : Z }.

Module ModelSync.
Record t := mk { enabled : bool; interval : Duration }.
#[global] Instance eq_dec : EqDecision t.
Proof. solve_decision. Defined.
End ModelSync.

Module Usage.
Record t := mk { soft_threshold_percent : f64; poll_interval : Duration }.
End Usage.

Module Limits.
Record t := mk {
  max_concurrency : Z;
  max_queue : Z;
  queue_wait_timeout : Duration;
  max_body_bytes : Z;
  max_inflight_body_bytes : Z;
}.
End Limits.

Module KeyFailureHandling.
Record t := mk {
  backoff_initial : Duration;
  backoff_max : Duration;
  breaker_threshold : Z;
  breaker_cooldown : Duration;
  max_attempts : Z;
}.
End KeyFailureHandling.

Module Audit.
Record t := mk { path : string; queue_capacity : Z }.
End Audit.

Module EventTimeouts.
Record t := mk { first_event_timeout : Duration; inter_event_timeout : Duration }.
End EventTimeouts.

Module Server.
Record t := mk {
  read_header_timeout : Duration;
  max_header_bytes : Z;
  body_read_timeout : Duration;
  upstream_response_header_timeout : Duration;
  first_event_timeout : Duration;
  inter_event_timeout : Duration;
  model_event_timeouts : gmap string EventTimeouts.t;
  upstream_error_body_timeout : Duration;
  response_write_timeout : Duration;
  max_connections : Z;
}.
End Server.

Module Config.
Record t := mk {
  listen : SocketAddr;
  gateway_keys : list GatewayKey;
  keys : list Secret;
  key_aliases : gmap string string;
  models : list string;
  model_sync : ModelSync.t;
  limits : Limits.t;
  key_failure_handling : KeyFailureHandling.t;
  usage : Usage.t;
  usage_history_dir : string;
  audit : Audit.t;
  server : Server.t;
}.
End Config.

(** [enum ErrorKind], over the error type of the file system *)
Inductive ErrorKind (IoError : Type) :=
| Io (path : string) (source : IoError)
| Parse (path : string) (line column : Z)
| Permission (path : string)
| Validation (msg : string).
Arguments Io {IoError}.
Arguments Parse {IoError}.
Arguments Permission {IoError}.
Arguments Validation {IoError}.

(** [<ConfigError as Display>::fmt] *)
Definition display_error {IoError} (show : IoError -> string) (e : ErrorKind IoError) : string :=
  match e with
  | Io path source => "cannot read config " +:+ path +:+ ": " +:+ show source
  | Parse path line column =>
      "invalid YAML in " +:+ path +:+ " at line " +:+ pretty line +:+ ", column " +:+ pretty column
  | Permission path =>
      "config file " +:+ path +:+ " must be a regular file owned by the process user with Unix permissions 0600"
  | Validation msg => "invalid config: " +:+ msg
  end.

(** ** [Config::try_from]

    One definition per group of consecutive checks, in the order of the code;
    [config_try_from] runs them one after the other. *)

(** [match o { Some(s) => Duration::from_secs(s), None => default }] *)
Definition secs_or (o : option Z) (dflt : Duration) : Duration :=
  match o with Some seconds => Dur.from_secs seconds | None => dflt end.

(** A name that is blank or longer than [max] bytes. *)
Definition bad_name (max : Z) (name : string) : bool := is_blank name || (max <? str_len name).

(** The iteration order of a [BTreeMap<String, _>]. *)
Definition key_le {A} (a b : string * A) : Prop := Is_true (str_leb a.1 b.1).
#[global] Instance key_le_dec {A} : RelDecision (@key_le A).
Proof. intros a b. unfold key_le. apply _. Defined.
Definition btree_iter {A} (m : gmap string A) : list (string * A) :=
  merge_sort key_le (map_to_list m).

Section TryFrom.
Context `{Sha256} (MAX_PERMITS : Z).

(** The body of the loop over [gateway_keys]; the accumulator is the two hash
    sets and the vector. *)
Definition add_gateway_key (acc : gset string * gset string * list GatewayKey)
    (entry : RawGatewayKey) : result string (gset string * gset string * list GatewayKey) :=
  let '(names, tokens, keys) := acc in
  bail_if (bad_name 128 (rgk_name entry))
    "gateway key names must be non-blank and at most 128 bytes" ;;
  bail_if (is_blank (rgk_token entry)) "gateway key tokens must be non-empty" ;;
  bail_if (bool_decide (rgk_name entry ∈ names)) "gateway key names must be unique" ;;
  bail_if (bool_decide (rgk_token entry ∈ tokens)) "gateway key tokens must be unique" ;;
  Ok ({[rgk_name entry]} ∪ names, {[rgk_token entry]} ∪ tokens,
      keys ++ [mk_gateway_key (rgk_name entry) (secret_new (rgk_token entry))]).

Definition check_gateway_keys (gateway_token : option string)
    (gateway_keys : option (list RawGatewayKey)) : result string (list GatewayKey) :=
  bail_if (bool_decide (is_Some gateway_token) && bool_decide (is_Some gateway_keys))
    "set either gateway_token or gateway_keys, not both" ;;
  match gateway_token, gateway_keys with
  | Some token, _ =>
      bail_if (is_blank token) "gateway token must be non-empty" ;;
      Ok [mk_gateway_key "legacy" (secret_new token)]
  | None, Some es =>
      bail_if (bool_decide (es = [])) "at least one gateway key is required" ;;
      acc ← try_fold add_gateway_key (∅, ∅, []) es;
      Ok acc.2
  | None, None => Err "gateway_token or gateway_keys must be set"
  end.

Definition check_listen (listen : option RawListen.t) : result string SocketAddr :=
  let listen := default RawListen.default listen in
  let listen_host := default DEFAULT_LISTEN_HOST (RawListen.host listen) in
  ip ← ok_or (parse_ip listen_host) "listen.host must be a valid IP address";
  bail_if (negb (is_loopback ip))
    "listen.host must be a loopback address; expose the service through nginx" ;;
  Ok (mk_addr ip (default DEFAULT_LISTEN_PORT (RawListen.port listen))).

(** The body of the loop over the upstream keys. *)
Definition add_upstream_key (acc : list string * gmap string string) (raw_key : RawKey)
    : result string (list string * gmap string string) :=
  let '(keys, aliases) := acc in
  let '(key, name) := match raw_key with
                      | Plain key => (key, None)
                      | Named key name => (key, name)
                      end in
  bail_if (is_blank key) "upstream keys must be non-empty" ;;
  match name with
  | Some name =>
      bail_if (bad_name 128 name) "upstream key names must be non-blank and at most 128 bytes" ;;
      Ok (keys ++ [key], <[fingerprint key := name]> aliases)
  | None => Ok (keys ++ [key], aliases)
  end.

(** The duplicate scans with a [HashSet]. *)
Definition insert_new (msg : string) (seen : gset string) (x : string) : result string (gset string) :=
  bail_if (bool_decide (x ∈ seen)) msg ;; Ok ({[x]} ∪ seen).

Definition check_keys (raw_keys : option (list RawKey))
    : result string (list Secret * gmap string string) :=
  let raw_keys := default [] raw_keys in
  bail_if (bool_decide (raw_keys = [])) "at least one upstream key is required" ;;
  acc ← try_fold add_upstream_key ([], ∅) raw_keys;
  _ ← try_fold (insert_new "upstream keys must not contain duplicates") ∅ acc.1;
  Ok (secret_new <$> acc.1, acc.2).

(** The body of the loop over the models. *)
Definition check_model (seen : gset string) (m : string) : result string (gset string) :=
  bail_if (is_blank m) "models must contain only non-blank model names" ;;
  bail_if (MAX_MODEL_BYTES <? str_len m) "models must not exceed 256 bytes per value" ;;
  insert_new "models must not contain duplicates" seen m.

Definition check_models (models : option (list string)) : result string (list string) :=
  match models with
  | Some models =>
      bail_if (bool_decide (models = [])) "models must not be empty" ;;
      _ ← try_fold check_model ∅ models;
      Ok models
  | None => Ok DEFAULT_MODELS
  end.

Definition check_model_sync (has_manual_models : bool) (model_sync : option RawModelSync.t)
    : result string ModelSync.t :=
  let model_sync := default RawModelSync.default model_sync in
  let enabled := negb has_manual_models && default true (RawModelSync.enabled model_sync) in
  let interval := Dur.from_secs
    (default (Dur.as_secs DEFAULT_MODEL_SYNC_INTERVAL) (RawModelSync.interval_seconds model_sync)) in
  bail_if (interval <? Dur.from_secs 30) "model_sync.interval_seconds must be at least 30" ;;
  Ok (ModelSync.mk enabled interval).

Definition check_limits (limits : option RawLimits.t) : result string Limits.t :=
  let limits := default RawLimits.default limits in
  let max_concurrency := default DEFAULT_MAX_CONCURRENCY (RawLimits.max_concurrency limits) in
  bail_if (max_concurrency =? 0) "limits.max_concurrency must be at least 1" ;;
  bail_if (MAX_PERMITS <? max_concurrency)
    ("limits.max_concurrency must be at most " +:+ pretty MAX_PERMITS +:+ " (tokio semaphore permits)") ;;
  let max_queue := default DEFAULT_MAX_QUEUE (RawLimits.max_queue limits) in
  bail_if (MAX_PERMITS <? max_queue)
    ("limits.max_queue must be at most " +:+ pretty MAX_PERMITS +:+ " (tokio semaphore permits)") ;;
  let queue_wait_timeout :=
    secs_or (RawLimits.queue_wait_timeout_seconds limits) DEFAULT_QUEUE_WAIT_TIMEOUT in
  bail_if (Dur.is_zero queue_wait_timeout)
    "limits.queue_wait_timeout_seconds must be greater than zero" ;;
  let max_body_bytes := default DEFAULT_MAX_BODY_BYTES (RawLimits.max_body_bytes limits) in
  bail_if (max_body_bytes =? 0) "limits.max_body_bytes must be at least 1 byte" ;;
  bail_if (u32_max <? max_body_bytes)
    "limits.max_body_bytes must fit u32 (body reservations are u32 semaphore permits)" ;;
  let max_inflight_body_bytes :=
    default DEFAULT_MAX_INFLIGHT_BODY_BYTES (RawLimits.max_inflight_body_bytes limits) in
  bail_if (max_inflight_body_bytes =? 0) "limits.max_inflight_body_bytes must be at least 1 byte" ;;
  bail_if (u32_max <? max_inflight_body_bytes)
    "limits.max_inflight_body_bytes must fit u32 (semaphore permits are u32)" ;;
  bail_if (max_inflight_body_bytes <? max_body_bytes)
    "limits.max_inflight_body_bytes must be >= limits.max_body_bytes" ;;
  Ok (Limits.mk max_concurrency max_queue queue_wait_timeout max_body_bytes max_inflight_body_bytes).

Definition check_key_failure (key_failure : option RawKeyFailureHandling.t)
    : result string KeyFailureHandling.t :=
  let key_failure := default RawKeyFailureHandling.default key_failure in
  bail_if (bool_decide (is_Some (RawKeyFailureHandling.soft_threshold key_failure)))
    "key_failure_handling.soft_threshold is no longer supported; remove it from the config" ;;
  let backoff_initial :=
    secs_or (RawKeyFailureHandling.backoff_initial_seconds key_failure) DEFAULT_BACKOFF_INITIAL in
  bail_if (Dur.is_zero backoff_initial)
    "key_failure_handling.backoff_initial_seconds must be greater than zero" ;;
  let backoff_max :=
    secs_or (RawKeyFailureHandling.backoff_max_seconds key_failure) DEFAULT_BACKOFF_MAX in
  bail_if (Dur.is_zero backoff_max)
    "key_failure_handling.backoff_max_seconds must be greater than zero" ;;
  bail_if (backoff_max <? backoff_initial)
    "key_failure_handling.backoff_max_seconds must be >= key_failure_handling.backoff_initial_seconds" ;;
  bail_if (MAX_COOLDOWN <? backoff_max)
    "key_failure_handling.backoff_max_seconds must be at most the ops cooldown ceiling (7776000 seconds)" ;;
  let breaker_threshold :=
    default DEFAULT_BREAKER_THRESHOLD (RawKeyFailureHandling.breaker_threshold key_failure) in
  bail_if (breaker_threshold =? 0) "key_failure_handling.breaker_threshold must be at least 1" ;;
  bail_if (u32_max <? breaker_threshold)
    "key_failure_handling.breaker_threshold must fit u32 (the key pool breaker counts failures in u32)" ;;
  let breaker_cooldown :=
    secs_or (RawKeyFailureHandling.breaker_cooldown_seconds key_failure) DEFAULT_BREAKER_COOLDOWN in
  bail_if (Dur.is_zero breaker_cooldown)
    "key_failure_handling.breaker_cooldown_seconds must be greater than zero" ;;
  let max_attempts := default DEFAULT_MAX_ATTEMPTS (RawKeyFailureHandling.max_attempts key_failure) in
  bail_if ((max_attempts =? 0) || (2 <? max_attempts))
    "key_failure_handling.max_attempts must be between 1 and 2" ;;
  Ok (KeyFailureHandling.mk backoff_initial backoff_max breaker_threshold breaker_cooldown max_attempts).

Definition check_usage (usage : option RawUsage.t) : result string Usage.t :=
  let usage := default RawUsage.default usage in
  let soft_threshold_percent :=
    default DEFAULT_USAGE_SOFT_THRESHOLD_PERCENT (RawUsage.soft_threshold_percent usage) in
  bail_if (negb (is_finite soft_threshold_percent) || SFleb soft_threshold_percent (f64_of_Z 0)
           || SFltb (f64_of_Z 100) soft_threshold_percent)
    "usage.soft_threshold_percent must be finite and in (0, 100]" ;;
  let poll_interval := secs_or (RawUsage.poll_interval_seconds usage) DEFAULT_USAGE_POLL_INTERVAL in
  bail_if (poll_interval <? Dur.from_secs 30) "usage.poll_interval_seconds must be at least 30" ;;
  Ok (Usage.mk soft_threshold_percent poll_interval).

Definition check_usage_history_dir (usage_history_dir : option string) : result string string :=
  let dir := default DEFAULT_USAGE_HISTORY_DIR usage_history_dir in
  bail_if (str_is_empty dir) "usage_history_dir must not be empty" ;;
  Ok dir.

Definition check_audit (audit : option RawAudit.t) : result string Audit.t :=
  let audit := default RawAudit.default audit in
  let path := match RawAudit.path audit with
              | Some p => if negb (is_blank p) then p else DEFAULT_AUDIT_PATH
              | None => DEFAULT_AUDIT_PATH
              end in
  let queue_capacity := default DEFAULT_AUDIT_QUEUE_CAPACITY (RawAudit.queue_capacity audit) in
  bail_if (queue_capacity =? 0) "audit.queue_capacity must be at least 1" ;;
  Ok (Audit.mk path queue_capacity).

(** The body of the loop over [server.model_event_timeouts]. *)
Definition add_event_timeouts (first inter : Duration) (acc : gmap string EventTimeouts.t)
    (entry : string * RawEventTimeouts.t) : result string (gmap string EventTimeouts.t) :=
  let '(model, policy) := entry in
  bail_if (bad_name MAX_MODEL_BYTES model)
    "server.model_event_timeouts model names must be non-blank and at most 256 bytes" ;;
  let model_first := Dur.from_secs
    (default (Dur.as_secs first) (RawEventTimeouts.first_event_timeout_seconds policy)) in
  let model_inter := Dur.from_secs
    (default (Dur.as_secs inter) (RawEventTimeouts.inter_event_timeout_seconds policy)) in
  bail_if (Dur.is_zero model_first || Dur.is_zero model_inter)
    "server.model_event_timeouts values must be greater than zero" ;;
  Ok (<[model := EventTimeouts.mk model_first model_inter]> acc).

Definition check_server (server : option RawServer.t) : result string Server.t :=
  let server := default RawServer.default server in
  let read_header_timeout :=
    secs_or (RawServer.read_header_timeout_seconds server) DEFAULT_READ_HEADER_TIMEOUT in
  bail_if (Dur.is_zero read_header_timeout)
    "server.read_header_timeout_seconds must be greater than zero" ;;
  let max_header_bytes := default DEFAULT_MAX_HEADER_BYTES (RawServer.max_header_bytes server) in
  bail_if (max_header_bytes <? 8192)
    "server.max_header_bytes must be at least 8192 bytes (HTTP/1 minimum)" ;;
  bail_if (u32_max <? max_header_bytes)
    "server.max_header_bytes must fit u32 (hyper's HTTP/2 header-list cap is u32)" ;;
  let body_read_timeout :=
    secs_or (RawServer.body_read_timeout_seconds server) DEFAULT_BODY_READ_TIMEOUT in
  bail_if (Dur.is_zero body_read_timeout)
    "server.body_read_timeout_seconds must be greater than zero" ;;
  let upstream_response_header_timeout :=
    secs_or (RawServer.upstream_response_header_timeout_seconds server)
      DEFAULT_UPSTREAM_RESPONSE_HEADER_TIMEOUT in
  bail_if (Dur.is_zero upstream_response_header_timeout)
    "server.upstream_response_header_timeout_seconds must be greater than zero" ;;
  let first_event_timeout :=
    secs_or (RawServer.first_event_timeout_seconds server) DEFAULT_FIRST_EVENT_TIMEOUT in
  bail_if (Dur.is_zero first_event_timeout)
    "server.first_event_timeout_seconds must be greater than zero" ;;
  let inter_event_timeout :=
    secs_or (RawServer.inter_event_timeout_seconds server) DEFAULT_INTER_EVENT_TIMEOUT in
  bail_if (Dur.is_zero inter_event_timeout)
    "server.inter_event_timeout_seconds must be greater than zero" ;;
  model_event_timeouts ← try_fold (add_event_timeouts first_event_timeout inter_event_timeout) ∅
                           (btree_iter (RawServer.model_event_timeouts server));
  let upstream_error_body_timeout :=
    secs_or (RawServer.upstream_error_body_timeout_seconds server)
      DEFAULT_UPSTREAM_ERROR_BODY_TIMEOUT in
  bail_if (Dur.is_zero upstream_error_body_timeout)
    "server.upstream_error_body_timeout_seconds must be greater than zero" ;;
  let response_write_timeout :=
    secs_or (RawServer.response_write_timeout_seconds server) DEFAULT_RESPONSE_WRITE_TIMEOUT in
  bail_if (Dur.is_zero response_write_timeout)
    "server.response_write_timeout_seconds must be greater than zero" ;;
  let max_connections := default DEFAULT_MAX_CONNECTIONS (RawServer.max_connections server) in
  bail_if (max_connections =? 0) "server.max_connections must be at least 1" ;;
  bail_if (MAX_CONNECTIONS_CEILING <? max_connections)
    "server.max_connections must be at most 65536 (the systemd LimitNOFILE FD budget)" ;;
  Ok (Server.mk read_header_timeout max_header_bytes body_read_timeout
        upstream_response_header_timeout first_event_timeout inter_event_timeout
        model_event_timeouts upstream_error_body_timeout response_write_timeout max_connections).

(** [Config::try_from]; the error is the message of [ErrorKind::Validation]. *)
Definition config_try_from (raw : RawConfig.t) : result string Config.t :=
  gateway_keys ← check_gateway_keys (RawConfig.gateway_token raw) (RawConfig.gateway_keys raw);
  listen ← check_listen (RawConfig.listen raw);
  keys ← check_keys (RawConfig.keys raw);
  models ← check_models (RawConfig.models raw);
  model_sync ← check_model_sync (bool_decide (is_Some (RawConfig.models raw)))
                 (RawConfig.model_sync raw);
  limits ← check_limits (RawConfig.limits raw);
  key_failure_handling ← check_key_failure (RawConfig.key_failure_handling raw);
  usage ← check_usage (RawConfig.usage raw);
  usage_history_dir ← check_usage_history_dir (RawConfig.usage_history_dir raw);
  audit ← check_audit (RawConfig.audit raw);
  server ← check_server (RawConfig.server raw);
  Ok (Config.mk listen gateway_keys keys.1 keys.2 models model_sync limits key_failure_handling
        usage usage_history_dir audit server).

(** ** Loading the file *)

(** What [File::metadata] reports. *)
Record Metadata := mk_metadata { md_is_file : bool; md_mode : Z; md_uid : Z }.

(** [secure_config_metadata] *)
Definition secure_config_metadata (is_file : bool) (mode owner effective_uid : Z) : bool :=
  is_file && (mode =? 384) && (owner =? effective_uid).

(** The calls to the file system, in the order in which they are made. *)
Inductive FileCall (File : Type) :=
| Opened (path : string)
| Examined (file : File)
| WasRead (file : File).
#[global] Arguments Opened {File} path.
#[global] Arguments Examined {File} file.
#[global] Arguments WasRead {File} file.

(** Fallible code that makes such calls; it is given the calls made before it. *)
Definition filing (File E A : Type) : Type := list (FileCall File) -> result E A * list (FileCall File).
#[global] Instance filing_ret File E : MRet (filing File E) := fun A a past => (Ok a, past).
#[global] Instance filing_bind File E : MBind (filing File E) := fun A B k m past =>
  match m past with (Ok a, past) => k a past | (Err e, past) => (Err e, past) end.
Definition call {File E A} (c : FileCall File) (answer : list (FileCall File) -> result E A) : filing File E A :=
  fun past => (answer past, past ++ [c]).
Definition lift_result {File E A} (r : result E A) : filing File E A := fun past => (r, past).

Section Load.
Context {File IoError : Type}.
(** The file system and the process: [open] with [O_NOFOLLOW], [metadata] of
    the open file, [geteuid], and [read_to_string] on it.  What they answer may
    change from call to call. *)
Context (open_nofollow : list (FileCall File) -> string -> result IoError File)
        (metadata : list (FileCall File) -> File -> result IoError Metadata)
        (effective_uid : Z) (read_to_string : list (FileCall File) -> File -> result IoError string).
(** The YAML parser; an error may carry a line and a column. *)
Context (yaml_from_str : string -> result (option (Z * Z)) RawConfig.t).

(** [open_config] on Unix *)
Definition open_config (path : string) : filing File (ErrorKind IoError) File :=
  file ← call (Opened path) (fun past => map_err (Io path) (open_nofollow past path));
  meta ← call (Examined file) (fun past => map_err (Io path) (metadata past file));
  if negb (secure_config_metadata (md_is_file meta) (Z.land (md_mode meta) 511) (md_uid meta) effective_uid)
  then lift_result (Err (Permission path))
  else mret file.

(** [load] *)
Definition load (path : string) : filing File (ErrorKind IoError) Config.t :=
  file ← open_config path;
  contents ← call (WasRead file) (fun past => map_err (Io path) (read_to_string past file));
  lift_result
    (raw ← map_err (fun loc => let '(line, column) := default (0, 0) loc in Parse path line column)
             (yaml_from_str contents);
     map_err Validation (config_try_from raw)).
End Load.

End TryFrom.
