(* ===== verification/ConfigProps.v ===== *)
(** * The configuration: what a validated configuration guarantees *)
From stdpp Require Import pretty.
From S2P Require Export Config.

(** ** Definitions of the specification *)

Definition is_u64 (n : Z) : Prop := 0 <= n <= u64_max.
Definition opt_u64 (o : option Z) : Prop := forall n, o = Some n -> is_u64 n.

Definition limits_typed (l : RawLimits.t) : Prop :=
  opt_u64 (RawLimits.max_concurrency l) /\ opt_u64 (RawLimits.max_queue l)
  /\ opt_u64 (RawLimits.queue_wait_timeout_seconds l) /\ opt_u64 (RawLimits.max_body_bytes l)
  /\ opt_u64 (RawLimits.max_inflight_body_bytes l).

Definition key_failure_typed (k : RawKeyFailureHandling.t) : Prop :=
  opt_u64 (RawKeyFailureHandling.backoff_initial_seconds k)
  /\ opt_u64 (RawKeyFailureHandling.backoff_max_seconds k)
  /\ opt_u64 (RawKeyFailureHandling.breaker_threshold k)
  /\ opt_u64 (RawKeyFailureHandling.breaker_cooldown_seconds k)
  /\ opt_u64 (RawKeyFailureHandling.max_attempts k).

Definition server_typed (s : RawServer.t) : Prop :=
  opt_u64 (RawServer.read_header_timeout_seconds s) /\ opt_u64 (RawServer.max_header_bytes s)
  /\ opt_u64 (RawServer.body_read_timeout_seconds s)
  /\ opt_u64 (RawServer.upstream_response_header_timeout_seconds s)
  /\ opt_u64 (RawServer.first_event_timeout_seconds s)
  /\ opt_u64 (RawServer.inter_event_timeout_seconds s)
  /\ (forall m p, RawServer.model_event_timeouts s !! m = Some p ->
        opt_u64 (RawEventTimeouts.first_event_timeout_seconds p)
        /\ opt_u64 (RawEventTimeouts.inter_event_timeout_seconds p))
  /\ opt_u64 (RawServer.upstream_error_body_timeout_seconds s)
  /\ opt_u64 (RawServer.response_write_timeout_seconds s)
  /\ opt_u64 (RawServer.max_connections s).

(** The integers of the document are in the range of their Rust types. *)
Record raw_typed (raw : RawConfig.t) : Prop := {
  rt_model_sync : forall m, RawConfig.model_sync raw = Some m -> opt_u64 (RawModelSync.interval_seconds m);
  rt_limits : forall l, RawConfig.limits raw = Some l -> limits_typed l;
  rt_key_failure : forall k, RawConfig.key_failure_handling raw = Some k -> key_failure_typed k;
  rt_usage : forall u, RawConfig.usage raw = Some u -> opt_u64 (RawUsage.poll_interval_seconds u);
  rt_audit : forall a, RawConfig.audit raw = Some a -> opt_u64 (RawAudit.queue_capacity a);
  rt_server : forall s, RawConfig.server raw = Some s -> server_typed s;
}.

(** A timeout: positive and representable. *)
Definition timeout_ok (d : Duration) : Prop := 0 < d <= DURATION_MAX.

Definition limits_valid (MAX_PERMITS : Z) (l : Limits.t) : Prop :=
  1 <= Limits.max_concurrency l <= MAX_PERMITS
  /\ 0 <= Limits.max_queue l <= MAX_PERMITS
  /\ timeout_ok (Limits.queue_wait_timeout l)
  /\ 1 <= Limits.max_body_bytes l <= Limits.max_inflight_body_bytes l
  /\ Limits.max_inflight_body_bytes l <= u32_max.

Definition key_failure_valid (k : KeyFailureHandling.t) : Prop :=
  0 < KeyFailureHandling.backoff_initial k <= KeyFailureHandling.backoff_max k
  /\ KeyFailureHandling.backoff_max k <= MAX_COOLDOWN
  /\ 1 <= KeyFailureHandling.breaker_threshold k <= u32_max
  /\ timeout_ok (KeyFailureHandling.breaker_cooldown k)
  /\ 1 <= KeyFailureHandling.max_attempts k <= 2.

(** A percentage in (0, 100]; a NaN compares with nothing. *)
Definition percent_valid (x : f64) : Prop :=
  SFltb (f64_of_Z 0) x = true /\ SFleb x (f64_of_Z 100) = true.

Definition name_ok (max : Z) (s : string) : Prop := is_blank s = false /\ str_len s <= max.

Definition server_valid (s : Server.t) : Prop :=
  timeout_ok (Server.read_header_timeout s)
  /\ 8192 <= Server.max_header_bytes s <= u32_max
  /\ timeout_ok (Server.body_read_timeout s)
  /\ timeout_ok (Server.upstream_response_header_timeout s)
  /\ timeout_ok (Server.first_event_timeout s)
  /\ timeout_ok (Server.inter_event_timeout s)
  /\ (forall m t, Server.model_event_timeouts s !! m = Some t -> name_ok MAX_MODEL_BYTES m
        /\ timeout_ok (EventTimeouts.first_event_timeout t)
        /\ timeout_ok (EventTimeouts.inter_event_timeout t))
  /\ timeout_ok (Server.upstream_error_body_timeout s)
  /\ timeout_ok (Server.response_write_timeout s)
  /\ 1 <= Server.max_connections s <= MAX_CONNECTIONS_CEILING.

(** Everything the rest of the program relies on. *)
Record config_valid (MAX_PERMITS : Z) (c : Config.t) : Prop := {
  cv_loopback : is_loopback (addr_ip (Config.listen c)) = true;
  cv_gateway_nonempty : Config.gateway_keys c <> [];
  cv_gateway_tokens : Forall (fun k => is_blank (as_str (gk_token k)) = false) (Config.gateway_keys c);
  cv_gateway_names : Forall (fun k => name_ok 128 (gk_name k)) (Config.gateway_keys c);
  cv_gateway_names_unique : NoDup (gk_name <$> Config.gateway_keys c);
  cv_gateway_tokens_unique : NoDup (gk_token <$> Config.gateway_keys c);
  cv_keys_nonempty : Config.keys c <> [];
  cv_keys : Forall (fun k => is_blank (as_str k) = false) (Config.keys c);
  cv_keys_unique : NoDup (Config.keys c);
  cv_models_nonempty : Config.models c <> [];
  cv_models : Forall (name_ok MAX_MODEL_BYTES) (Config.models c);
  cv_models_unique : NoDup (Config.models c);
  cv_model_sync : Dur.from_secs 30 <= ModelSync.interval (Config.model_sync c) <= DURATION_MAX;
  cv_limits : limits_valid MAX_PERMITS (Config.limits c);
  cv_key_failure : key_failure_valid (Config.key_failure_handling c);
  cv_percent : percent_valid (Usage.soft_threshold_percent (Config.usage c));
  cv_poll : Dur.from_secs 30 <= Usage.poll_interval (Config.usage c) <= DURATION_MAX;
  cv_history_dir : Config.usage_history_dir c <> "";
  cv_audit_path : is_blank (Audit.path (Config.audit c)) = false;
  cv_audit_capacity : 1 <= Audit.queue_capacity (Config.audit c) <= u64_max;
  cv_server : server_valid (Config.server c);
}.

(** The timeouts a model runs with: its own values, or the global ones. *)
Definition inherited_timeouts (s : Server.t) (p : RawEventTimeouts.t) : EventTimeouts.t :=
  EventTimeouts.mk
    (default (Server.first_event_timeout s) (Dur.from_secs <$> RawEventTimeouts.first_event_timeout_seconds p))
    (default (Server.inter_event_timeout s) (Dur.from_secs <$> RawEventTimeouts.inter_event_timeout_seconds p)).

Definition raw_key_value (k : RawKey) : string := match k with Plain k | Named k _ => k end.
Definition raw_key_name (k : RawKey) : option string :=
  match k with Plain _ => None | Named _ n => n end.

(** The messages a rejected configuration can produce: fixed texts, none of
    which contains a value of the document. *)
Definition validation_messages (MAX_PERMITS : Z) : list string :=
  [ "set either gateway_token or gateway_keys, not both";
    "gateway token must be non-empty";
    "at least one gateway key is required";
    "gateway key names must be non-blank and at most 128 bytes";
    "gateway key tokens must be non-empty";
    "gateway key names must be unique";
    "gateway key tokens must be unique";
    "gateway_token or gateway_keys must be set";
    "listen.host must be a valid IP address";
    "listen.host must be a loopback address; expose the service through nginx";
    "at least one upstream key is required";
    "upstream keys must be non-empty";
    "upstream key names must be non-blank and at most 128 bytes";
    "upstream keys must not contain duplicates";
    "models must not be empty";
    "models must contain only non-blank model names";
    "models must not exceed 256 bytes per value";
    "models must not contain duplicates";
    "model_sync.interval_seconds must be at least 30";
    "limits.max_concurrency must be at least 1";
    "limits.max_concurrency must be at most " +:+ pretty MAX_PERMITS +:+ " (tokio semaphore permits)";
    "limits.max_queue must be at most " +:+ pretty MAX_PERMITS +:+ " (tokio semaphore permits)";
    "limits.queue_wait_timeout_seconds must be greater than zero";
    "limits.max_body_bytes must be at least 1 byte";
    "limits.max_body_bytes must fit u32 (body reservations are u32 semaphore permits)";
    "limits.max_inflight_body_bytes must be at least 1 byte";
    "limits.max_inflight_body_bytes must fit u32 (semaphore permits are u32)";
    "limits.max_inflight_body_bytes must be >= limits.max_body_bytes";
    "key_failure_handling.soft_threshold is no longer supported; remove it from the config";
    "key_failure_handling.backoff_initial_seconds must be greater than zero";
    "key_failure_handling.backoff_max_seconds must be greater than zero";
    "key_failure_handling.backoff_max_seconds must be >= key_failure_handling.backoff_initial_seconds";
    "key_failure_handling.backoff_max_seconds must be at most the ops cooldown ceiling (7776000 seconds)";
    "key_failure_handling.breaker_threshold must be at least 1";
    "key_failure_handling.breaker_threshold must fit u32 (the key pool breaker counts failures in u32)";
    "key_failure_handling.breaker_cooldown_seconds must be greater than zero";
    "key_failure_handling.max_attempts must be between 1 and 2";
    "usage.soft_threshold_percent must be finite and in (0, 100]";
    "usage.poll_interval_seconds must be at least 30";
    "usage_history_dir must not be empty";
    "audit.queue_capacity must be at least 1";
    "server.read_header_timeout_seconds must be greater than zero";
    "server.max_header_bytes must be at least 8192 bytes (HTTP/1 minimum)";
    "server.max_header_bytes must fit u32 (hyper's HTTP/2 header-list cap is u32)";
    "server.body_read_timeout_seconds must be greater than zero";
    "server.upstream_response_header_timeout_seconds must be greater than zero";
    "server.first_event_timeout_seconds must be greater than zero";
    "server.inter_event_timeout_seconds must be greater than zero";
    "server.model_event_timeouts model names must be non-blank and at most 256 bytes";
    "server.model_event_timeouts values must be greater than zero";
    "server.upstream_error_body_timeout_seconds must be greater than zero";
    "server.response_write_timeout_seconds must be greater than zero";
    "server.max_connections must be at least 1";
    "server.max_connections must be at most 65536 (the systemd LimitNOFILE FD budget)" ].

(** ** Reading a chain of checks *)

Lemma bail_then_ok {E A} (c : bool) (e : E) (k : result E A) x :
  (bail_if c e ;; k) = Ok x <-> c = false /\ k = Ok x.
Proof. destruct c; simpl; split; [done | by intros [? _] | done | by intros [_ ?]]. Qed.

Lemma bail_then_err {E A} (c : bool) (e e' : E) (k : result E A) :
  (bail_if c e ;; k) = Err e' -> e = e' \/ k = Err e'.
Proof. destruct c; simpl; [intros [= ->]; auto | auto]. Qed.

Lemma bind_err {E A B} (m : result E A) (k : A -> result E B) e :
  (m ≫= k) = Err e -> m = Err e \/ exists a, m = Ok a /\ k a = Err e.
Proof. destruct m; simpl; [eauto | intros [= ->]; auto]. Qed.

Lemma try_fold_err {E A B} (f : B -> A -> result E B) acc xs e :
  try_fold f acc xs = Err e -> exists acc' x, x ∈ xs /\ f acc' x = Err e.
Proof.
  revert acc; induction xs as [| x xs IH]; intros acc; simpl; [done |].
  destruct (f acc x) as [acc' | e'] eqn:Hf.
  - intros (a & y & Hy & Hfy)%IH. exists a, y. split; [by right | done].
  - intros [= ->]. exists acc, x. split; [by left | done].
Qed.

(** Break a successful chain of checks into facts. *)
Ltac invert_checks :=
  repeat match goal with
  | H : (bail_if _ _ ;; _) = Ok _ |- _ => apply bail_then_ok in H as [? H]
  | H : (_ ≫= _) = Ok _ |- _ => apply result_bind_ok in H as (? & ? & H)
  | H : Ok _ = Ok _ |- _ => injection H as <-
  | H : ok_or _ _ = Ok _ |- _ => unfold ok_or in H; case_match; simplify_eq
  end.

Lemma SFleb_negb_SFltb x y :
  x <> S754_nan -> y <> S754_nan -> SFltb y x = negb (SFleb x y).
Proof.
  unfold SFltb, SFleb. intros Hx Hy.
  destruct x as [s | s | | s m e], y as [t | t | | t n f]; try done; cbn;
    try (by destruct s); try (by destruct t); destruct s, t; cbn; try done.
  all: rewrite (Z.compare_antisym e f);
    change (PosDef.Pos.compare_cont Eq n m) with (Pos.compare n m);
    change (PosDef.Pos.compare_cont Eq m n) with (Pos.compare m n);
    rewrite (Pos.compare_antisym m n);
    destruct (e ?= f); cbn; try done; by destruct (Pos.compare m n).
Qed.

Lemma percent_check x :
  negb (is_finite x) || SFleb x (f64_of_Z 0) || SFltb (f64_of_Z 100) x = false <-> percent_valid x.
Proof.
  unfold percent_valid. rewrite !orb_false_iff, negb_false_iff.
  assert (x = S754_nan \/ x <> S754_nan) as [-> | Hnan] by (destruct x; auto);
    [by split; [intros [[? _] _] | intros [? _]] |].
  rewrite (SFleb_negb_SFltb x (f64_of_Z 100)) by done.
  assert (SFleb x (f64_of_Z 0) = negb (SFltb (f64_of_Z 0) x)) as ->.
  { rewrite SFleb_negb_SFltb by done. by rewrite negb_involutive. }
  rewrite !negb_false_iff. split; [tauto |]. intros [H0 H1]. split_and!; try done.
  destruct x as [| [] | | ]; done.
Qed.

(** ** The groups of checks *)

Lemma opt_u64_none : opt_u64 None.
Proof. intros n [=]. Qed.

Lemma default_u64 o d : opt_u64 o -> is_u64 d -> is_u64 (default d o).
Proof. intros Ho Hd. destruct o; simpl; auto. Qed.

Lemma from_secs_range n : is_u64 n -> 0 <= Dur.from_secs n <= DURATION_MAX.
Proof. unfold is_u64. width_lia. Qed.

Lemma secs_or_range o d :
  opt_u64 o -> 0 <= d <= DURATION_MAX -> 0 <= secs_or o d <= DURATION_MAX.
Proof. intros Ho Hd. destruct o; simpl; [by apply from_secs_range, Ho | done]. Qed.

Lemma secs_or_timeout o d :
  opt_u64 o -> 0 <= d <= DURATION_MAX -> Dur.is_zero (secs_or o d) = false ->
  timeout_ok (secs_or o d).
Proof.
  intros Ho Hd Hz. pose proof (secs_or_range o d Ho Hd). apply Z.eqb_neq in Hz.
  unfold timeout_ok. lia.
Qed.

Lemma default_typed {A} (o : option A) (d : A) (P : A -> Prop) :
  (forall a, o = Some a -> P a) -> P d -> P (default d o).
Proof. intros Ho Hd. destruct o; simpl; auto. Qed.

(** The defaults are in range. *)
Ltac const_range := unfold is_u64; cbv; split; congruence.

Ltac timeout_tac :=
  apply secs_or_timeout; [done | by split; cbv | first [done | by apply Z.eqb_neq]].

Lemma check_limits_sound MAX_PERMITS raw l :
  (forall r, raw = Some r -> limits_typed r) ->
  check_limits MAX_PERMITS raw = Ok l -> limits_valid MAX_PERMITS l.
Proof.
  intros Htyped Hrun.
  assert (limits_typed (default RawLimits.default raw)) as (H1 & H2 & H3 & H4 & H5).
  { apply default_typed; [done |]. split_and!; apply opt_u64_none. }
  unfold check_limits in Hrun. cbv zeta in Hrun. invert_checks. bool_to_prop.
  pose proof (default_u64 _ DEFAULT_MAX_CONCURRENCY H1 ltac:(const_range)).
  pose proof (default_u64 _ DEFAULT_MAX_QUEUE H2 ltac:(const_range)).
  pose proof (default_u64 _ DEFAULT_MAX_BODY_BYTES H4 ltac:(const_range)).
  pose proof (default_u64 _ DEFAULT_MAX_INFLIGHT_BODY_BYTES H5 ltac:(const_range)).
  unfold limits_valid, is_u64 in *. cbn.
  split_and!; try lia; timeout_tac.
Qed.

Lemma check_key_failure_sound raw k :
  (forall r, raw = Some r -> key_failure_typed r) ->
  check_key_failure raw = Ok k -> key_failure_valid k.
Proof.
  intros Htyped Hrun.
  assert (key_failure_typed (default RawKeyFailureHandling.default raw)) as (H1 & H2 & H3 & H4 & H5).
  { apply default_typed; [done |]. split_and!; apply opt_u64_none. }
  unfold check_key_failure in Hrun. cbv zeta in Hrun. invert_checks.
  pose proof (secs_or_range _ DEFAULT_BACKOFF_INITIAL H1 ltac:(by split; cbv)).
  pose proof (default_u64 _ DEFAULT_BREAKER_THRESHOLD H3 ltac:(const_range)).
  pose proof (default_u64 _ DEFAULT_MAX_ATTEMPTS H5 ltac:(const_range)).
  unfold key_failure_valid, is_u64 in *. cbn. unfold Dur.is_zero in *.
  bool_to_prop.
  split_and!; try lia; timeout_tac.
Qed.

Lemma check_usage_sound raw u :
  (forall r, raw = Some r -> opt_u64 (RawUsage.poll_interval_seconds r)) ->
  check_usage raw = Ok u ->
  percent_valid (Usage.soft_threshold_percent u)
  /\ Dur.from_secs 30 <= Usage.poll_interval u <= DURATION_MAX.
Proof.
  intros Htyped Hrun.
  assert (opt_u64 (RawUsage.poll_interval_seconds (default RawUsage.default raw))) as Hp
    by (apply (default_typed raw RawUsage.default
                 (fun r => opt_u64 (RawUsage.poll_interval_seconds r))); [done | apply opt_u64_none]).
  unfold check_usage in Hrun. cbv zeta in Hrun.
  apply bail_then_ok in Hrun as [Hpc%percent_check Hrun]. invert_checks. cbn. split; [done |].
  pose proof (secs_or_range _ DEFAULT_USAGE_POLL_INTERVAL Hp ltac:(by split; cbv)).
  bool_to_prop. lia.
Qed.

Lemma check_audit_sound raw a :
  (forall r, raw = Some r -> opt_u64 (RawAudit.queue_capacity r)) ->
  check_audit raw = Ok a ->
  is_blank (Audit.path a) = false /\ 1 <= Audit.queue_capacity a <= u64_max.
Proof.
  intros Htyped Hrun.
  assert (opt_u64 (RawAudit.queue_capacity (default RawAudit.default raw))) as Hp
    by (apply (default_typed raw RawAudit.default
                 (fun r => opt_u64 (RawAudit.queue_capacity r))); [done | apply opt_u64_none]).
  unfold check_audit in Hrun. cbv zeta in Hrun. invert_checks. cbn. split.
  - destruct (RawAudit.path _) as [p |]; [| reflexivity].
    destruct (is_blank p) eqn:Hb; simpl; [reflexivity | done].
  - pose proof (default_u64 _ DEFAULT_AUDIT_QUEUE_CAPACITY Hp ltac:(const_range)).
    unfold is_u64 in *. bool_to_prop. lia.
Qed.

Lemma check_model_sync_sound manual raw m :
  (forall r, raw = Some r -> opt_u64 (RawModelSync.interval_seconds r)) ->
  check_model_sync manual raw = Ok m ->
  Dur.from_secs 30 <= ModelSync.interval m <= DURATION_MAX.
Proof.
  intros Htyped Hrun.
  assert (opt_u64 (RawModelSync.interval_seconds (default RawModelSync.default raw))) as Hp
    by (apply (default_typed raw RawModelSync.default
                 (fun r => opt_u64 (RawModelSync.interval_seconds r))); [done | apply opt_u64_none]).
  unfold check_model_sync in Hrun. cbv zeta in Hrun. invert_checks. cbn. bool_to_prop.
  pose proof (from_secs_range _
    (default_u64 _ (Dur.as_secs DEFAULT_MODEL_SYNC_INTERVAL) Hp ltac:(const_range))). lia.
Qed.

Lemma check_listen_sound raw a : check_listen raw = Ok a -> is_loopback (addr_ip a) = true.
Proof.
  unfold check_listen. intros Hrun. invert_checks. simpl. by bool_to_prop.
Qed.

(** ** Loops with hash sets *)

(** A loop that tests every element and refuses a key it has seen accepts
    exactly the lists of good elements with distinct new keys. *)
Lemma try_fold_unique {E A B} (f : B -> A -> result E B) (seen : B -> gset string)
    (key : A -> string) (good : A -> Prop) :
  (forall acc x, match f acc x with
     | Ok acc' => good x /\ (key x ∉ seen acc) /\ seen acc' = {[key x]} ∪ seen acc
     | Err _ => ~ (good x /\ (key x ∉ seen acc))
     end) ->
  forall xs acc,
    is_ok (try_fold f acc xs) = true <->
    Forall good xs /\ NoDup (key <$> xs) /\ Forall (fun x => key x ∉ seen acc) xs.
Proof.
  intros Hf xs. induction xs as [| x xs IH]; intros acc; cbn [try_fold].
  - split; [intros _; split_and!; constructor | done].
  - rewrite fmap_cons, NoDup_cons, !Forall_cons. specialize (Hf acc x).
    destruct (f acc x) as [acc' |].
    + destruct Hf as (Hg & Hk & Hs). rewrite IH, Hs. split.
      * intros (Hgs & Hnd & Hnew). rewrite Forall_forall in Hnew. split_and!; try done.
        -- intros (y & Hy & Hin)%list_elem_of_fmap. apply (Hnew y Hin). rewrite Hy. set_solver.
        -- apply Forall_forall. intros y Hin. specialize (Hnew y Hin). set_solver.
      * intros ((_ & Hgs) & (Hnin & Hnd) & (_ & Hnew)). rewrite Forall_forall in Hnew.
        split_and!; try done. apply Forall_forall. intros y Hin.
        apply not_elem_of_union. split; [| by apply Hnew].
        intros Heq%elem_of_singleton. apply Hnin. rewrite <- Heq. by apply list_elem_of_fmap_2.
    + split; [done |]. intros ((Hg & _) & _ & (Hk & _)). destruct Hf. done.
Qed.

Lemma insert_new_step msg acc x :
  match insert_new msg acc x with
  | Ok acc' => True /\ (x ∉ acc) /\ acc' = {[x]} ∪ acc
  | Err _ => ~ (True /\ (x ∉ acc))
  end.
Proof. unfold insert_new. case_bool_decide; simpl; tauto. Qed.

Lemma is_ok_true {E A} (r : result E A) : is_ok r = true <-> exists a, r = Ok a.
Proof. destruct r; simpl; split; eauto; [done | by intros [? [=]]]. Qed.

Lemma unique_loop msg xs :
  (exists out, try_fold (insert_new msg) ∅ xs = Ok out) <-> NoDup xs.
Proof.
  rewrite <- is_ok_true, (try_fold_unique _ id id (fun _ => True)); [| apply insert_new_step].
  rewrite list_fmap_id. split; [tauto |]. intros Hnd. split_and!; try done.
  - by apply Forall_true.
  - apply Forall_true. intros x. apply not_elem_of_empty.
Qed.

Lemma check_model_step acc m :
  match check_model acc m with
  | Ok acc' => name_ok MAX_MODEL_BYTES m /\ (m ∉ acc) /\ acc' = {[m]} ∪ acc
  | Err _ => ~ (name_ok MAX_MODEL_BYTES m /\ (m ∉ acc))
  end.
Proof.
  unfold check_model, insert_new, name_ok.
  destruct (is_blank m); simpl; [by intros [[? _] _] |].
  destruct (Z.ltb_spec MAX_MODEL_BYTES (str_len m)); simpl; [lia |].
  case_bool_decide; simpl; tauto.
Qed.

Lemma check_models_spec raw ms :
  check_models raw = Ok ms <->
  match raw with
  | Some l => ms = l /\ l <> [] /\ Forall (name_ok MAX_MODEL_BYTES) l /\ NoDup l
  | None => ms = DEFAULT_MODELS
  end.
Proof.
  destruct raw as [l |]; simpl; [| by split; [intros [= <-] | intros ->]].
  assert ((exists out, try_fold check_model ∅ l = Ok out) <->
          Forall (name_ok MAX_MODEL_BYTES) l /\ NoDup l) as Hloop.
  { rewrite <- is_ok_true, (try_fold_unique _ id id); [| apply check_model_step].
    rewrite list_fmap_id. split; [tauto |]. intros [? ?]. split_and!; try done.
    apply Forall_true. intros x. apply not_elem_of_empty. }
  rewrite bail_then_ok, bool_decide_eq_false, result_bind_ok.
  split; [intros (? & out & Hout & [= <-]) | intros (-> & ? & Hl)].
  - split_and!; try done; apply Hloop; eauto.
  - apply Hloop in Hl as [out Hout]. eauto.
Qed.

(** The gateway keys of a document. *)
Definition gateway_entry_ok (e : RawGatewayKey) : Prop :=
  name_ok 128 (rgk_name e) /\ is_blank (rgk_token e) = false.
Definition to_gateway_key (e : RawGatewayKey) : GatewayKey :=
  mk_gateway_key (rgk_name e) (secret_new (rgk_token e)).

Lemma bad_name_false max s : bad_name max s = false <-> name_ok max s.
Proof. unfold bad_name, name_ok. by rewrite orb_false_iff, Z.ltb_ge. Qed.

Lemma gateway_loop es : forall names tokens keys out,
  try_fold add_gateway_key (names, tokens, keys) es = Ok out ->
  out.2 = keys ++ (to_gateway_key <$> es)
  /\ Forall gateway_entry_ok es
  /\ NoDup (rgk_name <$> es) /\ Forall (fun e => rgk_name e ∉ names) es
  /\ NoDup (rgk_token <$> es) /\ Forall (fun e => rgk_token e ∉ tokens) es.
Proof.
  induction es as [| e es IH]; intros names tokens keys out; cbn [try_fold].
  - intros [= <-]. simpl. split_and!; try constructor. by rewrite app_nil_r.
  - destruct (add_gateway_key (names, tokens, keys) e) as [acc |] eqn:Hadd; [| done].
    unfold add_gateway_key in Hadd. invert_checks. bool_to_prop.
    intros (Hout & Hgood & Hn & Hnn & Ht & Htn)%IH.
    rewrite !fmap_cons, !NoDup_cons, !Forall_cons.
    rewrite Forall_forall in Hnn, Htn.
    split_and!; try done.
    + rewrite Hout, <- app_assoc. done.
    + split; [by apply bad_name_false | done].
    + intros (y & Hy & Hin)%list_elem_of_fmap. specialize (Hnn y Hin). set_solver.
    + apply Forall_forall. intros y Hin. specialize (Hnn y Hin). set_solver.
    + intros (y & Hy & Hin)%list_elem_of_fmap. specialize (Htn y Hin). set_solver.
    + apply Forall_forall. intros y Hin. specialize (Htn y Hin). set_solver.
Qed.

Lemma check_gateway_keys_sound token raw ks :
  check_gateway_keys token raw = Ok ks ->
  match token, raw with
  | Some t, None => ks = [mk_gateway_key "legacy" (secret_new t)] /\ is_blank t = false
  | None, Some es => es <> [] /\ ks = to_gateway_key <$> es /\ Forall gateway_entry_ok es
      /\ NoDup (rgk_name <$> es) /\ NoDup (rgk_token <$> es)
  | _, _ => False
  end.
Proof.
  unfold check_gateway_keys. intros [Hboth Hrun]%bail_then_ok.
  destruct token as [t |], raw as [es |]; try done.
  - by apply bail_then_ok in Hrun as [Hb [= <-]].
  - apply bail_then_ok in Hrun as [Hne (acc & Hloop & [= <-])%result_bind_ok].
    apply bool_decide_eq_false in Hne.
    apply gateway_loop in Hloop as (Hout & ? & ? & _ & ? & _). done.
Qed.

Lemma check_gateway_keys_valid token raw ks :
  check_gateway_keys token raw = Ok ks ->
  ks <> [] /\ Forall (fun k => is_blank (as_str (gk_token k)) = false) ks
  /\ Forall (fun k => name_ok 128 (gk_name k)) ks
  /\ NoDup (gk_name <$> ks) /\ NoDup (gk_token <$> ks).
Proof.
  intros Hgk%check_gateway_keys_sound. destruct token as [t |], raw as [es |]; try done.
  - destruct Hgk as [-> Hb].
    split_and!; try apply NoDup_singleton; try done; repeat constructor; done.
  - destruct Hgk as (He & -> & Hg & Hn & Ht). rewrite !Forall_fmap, <- !list_fmap_compose.
    split_and!.
    + by intros ?%fmap_nil_inv.
    + eapply Forall_impl; [exact Hg |]. by intros ? [_ ?].
    + eapply Forall_impl; [exact Hg |]. by intros ? [? _].
    + exact Hn.
    + change (gk_token ∘ to_gateway_key) with (secret_new ∘ rgk_token).
      rewrite list_fmap_compose. by apply (NoDup_fmap_2 secret_new).
Qed.

(** ** The upstream keys *)

Section Keys.
Context `{Sha256}.

Definition raw_key_ok (k : RawKey) : Prop :=
  is_blank (raw_key_value k) = false /\ forall n, raw_key_name k = Some n -> name_ok 128 n.

(** The alias table holds, for every fingerprint, the name of the last key of
    the list with that fingerprint and a name. *)
Definition alias_of (l : list RawKey) (fp : string) : option string :=
  foldl (fun acc k => if bool_decide (fingerprint (raw_key_value k) = fp)
                      then match raw_key_name k with Some n => Some n | None => acc end
                      else acc) None l.

Lemma add_upstream_key_inv acc k acc' :
  add_upstream_key acc k = Ok acc' ->
  raw_key_ok k /\ acc'.1 = acc.1 ++ [raw_key_value k]
  /\ acc'.2 = match raw_key_name k with
              | Some n => <[fingerprint (raw_key_value k) := n]> acc.2
              | None => acc.2
              end.
Proof.
  destruct acc as [keys aliases]. unfold add_upstream_key.
  destruct k as [key | key [name |]]; intros [Hb Hrun]%bail_then_ok; unfold raw_key_ok; cbn.
  - by injection Hrun as <-.
  - apply bail_then_ok in Hrun as [Hn%bad_name_false [= <-]]. split_and!; try done.
    by intros n [= <-].
  - by injection Hrun as <-.
Qed.

Lemma upstream_loop l acc :
  try_fold add_upstream_key ([], ∅) l = Ok acc ->
  Forall raw_key_ok l /\ acc.1 = raw_key_value <$> l /\ forall fp, acc.2 !! fp = alias_of l fp.
Proof.
  intros Hrun.
  apply (try_fold_inv add_upstream_key (fun l acc =>
    Forall raw_key_ok l /\ acc.1 = raw_key_value <$> l /\ forall fp, acc.2 !! fp = alias_of l fp))
    with (done := []) in Hrun; [exact Hrun | | split_and!; [constructor | done | done]].
  clear. intros done acc k acc' (Hok & Hkeys & Hal) (Hk & Hk' & Ha)%add_upstream_key_inv. split_and!.
  - apply Forall_app. auto.
  - by rewrite Hk', Hkeys, fmap_app.
  - intros fp. unfold alias_of in *. rewrite Ha, foldl_app. simpl.
    destruct (raw_key_name k) as [n |]; case_bool_decide as Hfp; try by rewrite Hal.
    + rewrite Hfp. by rewrite lookup_insert_eq.
    + by rewrite lookup_insert_ne, Hal.
Qed.

Lemma check_keys_sound raw ks aliases :
  check_keys raw = Ok (ks, aliases) ->
  exists l, raw = Some l /\ l <> [] /\ Forall raw_key_ok l
    /\ ks = secret_new ∘ raw_key_value <$> l /\ NoDup (raw_key_value <$> l)
    /\ forall fp, aliases !! fp = alias_of l fp.
Proof.
  unfold check_keys. intros [Hne (acc & Hloop & (u & Hu & [= <- <-])%result_bind_ok)%result_bind_ok]%bail_then_ok.
  apply bool_decide_eq_false in Hne. destruct raw as [l |]; [| done]. exists l.
  apply upstream_loop in Hloop as (Hok & Hkeys & Hal). cbn [default from_option id] in *.
  split_and!; try done.
  - rewrite Hkeys. by rewrite <- list_fmap_compose.
  - rewrite <- Hkeys. apply (unique_loop "upstream keys must not contain duplicates"). eauto.
Qed.

End Keys.

(** ** The server section *)

Lemma event_loop first inter l acc out :
  NoDup l.*1 ->
  try_fold (add_event_timeouts first inter) acc l = Ok out ->
  (forall m p, (m, p) ∈ l ->
     name_ok MAX_MODEL_BYTES m
     /\ let t := EventTimeouts.mk
          (Dur.from_secs (default (Dur.as_secs first) (RawEventTimeouts.first_event_timeout_seconds p)))
          (Dur.from_secs (default (Dur.as_secs inter) (RawEventTimeouts.inter_event_timeout_seconds p))) in
        out !! m = Some t /\ EventTimeouts.first_event_timeout t <> 0
        /\ EventTimeouts.inter_event_timeout t <> 0)
  /\ forall m, (m ∉ l.*1) -> out !! m = acc !! m.
Proof.
  revert acc; induction l as [| [m p] l IH]; intros acc Hnd; cbn [try_fold].
  - intros [= <-]. split; [| done]. by intros m p ?%not_elem_of_nil.
  - destruct (add_event_timeouts first inter acc (m, p)) as [acc' |] eqn:Hadd; [| done].
    unfold add_event_timeouts in Hadd. cbv zeta in Hadd. invert_checks. bool_to_prop.
    rewrite fmap_cons, NoDup_cons in Hnd. destruct Hnd as [Hnin Hnd].
    intros [Hin Hout]%IH; [| done]. split.
    + intros m' p' [[= -> ->] | Hl]%elem_of_cons; [| by apply Hin].
      split; [by apply bad_name_false |]. cbv zeta. unfold Dur.is_zero in *. cbn. bool_to_prop.
      split_and!; [| done | done]. rewrite Hout by done. by rewrite lookup_insert_eq.
    + intros m'. rewrite fmap_cons, not_elem_of_cons. intros [Hne Hm']. rewrite Hout by done.
      by rewrite lookup_insert_ne.
Qed.

Lemma elem_of_btree_iter {A} (m : gmap string A) x : x ∈ btree_iter m <-> m !! x.1 = Some x.2.
Proof.
  unfold btree_iter. rewrite merge_sort_Permutation. destruct x. apply elem_of_map_to_list.
Qed.

Lemma btree_iter_nodup {A} (m : gmap string A) : NoDup (btree_iter m).*1.
Proof. unfold btree_iter. rewrite merge_sort_Permutation. apply NoDup_fst_map_to_list. Qed.

(** Whole seconds survive [Duration::from_secs(d.as_secs())]. *)
Lemma from_as_secs n : Dur.from_secs (Dur.as_secs (Dur.from_secs n)) = Dur.from_secs n.
Proof. unfold Dur.from_secs, Dur.as_secs. by rewrite Z.div_mul. Qed.

Lemma secs_or_whole o n : exists k, secs_or o (Dur.from_secs n) = Dur.from_secs k.
Proof. destruct o; simpl; eauto. Qed.

Lemma default_from_secs o d :
  (exists k, d = Dur.from_secs k) ->
  Dur.from_secs (default (Dur.as_secs d) o) = default d (Dur.from_secs <$> o).
Proof. intros [k ->]. destruct o; simpl; [done | apply from_as_secs]. Qed.

Lemma default_secs_range o d :
  opt_u64 o -> timeout_ok d -> default d (Dur.from_secs <$> o) <> 0 ->
  timeout_ok (default d (Dur.from_secs <$> o)).
Proof.
  intros Ho Hd Hne. destruct o as [n |]; simpl in *; [| done].
  pose proof (from_secs_range n (Ho n eq_refl)). unfold timeout_ok. lia.
Qed.

Lemma check_server_sound raw s :
  (forall r, raw = Some r -> server_typed r) ->
  check_server raw = Ok s ->
  server_valid s
  /\ forall m, Server.model_event_timeouts s !! m =
       inherited_timeouts s <$> RawServer.model_event_timeouts (default RawServer.default raw) !! m.
Proof.
  intros Htyped Hrun.
  assert (server_typed (default RawServer.default raw)) as Ht.
  { apply default_typed; [done |]. split_and!; try apply opt_u64_none.
    intros m p Hm. cbn in Hm. by rewrite lookup_empty in Hm. }
  destruct Ht as (H1 & H2 & H3 & H4 & H5 & H6 & H7 & H8 & H9 & H10).
  unfold check_server in Hrun. cbv zeta in Hrun. invert_checks.
  pose proof (default_u64 _ DEFAULT_MAX_CONNECTIONS H10 ltac:(const_range)) as Hconn.
  match goal with H : try_fold _ _ _ = Ok _ |- _ => rename H into Hloop end.
  apply event_loop in Hloop as [Hin Hout]; [| apply btree_iter_nodup].
  assert (forall m, x !! m = inherited_timeouts (Server.mk
    (secs_or (RawServer.read_header_timeout_seconds (default RawServer.default raw)) DEFAULT_READ_HEADER_TIMEOUT)
    0 0 0 (secs_or (RawServer.first_event_timeout_seconds (default RawServer.default raw)) DEFAULT_FIRST_EVENT_TIMEOUT)
    (secs_or (RawServer.inter_event_timeout_seconds (default RawServer.default raw)) DEFAULT_INTER_EVENT_TIMEOUT)
    ∅ 0 0 0) <$> RawServer.model_event_timeouts (default RawServer.default raw) !! m) as Hmap.
  { intros m. destruct (RawServer.model_event_timeouts _ !! m) as [p |] eqn:Hp; simpl.
    - destruct (Hin m p) as (_ & Hm & _); [by apply elem_of_btree_iter |]. rewrite Hm.
      unfold inherited_timeouts. cbn. by rewrite !default_from_secs by apply secs_or_whole.
    - rewrite Hout; [apply lookup_empty |]. intros ([m' p] & -> & Hmp)%list_elem_of_fmap.
      apply elem_of_btree_iter in Hmp. simpl in *. congruence. }
  split; [| exact Hmap]. unfold server_valid, is_u64 in *. cbn.
  assert (timeout_ok (secs_or (RawServer.first_event_timeout_seconds (default RawServer.default raw))
                        DEFAULT_FIRST_EVENT_TIMEOUT)) as Hf by timeout_tac.
  assert (timeout_ok (secs_or (RawServer.inter_event_timeout_seconds (default RawServer.default raw))
                        DEFAULT_INTER_EVENT_TIMEOUT)) as Hi by timeout_tac.
  bool_to_prop. split_and!; try done; try timeout_tac; try lia.
  intros m t Hmt. rewrite Hmap in Hmt. destruct (RawServer.model_event_timeouts _ !! m) as [p |] eqn:Hp;
    [| done].
  destruct (Hin m p) as (Hname & Hm & Hnz1 & Hnz2); [by apply elem_of_btree_iter |].
  rewrite !default_from_secs in Hnz1, Hnz2 by apply secs_or_whole.
  destruct (H7 m p Hp) as [? ?]. injection Hmt as <-. cbn.
  split; [done |]. split; by apply default_secs_range.
Qed.

(** ** Theorems *)

Section ConfigTheorems.
Context `{Sha256} (MAX_PERMITS : Z).

(** What the checks guarantee together. *)
Lemma config_try_from_valid raw cfg :
  raw_typed raw -> config_try_from MAX_PERMITS raw = Ok cfg -> config_valid MAX_PERMITS cfg.
Proof.
  intros [T1 T2 T3 T4 T5 T6] Hrun. unfold config_try_from in Hrun.
  apply result_bind_ok in Hrun as (gks & Hgk & Hrun).
  apply result_bind_ok in Hrun as (addr & Haddr%check_listen_sound & Hrun).
  apply result_bind_ok in Hrun as ([ks als] & Hks%check_keys_sound & Hrun).
  apply result_bind_ok in Hrun as (ms & Hms%check_models_spec & Hrun).
  apply result_bind_ok in Hrun as (sync & Hsync%check_model_sync_sound & Hrun); [| done].
  apply result_bind_ok in Hrun as (lim & Hlim%check_limits_sound & Hrun); [| done].
  apply result_bind_ok in Hrun as (kf & Hkf%check_key_failure_sound & Hrun); [| done].
  apply result_bind_ok in Hrun as (us & [Hpc Hpoll]%check_usage_sound & Hrun); [| done].
  apply result_bind_ok in Hrun as (dir & Hdir & Hrun).
  apply result_bind_ok in Hrun as (au & [Hap Hac]%check_audit_sound & Hrun); [| done].
  apply result_bind_ok in Hrun as (srv & [Hsrv _]%check_server_sound & Hrun); [| done].
  injection Hrun as <-.
  destruct Hks as (l & _ & Hne & Hok & -> & Hnd & _).
  apply check_gateway_keys_valid in Hgk as (G1 & G2 & G3 & G4 & G5).
  constructor; cbn; try done.
  - by intros ?%fmap_nil_inv.
  - apply Forall_fmap. eapply Forall_impl; [exact Hok |]. by intros ? [? _].
  - rewrite list_fmap_compose. by apply (NoDup_fmap_2 secret_new).
  - destruct (RawConfig.models raw); [by destruct Hms as (-> & ? & _) | by rewrite Hms].
  - destruct (RawConfig.models raw); [by destruct Hms as (-> & _ & ? & _) |]. rewrite Hms.
    by repeat constructor.
  - destruct (RawConfig.models raw); [by destruct Hms as (-> & _ & _ & ?) |]. rewrite Hms.
    apply NoDup_singleton.
  - unfold check_usage_history_dir in Hdir. invert_checks.
    unfold str_is_empty in *. by apply String.eqb_neq.
Qed.

(** C16. A configuration that loads satisfies every bound the gateway relies on: a
    loopback listen address; non-empty, pairwise distinct gateway and upstream
    credentials; distinct, bounded model names; permit counts within the
    semaphore's limit; [1 <= max_body_bytes <= max_inflight_body_bytes] within
    [u32]; a pool policy within the cooldown ceiling; positive representable
    timeouts; a quota threshold in (0, 100].  The gateway keys are exactly
    those of the document, in its order, a lone token being the key "legacy". *)
Theorem config_sound raw cfg :
  raw_typed raw -> config_try_from MAX_PERMITS raw = Ok cfg ->
  config_valid MAX_PERMITS cfg
  /\ match RawConfig.gateway_token raw, RawConfig.gateway_keys raw with
     | Some t, None => Config.gateway_keys cfg = [mk_gateway_key "legacy" (secret_new t)]
     | None, Some es => Config.gateway_keys cfg = to_gateway_key <$> es
     | _, _ => False
     end.
Proof.
  intros Htyped Hrun. split; [by eapply config_try_from_valid |].
  unfold config_try_from in Hrun. apply result_bind_ok in Hrun as (gks & Hgk & Hrun).
  invert_checks. apply check_gateway_keys_sound in Hgk. cbn.
  destruct (RawConfig.gateway_token raw), (RawConfig.gateway_keys raw); try done; by destruct_and?.
Qed.

(** Model-specific event timeouts inherit: after validation every model of
    the document runs with its own first-event and inter-event timeouts where
    it sets them and with the global ones where it does not, and no other
    model has an entry. *)
Theorem event_timeouts_inherited raw cfg :
  raw_typed raw -> config_try_from MAX_PERMITS raw = Ok cfg ->
  forall m, Server.model_event_timeouts (Config.server cfg) !! m =
    inherited_timeouts (Config.server cfg)
      <$> RawServer.model_event_timeouts (default RawServer.default (RawConfig.server raw)) !! m.
Proof.
  intros [_ _ _ _ _ T6] Hrun. unfold config_try_from in Hrun. invert_checks. cbn.
  match goal with H : check_server _ = Ok _ |- _ => apply check_server_sound in H as [_ H] end; done.
Qed.

(** Upstream keys keep the order of the document, without duplicates, and
    the alias table names the fingerprint of a key exactly as the last named
    key of the document with that fingerprint does. *)
Theorem upstream_keys_and_aliases raw cfg :
  config_try_from MAX_PERMITS raw = Ok cfg ->
  exists l, RawConfig.keys raw = Some l
    /\ as_str <$> Config.keys cfg = raw_key_value <$> l /\ NoDup (raw_key_value <$> l)
    /\ forall fp, Config.key_aliases cfg !! fp = alias_of l fp.
Proof.
  unfold config_try_from. intros Hrun.
  apply result_bind_ok in Hrun as (gks & _ & Hrun).
  apply result_bind_ok in Hrun as (addr & _ & Hrun).
  apply result_bind_ok in Hrun as ([ks als] & Hks%check_keys_sound & Hrun).
  destruct Hks as (l & Hl & _ & _ & -> & Hnd & Hal). invert_checks. cbn.
  exists l. split_and!; try done. cbn. by rewrite <- list_fmap_compose.
Qed.

(** Walk down a failing chain of checks, proving every message fixed. *)
Ltac fixed_message :=
  repeat first [apply list_elem_of_here | apply list_elem_of_further].
Ltac invert_err H :=
  repeat first
    [ apply bail_then_err in H as [<- | H]; [fixed_message |]
    | discriminate H ].

Lemma insert_new_err msg acc x e : insert_new msg acc x = Err e -> e = msg.
Proof. unfold insert_new. intros [<- | [=]]%bail_then_err. done. Qed.

Lemma gateway_keys_err token raw e :
  check_gateway_keys token raw = Err e -> e ∈ validation_messages MAX_PERMITS.
Proof.
  unfold check_gateway_keys. intros Hrun. apply bail_then_err in Hrun as [<- | Hrun]; [fixed_message |].
  destruct token as [t |], raw as [es |]; try (by invert_err Hrun).
  - apply bail_then_err in Hrun as [<- | Hrun]; [fixed_message |].
    apply bind_err in Hrun as [([[names tokens] ks] & x & _ & Hrun)%try_fold_err | (? & _ & [=])].
    unfold add_gateway_key in Hrun. invert_err Hrun.
  - injection Hrun as <-. fixed_message.
Qed.

Lemma listen_err raw e : check_listen raw = Err e -> e ∈ validation_messages MAX_PERMITS.
Proof.
  unfold check_listen. cbv zeta. intros [Hrun | (ip & _ & Hrun)]%bind_err; [| invert_err Hrun].
  unfold ok_or in Hrun. case_match; [done |]. injection Hrun as <-. fixed_message.
Qed.

Lemma keys_err raw e : check_keys raw = Err e -> e ∈ validation_messages MAX_PERMITS.
Proof.
  unfold check_keys. cbv zeta. intros Hrun. apply bail_then_err in Hrun as [<- | Hrun]; [fixed_message |].
  apply bind_err in Hrun as [([keys als] & k & _ & Hrun)%try_fold_err | (acc & _ & Hrun)].
  - unfold add_upstream_key in Hrun. destruct k as [k | k [n |]]; invert_err Hrun.
  - apply bind_err in Hrun as [(? & k & _ & ->%insert_new_err)%try_fold_err | (? & _ & [=])].
    fixed_message.
Qed.

Lemma models_err raw e : check_models raw = Err e -> e ∈ validation_messages MAX_PERMITS.
Proof.
  unfold check_models. destruct raw; [| done]. intros Hrun.
  apply bail_then_err in Hrun as [<- | Hrun]; [fixed_message |].
  apply bind_err in Hrun as [(acc & m & _ & Hrun)%try_fold_err | (? & _ & [=])].
  unfold check_model in Hrun.
  apply bail_then_err in Hrun as [<- | Hrun]; [fixed_message |].
  apply bail_then_err in Hrun as [<- | ->%insert_new_err]; fixed_message.
Qed.

Lemma server_err raw e : check_server raw = Err e -> e ∈ validation_messages MAX_PERMITS.
Proof.
  unfold check_server. cbv zeta. intros Hrun.
  do 7 (apply bail_then_err in Hrun as [<- | Hrun]; [fixed_message |]).
  apply bind_err in Hrun as [(acc & [m p] & _ & Hrun)%try_fold_err | (? & _ & Hrun)].
  - unfold add_event_timeouts in Hrun. cbv zeta in Hrun. invert_err Hrun.
  - invert_err Hrun.
Qed.

(** C17. A rejected configuration never echoes its contents: whatever keys, tokens
    and names the document holds, the error is one of a fixed list of
    messages that do not depend on them. *)
Theorem config_errors_redacted raw e :
  config_try_from MAX_PERMITS raw = Err e -> e ∈ validation_messages MAX_PERMITS.
Proof.
  unfold config_try_from. intros Hrun.
  apply bind_err in Hrun as [?%gateway_keys_err | (? & _ & Hrun)]; [done |].
  apply bind_err in Hrun as [?%listen_err | (? & _ & Hrun)]; [done |].
  apply bind_err in Hrun as [?%keys_err | (? & _ & Hrun)]; [done |].
  apply bind_err in Hrun as [?%models_err | (? & _ & Hrun)]; [done |].
  apply bind_err in Hrun as [Hs | (? & _ & Hrun)];
    [unfold check_model_sync in Hs; cbv zeta in Hs; invert_err Hs |].
  apply bind_err in Hrun as [Hs | (? & _ & Hrun)];
    [unfold check_limits in Hs; cbv zeta in Hs; invert_err Hs |].
  apply bind_err in Hrun as [Hs | (? & _ & Hrun)];
    [unfold check_key_failure in Hs; cbv zeta in Hs; invert_err Hs |].
  apply bind_err in Hrun as [Hs | (? & _ & Hrun)];
    [unfold check_usage in Hs; cbv zeta in Hs; invert_err Hs |].
  apply bind_err in Hrun as [Hs | (? & _ & Hrun)];
    [unfold check_usage_history_dir in Hs; cbv zeta in Hs; invert_err Hs |].
  apply bind_err in Hrun as [Hs | (? & _ & Hrun)];
    [unfold check_audit in Hs; cbv zeta in Hs; invert_err Hs |].
  apply bind_err in Hrun as [?%server_err | (? & _ & Hrun)]; done.
Qed.

(** A check the loaded file has to pass: a regular file with mode 0600 that belongs
    to the process user. *)
Definition secured (meta : Metadata) (euid : Z) : Prop :=
  md_is_file meta = true /\ Z.land (md_mode meta) 511 = 384 /\ md_uid meta = euid.

Lemma secured_iff meta euid :
  secure_config_metadata (md_is_file meta) (Z.land (md_mode meta) 511) (md_uid meta) euid = true <-> secured meta euid.
Proof.
  unfold secure_config_metadata, secured. rewrite !andb_true_iff, !Z.eqb_eq. tauto.
Qed.

(** The [i]th of the calls reads a file that was opened by its path without
    following a link, and that was checked between the two. *)
Definition read_after_check {File IoError} (open_nofollow : list (FileCall File) -> string -> result IoError File)
    (metadata : list (FileCall File) -> File -> result IoError Metadata) (euid : Z) (path : string)
    (calls : list (FileCall File)) (i : nat) (file : File) : Prop :=
  exists k j meta, (k < j < i)%nat
    /\ calls !! k = Some (Opened path) /\ open_nofollow (take k calls) path = Ok file
    /\ calls !! j = Some (Examined file) /\ metadata (take j calls) file = Ok meta /\ secured meta euid.

(** C18. Only a regular file with mode 0600 owned by the process user is ever
    read, whatever comes of it and however the file system changes between the
    calls: each read is of an open file that was checked before, and that was
    opened by the path without following a link.  A file that fails the check is
    refused unread, one that passes is read, and a configuration comes from the
    contents of that read. *)
Theorem load_reads_only_a_secured_file {File IoError} open_nofollow metadata euid
    (read_to_string : list (FileCall File) -> File -> result IoError string) yaml_from_str path :
  let '(r, calls) := load MAX_PERMITS open_nofollow metadata euid read_to_string yaml_from_str path [] in
  (forall i file, calls !! i = Some (WasRead file) ->
     read_after_check open_nofollow metadata euid path calls i file)
  /\ (forall file meta, open_nofollow [] path = Ok file -> metadata [Opened path] file = Ok meta ->
        (secured meta euid -> WasRead file ∈ calls)
        /\ (~ secured meta euid -> r = Err (Permission path)))
  /\ (forall cfg, r = Ok cfg -> exists i file contents raw,
        calls !! i = Some (WasRead file) /\ read_to_string (take i calls) file = Ok contents
        /\ yaml_from_str contents = Ok raw /\ config_try_from MAX_PERMITS raw = Ok cfg).
Proof.
  unfold load, open_config, call, lift_result, mbind, filing_bind, mret, filing_ret.
  destruct (open_nofollow [] path) as [file | e] eqn:Hopen; simpl;
    [| split_and!; [by intros [| [|]] ? | done | done]].
  destruct (metadata [Opened path] file) as [meta | e] eqn:Hmeta; simpl;
    [| split_and!; [by intros [| [| [|]]] ? | intros ? ? [= <-] Hm; congruence | done]].
  destruct (secure_config_metadata _ _ _ _) eqn:Hsec; simpl.
  - apply secured_iff in Hsec.
    assert (forall i f, [Opened path; Examined file; WasRead file] !! i = Some (WasRead f) ->
      read_after_check open_nofollow metadata euid path [Opened path; Examined file; WasRead file] i f) as Hread.
    { intros [| [| [| [|]]]] f; try done. intros [= <-]. exists 0%nat, 1%nat, meta. split_and!; (done || lia || apply Hsec). }
    assert (forall f m, file = f -> metadata [Opened path] f = Ok m ->
      (secured m euid -> WasRead f ∈ [Opened path; Examined file; WasRead file])
      /\ (~ secured m euid -> False)) as Hboth.
    { intros f m <- Hm. rewrite Hmeta in Hm. injection Hm as <-. split; [intros _; repeat constructor | by intros []]. }
    destruct (read_to_string [Opened path; Examined file] file) as [contents | e] eqn:Hc; simpl.
    + split_and!; [exact Hread | intros f m [= Hf] Hm; destruct (Hboth f m Hf Hm) as [? Hno]; split; [done | intros Hs; by destruct (Hno Hs)] |].
      intros cfg Hrun. exists 2%nat, file, contents.
      destruct (yaml_from_str contents) as [raw | loc]; [| by destruct (default (0, 0) loc)]. simpl in Hrun. exists raw.
      destruct (config_try_from MAX_PERMITS raw); [| done]. simpl in Hrun. injection Hrun as <-. done.
    + split_and!; [exact Hread | intros f m [= Hf] Hm; destruct (Hboth f m Hf Hm) as [? Hno]; split; [done | intros Hs; by destruct (Hno Hs)] | done].
  - split_and!; [by intros [| [| [|]]] ? | | done]. intros f m [= <-] Hm. rewrite Hmeta in Hm. injection Hm as <-.
    split; [| done]. intros Hs%secured_iff. congruence.
Qed.

End ConfigTheorems.

(** ** A concrete document *)

#[local] Instance demo_config_sha256 : Sha256 := toy_digest.

(** tokio's [Semaphore::MAX_PERMITS] on 64-bit targets. *)
Definition demo_permits : Z := 2305843009213693951.

Definition demo_raw_server : RawServer.t :=
  RawServer.mk None None None None (Some 45) None
    {[ "slow-model" := RawEventTimeouts.mk (Some 300) None ]} None None None.

Definition demo_raw : RawConfig.t :=
  RawConfig.mk (Some "client-token") None None
    (Some [Named "sk-alpha" (Some "primary"); Plain "sk-beta"])
    None None None None None None None (Some demo_raw_server).

Definition demo_config : Config.t :=
  match config_try_from demo_permits demo_raw with
  | Ok cfg => cfg
  | Err _ => Config.mk (mk_addr (V4 []) 0) [] [] ∅ [] (ModelSync.mk false 0)
      (Limits.mk 0 0 0 0 0) (KeyFailureHandling.mk 0 0 0 0 0) (Usage.mk S754_nan 0) ""
      (Audit.mk "" 0) (Server.mk 0 0 0 0 0 0 ∅ 0 0 0)
  end.

Lemma demo_raw_loads : config_try_from demo_permits demo_raw = Ok demo_config.
Proof. by vm_compute. Defined.

Lemma demo_raw_typed : raw_typed demo_raw.
Proof.
  split; try (by intros ? [=]). intros s [= <-].
  split_and!; try apply opt_u64_none; try (intros n [= <-]; unfold is_u64; by split; cbv).
  intros m p. unfold demo_raw_server. cbn.
  intros [_ <-]%lookup_singleton_Some. cbn. split; [| apply opt_u64_none].
  intros n [= <-]. unfold is_u64. by split; cbv.
Defined.

Lemma config_sound_witness :
  config_valid demo_permits demo_config
  /\ Config.gateway_keys demo_config = [mk_gateway_key "legacy" (secret_new "client-token")].
Proof. apply (config_sound demo_permits demo_raw); [exact demo_raw_typed | exact demo_raw_loads]. Defined.

Lemma event_timeouts_inherited_witness :
  Server.model_event_timeouts (Config.server demo_config) !! "slow-model"
  = Some (EventTimeouts.mk (Dur.from_secs 300) (Dur.from_secs 90)).
Proof.
  rewrite (event_timeouts_inherited demo_permits demo_raw); [by vm_compute | exact demo_raw_typed | exact demo_raw_loads].
Defined.

Lemma upstream_keys_and_aliases_witness :
  exists l, RawConfig.keys demo_raw = Some l
    /\ as_str <$> Config.keys demo_config = raw_key_value <$> l /\ NoDup (raw_key_value <$> l)
    /\ forall fp, Config.key_aliases demo_config !! fp = alias_of l fp.
Proof. apply (upstream_keys_and_aliases demo_permits demo_raw). exact demo_raw_loads. Defined.

Lemma config_errors_redacted_witness :
  "gateway token must be non-empty" ∈ validation_messages demo_permits.
Proof.
  apply (config_errors_redacted demo_permits
           (RawConfig.mk (Some " ") None None None None None None None None None None None)).
  by vm_compute.
Defined.

Definition demo_load (metadata : list (FileCall string) -> string -> result () Metadata) :=
  load demo_permits (fun _ path => Ok path) metadata 7 (fun _ _ => Ok "yaml") (fun _ => Ok demo_raw) "/etc/orihsus.yaml" [].

(** A file that others may read is refused unread. *)
Example demo_load_refused :
  demo_load (fun _ _ => Ok (mk_metadata true 33188 7))
  = (Err (Permission "/etc/orihsus.yaml"), [Opened "/etc/orihsus.yaml"; Examined "/etc/orihsus.yaml"]).
Proof. vm_compute. reflexivity. Qed.

Lemma load_reads_only_a_secured_file_witness :
  (demo_load (fun _ _ => Ok (mk_metadata true 33152 7))).1 = Ok demo_config
  /\ WasRead "/etc/orihsus.yaml" ∈ (demo_load (fun _ _ => Ok (mk_metadata true 33152 7))).2.
Proof.
  split; [vm_compute; reflexivity |].
  pose proof (load_reads_only_a_secured_file demo_permits (fun _ path => Ok (E := ()) path)
    (fun _ _ => Ok (mk_metadata true 33152 7)) 7 (fun _ _ => Ok "yaml") (fun _ => Ok demo_raw) "/etc/orihsus.yaml") as Hload.
  unfold demo_load. destruct (load _ _ _ _ _ _ _ []) as [r calls]. destruct Hload as (_ & Hread & _).
  apply (Hread "/etc/orihsus.yaml" (mk_metadata true 33152 7)); [reflexivity | reflexivity | by split_and!].
Defined.
