(* ===== verification/Json.v ===== *)
(** * Interfaces of the crates the gateway parses with

    The [Value] of [serde_json] and the header types of [http] are code
    outside the repository: the components are proved against these
    interfaces, whose laws are the documented behaviour of the crates.  The
    table instances at the end of the file are used by examples only. *)
From S2P Require Export Text.

(** ** [serde_json] *)

(** [from_slice] and [from_str] (with [.ok()]), [Value::get] with a string key,
    and the accessors. *)
Class SerdeJson := {
  Value : Type;
  from_slice : bytes -> option Value;
  json_get : Value -> string -> option Value;
  json_null : Value;
  json_as_str : Value -> option string;
  json_as_u64 : Value -> option Z;
  json_as_array : Value -> option (list Value);
}.

(** [serde_json::from_str]: [from_slice] of the bytes of a valid string. *)
Definition from_str `{SerdeJson} (s : string) : option Value := from_slice (as_bytes s).

(** [v["key"]]: the member, or [Value::Null] when there is none. *)
Definition json_index `{SerdeJson} (v : Value) (key : string) : Value := default json_null (json_get v key).

(** The laws the gateway relies on. *)
Class SerdeJsonLaws `(SerdeJson) : Prop := {
  (** [as_u64] answers a [u64]. *)
  json_u64_range : forall v n, json_as_u64 v = Some n -> 0 <= n <= u64_max;
  (** [Null] has no members and is not a string, a number or an array. *)
  json_null_get : forall k, json_get json_null k = None;
  json_null_str : json_as_str json_null = None;
  json_null_u64 : json_as_u64 json_null = None;
}.

(** ** [http] *)

(** [HeaderValue::to_str] (with [.ok()]) and the read operations of
    [HeaderMap]; names are lower case. *)
Class HttpHeaders := {
  HeaderValue : Type;
  HeaderMap : Type;
  to_str : HeaderValue -> option string;
  header_iter : HeaderMap -> list (string * HeaderValue);
  header_get_all : HeaderMap -> string -> list HeaderValue;
}.

(** [headers.get(name)] is the first value of [get_all]. *)
Definition header_get `{HttpHeaders} (h : HeaderMap) (name : string) : option HeaderValue :=
  head (header_get_all h name).
(** [headers.contains_key(name)] *)
Definition header_contains `{HttpHeaders} (h : HeaderMap) (name : string) : bool :=
  bool_decide (is_Some (header_get h name)).

(** Iteration visits exactly the values the lookups find, and names are lower
    case. *)
Class HttpHeadersLaws `(HttpHeaders) : Prop := {
  header_iter_get : forall h name v, (name, v) ∈ header_iter h <-> v ∈ header_get_all h name;
  header_names_lower : forall h name v, (name, v) ∈ header_iter h -> to_ascii_lowercase name = name;
}.

(** ** Table instances for examples *)

Inductive toy_json :=
| JNull
| JNum (n : Z)
| JStr (s : string)
| JArr (l : list toy_json)
| JObj (members : list (string * toy_json)).

Fixpoint toy_member (members : list (string * toy_json)) (key : string) : option toy_json :=
  match members with
  | [] => None
  | (k, v) :: rest => if String.eqb k key then Some v else toy_member rest key
  end.

(** The parser knows the documents of a table. *)
Definition toy_serde (table : list (string * toy_json)) : SerdeJson := {|
  Value := toy_json;
  from_slice b := toy_member table (of_bytes b);
  json_get v key := match v with JObj members => toy_member members key | _ => None end;
  json_null := JNull;
  json_as_str v := match v with JStr s => Some s | _ => None end;
  json_as_u64 v := match v with
                   | JNum n => if (0 <=? n) && (n <=? u64_max) then Some n else None
                   | _ => None
                   end;
  json_as_array v := match v with JArr l => Some l | _ => None end;
|}.

#[global] Instance toy_serde_laws table : SerdeJsonLaws (toy_serde table).
Proof.
  split; try done. intros v m. destruct v as [| k | | |]; simpl; try done.
  case_match; [| done]. intros [= <-]. bool_to_prop. lia.
Qed.

(** Headers as a list of lower-case names and byte strings; a value is text
    when its bytes are visible ASCII or tabs. *)
Definition toy_visible (b : ascii) : bool := in_range 32 126 b || Ascii.eqb b (ascii_of_N 9).

Definition toy_headers : HttpHeaders := {|
  HeaderValue := string;
  HeaderMap := list (string * string);
  to_str v := if forallb toy_visible (as_bytes v) then Some v else None;
  header_iter h := (fun nv : string * string => (to_ascii_lowercase nv.1, nv.2)) <$> h;
  header_get_all h name :=
    snd <$> filter (fun nv : string * string => to_ascii_lowercase nv.1 = name) h;
|}.

Lemma ascii_lower_idem b : ascii_lower (ascii_lower b) = ascii_lower b.
Proof. destruct b as [[] [] [] [] [] [] [] []]; reflexivity. Qed.

Lemma to_ascii_lowercase_idem s : to_ascii_lowercase (to_ascii_lowercase s) = to_ascii_lowercase s.
Proof.
  unfold to_ascii_lowercase. rewrite as_of_bytes, <- list_fmap_compose. f_equal.
  apply list_fmap_ext. intros i b _. apply ascii_lower_idem.
Qed.

Lemma toy_headers_laws : HttpHeadersLaws toy_headers.
Proof.
  split; simpl; intros h name v.
  - rewrite !list_elem_of_fmap. split.
    + intros ([n w] & [= -> ->] & Hin). exists (n, w). split; [done |].
      by apply list_elem_of_filter.
    + intros ([n w] & -> & [Hn Hin]%list_elem_of_filter). exists (n, w). simpl in *. by subst.
  - intros ([n w] & [= -> ->] & _)%list_elem_of_fmap. apply to_ascii_lowercase_idem.
Qed.
