(* ===== verification/Classify.v ===== *)
(** * Upstream failures: classification and delays

    [classify_429], [parse_resets_in], [parse_retry_after] and the status
    tests of [src/src/gateway.rs]: how an upstream answer becomes a
    [Failure] of the pool, with a cooldown. *)
From S2P Require Export Pool Json.

(** ** Definitions *)

(** [ERROR_CLASSIFY_CAP] *)
Definition ERROR_CLASSIFY_CAP : Z := 64 * 1024.

(** [enum RateLimitKind] *)
Module RateLimitKind.
Inductive t :=
| UsageLimit (dimension : UsageDimension) (cooldown : Duration)
| Generic.
End RateLimitKind.

(** [s.chars().take_while(p).collect()] for a class of ASCII characters *)
Definition ascii_prefix (p : ascii -> bool) (s : string) : string :=
  of_chars (take_while (fun c => match c with [b] => p b | _ => false end) (chars s)).

(** [s.trim_end_matches(c)] for an ASCII character *)
Definition trim_end_matches (c : ascii) (s : string) : string :=
  of_chars (reverse (drop_while (fun ch => bool_decide (ch = [c])) (reverse (chars s)))).

(** The seconds of one unit; [None] for an unknown unit. *)
Definition unit_seconds (unit : string) : option Z :=
  if String.eqb unit "second" then Some 1
  else if String.eqb unit "minute" then Some 60
  else if String.eqb unit "hour" then Some 3600
  else if String.eqb unit "day" then Some 86400
  else None.

(** [parse_resets_in] *)
Definition parse_resets_in (message : string) : option Duration :=
  let lower := to_ascii_lowercase message in
  idx ← str_find lower "resets in";
  let rest := str_from (idx + String.length "resets in") lower in
  let rest := trim_start rest in
  let digits := ascii_prefix is_ascii_digit rest in
  count ← parse_u64 digits;
  if count =? 0 then None
  else
    let rest := trim_start (str_from (String.length digits) rest) in
    let unit := trim_end_matches "s"%char (ascii_prefix is_ascii_alphabetic rest) in
    per ← unit_seconds unit;
    secs ← u64_checked_mul count per;
    Some (Dur.from_secs secs).

(** The cooldown of a limit whose message names none. *)
Definition default_cooldown (dimension : UsageDimension) : Duration :=
  match dimension with
  | Weekly => Dur.from_secs (7 * 24 * 3600)
  | Monthly => Dur.from_secs (31 * 24 * 3600)
  | FiveHour => Dur.from_secs (5 * 3600)
  end.

Section Classify.
Context `{SerdeJson}.

(** [classify_429] *)
Definition classify_429 (body : bytes) (overflowed : bool) : RateLimitKind.t :=
  if overflowed then RateLimitKind.Generic
  else match from_utf8 body with
       | None => RateLimitKind.Generic
       | Some text =>
           match from_str text with
           | None => RateLimitKind.Generic
           | Some value =>
               if negb (bool_decide (json_as_str (json_index (json_index value "error") "type")
                                     = Some "GoUsageLimitError"))
               then RateLimitKind.Generic
               else
                 let limit := json_as_str (json_index (json_index value "metadata") "limitName") in
                 let dimension :=
                   if bool_decide (limit = Some "weekly") then Some Weekly
                   else if bool_decide (limit = Some "monthly") then Some Monthly
                   else if bool_decide (limit = Some "5h") then Some FiveHour
                   else None in
                 match dimension with
                 | None => RateLimitKind.Generic
                 | Some dimension =>
                     let message :=
                       default "" (json_as_str (json_index (json_index value "error") "message")) in
                     RateLimitKind.UsageLimit dimension
                       (default (default_cooldown dimension) (parse_resets_in message))
                 end
           end
       end.

End Classify.

Section RetryAfter.
(** chrono's [DateTime::parse_from_rfc2822], as nanoseconds since the epoch. *)
Context `{HttpHeaders} (parse_from_rfc2822 : string -> option Z).

(** [parse_http_date] *)
Definition parse_http_date (v : string) : option Z := parse_from_rfc2822 v.

(** [parse_retry_after]; [to_std] fails on a negative difference. *)
Definition parse_retry_after (v : HeaderValue) (now : Z) : option Duration :=
  v ← to_str v;
  let v := trim v in
  match parse_u64 v with
  | Some secs => Some (Dur.from_secs secs)
  | None => retry_at ← parse_http_date v; Some (Z.max 0 (retry_at - now))
  end.
End RetryAfter.

(** [is_auth_unavailable] *)
Definition is_auth_unavailable (status : Z) : bool := (status =? 401) || (status =? 403).

(** ** ASCII forms of the text operations *)

Lemma drop_while_fmap {A B} (p : B -> bool) (f : A -> B) l :
  drop_while p (f <$> l) = f <$> drop_while (p ∘ f) l.
Proof. induction l as [| x l IH]; simpl; [done |]. by destruct (p (f x)). Qed.

Lemma take_while_fmap {A B} (p : B -> bool) (f : A -> B) l :
  take_while p (f <$> l) = f <$> take_while (p ∘ f) l.
Proof.
  induction l as [| x l IH]; simpl; [done |]. change ((p ∘ f) x) with (p (f x)).
  destruct (p (f x)); simpl; [f_equal; exact IH | done].
Qed.

Lemma take_while_app_stop {A} (p : A -> bool) l1 l2 :
  Forall (fun x => p x = true) l1 -> from_option p false (head l2) = false ->
  take_while p (l1 ++ l2) = l1.
Proof.
  intros Hall Hstop. induction Hall as [| x l1 Hx Hl IH]; simpl.
  - destruct l2 as [| y l2]; simpl in *; [done | by rewrite Hstop].
  - by rewrite Hx, IH.
Qed.

Lemma trim_start_ascii l :
  Forall (fun b => is_ascii b = true) l ->
  trim_start (of_bytes l) = of_bytes (drop_while (fun b => is_whitespace [b]) l).
Proof.
  intros Hl. unfold trim_start. rewrite chars_ascii, drop_while_fmap, of_chars_singletons by done. done.
Qed.

Lemma ascii_prefix_ascii p l :
  Forall (fun b => is_ascii b = true) l ->
  ascii_prefix p (of_bytes l) = of_bytes (take_while p l).
Proof.
  intros Hl. unfold ascii_prefix. rewrite chars_ascii, take_while_fmap, of_chars_singletons by done. done.
Qed.

Lemma trim_end_matches_ascii c l :
  Forall (fun b => is_ascii b = true) l ->
  trim_end_matches c (of_bytes l) = of_bytes (reverse (drop_while (fun b => bool_decide ([b] = [c])) (reverse l))).
Proof.
  intros Hl. unfold trim_end_matches. rewrite chars_ascii by done.
  by rewrite <- fmap_reverse, drop_while_fmap, <- fmap_reverse, of_chars_singletons.
Qed.

Lemma bytes_starts_with_app l p : bytes_starts_with (p ++ l) p = true.
Proof. apply bytes_starts_with_iff. eauto. Qed.

Lemma digit_not_whitespace b : is_ascii_digit b = true -> is_whitespace [b] = false.
Proof. destruct b as [[] [] [] [] [] [] [] []]; vm_compute; congruence. Qed.

Lemma letter_not_whitespace b : is_ascii_alphabetic b = true -> is_whitespace [b] = false.
Proof. destruct b as [[] [] [] [] [] [] [] []]; vm_compute; congruence. Qed.

Lemma unit_bytes unit per :
  unit_seconds unit = Some per ->
  In (unit, per) [("second", 1); ("minute", 60); ("hour", 3600); ("day", 86400)].
Proof.
  unfold unit_seconds. intros Hu.
  repeat (case_match; [injection Hu as <-;
    match goal with H : String.eqb _ _ = true |- _ => apply String.eqb_eq in H; subst end;
    simpl; tauto |]). done.
Qed.

(** ** Theorems *)

Lemma drop_while_head {A} (p : A -> bool) l :
  from_option p false (head l) = false -> drop_while p l = l.
Proof. destruct l as [| x l]; simpl; [done |]. by intros ->. Qed.

(** A lower-case message in its parts: digits, one space, letters, the rest. *)
Lemma parse_resets_in_shape message ds word suffix n per :
  as_bytes (to_ascii_lowercase message) =
    as_bytes "resets in" ++ " "%char :: ds ++ " "%char :: word ++ suffix ->
  ds <> [] -> Forall (fun b => is_ascii_digit b = true) ds ->
  word <> [] -> Forall (fun b => is_ascii_alphabetic b = true) word ->
  Forall (fun b => is_ascii b = true) suffix ->
  from_option is_ascii_alphabetic false (head suffix) = false ->
  parse_u64 (of_bytes ds) = Some n -> n <> 0 ->
  unit_seconds (of_bytes (reverse (drop_while (fun b => bool_decide ([b] = ["s"%char])) (reverse word)))) = Some per ->
  n * per <= u64_max ->
  parse_resets_in message = Some (Dur.from_secs (n * per)).
Proof.
  intros Hmsg Hne Hds Hwne Hword Hsuf Hhead Hn Hnz Hper Hmax.
  assert (forall l : bytes, Forall (fun b => is_ascii_digit b = true) l -> Forall (fun b => is_ascii b = true) l) as Hd
    by (intros l Hl; eapply Forall_impl; [exact Hl | apply ascii_digit_is_ascii]).
  assert (forall l : bytes, Forall (fun b => is_ascii_alphabetic b = true) l -> Forall (fun b => is_ascii b = true) l) as Ha
    by (intros l Hl; eapply Forall_impl; [exact Hl | apply ascii_alphabetic_is_ascii]).
  assert (Forall (fun b => is_ascii b = true) (" "%char :: word ++ suffix)) as Htail.
  { constructor; [done |]. apply Forall_app. auto. }
  assert (str_find (to_ascii_lowercase message) "resets in" = Some 0%nat) as Hfind.
  { unfold str_find. rewrite Hmsg. unfold bytes_find.
    destruct (_ ++ _) eqn:Heq at 1; rewrite <- Heq at 1; by rewrite bytes_starts_with_app. }
  unfold parse_resets_in. rewrite Hfind. cbn [mbind option_bind].
  assert (str_from (0 + String.length "resets in") (to_ascii_lowercase message) =
          of_bytes (" "%char :: ds ++ " "%char :: word ++ suffix)) as ->.
  { unfold str_from. rewrite Hmsg. f_equal. }
  rewrite trim_start_ascii by (constructor; [done | apply Forall_app; auto]).
  assert (drop_while (fun b => is_whitespace [b]) (" "%char :: ds ++ " "%char :: word ++ suffix) =
          ds ++ " "%char :: word ++ suffix) as ->.
  { cbn [drop_while]. change (is_whitespace [" "%char]) with true. cbn iota.
    apply drop_while_head. destruct Hds as [| d ds Hdd]; [done |]. simpl. by apply digit_not_whitespace. }
  rewrite ascii_prefix_ascii by (apply Forall_app; auto).
  rewrite take_while_app_stop by done. rewrite Hn. cbn [mbind option_bind].
  destruct (Z.eqb_spec n 0); [done |].
  assert (str_from (String.length (of_bytes ds)) (of_bytes (ds ++ " "%char :: word ++ suffix)) =
          of_bytes (" "%char :: word ++ suffix)) as ->.
  { unfold str_from. rewrite <- length_as_bytes, !as_of_bytes. by rewrite drop_app_length. }
  rewrite trim_start_ascii by done.
  assert (drop_while (fun b => is_whitespace [b]) (" "%char :: word ++ suffix) = word ++ suffix) as ->.
  { cbn [drop_while]. change (is_whitespace [" "%char]) with true. cbn iota.
    apply drop_while_head. destruct Hword as [| w ws Hw]; [done |]. simpl. by apply letter_not_whitespace. }
  rewrite ascii_prefix_ascii by (apply Forall_app; auto).
  rewrite take_while_app_stop by done. rewrite trim_end_matches_ascii by auto.
  rewrite Hper. cbn [mbind option_bind]. unfold u64_checked_mul.
  by destruct (Z.leb_spec (n * per) u64_max); [| lia].
Qed.

(** ** Theorems *)

(** The reset hint of a usage-limit message is read exactly: "Resets in N
    unit" or "units", in any letter case, with N at least 1 and a total that
    fits a [u64] of seconds, parses to N units, whatever ASCII text follows
    the unit. *)
Theorem parse_resets_in_exact message n unit per (plural : bool) suffix :
  unit_seconds unit = Some per -> 1 <= n -> n * per <= u64_max ->
  Forall (fun b => is_ascii b = true) suffix ->
  from_option is_ascii_alphabetic false (head suffix) = false ->
  as_bytes (to_ascii_lowercase message) =
    as_bytes "resets in" ++ " "%char :: as_bytes (u64_to_string n) ++ " "%char ::
      (as_bytes unit ++ (if plural then ["s"%char] else [])) ++ suffix ->
  parse_resets_in message = Some (Dur.from_secs (n * per)).
Proof.
  intros Hunit Hn Hmax Hsuf Hhead Hmsg.
  pose proof (unit_bytes _ _ Hunit) as Hin.
  assert (1 <= per) as Hper
    by (repeat (destruct Hin as [[= <- <-] | Hin]; [lia |]); destruct Hin).
  unfold u64_to_string in Hmsg. rewrite as_of_bytes in Hmsg.
  assert (n <= u64_max) by nia.
  apply (parse_resets_in_shape _ _ _ _ _ _ Hmsg); try done; try lia.
  - apply dec_digits_nonempty.
  - apply dec_digits_all. lia.
  - repeat (destruct Hin as [[= <- <-] | Hin]; [done |]); destruct Hin.
  - repeat (destruct Hin as [[= <- <-] | Hin]; [destruct plural; repeat constructor |]); destruct Hin.
  - apply parse_u64_to_string. lia.
  - repeat (destruct Hin as [[= <- <-] | Hin]; [by destruct plural |]); destruct Hin.
Qed.

(** A reset hint is never made up: what [parse_resets_in] returns is a positive
    whole number of one of the four units, computed without overflow. *)
Lemma parse_resets_in_inv message d :
  parse_resets_in message = Some d ->
  exists n per, per ∈ [1; 60; 3600; 86400] /\ 1 <= n /\ n * per <= u64_max
    /\ d = Dur.from_secs (n * per).
Proof.
  unfold parse_resets_in. intros (idx & _ & Hrun)%bind_Some.
  apply bind_Some in Hrun as (n & Hn%parse_u64_range & Hrun).
  destruct (Z.eqb_spec n 0); [done |].
  apply bind_Some in Hrun as (per & Hper%unit_bytes & Hrun).
  apply bind_Some in Hrun as (secs & Hmul & [= <-]). unfold u64_checked_mul in Hmul.
  destruct (Z.leb_spec (n * per) u64_max); [| done]. injection Hmul as <-.
  exists n, per. split_and!; [| lia | done | done].
  repeat (destruct Hper as [[= _ <-] | Hper]; [set_solver |]); destruct Hper.
Qed.

Lemma hint_or_default_valid dimension message :
  let d := default (default_cooldown dimension) (parse_resets_in message) in
  0 < d <= DURATION_MAX /\ d mod NANOS_PER_SEC = 0.
Proof.
  cbv zeta. destruct (parse_resets_in _) as [d |] eqn:Hd; simpl.
  - apply parse_resets_in_inv in Hd as (n & per & Hper & Hn & Hmax & ->).
    assert (1 <= per) by (rewrite !elem_of_cons, elem_of_nil in Hper; lia).
    unfold Dur.from_secs. split; [| by rewrite Z.mod_mul]. unfold NANOS_PER_SEC, DURATION_MAX.
    unfold u64_max in Hmax. nia.
  - destruct dimension; by split; [split |].
Qed.

Section ClassifyTheorems.
Context `{SerdeJson}.

Definition limit_name (dimension : UsageDimension) : string :=
  match dimension with Weekly => "weekly" | Monthly => "monthly" | FiveHour => "5h" end.

(** A 429 is a usage limit exactly when its whole body was read, is valid
    UTF-8 and JSON, its [error.type] is "GoUsageLimitError" and its
    [metadata.limitName] is one of the three known names; the cooldown is the
    hint of the message or the default of the dimension. *)
Theorem classify_429_usage_limit body overflowed dimension cooldown :
  classify_429 body overflowed = RateLimitKind.UsageLimit dimension cooldown <->
  overflowed = false
  /\ exists text value, from_utf8 body = Some text /\ from_str text = Some value
     /\ json_as_str (json_index (json_index value "error") "type") = Some "GoUsageLimitError"
     /\ json_as_str (json_index (json_index value "metadata") "limitName") = Some (limit_name dimension)
     /\ cooldown = default (default_cooldown dimension)
          (parse_resets_in (default "" (json_as_str (json_index (json_index value "error") "message")))).
Proof.
  unfold classify_429. destruct overflowed; [split; [done | by intros [? _]] |].
  destruct (from_utf8 body) as [text |]; [| split; [done | by intros (_ & ? & ? & ? & _)]].
  destruct (from_str text) as [value |] eqn:Hv;
    [| split; [done | by intros (_ & ? & ? & [= <-] & ? & _); congruence]].
  case_bool_decide as Htype; cbn [negb];
    [| split; [done | intros (_ & ? & ? & [= <-] & ? & ? & _); congruence]].
  destruct (json_as_str (json_index (json_index value "metadata") "limitName")) as [name |] eqn:Hlim;
    [| split; [done | intros (_ & ? & ? & [= <-] & ? & ? & ? & _); congruence]].
  split.
  - intros Hrun. split; [done |]. exists text, value. split_and!; try done;
      repeat (case_bool_decide; simplify_eq; try done); by rewrite Hlim || idtac.
  - intros (_ & ? & value' & [= <-] & Hv' & _ & Hlim' & ->). simplify_eq.
    by destruct dimension.
Qed.

(** Every cooldown a classified 429 asks for is a positive whole number of
    seconds that a [Duration] holds, whatever the upstream wrote. *)
Theorem classified_cooldown_valid body overflowed dimension cooldown :
  classify_429 body overflowed = RateLimitKind.UsageLimit dimension cooldown ->
  0 < cooldown <= DURATION_MAX /\ cooldown mod NANOS_PER_SEC = 0.
Proof.
  unfold classify_429. intros Hrun. repeat case_match; simplify_eq;
    first [apply (hint_or_default_valid Weekly) | apply (hint_or_default_valid Monthly)
          | apply (hint_or_default_valid FiveHour)].
Qed.
End ClassifyTheorems.

Section RetryAfterTheorems.
Context `{HttpHeaders} (parse_from_rfc2822 : string -> option Z).

(** A Retry-After header never yields a negative wait: delta-seconds are
    honoured as they stand, surrounding blanks ignored; a date in the past
    means no wait, a date in the future the time left until it; anything else
    is no hint. *)
Theorem parse_retry_after_spec v now s :
  to_str v = Some s ->
  (forall n, 0 <= n <= u64_max -> trim s = u64_to_string n ->
     parse_retry_after parse_from_rfc2822 v now = Some (Dur.from_secs n))
  /\ (parse_u64 (trim s) = None -> forall t, parse_from_rfc2822 (trim s) = Some t ->
     parse_retry_after parse_from_rfc2822 v now = Some (if t <=? now then 0 else t - now))
  /\ (parse_u64 (trim s) = None -> parse_from_rfc2822 (trim s) = None ->
     parse_retry_after parse_from_rfc2822 v now = None)
  /\ (forall d, parse_retry_after parse_from_rfc2822 v now = Some d -> 0 <= d).
Proof.
  intros Hv. unfold parse_retry_after, parse_http_date. rewrite Hv. cbn [mbind option_bind].
  split_and!.
  - intros n Hn ->. by rewrite parse_u64_to_string.
  - intros -> t ->. simpl. f_equal. destruct (Z.leb_spec t now); lia.
  - by intros -> ->.
  - intros d. destruct (parse_u64 (trim s)) as [n |] eqn:Hn.
    + apply parse_u64_range in Hn. intros [= <-]. unfold Dur.from_secs, NANOS_PER_SEC. lia.
    + intros (t & _ & [= <-])%bind_Some. lia.
Qed.
End RetryAfterTheorems.

(** ** At concrete inputs *)

Definition demo_limit_body : string := "{limit}".
#[local] Instance demo_serde : SerdeJson := toy_serde
  [(demo_limit_body, JObj
      [("error", JObj [("type", JStr "GoUsageLimitError");
                       ("message", JStr "Weekly limit hit. Resets in 3 hours.")]);
       ("metadata", JObj [("limitName", JStr "weekly")])])].
#[local] Instance demo_headers : HttpHeaders := toy_headers.

Lemma parse_resets_in_exact_witness :
  parse_resets_in "Resets in 12 Days (UTC)" = Some (Dur.from_secs (12 * 86400)).
Proof.
  apply (parse_resets_in_exact "Resets in 12 Days (UTC)" 12 "day" 86400 true (as_bytes " (utc)")).
  - reflexivity.
  - lia.
  - vm_compute. congruence.
  - repeat constructor.
  - reflexivity.
  - vm_compute. reflexivity.
Defined.

Lemma classified_cooldown_valid_witness :
  0 < Dur.from_secs (3 * 3600) <= DURATION_MAX /\ Dur.from_secs (3 * 3600) mod NANOS_PER_SEC = 0.
Proof.
  apply (classified_cooldown_valid (as_bytes demo_limit_body) false Weekly). vm_compute. reflexivity.
Defined.

Definition demo_retry_after : @HeaderValue toy_headers := " 7 ".

Lemma parse_retry_after_spec_witness :
  (forall n, 0 <= n <= u64_max -> trim " 7 " = u64_to_string n ->
     parse_retry_after (fun _ => None) demo_retry_after 0 = Some (Dur.from_secs n))
  /\ (parse_u64 (trim " 7 ") = None -> forall t, @None Z = Some t ->
     parse_retry_after (fun _ => None) demo_retry_after 0 = Some (if t <=? 0 then 0 else t - 0))
  /\ (parse_u64 (trim " 7 ") = None -> @None Z = None ->
     parse_retry_after (fun _ => None) demo_retry_after 0 = None)
  /\ (forall d, parse_retry_after (fun _ => None) demo_retry_after 0 = Some d -> 0 <= d).
Proof. apply (parse_retry_after_spec (fun _ => None) demo_retry_after 0 " 7 "). reflexivity. Defined.
