(* ===== verification/Runtime.v ===== *)
(** * The hot-reloadable runtime ([RuntimeStore] of [src/src/gateway.rs])

    The store is a read-write lock around the current state.  The lock is
    explicit: a hot apply takes it, replaces the keys of the pool, publishes
    the state and gives it back, in separate steps, and everything the lock
    does not exclude may run in between. *)
From S2P Require Export PoolRequest Config.

(** ** Data *)

(** [struct RuntimeState]; the URL type belongs to the [url] crate. *)
Record RuntimeState (Url : Type) := mk_runtime {
  rt_gateway_keys : list GatewayKey;
  rt_base_url : Url;
  rt_max_body_bytes : Z;
  rt_key_aliases : gmap string string;
  rt_models : list string;
}.
Arguments mk_runtime {Url}.
Arguments rt_gateway_keys {Url}.
Arguments rt_base_url {Url}.
Arguments rt_max_body_bytes {Url}.
Arguments rt_key_aliases {Url}.
Arguments rt_models {Url}.

(** The read-write lock: free, held by some readers, or held by the writer of
    a hot apply before or after it has replaced the keys. *)
Inductive RwLock (Url : Type) :=
| Free
| Reading (readers : nat)
| Applying (keys : list Secret) (state : RuntimeState Url)
| Replaced (state : RuntimeState Url).
Arguments Free {Url}.
Arguments Reading {Url}.
Arguments Applying {Url}.
Arguments Replaced {Url}.

(** [struct RuntimeStore] and the pool it is published with. *)
Record Store (Url J : Type) := mk_store {
  st_lock : RwLock Url;
  st_runtime : RuntimeState Url;
  st_pool : KeyPool J;
}.
Arguments mk_store {Url J}.
Arguments st_lock {Url J}.
Arguments st_runtime {Url J}.
Arguments st_pool {Url J}.

(** ** Operations *)

Section Store.
Context `{Sha256} {Url J : Type} `{Jitter J}.

(** The model list replaced, everything else kept. *)
Definition set_models (models : list string) (s : RuntimeState Url) : RuntimeState Url :=
  mk_runtime (rt_gateway_keys s) (rt_base_url s) (rt_max_body_bytes s) (rt_key_aliases s) models.

(** [RuntimeStore::snapshot] *)
Definition snapshot (s : Store Url J) : RuntimeState Url := st_runtime s.

(** [RuntimeStore::snapshot_and_request], inside its read section. *)
Definition snapshot_and_request (now : Instant) (s : Store Url J)
    : option (RuntimeState Url * RequestAttempts) :=
  ra ← request now (st_pool s); Some (st_runtime s, ra).

(** [RuntimeStore::update] *)
Definition update (state : RuntimeState Url) (s : Store Url J) : Store Url J :=
  mk_store (st_lock s) state (st_pool s).

(** [RuntimeStore::update_models] *)
Definition update_models (models : list string) (s : Store Url J) : Store Url J :=
  update (set_models models (st_runtime s)) s.

(** The body of [RuntimeStore::update_with_keys] as one write section. *)
Definition update_with_keys (keys : list Secret) (state : RuntimeState Url) (s : Store Url J)
    : result PoolError (Store Url J) :=
  pool ← replace_keys keys (st_pool s);
  Ok (mk_store (st_lock s) state pool).

(** [RuntimeStore::update_with_keys_holding], the seam of the tests: with the lock
    taken it stops after the keys are replaced, until it is released. *)
Definition update_with_keys_holding (keys : list Secret) (state : RuntimeState Url) (s : Store Url J)
    : result PoolError (Store Url J) :=
  pool ← replace_keys keys (st_pool s);
  Ok (mk_store (Replaced state) (st_runtime s) pool).
Definition release_holding (s : Store Url J) : Store Url J :=
  match st_lock s with
  | Replaced state => mk_store Free state (st_pool s)
  | _ => s
  end.

(** The hot applies the program may ask for. *)
Context (requested : list Secret -> RuntimeState Url -> Prop).

(** The same step by step, with everything the lock admits in between: readers
    exclude writers, a writer excludes everyone, and the pool's own operations
    never take this lock.  A read section observes the state and the keys a
    request is built from. *)
Inductive store_step : Store Url J -> option (RuntimeState Url * list Secret) -> Store Url J -> Prop :=
| ss_read_lock s p :
    store_step (mk_store Free s p) None (mk_store (Reading 1) s p)
| ss_read_lock_more n s p :
    store_step (mk_store (Reading n) s p) None (mk_store (Reading (S n)) s p)
| ss_read n s p now ra :
    snapshot_and_request now (mk_store (Reading n) s p) = Some (s, ra) ->
    store_step (mk_store (Reading n) s p) (Some (s, rc_key <$> ra_candidates ra)) (mk_store (Reading n) s p)
| ss_read_unlock n s p :
    store_step (mk_store (Reading (S n)) s p) None (mk_store (if n is O then Free else Reading n) s p)
| ss_update_models m s p :
    store_step (mk_store Free s p) None (update_models m (mk_store Free s p))
| ss_write_lock keys state s p : requested keys state ->
    store_step (mk_store Free s p) None (mk_store (Applying keys state) s p)
| ss_replace keys state s p p' :
    replace_keys keys p = Ok p' ->
    store_step (mk_store (Applying keys state) s p) None (mk_store (Replaced state) s p')
| ss_replace_failed keys state s p e :
    replace_keys keys p = Err e ->
    store_step (mk_store (Applying keys state) s p) None (mk_store Free s p)
| ss_publish state s p :
    store_step (mk_store (Replaced state) s p) None (mk_store Free state p)
| ss_pool_quiet l s p p' : quiet_step p p' ->
    store_step (mk_store l s p) None (mk_store l s p')
| ss_pool_success l s p sel :
    store_step (mk_store l s p) None (mk_store l s (report_success sel p)).

(** Steps with the observations they make. *)
Inductive store_run : Store Url J -> list (RuntimeState Url * list Secret) -> Store Url J -> Prop :=
| run_refl s : store_run s [] s
| run_step s o s1 obs s2 : store_step s o s1 -> store_run s1 obs s2 ->
    store_run s (option_list o ++ obs) s2.

Definition state_of_pool (s : Store Url J) : PoolState := Pool.state (st_pool s).

(** A generation: the initial state with its keys, or one hot apply; the model
    list may have been refreshed since. *)
Definition generation (s0 : Store Url J) (state : RuntimeState Url) (keys : list Secret) : Prop :=
  exists g, (exists m, state = set_models m g \/ state = g)
    /\ ((g = st_runtime s0 /\ keys ≡ₚ ke_key <$> entries (state_of_pool s0))
        \/ exists ks, requested ks g /\ keys ≡ₚ ks).

End Store.

(** ** Theorems *)

Section StoreTheorems.
Context `{Sha256} {Url J : Type} `{Jitter J} (requested : list Secret -> RuntimeState Url -> Prop).
Implicit Types p : KeyPool J.
Implicit Types s : Store Url J.

(** Released at once it is [update_with_keys], and where it stops is one of the
    states the lock lets nobody see. *)
Lemma holding_is_update keys state (s : Store Url J) :
  st_lock s = Free ->
  update_with_keys keys state s
  = match update_with_keys_holding keys state s with Ok s' => Ok (release_holding s') | Err e => Err e end.
Proof.
  intros Hl. unfold update_with_keys, update_with_keys_holding.
  destruct (replace_keys keys (st_pool s)) as [p | e]; [by destruct s; simpl in *; subst | done].
Qed.
Lemma holding_steps keys state (s : Store Url J) s' :
  requested keys state -> st_lock s = Free -> update_with_keys_holding keys state s = Ok s' ->
  store_run requested s [] s'.
Proof.
  intros Hreq Hl Hup. destruct s as [l rt p]. simpl in Hl. subst l. unfold update_with_keys_holding in Hup. simpl in Hup.
  apply result_bind_ok in Hup as (p' & Hp & [= <-]).
  apply (run_step _ _ None _ [] _ (ss_write_lock _ keys state rt p Hreq)).
  apply (run_step _ _ None _ [] _ (ss_replace _ keys state rt p p' Hp)). constructor.
Qed.

Lemma reported_keys (R : KeyEntry -> KeyEntry -> Prop) fp p p' :
  reported R fp p p' -> (forall e e', R e e' -> ke_key e' = ke_key e) ->
  ke_key <$> entries (Pool.state p') = ke_key <$> entries (Pool.state p).
Proof.
  intros [_ _ He] HR. destruct He as [-> | (i & e & e' & Hf & -> & HRee)]; [done |].
  apply find_entry_some in Hf as (Hi & _). eapply fmap_insert_same; eauto.
Qed.

(** The pool's own operations never change its keys. *)
Lemma quiet_step_keys p p' :
  quiet_step p p' -> ke_key <$> entries (Pool.state p') = ke_key <$> entries (Pool.state p).
Proof.
  intros Hstep. destruct Hstep as [ra now p r p' Hrun | sel f now p p' Hrun | fp cd now p p' Hrun
    | sel model now p p' Hrun].
  - apply try_select_inv in Hrun. destruct r as [sel |]; [| by destruct Hrun as [-> _]].
    destruct Hrun as (k & c & _ & _ & _ & _ & Hclaim).
    apply claim_half_open_reported in Hclaim as [Hrep _].
    apply (reported_keys _ _ _ _ Hrep). by destruct 1.
  - apply report_failure_reported in Hrun as [Hrep _]. apply (reported_keys _ _ _ _ Hrep). by destruct 1.
  - apply report_proactive_reported in Hrun as [Hrep _]. apply (reported_keys _ _ _ _ Hrep). by destruct 1.
  - apply report_liveness_reported in Hrun as [Hrep _]. apply (reported_keys _ _ _ _ Hrep). by destruct 1.
Qed.

Lemma report_success_keys sel p :
  ke_key <$> entries (Pool.state (report_success sel p)) = ke_key <$> entries (Pool.state p).
Proof.
  pose proof (report_success_reported sel p) as [Hrep _].
  apply (reported_keys _ _ _ _ Hrep). by destruct 1.
Qed.

Lemma replace_keys_keys keys p p' :
  replace_keys keys p = Ok p' -> ke_key <$> entries (Pool.state p') = keys.
Proof.
  unfold replace_keys. intros (? & _ & [= <-])%result_bind_ok. simpl.
  rewrite <- list_fmap_compose. apply list_fmap_id.
Qed.

(** A request is built from exactly the keys of the pool. *)
Lemma request_keys now p ra :
  request now p = Some ra -> rc_key <$> ra_candidates ra ≡ₚ ke_key <$> entries (Pool.state p).
Proof.
  unfold request, request_with_model. intros (cands & Hc & (d & _ & [= <-])%bind_Some)%bind_Some. simpl.
  rewrite <- list_fmap_compose. change (rc_key ∘ _) with ke_key.
  assert (cands ≡ₚ entries (Pool.state p)) as ->; [| done].
  destruct (decide (length (entries (Pool.state p)) = 0)%nat) as [Hz | Hnz].
  - rewrite Hz in Hc. simpl in Hc. injection Hc as <-. by apply length_zero_iff_nil in Hz as ->.
  - set (es := entries (Pool.state p)) in *. set (cur := cursor (Pool.state p)) in *.
    assert (mapM (fun off => es !! ((cur + off) mod length es)%nat) (seq 0 (length es)) =
            mapM (fun off => es !! ((cur mod length es + off) mod length es)%nat) (seq 0 (length es))) as Heq.
    { apply mapM_ext. intros off. by rewrite Nat.Div0.add_mod_idemp_l. }
    rewrite Heq, request_rotation in Hc by (apply Nat.mod_upper_bound; lia).
    injection Hc as <-. rewrite Permutation_app_comm. by rewrite take_drop.
Qed.

(** What the lock protects. *)
Definition store_inv (s0 s : Store Url J) : Prop :=
  match st_lock s with
  | Replaced st => requested (ke_key <$> entries (state_of_pool s)) st
  | Applying keys st => requested keys st /\
      generation requested s0 (st_runtime s) (ke_key <$> entries (state_of_pool s))
  | _ => generation requested s0 (st_runtime s) (ke_key <$> entries (state_of_pool s))
  end.

Lemma generation_models s0 m st ks :
  generation requested s0 st ks -> generation requested s0 (set_models m st) ks.
Proof.
  intros (g & (m' & Hst) & Hg). exists g. split; [| done]. exists m. left.
  by destruct Hst as [-> | ->].
Qed.

Lemma generation_perm s0 st ks ks' :
  ks' ≡ₚ ks -> generation requested s0 st ks -> generation requested s0 st ks'.
Proof.
  intros Hp (g & Hst & Hg). exists g. split; [done |].
  destruct Hg as [[? Hk] | (k & ? & Hk)]; [left | right; exists k]; by rewrite Hp.
Qed.

Lemma store_step_inv s0 s o s' :
  store_inv s0 s -> store_step requested s o s' ->
  store_inv s0 s' /\ forall st ks, o = Some (st, ks) -> generation requested s0 st ks.
Proof.
  intros Hinv Hstep. destruct Hstep as [r p | n r p | n r p now ra Hreq | n r p | m r p
    | keys st r p Hr | keys st r p p' Hk | keys st r p e Hk | st r p | l r p p' Hq | l r p sel];
    unfold store_inv, state_of_pool in *; simpl in *; try (by split).
  - split; [done |]. intros st ks [= <- <-]. apply bind_Some in Hreq as (ra' & Hreq & [= ->]).
    eapply generation_perm; [by eapply request_keys | done].
  - split; [| done]. by destruct n.
  - split; [| done]. by apply generation_models.
  - split; [| done]. rewrite (replace_keys_keys _ _ _ Hk). by destruct Hinv.
  - split; [| done]. by destruct Hinv.
  - split; [| done]. exists st. split; [exists []; by right |]. right. eauto.
  - split; [| done]. rewrite (quiet_step_keys _ _ Hq). done.
  - split; [| done]. rewrite report_success_keys. done.
Qed.

Lemma store_run_generations s0 obs s1 s :
  store_run requested s1 obs s -> store_inv s0 s1 ->
  Forall (fun o => generation requested s0 o.1 o.2) obs.
Proof.
  intros Hrun. induction Hrun as [| s1 o s2 obs s Hstep _ IH]; [constructor |].
  intros Hinv. destruct (store_step_inv _ _ _ _ Hinv Hstep) as [Hinv' Hobs].
  apply Forall_app. split; [| by apply IH]. destruct o as [[st ks] |]; simpl; [| constructor].
  constructor; [by apply Hobs | constructor].
Qed.

Lemma replace_keys_keeps p p' keys k e :
  replace_keys keys p = Ok p' -> k ∈ keys -> key_state p (fingerprint (as_str k)) = Some e ->
  exists e', key_state p' (fingerprint (as_str k)) = Some e' /\ same_health e e'.
Proof.
  unfold replace_keys. intros (? & _ & [= <-])%result_bind_ok Hk He. unfold key_state in *. simpl.
  rewrite find_entry_carry.
  destruct (list_find _ keys) as [[i k'] |] eqn:Hf.
  - apply list_find_Some in Hf as (_ & Hfp & _). simpl. eexists. split; [done |].
    unfold carry_entry. rewrite Hfp.
    destruct (find_entry _ (entries (Pool.state p))) as [[j e0] |] eqn:Hold; [| done].
    simpl in He. injection He as ->. apply find_entry_some in Hold as (_ & Hefp & _).
    unfold same_health. simpl. by rewrite Hefp.
  - apply list_find_None in Hf. rewrite Forall_forall in Hf. by specialize (Hf k Hk).
Qed.

(** C15. A hot reload is atomic: whatever requests, reports, model refreshes and
    hot applies interleave, every request observes a runtime state together
    with the keys of the same generation (the initial one or one requested
    apply), never the tokens of one generation with the keys of another.
    A failed key replacement publishes nothing. *)
Theorem hot_reload_atomic s0 obs s :
  st_lock s0 = Free -> store_run requested s0 obs s ->
  Forall (fun o => generation requested s0 o.1 o.2) obs.
Proof.
  intros Hfree Hrun. apply (store_run_generations s0 obs s0 s); [done |].
  unfold store_inv. rewrite Hfree. exists (st_runtime s0). split; [exists []; by right | by left].
Qed.

(** A hot apply is all or nothing: with a non-empty key list it publishes
    the new state, keeps the health of every key that stays, and the pool
    holds exactly the new keys; with an empty one it fails and changes
    neither the state nor the pool. *)
Theorem update_with_keys_all_or_nothing keys st s :
  match update_with_keys keys st s with
  | Err e => keys = [] /\ e = EmptyKeys
  | Ok s' => keys <> [] /\ snapshot s' = st /\ st_lock s' = st_lock s
      /\ ke_key <$> entries (state_of_pool s') = keys
      /\ forall k e, k ∈ keys -> key_state (st_pool s) (fingerprint (as_str k)) = Some e ->
           exists e', key_state (st_pool s') (fingerprint (as_str k)) = Some e' /\ same_health e e'
  end.
Proof.
  unfold update_with_keys. destruct (replace_keys keys (st_pool s)) as [p |] eqn:Hr; simpl.
  - split_and!; try done.
    + intros ->. done.
    + by apply (replace_keys_keys _ _ _ Hr).
    + intros k e Hk He. by apply (replace_keys_keeps _ _ _ _ _ Hr).
  - unfold replace_keys in Hr. case_bool_decide; [| done]. by injection Hr as <-.
Qed.
End StoreTheorems.

(** ** At concrete inputs *)

#[local] Existing Instance demo_sha256.

Definition demo_runtime : RuntimeState unit := mk_runtime [] () 1 ∅ ["a"].
Definition demo_store : Store unit NoJitter := mk_store Free demo_runtime demo_pool.
Definition demo_new_keys : list Secret := [secret_new "sk-gamma"].
Definition demo_new_runtime : RuntimeState unit := mk_runtime [] () 2 ∅ ["b"].

Definition demo_new_pool : KeyPool NoJitter :=
  match replace_keys demo_new_keys demo_pool with Ok p => p | Err _ => demo_pool end.
Definition demo_new_request : RequestAttempts := default demo_request (request 0 demo_new_pool).

Lemma hot_reload_atomic_witness :
  Forall (fun o => generation (fun ks st => ks = demo_new_keys /\ st = demo_new_runtime) demo_store o.1 o.2)
    [(demo_new_runtime, rc_key <$> ra_candidates demo_new_request)].
Proof.
  apply (hot_reload_atomic (fun ks st => ks = demo_new_keys /\ st = demo_new_runtime) demo_store _
    (mk_store (Reading 1) demo_new_runtime demo_new_pool)).
  - reflexivity.
  - eapply (run_step _ _ None); [by apply ss_write_lock |].
    eapply (run_step _ _ None); [by apply (ss_replace _ _ _ _ _ demo_new_pool) |].
    eapply (run_step _ _ None); [apply ss_publish |].
    eapply (run_step _ _ None); [apply ss_read_lock |].
    eapply (run_step _ _ (Some _)); [| apply run_refl].
    apply (ss_read _ 1 demo_new_runtime _ 0 demo_new_request). vm_compute. reflexivity.
Defined.
