(* ===== verification/App.v ===== *)
(** * Assembling the runtime ([src/src/app.rs], [GatewayState::with_runtime])

    What [assemble] builds from a validated configuration, with every panic it
    could reach: the two [expect]s on [u32::try_from], the [expect] on the
    built-in URL, the assertions of the queue and of the body budget, and the
    documented panic of [Semaphore::new] above the permit limit.  Starting the
    HTTP client, the audit writer and the two monitors is input and output:
    their results are arguments. *)
From S2P Require Export Runtime ConfigProps Queue.

(** ** Definitions *)

(** [struct IoTimeouts] *)
Record IoTimeouts := mk_io_timeouts {
  io_body_read : Duration;
  io_upstream_header : Duration;
  io_first_event : Duration;
  io_inter_event : Duration;
  io_upstream_error_body : Duration;
  io_response_write : Duration;
}.

(** [<IoTimeouts as Default>::default] *)
Definition io_timeouts_default : IoTimeouts :=
  mk_io_timeouts (Dur.from_secs 30) (Dur.from_secs 60) (Dur.from_secs 60) (Dur.from_secs 90)
    (Dur.from_secs 5) (Dur.from_secs 30).

(** [enum BootstrapError] *)
Inductive BootstrapError (AuditError ClientError : Type) :=
| BootAudit (e : AuditError)
| BootPool (e : PoolError)
| BootClient (e : ClientError).
Arguments BootAudit {AuditError ClientError}.
Arguments BootPool {AuditError ClientError}.
Arguments BootClient {AuditError ClientError}.

(** [<BootstrapError as Display>::fmt] *)
Definition display_bootstrap_error {AuditError ClientError} (show_audit : AuditError -> string)
    (show_client : ClientError -> string) (e : BootstrapError AuditError ClientError) : string :=
  match e with
  | BootAudit e => "cannot start audit logging: " +:+ show_audit e
  | BootPool e => "cannot build the key pool: " +:+ display_pool_error e
  | BootClient e => "cannot build the upstream client: " +:+ show_client e
  end.

(** The parts of [GatewayState] and [AppRuntime] that carry state. *)
Record AppRuntime (Url Sem J Http Writer UsageM ModelM : Type) := mk_app {
  app_http : Http;
  app_pool : KeyPool J;
  app_queue : AdmissionQueue Sem;
  app_runtime : RuntimeState Url;
  app_audit : Writer;
  app_body_budget : BodyBudget Sem;
  app_stream_slots : Sem;
  app_timeouts : IoTimeouts;
  app_model_event_timeouts : gmap string EventTimeouts.t;
  app_usage_monitor : option UsageM;
  app_model_monitor : option ModelM;
}.
Arguments mk_app {Url Sem J Http Writer UsageM ModelM}.
Arguments app_http {Url Sem J Http Writer UsageM ModelM}.
Arguments app_pool {Url Sem J Http Writer UsageM ModelM}.
Arguments app_queue {Url Sem J Http Writer UsageM ModelM}.
Arguments app_runtime {Url Sem J Http Writer UsageM ModelM}.
Arguments app_audit {Url Sem J Http Writer UsageM ModelM}.
Arguments app_body_budget {Url Sem J Http Writer UsageM ModelM}.
Arguments app_stream_slots {Url Sem J Http Writer UsageM ModelM}.
Arguments app_timeouts {Url Sem J Http Writer UsageM ModelM}.
Arguments app_model_event_timeouts {Url Sem J Http Writer UsageM ModelM}.
Arguments app_usage_monitor {Url Sem J Http Writer UsageM ModelM}.
Arguments app_model_monitor {Url Sem J Http Writer UsageM ModelM}.

(** [u32::try_from(n)] on a [usize] *)
Definition u32_try_from (n : Z) : option Z := if n <=? u32_max then Some n else None.

(** The slots for streaming responses in [GatewayState::with_runtime]. *)
Definition max_streams (max_concurrency : Z) : Z := Z.max (max_concurrency / 4) 1.

(** [GatewayState::event_timeouts_for] *)
Definition event_timeouts_for (by_model : gmap string EventTimeouts.t) (timeouts : IoTimeouts)
    (model : string) : EventTimeouts.t :=
  default (EventTimeouts.mk (io_first_event timeouts) (io_inter_event timeouts)) (by_model !! model).

Section Assemble.
Context `{Sha256} {Url Sem J Http Writer UsageM ModelM AuditError ClientError : Type}
  `{Semaphore Sem} `{Jitter J}.
Context (MAX_PERMITS : Z) (url_parse : string -> option Url) (j0 : J).
(** The results of starting the HTTP client, the audit writer and the monitors. *)
Context (build_upstream_client : result ClientError Http)
  (audit_start : string -> Z -> result AuditError Writer)
  (usage_start : Usage.t -> string -> list Secret -> result ClientError UsageM)
  (model_start : ModelSync.t -> result ClientError ModelM).

(** [Semaphore::new] with the panic the crate documents. *)
Definition checked_semaphore (n : Z) : option Sem :=
  if n <=? MAX_PERMITS then Some (sem_new n) else None.

(** The pool policy of a configuration; [None] is the panic of the [expect]. *)
Definition pool_policy (k : KeyFailureHandling.t) : option PoolPolicy :=
  threshold ← u32_try_from (KeyFailureHandling.breaker_threshold k);
  Some (mk_policy (KeyFailureHandling.backoff_initial k) (KeyFailureHandling.backoff_max k)
          threshold (KeyFailureHandling.breaker_cooldown k) WAIT_TIMEOUT
          (KeyFailureHandling.max_attempts k)).

(** The timeouts of a configuration. *)
Definition io_timeouts_of (s : Server.t) : IoTimeouts :=
  mk_io_timeouts (Server.body_read_timeout s) (Server.upstream_response_header_timeout s)
    (Server.first_event_timeout s) (Server.inter_event_timeout s)
    (Server.upstream_error_body_timeout s) (Server.response_write_timeout s).

(** The first [RuntimeState]. *)
Definition runtime_of (cfg : Config.t) : option (RuntimeState Url) :=
  base ← url_parse OPENCODE_GO_BASE_URL;
  Some (mk_runtime (Config.gateway_keys cfg) base (Limits.max_body_bytes (Config.limits cfg))
          (Config.key_aliases cfg) (Config.models cfg)).

(** [AdmissionQueue::new] and [BodyBudget::new] with the panics of the
    semaphores they create. *)
Definition new_queue (l : Limits.t) : option (AdmissionQueue Sem) :=
  _ ← checked_semaphore (Limits.max_concurrency l);
  _ ← checked_semaphore (Limits.max_queue l);
  queue_new (Limits.max_concurrency l) (Limits.max_queue l) (Limits.queue_wait_timeout l).
Definition new_budget (l : Limits.t) : option (BodyBudget Sem) :=
  per ← u32_try_from (Limits.max_body_bytes l);
  _ ← checked_semaphore (Limits.max_inflight_body_bytes l);
  budget_new (Limits.max_inflight_body_bytes l) per.

(** [assemble], with [GatewayState::with_runtime]; [None] is a panic. *)
Definition assemble (cfg : Config.t)
    : option (result (BootstrapError AuditError ClientError)
                (AppRuntime Url Sem J Http Writer UsageM ModelM)) :=
  match build_upstream_client with
  | Err e => Some (Err (BootClient e))
  | Ok http =>
      pol ← pool_policy (Config.key_failure_handling cfg);
      match with_jitter (Config.keys cfg) pol j0 with
      | Err e => Some (Err (BootPool e))
      | Ok pool =>
          queue ← new_queue (Config.limits cfg);
          runtime ← runtime_of cfg;
          match audit_start (Audit.path (Config.audit cfg)) (Audit.queue_capacity (Config.audit cfg)) with
          | Err e => Some (Err (BootAudit e))
          | Ok audit =>
              budget ← new_budget (Config.limits cfg);
              slots ← checked_semaphore (max_streams (qs_max_concurrency (queue_snapshot queue)));
              match usage_start (Config.usage cfg) (Config.usage_history_dir cfg) (Config.keys cfg) with
              | Err e => Some (Err (BootClient e))
              | Ok usage_monitor =>
                  match model_start (Config.model_sync cfg) with
                  | Err e => Some (Err (BootClient e))
                  | Ok model_monitor =>
                      Some (Ok (mk_app http pool queue runtime audit budget slots
                        (io_timeouts_of (Config.server cfg))
                        (Server.model_event_timeouts (Config.server cfg))
                        (Some usage_monitor) (Some model_monitor)))
                  end
              end
          end
      end
  end.

End Assemble.

(** ** Theorems *)

Section AssembleTheorems.
Context `{Sha256} {Url Sem J Http Writer UsageM ModelM AuditError ClientError : Type}
  `{Semaphore Sem} `{Jitter J}.
Context (MAX_PERMITS : Z) (url_parse : string -> option Url) (j0 : J).
Context (build_upstream_client : result ClientError Http)
  (audit_start : string -> Z -> result AuditError Writer)
  (usage_start : Usage.t -> string -> list Secret -> result ClientError UsageM)
  (model_start : ModelSync.t -> result ClientError ModelM).

Lemma u32_try_from_some n : n <= u32_max -> u32_try_from n = Some n.
Proof. intros Hn. unfold u32_try_from. by destruct (Z.leb_spec n u32_max); [| lia]. Qed.

Lemma checked_semaphore_some n : n <= MAX_PERMITS -> checked_semaphore MAX_PERMITS n = Some (sem_new n).
Proof. intros Hn. unfold checked_semaphore. by destruct (Z.leb_spec n MAX_PERMITS); [| lia]. Qed.

(** A validated failure policy is a pool policy the pool accepts. *)
Lemma pool_policy_valid k :
  key_failure_valid k ->
  exists pol, pool_policy k = Some pol /\ Pool.validate pol = Ok tt
    /\ backoff_initial pol = KeyFailureHandling.backoff_initial k
    /\ backoff_max pol = KeyFailureHandling.backoff_max k
    /\ breaker_threshold pol = KeyFailureHandling.breaker_threshold k
    /\ breaker_cooldown pol = KeyFailureHandling.breaker_cooldown k
    /\ wait_timeout pol = WAIT_TIMEOUT /\ max_attempts pol = KeyFailureHandling.max_attempts k.
Proof.
  intros (Hb & Hm & Ht & Hc & Ha). unfold pool_policy. rewrite u32_try_from_some by lia. simpl.
  eexists. split; [done |]. split_and!; try done. unfold Pool.validate. simpl.
  unfold timeout_ok in Hc. unfold bail_if, Dur.is_zero.
  repeat match goal with
  | |- context [?a =? ?b] => replace (a =? b) with false by (symmetry; apply Z.eqb_neq; lia)
  | |- context [?a <? ?b] => replace (a <? b) with false by (symmetry; apply Z.ltb_ge; lia)
  end.
  simpl. destruct (Z.leb_spec 1 (KeyFailureHandling.max_attempts k)); [| lia].
  by destruct (Z.leb_spec (KeyFailureHandling.max_attempts k) 2); [| lia].
Qed.

Lemma new_queue_some l :
  limits_valid MAX_PERMITS l ->
  new_queue MAX_PERMITS l = Some (mk_queue (sem_new (Limits.max_concurrency l)) (sem_new (Limits.max_queue l))
    (Limits.max_concurrency l) (Limits.max_queue l) (Limits.queue_wait_timeout l)).
Proof.
  intros (Hc & Hq & [Ht _] & _). unfold new_queue.
  rewrite !checked_semaphore_some by lia. simpl. unfold queue_new.
  destruct (Z.ltb_spec 0 (Limits.max_concurrency l)); [| lia].
  by destruct (Z.ltb_spec 0 (Limits.queue_wait_timeout l)); [| lia].
Qed.

Lemma new_budget_some l :
  u32_max <= MAX_PERMITS -> limits_valid MAX_PERMITS l ->
  new_budget MAX_PERMITS l = Some (mk_budget (sem_new (Limits.max_inflight_body_bytes l))
    (Limits.max_body_bytes l) (Limits.max_inflight_body_bytes l)).
Proof.
  intros Hmax (_ & _ & _ & Hb & Hi). unfold new_budget. rewrite u32_try_from_some by lia. simpl.
  rewrite checked_semaphore_some by lia. simpl. unfold budget_new.
  destruct (Z.ltb_spec 0 (Limits.max_inflight_body_bytes l)); [| lia].
  by destruct (Z.leb_spec (Limits.max_body_bytes l) (Limits.max_inflight_body_bytes l)); [| lia].
Qed.

(** What is promised of an assembled gateway, setting by setting. *)
Record as_configured (cfg : Config.t) (base : Url) (app : AppRuntime Url Sem J Http Writer UsageM ModelM) : Prop := {
  ac_keys : entries (Pool.state (app_pool app))
    = (fun key => mk_entry key (fingerprint (as_str key)) (key_suffix (as_str key)) None None None 0 0 None false ∅)
        <$> Config.keys cfg;
  ac_start : cursor (Pool.state (app_pool app)) = 0%nat /\ next_id (app_pool app) = 0;
  ac_policy : policy (app_pool app)
    = mk_policy (KeyFailureHandling.backoff_initial (Config.key_failure_handling cfg))
        (KeyFailureHandling.backoff_max (Config.key_failure_handling cfg))
        (KeyFailureHandling.breaker_threshold (Config.key_failure_handling cfg))
        (KeyFailureHandling.breaker_cooldown (Config.key_failure_handling cfg))
        (Dur.from_secs 30)
        (KeyFailureHandling.max_attempts (Config.key_failure_handling cfg));
  ac_queue : app_queue app
    = mk_queue (sem_new (Limits.max_concurrency (Config.limits cfg))) (sem_new (Limits.max_queue (Config.limits cfg)))
        (Limits.max_concurrency (Config.limits cfg)) (Limits.max_queue (Config.limits cfg))
        (Limits.queue_wait_timeout (Config.limits cfg));
  ac_budget : app_body_budget app
    = mk_budget (sem_new (Limits.max_inflight_body_bytes (Config.limits cfg)))
        (Limits.max_body_bytes (Config.limits cfg)) (Limits.max_inflight_body_bytes (Config.limits cfg));
  ac_slots : app_stream_slots app = sem_new (Z.max (Limits.max_concurrency (Config.limits cfg) / 4) 1);
  ac_runtime : app_runtime app
    = mk_runtime (Config.gateway_keys cfg) base (Limits.max_body_bytes (Config.limits cfg)) (Config.key_aliases cfg)
        (Config.models cfg);
  ac_timeouts : app_timeouts app
    = mk_io_timeouts (Server.body_read_timeout (Config.server cfg))
        (Server.upstream_response_header_timeout (Config.server cfg))
        (Server.first_event_timeout (Config.server cfg)) (Server.inter_event_timeout (Config.server cfg))
        (Server.upstream_error_body_timeout (Config.server cfg)) (Server.response_write_timeout (Config.server cfg));
  ac_model_timeouts : app_model_event_timeouts app = Server.model_event_timeouts (Config.server cfg);
  ac_started : build_upstream_client = Ok (app_http app)
    /\ audit_start (Audit.path (Config.audit cfg)) (Audit.queue_capacity (Config.audit cfg)) = Ok (app_audit app)
    /\ (exists um, usage_start (Config.usage cfg) (Config.usage_history_dir cfg) (Config.keys cfg) = Ok um
          /\ app_usage_monitor app = Some um)
    /\ (exists mm, model_start (Config.model_sync cfg) = Ok mm /\ app_model_monitor app = Some mm);
}.

(** C25. A validated configuration always assembles: startup never panics (no
    [expect], assertion or semaphore limit is hit) and never fails in the
    pool; a failure is the HTTP client's, the audit writer's or a monitor's.
    What is assembled is what was configured: a fresh pool (no key has failed or
    is cooling, for itself or for a model) over exactly the configured keys with
    the configured failure policy, an idle admission queue, body budget and
    streaming slots (at least one) of the configured sizes, the runtime state and
    the timeouts of the configuration, and the parts that were started for it. *)
Theorem assemble_never_panics cfg base :
  config_valid MAX_PERMITS cfg -> u32_max <= MAX_PERMITS ->
  url_parse OPENCODE_GO_BASE_URL = Some base ->
  exists r, assemble MAX_PERMITS url_parse j0 build_upstream_client audit_start usage_start
              model_start cfg = Some r
    /\ match r with
       | Err (BootPool _) => False
       | Err (BootClient e) => build_upstream_client = Err e
           \/ usage_start (Config.usage cfg) (Config.usage_history_dir cfg) (Config.keys cfg) = Err e
           \/ model_start (Config.model_sync cfg) = Err e
       | Err (BootAudit e) => audit_start (Audit.path (Config.audit cfg)) (Audit.queue_capacity (Config.audit cfg)) = Err e
       | Ok app => as_configured cfg base app /\ pool_wf (app_pool app)
           /\ 1 <= Z.max (Limits.max_concurrency (Config.limits cfg) / 4) 1
       end.
Proof.
  intros Hcfg Hmax Hurl. pose proof (cv_limits _ _ Hcfg) as Hl.
  unfold assemble. destruct build_upstream_client as [http | e] eqn:Hhttp; [| eexists; split; [done |]; by left].
  destruct (pool_policy_valid _ (cv_key_failure _ _ Hcfg)) as (pol & Hpol & Hval & _).
  rewrite Hpol. cbn [mbind option_bind]. unfold with_jitter. rewrite Hval. cbn [mbind result_bind].
  rewrite bool_decide_false by apply (cv_keys_nonempty _ _ Hcfg). cbn [bail_if].
  rewrite new_queue_some by done. cbn [mbind option_bind]. unfold runtime_of. rewrite Hurl.
  cbn [mbind option_bind]. destruct (audit_start _ _) as [audit | e] eqn:Haudit; [| by eexists].
  rewrite new_budget_some by done. cbn [mbind option_bind queue_snapshot qs_max_concurrency aq_max_concurrency].
  assert (max_streams (Limits.max_concurrency (Config.limits cfg)) <= MAX_PERMITS) as Hs.
  { destruct Hl as (Hc & _). unfold max_streams.
    assert (Limits.max_concurrency (Config.limits cfg) / 4 <= Limits.max_concurrency (Config.limits cfg))
      by (apply Z.div_le_upper_bound; lia). lia. }
  rewrite checked_semaphore_some by done. cbn [mbind option_bind].
  destruct (usage_start _ _ _) as [um | e] eqn:Husage; [| eexists; split; [done |]; by right; left].
  destruct (model_start _) as [mm | e] eqn:Hmodels; [| eexists; split; [done |]; by right; right].
  eexists. split; [done |]. split_and!; [| | lia].
  - unfold pool_policy in Hpol. rewrite u32_try_from_some in Hpol by apply (cv_key_failure _ _ Hcfg).
    injection Hpol as <-. by split; [.. | split_and!; [done | done | by exists um | by exists mm]].
  - apply (with_jitter_wf (Config.keys cfg) pol j0). unfold with_jitter. rewrite Hval. cbn [mbind result_bind].
    by rewrite bool_decide_false by apply (cv_keys_nonempty _ _ Hcfg).
Qed.
End AssembleTheorems.

#[local] Existing Instance demo_config_sha256.

Lemma assemble_never_panics_witness :
  exists app, assemble (Sem := FairSem) (AuditError := unit) (ClientError := unit)
              demo_permits Some no_jitter (Ok tt) (fun _ _ => Ok tt)
              (fun _ _ _ => Ok tt) (fun _ => Ok tt) demo_config = Some (Ok app)
    /\ ke_liveness_cooling <$> entries (Pool.state (app_pool app)) = [∅; ∅]
    /\ rt_base_url (app_runtime app) = OPENCODE_GO_BASE_URL
    /\ max_attempts (policy (app_pool app)) = KeyFailureHandling.max_attempts (Config.key_failure_handling demo_config).
Proof.
  destruct (assemble_never_panics (Sem := FairSem) (AuditError := unit) (ClientError := unit)
              demo_permits Some no_jitter (Ok tt) (fun _ _ => Ok tt)
              (fun _ _ _ => Ok tt) (fun _ => Ok tt) demo_config OPENCODE_GO_BASE_URL) as (r & Hr & Hok).
  - exact (config_try_from_valid _ _ _ demo_raw_typed demo_raw_loads).
  - by cbv.
  - reflexivity.
  - destruct r as [app | [e | e | e]];
      [| discriminate Hok | destruct Hok | destruct Hok as [Hno | [Hno | Hno]]; discriminate Hno].
    destruct Hok as [[Hk _ Hp _ _ _ Hrt _ _ _] _]. exists app. split; [exact Hr |].
    rewrite Hk, Hrt, Hp. split; [vm_compute; reflexivity | split; reflexivity].
Defined.
