(* ===== verification/Http.v ===== *)
(** * Requests at the edge: credentials, identifiers, headers

    [check_auth], [authenticate_gateway_key], [check_proxy_auth],
    [request_id_for], [generate_request_id], [RequestAudit::from_headers], the
    header filters and [forward_request] of [src/src/gateway.rs]. *)
From S2P Require Export Runtime Json.

(** ** Authentication *)

(** [ct_eq] of the [subtle] crate on byte slices. *)
Class CtEq := ct_eq : bytes -> bytes -> bool.
Class CtEqLaws `(CtEq) : Prop := ct_eq_iff : forall a b, ct_eq a b = true <-> a = b.

(** [struct GatewayIdentity] *)
Record GatewayIdentity := mk_identity { gi_name : string; gi_fallback_session_id : string }.

Section Auth.
Context `{Sha256} `{CtEq} `{HttpHeaders} {Url : Type}.

(** [authenticate_gateway_key]: every key is compared, a later match wins. *)
Definition authenticate_gateway_key (keys : list GatewayKey) (given : string) : option GatewayIdentity :=
  foldl (fun matched key =>
    if ct_eq (as_bytes given) (as_bytes (as_str (gk_token key)))
    then Some (mk_identity (gk_name key) ("orihsus-" +:+ fingerprint given))
    else matched) None keys.

(** [check_auth]; [None] is the 401 of [unauthorized]. *)
Definition check_auth (rt : RuntimeState Url) (headers : HeaderMap) : option GatewayIdentity :=
  let header := header_get headers "authorization" ≫= to_str in
  let given := default "" (header ≫= fun h => strip_prefix h "Bearer ") in
  authenticate_gateway_key (rt_gateway_keys rt) given.

(** [check_proxy_auth]; the runtime is read again for the second attempt. *)
Definition check_proxy_auth (rt rt' : RuntimeState Url) (headers : HeaderMap) (api : UpstreamApi)
    : option GatewayIdentity :=
  match check_auth rt headers with
  | Some identity => Some identity
  | None =>
      if bool_decide (api = Messages)
      then let given := default "" (header_get headers "x-api-key" ≫= to_str) in
           authenticate_gateway_key (rt_gateway_keys rt') given
      else None
  end.

(** ** Request identifiers *)

(** [generate_request_id], for the wall clock's nanoseconds (absent before the
    epoch) and the value drawn from the counter. *)
Definition generate_request_id (since_epoch : option Z) (n : Z) : string :=
  of_bytes (hex_fixed 16 (default 0 (wrap64 <$> since_epoch)) ++ hex_fixed 16 n).

Definition request_id_byte (b : ascii) : bool :=
  is_ascii_alphanumeric b || Ascii.eqb b "-" || Ascii.eqb b "_" || Ascii.eqb b ".".

Definition valid_request_id (v : string) : bool :=
  negb (str_is_empty v) && (str_len v <=? 128) && forallb request_id_byte (as_bytes v).

(** [request_id_for]; the counter advances only when an identifier is made. *)
Definition request_id_for (headers : HeaderMap) (since_epoch : option Z) (counter : Z) : string * Z :=
  let candidate := trim <$> (header_get headers "x-request-id" ≫= to_str) in
  match candidate with
  | Some v => if valid_request_id v then (v, counter)
              else (generate_request_id since_epoch counter, wrap64 (counter + 1))
  | None => (generate_request_id since_epoch counter, wrap64 (counter + 1))
  end.

(** ** Header classes *)

(** [HOP_BY_HOP] *)
Definition HOP_BY_HOP : list string :=
  ["connection"; "keep-alive"; "proxy-authenticate"; "proxy-authorization"; "te"; "trailer";
   "transfer-encoding"; "upgrade"].

(** [is_hop_by_hop] *)
Definition is_hop_by_hop (lowercased : string) : bool := bool_decide (lowercased ∈ HOP_BY_HOP).

(** [connection_named_headers] *)
Definition connection_named_headers (headers : HeaderMap) : gset string :=
  list_to_set (concat ((fun v => match to_str v with
    | Some s => (fun part => to_ascii_lowercase (trim (of_bytes part))) <$> bytes_split "," (as_bytes s)
    | None => []
    end) <$> header_get_all headers "connection")).

Definition SENSITIVE : list string :=
  ["authorization"; "proxy-authorization"; "cookie"; "cookie2"; "x-api-key"; "api-key";
   "x-real-ip"; "forwarded"; "x-forwarded-for"; "x-forwarded-host"; "x-forwarded-proto";
   "x-forwarded-port"; "baggage"; "traceparent"; "tracestate"; "b3"; "x-ot-span-context";
   "grpc-trace-bin"].

(** [is_sensitive_request_header] *)
Definition is_sensitive_request_header (lowercased : string) : bool :=
  bool_decide (lowercased ∈ SENSITIVE)
  || ends_with lowercased "-authorization" || ends_with lowercased "-api-key"
  || starts_with lowercased "x-forwarded-" || starts_with lowercased "x-b3-".

(** [should_forward_request_header] *)
Definition should_forward_request_header (lowercased : string) (connection : gset string)
    (api : UpstreamApi) : bool :=
  if is_hop_by_hop lowercased || bool_decide (lowercased ∈ connection)
     || is_sensitive_request_header lowercased then false
  else
    starts_with lowercased "x-opencode-"
    || bool_decide (lowercased ∈ ["content-type"; "accept"; "user-agent"])
    || (bool_decide (api = Messages)
        && bool_decide (lowercased ∈ ["anthropic-version"; "anthropic-beta"])).

(** [OPENCODE_SESSION_HEADER] *)
Definition OPENCODE_SESSION_HEADER : string := "x-opencode-session".

(** [filter_response_headers]: the forwarded headers in their order. *)
Definition filter_response_headers (headers : HeaderMap) : list (string * HeaderValue) :=
  let connection := connection_named_headers headers in
  filter (fun nv : string * HeaderValue =>
    let lname := to_ascii_lowercase nv.1 in
    Is_true (negb (is_hop_by_hop lname || bool_decide (lname ∈ connection))
             && negb (bool_decide (lname = "content-length") || bool_decide (lname = "transfer-encoding"))))
    (header_iter headers).

(** ** Forwarding *)

(** The headers [forward_request] puts on the upstream request; a string value
    goes through the conversion of the [http] crate, whose failure makes
    [send] fail. *)
Definition upstream_headers (header_from_str : string -> option HeaderValue) (key : Secret)
    (headers : HeaderMap) (fallback_session_id : string) (api : UpstreamApi)
    : option (list (string * HeaderValue)) :=
  let connection := connection_named_headers headers in
  let forwarded := filter (fun nv : string * HeaderValue =>
    Is_true (should_forward_request_header (to_ascii_lowercase nv.1) connection api))
    (header_iter headers) in
  session ← (if negb (header_contains headers OPENCODE_SESSION_HEADER)
             then v ← header_from_str fallback_session_id; Some [(OPENCODE_SESSION_HEADER, v)]
             else Some []);
  credential ← (if bool_decide (api = Messages)
                then v ← header_from_str (as_str key); Some [("x-api-key", v)]
                else v ← header_from_str ("Bearer " +:+ as_str key); Some [("authorization", v)]);
  Some (forwarded ++ session ++ credential).

(** [forward_request], for the [join] of the URL crate and the network send;
    [None] is the panic of [upstream_api_url]. *)
Definition forward_request {Response Error} (header_from_str : string -> option HeaderValue)
    (join : Url -> string -> option Url) (builder_error : Error)
    (post : Url -> list (string * HeaderValue) -> bytes -> result Error Response)
    (sel : Selection) (headers : HeaderMap) (fallback_session_id : string) (body : bytes)
    (base_url : Url) (api : UpstreamApi) : option (result Error Response) :=
  url ← upstream_api_url join base_url api;
  match upstream_headers header_from_str (sel_key sel) headers fallback_session_id api with
  | Some hs => Some (post url hs body)
  | None => Some (Err builder_error)
  end.

(** ** Audit identifiers *)

(** [MAX_AUDIT_ID_BYTES] *)
Definition MAX_AUDIT_ID_BYTES : Z := 256.

(** [bounded], the helper of [RequestAudit::from_headers] *)
Definition bounded_header (headers : HeaderMap) (name : string) : option string :=
  v ← header_get headers name;
  s ← to_str v;
  if str_len s <=? MAX_AUDIT_ID_BYTES then Some s else None.

End Auth.

(** ** Theorems *)

Section AuthTheorems.
Context `{Sha256} `{CtEqLaws} `{HttpHeaders} {Url : Type}.

Lemma authenticate_app keys k given :
  authenticate_gateway_key (keys ++ [k]) given =
  if ct_eq (as_bytes given) (as_bytes (as_str (gk_token k)))
  then Some (mk_identity (gk_name k) ("orihsus-" +:+ fingerprint given))
  else authenticate_gateway_key keys given.
Proof. unfold authenticate_gateway_key. by rewrite foldl_app. Qed.

Lemma ct_eq_token given k :
  ct_eq (as_bytes given) (as_bytes (as_str (gk_token k))) = true <-> as_str (gk_token k) = given.
Proof. rewrite ct_eq_iff. split; [intros Heq; by apply as_bytes_inj | by intros ->]. Qed.

Lemma authenticate_none keys given :
  authenticate_gateway_key keys given = None <->
  Forall (fun k => as_str (gk_token k) <> given) keys.
Proof.
  induction keys as [| k keys IH] using rev_ind; [split; [constructor | done] |].
  rewrite authenticate_app, Forall_app, Forall_singleton, <- IH.
  pose proof (ct_eq_token given k) as Hct.
  destruct (ct_eq _ _); split; try done.
  - intros [_ Hne]. destruct Hne. by apply Hct.
  - intros Hnone. split; [done |]. intros Heq. by apply Hct in Heq.
  - by intros [? _].
Qed.

Lemma authenticate_some keys given id :
  NoDup (gk_token <$> keys) ->
  authenticate_gateway_key keys given = Some id <->
  exists k, k ∈ keys /\ as_str (gk_token k) = given
    /\ id = mk_identity (gk_name k) ("orihsus-" +:+ fingerprint given).
Proof.
  induction keys as [| k keys IH] using rev_ind; intros Hnd.
  { split; [done |]. by intros (k & ?%not_elem_of_nil & _). }
  rewrite fmap_app in Hnd. apply NoDup_app in Hnd as (Hnd & Hdis & _).
  rewrite authenticate_app. pose proof (ct_eq_token given k) as Hct.
  destruct (ct_eq _ _).
  - assert (as_str (gk_token k) = given) as Hk by (by apply Hct). split.
    + intros [= <-]. exists k. split_and!; [set_solver | done | done].
    + intros (k' & Hin & Hk' & ->). apply elem_of_app in Hin as [Hin | ->%list_elem_of_singleton]; [| done].
      exfalso. apply (Hdis (gk_token k')); [by apply list_elem_of_fmap_2 |].
      apply list_elem_of_singleton. destruct (gk_token k), (gk_token k'). simpl in *. congruence.
  - rewrite IH by done. split; intros (k' & Hin & Hk' & Hid).
    + exists k'. split_and!; [set_solver | done | done].
    + exists k'. split_and!; try done. apply elem_of_app in Hin as [Hin | ->%list_elem_of_singleton]; [done |].
      by apply Hct in Hk'.
Qed.

(** The credential a request presents in [Authorization]. *)
Definition bearer (headers : HeaderMap) : option string :=
  (header_get headers "authorization" ≫= to_str) ≫= fun h => strip_prefix h "Bearer ".

(** C26. Authentication is exact: with the distinct, non-blank tokens of a
    validated configuration a request is accepted exactly when its bearer
    token is a configured token, or, on the messages API only, when its
    x-api-key is one; the identity is the name of the key presented.  A
    request without credentials, or with an empty one, is never accepted. *)
Theorem proxy_auth_exact (rt : RuntimeState Url) headers api id :
  NoDup (gk_token <$> rt_gateway_keys rt) ->
  Forall (fun k => is_blank (as_str (gk_token k)) = false) (rt_gateway_keys rt) ->
  (check_proxy_auth rt rt headers api = None <->
     (forall k t, k ∈ rt_gateway_keys rt -> bearer headers = Some t -> as_str (gk_token k) <> t)
     /\ (api = Messages -> forall k t, k ∈ rt_gateway_keys rt ->
           header_get headers "x-api-key" ≫= to_str = Some t -> as_str (gk_token k) <> t))
  /\ (check_proxy_auth rt rt headers api = Some id ->
       exists k t, k ∈ rt_gateway_keys rt /\ as_str (gk_token k) = t /\ t <> ""
         /\ (bearer headers = Some t
             \/ api = Messages /\ header_get headers "x-api-key" ≫= to_str = Some t)
         /\ id = mk_identity (gk_name k) ("orihsus-" +:+ fingerprint t)).
Proof.
  intros Hnd Hblank. rewrite Forall_forall in Hblank.
  assert (forall k, k ∈ rt_gateway_keys rt -> as_str (gk_token k) <> "") as Hne.
  { intros k Hk Heq. specialize (Hblank k Hk). by rewrite Heq in Hblank. }
  assert (forall o, authenticate_gateway_key (rt_gateway_keys rt) (default "" o) = None <->
    forall k t, k ∈ rt_gateway_keys rt -> o = Some t -> as_str (gk_token k) <> t) as Hnone.
  { intros o. rewrite authenticate_none, Forall_forall. split.
    - intros Hall k t Hk ->. by apply Hall.
    - intros Hall k Hk. destruct o as [t |]; simpl; [by eapply Hall | by apply Hne]. }
  assert (forall o i, authenticate_gateway_key (rt_gateway_keys rt) (default "" o) = Some i ->
    exists k t, k ∈ rt_gateway_keys rt /\ as_str (gk_token k) = t /\ t <> "" /\ o = Some t
      /\ i = mk_identity (gk_name k) ("orihsus-" +:+ fingerprint t)) as Hsome.
  { intros o i (k & Hk & Ht & ->)%authenticate_some; [| done]. exists k, (as_str (gk_token k)).
    split_and!; try done; [by apply Hne | | by rewrite Ht].
    destruct o as [t |]; simpl in Ht; [by rewrite Ht | by apply Hne in Ht]. }
  unfold check_proxy_auth, check_auth. fold (bearer headers).
  destruct (authenticate_gateway_key _ (default "" (bearer headers))) as [i |] eqn:Hb.
  - split.
    + split; [done |]. intros [Hall _]. exfalso. apply Hsome in Hb as (k & t & Hk & Ht & _ & Ho & _).
      by apply (Hall k t).
    + intros [= ->]. apply Hsome in Hb as (k & t & Hk & Ht & Hte & Ho & ->). exists k, t. eauto 10.
  - pose proof (proj1 (Hnone (bearer headers)) Hb) as Hb'. case_bool_decide as Hapi.
    + split.
      * rewrite Hnone. tauto.
      * intros (k & t & Hk & Ht & Hte & Ho & ->)%Hsome. exists k, t. eauto 10.
    + split; [tauto | done].
Qed.
End AuthTheorems.

(** *** Request identifiers *)

Lemma hex_digit_ok n : 0 <= n <= 15 -> request_id_byte (hex_digit n) = true.
Proof.
  intros Hn. assert (n ∈ seqZ 0 16) as Hin by (apply elem_of_seqZ; lia).
  revert Hin. vm_compute (seqZ 0 16). rewrite !elem_of_cons.
  intros Hin. repeat (destruct Hin as [-> | Hin]; [reflexivity |]). by apply not_elem_of_nil in Hin.
Qed.

Lemma hex_fixed_ok w n : 0 <= n -> forallb request_id_byte (hex_fixed w n) = true /\ length (hex_fixed w n) = w.
Proof.
  revert n; induction w as [| w IH]; intros n Hn; [done |]. cbn [hex_fixed].
  destruct (IH (n / 16)) as [Hall Hlen]; [apply Z.div_pos; lia |].
  rewrite forallb_app, Hall, length_app, Hlen. simpl.
  rewrite hex_digit_ok by (pose proof (Z.mod_pos_bound n 16); lia). split; [done | lia].
Qed.

Lemma hex_fixed_length w n : length (hex_fixed w n) = w.
Proof. revert n; induction w as [| w IH]; intros n; [done |]. cbn [hex_fixed]. rewrite length_app, IH. simpl. lia. Qed.

Lemma hex_digit_inj a b : 0 <= a <= 15 -> 0 <= b <= 15 -> hex_digit a = hex_digit b -> a = b.
Proof.
  intros Ha Hb Heq. apply (f_equal N_of_ascii) in Heq. unfold hex_digit in Heq.
  repeat case_match; bool_to_prop; rewrite !N_ascii_embedding in Heq; lia.
Qed.

Lemma hex_fixed_inj w a b :
  0 <= a < 16 ^ Z.of_nat w -> 0 <= b < 16 ^ Z.of_nat w -> hex_fixed w a = hex_fixed w b -> a = b.
Proof.
  revert a b; induction w as [| w IH]; intros a b Ha Hb Heq.
  { change (16 ^ Z.of_nat 0) with 1 in *. lia. }
  rewrite Nat2Z.inj_succ, Z.pow_succ_r in Ha, Hb by lia. cbn [hex_fixed] in Heq.
  apply app_inj_2 in Heq as [Hq [= Hr]]; [| done].
  apply IH in Hq; [| split; [apply Z.div_pos | apply Z.div_lt_upper_bound]; lia
                   | split; [apply Z.div_pos | apply Z.div_lt_upper_bound]; lia].
  pose proof (Z.mod_pos_bound a 16 ltac:(lia)). pose proof (Z.mod_pos_bound b 16 ltac:(lia)).
  apply hex_digit_inj in Hr; [| lia | lia].
  rewrite (Z.div_mod a 16), (Z.div_mod b 16) by lia. congruence.
Qed.

Lemma generated_id_valid since_epoch n :
  0 <= n <= u64_max -> valid_request_id (generate_request_id since_epoch n) = true.
Proof.
  intros Hn. unfold generate_request_id.
  assert (0 <= default 0 (wrap64 <$> since_epoch)) as Ht.
  { destruct since_epoch as [t |]; simpl; [| lia]. pose proof (wrap64_range t). lia. }
  destruct (hex_fixed_ok 16 _ Ht) as [Ha Hla]. destruct (hex_fixed_ok 16 n) as [Hb Hlb]; [lia |].
  unfold valid_request_id, str_len. rewrite <- length_as_bytes, as_of_bytes, length_app, Hla, Hlb.
  rewrite forallb_app, Ha, Hb. rewrite !andb_true_r. apply negb_true_iff.
  unfold str_is_empty. apply String.eqb_neq. intros Heq.
  apply (f_equal (fun s => length (as_bytes s))) in Heq.
  rewrite as_of_bytes, length_app, Hla, Hlb in Heq. done.
Qed.

Section RequestIdTheorems.
Context `{HttpHeaders}.

(** The identifier of a request is safe to log and to echo: whatever the
    client sends, it has 1 to 128 bytes, all ASCII letters, digits, dashes,
    underscores or dots; a valid identifier of the client is kept, and two
    generated ones differ as long as the counter has not wrapped. *)
Theorem request_id_safe headers since_epoch n since_epoch' n' :
  0 <= n <= u64_max -> 0 <= n' <= u64_max ->
  valid_request_id (request_id_for headers since_epoch n).1 = true
  /\ (forall v, header_get headers "x-request-id" ≫= to_str = Some v -> valid_request_id (trim v) = true ->
        request_id_for headers since_epoch n = (trim v, n))
  /\ (generate_request_id since_epoch n = generate_request_id since_epoch' n' -> n = n').
Proof.
  intros Hn Hn'. split_and!.
  - unfold request_id_for. destruct (trim <$> _) as [v |]; [| by apply generated_id_valid].
    destruct (valid_request_id v) eqn:Hv; [done | by apply generated_id_valid].
  - intros v Hv Hok. unfold request_id_for. rewrite Hv. simpl. by rewrite Hok.
  - unfold generate_request_id. intros Heq. apply (f_equal as_bytes) in Heq.
    rewrite !as_of_bytes in Heq. apply app_inj_2 in Heq as [_ Heq].
    + apply hex_fixed_inj in Heq; [done | |]; change (16 ^ Z.of_nat 16) with (u64_max + 1); lia.
    + by rewrite !hex_fixed_length.
Qed.
End RequestIdTheorems.

(** *** Forwarded headers *)

Section HeaderTheorems.
Context `{HttpHeadersLaws} (header_from_str : string -> option HeaderValue).

Lemma session_header_shape headers session ses :
  (if negb (header_contains headers OPENCODE_SESSION_HEADER)
   then v ← header_from_str session; Some [(OPENCODE_SESSION_HEADER, v)] else Some []) = Some ses ->
  ses = [] \/ exists v, ses = [(OPENCODE_SESSION_HEADER, v)] /\ header_from_str session = Some v
    /\ header_contains headers OPENCODE_SESSION_HEADER = false.
Proof.
  destruct (header_contains _ _); simpl; [intros [= <-]; by left |].
  intros (v & Hv & [= <-])%bind_Some. eauto.
Qed.

Lemma credential_header_shape key api cred :
  (if bool_decide (api = Messages)
   then v ← header_from_str (as_str key); Some [("x-api-key", v)]
   else v ← header_from_str ("Bearer " +:+ as_str key); Some [("authorization", v)]) = Some cred ->
  exists value,
    header_from_str (if bool_decide (api = Messages) then as_str key else "Bearer " +:+ as_str key) = Some value
    /\ cred = [((if bool_decide (api = Messages) then "x-api-key" else "authorization"), value)].
Proof. case_bool_decide; intros (v & Hv & [= <-])%bind_Some; eauto. Qed.

Lemma should_forward_allowed n conn api :
  should_forward_request_header n conn api = true ->
  is_hop_by_hop n = false /\ (n ∉ conn) /\ is_sensitive_request_header n = false.
Proof.
  unfold should_forward_request_header.
  destruct (is_hop_by_hop n), (is_sensitive_request_header n); simpl; try done;
    case_bool_decide; done.
Qed.

Lemma filter_none_nil {A} (P : A -> Prop) `{forall x, Decision (P x)} (l : list A) :
  (forall x, x ∈ l -> ~ P x) -> filter P l = [].
Proof.
  intros Hnone. induction l as [| x l IH]; [done |]. rewrite filter_cons_False.
  - apply IH. intros y Hy. apply Hnone. by right.
  - apply Hnone. by left.
Qed.

(** A header that by its name carries a credential of its sender. *)
Definition names_credential (n : string) : Prop :=
  n ∈ ["authorization"; "proxy-authorization"; "cookie"; "cookie2"; "x-api-key"; "api-key"]
  \/ exists p, n = p +:+ "-authorization" \/ n = p +:+ "-api-key".

Lemma names_credential_sensitive n : names_credential n -> is_sensitive_request_header n = true.
Proof.
  unfold is_sensitive_request_header. intros [Hin | (p & [-> | ->])].
  - rewrite bool_decide_true; [done |]. unfold SENSITIVE. set_solver.
  - assert (ends_with (p +:+ "-authorization") "-authorization" = true) as ->; [| by rewrite orb_true_r].
    unfold ends_with. rewrite as_bytes_app. apply bytes_ends_with_iff. eauto.
  - assert (ends_with (p +:+ "-api-key") "-api-key" = true) as ->; [| by rewrite !orb_true_r].
    unfold ends_with. rewrite as_bytes_app. apply bytes_ends_with_iff. eauto.
Qed.

(** C27. No client credential reaches the upstream: the only header of an upstream
    request whose name is sensitive, or that by its name is an authorization,
    a cookie or an API key, is the one that carries the selected pool key
    (x-api-key on the messages API, a bearer token elsewhere); every other
    header is an allowlisted header of the client that is neither sensitive
    nor hop-by-hop nor named by Connection, or the fallback session id. *)
Theorem upstream_credentials_only key headers session api out :
  upstream_headers header_from_str key headers session api = Some out ->
  exists value,
    header_from_str (if bool_decide (api = Messages) then as_str key else "Bearer " +:+ as_str key) = Some value
    /\ filter (fun nv : string * HeaderValue => Is_true (is_sensitive_request_header nv.1)) out
       = [((if bool_decide (api = Messages) then "x-api-key" else "authorization"), value)]
    /\ (forall n v, (n, v) ∈ out -> names_credential n ->
          n = (if bool_decide (api = Messages) then "x-api-key" else "authorization") /\ v = value)
    /\ forall n v, (n, v) ∈ out -> is_sensitive_request_header n = false ->
         (v ∈ header_get_all headers n /\ is_hop_by_hop n = false
            /\ (n ∉ connection_named_headers headers)
            /\ should_forward_request_header n (connection_named_headers headers) api = true)
         \/ (n = OPENCODE_SESSION_HEADER /\ header_from_str session = Some v
             /\ header_contains headers OPENCODE_SESSION_HEADER = false).
Proof.
  unfold upstream_headers. intros (ses & Hses & (cred & Hcred & [= <-])%bind_Some)%bind_Some.
  set (conn := connection_named_headers headers).
  assert (forall n v, (n, v) ∈ filter (fun nv : string * HeaderValue =>
      Is_true (should_forward_request_header (to_ascii_lowercase nv.1) conn api)) (header_iter headers) ->
      v ∈ header_get_all headers n /\ should_forward_request_header n conn api = true) as Hfwd.
  { intros n v [Hok Hin]%list_elem_of_filter. simpl in Hok.
    rewrite (header_names_lower _ _ _ Hin) in Hok. apply Is_true_true in Hok.
    split; [by apply header_iter_get | done]. }
  apply session_header_shape in Hses. apply credential_header_shape in Hcred as (value & Hvalue & ->).
  exists value. split; [done |].
  match goal with |- ?P /\ _ => assert P as Hfilter end.
  { rewrite !filter_app, filter_none_nil, filter_none_nil.
    + by case_bool_decide.
    + intros [n v] Hin Hs. destruct Hses as [-> | (sv & -> & _)]; [by apply not_elem_of_nil in Hin |].
      apply list_elem_of_singleton in Hin as [= -> ->]. done.
    + intros [n v] Hin Hs. apply Hfwd in Hin as [_ Hok]. simpl in Hs.
      apply should_forward_allowed in Hok as (_ & _ & Hns). by rewrite Hns in Hs. }
  split; [exact Hfilter | split].
  - intros n v Hin Hc%names_credential_sensitive.
    assert ((n, v) ∈ filter (fun nv : string * HeaderValue => Is_true (is_sensitive_request_header nv.1))
      (filter (fun nv : string * HeaderValue =>
         Is_true (should_forward_request_header (to_ascii_lowercase nv.1) conn api)) (header_iter headers)
       ++ ses ++ [((if bool_decide (api = Messages) then "x-api-key" else "authorization"), value)])) as Hone.
    { apply list_elem_of_filter. split; [simpl; by rewrite Hc | exact Hin]. }
    fold conn in Hfilter. rewrite Hfilter in Hone. by apply list_elem_of_singleton in Hone as [= -> ->].
  - intros n v. rewrite !elem_of_app. intros [Hin | [Hin | Hin]] Hns.
    + left. apply Hfwd in Hin as [? Hok]. pose proof (should_forward_allowed _ _ _ Hok) as (? & ? & _). done.
    + right. destruct Hses as [-> | (sv & -> & Hsv & Hno)]; [by apply not_elem_of_nil in Hin |].
      by apply list_elem_of_singleton in Hin as [= -> ->].
    + apply list_elem_of_singleton in Hin as [= -> ->]. by case_bool_decide.
Qed.

(** The upstream always learns a session: when the client names none, exactly
    the fallback derived from its key is sent; when it names one that its
    Connection header does not list, exactly the client's values are sent. *)
Theorem session_header_forwarded key headers session api out :
  upstream_headers header_from_str key headers session api = Some out ->
  (header_contains headers OPENCODE_SESSION_HEADER = false ->
     exists v, header_from_str session = Some v
       /\ forall w, (OPENCODE_SESSION_HEADER, w) ∈ out <-> w = v)
  /\ (header_contains headers OPENCODE_SESSION_HEADER = true ->
      OPENCODE_SESSION_HEADER ∉ connection_named_headers headers ->
      forall w, (OPENCODE_SESSION_HEADER, w) ∈ out <-> w ∈ header_get_all headers OPENCODE_SESSION_HEADER).
Proof.
  unfold upstream_headers. intros (ses & Hses & (cred & Hcred & [= <-])%bind_Some)%bind_Some.
  set (conn := connection_named_headers headers).
  assert (forall w, (OPENCODE_SESSION_HEADER, w) ∉ cred) as Hnc.
  { intros w Hw. apply credential_header_shape in Hcred as (value & _ & ->).
    apply list_elem_of_singleton in Hw as [= Hn _]. by case_bool_decide. }
  assert (forall w, (OPENCODE_SESSION_HEADER, w) ∈ filter (fun nv : string * HeaderValue =>
      Is_true (should_forward_request_header (to_ascii_lowercase nv.1) conn api)) (header_iter headers) <->
      w ∈ header_get_all headers OPENCODE_SESSION_HEADER /\ OPENCODE_SESSION_HEADER ∉ conn) as Hfwd.
  { intros w. rewrite list_elem_of_filter, header_iter_get. simpl.
    change (to_ascii_lowercase OPENCODE_SESSION_HEADER) with OPENCODE_SESSION_HEADER.
    rewrite Is_true_true. unfold should_forward_request_header.
    change (is_hop_by_hop OPENCODE_SESSION_HEADER) with false.
    change (is_sensitive_request_header OPENCODE_SESSION_HEADER) with false.
    change (starts_with OPENCODE_SESSION_HEADER "x-opencode-") with true.
    destruct (decide (OPENCODE_SESSION_HEADER ∈ conn)) as [Hc | Hc];
      [rewrite (bool_decide_true _ Hc) | rewrite (bool_decide_false _ Hc)]; simpl;
      (split; intros [? ?]; [try done; by split |]; try done; by split). }
  assert (header_contains headers OPENCODE_SESSION_HEADER = false ->
    forall w, w ∉ header_get_all headers OPENCODE_SESSION_HEADER) as Hempty.
  { unfold header_contains, header_get. intros Hno w Hw. apply bool_decide_eq_false in Hno.
    destruct (header_get_all _ _); [by apply not_elem_of_nil in Hw |]. destruct Hno. by eexists. }
  split; intros Hc; rewrite Hc in Hses; simpl in Hses.
  - apply bind_Some in Hses as (v & Hv & [= <-]). exists v. split; [done |]. intros w.
    rewrite !elem_of_app, Hfwd, list_elem_of_singleton. specialize (Hempty Hc w). specialize (Hnc w).
    split; [intros [[? _] | [[= ->] | ?]]; done | intros ->; auto].
  - injection Hses as <-. intros Hnot w. rewrite !elem_of_app, Hfwd.
    specialize (Hnc w). split; [intros [[? _] | [Hn | ?]]; [done | by apply not_elem_of_nil in Hn | done] | auto].
Qed.
End HeaderTheorems.

(** ** At concrete inputs *)

#[local] Existing Instance demo_sha256.
#[local] Instance demo_http : HttpHeaders := toy_headers.
#[local] Instance demo_http_laws : HttpHeadersLaws toy_headers := toy_headers_laws.
#[local] Instance demo_ct_eq : CtEq := fun a b => bool_decide (a = b).
#[local] Instance demo_ct_eq_laws : CtEqLaws demo_ct_eq.
Proof. intros a b. apply bool_decide_eq_true. Defined.

Definition demo_auth_runtime : RuntimeState unit :=
  mk_runtime [mk_gateway_key "ci" (secret_new "tok-1"); mk_gateway_key "dev" (secret_new "tok-2")] () 1 ∅ [].
Definition demo_client : @HeaderMap toy_headers :=
  [("Authorization", "Bearer tok-2"); ("Cookie", "a=b"); ("X-OpenCode-Session", "s1");
   ("X-OpenCode-Api-Key", "leak"); ("Connection", "close, X-Foo"); ("Accept", "*/*")].

Lemma proxy_auth_exact_witness :
  (check_proxy_auth demo_auth_runtime demo_auth_runtime demo_client Responses = None <->
     (forall k t, k ∈ rt_gateway_keys demo_auth_runtime -> bearer demo_client = Some t -> as_str (gk_token k) <> t)
     /\ (Responses = Messages -> forall k t, k ∈ rt_gateway_keys demo_auth_runtime ->
           header_get demo_client "x-api-key" ≫= to_str = Some t -> as_str (gk_token k) <> t))
  /\ (check_proxy_auth demo_auth_runtime demo_auth_runtime demo_client Responses
        = Some (mk_identity "dev" ("orihsus-" +:+ fingerprint "tok-2")) ->
       exists k t, k ∈ rt_gateway_keys demo_auth_runtime /\ as_str (gk_token k) = t /\ t <> ""
         /\ (bearer demo_client = Some t
             \/ Responses = Messages /\ header_get demo_client "x-api-key" ≫= to_str = Some t)
         /\ mk_identity "dev" ("orihsus-" +:+ fingerprint "tok-2")
            = mk_identity (gk_name k) ("orihsus-" +:+ fingerprint t)).
Proof.
  apply (proxy_auth_exact demo_auth_runtime demo_client Responses).
  - apply NoDup_cons. split; [| apply NoDup_singleton]. by intros [=]%list_elem_of_singleton.
  - repeat constructor.
Defined.

Lemma request_id_safe_witness :
  valid_request_id (request_id_for demo_client (Some 5) 0).1 = true
  /\ (forall v, header_get demo_client "x-request-id" ≫= to_str = Some v -> valid_request_id (trim v) = true ->
        request_id_for demo_client (Some 5) 0 = (trim v, 0))
  /\ (generate_request_id (Some 5) 0 = generate_request_id (Some 6) 1 -> 0 = 1).
Proof. apply (request_id_safe demo_client (Some 5) 0 (Some 6) 1); by split; cbv. Defined.

Definition demo_from_str (s : string) : option (@HeaderValue toy_headers) :=
  if forallb toy_visible (as_bytes s) then Some s else None.
Definition demo_upstream : list (string * @HeaderValue toy_headers) :=
  [("x-opencode-session", "s1"); ("accept", "*/*"); ("authorization", "Bearer sk-alpha")].

Lemma upstream_credentials_only_witness :
  exists value, demo_from_str "Bearer sk-alpha" = Some value
    /\ filter (fun nv : string * HeaderValue => Is_true (is_sensitive_request_header nv.1)) demo_upstream
       = [("authorization", value)]
    /\ (forall n v, (n, v) ∈ demo_upstream -> names_credential n -> n = "authorization" /\ v = value)
    /\ forall n v, (n, v) ∈ demo_upstream -> is_sensitive_request_header n = false ->
         (v ∈ header_get_all demo_client n /\ is_hop_by_hop n = false
            /\ (n ∉ connection_named_headers demo_client)
            /\ should_forward_request_header n (connection_named_headers demo_client) Responses = true)
         \/ (n = OPENCODE_SESSION_HEADER /\ demo_from_str "fb" = Some v
             /\ header_contains demo_client OPENCODE_SESSION_HEADER = false).
Proof.
  apply (upstream_credentials_only demo_from_str (secret_new "sk-alpha") demo_client "fb" Responses demo_upstream).
  vm_compute. reflexivity.
Defined.

Lemma session_header_forwarded_witness :
  (header_contains demo_client OPENCODE_SESSION_HEADER = false ->
     exists v, demo_from_str "fb" = Some v /\ forall w, (OPENCODE_SESSION_HEADER, w) ∈ demo_upstream <-> w = v)
  /\ (header_contains demo_client OPENCODE_SESSION_HEADER = true ->
      OPENCODE_SESSION_HEADER ∉ connection_named_headers demo_client ->
      forall w, (OPENCODE_SESSION_HEADER, w) ∈ demo_upstream <->
        w ∈ header_get_all demo_client OPENCODE_SESSION_HEADER).
Proof.
  apply (session_header_forwarded demo_from_str (secret_new "sk-alpha") demo_client "fb" Responses demo_upstream).
  vm_compute. reflexivity.
Defined.

(** A client that lists its session header in Connection: the header is dropped
    as hop-by-hop, and its presence still suppresses the fallback, so the
    upstream request has no session id at all. *)
Theorem connection_named_session_is_lost :
  exists out, upstream_headers demo_from_str (secret_new "sk-alpha")
      ([("Connection", "x-opencode-session"); ("x-opencode-session", "s1")] : @HeaderMap toy_headers)
      "fb" Responses = Some out
    /\ forallb (fun nv => negb (String.eqb nv.1 OPENCODE_SESSION_HEADER)) out = true.
Proof. eexists. by split; vm_compute. Qed.
