(* ===== verification/Sse.v ===== *)
(** * Usage extraction from response bodies

    [extract_usage] and the two bounded side-band parsers of
    [src/src/gateway.rs] that run next to a forwarded body: [JsonUsageParser]
    and [SseUsageParser].  The reference they are compared with splits the
    whole stream into events at once. *)
From S2P Require Export Json.

(** ** Token counts *)

(** [struct RequestUsage] *)
Record RequestUsage := mk_usage {
  input_tokens : Z;
  cached_tokens : Z;
  uncached_tokens : Z;
  cache_write_tokens : option Z;
  output_tokens : Z;
  reasoning_tokens : option Z;
}.

(** [a.or_else(|| b)] *)
Definition or_else {A} (a b : option A) : option A := match a with Some x => Some x | None => b end.

Section Usage.
Context `{SerdeJson}.

(** [v["a"].as_u64()] and [v["a"]["b"].as_u64()] *)
Definition u64_at (v : Value) (key : string) : option Z := json_as_u64 (json_index v key).
Definition u64_at2 (v : Value) (k1 k2 : string) : option Z := u64_at (json_index v k1) k2.

(** [extract_usage] *)
Definition extract_usage (body : bytes) : option RequestUsage :=
  v ← from_slice body;
  let usage := json_index v "usage" in
  input ← or_else (u64_at usage "prompt_tokens") (u64_at usage "input_tokens");
  output ← or_else (u64_at usage "completion_tokens") (u64_at usage "output_tokens");
  let cached := Z.min (default 0
      (or_else (u64_at2 usage "prompt_tokens_details" "cached_tokens")
        (or_else (u64_at usage "prompt_cache_hit_tokens") (u64_at usage "cache_read_input_tokens"))))
    input in
  let cache_write :=
    or_else (u64_at2 usage "prompt_tokens_details" "cache_write_tokens")
      (or_else (u64_at usage "cache_write_tokens") (u64_at usage "cache_creation_input_tokens")) in
  let reasoning :=
    or_else (u64_at2 usage "completion_tokens_details" "reasoning_tokens")
      (or_else (u64_at2 usage "output_tokens_details" "reasoning_tokens")
         (u64_at usage "reasoning_tokens")) in
  Some (mk_usage input cached (input - cached) cache_write output reasoning).

(** [extract_model] *)
Definition extract_model (body : bytes) : option string :=
  v ← from_slice body; json_as_str (json_index v "model").

(** ** Caps *)

Definition SSE_EVENT_CAP : Z := 256 * 1024.
Definition JSON_USAGE_CAP : Z := 64 * 1024.

(** ** [JsonUsageParser] *)

Record JsonUsageParser := mk_json_parser { jp_buf : bytes; jp_cap : Z; jp_overflowed : bool }.

(** [JsonUsageParser::new] *)
Definition json_parser_new (cap : Z) : JsonUsageParser := mk_json_parser [] cap false.

(** [JsonUsageParser::push] *)
Definition json_push (chunk : bytes) (p : JsonUsageParser) : JsonUsageParser :=
  if jp_overflowed p then p
  else let remaining := jp_cap p - blen (jp_buf p) in
       if blen chunk <=? remaining
       then mk_json_parser (jp_buf p ++ chunk) (jp_cap p) false
       else mk_json_parser [] (jp_cap p) true.

(** [JsonUsageParser::usage] *)
Definition json_usage (p : JsonUsageParser) : option RequestUsage :=
  if jp_overflowed p then None else extract_usage (jp_buf p).

(** ** [SseUsageParser] *)

(** The live part of the tail array is the list [sp_tail]. *)
Record SseUsageParser := mk_sse {
  sp_event_buf : bytes;
  sp_event_cap : Z;
  sp_tail : bytes;
  sp_discarding : bool;
  sp_usage : option RequestUsage;
  sp_event_count : Z;
}.

(** [SseUsageParser::new] *)
Definition sse_new (event_cap : Z) : SseUsageParser := mk_sse [] event_cap [] false None 0.

Definition LFLF : bytes := [LF; LF].
Definition CRLFCRLF : bytes := [CR; LF; CR; LF].
Definition ends_event (l : bytes) : bool := bytes_ends_with l LFLF || bytes_ends_with l CRLFCRLF.

(** The data lines of an event. *)
Definition event_data (text : string) : list string :=
  trim <$> omap (fun l => strip_prefix l "data:") (lines text).

(** [SseUsageParser::consume_event]: whether the event counts, and the usage
    afterwards. *)
Definition consume_event (event : bytes) (usage : option RequestUsage) : bool * option RequestUsage :=
  let data := event_data (from_utf8_lossy event) in
  match data with
  | [] => (false, usage)
  | _ =>
      let payload := join_lf data in
      if String.eqb payload "[DONE]" then (true, usage)
      else match from_str payload with
           | Some _ => (true, or_else (extract_usage (as_bytes payload)) usage)
           | None => (true, usage)
           end
  end.

(** The body of the loop of [SseUsageParser::push]. *)
Definition sse_byte (p : SseUsageParser) (b : ascii) : SseUsageParser :=
  let tail := if (length (sp_tail p) =? 4)%nat then drop 1 (sp_tail p) ++ [b]
              else sp_tail p ++ [b] in
  if ends_event tail then
    let '(counted, usage) := if sp_discarding p then (false, sp_usage p)
                             else consume_event (sp_event_buf p) (sp_usage p) in
    mk_sse [] (sp_event_cap p) [] false usage
      (if counted : bool then u64_saturating_add (sp_event_count p) 1 else sp_event_count p)
  else if negb (sp_discarding p) then
    if blen (sp_event_buf p) <? sp_event_cap p
    then mk_sse (sp_event_buf p ++ [b]) (sp_event_cap p) tail false (sp_usage p) (sp_event_count p)
    else mk_sse (sp_event_buf p) (sp_event_cap p) tail true (sp_usage p) (sp_event_count p)
  else mk_sse (sp_event_buf p) (sp_event_cap p) tail true (sp_usage p) (sp_event_count p).

(** [SseUsageParser::push]: the events of this chunk and the parser after it. *)
Definition sse_push (chunk : bytes) (p : SseUsageParser) : Z * SseUsageParser :=
  let p' := foldl sse_byte p chunk in
  (sp_event_count p' - sp_event_count p, p').

(** ** [StreamUsageParser] *)

Inductive StreamUsageParser :=
| SseParser (p : SseUsageParser)
| JsonParser (p : JsonUsageParser).

(** [StreamUsageParser::push] *)
Definition stream_push (chunk : bytes) (p : StreamUsageParser) : Z * StreamUsageParser :=
  match p with
  | SseParser p => let '(n, p') := sse_push chunk p in (n, SseParser p')
  | JsonParser p => (0, JsonParser (json_push chunk p))
  end.

(** [StreamUsageParser::usage] *)
Definition stream_usage (p : StreamUsageParser) : option RequestUsage :=
  match p with SseParser p => sp_usage p | JsonParser p => json_usage p end.

(** ** The reference *)

(** The shortest prefix of [l] that, after [seen], completes an event; with
    what follows it. *)
Fixpoint first_event (seen l : bytes) : option (bytes * bytes) :=
  match l with
  | [] => None
  | b :: rest =>
      if ends_event (seen ++ [b]) then Some (seen ++ [b], rest)
      else first_event (seen ++ [b]) rest
  end.

(** All complete events of a stream, each without the last byte of its
    delimiter; every event consumes a byte, so the length is enough fuel. *)
Fixpoint split_events (fuel : nat) (l : bytes) : list bytes :=
  match fuel with
  | O => []
  | S fuel' => match first_event [] l with
               | None => []
               | Some (e, rest) => removelast e :: split_events fuel' rest
               end
  end.

(** What an event means: events above the cap are skipped whole. *)
Definition spec_event (cap : Z) (acc : Z * option RequestUsage) (e : bytes) : Z * option RequestUsage :=
  if blen e <=? cap then
    let '(counted, usage) := consume_event e acc.2 in
    (if counted : bool then u64_saturating_add acc.1 1 else acc.1, usage)
  else acc.

Definition spec_stream (cap : Z) (l : bytes) : Z * option RequestUsage :=
  foldl (spec_event cap) (0, None) (split_events (length l) l).

End Usage.

(** ** Facts *)

Section SseFacts.
Context `{SerdeJson}.

(** The parser in the middle of an event of which it has read [seen]. *)
Definition mid (cap : Z) (seen : bytes) (acc : Z * option RequestUsage) : SseUsageParser :=
  mk_sse (take (Z.to_nat cap) seen) cap (drop (length seen - 4) seen) (cap <? blen seen) acc.2 acc.1.

Lemma ends_with_tail l p :
  (length p <= 4)%nat -> bytes_ends_with (drop (length l - 4) l) p = bytes_ends_with l p.
Proof.
  intros Hp. apply eq_true_iff_eq. rewrite !bytes_ends_with_iff. split; intros [r Hr].
  - exists (take (length l - 4) l ++ r). by rewrite <- app_assoc, <- Hr, take_drop.
  - exists (drop (length l - 4) r). rewrite Hr at 2. rewrite drop_app_le; [done |].
    rewrite Hr, length_app. lia.
Qed.

Lemma ends_event_tail l : ends_event (drop (length l - 4) l) = ends_event l.
Proof. unfold ends_event. by rewrite !ends_with_tail by (simpl; lia). Qed.

(** The tail update of the loop keeps the last four bytes. *)
Lemma tail_update (seen : bytes) b :
  (if (length (drop (length seen - 4) seen) =? 4)%nat then drop 1 (drop (length seen - 4) seen) ++ [b]
   else drop (length seen - 4) seen ++ [b])
  = drop (length (seen ++ [b]) - 4) (seen ++ [b]).
Proof.
  rewrite length_drop, length_app. simpl.
  destruct (Nat.eqb_spec (length seen - (length seen - 4)) 4) as [H4 | H4].
  - rewrite drop_drop, drop_app_le by lia. f_equal. f_equal. lia.
  - rewrite drop_app_le by lia. f_equal. f_equal. lia.
Qed.

Lemma sse_byte_mid cap seen acc b :
  0 <= cap ->
  sse_byte (mid cap seen acc) b =
  if ends_event (seen ++ [b]) then mid cap [] (spec_event cap acc seen) else mid cap (seen ++ [b]) acc.
Proof.
  intros Hcap. unfold sse_byte, mid. cbn [sp_tail sp_event_buf sp_event_cap sp_discarding sp_usage sp_event_count].
  rewrite tail_update, ends_event_tail.
  assert (blen seen <= cap -> take (Z.to_nat cap) seen = seen) as Htake
    by (intros Hle; apply take_ge; unfold blen in Hle; lia).
  assert (blen (seen ++ [b]) = blen seen + 1) as Hlen by (unfold blen; rewrite length_app; simpl; lia).
  destruct (ends_event (seen ++ [b])).
  - unfold spec_event. replace (cap <? blen []) with false by (symmetry; apply Z.ltb_ge; unfold blen; simpl; lia).
    destruct (Z.ltb_spec cap (blen seen)), (Z.leb_spec (blen seen) cap); try lia.
    + by rewrite firstn_nil.
    + rewrite Htake by done. destruct (consume_event seen acc.2) as [c u]. by rewrite firstn_nil.
  - rewrite Hlen. destruct (Z.ltb_spec cap (blen seen)) as [Hd | Hd]; cbn [negb].
    + replace (cap <? blen seen + 1) with true by (symmetry; apply Z.ltb_lt; lia). f_equal.
      rewrite take_app_le; [done | unfold blen in Hd; lia].
    + rewrite Htake by done. destruct (Z.ltb_spec (blen seen) cap).
      * replace (cap <? blen seen + 1) with false by (symmetry; apply Z.ltb_ge; lia). f_equal.
        symmetry. apply take_ge. unfold blen in *. rewrite length_app. simpl. lia.
      * replace (cap <? blen seen + 1) with true by (symmetry; apply Z.ltb_lt; lia). f_equal.
        symmetry. rewrite take_app_le by (unfold blen in *; lia). apply take_ge. unfold blen in *. lia.
Qed.

Lemma sse_bytes_mid cap acc l : forall seen,
  0 <= cap ->
  foldl sse_byte (mid cap seen acc) l =
  match first_event seen l with
  | None => mid cap (seen ++ l) acc
  | Some (e, rest) => foldl sse_byte (mid cap [] (spec_event cap acc (removelast e))) rest
  end.
Proof.
  induction l as [| b l IH]; intros seen Hcap; simpl.
  - by rewrite app_nil_r.
  - rewrite sse_byte_mid by done. destruct (ends_event (seen ++ [b])).
    + by rewrite removelast_last.
    + rewrite IH by done. by rewrite <- app_assoc.
Qed.

Lemma first_event_shorter l : forall seen e rest,
  first_event seen l = Some (e, rest) -> (length rest < length l)%nat.
Proof.
  induction l as [| b l IH]; intros seen e rest; simpl; [done |].
  destruct (ends_event (seen ++ [b])); [intros [= <- <-]; lia |]. intros Hf%IH. lia.
Qed.

(** The incremental parser and the reference agree, from between two events. *)
Lemma sse_stream_mid cap fuel l : forall acc,
  0 <= cap -> (length l <= fuel)%nat ->
  exists seen, foldl sse_byte (mid cap [] acc) l =
    mid cap seen (foldl (spec_event cap) acc (split_events fuel l)).
Proof.
  revert l; induction fuel as [| fuel IH]; intros l acc Hcap Hlen.
  - destruct l; [by exists [] | simpl in Hlen; lia].
  - rewrite sse_bytes_mid by done. cbn [split_events].
    destruct (first_event [] l) as [[e rest] |] eqn:Hf; [| by exists l].
    pose proof (first_event_shorter _ _ _ _ Hf). cbn [foldl]. apply IH; [done | lia].
Qed.

(** Pushing chunk after chunk is pushing their concatenation. *)
Lemma sse_pushes chunks p :
  foldl (fun p c => (sse_push c p).2) p chunks = foldl sse_byte p (concat chunks).
Proof.
  revert p; induction chunks as [| c chunks IH]; intros p; [done |].
  cbn [foldl concat]. rewrite foldl_app. apply IH.
Qed.

Lemma mid_buffer cap seen acc : 0 <= cap -> blen (sp_event_buf (mid cap seen acc)) <= cap.
Proof. intros Hcap. unfold mid, blen. simpl. rewrite length_take. lia. Qed.

Lemma json_pushes chunks p :
  jp_overflowed p = false -> blen (jp_buf p) <= jp_cap p ->
  let p' := foldl (fun p c => json_push c p) p chunks in
  jp_cap p' = jp_cap p /\ blen (jp_buf p') <= jp_cap p
  /\ if blen (jp_buf p) + blen (concat chunks) <=? jp_cap p
     then jp_overflowed p' = false /\ jp_buf p' = jp_buf p ++ concat chunks
     else jp_overflowed p' = true.
Proof.
  revert p; induction chunks as [| c chunks IH]; intros p Ho Hb; cbv zeta; cbn [foldl concat].
  - rewrite app_nil_r. destruct (Z.leb_spec (blen (jp_buf p) + blen []) (jp_cap p));
      [done | unfold blen in *; simpl in *; lia].
  - assert (blen (c ++ concat chunks) = blen c + blen (concat chunks)) as ->
      by (unfold blen; rewrite length_app; lia).
    assert (0 <= blen (concat chunks)) by (unfold blen; lia).
    destruct (Z.leb_spec (blen c) (jp_cap p - blen (jp_buf p))) as [Hc | Hc].
    + assert (json_push c p = mk_json_parser (jp_buf p ++ c) (jp_cap p) false) as ->.
      { unfold json_push. rewrite Ho. by destruct (Z.leb_spec (blen c) (jp_cap p - blen (jp_buf p))); [| lia]. }
      assert (blen (jp_buf p ++ c) = blen (jp_buf p) + blen c) as Hl
        by (unfold blen; rewrite length_app; lia).
      destruct (IH (mk_json_parser (jp_buf p ++ c) (jp_cap p) false)) as (H1 & H2 & H3);
        [done | simpl; lia |]. simpl in H1, H2, H3. rewrite Hl, <- app_assoc in H3.
      by rewrite Z.add_assoc.
    + assert (json_push c p = mk_json_parser [] (jp_cap p) true) as ->.
      { unfold json_push. rewrite Ho. by destruct (Z.leb_spec (blen c) (jp_cap p - blen (jp_buf p))); [lia |]. }
      assert (forall cs : list bytes, foldl (fun p c => json_push c p) (mk_json_parser [] (jp_cap p) true) cs
                = mk_json_parser [] (jp_cap p) true) as ->.
      { induction cs as [| c0 cs IHcs]; [done | exact IHcs]. }
      assert (0 <= blen (jp_buf p)) by (unfold blen; lia). simpl.
      destruct (Z.leb_spec (blen (jp_buf p) + (blen c + blen (concat chunks))) (jp_cap p)); [lia |].
      split_and!; [done | unfold blen in *; simpl; lia | done].
Qed.

(** The reference count is never negative. *)
Lemma spec_stream_nonneg cap l : 0 <= (spec_stream cap l).1.
Proof.
  unfold spec_stream. generalize (split_events (length l) l). intros es.
  assert (forall acc : Z * option RequestUsage, 0 <= acc.1 -> 0 <= (foldl (spec_event cap) acc es).1) as Hfold.
  { induction es as [| e es IH]; intros acc Hacc; [done |]. cbn [foldl]. apply IH.
    unfold spec_event. destruct (blen e <=? cap); [| done].
    destruct (consume_event e acc.2) as [c u]. destruct c; simpl; [unfold u64_saturating_add, u64_max; lia | done]. }
  by apply Hfold.
Qed.
End SseFacts.

(** ** Theorems *)

Section SseTheorems.
Context `{SerdeJson}.

(** C21. The incremental event parser refines the reference: for every way the
    network cuts a stream into chunks, event count and usage are those of the
    complete events of the whole stream, split at LF LF or CR LF CR LF, with
    every event above the cap skipped whole and never parsed truncated; and
    the parser never holds more than the cap. *)
Theorem sse_parser_refines cap chunks :
  0 <= cap ->
  let p := foldl (fun p c => (sse_push c p).2) (sse_new cap) chunks in
  (sp_event_count p, sp_usage p) = spec_stream cap (concat chunks)
  /\ blen (sp_event_buf p) <= cap /\ (length (sp_tail p) <= 4)%nat.
Proof.
  intros Hcap. cbv zeta. rewrite sse_pushes.
  assert (sse_new cap = mid cap [] (0, None)) as ->.
  { unfold sse_new, mid. rewrite firstn_nil. by destruct (Z.ltb_spec cap (blen [])); [unfold blen in *; simpl in *; lia |]. }
  destruct (sse_stream_mid cap (length (concat chunks)) (concat chunks) (0, None)) as [seen ->]; [done | done |].
  split; [symmetry; apply surjective_pairing |]. split; [by apply mid_buffer |].
  unfold mid. simpl. rewrite length_drop. lia.
Qed.

(** The JSON side parser is all or nothing: however the body is cut into
    chunks, it never holds more than the cap, and it reports the usage of the
    complete body when the body fits the cap and nothing at all otherwise. *)
Theorem json_parser_refines cap chunks :
  0 <= cap ->
  let p := foldl (fun p c => json_push c p) (json_parser_new cap) chunks in
  blen (jp_buf p) <= cap
  /\ json_usage p = (if blen (concat chunks) <=? cap then extract_usage (concat chunks) else None).
Proof.
  intros Hcap. cbv zeta.
  destruct (json_pushes chunks (json_parser_new cap)) as (_ & Hb & Hp); [done | unfold blen; simpl; lia |].
  simpl in Hb, Hp. split; [done |]. change (blen []) with 0 in Hp. rewrite Z.add_0_l in Hp.
  unfold json_usage. destruct (blen (concat chunks) <=? cap).
  - by destruct Hp as [-> ->].
  - by rewrite Hp.
Qed.

End SseTheorems.

Section UsageTheorems.
Context `{SerdeJsonLaws}.

(** Token counts are consistent and never underflow: cached tokens never
    exceed the input tokens, cached and uncached add up to the input, and
    every count is a [u64]. *)
Theorem extract_usage_consistent body u :
  extract_usage body = Some u ->
  0 <= cached_tokens u <= input_tokens u /\ cached_tokens u + uncached_tokens u = input_tokens u
  /\ 0 <= input_tokens u <= u64_max /\ 0 <= uncached_tokens u <= u64_max
  /\ 0 <= output_tokens u <= u64_max.
Proof.
  unfold extract_usage. intros (v & _ & Hrun)%bind_Some.
  assert (forall k n, u64_at (json_index v "usage") k = Some n -> 0 <= n <= u64_max) as Hr
    by (intros; by eapply json_u64_range).
  assert (forall k k' n, u64_at2 (json_index v "usage") k k' = Some n -> 0 <= n <= u64_max) as Hr2
    by (intros; by eapply json_u64_range).
  assert (forall (a b : option Z), (forall n, a = Some n -> 0 <= n <= u64_max) ->
    (forall n, b = Some n -> 0 <= n <= u64_max) -> forall n, or_else a b = Some n -> 0 <= n <= u64_max) as Hor
    by (intros [a |] b Ha Hb n; simpl; auto).
  apply bind_Some in Hrun as (input & Hin & (output & Hout & [= <-])%bind_Some).
  apply Hor in Hin; [| by apply Hr | by apply Hr]. apply Hor in Hout; [| by apply Hr | by apply Hr].
  simpl. match goal with |- context [default 0 ?o] => assert (0 <= default 0 o) as Hc end.
  { destruct (or_else _ _) as [c |] eqn:Hc; simpl; [| lia].
    apply Hor in Hc; [lia | by apply Hr2 |]. apply Hor; by apply Hr. }
  lia.
Qed.
End UsageTheorems.

(** ** At concrete inputs *)

#[local] Instance demo_usage_serde : SerdeJson := toy_serde
  [("{u}", JObj [("usage", JObj [("prompt_tokens", JNum 10); ("completion_tokens", JNum 3);
                                 ("cache_read_input_tokens", JNum 40)])])].

(** Two events cut across chunks; the second carries the usage. *)
Definition demo_chunks : list bytes :=
  [as_bytes "data: hi" ++ [LF]; [LF] ++ as_bytes "data: {u"; as_bytes "}" ++ [CR; LF; CR]; [LF]].

Example demo_sse : spec_stream 64 (concat demo_chunks) = (2, Some (mk_usage 10 10 0 None 3 None)).
Proof. vm_compute. reflexivity. Qed.

Lemma sse_parser_refines_witness :
  let p := foldl (fun p c => (sse_push c p).2) (sse_new 64) demo_chunks in
  (sp_event_count p, sp_usage p) = spec_stream 64 (concat demo_chunks)
  /\ blen (sp_event_buf p) <= 64 /\ (length (sp_tail p) <= 4)%nat.
Proof. apply (sse_parser_refines 64 demo_chunks). lia. Defined.

Lemma json_parser_refines_witness :
  let p := foldl (fun p c => json_push c p) (json_parser_new 2) [as_bytes "{u"; as_bytes "}"] in
  blen (jp_buf p) <= 2
  /\ json_usage p = (if blen (concat [as_bytes "{u"; as_bytes "}"]) <=? 2
                     then extract_usage (concat [as_bytes "{u"; as_bytes "}"]) else None).
Proof. apply (json_parser_refines 2 [as_bytes "{u"; as_bytes "}"]). lia. Defined.

Lemma extract_usage_consistent_witness :
  0 <= 10 <= 10 /\ 10 + 0 = 10 /\ 0 <= 10 <= u64_max /\ 0 <= 0 <= u64_max /\ 0 <= 3 <= u64_max.
Proof.
  apply (extract_usage_consistent (as_bytes "{u}") (mk_usage 10 10 0 None 3 None)).
  vm_compute. reflexivity.
Defined.
