(* ===== verification/AuditLog.v ===== *)
(** * The audit log ([src/src/audit.rs])

    One bounded queue between the request tasks and a single writer thread.
    The queue is the standard library's [sync_channel]; the file system behind
    the sink, the JSON encoder and the timestamps are parameters. *)
From S2P Require Export Secrets.

(** ** Records *)

(** [enum Outcome] *)
Module Outcome.
Inductive t := Accepted | Dropped.
End Outcome.

(** [enum AuditOutcome], [enum AttemptTerminalReason] *)
Module AuditOutcome.
Inductive t := Completed | UpstreamError | ClientCancel | EventIdleTimeout.
(** the [snake_case] name serde writes *)
Definition name (o : t) : string :=
  match o with
  | Completed => "completed"
  | UpstreamError => "upstream_error"
  | ClientCancel => "client_cancel"
  | EventIdleTimeout => "event_idle_timeout"
  end.
End AuditOutcome.

Module Reason.
Inductive t :=
| Completed | ResponseHeaderTimeout | NetworkError | RetryableResponse | Forwarded
| UpstreamError | ClientCancel | NoFirstEvent | EventIdleTimeout | EndBeforeFirstEvent.
#[global] Instance eq_dec : EqDecision t.
Proof. solve_decision. Defined.
Definition name (r : t) : string :=
  match r with
  | Completed => "completed"
  | ResponseHeaderTimeout => "response_header_timeout"
  | NetworkError => "network_error"
  | RetryableResponse => "retryable_response"
  | Forwarded => "forwarded"
  | UpstreamError => "upstream_error"
  | ClientCancel => "client_cancel"
  | NoFirstEvent => "no_first_event"
  | EventIdleTimeout => "event_idle_timeout"
  | EndBeforeFirstEvent => "end_before_first_event"
  end.
End Reason.

(** [MAX_AUDIT_ATTEMPTS] *)
Definition MAX_AUDIT_ATTEMPTS : nat := 2.

(** [struct AttemptSummary] *)
Record AttemptSummary := mk_summary {
  at_number : Z;
  at_key_fingerprint : string;
  at_response_header_latency : option Duration;
  at_first_byte_latency : option Duration;
  at_first_event_latency : option Duration;
  at_upstream_bytes : Z;
  at_upstream_chunks : Z;
  at_upstream_events : Z;
  at_last_activity_offset : option Duration;
  at_precommit : bool;
  at_committed : bool;
  at_terminal_reason : Reason.t;
  at_failover_target : option string;
}.

(** [struct AttemptSummaries(Vec<AttemptSummary>)] *)
Abbreviation AttemptSummaries := (list AttemptSummary) (only parsing).

(** [AttemptSummaries::push] *)
Definition summaries_push (s : AttemptSummary) (l : AttemptSummaries) : AttemptSummaries :=
  if (length l <? MAX_AUDIT_ATTEMPTS)%nat then l ++ [s] else l.

(** An update through [AttemptSummaries::last_mut]. *)
Definition summaries_last (f : AttemptSummary -> AttemptSummary) (l : AttemptSummaries)
    : AttemptSummaries :=
  match last l with Some s => removelast l ++ [f s] | None => l end.

(** [struct AuditRecord]; the timestamp in nanoseconds since the epoch. *)
Record AuditRecord := mk_record {
  ar_timestamp : Z;
  ar_request_id : string;
  ar_model : option string;
  ar_key_fingerprint : option string;
  ar_gateway_key : option string;
  ar_input_tokens : option Z;
  ar_cached_tokens : option Z;
  ar_uncached_tokens : option Z;
  ar_cache_write_tokens : option Z;
  ar_output_tokens : option Z;
  ar_reasoning_tokens : option Z;
  ar_status : Z;
  ar_outcome : option AuditOutcome.t;
  ar_latency : Duration;
  ar_session_id : option string;
  ar_project_id : option string;
  ar_opencode_request_id : option string;
  ar_attempts : AttemptSummaries;
}.

(** What serde is told to serialise. *)
Inductive Ser :=
| SNull
| SBool (b : bool)
| SNum (n : Z)
| SStr (s : string)
| SSeq (l : list Ser)
| SStruct (fields : list (string * Ser)).

Definition ser_opt {A} (f : A -> Ser) (o : option A) : Ser := from_option f SNull o.

(** [<AttemptSummary as Serialize>::serialize] *)
Definition serialize_summary (s : AttemptSummary) : Ser :=
  SStruct
    [("attempt_number", SNum (at_number s));
     ("key_fingerprint", SStr (at_key_fingerprint s));
     ("response_header_latency_ms", ser_opt SNum (Dur.as_millis <$> at_response_header_latency s));
     ("first_byte_latency_ms", ser_opt SNum (Dur.as_millis <$> at_first_byte_latency s));
     ("first_event_latency_ms", ser_opt SNum (Dur.as_millis <$> at_first_event_latency s));
     ("upstream_bytes", SNum (at_upstream_bytes s));
     ("upstream_chunks", SNum (at_upstream_chunks s));
     ("upstream_events", SNum (at_upstream_events s));
     ("last_activity_offset_ms", ser_opt SNum (Dur.as_millis <$> at_last_activity_offset s));
     ("precommit", SBool (at_precommit s));
     ("committed", SBool (at_committed s));
     ("terminal_reason", SStr (Reason.name (at_terminal_reason s)));
     ("failover_target", ser_opt SStr (at_failover_target s))].

Section Serialize.
(** chrono's RFC 3339 rendering with milliseconds. *)
Context (to_rfc3339_millis : Z -> string).

(** [<AuditRecord as Serialize>::serialize] *)
Definition serialize_record (r : AuditRecord) : Ser :=
  SStruct
    [("timestamp", SStr (to_rfc3339_millis (ar_timestamp r)));
     ("request_id", SStr (ar_request_id r));
     ("model", ser_opt SStr (ar_model r));
     ("key_fingerprint", ser_opt SStr (ar_key_fingerprint r));
     ("gateway_key", ser_opt SStr (ar_gateway_key r));
     ("input_tokens", ser_opt SNum (ar_input_tokens r));
     ("cached_tokens", ser_opt SNum (ar_cached_tokens r));
     ("uncached_tokens", ser_opt SNum (ar_uncached_tokens r));
     ("cache_write_tokens", ser_opt SNum (ar_cache_write_tokens r));
     ("output_tokens", ser_opt SNum (ar_output_tokens r));
     ("reasoning_tokens", ser_opt SNum (ar_reasoning_tokens r));
     ("status", SNum (ar_status r));
     ("outcome", ser_opt (SStr ∘ AuditOutcome.name) (ar_outcome r));
     ("latency_ms", SNum (Dur.as_millis (ar_latency r)));
     ("opencode_session_id", ser_opt SStr (ar_session_id r));
     ("opencode_project_id", ser_opt SStr (ar_project_id r));
     ("opencode_request_id", ser_opt SStr (ar_opencode_request_id r));
     ("attempts", SSeq (serialize_summary <$> ar_attempts r))].
End Serialize.

(** ** The writer *)

(** [enum AuditError], over the error type of the file system *)
Inductive AuditError (IoError : Type) :=
| AuditIoError (e : IoError)
| InvalidCapacity (n : Z)
| WriterPanicked
| ReopenQueueFull
| ReopenTimeout
| ShutdownTimeout.
Arguments AuditIoError {IoError}.
Arguments InvalidCapacity {IoError}.
Arguments WriterPanicked {IoError}.
Arguments ReopenQueueFull {IoError}.
Arguments ReopenTimeout {IoError}.
Arguments ShutdownTimeout {IoError}.

(** [AUDIT_REOPEN_TIMEOUT], [AUDIT_SHUTDOWN_TIMEOUT], and
    [<AuditError as Display>::fmt] *)
Definition AUDIT_REOPEN_TIMEOUT : Duration := Dur.from_secs 5.
Definition AUDIT_SHUTDOWN_TIMEOUT : Duration := Dur.from_secs 5.
Definition display_audit_error {IoError} (show_io : IoError -> string) (e : AuditError IoError) : string :=
  match e with
  | AuditIoError e => "audit write failed: " +:+ show_io e
  | InvalidCapacity c => "audit queue capacity must be at least 1, got " +:+ u64_to_string c
  | WriterPanicked => "audit writer thread panicked"
  | ReopenQueueFull => "audit reopen skipped: the audit queue is full; keeping the current file"
  | ReopenTimeout =>
      "audit reopen timed out (" +:+ u64_to_string (Dur.as_secs AUDIT_REOPEN_TIMEOUT) +:+
      "s); the writer may be stalled"
  | ShutdownTimeout =>
      "audit shutdown timed out (" +:+ u64_to_string (Dur.as_secs AUDIT_SHUTDOWN_TIMEOUT) +:+
      "s); the writer may be stuck on I/O and unflushed records may be lost"
  end.


(** [enum Command]; a reply channel is a number. *)
Inductive Command :=
| CmdRecord (r : AuditRecord)
| CmdReopen (path : string) (reply : nat).

Definition WRITE_WARNING : string :=
  "orihsus: audit write failed; the audit log may be incomplete (further failures are only counted)".
Definition DROP_WARNING : string :=
  "orihsus: audit record dropped; the queue is full or the writer is gone (further drops are only counted)".
Definition DETACH_WARNING : string :=
  "orihsus: audit writer detached without a final flush; unflushed records may be lost".

(** The file system behind the sinks ([Write::write_all], [Write::flush],
    [open_append]) and the JSON encoder. *)
Class AuditIo (World Sink IoError : Type) := {
  io_write_all : Sink -> bytes -> World -> result IoError unit * World;
  io_flush : Sink -> World -> result IoError unit * World;
  io_open_append : string -> World -> result IoError Sink * World;
  io_to_vec : AuditRecord -> result IoError bytes;
}.

(** Handle, queue and writer thread together.  The first four fields are the
    channel: the handle's sender, the queued commands, the capacity, and
    whether the thread still receives. *)
Record AuditWriter (World Sink IoError : Type) := mk_writer {
  aw_tx : bool;
  aw_chan : list Command;
  aw_cap : Z;
  aw_dropped : Z;
  aw_write_failures : Z;
  aw_drop_warned : bool;
  aw_detach_warned : bool;
  aw_write_warned : bool;
  aw_stderr : list string;
  aw_handle : bool;
  aw_sink : Sink;
  aw_first_error : option IoError;
  aw_result : option (result (AuditError IoError) unit);
  aw_replies : list (nat * result (AuditError IoError) unit);
  aw_world : World;
}.
Arguments mk_writer {World Sink IoError}.
Arguments aw_tx {World Sink IoError}.
Arguments aw_chan {World Sink IoError}.
Arguments aw_cap {World Sink IoError}.
Arguments aw_dropped {World Sink IoError}.
Arguments aw_write_failures {World Sink IoError}.
Arguments aw_drop_warned {World Sink IoError}.
Arguments aw_detach_warned {World Sink IoError}.
Arguments aw_write_warned {World Sink IoError}.
Arguments aw_stderr {World Sink IoError}.
Arguments aw_handle {World Sink IoError}.
Arguments aw_sink {World Sink IoError}.
Arguments aw_first_error {World Sink IoError}.
Arguments aw_result {World Sink IoError}.
Arguments aw_replies {World Sink IoError}.
Arguments aw_world {World Sink IoError}.

(** [warn_once]: the flag afterwards, the standard error afterwards, and
    whether the message was printed. *)
Definition warn_once (flag : bool) (message : string) (stderr : list string) : bool * list string * bool :=
  if flag then (true, stderr, false) else (true, stderr ++ [message], true).

Section Writer.
Context {World Sink IoError : Type} `{AuditIo World Sink IoError}.
Abbreviation writer := (AuditWriter World Sink IoError).

(** Updates of the channel, of the counters of the handle, of the thread. *)
Definition with_chan (tx : bool) (chan : list Command) (w : writer) : writer :=
  mk_writer tx chan (aw_cap w) (aw_dropped w) (aw_write_failures w) (aw_drop_warned w)
    (aw_detach_warned w) (aw_write_warned w) (aw_stderr w) (aw_handle w) (aw_sink w)
    (aw_first_error w) (aw_result w) (aw_replies w) (aw_world w).
Definition with_thread (sink : Sink) (first_error : option IoError)
    (result : option (result (AuditError IoError) unit))
    (replies : list (nat * Prelude.result (AuditError IoError) unit)) (world : World) (w : writer) : writer :=
  mk_writer (aw_tx w) (aw_chan w) (aw_cap w) (aw_dropped w) (aw_write_failures w) (aw_drop_warned w)
    (aw_detach_warned w) (aw_write_warned w) (aw_stderr w) (aw_handle w) sink first_error result
    replies world.

(** [dropped.fetch_add(1)] and the warning *)
Definition count_drop (w : writer) : writer :=
  let '(flag, stderr, _) := warn_once (aw_drop_warned w) DROP_WARNING (aw_stderr w) in
  mk_writer (aw_tx w) (aw_chan w) (aw_cap w) (wrap64 (aw_dropped w + 1)) (aw_write_failures w) flag
    (aw_detach_warned w) (aw_write_warned w) stderr (aw_handle w) (aw_sink w)
    (aw_first_error w) (aw_result w) (aw_replies w) (aw_world w).

(** [write_failures.fetch_add(1)], the warning, and the first error kept *)
Definition count_write_failure (e : IoError) (w : writer) : writer :=
  let '(flag, stderr, _) := warn_once (aw_write_warned w) WRITE_WARNING (aw_stderr w) in
  mk_writer (aw_tx w) (aw_chan w) (aw_cap w) (aw_dropped w) (wrap64 (aw_write_failures w + 1))
    (aw_drop_warned w) (aw_detach_warned w) flag stderr (aw_handle w) (aw_sink w)
    (match aw_first_error w with Some e0 => Some e0 | None => Some e end)
    (aw_result w) (aw_replies w) (aw_world w).

(** [spawn] *)
Definition spawn (sink : Sink) (capacity : Z) (world : World) : result (AuditError IoError) writer :=
  bail_if (capacity =? 0) (InvalidCapacity capacity) ;;
  Ok (mk_writer true [] capacity 0 0 false false false [] true sink None None [] world).

(** [AuditWriter::start] *)
Definition start (path : string) (capacity : Z) (world : World)
    : result (AuditError IoError) writer * World :=
  match io_open_append path world with
  | (Err e, world) => (Err (AuditIoError e), world)
  | (Ok sink, world) => (spawn sink capacity world, world)
  end.

(** [SyncSender::try_send] on the queue: refused when the thread has gone or
    the buffer is full. *)
Definition try_send (c : Command) (w : writer) : result bool writer :=
  if bool_decide (is_Some (aw_result w)) then Err false
  else if Z.of_nat (length (aw_chan w)) <? aw_cap w then Ok (with_chan (aw_tx w) (aw_chan w ++ [c]) w)
  else Err true.

(** [AuditWriter::try_record] *)
Definition try_record (r : AuditRecord) (w : writer) : Outcome.t * writer :=
  if negb (aw_tx w) then (Outcome.Dropped, count_drop w)
  else match try_send (CmdRecord r) w with
       | Ok w' => (Outcome.Accepted, w')
       | Err _ => (Outcome.Dropped, count_drop w)
       end.

(** [AuditWriter::reopen] up to its await: refused, or waiting for the reply. *)
Definition reopen_start (path : string) (reply : nat) (w : writer)
    : result (AuditError IoError) writer :=
  if negb (aw_tx w) then Err WriterPanicked
  else match try_send (CmdReopen path reply) w with
       | Ok w' => Ok w'
       | Err true => Err ReopenQueueFull
       | Err false => Err WriterPanicked
       end.

(** The rest of [AuditWriter::reopen]: the reply that arrived, if any; a dropped
    reply channel; or the timeout. *)
Definition reopen_finish (elapsed : bool) (reply : nat) (w : writer)
    : option (result (AuditError IoError) unit) :=
  match list_find (fun p : nat * result (AuditError IoError) unit => p.1 = reply) (aw_replies w) with
  | Some (_, (_, res)) => Some res
  | None => if bool_decide (is_Some (aw_result w)) then Some (Err WriterPanicked)
            else if elapsed then Some (Err ReopenTimeout) else None
  end.

(** The body of [write_loop]'s loop. *)
Definition write_command (c : Command) (w : writer) : writer :=
  match c with
  | CmdRecord r =>
      match io_to_vec r with
      | Err e => with_thread (aw_sink w)
                   (match aw_first_error w with Some e0 => Some e0 | None => Some e end)
                   (aw_result w) (aw_replies w) (aw_world w) w
      | Ok line =>
          let '(res, world) := io_write_all (aw_sink w) (line ++ [LF]) (aw_world w) in
          let w := with_thread (aw_sink w) (aw_first_error w) (aw_result w) (aw_replies w) world w in
          match res with Ok _ => w | Err e => count_write_failure e w end
      end
  | CmdReopen path reply =>
      let '(res, world) := io_open_append path (aw_world w) in
      match res with
      | Ok sink => with_thread sink (aw_first_error w) (aw_result w)
                     (aw_replies w ++ [(reply, Ok tt)]) world w
      | Err e => with_thread (aw_sink w) (aw_first_error w) (aw_result w)
                   (aw_replies w ++ [(reply, Err (AuditIoError e))]) world w
      end
  end.

(** What [write_loop] does once [recv] fails. *)
Definition write_exit (w : writer) : writer :=
  let '(res, world) := io_flush (aw_sink w) (aw_world w) in
  let w := with_thread (aw_sink w) (aw_first_error w) (aw_result w) (aw_replies w) world w in
  let w := match res with Ok _ => w | Err e => count_write_failure e w end in
  with_thread (aw_sink w) (aw_first_error w)
    (Some (match aw_first_error w with Some e => Err (AuditIoError e) | None => Ok tt end))
    (aw_replies w) (aw_world w) w.

(** One iteration of [write_loop]; [None] when the thread has finished or
    blocks in [recv]. *)
Definition write_step (w : writer) : option writer :=
  match aw_result w with
  | Some _ => None
  | None =>
      match aw_chan w with
      | c :: rest => Some (write_command c (with_chan (aw_tx w) rest w))
      | [] => if aw_tx w then None else Some (write_exit w)
      end
  end.

(** The thread's loop; [fuel] bounds the iterations. *)
Fixpoint write_loop (fuel : nat) (w : writer) : writer :=
  match fuel with
  | O => w
  | S fuel' => match write_step w with Some w' => write_loop fuel' w' | None => w end
  end.

(** [AuditWriter::shutdown]: close the channel, join the thread, return what it
    returned. *)
Definition shutdown (w : writer) : option (result (AuditError IoError) unit * writer) :=
  let w := with_chan false (aw_chan w) w in
  if aw_handle w then
    let w := write_loop (S (length (aw_chan w))) w in
    res ← aw_result w; Some (res, w)
  else Some (Ok tt, w).

(** [AuditWriter::shutdown_bounded] when the thread has not finished in time. *)
Definition shutdown_timed_out (w : writer) : result (AuditError IoError) unit * writer :=
  let w := with_chan false (aw_chan w) w in
  if aw_handle w then (Err ShutdownTimeout, w) else (Ok tt, w).

(** [<AuditWriter as Drop>::drop] *)
Definition drop_writer (w : writer) : writer :=
  let w := with_chan false (aw_chan w) w in
  if aw_handle w then
    let '(flag, stderr, _) := warn_once (aw_detach_warned w) DETACH_WARNING (aw_stderr w) in
    mk_writer (aw_tx w) (aw_chan w) (aw_cap w) (aw_dropped w) (aw_write_failures w)
      (aw_drop_warned w) flag (aw_write_warned w) stderr false (aw_sink w)
      (aw_first_error w) (aw_result w) (aw_replies w) (aw_world w)
  else w.

(** What the request tasks and the thread do to the writer, with the commands
    each step accepts and the commands the thread takes. *)
Inductive writer_step : writer -> list Command -> list Command -> writer -> Prop :=
| ws_record r w w' : try_record r w = (Outcome.Accepted, w') -> writer_step w [CmdRecord r] [] w'
| ws_record_dropped r w w' : try_record r w = (Outcome.Dropped, w') -> writer_step w [] [] w'
| ws_reopen p n w w' : reopen_start p n w = Ok w' -> writer_step w [CmdReopen p n] [] w'
| ws_reopen_refused p n w e : reopen_start p n w = Err e -> writer_step w [] [] w
| ws_write w c rest : aw_result w = None -> aw_chan w = c :: rest ->
    writer_step w [] [c] (write_command c (with_chan (aw_tx w) rest w))
| ws_exit w : aw_result w = None -> aw_chan w = [] -> aw_tx w = false ->
    writer_step w [] [] (write_exit w)
| ws_close w : writer_step w [] [] (with_chan false (aw_chan w) w)
| ws_drop w : writer_step w [] [] (drop_writer w).

Inductive writer_run : writer -> list Command -> list Command -> writer -> Prop :=
| wr_refl w : writer_run w [] [] w
| wr_step w a1 t1 w1 a2 t2 w2 :
    writer_step w a1 t1 w1 -> writer_run w1 a2 t2 w2 -> writer_run w (a1 ++ a2) (t1 ++ t2) w2.

End Writer.

(** ** Specification of a reliable file system *)

(** What a sink holds: a successful write appends to it alone, opening and
    flushing change nothing. *)
Class AuditIoLaws (World Sink IoError : Type) `{AuditIo World Sink IoError} := {
  io_contents : World -> Sink -> bytes;
  io_write_appends : forall s b w w', io_write_all s b w = (Ok tt, w') ->
    io_contents w' s = io_contents w s ++ b /\ forall s', s' <> s -> io_contents w' s' = io_contents w s';
  io_open_keeps : forall p w r w', io_open_append p w = (r, w') ->
    forall s, io_contents w' s = io_contents w s;
  io_flush_keeps : forall s0 w r w', io_flush s0 w = (r, w') ->
    forall s, io_contents w' s = io_contents w s;
}.

(** ** Facts *)

Section WriterFacts.
Context {World Sink IoError : Type} `{AuditIo World Sink IoError}.
Implicit Types w : AuditWriter World Sink IoError.

Lemma warn_once_spec flag msg stderr :
  warn_once flag msg stderr = (true, if flag then stderr else stderr ++ [msg], negb flag).
Proof. by destruct flag. Qed.

Lemma write_command_chan c tx ch w :
  write_command c (with_chan tx ch w) = with_chan tx ch (write_command c w).
Proof.
  destruct c as [r | p n]; simpl.
  - destruct (io_to_vec r); [| done].
    destruct (io_write_all _ _ _) as [[] world]; [done |].
    unfold count_write_failure. simpl. by destruct (aw_write_warned w).
  - by destruct (io_open_append _ _) as [[] world].
Qed.

(** What a command leaves alone. *)
Lemma write_command_frame c w :
  aw_tx (write_command c w) = aw_tx w /\ aw_chan (write_command c w) = aw_chan w
  /\ aw_cap (write_command c w) = aw_cap w /\ aw_dropped (write_command c w) = aw_dropped w
  /\ aw_drop_warned (write_command c w) = aw_drop_warned w
  /\ aw_detach_warned (write_command c w) = aw_detach_warned w
  /\ aw_handle (write_command c w) = aw_handle w /\ aw_result (write_command c w) = aw_result w.
Proof.
  destruct c as [r | p n]; simpl.
  - destruct (io_to_vec r); [| by split_and!].
    destruct (io_write_all _ _ _) as [[] world]; [by split_and! |].
    unfold count_write_failure. simpl. destruct (aw_write_warned w); by split_and!.
  - destruct (io_open_append _ _) as [[] world]; by split_and!.
Qed.

Lemma write_exit_frame w :
  aw_tx (write_exit w) = aw_tx w /\ aw_chan (write_exit w) = aw_chan w
  /\ aw_cap (write_exit w) = aw_cap w /\ aw_dropped (write_exit w) = aw_dropped w
  /\ is_Some (aw_result (write_exit w)).
Proof.
  unfold write_exit. destruct (io_flush _ _) as [[] world]; simpl; [split_and!; by eauto |].
  unfold count_write_failure. simpl. destruct (aw_write_warned w); simpl; split_and!; by eauto.
Qed.

Lemma write_loop_drains : forall ch w,
  aw_result w = None ->
  write_loop (S (length ch)) (with_chan false ch w) =
  write_exit (with_chan false [] (foldl (fun w c => write_command c w) w ch)).
Proof.
  induction ch as [| c ch IH]; intros w Hr.
  - cbn [length write_loop]. unfold write_step. simpl. by rewrite Hr.
  - cbn [length]. change (write_loop (S (S (length ch))) (with_chan false (c :: ch) w)) with
      (match write_step (with_chan false (c :: ch) w) with
       | Some w' => write_loop (S (length ch)) w' | None => with_chan false (c :: ch) w end).
    unfold write_step. simpl. rewrite Hr.
    change (with_chan false ch (with_chan false (c :: ch) w)) with (with_chan false ch w).
    rewrite write_command_chan. apply IH.
    destruct (write_command_frame c w) as (_ & _ & _ & _ & _ & _ & _ & ->). done.
Qed.

(** The channel between the steps. *)
Lemma writer_step_fifo w a t w' :
  writer_step w a t w' -> Z.of_nat (length (aw_chan w)) <= aw_cap w ->
  aw_chan w ++ a = t ++ aw_chan w' /\ aw_cap w' = aw_cap w
  /\ Z.of_nat (length (aw_chan w')) <= aw_cap w'.
Proof.
  assert (forall w, aw_chan (count_drop w) = aw_chan w /\ aw_cap (count_drop w) = aw_cap w) as Hcd.
  { intros v. unfold count_drop. by destruct (aw_drop_warned v). }
  assert (forall c w w', try_send c w = Ok w' -> Z.of_nat (length (aw_chan w)) <= aw_cap w ->
    aw_chan w' = aw_chan w ++ [c] /\ aw_cap w' = aw_cap w /\ Z.of_nat (length (aw_chan w')) <= aw_cap w') as Hts.
  { unfold try_send. intros c v v' Hv Hle. repeat case_match; simplify_eq. bool_to_prop. simpl.
    rewrite length_app. simpl. split_and!; try done. lia. }
  intros Hstep Hle. destruct Hstep as [r w w' Hr | r w w' Hr | p n w w' Hr | p n w e Hr
    | w c rest Hres Hch | w Hres Hch Htx | w | w]; rewrite ?app_nil_r.
  - unfold try_record in Hr. repeat case_match; simplify_eq.
    destruct (Hts _ _ _ ltac:(eassumption) Hle) as (-> & -> & ?). simpl. done.
  - unfold try_record in Hr. destruct (Hcd w) as [-> ->] || idtac.
    repeat case_match; simplify_eq; destruct (Hcd w) as [-> ->]; done.
  - unfold reopen_start in Hr. repeat case_match; simplify_eq.
    destruct (Hts _ _ _ ltac:(eassumption) Hle) as (-> & -> & ?). simpl. done.
  - done.
  - destruct (write_command_frame c (with_chan (aw_tx w) rest w)) as (_ & -> & -> & _).
    rewrite Hch in *. simpl in *. split_and!; try done. lia.
  - destruct (write_exit_frame w) as (_ & -> & -> & _). done.
  - done.
  - unfold drop_writer. simpl. destruct (aw_handle w); [| done]. simpl. by destruct (aw_detach_warned w).
Qed.

(** Each warning was printed once if its flag is set and never otherwise. *)
Definition warned_once (w : AuditWriter World Sink IoError) : Prop :=
  length (filter (fun m => m = DROP_WARNING) (aw_stderr w)) = (if aw_drop_warned w then 1 else 0)%nat
  /\ length (filter (fun m => m = WRITE_WARNING) (aw_stderr w)) = (if aw_write_warned w then 1 else 0)%nat
  /\ length (filter (fun m => m = DETACH_WARNING) (aw_stderr w)) = (if aw_detach_warned w then 1 else 0)%nat
  /\ Forall (fun m => m ∈ [DROP_WARNING; WRITE_WARNING; DETACH_WARNING]) (aw_stderr w).

Lemma filter_snoc {A} (P : A -> Prop) `{forall x, Decision (P x)} l x :
  length (filter P (l ++ [x])) = (length (filter P l) + if decide (P x) then 1 else 0)%nat.
Proof.
  rewrite filter_app, length_app, filter_cons, filter_nil. by destruct (decide (P x)).
Qed.

Lemma warned_drop w : warned_once w -> warned_once (count_drop w).
Proof.
  intros (H1 & H2 & H3 & H4). unfold count_drop, warned_once.
  destruct (aw_drop_warned w) eqn:Hf; simpl; [by rewrite ?H1, ?H2, ?H3 |].
  rewrite !filter_snoc, H1, H2, H3. split_and!; try by rewrite Nat.add_0_r.
  - done.
  - apply Forall_app. split; [done |]. constructor; [by left | constructor].
Qed.

Lemma warned_write e w : warned_once w -> warned_once (count_write_failure e w).
Proof.
  intros (H1 & H2 & H3 & H4). unfold count_write_failure, warned_once.
  destruct (aw_write_warned w) eqn:Hf; simpl; [by rewrite ?H1, ?H2, ?H3 |].
  rewrite !filter_snoc, H1, H2, H3. split_and!; try by rewrite Nat.add_0_r.
  - done.
  - apply Forall_app. split; [done |]. constructor; [right; by left | constructor].
Qed.

Lemma writer_step_warned w a t w' : writer_step w a t w' -> warned_once w -> warned_once w'.
Proof.
  intros Hstep Hw. destruct Hstep as [r w w' Hr | r w w' Hr | p n w w' Hr | p n w e Hr
    | w c rest Hres Hch | w Hres Hch Htx | w | w].
  - unfold try_record, try_send in Hr. repeat case_match; simplify_eq. done.
  - unfold try_record in Hr. repeat case_match; simplify_eq; by apply warned_drop.
  - unfold reopen_start, try_send in Hr. repeat case_match; simplify_eq. done.
  - done.
  - destruct c as [r | p n]; simpl.
    + destruct (io_to_vec r); [| done]. destruct (io_write_all _ _ _) as [[] world]; [done |].
      by apply warned_write.
    + by destruct (io_open_append _ _) as [[] world].
  - unfold write_exit. destruct (io_flush _ _) as [[] world]; [done |].
    match goal with |- context [count_write_failure ?e ?v] =>
      assert (warned_once (count_write_failure e v)) as Hc by (by apply warned_write) end.
    exact Hc.
  - done.
  - destruct Hw as (H1 & H2 & H3 & H4). unfold drop_writer, warned_once. simpl.
    destruct (aw_handle w); [| done]. destruct (aw_detach_warned w) eqn:Hf; simpl; [by rewrite ?H1, ?H2, ?H3 |].
    rewrite !filter_snoc, H1, H2, H3. split_and!; try by rewrite Nat.add_0_r.
    + done.
    + apply Forall_app. split; [done |]. constructor; [right; right; by left | constructor].
Qed.
End WriterFacts.

Lemma three_messages (l : list string) :
  Forall (fun m => m ∈ [DROP_WARNING; WRITE_WARNING; DETACH_WARNING]) l ->
  length l = (length (filter (fun m => m = DROP_WARNING) l) + length (filter (fun m => m = WRITE_WARNING) l)
              + length (filter (fun m => m = DETACH_WARNING) l))%nat.
Proof.
  assert (DROP_WARNING <> WRITE_WARNING /\ DROP_WARNING <> DETACH_WARNING
          /\ WRITE_WARNING <> DETACH_WARNING) as (N1 & N2 & N3) by done.
  revert N1 N2 N3. generalize DROP_WARNING, WRITE_WARNING, DETACH_WARNING. intros a b c N1 N2 N3.
  induction 1 as [| m l Hm _ IH]; [done |]. rewrite !filter_cons. cbn [length]. rewrite IH.
  rewrite !elem_of_cons in Hm.
  destruct (decide (m = a)), (decide (m = b)), (decide (m = c)); subst; simpl; try done; try lia.
  destruct Hm as [| [| [| []%not_elem_of_nil]]]; done.
Qed.

(** ** Theorems *)

Section WriterTheorems.
Context {World Sink IoError : Type} `{AuditIo World Sink IoError}.
Implicit Types w : AuditWriter World Sink IoError.

Lemma writer_run_fifo w a t w' :
  writer_run w a t w' -> Z.of_nat (length (aw_chan w)) <= aw_cap w ->
  aw_chan w ++ a = t ++ aw_chan w' /\ Z.of_nat (length (aw_chan w')) <= aw_cap w
  /\ aw_cap w' = aw_cap w.
Proof.
  intros Hrun. induction Hrun as [w | w a1 t1 w1 a2 t2 w2 Hstep _ IH]; intros Hle.
  - by rewrite app_nil_r.
  - destruct (writer_step_fifo _ _ _ _ Hstep Hle) as (Heq & Hc & Hle1).
    destruct (IH Hle1) as (Heq2 & Hle2 & Hc2). split_and!; [| lia | lia].
    by rewrite app_assoc, Heq, <- app_assoc, Heq2, app_assoc.
Qed.

(** The queue neither loses nor reorders: whatever the request tasks offer
    and however the writer thread is scheduled, the commands accepted so far
    are, in order, the commands the thread has taken followed by the commands
    still queued, and never more than the capacity are queued. *)
Theorem audit_queue_fifo sink cap world w a t w' :
  0 < cap -> spawn sink cap world = Ok w -> writer_run w a t w' ->
  a = t ++ aw_chan w' /\ Z.of_nat (length (aw_chan w')) <= cap.
Proof.
  intros Hcap Hw Hrun. unfold spawn in Hw. destruct (Z.eqb_spec cap 0); [done |].
  simpl in Hw. injection Hw as <-.
  apply writer_run_fifo in Hrun as (Heq & Hle & _); simpl in *; [done | lia].
Qed.

(** A failing or saturated writer never floods standard error: whatever
    happens, the dropped-record, failed-write and detached-writer warnings are
    each printed at most once, and nothing else is ever printed. *)
Theorem audit_warnings_once sink cap world w a t w' :
  spawn sink cap world = Ok w -> writer_run w a t w' ->
  (length (filter (fun m => m = DROP_WARNING) (aw_stderr w')) <= 1)%nat
  /\ (length (filter (fun m => m = WRITE_WARNING) (aw_stderr w')) <= 1)%nat
  /\ (length (filter (fun m => m = DETACH_WARNING) (aw_stderr w')) <= 1)%nat
  /\ (length (aw_stderr w') <= 3)%nat.
Proof.
  intros Hw Hrun.
  assert (warned_once w) as Hwo.
  { unfold spawn in Hw. destruct (cap =? 0); [done |]. simpl in Hw. injection Hw as <-.
    split_and!; done || constructor. }
  assert (warned_once w') as (H1 & H2 & H3 & H4).
  { clear Hw. induction Hrun; eauto using writer_step_warned. }
  assert (length (aw_stderr w') = (length (filter (fun m => m = DROP_WARNING) (aw_stderr w'))
    + length (filter (fun m => m = WRITE_WARNING) (aw_stderr w'))
    + length (filter (fun m => m = DETACH_WARNING) (aw_stderr w')))%nat) as ->
    by (by apply three_messages).
  rewrite H1, H2, H3. destruct (aw_drop_warned w'), (aw_write_warned w'), (aw_detach_warned w'); lia.
Qed.

(** Shutdown flushes: with a live thread it always finishes (no fuel or
    lock can keep it), has taken every queued command in order, flushes the
    sink afterwards, and reports the first error of the writer's life if there
    was one; afterwards every record offered is dropped and counted. *)
Theorem shutdown_drains w :
  aw_handle w = true -> aw_result w = None ->
  exists res w', shutdown w = Some (res, w')
    /\ w' = write_exit (with_chan false [] (foldl (fun w c => write_command c w) w (aw_chan w)))
    /\ aw_chan w' = []
    /\ res = match aw_first_error w' with Some e => Err (AuditIoError e) | None => Ok tt end
    /\ forall r, (try_record r w').1 = Outcome.Dropped
         /\ aw_dropped (try_record r w').2 = wrap64 (aw_dropped w' + 1).
Proof.
  intros Hh Hr. unfold shutdown. cbv zeta.
  change (aw_chan (with_chan false (aw_chan w) w)) with (aw_chan w).
  change (aw_handle (with_chan false (aw_chan w) w)) with (aw_handle w).
  rewrite Hh, write_loop_drains by done.
  set (w1 := with_chan false [] _).
  destruct (write_exit_frame w1) as (Htx & Hch & _ & _ & _).
  assert (aw_result (write_exit w1) = Some (match aw_first_error (write_exit w1) with
    Some e => Err (AuditIoError e) | None => Ok tt end)) as Hres.
  { unfold write_exit. by destruct (io_flush _ _) as [[] ?]. }
  rewrite Hres. cbn [mbind option_bind]. do 2 eexists. split_and!; [done | done | by rewrite Hch | done |].
  intros r. unfold try_record. rewrite Htx. simpl. split; [done |].
  unfold count_drop. by destruct (aw_drop_warned _).
Qed.

Lemma process_app cmds1 cmds2 w :
  foldl (fun w c => write_command c w) w (cmds1 ++ cmds2)
  = foldl (fun w c => write_command c w) (foldl (fun w c => write_command c w) w cmds1) cmds2.
Proof. apply foldl_app. Qed.
End WriterTheorems.

Section ReliableTheorems.
Context {World Sink IoError : Type} `{AuditIoLaws World Sink IoError} `{EqDecision Sink}.
Implicit Types w : AuditWriter World Sink IoError.

(** The line of a record, when it serialises. *)
Definition record_line (r : AuditRecord) : bytes :=
  match io_to_vec (World := World) (Sink := Sink) (IoError := IoError) r with
  | Ok line => line ++ [LF] | Err _ => [] end.

Definition writes_succeed : Prop := forall (s : Sink) b (world : World), exists world',
  io_write_all s b world = (Ok (E := IoError) tt, world').

Lemma process_records rs w :
  writes_succeed -> (forall r, r ∈ rs -> is_ok (io_to_vec (World := World) (Sink := Sink) (IoError := IoError) r) = true) ->
  let w' := foldl (fun w c => write_command c w) w (CmdRecord <$> rs) in
  aw_sink w' = aw_sink w /\ aw_first_error w' = aw_first_error w
  /\ aw_write_failures w' = aw_write_failures w
  /\ io_contents (aw_world w') (aw_sink w) =
       io_contents (aw_world w) (aw_sink w) ++ concat (record_line <$> rs)
  /\ forall s, s <> aw_sink w -> io_contents (aw_world w') s = io_contents (aw_world w) s.
Proof.
  intros Hio. revert w. induction rs as [| r rs IH]; intros w Hser; cbv zeta.
  - simpl. by rewrite app_nil_r.
  - rewrite fmap_cons. cbn [foldl].
    assert (exists world', write_command (CmdRecord r) w =
              with_thread (aw_sink w) (aw_first_error w) (aw_result w) (aw_replies w) world' w
            /\ io_write_all (aw_sink w) (record_line r) (aw_world w) = (Ok tt, world')) as (world' & -> & Hw).
    { unfold record_line. simpl. specialize (Hser r ltac:(by left)).
      destruct (io_to_vec r) as [line |]; [| done].
      destruct (Hio (aw_sink w) (line ++ [LF]) (aw_world w)) as [world' Hw]. exists world'.
      by rewrite Hw. }
    apply io_write_appends in Hw as [Happ Hoth].
    destruct (IH (with_thread (aw_sink w) (aw_first_error w) (aw_result w) (aw_replies w) world' w))
      as (I1 & I2 & I3 & I4 & I5); [intros r' Hr'; apply Hser; by right |].
    cbn [with_thread aw_sink aw_first_error aw_write_failures aw_world] in *.
    split_and!; [done | done | done | |].
    + rewrite I4, Happ, fmap_cons. cbn [concat]. by rewrite <- app_assoc.
    + intros s Hs. rewrite I5, Hoth by done. done.
Qed.

(** Log rotation loses nothing: when writes succeed, the records taken
    before a reopen are whole lines, in order, at the end of the old file; if
    the reopen succeeds the records after it are whole lines, in order, at the
    end of the new file and nowhere else, and the caller is told so; if it
    fails they keep going to the old file and the caller is told that. *)
Theorem rotation_keeps_records before path n after w :
  writes_succeed ->
  (forall r, r ∈ before ++ after -> is_ok (io_to_vec (World := World) (Sink := Sink) (IoError := IoError) r) = true) ->
  let w' := foldl (fun w c => write_command c w) w
              ((CmdRecord <$> before) ++ CmdReopen path n :: (CmdRecord <$> after)) in
  let world1 := aw_world (foldl (fun w c => write_command c w) w (CmdRecord <$> before)) in
  let old := aw_sink w in
  io_contents world1 old = io_contents (aw_world w) old ++ concat (record_line <$> before)
  /\ match io_open_append path world1 with
     | (Ok new, _) => aw_sink w' = new
         /\ last (aw_replies w') = Some (n, Ok tt)
         /\ io_contents (aw_world w') new = io_contents world1 new ++ concat (record_line <$> after)
         /\ forall s, s <> new -> io_contents (aw_world w') s = io_contents world1 s
     | (Err e, _) => aw_sink w' = old
         /\ last (aw_replies w') = Some (n, Err (AuditIoError e))
         /\ io_contents (aw_world w') old = io_contents world1 old ++ concat (record_line <$> after)
     end.
Proof.
  intros Hio Hser. cbv zeta.
  assert (forall rs w, aw_replies (foldl (fun w c => write_command c w) w (CmdRecord <$> rs)) = aw_replies w) as Hrep.
  { induction rs as [| r rs IH]; intros v; [done |]. rewrite fmap_cons. cbn [foldl]. rewrite IH. simpl.
    destruct (io_to_vec r); [| done]. destruct (io_write_all _ _ _) as [[] ?]; [done |].
    unfold count_write_failure. simpl. by destruct (aw_write_warned v). }
  destruct (process_records before w) as (B1 & _ & _ & B4 & _);
    [done | intros r Hr; apply Hser, elem_of_app; by left |].
  split; [done |]. rewrite foldl_app. set (w1 := foldl _ w _) in *. cbn [foldl write_command].
  destruct (io_open_append path (aw_world w1)) as [[new | e] world] eqn:Hopen;
    pose proof (io_open_keeps _ _ _ _ Hopen) as Hkeep;
    match goal with |- context [foldl _ ?v (CmdRecord <$> after)] =>
      destruct (process_records after v) as (A1 & _ & _ & A4 & A5);
        [done | intros r Hr; apply Hser, elem_of_app; by right |];
      specialize (Hrep after v) end;
    simpl in *; rewrite Hrep.
  - split_and!; [done | by rewrite last_snoc | by rewrite A4, Hkeep |].
    intros s Hs. by rewrite A5, Hkeep.
  - rewrite B1 in *. split_and!; [done | by rewrite last_snoc | by rewrite A4, Hkeep].
Qed.
End ReliableTheorems.

(** ** At concrete inputs *)

(** Files as a map from paths to contents; every operation succeeds. *)
#[local] Instance demo_io : AuditIo (gmap string bytes) string unit := {|
  io_write_all s b w := (Ok tt, <[s := default [] (w !! s) ++ b]> w);
  io_flush s w := (Ok tt, w);
  io_open_append p w := (Ok p, w);
  io_to_vec r := Ok (as_bytes (ar_request_id r));
|}.
#[local] Instance demo_io_laws : AuditIoLaws (gmap string bytes) string unit.
Proof.
  refine {| io_contents := fun (w : gmap string bytes) (s : string) => default [] (w !! s) |}.
  - intros s b w w' [= <-]. split; [by rewrite lookup_insert_eq |]. intros s' Hs. by rewrite lookup_insert_ne.
  - by intros p w r w' [= _ <-].
  - by intros s0 w r w' [= _ <-].
Defined.

Definition demo_record (id : string) : AuditRecord :=
  mk_record 0 id None None None None None None None None None 401 None 0 None None None [].
Definition demo_writer : AuditWriter (gmap string bytes) string unit :=
  mk_writer true [] 1 0 0 false false false [] true "a.log" None None [] ∅.
Definition demo_one_queued := with_chan true [CmdRecord (demo_record "r1")] demo_writer.
Definition demo_one_dropped := count_drop demo_one_queued.

Lemma demo_run : writer_run demo_writer [CmdRecord (demo_record "r1")] [] demo_one_dropped.
Proof.
  eapply (wr_step _ [_] [] demo_one_queued []); [by apply ws_record |].
  eapply (wr_step _ [] [] demo_one_dropped [] []); [by apply (ws_record_dropped (demo_record "r2")) |].
  apply wr_refl.
Defined.

Lemma audit_queue_fifo_witness :
  [CmdRecord (demo_record "r1")] = [] ++ aw_chan demo_one_dropped
  /\ Z.of_nat (length (aw_chan demo_one_dropped)) <= 1.
Proof.
  apply (audit_queue_fifo "a.log" 1 ∅ demo_writer [CmdRecord (demo_record "r1")] [] demo_one_dropped).
  - lia.
  - reflexivity.
  - exact demo_run.
Defined.

Lemma audit_warnings_once_witness :
  (length (filter (fun m => m = DROP_WARNING) (aw_stderr demo_one_dropped)) <= 1)%nat
  /\ (length (filter (fun m => m = WRITE_WARNING) (aw_stderr demo_one_dropped)) <= 1)%nat
  /\ (length (filter (fun m => m = DETACH_WARNING) (aw_stderr demo_one_dropped)) <= 1)%nat
  /\ (length (aw_stderr demo_one_dropped) <= 3)%nat.
Proof.
  apply (audit_warnings_once "a.log" 1 ∅ demo_writer [CmdRecord (demo_record "r1")] [] demo_one_dropped).
  - reflexivity.
  - exact demo_run.
Defined.

Lemma shutdown_drains_witness :
  exists res w', shutdown demo_one_dropped = Some (res, w')
    /\ w' = write_exit (with_chan false []
              (foldl (fun w c => write_command c w) demo_one_dropped (aw_chan demo_one_dropped)))
    /\ aw_chan w' = []
    /\ res = match aw_first_error w' with Some e => Err (AuditIoError e) | None => Ok tt end
    /\ forall r, (try_record r w').1 = Outcome.Dropped
         /\ aw_dropped (try_record r w').2 = wrap64 (aw_dropped w' + 1).
Proof. apply (shutdown_drains demo_one_dropped); reflexivity. Defined.

Lemma rotation_keeps_records_witness :
  io_contents (aw_world (write_command (CmdRecord (demo_record "r1")) demo_writer)) "a.log"
    = io_contents ∅ "a.log" ++ as_bytes "r1" ++ [LF]
  /\ exists w' : AuditWriter (gmap string bytes) string unit, io_contents (aw_world w') "b.log" = as_bytes "r2" ++ [LF] /\ aw_sink w' = "b.log".
Proof.
  destruct (rotation_keeps_records [demo_record "r1"] "b.log" 0 [demo_record "r2"] demo_writer)
    as (Hold & Hnew & _ & Hc & _).
  - intros s b w. eexists. reflexivity.
  - intros r _. reflexivity.
  - split; [exact Hold |]. eexists. split; [exact Hc | exact Hnew].
Defined.
