(* ===== verification/Stream.v ===== *)
(** * Upstream bodies: error reads, prefetch, and the pump

    [consume_error_response], [prepare_response], [pump_upstream] and the
    feedback of [stream_response] in [src/src/gateway.rs].

    A body is the list of what the connection will deliver, each item with the
    instant it becomes available; when the list ends without [EndOfBody] the
    connection stalls for ever.  A client is the list of the instants at which
    it takes the next chunk.  [tokio::time::timeout] polls the read before the
    timer: an item that is available wins over a deadline that has passed. *)
From S2P Require Export Classify Http Sse AuditLog.

(** ** Timed input and output *)

Inductive ReadItem :=
| Chunk (b : bytes)
| ReadError
| EndOfBody.

Abbreviation UpstreamBody := (list (Instant * ReadItem)) (only parsing).

(** [send_with_timeout]: when the client takes the chunk within the budget it
    is handed off then; a client that dropped the body is [None]. *)
Definition send_with_timeout (budget : Duration) (now : Instant) (client : list (option Instant))
    : bool * Instant * list (option Instant) :=
  match client with
  | Some t :: rest => if t <=? now then (true, now, rest)
                      else if t <=? now + budget then (true, t, rest)
                      else (false, now + budget, rest)
  | None :: rest => (false, now, rest)
  | [] => (false, now + budget, [])
  end.

(** [u64] counters *)
Definition add_len (n : Z) (b : bytes) : Z := u64_saturating_add n (blen b).
Definition add_one (n : Z) : Z := u64_saturating_add n 1.

(** [o.get_or_insert(x)] *)
Definition get_or_insert {A} (o : option A) (x : A) : option A := Some (default x o).

(** ** Error bodies *)

(** [enum ErrorBody] *)
Inductive ErrorBody :=
| Buffered (b : bytes)
| Oversized.

(** [enum PumpOutcome] *)
Module PumpOutcome.
Inductive t := Completed | UpstreamError | ClientCancel | EventIdleTimeout.
#[global] Instance eq_dec : EqDecision t.
Proof. solve_decision. Defined.
End PumpOutcome.

Section Bodies.
Context `{SerdeJson} `{HttpHeaders}.

(** The response head and body the HTTP client hands over. *)
Record UpstreamResponse := mk_response {
  ur_status : Z;
  ur_headers : HeaderMap;
  ur_body : UpstreamBody;
}.

(** [struct ConsumedResponse] *)
Record ConsumedResponse := mk_consumed {
  cr_status : Z;
  cr_headers : list (string * HeaderValue);
  cr_body : ErrorBody;
  cr_first_byte_latency : option Duration;
  cr_upstream_bytes : Z;
  cr_upstream_chunks : Z;
  cr_last_activity_offset : option Duration;
}.

(** The loop of [consume_error_response] under the deadline of
    [consume_classify_body]; [Err] is a read error or the timeout, with the
    instant it returns. *)
Fixpoint consume_loop (status : Z) (headers : list (string * HeaderValue))
    (attempt_start request_start deadline : Instant) (up : UpstreamBody) (now : Instant)
    (prefix : bytes) (first_byte : option Duration) (nbytes nchunks : Z)
    (last_activity : option Duration) : result unit ConsumedResponse * Instant :=
  let finish body := mk_consumed status headers body first_byte nbytes nchunks last_activity in
  match up with
  | [] => (Err tt, Z.max now deadline)
  | (t, item) :: rest =>
      if (t <=? now) || (t <=? deadline) then
        let now := Z.max now t in
        match item with
        | ReadError => (Err tt, now)
        | EndOfBody => (Ok (finish (Buffered prefix)), now)
        | Chunk c =>
            let first_byte := get_or_insert first_byte (now - attempt_start) in
            let nbytes := add_len nbytes c in
            let nchunks := add_one nchunks in
            let last_activity := Some (now - request_start) in
            let remaining := ERROR_CLASSIFY_CAP - blen prefix in
            if blen c <=? remaining
            then consume_loop status headers attempt_start request_start deadline rest now
                   (prefix ++ c) first_byte nbytes nchunks last_activity
            else (Ok (mk_consumed status headers Oversized first_byte nbytes nchunks last_activity), now)
        end
      else (Err tt, Z.max now deadline)
  end.

(** [consume_classify_body] around [consume_error_response] *)
Definition consume_classify_body (resp : UpstreamResponse) (timeout : Duration)
    (attempt_start request_start now : Instant) : result unit ConsumedResponse * Instant :=
  consume_loop (ur_status resp) (filter_response_headers (ur_headers resp))
    attempt_start request_start (now + timeout) (ur_body resp) now [] None 0 0 None.

(** [classify_error_body] *)
Definition classify_error_body (body : ErrorBody) : RateLimitKind.t :=
  match body with
  | Buffered b => classify_429 b false
  | Oversized => RateLimitKind.Generic
  end.

(** ** Prefetch *)

(** [is_streaming] *)
Definition is_streaming (headers : HeaderMap) : bool :=
  match header_get headers "content-type" ≫= to_str with
  | Some s => starts_with (to_ascii_lowercase s) "text/event-stream"
  | None => false
  end.

(** [struct PreparedResponse] *)
Record PreparedResponse := mk_prepared {
  pr_status : Z;
  pr_headers : list (string * HeaderValue);
  pr_streaming : bool;
  pr_upstream : UpstreamBody;
  pr_prefetched : list bytes;
  pr_first_byte_latency : option Duration;
  pr_first_event_latency : option Duration;
  pr_inter_event_timeout : Duration;
}.

(** [struct PrefetchFailure] *)
Record PrefetchFailure := mk_prefetch_failure {
  pf_reason : Reason.t;
  pf_first_byte_latency : option Duration;
  pf_upstream_bytes : Z;
  pf_upstream_chunks : Z;
  pf_last_activity_offset : option Duration;
}.

(** What the prefetch loop has read when it stops: the reason of a failure or
    the latency of the first event; the chunks, the counters, the first-byte
    latency, the unread rest and the instant. *)
Record Prefetch := mk_prefetch {
  pf_result : result Reason.t Duration;
  pf_chunks : list bytes;
  pf_total : Z;
  pf_count : Z;
  pf_first_byte : option Duration;
  pf_rest : UpstreamBody;
  pf_at : Instant;
}.

(** The [read] loop of [prepare_response] under its timeout. *)
Fixpoint prefetch_loop (buffer_cap : Z) (attempt_start deadline : Instant) (up : UpstreamBody)
    (now : Instant) (detector : SseUsageParser) (prefetched : list bytes) (total chunks : Z)
    (first_byte : option Duration) : Prefetch :=
  match up with
  | [] => mk_prefetch (Err Reason.NoFirstEvent) prefetched total chunks first_byte [] (Z.max now deadline)
  | (t, item) :: rest =>
      if (t <=? now) || (t <=? deadline) then
        let now := Z.max now t in
        match item with
        | ReadError => mk_prefetch (Err Reason.NetworkError) prefetched total chunks first_byte rest now
        | EndOfBody => mk_prefetch (Err Reason.EndBeforeFirstEvent) prefetched total chunks first_byte rest now
        | Chunk b =>
            let elapsed := now - attempt_start in
            let first_byte := get_or_insert first_byte elapsed in
            let total := add_len total b in
            let chunks := add_one chunks in
            if buffer_cap <? total
            then mk_prefetch (Err Reason.EndBeforeFirstEvent) prefetched total chunks first_byte rest now
            else
              let '(events, detector) := sse_push b detector in
              let prefetched := prefetched ++ [b] in
              if 0 <? events
              then mk_prefetch (Ok elapsed) prefetched total chunks first_byte rest now
              else prefetch_loop buffer_cap attempt_start deadline rest now detector prefetched
                     total chunks first_byte
        end
      else mk_prefetch (Err Reason.NoFirstEvent) prefetched total chunks first_byte up (Z.max now deadline)
  end.

(** [prepare_response] *)
Definition prepare_response (resp : UpstreamResponse) (event_timeouts : EventTimeouts.t)
    (buffer_cap : Z) (attempt_start now : Instant) : result PrefetchFailure PreparedResponse * Instant :=
  let headers := filter_response_headers (ur_headers resp) in
  let inter := EventTimeouts.inter_event_timeout event_timeouts in
  if negb (is_streaming (ur_headers resp))
  then (Ok (mk_prepared (ur_status resp) headers false (ur_body resp) [] None None inter), now)
  else
    let r := prefetch_loop buffer_cap attempt_start
               (now + EventTimeouts.first_event_timeout event_timeouts) (ur_body resp) now
               (sse_new buffer_cap) [] 0 0 None in
    (match pf_result r with
     | Ok latency =>
         Ok (mk_prepared (ur_status resp) headers true (pf_rest r) (pf_chunks r)
               (pf_first_byte r) (Some latency) inter)
     | Err reason =>
         Err (mk_prefetch_failure reason (pf_first_byte r) (pf_total r) (pf_count r) (pf_first_byte r))
     end, pf_at r).

(** ** The pump *)

(** [struct PumpMetrics] *)
Record PumpMetrics := mk_metrics {
  pm_first_byte_latency : option Duration;
  pm_first_event_latency : option Duration;
  pm_upstream_bytes : Z;
  pm_upstream_chunks : Z;
  pm_upstream_events : Z;
  pm_last_activity_offset : option Duration;
}.
Definition metrics_default : PumpMetrics := mk_metrics None None 0 0 0 None.

(** [struct PumpPlan] *)
Record PumpPlan := mk_plan {
  pp_idle : option Duration;
  pp_write_budget : Duration;
  pp_attempt_start : Instant;
  pp_request_start : Instant;
  pp_prefetched : list bytes;
  pp_initial_first_byte_latency : option Duration;
  pp_initial_first_event_latency : option Duration;
  pp_streaming : bool;
}.

(** [struct PumpResult], with the chunks handed to the client, the parser, and
    the instant the pump returns. *)
Record PumpResult := mk_pump {
  pu_outcome : PumpOutcome.t;
  pu_metrics : PumpMetrics;
  pu_sent : list bytes;
  pu_parser : StreamUsageParser;
  pu_at : Instant;
}.

(** The first loop of [pump_upstream], over the prefetched chunks; [inl] when
    the client was lost. *)
Fixpoint pump_prefetched (plan : PumpPlan) (chunks : list bytes) (now : Instant)
    (client : list (option Instant)) (m : PumpMetrics) (parser : StreamUsageParser) (sent : list bytes)
    : PumpResult + (PumpMetrics * StreamUsageParser * list bytes * Instant * list (option Instant)) :=
  match chunks with
  | [] => inr (m, parser, sent, now, client)
  | b :: rest =>
      let '(events, parser) := stream_push b parser in
      let m := mk_metrics (pm_first_byte_latency m) (pm_first_event_latency m)
                 (add_len (pm_upstream_bytes m) b) (add_one (pm_upstream_chunks m))
                 (u64_saturating_add (pm_upstream_events m) events)
                 (Some (now - pp_request_start plan)) in
      match send_with_timeout (pp_write_budget plan) now client with
      | (true, now, client) => pump_prefetched plan rest now client m parser (sent ++ [b])
      | (false, now, _) => inl (mk_pump PumpOutcome.ClientCancel m sent parser now)
      end
  end.

(** The second loop of [pump_upstream], over the body; [None] when it waits for
    ever, which needs a plan without an idle bound. *)
Fixpoint pump_loop (plan : PumpPlan) (up : UpstreamBody) (event_deadline : option Instant)
    (now : Instant) (client : list (option Instant)) (m : PumpMetrics) (parser : StreamUsageParser)
    (sent : list bytes) : option PumpResult :=
  let deadline := match event_deadline with
                  | Some d => Some d
                  | None => (fun idle => now + idle) <$> pp_idle plan
                  end in
  let on_elapsed := match event_deadline with
                    | Some _ => PumpOutcome.EventIdleTimeout
                    | None => PumpOutcome.UpstreamError
                    end in
  match up with
  | [] => d ← deadline; Some (mk_pump on_elapsed m sent parser (Z.max now d))
  | (t, item) :: rest =>
      if (t <=? now) || from_option (fun d => t <=? d) true deadline then
        let now := Z.max now t in
        match item with
        | ReadError => Some (mk_pump PumpOutcome.UpstreamError m sent parser now)
        | EndOfBody => Some (mk_pump PumpOutcome.Completed m sent parser now)
        | Chunk b =>
            let '(events, parser) := stream_push b parser in
            let m := mk_metrics
                       (get_or_insert (pm_first_byte_latency m) (now - pp_attempt_start plan))
                       (if (0 <? events) && negb (bool_decide (is_Some (pm_first_event_latency m)))
                        then Some (now - pp_attempt_start plan) else pm_first_event_latency m)
                       (add_len (pm_upstream_bytes m) b) (add_one (pm_upstream_chunks m))
                       (u64_saturating_add (pm_upstream_events m) events)
                       (Some (now - pp_request_start plan)) in
            let event_deadline := if 0 <? events then (fun idle => now + idle) <$> pp_idle plan
                                  else event_deadline in
            match send_with_timeout (pp_write_budget plan) now client with
            | (true, now, client) =>
                pump_loop plan rest event_deadline now client m parser (sent ++ [b])
            | (false, now, _) => Some (mk_pump PumpOutcome.ClientCancel m sent parser now)
            end
        end
      else d ← deadline; Some (mk_pump on_elapsed m sent parser (Z.max now d))
  end.

(** [pump_upstream] *)
Definition pump_upstream (up : UpstreamBody) (client : list (option Instant))
    (parser : StreamUsageParser) (plan : PumpPlan) (now : Instant) : option PumpResult :=
  let m := mk_metrics (pp_initial_first_byte_latency plan) (pp_initial_first_event_latency plan)
             0 0 0 None in
  match pump_prefetched plan (pp_prefetched plan) now client m parser [] with
  | inl r => Some r
  | inr (m, parser, sent, now, client) =>
      let event_deadline := if pp_streaming plan then (fun idle => now + idle) <$> pp_idle plan
                            else None in
      pump_loop plan up event_deadline now client m parser sent
  end.

End Bodies.

(** ** Facts *)

(** The chunk an item delivers, and the chunks of a body. *)
Definition item_chunk (ti : Instant * ReadItem) : option bytes :=
  match ti.2 with Chunk b => Some b | _ => None end.
Abbreviation chunks_of := (omap item_chunk).
Abbreviation all_chunks up := (Forall (fun ti => is_Some (item_chunk ti)) up).

Lemma blen_app a b : blen (a ++ b) = blen a + blen b.
Proof. unfold blen. rewrite length_app. lia. Qed.
Lemma blen_nonneg b : 0 <= blen b.
Proof. unfold blen. lia. Qed.
#[local] Hint Rewrite blen_app @concat_app : orihsus.

Lemma add_len_total b : forall cs,
  add_len (Z.min u64_max (blen (concat cs))) b = Z.min u64_max (blen (concat (cs ++ [b]))).
Proof.
  intros cs. unfold add_len, u64_saturating_add. rewrite concat_app, blen_app. simpl.
  rewrite app_nil_r. pose proof (blen_nonneg b). pose proof (blen_nonneg (concat cs)). lia.
Qed.

(** An item the loop accepts arrives by the deadline, and so does the clock. *)
Lemma arrival_bound (t now deadline : Instant) :
  now <= deadline -> (t <=? now) || (t <=? deadline) = true -> now <= Z.max now t <= deadline.
Proof. intros Hd [Ht | Ht]%orb_true_iff; bool_to_prop; lia. Qed.

Section StreamFacts.
Context `{SerdeJson} `{HttpHeaders}.
Implicit Types up rest : UpstreamBody.

(** The error-body loop: [seen] are the chunks it has read so far. *)
Lemma consume_loop_ok status headers a rs dl up : forall now seen fb n la c t,
  consume_loop status headers a rs dl up now (concat seen) fb
    (Z.min u64_max (blen (concat seen))) n la = (Ok c, t) ->
  now <= dl -> blen (concat seen) <= ERROR_CLASSIFY_CAP ->
  exists pre rest, up = pre ++ rest /\ all_chunks pre /\ now <= t <= dl
    /\ cr_status c = status /\ cr_headers c = headers
    /\ cr_upstream_bytes c = Z.min u64_max (blen (concat (seen ++ chunks_of pre)))
    /\ match cr_body c with
       | Buffered b => b = concat (seen ++ chunks_of pre) /\ blen b <= ERROR_CLASSIFY_CAP
           /\ exists te rest', rest = (te, EndOfBody) :: rest'
       | Oversized => ERROR_CLASSIFY_CAP < blen (concat (seen ++ chunks_of pre))
       end.
Proof.
  induction up as [| [ti item] up IH]; intros now seen fb n la c t; cbn [consume_loop]; [done |].
  destruct ((ti <=? now) || (ti <=? dl)) eqn:Hin; [| done]. intros Hrun Hnow Hcap.
  pose proof (arrival_bound _ _ _ Hnow Hin) as Hb. destruct item as [b | |].
  - rewrite add_len_total in Hrun.
    assert (concat (seen ++ [b]) = concat seen ++ b) as Hcat by (rewrite concat_app; simpl; by rewrite app_nil_r).
    destruct (Z.leb_spec (blen b) (ERROR_CLASSIFY_CAP - blen (concat seen))) as [Hle | Hgt].
    + rewrite <- Hcat in Hrun. apply IH in Hrun; [| lia | rewrite Hcat, blen_app; lia].
      destruct Hrun as (pre & rest & -> & Hpre & Ht & Hs & Hh & Hn & Hbody).
      exists ((ti, Chunk b) :: pre), rest. cbn [omap list_omap item_chunk snd] in *.
      rewrite <- app_assoc in Hn, Hbody. cbn [app] in *. split_and!; try done; [constructor; eauto | lia | lia].
    + injection Hrun as <- <-. exists [(ti, Chunk b)], up. simpl. rewrite Hcat, blen_app.
      split_and!; try done; [constructor; eauto | lia | lia | lia].
  - done.
  - injection Hrun as <- <-. exists [], ((ti, EndOfBody) :: up). simpl. rewrite app_nil_r.
    split_and!; try done; [lia | lia | eauto].
Qed.

Lemma consume_loop_time status headers a rs dl up : forall now prefix fb n k la r t,
  consume_loop status headers a rs dl up now prefix fb n k la = (r, t) ->
  now <= dl -> now <= t <= dl.
Proof.
  induction up as [| [ti item] up IH]; intros now prefix fb n k la r t; cbn [consume_loop].
  { intros [= <- <-]. lia. }
  destruct ((ti <=? now) || (ti <=? dl)) eqn:Hin; [| intros [= <- <-]; lia].
  intros Hrun Hnow. pose proof (arrival_bound _ _ _ Hnow Hin) as Hb. destruct item as [b | |].
  - destruct (blen b <=? _); [apply IH in Hrun; lia | injection Hrun as <- <-; lia].
  - injection Hrun as <- <-. lia.
  - injection Hrun as <- <-. lia.
Qed.

(** A body that is complete, in time and within the cap is read whole. *)
Lemma consume_loop_whole status headers a rs dl te rest pre : forall now seen fb n k la,
  all_chunks pre -> Forall (fun ti => ti.1 <= dl) pre -> te <= dl -> now <= dl ->
  blen (concat (seen ++ chunks_of pre)) <= ERROR_CLASSIFY_CAP ->
  exists c t, consume_loop status headers a rs dl (pre ++ (te, EndOfBody) :: rest) now (concat seen) fb n k la
    = (Ok c, t) /\ cr_body c = Buffered (concat (seen ++ chunks_of pre)).
Proof.
  induction pre as [| [ti item] pre IH]; intros now seen fb n k la Hall Htime Hte Hnow Hcap; cbn [app consume_loop].
  - destruct (Z.leb_spec te dl); [| lia]. rewrite orb_true_r. simpl. rewrite app_nil_r. eauto.
  - apply Forall_cons in Hall as [[b Hb] Hall]. apply Forall_cons in Htime as [Hti Htime].
    destruct item as [b' | |]; simpl in Hb; [| done | done]. injection Hb as ->.
    simpl in Hti. destruct (Z.leb_spec ti dl); [| lia]. rewrite orb_true_r.
    cbn [omap list_omap item_chunk snd] in *.
    assert (concat seen ++ b = concat (seen ++ [b])) as Hcat by (rewrite concat_app; simpl; by rewrite app_nil_r).
    rewrite (cons_middle b), app_assoc in Hcap |- *.
    pose proof Hcap as Hc2. rewrite !concat_app, !blen_app in Hc2. simpl in Hc2.
    rewrite app_nil_r in Hc2. pose proof (blen_nonneg (concat (chunks_of pre))).
    destruct (Z.leb_spec (blen b) (ERROR_CLASSIFY_CAP - blen (concat seen))); [| lia].
    rewrite Hcat. apply IH; [done | done | done | lia | done].
Qed.

(** *** Prefetch *)

(** The complete events of a byte stream, by the reference parser. *)
Definition events_in (cap : Z) (l : bytes) : Z := (spec_stream cap l).1.

Lemma sse_count cap l : 0 <= cap -> sp_event_count (foldl sse_byte (sse_new cap) l) = events_in cap l.
Proof.
  intros Hcap. unfold events_in, spec_stream.
  assert (sse_new cap = mid cap [] (0, None)) as ->.
  { unfold sse_new, mid. rewrite firstn_nil.
    by destruct (Z.ltb_spec cap (blen [])); [unfold blen in *; simpl in *; lia |]. }
  by destruct (sse_stream_mid cap (length l) l (0, None)) as [seen ->].
Qed.

(** Why a prefetch gave up, with what it left unread.  Until then it had seen no
    event, and when it gave up for the size of the buffer it was the last chunk
    that did not fit. *)
Definition prefetch_excuse (cap : Z) (deadline : Instant) (reason : Reason.t) (at_ : Instant)
    (seen : list bytes) (rest : UpstreamBody) : Prop :=
  match reason with
  | Reason.NoFirstEvent => at_ = deadline /\ events_in cap (concat seen) = 0
      /\ Forall (fun ti => deadline < ti.1) (take 1 rest)
  | Reason.NetworkError => events_in cap (concat seen) = 0
      /\ exists t rest', rest = (t, ReadError) :: rest'
  | Reason.EndBeforeFirstEvent =>
      (exists init b, seen = init ++ [b] /\ events_in cap (concat init) = 0
         /\ blen (concat init) <= cap /\ cap < blen (concat seen))
      \/ (events_in cap (concat seen) = 0 /\ exists t rest', rest = (t, EndOfBody) :: rest')
  | _ => False
  end.

Lemma prefetch_loop_spec cap a dl up : forall now seen fb k r,
  prefetch_loop cap a dl up now (foldl sse_byte (sse_new cap) (concat seen)) seen
    (Z.min u64_max (blen (concat seen))) k fb = r ->
  0 <= cap < u64_max -> now <= dl -> events_in cap (concat seen) = 0 -> blen (concat seen) <= cap ->
  exists pre rest, up = pre ++ rest /\ all_chunks pre /\ now <= pf_at r <= dl
    /\ match pf_result r with
       | Ok _ => pf_rest r = rest /\ pf_chunks r = seen ++ chunks_of pre
           /\ blen (concat (pf_chunks r)) <= cap /\ 0 < events_in cap (concat (pf_chunks r))
           /\ exists init b, pf_chunks r = init ++ [b] /\ events_in cap (concat init) = 0
       | Err reason => prefetch_excuse cap dl reason (pf_at r) (seen ++ chunks_of pre) rest
       end.
Proof.
  induction up as [| [ti item] up IH]; intros now seen fb k r; cbn [prefetch_loop].
  { intros <- Hcap Hnow Hz Hfit. exists [], []. simpl. rewrite app_nil_r.
    split_and!; try done; [lia | lia | lia]. }
  destruct ((ti <=? now) || (ti <=? dl)) eqn:Hin.
  2:{ intros <- Hcap Hnow Hz Hfit. apply orb_false_iff in Hin as [H1 H2]. bool_to_prop.
    exists [], ((ti, item) :: up). simpl. rewrite app_nil_r.
    split_and!; try done; [lia | lia | lia | constructor; [simpl; lia | done]]. }
  intros Hrun Hcap Hnow Hz Hfit. pose proof (arrival_bound _ _ _ Hnow Hin) as Hb. destruct item as [b | |].
  - rewrite add_len_total in Hrun.
    assert (concat (seen ++ [b]) = concat seen ++ b) as Hcat by (rewrite concat_app; simpl; by rewrite app_nil_r).
    destruct (Z.ltb_spec cap (Z.min u64_max (blen (concat (seen ++ [b]))))) as [Hgt | Hle].
    + subst r. exists [(ti, Chunk b)], up. simpl.
      split_and!; try done; [constructor; eauto | lia | lia | left; exists seen, b; split_and!; done || lia].
    + unfold sse_push in Hrun. rewrite <- foldl_app, <- Hcat, !sse_count, Hz, Z.sub_0_r in Hrun by lia.
      destruct (Z.ltb_spec 0 (events_in cap (concat (seen ++ [b])))) as [Hev | Hev].
      * subst r. exists [(ti, Chunk b)], up. simpl.
        split_and!; try done; [constructor; eauto | lia | lia | lia | eauto].
      * apply IH in Hrun; [| done | lia | | lia].
        -- destruct Hrun as (pre & rest & -> & Hpre & Ht & Hres).
           exists ((ti, Chunk b) :: pre), rest. cbn [omap list_omap item_chunk snd] in *.
           rewrite <- app_assoc in Hres. cbn [app] in *.
           split_and!; try done; [constructor; eauto | lia | lia].
        -- pose proof (spec_stream_nonneg cap (concat (seen ++ [b]))). unfold events_in in *. lia.
  - subst r. exists [], ((ti, ReadError) :: up). simpl. rewrite app_nil_r.
    split_and!; try done; [lia | lia | eauto].
  - subst r. exists [], ((ti, EndOfBody) :: up). simpl. rewrite app_nil_r.
    split_and!; try done; [lia | lia | right; eauto].
Qed.

(** The whole of [prepare_response] on an event stream. *)
Lemma prepare_response_spec resp ev cap a now r t :
  is_streaming (ur_headers resp) = true -> 0 <= cap < u64_max ->
  0 <= EventTimeouts.first_event_timeout ev ->
  prepare_response resp ev cap a now = (r, t) ->
  now <= t <= now + EventTimeouts.first_event_timeout ev
  /\ exists pre rest, ur_body resp = pre ++ rest /\ all_chunks pre
     /\ match r with
        | Ok p => pr_upstream p = rest /\ pr_prefetched p = chunks_of pre
            /\ pr_status p = ur_status resp /\ pr_streaming p = true
            /\ blen (concat (pr_prefetched p)) <= cap
            /\ 0 < events_in cap (concat (pr_prefetched p))
            /\ exists init b, pr_prefetched p = init ++ [b] /\ events_in cap (concat init) = 0
        | Err f => prefetch_excuse cap (now + EventTimeouts.first_event_timeout ev) (pf_reason f) t
                     (chunks_of pre) rest
        end.
Proof.
  intros Hs Hcap Hto. unfold prepare_response. rewrite Hs. cbn [negb].
  destruct (prefetch_loop_spec cap a (now + EventTimeouts.first_event_timeout ev) (ur_body resp)
    now [] None 0 _ eq_refl Hcap) as (pre & rest & Hup & Hpre & Ht & Hres); [lia | done | apply Hcap |].
  change (foldl sse_byte (sse_new cap) (concat [])) with (sse_new cap) in *.
  change (Z.min u64_max (blen (concat []))) with 0 in *.
  destruct (pf_result _) as [latency | reason]; intros [= <- <-]; (split; [done |]); exists pre, rest;
    (split; [done |]; split; [done |]); simpl in *; [| done].
  destruct Hres as (H1 & H2 & H3 & H4 & H5). split_and!; done.
Qed.

(** *** The pump *)

(** The parser after the chunks of a body. *)
Definition stream_feed (p : StreamUsageParser) (chunks : list bytes) : StreamUsageParser :=
  foldl (fun p b => (stream_push b p).2) p chunks.

Definition is_sse (p : StreamUsageParser) : bool :=
  match p with SseParser _ => true | JsonParser _ => false end.

Lemma stream_push_kind b p : is_sse (stream_push b p).2 = is_sse p.
Proof. destruct p; [done | done]. Qed.

Lemma send_time budget now client ok now' client' :
  0 <= budget -> send_with_timeout budget now client = (ok, now', client') -> now <= now'.
Proof.
  intros Hb. unfold send_with_timeout. destruct client as [| [t |] client]; [intros [= <- <- <-]; lia | |].
  - destruct (Z.leb_spec t now); [intros [= <- <- <-]; lia |].
    destruct (Z.leb_spec t (now + budget)); intros [= <- <- <-]; lia.
  - intros [= <- <- <-]. lia.
Qed.

Lemma pump_prefetched_spec plan chunks : forall now client m parser sent,
  0 <= pp_write_budget plan ->
  pm_upstream_bytes m = Z.min u64_max (blen (concat sent)) ->
  match pump_prefetched plan chunks now client m parser sent with
  | inl r => pu_outcome r = PumpOutcome.ClientCancel /\ now <= pu_at r
      /\ exists lost, sent ++ chunks = pu_sent r ++ lost
  | inr (m', parser', sent', now', _) => sent' = sent ++ chunks /\ parser' = stream_feed parser chunks
      /\ pm_upstream_bytes m' = Z.min u64_max (blen (concat sent')) /\ now <= now'
  end.
Proof.
  induction chunks as [| b chunks IH]; intros now client m parser sent Hb Hm; cbn [pump_prefetched].
  { rewrite app_nil_r. by split_and!. }
  destruct (stream_push b parser) as [n parser'] eqn:Hp.
  destruct (send_with_timeout (pp_write_budget plan) now client) as [[ok now'] client'] eqn:Hs.
  apply send_time in Hs; [| done]. destruct ok.
  - match goal with |- context [pump_prefetched _ _ _ _ ?m' _ _] => specialize (IH now' client' m' parser' (sent ++ [b]) Hb) end.
    simpl in IH. rewrite Hm, add_len_total in IH. specialize (IH eq_refl).
    rewrite Hm, add_len_total. unfold stream_feed. cbn [foldl]. rewrite Hp.
    destruct (pump_prefetched _ _ _ _ _ _ _) as [r | [[[[m' p'] s'] t'] c']].
    + destruct IH as (Ho & Ht & lost & Hlost). split_and!; [done | lia |].
      exists lost. by rewrite <- Hlost, <- app_assoc.
    + destruct IH as (-> & -> & Hm' & Ht). rewrite <- app_assoc in *. split_and!; try done. lia.
  - split_and!; [done | done | by exists (b :: chunks)].
Qed.

(** The activity of an upstream: on an event stream the chunks that complete an
    event, otherwise every chunk. *)
Definition active (parser : StreamUsageParser) (pre : UpstreamBody) (t : Instant) : Prop :=
  exists pre1 b pre2, pre = pre1 ++ (t, Chunk b) :: pre2
    /\ (is_sse parser = true -> 0 < (stream_push b (stream_feed parser (chunks_of pre1))).1).

(** How the pump left the body after the part [pre] of it.  It may give up waiting
    when nothing has been active for [idle], neither since [start] nor since any
    chunk of [pre], and nothing has arrived. *)
Definition pump_end (r : PumpResult) (parser : StreamUsageParser) (start : Instant) (idle : Duration)
    (pre rest : UpstreamBody) : Prop :=
  let sse := is_sse parser in
  let silent := start + idle <= pu_at r /\ (forall t, active parser pre t -> t + idle <= pu_at r)
    /\ Forall (fun ti => pu_at r < ti.1) (take 1 rest) in
  match pu_outcome r with
  | PumpOutcome.Completed => exists t rest', rest = (t, EndOfBody) :: rest'
  | PumpOutcome.UpstreamError => (exists t rest', rest = (t, ReadError) :: rest') \/ (sse = false /\ silent)
  | PumpOutcome.EventIdleTimeout => sse = true /\ silent
  | PumpOutcome.ClientCancel => True
  end.

(** What the pump handed over of [all], and what it knows at the end. *)
Definition pump_handed (r : PumpResult) (parser : StreamUsageParser) (all : list bytes) : Prop :=
  exists lost, all = pu_sent r ++ lost
    /\ (pu_outcome r <> PumpOutcome.ClientCancel -> lost = [] /\ pu_parser r = parser
          /\ pm_upstream_bytes (pu_metrics r) = Z.min u64_max (blen (concat all))).

Lemma active_nil parser t : ~ active parser [] t.
Proof. intros (pre1 & b & pre2 & Heq & _). by destruct pre1. Qed.

Lemma active_cons parser ti b pre t :
  active parser ((ti, Chunk b) :: pre) t ->
  t = ti /\ (is_sse parser = true -> 0 < (stream_push b parser).1) \/ active (stream_push b parser).2 pre t.
Proof.
  intros ([| [ti' item] pre1] & b' & pre2 & Heq & Hev); simplify_eq/=; [by left | right].
  exists pre1, b', pre2. split; [done |]. intros Hs. apply Hev. by rewrite stream_push_kind in Hs.
Qed.

Lemma pump_loop_spec plan idle up : pp_idle plan = Some idle -> 0 <= idle -> 0 <= pp_write_budget plan ->
  forall start ed now client m parser sent,
  ((fun _ => true) <$> ed) = (if is_sse parser then Some true else None) ->
  from_option (fun d => start + idle <= d <= now + idle) (start <= now) ed ->
  pm_upstream_bytes m = Z.min u64_max (blen (concat sent)) ->
  exists r, pump_loop plan up ed now client m parser sent = Some r /\ now <= pu_at r
    /\ exists pre rest, up = pre ++ rest /\ all_chunks pre
         /\ pump_handed r (stream_feed parser (chunks_of pre)) (sent ++ chunks_of pre)
         /\ pump_end r parser start idle pre rest.
Proof.
  intros Hidle Hi Hw. induction up as [| [ti item] up IH]; intros start ed now client m parser sent Hed Hd Hm;
    cbn [pump_loop]; rewrite Hidle.
  { destruct ed as [d |]; destruct (is_sse parser) eqn:Hk; try done; simpl in *;
      (eexists; split; [done |]; split; [simpl; lia |]; exists [], []; simpl; rewrite app_nil_r;
       split_and!; [done | done | exists []; rewrite app_nil_r; split_and!; done |]; unfold pump_end; simpl).
    - split_and!; [done | lia | by intros t ?%active_nil | done].
    - right. split_and!; [done | lia | by intros t ?%active_nil | done]. }
  destruct ((ti <=? now) || _) eqn:Hin.
  2:{ apply orb_false_iff in Hin as [H1 H2]. bool_to_prop.
    destruct ed as [d |]; destruct (is_sse parser) eqn:Hk; try done; simpl in *; bool_to_prop;
      (eexists; split; [done |]; split; [simpl; lia |]; exists [], ((ti, item) :: up); simpl; rewrite app_nil_r;
       split_and!; [done | done | exists []; rewrite app_nil_r; split_and!; done |]; unfold pump_end; simpl).
    - split_and!; [done | lia | by intros t ?%active_nil | constructor; [simpl; lia | done]].
    - right. split_and!; [done | lia | by intros t ?%active_nil | constructor; [simpl; lia | done]]. }
  destruct item as [b | |].
  - destruct (stream_push b parser) as [n parser'] eqn:Hp.
    pose proof (stream_push_kind b parser) as Hk. rewrite Hp in Hk. simpl in Hk.
    destruct (send_with_timeout _ _ _) as [[ok now'] client'] eqn:Hs. apply send_time in Hs; [| done].
    destruct ok.
    + match goal with |- context [pump_loop _ _ ?ed' _ _ ?m' _ _] =>
        destruct (IH (if negb (is_sse parser) || (0 <? n) then Z.max start ti else start) ed' now' client' m' parser' (sent ++ [b]))
          as (r & Hr & Ht & pre & rest & -> & Hpre & Hh & He) end.
      * rewrite Hk. destruct (Z.ltb_spec 0 n) as [Hn |]; [| done]. destruct parser; [done |]. simpl in Hp. injection Hp as <- _. lia.
      * destruct (Z.ltb_spec 0 n); destruct (is_sse parser); destruct ed; simpl in *; try done; lia.
      * simpl. by rewrite Hm, add_len_total.
      * exists r. split; [done |]. split; [lia |]. exists ((ti, Chunk b) :: pre), rest.
        cbn [omap list_omap item_chunk snd]. rewrite <- app_assoc in Hh. unfold stream_feed in *. cbn [foldl app].
        rewrite Hp. split_and!; try done; [constructor; eauto |].
        unfold pump_end in *. rewrite Hk in He.
        assert (((if negb (is_sse parser) || (0 <? n) then Z.max start ti else start) + idle <= pu_at r
            /\ (forall t, active parser' pre t -> t + idle <= pu_at r) /\ Forall (fun ti => pu_at r < ti.1) (take 1 rest)) ->
          start + idle <= pu_at r /\ (forall t, active parser ((ti, Chunk b) :: pre) t -> t + idle <= pu_at r)
            /\ Forall (fun ti => pu_at r < ti.1) (take 1 rest)) as Hsilent.
        { intros (Hfirst & Hact & Hrest). split_and!; [destruct (negb _ || _); lia | | done].
          intros t [[-> Hev] | Ha]%active_cons; [| rewrite Hp in Ha; by apply Hact].
          rewrite Hp in Hev. destruct (is_sse parser); simpl in *; [| lia]. specialize (Hev eq_refl).
          destruct (Z.ltb_spec 0 n); lia. }
        destruct (pu_outcome r); [done | destruct He as [He | [? He]]; [by left | right; auto] | done | destruct He; auto].
    + eexists. split; [done |]. split; [simpl; lia |]. exists [(ti, Chunk b)], up. simpl.
      split_and!; try done; [constructor; eauto |]. exists [b]. split_and!; done.
  - eexists. split; [done |]. split; [simpl; lia |]. exists [], ((ti, ReadError) :: up). simpl. rewrite app_nil_r.
    split_and!; [done | done | exists []; rewrite app_nil_r; split_and!; done |]. left. eauto.
  - eexists. split; [done |]. split; [simpl; lia |]. exists [], ((ti, EndOfBody) :: up). simpl. rewrite app_nil_r.
    split_and!; [done | done | exists []; rewrite app_nil_r; split_and!; done |]. by exists ti, up.
Qed.

(** When everything the pump waits for arrives by [T], it ends soon after. *)
Lemma send_bound budget now client ok now' client' T :
  now <= T -> Forall (fun o => forall t, o = Some t -> t <= T) client -> 0 <= budget ->
  send_with_timeout budget now client = (ok, now', client') ->
  now' <= T + budget /\ (ok = true -> now' <= T)
  /\ Forall (fun o => forall t, o = Some t -> t <= T) client'.
Proof.
  intros Hnow Hc Hb. unfold send_with_timeout. destruct client as [| [t |] client].
  - intros [= <- <- <-]. split_and!; [lia | done | constructor].
  - apply Forall_cons in Hc as [Ht Hc]. specialize (Ht t eq_refl).
    destruct (Z.leb_spec t now); [intros [= <- <- <-]; split_and!; [lia | lia | done] |].
    destruct (Z.leb_spec t (now + budget)); intros [= <- <- <-]; (split_and!; [lia | lia || done | done]).
  - apply Forall_cons in Hc as [_ Hc]. intros [= <- <- <-]. split_and!; [lia | lia | done].
Qed.

Lemma send_forall (Q : option Instant -> Prop) budget now client ok now' client' :
  Forall Q client -> send_with_timeout budget now client = (ok, now', client') -> Forall Q client'.
Proof.
  intros Hc. unfold send_with_timeout. destruct client as [| [t |] client]; [by intros [= _ _ <-] | |];
    apply Forall_cons in Hc as [_ Hc]; repeat case_match; by intros [= _ _ <-].
Qed.

(** The pump did not wait longer than it may: once nothing active is left to read
    ([pre2] of what it read), and the client takes what it takes by [T], it is over
    within the idle bound and one write budget of [T]. *)
Definition pump_prompt (r : PumpResult) (parser : StreamUsageParser) (start : Instant) (idle budget : Duration)
    (client : list (option Instant)) (pre : UpstreamBody) : Prop :=
  forall T pre1 pre2, pre = pre1 ++ pre2 -> (forall t, ~ active (stream_feed parser (chunks_of pre1)) pre2 t) ->
  start <= T -> Forall (fun ti => ti.1 <= T) pre1 -> Forall (fun o => forall t, o = Some t -> t <= T) client ->
  pu_at r <= T + idle + budget.

Lemma chunks_length (pre : UpstreamBody) : all_chunks pre -> length (chunks_of pre) = length pre.
Proof. induction 1 as [| ti pre [b Hb] _ IH]; [done |]. cbn. rewrite Hb. cbn. by rewrite <- IH. Qed.

Lemma pump_loop_prompt plan idle T up : pp_idle plan = Some idle -> 0 <= idle -> 0 <= pp_write_budget plan ->
  forall ed now client m parser sent r, pump_loop plan up ed now client m parser sent = Some r ->
  (length sent <= length (pu_sent r))%nat
  /\ forall pre1 pre2 rest, up = pre1 ++ pre2 ++ rest ->
     (length (pu_sent r) <= length sent + length (pre1 ++ pre2))%nat ->
     (forall t, ~ active (stream_feed parser (chunks_of pre1)) pre2 t) ->
     (pre1 <> [] \/ is_sse parser = false -> now <= T) -> now <= T + idle ->
     is_sse parser = bool_decide (is_Some ed) -> from_option (fun d => d <= T + idle) True ed ->
     Forall (fun ti => ti.1 <= T) pre1 -> Forall (fun o => forall t, o = Some t -> t <= T) client ->
     pu_at r <= T + idle + pp_write_budget plan.
Proof.
  intros Hidle Hi Hw. induction up as [| [ti item] up IH]; intros ed now client m parser sent r; cbn [pump_loop];
    rewrite Hidle.
  { intros Hr. split; [destruct ed; simplify_eq/=; lia |]. intros pre1 pre2 rest Hup _ _ Hn1 Hn2 Hk Hd _ _.
    destruct ed; simplify_eq/=; [lia |]. destruct (is_sse parser); [done |]. specialize (Hn1 (or_intror eq_refl)). lia. }
  destruct ((ti <=? now) || _) eqn:Hin.
  2:{ intros Hr. split; [destruct ed; simplify_eq/=; lia |]. intros pre1 pre2 rest Hup _ _ Hn1 Hn2 Hk Hd _ _.
    destruct ed; simplify_eq/=; [lia |]. destruct (is_sse parser); [done |]. specialize (Hn1 (or_intror eq_refl)). lia. }
  assert (forall T', now <= T' -> from_option (fun d => d <= T') (now + idle <= T') ed -> Z.max now ti <= T') as Hread.
  { intros T' Hn Hd. destruct ed; simpl in *; bool_to_prop; lia. }
  assert (forall pre1 : UpstreamBody, (pre1 <> [] \/ is_sse parser = false -> now <= T) -> now <= T + idle ->
    is_sse parser = bool_decide (is_Some ed) -> from_option (fun d => d <= T + idle) True ed ->
    Z.max now ti <= T + idle) as Hlate.
  { intros pre1 Hn1 Hn2 Hk Hd. apply Hread; [done |]. destruct ed; [done |]. simpl in *. specialize (Hn1 (or_intror Hk)). lia. }
  destruct item as [b | |];
    [| intros [= <-]; split; [simpl; lia | intros pre1 pre2 rest _ _ _ Hn1 Hn2 Hk Hd _ _; simpl;
         specialize (Hlate _ Hn1 Hn2 Hk Hd); lia] ..].
  destruct (stream_push b parser) as [n parser'] eqn:Hp.
  pose proof (stream_push_kind b parser) as Hkind. rewrite Hp in Hkind. simpl in Hkind.
  destruct (send_with_timeout _ _ _) as [[ok now'] client'] eqn:Hs. destruct ok.
  2:{ intros [= <-]. split; [simpl; lia |]. intros pre1 pre2 rest _ _ _ Hn1 Hn2 Hk Hd _ Hc. simpl.
    specialize (Hlate _ Hn1 Hn2 Hk Hd). apply (send_bound _ _ _ _ _ _ (T + idle)) in Hs as (? & _ & _); [lia | done | | done].
    eapply Forall_impl; [exact Hc |]. intros o Ho t ->. specialize (Ho t eq_refl). lia. }
  intros Hr. apply IH in Hr as [Hlen Hpre]. rewrite length_app in Hlen. simpl in Hlen. split; [lia |].
  intros pre1 pre2 rest Hup Hle Hquiet Hn1 Hn2 Hk Hd Hall Hc. specialize (Hlate _ Hn1 Hn2 Hk Hd).
  destruct pre1 as [| x pre1]; [destruct pre2 as [| x pre2]; [simpl in *; lia |] |]; simplify_eq/=.
  - assert (is_sse parser = true /\ n <= 0) as [Hsse Hn].
    { destruct (is_sse parser) eqn:Hsse; [split; [done |] |].
      - destruct (Z.ltb_spec 0 n); [| lia]. destruct (Hquiet ti). exists [], b, pre2. split; [done |]. intros _. simpl. by rewrite Hp.
      - destruct (Hquiet ti). exists [], b, pre2. by rewrite Hsse. }
    pose proof (send_forall _ _ _ _ _ _ _ Hc Hs) as Hc'.
    apply (send_bound _ _ _ _ _ _ (T + idle)) in Hs as (_ & Hok & _);
      [| done | eapply Forall_impl; [exact Hc |]; intros o Ho t ->; specialize (Ho t eq_refl); lia | done].
    specialize (Hok eq_refl). apply (Hpre [] pre2 rest); try done.
    + rewrite length_app. simpl in *. lia.
    + intros t Ht. apply (Hquiet t). destruct Ht as (q1 & c & q2 & -> & Ht). exists ((ti, Chunk b) :: q1), c, q2.
      split; [done |]. intros Hk'. simpl in *. rewrite Hp. apply Ht. by rewrite Hkind.
    + rewrite Hkind. intros [? | Hns]; [done | congruence].
    + rewrite Hkind, Hk. destruct (Z.ltb_spec 0 n); [lia | done].
    + destruct (Z.ltb_spec 0 n); [lia | done].
  - assert (now <= T) as Hnow by (apply Hn1; by left). apply Forall_cons in Hall as [Hti Hall]. simpl in Hti.
    apply (send_bound _ _ _ _ _ _ T) in Hs as (_ & Hok & Hc'); [| lia | done | done]. specialize (Hok eq_refl).
    apply (Hpre pre1 pre2 rest); try done; [rewrite (length_app sent); simpl in *; lia | | lia | |].
    + intros t Ht. apply (Hquiet t). cbn [omap list_omap item_chunk snd]. unfold stream_feed in *. cbn [foldl].
      by rewrite Hp.
    + rewrite Hkind, Hk. destruct (Z.ltb_spec 0 n) as [Hn |]; [| done]. destruct ed; [done |].
      rewrite Hk in Hkind. destruct parser; [done |]. simpl in Hp. injection Hp as <- _. lia.
    + destruct (0 <? n); [simpl; lia | done].
Qed.

Lemma pump_prefetched_bound plan T chunks : 0 <= pp_write_budget plan -> forall now client m parser sent,
  now <= T -> Forall (fun o => forall t, o = Some t -> t <= T) client ->
  match pump_prefetched plan chunks now client m parser sent with
  | inl r => pu_at r <= T + pp_write_budget plan
  | inr (_, _, _, now', client') => now' <= T /\ Forall (fun o => forall t, o = Some t -> t <= T) client'
  end.
Proof.
  intros Hw. induction chunks as [| b chunks IH]; intros now client m parser sent Hnow Hc; cbn [pump_prefetched]; [done |].
  destruct (stream_push b parser) as [n parser'].
  destruct (send_with_timeout _ _ _) as [[ok now'] client'] eqn:Hs.
  apply (send_bound _ _ _ _ _ _ T Hnow Hc Hw) in Hs as (Hb & Hok & Hc'). destruct ok; [apply IH; auto | done].
Qed.

(** The whole of [pump_upstream]. *)
Lemma pump_upstream_spec plan up client parser idle now :
  pp_idle plan = Some idle -> 0 <= idle -> 0 <= pp_write_budget plan ->
  is_sse parser = pp_streaming plan ->
  let fed := stream_feed parser (pp_prefetched plan) in
  exists r, pump_upstream up client parser plan now = Some r /\ now <= pu_at r
    /\ exists pre rest, up = pre ++ rest /\ all_chunks pre
         /\ pump_handed r (stream_feed fed (chunks_of pre)) (pp_prefetched plan ++ chunks_of pre)
         /\ pump_end r fed now idle pre rest
         /\ pump_prompt r fed now idle (pp_write_budget plan) client pre.
Proof.
  intros Hidle Hi Hw Hk fed. unfold pump_upstream.
  set (m0 := mk_metrics _ _ 0 0 0 None).
  pose proof (pump_prefetched_spec plan (pp_prefetched plan) now client m0 parser [] Hw eq_refl) as Hpre.
  pose proof (fun T => pump_prefetched_bound plan T (pp_prefetched plan) Hw now client m0 parser []) as Hb.
  destruct (pump_prefetched _ _ _ _ _ _ _) as [r | [[[[m sent_parser] sent] now'] client']].
  - destruct Hpre as (Ho & Ht & lost & Hlost). exists r. split; [done |]. split; [done |]. exists [], up.
    simpl in *. rewrite app_nil_r. split_and!; try done.
    + exists lost. by rewrite Ho.
    + unfold pump_end. by rewrite Ho.
    + intros T pre1 pre2 _ _ HT _ Hc. specialize (Hb T HT Hc). lia.
  - destruct Hpre as (-> & -> & Hm & Ht). simpl in *. fold fed.
    assert (is_sse fed = pp_streaming plan) as Hk'.
    { rewrite <- Hk. subst fed. unfold stream_feed. generalize (pp_prefetched plan). intros cs. clear.
      revert parser; induction cs as [| c cs IH]; intros p; [done |]. cbn [foldl]. by rewrite IH, stream_push_kind. }
    destruct (pump_loop_spec plan idle up Hidle Hi Hw now
      (if pp_streaming plan then (fun i => now' + i) <$> pp_idle plan else None) now' client' m
      fed (pp_prefetched plan)) as (r & Hr & Ht' & pre & rest & Hup & Hall & Hh & He).
    + rewrite Hk', Hidle. by destruct (pp_streaming plan).
    + rewrite Hidle. destruct (pp_streaming plan); simpl; lia.
    + done.
    + exists r. split; [done |]. split; [lia |]. exists pre, rest. split_and!; try done.
      intros T pre1 pre2 Hsplit Hquiet HT Hp1 Hc. destruct (Hb T HT Hc) as [HbT Hc'].
      pose proof Hr as Hrun. apply (pump_loop_prompt plan idle T) in Hr as [_ Hr]; try done.
      apply (Hr pre1 pre2 rest); try done; [by rewrite Hup, Hsplit, <- app_assoc | | lia | |].
      * rewrite <- Hsplit. destruct Hh as (lost & Hlost & _). apply (f_equal length) in Hlost.
        rewrite !length_app, (chunks_length pre) in Hlost; [lia | done].
      * rewrite Hk', Hidle. by destruct (pp_streaming plan).
      * rewrite Hidle. destruct (pp_streaming plan); simpl; lia.
Qed.

Lemma pump_loop_bound plan idle T up : pp_idle plan = Some idle -> 0 <= idle -> 0 <= pp_write_budget plan ->
  Forall (fun ti => ti.1 <= T) up -> forall ed now client m parser sent r,
  from_option (fun d => d <= T + idle) True ed -> now <= T ->
  Forall (fun o => forall t, o = Some t -> t <= T) client ->
  pump_loop plan up ed now client m parser sent = Some r -> pu_at r <= T + idle + pp_write_budget plan.
Proof.
  intros Hidle Hi Hw. induction up as [| [ti item] up IH]; intros Hup ed now client m parser sent r Hed Hnow Hc;
    cbn [pump_loop]; rewrite Hidle.
  { destruct ed as [d |]; simpl in *; intros [= <-]; simpl; lia. }
  apply Forall_cons in Hup as [Ht Hup]. simpl in Ht.
  destruct ((ti <=? now) || _); [| destruct ed as [d |]; simpl in *; intros [= <-]; simpl; lia].
  destruct item as [b | |]; [| intros [= <-]; simpl; lia | intros [= <-]; simpl; lia].
  destruct (stream_push b parser) as [n parser'].
  destruct (send_with_timeout _ _ _) as [[ok now'] client'] eqn:Hs.
  apply (send_bound _ _ _ _ _ _ T) in Hs as (Hb & Hok & Hc'); [| lia | done | done].
  destruct ok; [| intros [= <-]; simpl; lia]. apply IH; auto. destruct (0 <? n); simpl; [lia | done].
Qed.

Lemma pump_upstream_bound plan idle T up client parser now r :
  pp_idle plan = Some idle -> 0 <= idle -> 0 <= pp_write_budget plan ->
  Forall (fun ti => ti.1 <= T) up -> now <= T -> Forall (fun o => forall t, o = Some t -> t <= T) client ->
  pump_upstream up client parser plan now = Some r -> pu_at r <= T + idle + pp_write_budget plan.
Proof.
  intros Hidle Hi Hw Hup Hnow Hc. unfold pump_upstream. set (m0 := mk_metrics _ _ 0 0 0 None).
  pose proof (pump_prefetched_bound plan T (pp_prefetched plan) Hw now client m0 parser [] Hnow Hc) as Hpre.
  destruct (pump_prefetched _ _ _ _ _ _ _) as [r' | [[[[m p] sent] now'] client']].
  - intros [= <-]. lia.
  - destruct Hpre as [Hn' Hc']. rewrite Hidle. apply (pump_loop_bound plan idle T up); try done.
    destruct (pp_streaming plan); simpl; [lia | done].
Qed.

End StreamFacts.

(** ** Theorems *)

Section StreamTheorems.
Context `{SerdeJson} `{HttpHeaders}.

(** The read of an upstream error body is bounded and honest: it ends within
    its timeout and never holds more than the classification cap; a buffered
    body is the complete body and an oversized one really exceeds the cap; a
    body that arrives whole, in time and within the cap is always buffered;
    only a complete body can be classified as a usage limit. *)
Theorem error_body_bounded resp timeout a rs now r t :
  0 <= timeout ->
  consume_classify_body resp timeout a rs now = (r, t) ->
  now <= t <= now + timeout
  /\ (forall c, r = Ok c -> exists pre rest, ur_body resp = pre ++ rest /\ all_chunks pre
        /\ cr_status c = ur_status resp
        /\ cr_upstream_bytes c = Z.min u64_max (blen (concat (chunks_of pre)))
        /\ match cr_body c with
           | Buffered b => b = concat (chunks_of pre) /\ blen b <= ERROR_CLASSIFY_CAP
               /\ exists te rest', rest = (te, EndOfBody) :: rest'
           | Oversized => ERROR_CLASSIFY_CAP < blen (concat (chunks_of pre))
               /\ classify_error_body (cr_body c) = RateLimitKind.Generic
           end)
  /\ (forall pre te rest, ur_body resp = pre ++ (te, EndOfBody) :: rest -> all_chunks pre ->
        Forall (fun ti => ti.1 <= now + timeout) pre -> te <= now + timeout ->
        blen (concat (chunks_of pre)) <= ERROR_CLASSIFY_CAP ->
        exists c, r = Ok c /\ cr_body c = Buffered (concat (chunks_of pre))).
Proof.
  unfold consume_classify_body. intros Ht Hrun. split_and!.
  - by apply consume_loop_time in Hrun; lia.
  - by apply consume_loop_time in Hrun; lia.
  - intros c ->. apply (consume_loop_ok _ _ _ _ _ _ _ []) in Hrun; [| lia | by cbv].
    destruct Hrun as (pre & rest & Hup & Hpre & _ & Hs & _ & Hn & Hbody). exists pre, rest.
    split_and!; try done. by destruct (cr_body c).
  - intros pre te rest Hup Hall Htime Hte Hcap. rewrite Hup in Hrun.
    destruct (consume_loop_whole (ur_status resp) (filter_response_headers (ur_headers resp)) a rs (now + timeout)
      te rest pre now [] None 0 0 None) as (c & t' & Hw & Hb); try done; [lia |].
    cbn [concat] in Hw. rewrite Hrun in Hw. injection Hw as -> ->. eauto.
Qed.

(** C19. The response commits only after a complete event: for a streaming
    response the prefetch ends within the first-event timeout; when it
    commits, the prefetched chunks followed by the unread body are the body
    (no byte lost, doubled or reordered), they fit the buffer, and the last
    one completes the first event; when it gives up no event is complete in
    the chunks that fit the buffer, and the reason it reports is what happened
    (for the buffer: the last chunk it read is the first that did not fit). *)
Theorem commit_after_first_event resp ev cap a now r t :
  is_streaming (ur_headers resp) = true -> 0 <= cap < u64_max ->
  0 <= EventTimeouts.first_event_timeout ev ->
  prepare_response resp ev cap a now = (r, t) ->
  now <= t <= now + EventTimeouts.first_event_timeout ev
  /\ exists pre rest, ur_body resp = pre ++ rest /\ all_chunks pre
     /\ match r with
        | Ok p => pr_upstream p = rest /\ pr_prefetched p = chunks_of pre
            /\ pr_status p = ur_status resp /\ pr_streaming p = true
            /\ blen (concat (pr_prefetched p)) <= cap
            /\ 0 < events_in cap (concat (pr_prefetched p))
            /\ exists init b, pr_prefetched p = init ++ [b] /\ events_in cap (concat init) = 0
        | Err f => prefetch_excuse cap (now + EventTimeouts.first_event_timeout ev) (pf_reason f) t
                     (chunks_of pre) rest
        end.
Proof. apply prepare_response_spec. Qed.

End StreamTheorems.

(** ** At concrete inputs *)

#[local] Instance demo_stream_serde : SerdeJson := toy_serde [].
#[local] Instance demo_stream_http : HttpHeaders := toy_headers.

(** An event cut in two, a second event, the end; arriving one per tick. *)
Definition demo_body : UpstreamBody :=
  [(1, Chunk (as_bytes "data: hi" ++ [LF])); (2, Chunk [LF]); (3, Chunk (as_bytes "data: [DONE]" ++ [LF; LF]));
   (4, EndOfBody)].
Definition demo_response : UpstreamResponse :=
  mk_response 200 ([("Content-Type", "text/event-stream")] : @HeaderMap toy_headers) demo_body.
Definition demo_error_response : UpstreamResponse :=
  mk_response 500 ([] : @HeaderMap toy_headers) [(1, Chunk (as_bytes "no")); (2, EndOfBody)].

Definition demo_consumed : ConsumedResponse :=
  mk_consumed 500 [] (Buffered (as_bytes "no")) (Some 1) 2 1 (Some 1).
Lemma error_body_bounded_witness :
  consume_classify_body demo_error_response 10 0 0 0 = (Ok demo_consumed, 2) /\ 0 <= 2 <= 0 + 10.
Proof.
  assert (consume_classify_body demo_error_response 10 0 0 0 = (Ok demo_consumed, 2)) as Hrun
    by (vm_compute; reflexivity).
  split; [exact Hrun | exact (proj1 (error_body_bounded demo_error_response 10 0 0 0 _ _ ltac:(lia) Hrun))].
Defined.

Definition demo_prepared : PreparedResponse :=
  mk_prepared 200 [("content-type", "text/event-stream")] true (drop 2 demo_body)
    [as_bytes "data: hi" ++ [LF]; [LF]] (Some 1) (Some 2) 90.
Lemma commit_after_first_event_witness :
  prepare_response demo_response (EventTimeouts.mk 60 90) 100 0 0 = (Ok demo_prepared, 2) /\ 0 <= 2 <= 0 + 60.
Proof.
  assert (prepare_response demo_response (EventTimeouts.mk 60 90) 100 0 0 = (Ok demo_prepared, 2)) as Hrun
    by (vm_compute; reflexivity).
  split; [exact Hrun |].
  exact (proj1 (commit_after_first_event demo_response (EventTimeouts.mk 60 90) 100 0 0 _ _
    ltac:(vm_compute; reflexivity) ltac:(split; cbv; done) ltac:(cbv; done) Hrun)).
Defined.

Definition demo_plan : PumpPlan :=
  mk_plan (Some 90) 30 0 0 [as_bytes "data: hi" ++ [LF]; [LF]] (Some 1) (Some 2) true.

Example demo_pump :
  (fun r => (pu_outcome r, concat (pu_sent r), pu_at r))
    <$> pump_upstream (drop 2 demo_body) [Some 5; Some 6; Some 7] (SseParser (sse_new 100)) demo_plan 2
  = Some (PumpOutcome.Completed, as_bytes "data: hi" ++ [LF; LF] ++ as_bytes "data: [DONE]" ++ [LF; LF], 7).
Proof. vm_compute. reflexivity. Qed.
