(* ===== verification/Proxy.v ===== *)
(** * The proxied request: definitions

    [proxy_request] of [src/src/gateway.rs] with everything it calls: the
    self-produced responses, the audit records, one upstream attempt and what
    it reports to the pool, the attempt loop, the two ways a response is
    finalized, and the task that pumps a forwarded body.

    A handler runs among other tasks, so it is a [task] on the state it shares with
    them: each call of the pool, the queue, the budget, the runtime or the audit
    sink is one operation, and other tasks may run before each.  What it reads
    from outside is an argument: the clock readings, the upstream's answers, the
    client's reads.  [None] in a function is a panic. *)
From S2P Require Export App Stream.

(** ** Responses *)

Section Responses.
Context `{SerdeJson} `{HttpHeaders}.

(** A header value the gateway writes, or one taken from the upstream. *)
Inductive HeaderText := FromText (s : string) | FromUpstream (v : HeaderValue).

(** A body is absent, a JSON document, or the chunks of a forwarded body the
    client takes. *)
Inductive ResponseBody := NoBody | JsonBody (doc : Ser) | StreamedBody (chunks : list bytes).

Record Response := mk_resp {
  rs_status : Z;
  rs_headers : list (string * HeaderText);
  rs_body : ResponseBody;
}.

(** [HeaderMap::insert] *)
Definition header_insert (name : string) (v : HeaderText) (hs : list (string * HeaderText)) :=
  filter (fun nv : string * HeaderText => nv.1 <> name) hs ++ [(name, v)].
Definition with_header (name : string) (v : HeaderText) (r : Response) : Response :=
  mk_resp (rs_status r) (header_insert name v (rs_headers r)) (rs_body r).

(** [openai_error] *)
Definition openai_error (status : Z) (message error_type : string) (code : option string) : Response :=
  mk_resp status [("content-type", FromText "application/json")]
    (JsonBody (SStruct [("error", SStruct
       [("message", SStr message); ("type", SStr error_type); ("param", SNull); ("code", ser_opt SStr code)])])).

(** [service_unavailable] *)
Definition service_unavailable (retry_after_secs : option Z) : Response :=
  let resp := openai_error 503 "Service Unavailable" "service_unavailable" None in
  match retry_after_secs with
  | Some secs => with_header "retry-after" (FromText (u64_to_string secs)) resp
  | None => resp
  end.

(** [rate_limited] *)
Definition rate_limited (retry_after_secs : Z) : Response :=
  with_header "retry-after" (FromText (u64_to_string retry_after_secs))
    (openai_error 429 "All upstream keys are temporarily rate limited" "rate_limit_error"
       (Some "upstream_keys_unavailable")).

(** [unauthorized] *)
Definition unauthorized : Response :=
  openai_error 401 "Incorrect API key provided" "authentication_error" (Some "invalid_api_key").

(** [retry_after_secs]: [ceil] on the exact value; an [f64] holds every
    nanosecond count below [2^23] seconds, and the pool's delays end within 90
    days. *)
Definition retry_after_secs (duration : Duration) : Z :=
  Z.max 1 ((duration + NANOS_PER_SEC - 1) / NANOS_PER_SEC).

(** [queue_error_response] *)
Definition queue_error_response (e : AdmissionError) : Response :=
  match e with
  | Full => service_unavailable (Some 1)
  | Timeout => service_unavailable (Some 1)
  | Closed => service_unavailable (Some 1)
  end.

(** The two answers to a body without a configured model. *)
Definition invalid_model : Response :=
  openai_error 400 "Model must be one of the configured models" "invalid_request_error" (Some "invalid_model").

(** [StatusCode::is_server_error] *)
Definition is_server_error (status : Z) : bool := (500 <=? status) && (status <=? 599).

End Responses.

(** ** Audit records *)

(** The sink behind [GatewayState::audit]; the outcome of [record] is unused. *)
Class AuditSink (Sink : Type) := sink_record : AuditRecord -> Sink -> Sink.

(** A sink that keeps what it is offered. *)
#[global] Instance log_sink : AuditSink (list AuditRecord) := fun r l => l ++ [r].
(** [impl AuditSink for AuditWriter] *)
#[global] Instance writer_sink {World Sink IoError} `{AuditIo World Sink IoError}
  : AuditSink (AuditWriter World Sink IoError) := fun r w => (try_record r w).2.

(** [struct RequestAudit] *)
Record RequestAudit := mk_request_audit {
  rq_gateway_key : option string;
  rq_session_id : option string;
  rq_project_id : option string;
  rq_request_id : option string;
  rq_attempts : list AttemptSummary;
}.

(** [RequestAudit::from_headers] *)
Definition request_audit_of `{HttpHeaders} (headers : HeaderMap) : RequestAudit :=
  mk_request_audit None (bounded_header headers "x-opencode-session")
    (bounded_header headers "x-opencode-project") (bounded_header headers "x-opencode-request") [].

Definition set_gateway_key (name : string) (a : RequestAudit) : RequestAudit :=
  mk_request_audit (Some name) (rq_session_id a) (rq_project_id a) (rq_request_id a) (rq_attempts a).
Definition set_session_id (id : string) (a : RequestAudit) : RequestAudit :=
  mk_request_audit (rq_gateway_key a) (Some id) (rq_project_id a) (rq_request_id a) (rq_attempts a).
Definition on_attempts (f : list AttemptSummary -> list AttemptSummary) (a : RequestAudit) : RequestAudit :=
  mk_request_audit (rq_gateway_key a) (rq_session_id a) (rq_project_id a) (rq_request_id a) (f (rq_attempts a)).

(** [record_audit]: the record it offers; [timestamp] is the wall clock and
    [latency] the time since [start]. *)
Definition audit_record (request_id model key_fingerprint : string) (usage : option RequestUsage)
    (status : Z) (outcome : option AuditOutcome.t) (timestamp : Z) (latency : Duration)
    (audit : RequestAudit) : AuditRecord :=
  mk_record timestamp request_id (Some model) (Some key_fingerprint) (rq_gateway_key audit)
    (input_tokens <$> usage) (cached_tokens <$> usage) (uncached_tokens <$> usage)
    (usage ≫= cache_write_tokens) (output_tokens <$> usage) (usage ≫= reasoning_tokens)
    status outcome latency (rq_session_id audit) (rq_project_id audit) (rq_request_id audit)
    (rq_attempts audit).

(** [record_audit_rejected_with_context]: the record it offers. *)
Definition audit_rejected (request_id : string) (status : Z) (timestamp : Z) (latency : Duration)
    (audit : RequestAudit) : AuditRecord :=
  mk_record timestamp request_id None None (rq_gateway_key audit)
    None None None None None None status None latency
    (rq_session_id audit) (rq_project_id audit) (rq_request_id audit) (rq_attempts audit).

(** [new_attempt_summary] *)
Definition new_attempt_summary (attempt_number : Z) (key_fingerprint : string)
    (response_header_latency : option Duration) (terminal_reason : Reason.t) : AttemptSummary :=
  mk_summary attempt_number key_fingerprint response_header_latency None None 0 0 0 None
    true false terminal_reason None.

(** The assignments the handler makes through [attempts.last_mut()]. *)
Definition mark_failover (fp : string) (s : AttemptSummary) : AttemptSummary :=
  if at_precommit s && negb (bool_decide (is_Some (at_failover_target s)))
  then mk_summary (at_number s) (at_key_fingerprint s) (at_response_header_latency s)
         (at_first_byte_latency s) (at_first_event_latency s) (at_upstream_bytes s) (at_upstream_chunks s)
         (at_upstream_events s) (at_last_activity_offset s) (at_precommit s) (at_committed s)
         (at_terminal_reason s) (Some fp)
  else s.

Definition observe_read (first_byte : option Duration) (nbytes nchunks : Z)
    (last_activity : option Duration) (reason : Reason.t) (s : AttemptSummary) : AttemptSummary :=
  mk_summary (at_number s) (at_key_fingerprint s) (at_response_header_latency s)
    first_byte (at_first_event_latency s) nbytes nchunks (at_upstream_events s) last_activity
    (at_precommit s) (at_committed s) reason (at_failover_target s).

Definition mark_forwarded (first_byte first_event : option Duration) (s : AttemptSummary) : AttemptSummary :=
  mk_summary (at_number s) (at_key_fingerprint s) (at_response_header_latency s)
    first_byte first_event (at_upstream_bytes s) (at_upstream_chunks s) (at_upstream_events s)
    (at_last_activity_offset s) false true Reason.Forwarded (at_failover_target s).

Definition reason_of (o : PumpOutcome.t) : Reason.t :=
  match o with
  | PumpOutcome.Completed => Reason.Completed
  | PumpOutcome.UpstreamError => Reason.UpstreamError
  | PumpOutcome.ClientCancel => Reason.ClientCancel
  | PumpOutcome.EventIdleTimeout => Reason.EventIdleTimeout
  end.
Definition outcome_of (o : PumpOutcome.t) : AuditOutcome.t :=
  match o with
  | PumpOutcome.Completed => AuditOutcome.Completed
  | PumpOutcome.UpstreamError => AuditOutcome.UpstreamError
  | PumpOutcome.ClientCancel => AuditOutcome.ClientCancel
  | PumpOutcome.EventIdleTimeout => AuditOutcome.EventIdleTimeout
  end.

Definition mark_pumped (outcome : PumpOutcome.t) (m : PumpMetrics) (s : AttemptSummary) : AttemptSummary :=
  mk_summary (at_number s) (at_key_fingerprint s) (at_response_header_latency s)
    (pm_first_byte_latency m) (pm_first_event_latency m) (pm_upstream_bytes m) (pm_upstream_chunks m)
    (pm_upstream_events m) (pm_last_activity_offset m) (at_precommit s) (at_committed s)
    (reason_of outcome) (at_failover_target s).

(** ** One attempt *)

Section Attempt.
Context `{SerdeJson} `{HttpHeaders} `{Sha256} {J Url Error : Type} `{Jitter J}.

(** [enum FinalOutcome] *)
Inductive FinalOutcome :=
| FinalUnavailable (retry_after : Duration)
| FinalLastResponse (last : option (ConsumedResponse * string))
| FinalForward (prepared : PreparedResponse) (fingerprint : string) (sel : Selection) (attempt_start : Instant).

(** What the loop carries from one iteration to the next. *)
Record LoopState := mk_loop {
  ls_attempts : RequestAttempts;
  ls_audit : RequestAudit;
  ls_last : option (ConsumedResponse * string);
}.

(** What an iteration reads from outside: the clock while it asks for a key, and
    when it starts the attempt. *)
Record Turn := mk_turn {
  tn_clock : nat -> Instant;
  tn_start : Instant;
}.

(** What the request and the program around it provide. *)
Record ProxyContext := mk_context {
  px_timeouts : IoTimeouts;
  px_event_timeouts : EventTimeouts.t;   (** [event_timeouts_for] the model *)
  px_headers : HeaderMap;
  px_session : string;
  px_body : bytes;
  px_base_url : Url;
  px_api : UpstreamApi;
  px_start : Instant;
}.

(** The libraries: header conversion, URL joining, RFC 2822 dates, the wall clock
    at an instant, and the network: the answer to a request posted at an
    instant, after a delay; [None] when it never comes. *)
Context (header_from_str : string -> option HeaderValue) (join : Url -> string -> option Url)
  (parse_from_rfc2822 : string -> option Z) (wall : Instant -> Z) (builder_error : Error)
  (post : Instant -> Url -> list (string * HeaderValue) -> bytes
            -> option (Duration * result Error UpstreamResponse)).

(** [continue] with the key reported, or [break]; the pool after the report. *)
Abbreviation flow := ((FinalOutcome * LoopState + LoopState) * KeyPool J)%type.

(** [state.pool.report_failure(..); continue] *)
Definition fail_over (ra : RequestAttempts) (sel : Selection) (f : Failure.t) (now : Instant)
    (pool : KeyPool J) (audit : RequestAudit) (last : option (ConsumedResponse * string)) : option flow :=
  pool ← report_failure sel f now pool;
  Some (inr (mk_loop ra audit last), pool).

(** The shape of the three error arms: read the body under its bound, report
    [on_read body] or, when the read fails, [on_stall], and go on. *)
Definition error_arm (px : ProxyContext) (sel : Selection) (resp : UpstreamResponse)
    (attempt_start now : Instant) (ra : RequestAttempts) (pool : KeyPool J) (audit : RequestAudit)
    (last : option (ConsumedResponse * string)) (on_read : ErrorBody -> Failure.t) (on_stall : Failure.t)
    : option flow :=
  match consume_classify_body resp (io_upstream_error_body (px_timeouts px)) attempt_start (px_start px) now with
  | (Err _, t) => fail_over ra sel on_stall t pool audit last
  | (Ok c, t) =>
      let audit := on_attempts (summaries_last (fun s =>
        observe_read (cr_first_byte_latency c) (cr_upstream_bytes c) (cr_upstream_chunks c)
          (cr_last_activity_offset c) (at_terminal_reason s) s)) audit in
      fail_over ra sel (on_read (cr_body c)) t pool audit (Some (c, sel_fingerprint sel))
  end.

(** What a 429 reports. *)
Definition rate_limit_failure (retry_after : option Duration) (body : ErrorBody) : Failure.t :=
  match classify_error_body body with
  | RateLimitKind.UsageLimit dimension cooldown => Failure.UsageLimit dimension cooldown
  | RateLimitKind.Generic => Failure.RateLimited retry_after
  end.

(** The arm for a response whose head has arrived. *)
Definition handle_response (px : ProxyContext) (model : string) (sel : Selection) (resp : UpstreamResponse)
    (attempt_start now : Instant) (ra : RequestAttempts) (pool : KeyPool J) (audit : RequestAudit)
    (last : option (ConsumedResponse * string)) : option flow :=
  let retry_after := header_get (ur_headers resp) "retry-after"
                     ≫= fun v => parse_retry_after parse_from_rfc2822 v (wall now) in
  let status := ur_status resp in
  if status =? 429 then
    error_arm px sel resp attempt_start now ra pool audit last
      (rate_limit_failure retry_after) (Failure.RateLimited retry_after)
  else if is_auth_unavailable status then
    error_arm px sel resp attempt_start now ra pool audit last
      (fun _ => Failure.Unavailable retry_after) (Failure.Unavailable retry_after)
  else if is_server_error status then
    error_arm px sel resp attempt_start now ra pool audit last (fun _ => Failure.Server) Failure.Server
  else
    match prepare_response resp (px_event_timeouts px) SSE_EVENT_CAP attempt_start now with
    | (Err f, t) =>
        let audit := on_attempts (summaries_last (observe_read (pf_first_byte_latency f)
          (pf_upstream_bytes f) (pf_upstream_chunks f) (pf_last_activity_offset f) (pf_reason f))) audit in
        match pf_reason f with
        | Reason.NetworkError => fail_over ra sel Failure.Network t pool audit last
        | Reason.NoFirstEvent | Reason.EndBeforeFirstEvent =>
            pool ← report_liveness_failure sel model t pool;
            Some (inr (mk_loop ra audit last), pool)
        | _ => Some (inr (mk_loop ra audit last), pool)
        end
    | (Ok prepared, t) =>
        let audit := on_attempts (summaries_last (mark_forwarded (pr_first_byte_latency prepared)
          (pr_first_event_latency prepared))) audit in
        Some (inl (FinalForward prepared (sel_fingerprint sel) sel attempt_start, mk_loop ra audit last), pool)
    end.

(** [u8::try_from] *)
Definition u8_try_from (n : Z) : option Z := if n <=? u8_max then Some n else None.

(** One attempt with a selected key; [pool] is the pool when its result is known. *)
Definition run_attempt (px : ProxyContext) (model : string) (turn : Turn) (sel : Selection)
    (ra : RequestAttempts) (pool : KeyPool J) (audit : RequestAudit)
    (last : option (ConsumedResponse * string)) : option flow :=
  let fp := sel_fingerprint sel in
  let audit := on_attempts (summaries_last (mark_failover fp)) audit in
  attempt_number ← u8_try_from (Z.of_nat (length (rq_attempts audit)) + 1);
  let attempt_start := tn_start turn in
  let bound := io_upstream_header (px_timeouts px) in
  sent ← forward_request header_from_str join builder_error
           (fun url headers body => Ok (post attempt_start url headers body))
           sel (px_headers px) (px_session px) (px_body px) (px_base_url px) (px_api px);
  let answer := match sent with Ok a => a | Err e => Some (0, Err e) end in
  let push latency reason :=
    on_attempts (summaries_push (new_attempt_summary attempt_number fp latency reason)) audit in
  match answer with
  | Some (latency, res) =>
      if latency <=? bound then
        let now := attempt_start + latency in
        match res with
        | Ok resp => handle_response px model sel resp attempt_start now ra pool
                       (push (Some latency) Reason.RetryableResponse) last
        | Err _ => fail_over ra sel Failure.Network now pool (push (Some latency) Reason.NetworkError) last
        end
      else fail_over ra sel Failure.Network (attempt_start + bound) pool
             (push None Reason.ResponseHeaderTimeout) last
  | None => fail_over ra sel Failure.Network (attempt_start + bound) pool
              (push None Reason.ResponseHeaderTimeout) last
  end.

(** The body of the loop: ask for a key, which waits only while there is no
    response yet; then attempt and report. *)
Definition proxy_step (px : ProxyContext) (model : string) (turn : Turn) (s : LoopState)
    : task (KeyPool J) (FinalOutcome * LoopState + LoopState) :=
  let ra := ls_attempts s in
  asked ← (if bool_decide (is_Some (ls_last s))
           then act_or_panic (next_immediate ra (tn_clock turn 0%nat))
           else next (tn_clock turn) ra);
  let '(res, ra) := asked in
  match res with
  | AttemptResult.Selected sel =>
      await id (fun pool => Some (run_attempt px model turn sel ra pool (ls_audit s) (ls_last s)))
  | AttemptResult.Unavailable retry_after =>
      mret (inl (FinalUnavailable retry_after, mk_loop ra (ls_audit s) (ls_last s)))
  | AttemptResult.Exhausted =>
      mret (inl (FinalLastResponse (ls_last s), mk_loop ra (ls_audit s) (ls_last s)))
  end.

(** The loop; [fuel] bounds the iterations, [proxy_fuel] is enough. *)
Fixpoint proxy_loop (fuel : nat) (px : ProxyContext) (model : string) (turns : nat -> Turn) (k : nat)
    (s : LoopState) : task (KeyPool J) (FinalOutcome * LoopState) :=
  match fuel with
  | O => panic
  | S fuel' =>
      r ← proxy_step px model (turns k) s;
      match r with
      | inl final => mret final
      | inr s' => proxy_loop fuel' px model turns (S k) s'
      end
  end.

Definition proxy_fuel (ra : RequestAttempts) : nat := S (Z.to_nat (ra_max ra)).

End Attempt.
Arguments ProxyContext {_} Url.

(** What a request reads from outside. *)
Record RequestEnv := mk_env {
  en_start : Instant;
  en_end : Instant;                       (** when the record is written *)
  en_wall : Instant -> Z;                 (** [SystemTime::now], [Utc::now] *)
  en_epoch : option Z;                    (** nanoseconds for a request id *)
  en_queue_elapses : bool;                (** the wait for admission times out *)
  en_budget : Duration;                   (** how long a wait for the budget has lasted when it is looked at *)
  en_collect : Z -> option (Duration * result bool bytes);
    (** the body collected under a limit, and when; an error says whether it is
        the limit's *)
  en_request_at : Instant;
  en_turns : nat -> Turn;
  en_client_gone : bool;                  (** the body was dropped first *)
  en_client : list (option Instant);
  en_pump_at : Instant;
}.

(** ** Finalizing *)

Section Handler.
Context `{SerdeJson} `{HttpHeaders} `{Sha256} `{CtEq} {Url Sem J Http Sink UsageM ModelM Error : Type}
  `{Jitter J} `{Semaphore Sem} `{AuditSink Sink}.
Abbreviation gateway := (AppRuntime Url Sem J Http Sink UsageM ModelM).
(** The state every request shares: [GatewayState] and [REQUEST_COUNTER]. *)
Abbreviation shared := (gateway * Z)%type.

(** Updates of the shared state. *)
Definition with_shared (pool : KeyPool J) (queue : AdmissionQueue Sem) (budget : BodyBudget Sem)
    (slots : Sem) (audit : Sink) (g : gateway) : gateway :=
  mk_app (app_http g) pool queue (app_runtime g) audit budget slots (app_timeouts g)
    (app_model_event_timeouts g) (app_usage_monitor g) (app_model_monitor g).
Definition with_pool (pool : KeyPool J) (g : gateway) : gateway :=
  with_shared pool (app_queue g) (app_body_budget g) (app_stream_slots g) (app_audit g) g.
Definition with_queue (q : AdmissionQueue Sem) (g : gateway) : gateway :=
  with_shared (app_pool g) q (app_body_budget g) (app_stream_slots g) (app_audit g) g.
Definition with_budget (b : BodyBudget Sem) (g : gateway) : gateway :=
  with_shared (app_pool g) (app_queue g) b (app_stream_slots g) (app_audit g) g.
Definition with_slots (s : Sem) (g : gateway) : gateway :=
  with_shared (app_pool g) (app_queue g) (app_body_budget g) s (app_audit g) g.
Definition record (r : AuditRecord) (g : gateway) : gateway :=
  with_shared (app_pool g) (app_queue g) (app_body_budget g) (app_stream_slots g)
    (sink_record r (app_audit g)) g.
(** Dropping the admission permit, the body permit, the stream slot. *)
Definition drop_permit (g : gateway) : gateway := with_queue (release_permit (app_queue g)) g.
Definition drop_body_permit (g : gateway) : gateway := with_budget (budget_release (app_body_budget g)) g.
Definition drop_stream_slot (g : gateway) : gateway := with_slots (sem_release 1 (app_stream_slots g)) g.

(** Operations on the shared state. *)
Definition on_gateway (f : gateway -> gateway) : shared -> shared := fun s => (f s.1, s.2).
Definition gets {A} (f : gateway -> A) : task shared A := asks (fun s => f s.1).
Definition modify (f : gateway -> gateway) : task shared () := changes (on_gateway f).
Definition set_pool (pool : KeyPool J) (s : shared) : shared := (with_pool pool s.1, s.2).
(** A report to the pool; [None] is a panic. *)
Definition report (f : KeyPool J -> option (KeyPool J)) : task shared () :=
  act_or_panic (fun s => pool ← f (app_pool s.1); Some ((), set_pool pool s)).

(** [finalize_consumed_error]; the admission permit is dropped by the guard of the
    caller, after the record. *)
Definition finalize_consumed_error (env : RequestEnv) (consumed : ConsumedResponse)
    (request_id model fingerprint : string) (audit : RequestAudit) : task shared Response :=
  let status := cr_status consumed in
  _ ← modify (record (audit_record request_id model fingerprint None status None
                        (en_wall env (en_end env)) (en_end env - en_start env) audit));
  let '(message, error_type, code) :=
    if status =? 429 then ("Upstream rate limit exceeded", "rate_limit_error", "rate_limit")
    else if is_auth_unavailable status
    then ("Upstream authentication failed", "authentication_error", "upstream_authentication")
    else ("Upstream service error", "upstream_error", "upstream_error") in
  let response := with_header "x-request-id" (FromText request_id)
                    (openai_error status message error_type (Some code)) in
  mret (if status =? 429 then
          match list_find (fun nv : string * HeaderValue => nv.1 = "retry-after") (cr_headers consumed) with
          | Some (_, (_, v)) => with_header "retry-after" (FromUpstream v) response
          | None => response
          end
        else response).

(** The task of [stream_response] once the pump has a result: the summary, the
    one feedback to the pool, the record. *)
Definition settle_stream (env : RequestEnv) (status : Z) (sel : option Selection)
    (request_id model fingerprint : string) (audit : RequestAudit)
    (outcome : PumpOutcome.t) (metrics : PumpMetrics) (parser : StreamUsageParser) (now : Instant)
    : task shared () :=
  let audit := on_attempts (summaries_last (mark_pumped outcome metrics)) audit in
  _ ← match sel with
      | Some sel =>
          match outcome with
          | PumpOutcome.Completed => report (fun p => Some (report_success sel p))
          | PumpOutcome.UpstreamError => report (report_failure sel Failure.Network now)
          | PumpOutcome.ClientCancel => mret ()
          | PumpOutcome.EventIdleTimeout => report (report_liveness_failure sel model now)
          end
      | None => mret ()
      end;
  let usage := match outcome with PumpOutcome.Completed => stream_usage parser | _ => None end in
  modify (record (audit_record request_id model fingerprint usage status (Some (outcome_of outcome))
                    (en_wall env now) (now - en_start env) audit)).

(** [stream_response]: the head, and the spawned task run to its end.  The head
    leaves at once; a spawned task is not dropped with the handler. *)
Definition stream_response (env : RequestEnv) (prepared : PreparedResponse) (sel : option Selection)
    (request_id model fingerprint : string) (parser : StreamUsageParser)
    (audit : RequestAudit) (attempt_start : Instant) : task shared Response :=
  timeouts ← gets app_timeouts;
  let streaming := pr_streaming prepared in
  let plan := mk_plan
    (Some (if streaming then pr_inter_event_timeout prepared else io_upstream_error_body timeouts))
    (io_response_write timeouts) attempt_start (en_start env) (pr_prefetched prepared)
    (pr_first_byte_latency prepared) (pr_first_event_latency prepared) streaming in
  match pump_upstream (pr_upstream prepared) (en_client env) parser plan (en_pump_at env) with
  | None => panic
  | Some pumped =>
      let '(outcome, metrics, parser) :=
        if en_client_gone env then (PumpOutcome.ClientCancel, metrics_default, parser)
        else (pu_outcome pumped, pu_metrics pumped, pu_parser pumped) in
      _ ← settle_stream env (pr_status prepared) sel request_id model fingerprint audit
            outcome metrics parser (pu_at pumped);
      mret (mk_resp (pr_status prepared)
              (((fun nv => (nv.1, FromUpstream nv.2)) <$> pr_headers prepared) ++ [("x-request-id", FromText request_id)])
              (StreamedBody (pu_sent pumped)))
  end.

(** [state.stream_slots.try_acquire_owned()] *)
Definition try_stream_slot : task shared bool :=
  act (fun s => match sem_try_acquire 1 (app_stream_slots s.1) with
                | Some slots => (true, on_gateway (with_slots slots) s)
                | None => (false, s)
                end).

(** [finalize_response] *)
Definition finalize_response (env : RequestEnv) (prepared : PreparedResponse) (sel : option Selection)
    (request_id model fingerprint : string) (audit : RequestAudit) (attempt_start : Instant)
    : task shared Response :=
  if pr_streaming prepared then
    slot ← try_stream_slot;
    if slot : bool then
      holding (on_gateway drop_stream_slot)
        (stream_response env prepared sel request_id model fingerprint (SseParser (sse_new SSE_EVENT_CAP))
           audit attempt_start)
    else
      _ ← modify (record (audit_record request_id model fingerprint None 503 None
                            (en_wall env (en_end env)) (en_end env - en_start env) audit));
      mret (service_unavailable (Some 1))
  else
    stream_response env prepared sel request_id model fingerprint
      (JsonParser (json_parser_new JSON_USAGE_CAP)) audit attempt_start.

(** ** The handler *)

(** A rejection: the record with unknown model, key and usage, and the answer. *)
Definition reject (env : RequestEnv) (request_id : string) (status : Z) (audit : RequestAudit)
    (response : Response) : task shared Response :=
  _ ← modify (record (audit_rejected request_id status (en_wall env (en_end env))
                        (en_end env - en_start env) audit));
  mret response.

(** [request_id_for], which may draw from the counter. *)
Definition draw_request_id (headers : HeaderMap) (since_epoch : option Z) : task shared string :=
  act (fun s => let r := request_id_for headers since_epoch s.2 in (r.1, (s.1, r.2))).

(** [check_proxy_auth] reads the runtime once or twice. *)
Definition authenticate (headers : HeaderMap) (api : UpstreamApi) : task shared (option GatewayIdentity) :=
  rt ← gets app_runtime;
  rt' ← gets app_runtime;
  mret (check_proxy_auth rt rt' headers api).

(** [state.queue.acquire()] *)
Definition set_queue (q : AdmissionQueue Sem) (s : shared) : shared := (with_queue q s.1, s.2).
Definition acquire_permit (env : RequestEnv) : task shared (result AdmissionError ()) :=
  zoom (fun s : shared => app_queue s.1) set_queue (acquire (en_queue_elapses env)).

(** [state.body_budget.acquire()] under the deadline of the body: how long it
    took, [None] when the deadline came first. *)
Definition set_budget (b : BodyBudget Sem) (s : shared) : shared := (with_budget b s.1, s.2).
Definition acquire_body (env : RequestEnv) : task shared (option Duration) :=
  timeouts ← gets app_timeouts;
  got ← zoom (fun s : shared => app_body_budget s.1) set_budget
          (budget_acquire (io_body_read timeouts <=? en_budget env));
  mret (option_map (fun waited : bool => if waited then en_budget env else 0) got).

(** [enum BodyReadError], and [read_limited] on what the limited body yields. *)
Inductive BodyReadError := TooLarge | Invalid.
Definition read_limited (collected : result bool bytes) : result BodyReadError bytes :=
  match collected with
  | Ok body => Ok body
  | Err is_length_limit => Err (if is_length_limit : bool then TooLarge else Invalid)
  end.

(** [read_limited] under what is left of the deadline; an error is answered with
    its status and response.  A body that is there already is looked at before the
    clock. *)
Definition read_body (env : RequestEnv) (max_body_bytes : Z) (waited : Duration)
    : task shared (result (Z * Response) bytes) :=
  let stalled := Err (503, service_unavailable (Some 1)) in
  await id (fun s => Some (Some (
    match en_collect env max_body_bytes with
    | Some (took, collected) =>
        if (took =? 0) || (waited + took <=? io_body_read (app_timeouts s.1)) then
          match read_limited collected with
          | Ok body => Ok body
          | Err TooLarge => Err (413, openai_error 413 "Request body too large" "invalid_request_error" None)
          | Err Invalid => Err (400, openai_error 400 "Invalid request body" "invalid_request_error" None)
          end
        else stalled
    | None => stalled
    end, s))).

(** The libraries and the network. *)
Context (header_from_str : string -> option HeaderValue) (join : Url -> string -> option Url)
  (parse_from_rfc2822 : string -> option Z) (builder_error : Error)
  (post : Instant -> Url -> list (string * HeaderValue) -> bytes
            -> option (Duration * result Error UpstreamResponse)).

(** What is left when the body permit is dropped: an answer that is already
    recorded, an error of the body, or the outcome of the loop for a model. *)
Inductive BodyPhase :=
| Answered (response : Response)
| BodyFailed (status : Z) (response : Response)
| Looped (model : string) (outcome : FinalOutcome) (ls : LoopState).

(** The loop, for a request whose model is allowed. *)
Definition serve (env : RequestEnv) (headers : HeaderMap) (api : UpstreamApi) (model : string)
    (session : string) (body : bytes) (rt : RuntimeState Url) (attempts : RequestAttempts)
    (audit : RequestAudit) : task shared BodyPhase :=
  let attempts := set_model model attempts in
  let audit := if header_contains headers OPENCODE_SESSION_HEADER then audit
               else set_session_id session audit in
  px ← gets (fun g => mk_context (app_timeouts g)
               (event_timeouts_for (app_model_event_timeouts g) (app_timeouts g) model)
               headers session body (rt_base_url rt) api (en_start env));
  final ← zoom (fun s : shared => app_pool s.1) set_pool
            (proxy_loop header_from_str join parse_from_rfc2822 (en_wall env) builder_error post
               (proxy_fuel attempts) px model (en_turns env) 0 (mk_loop attempts audit None));
  mret (Looped model final.1 final.2).

(** From the buffered body on, while its permit is held. *)
Definition check_model_and_serve (env : RequestEnv) (headers : HeaderMap) (api : UpstreamApi)
    (request_id session : string) (body : bytes) (rt : RuntimeState Url) (attempts : RequestAttempts)
    (audit : RequestAudit) : task shared BodyPhase :=
  let refuse := (response ← reject env request_id 400 audit invalid_model; mret (Answered response)) in
  match extract_model body with
  | None => refuse
  | Some model =>
      if (MAX_MODEL_BYTES <? str_len model) || negb (bool_decide (model ∈ rt_models rt)) then refuse
      else serve env headers api model session body rt attempts audit
  end.

(** [match final_outcome] *)
Definition answer (env : RequestEnv) (request_id model : string) (outcome : FinalOutcome) (ls : LoopState)
    : task shared Response :=
  let audit := ls_audit ls in
  match outcome with
  | FinalUnavailable retry_after =>
      reject env request_id 429 audit (rate_limited (retry_after_secs retry_after))
  | FinalLastResponse None => reject env request_id 503 audit (service_unavailable (Some 1))
  | FinalLastResponse (Some (consumed, fp)) =>
      finalize_consumed_error env consumed request_id model fp audit
  | FinalForward prepared fp sel attempt_start =>
      finalize_response env prepared (Some sel) request_id model fp audit attempt_start
  end.

(** From the second authentication on, holding the admission permit. *)
Definition admitted (env : RequestEnv) (headers : HeaderMap) (api : UpstreamApi) (request_id : string)
    (audit : RequestAudit) : task shared Response :=
  auth ← authenticate headers api;
  match auth with
  | None => reject env request_id 401 audit unauthorized
  | Some identity =>
      let audit := set_gateway_key (gi_name identity) audit in
      pair ← act_or_panic (fun s =>
        r ← snapshot_and_request (en_request_at env) (mk_store Free (app_runtime s.1) (app_pool s.1)); Some (r, s));
      let '(rt, attempts) := pair in
      acquired ← acquire_body env;
      match acquired with
      | None => reject env request_id 503 audit (service_unavailable (Some 1))
      | Some waited =>
          phase ← holding (on_gateway drop_body_permit)
            (read ← read_body env (rt_max_body_bytes rt) waited;
             match read with
             | Ok body => check_model_and_serve env headers api request_id
                            (gi_fallback_session_id identity) body rt attempts audit
             | Err (status, response) => mret (BodyFailed status response)
             end);
          match phase with
          | Answered response => mret response
          | BodyFailed status response => reject env request_id status audit response
          | Looped model outcome ls => answer env request_id model outcome ls
          end
      end
  end.

(** [proxy_request] *)
Definition proxy_request (env : RequestEnv) (headers : HeaderMap) (api : UpstreamApi) : task shared Response :=
  let audit := request_audit_of headers in
  auth ← authenticate headers api;
  request_id ← draw_request_id headers (en_epoch env);
  match auth with
  | None => reject env request_id 401 audit unauthorized
  | Some _ =>
      permit ← acquire_permit env;
      match permit with
      | Err e => reject env request_id 503 audit (queue_error_response e)
      | Ok _ => holding (on_gateway drop_permit) (admitted env headers api request_id audit)
      end
  end.

End Handler.
