(* ===== verification/ProxyProps.v ===== *)
(** * The proxied request: theorems

    The attempt loop always ends and leaves a faithful audit trail; the pool
    learns what the upstream answered; every request is answered, audited once
    and returns every permit it took. *)
From S2P Require Export Proxy.

(** ** Specification *)

(** A status that is never forwarded. *)
Definition error_status (status : Z) : bool :=
  (status =? 429) || is_auth_unavailable status || is_server_error status.

(** Whom each attempt failed over to: the next key used. *)
Fixpoint failovers (used : list string) : list (option string) :=
  match used with
  | [] => []
  | _ :: (next :: _) as rest => Some next :: failovers rest
  | [_] => [None]
  end.

(** The commit flags: only the last attempt can be committed. *)
Fixpoint commit_flags (n : nat) (committed : bool) : list (bool * bool) :=
  match n with
  | O => []
  | S O => [(negb committed, committed)]
  | S n' => (true, false) :: commit_flags n' committed
  end.

(** The audit trail of a request that has used the keys [used] in this order. *)
Record trail_ok (used : list string) (l : list AttemptSummary) (committed : bool) : Prop := {
  trail_keys : at_key_fingerprint <$> l = used;
  trail_numbers : at_number <$> l = seqZ 1 (Z.of_nat (length used));
  trail_failovers : at_failover_target <$> l = failovers used;
  trail_flags : (fun s => (at_precommit s, at_committed s)) <$> l = commit_flags (length used) committed;
}.

(** ** The trail *)

Lemma summaries_last_fmap {A} (g : AttemptSummary -> A) f l :
  (forall s, g (f s) = g s) -> g <$> summaries_last f l = g <$> l.
Proof.
  intros Hg. unfold summaries_last. induction l as [| s l _] using rev_ind; [done |].
  rewrite last_snoc, removelast_last, !fmap_app. simpl. by rewrite Hg.
Qed.

Lemma trail_last used l c f :
  (forall s, at_key_fingerprint (f s) = at_key_fingerprint s /\ at_number (f s) = at_number s
     /\ at_failover_target (f s) = at_failover_target s
     /\ (at_precommit (f s), at_committed (f s)) = (at_precommit s, at_committed s)) ->
  trail_ok used l c -> trail_ok used (summaries_last f l) c.
Proof.
  intros Hf [Hk Hn Hfo Hfl].
  split; rewrite summaries_last_fmap by (intros s; apply Hf); done.
Qed.

Lemma trail_short used l c : trail_ok used l c -> length l = length used.
Proof. intros [<- _ _ _]. by rewrite length_fmap. Qed.

Lemma trail_next used l fp n latency reason :
  (length used < 2)%nat -> n = Z.of_nat (length l) + 1 -> trail_ok used l false ->
  trail_ok (used ++ [fp])
    (summaries_push (new_attempt_summary n fp latency reason) (summaries_last (mark_failover fp) l)) false.
Proof.
  intros Hlen -> Ht. pose proof (trail_short _ _ _ Ht) as Hl. destruct Ht as [Hk Hn Hf Hfl].
  destruct used as [| a [| b used]]; [| | simpl in Hlen; lia]; destruct l as [| s [| s' l]]; try done.
  simpl in *. injection Hk as Hk. injection Hf as Hf. injection Hfl as Hp Hc.
  change (seqZ 1 (Z.of_nat 1)) with [1] in Hn. injection Hn as Hn.
  assert (mark_failover fp s = mk_summary (at_number s) (at_key_fingerprint s) (at_response_header_latency s)
    (at_first_byte_latency s) (at_first_event_latency s) (at_upstream_bytes s) (at_upstream_chunks s)
    (at_upstream_events s) (at_last_activity_offset s) (at_precommit s) (at_committed s)
    (at_terminal_reason s) (Some fp)) as Hm by (unfold mark_failover; by rewrite Hp, Hf).
  unfold summaries_last. cbn [last removelast app]. rewrite Hm.
  split; cbn; by rewrite ?Hk, ?Hn, ?Hp, ?Hc.
Qed.

Lemma trail_forwarded used l first_byte first_event :
  (length used <= 2)%nat -> trail_ok used l false ->
  trail_ok used (summaries_last (mark_forwarded first_byte first_event) l) true.
Proof.
  intros Hlen Ht. pose proof (trail_short _ _ _ Ht) as Hl. destruct Ht as [Hk Hn Hf Hfl].
  split; [by rewrite summaries_last_fmap | by rewrite summaries_last_fmap | by rewrite summaries_last_fmap |].
  destruct used as [| a [| b [| c used]]]; [| | | simpl in Hlen; lia];
    destruct l as [| s [| s' [| s'' l]]]; try done.
  simpl in *. injection Hfl as Hp Hc _ _. by rewrite Hp, Hc.
Qed.

(** ** One attempt *)

Section AttemptFacts.
Context `{SerdeJson} `{HttpHeaders} `{Sha256} {J Url Error : Type} `{Jitter J}.
Context (header_from_str : string -> option HeaderValue) (join : Url -> string -> option Url)
  (parse_from_rfc2822 : string -> option Z) (wall : Instant -> Z) (builder_error : Error)
  (post : Instant -> Url -> list (string * HeaderValue) -> bytes
            -> option (Duration * result Error UpstreamResponse)).

Implicit Types px : ProxyContext Url.
Implicit Types ra : RequestAttempts.
Implicit Types pool : KeyPool J.

Abbreviation step := (proxy_step header_from_str join parse_from_rfc2822 wall builder_error post).
Abbreviation loop := (proxy_loop header_from_str join parse_from_rfc2822 wall builder_error post).
Abbreviation attempt := (run_attempt header_from_str join parse_from_rfc2822 wall builder_error post).
Abbreviation respond := (handle_response parse_from_rfc2822 wall).

(** The error response kept for the client is one of an attempt's. *)
Definition last_ok (used : list string) (last : option (ConsumedResponse * string)) : Prop :=
  forall c fp, last = Some (c, fp) -> fp ∈ used /\ error_status (cr_status c) = true.

(** What the loop preserves. *)
Record loop_inv (s : LoopState) : Prop := {
  li_wf : attempts_wf (ls_attempts s);
  li_max : ra_max (ls_attempts s) <= 2;
  li_trail : trail_ok (ra_used (ls_attempts s)) (rq_attempts (ls_audit s)) false;
  li_last : last_ok (ra_used (ls_attempts s)) (ls_last s);
}.

(** What the outcomes mean. *)
Definition final_ok (o : FinalOutcome) (s : LoopState) : Prop :=
  let used := ra_used (ls_attempts s) in
  attempts_wf (ls_attempts s) /\ ra_max (ls_attempts s) <= 2
  /\ match o with
     | FinalUnavailable d => ls_last s = None /\ 0 <= d
         /\ trail_ok used (rq_attempts (ls_audit s)) false
     | FinalLastResponse o => o = ls_last s /\ last_ok used o
         /\ trail_ok used (rq_attempts (ls_audit s)) false
     | FinalForward prepared fp sel _ => fp = sel_fingerprint sel /\ last used = Some fp
         /\ error_status (pr_status prepared) = false
         /\ (pr_streaming prepared = true -> 0 < events_in SSE_EVENT_CAP (concat (pr_prefetched prepared)))
         /\ trail_ok used (rq_attempts (ls_audit s)) true
     end.

Lemma consume_status (resp : UpstreamResponse) timeout a rs now c t :
  0 <= timeout -> consume_classify_body resp timeout a rs now = (Ok c, t) -> cr_status c = ur_status resp.
Proof.
  unfold consume_classify_body. intros Ht Hrun.
  apply (consume_loop_ok _ _ _ _ _ _ _ []) in Hrun; [| lia | by cbv].
  by destruct Hrun as (pre & rest & _ & _ & _ & Hs & _).
Qed.

Lemma error_arm_inv px sel resp a now ra pool audit last f g r :
  0 <= io_upstream_error_body (px_timeouts px) ->
  error_arm px sel resp a now ra pool audit last f g = Some r ->
  trail_ok (ra_used ra) (rq_attempts audit) false -> last_ok (ra_used ra) last ->
  sel_fingerprint sel ∈ ra_used ra -> error_status (ur_status resp) = true ->
  exists s, r.1 = inr s /\ ls_attempts s = ra /\ trail_ok (ra_used ra) (rq_attempts (ls_audit s)) false
    /\ last_ok (ra_used ra) (ls_last s).
Proof.
  intros Hto Hrun Ht Hl Hin Hs. unfold error_arm, fail_over in Hrun.
  destruct (consume_classify_body _ _ _ _ _) as [[c | []] t] eqn:Hc;
    apply bind_Some in Hrun as (p' & _ & [= <-]); eexists; (split; [done |]); simpl; split_and!; try done.
  - by apply trail_last.
  - intros c' fp [= <- <-]. split; [done |]. by rewrite (consume_status _ _ _ _ _ _ _ Hto Hc).
Qed.

Lemma prepare_ok resp ev a now p t :
  0 <= EventTimeouts.first_event_timeout ev ->
  prepare_response resp ev SSE_EVENT_CAP a now = (Ok p, t) ->
  pr_status p = ur_status resp
  /\ (pr_streaming p = true -> 0 < events_in SSE_EVENT_CAP (concat (pr_prefetched p))).
Proof.
  intros Hto Hrun. destruct (is_streaming (ur_headers resp)) eqn:Hs.
  - apply prepare_response_spec in Hrun as (_ & pre & rest & _ & _ & _ & _ & Hst & _ & _ & Hev & _);
      [done | done | by split; cbv | done].
  - unfold prepare_response in Hrun. rewrite Hs in Hrun. simpl in Hrun. by injection Hrun as <- <-.
Qed.

Lemma handle_response_inv px model sel resp a now ra pool audit last r :
  0 <= io_upstream_error_body (px_timeouts px) -> 0 <= EventTimeouts.first_event_timeout (px_event_timeouts px) ->
  respond px model sel resp a now ra pool audit last = Some r ->
  (length (ra_used ra) <= 2)%nat ->
  trail_ok (ra_used ra) (rq_attempts audit) false -> last_ok (ra_used ra) last ->
  sel_fingerprint sel ∈ ra_used ra ->
  match r.1 with
  | inr s => ls_attempts s = ra /\ trail_ok (ra_used ra) (rq_attempts (ls_audit s)) false
      /\ last_ok (ra_used ra) (ls_last s)
  | inl (o, s) => ls_attempts s = ra /\ trail_ok (ra_used ra) (rq_attempts (ls_audit s)) true
      /\ exists p, o = FinalForward p (sel_fingerprint sel) sel a
           /\ error_status (pr_status p) = false
           /\ (pr_streaming p = true -> 0 < events_in SSE_EVENT_CAP (concat (pr_prefetched p)))
  end.
Proof.
  intros He Hf Hrun Hlen Ht Hl Hin. unfold handle_response in Hrun.
  assert (forall f g, error_arm px sel resp a now ra pool audit last f g = Some r ->
    error_status (ur_status resp) = true ->
    match r.1 with
    | inr s => ls_attempts s = ra /\ trail_ok (ra_used ra) (rq_attempts (ls_audit s)) false
        /\ last_ok (ra_used ra) (ls_last s)
    | inl _ => False
    end) as Harm.
  { intros f g Harm Hes. destruct r as [r q]. eapply error_arm_inv in Harm as (s & Hr & ? & ? & ?); eauto. simpl in *. by subst r. }
  destruct (Z.eqb_spec (ur_status resp) 429) as [H429 | H429].
  { apply Harm in Hrun; [by destruct r as [[[o s] | s] q] | unfold error_status; by rewrite H429]. }
  destruct (is_auth_unavailable (ur_status resp)) eqn:Hau.
  { apply Harm in Hrun; [by destruct r as [[[o s] | s] q] | unfold error_status; by rewrite Hau, orb_true_r]. }
  destruct (is_server_error (ur_status resp)) eqn:Hse.
  { apply Harm in Hrun; [by destruct r as [[[o s] | s] q] | unfold error_status; by rewrite Hse, orb_true_r]. }
  destruct (prepare_response resp _ _ _ _) as [[p | f] t] eqn:Hp.
  - injection Hrun as <-. simpl. split_and!; [done | by apply trail_forwarded |]. exists p.
    apply prepare_ok in Hp as [Hst Hev]; [| done]. split_and!; [done | | done].
    unfold error_status. rewrite Hst, Hau, Hse. by destruct (Z.eqb_spec (ur_status resp) 429).
  - unfold fail_over in Hrun.
    assert (exists p', r = (inr (mk_loop ra (on_attempts (summaries_last (observe_read (pf_first_byte_latency f)
      (pf_upstream_bytes f) (pf_upstream_chunks f) (pf_last_activity_offset f) (pf_reason f))) audit) last), p'))
      as [p' ->].
    { destruct (pf_reason f); try (injection Hrun as <-; by eexists);
        apply bind_Some in Hrun as (p' & _ & [= <-]); by eexists. }
    simpl. split_and!; [done | by apply trail_last | done].
Qed.

Lemma length_summaries_last f l : length (summaries_last f l) = length l.
Proof.
  pose proof (summaries_last_fmap (fun _ => tt) f l (fun _ => eq_refl)) as Hl.
  apply (f_equal length) in Hl. by rewrite !length_fmap in Hl.
Qed.

(** An attempt extends the trail by its key, or commits it. *)
Lemma run_attempt_inv px model turn sel ra pool audit last r used :
  0 <= io_upstream_error_body (px_timeouts px) -> 0 <= EventTimeouts.first_event_timeout (px_event_timeouts px) ->
  attempt px model turn sel ra pool audit last = Some r ->
  ra_used ra = used ++ [sel_fingerprint sel] -> (length used < 2)%nat ->
  trail_ok used (rq_attempts audit) false -> last_ok used last ->
  match r.1 with
  | inr s => ls_attempts s = ra /\ trail_ok (ra_used ra) (rq_attempts (ls_audit s)) false
      /\ last_ok (ra_used ra) (ls_last s)
  | inl (o, s) => ls_attempts s = ra /\ trail_ok (ra_used ra) (rq_attempts (ls_audit s)) true
      /\ exists p, o = FinalForward p (sel_fingerprint sel) sel (tn_start turn)
           /\ error_status (pr_status p) = false
           /\ (pr_streaming p = true -> 0 < events_in SSE_EVENT_CAP (concat (pr_prefetched p)))
  end.
Proof.
  intros He Hf Hrun Hu Hlen Ht Hl. unfold run_attempt in Hrun.
  apply bind_Some in Hrun as (n & Hn & Hrun). unfold u8_try_from in Hn.
  destruct (_ <=? u8_max); [| done]. injection Hn as Hn.
  apply bind_Some in Hrun as (sent & _ & Hrun).
  assert (Z.of_nat (length (rq_attempts audit)) + 1 = n) as Hn' by (rewrite <- Hn; simpl; by rewrite length_summaries_last).
  set (push := fun latency reason => on_attempts (summaries_push (new_attempt_summary n (sel_fingerprint sel)
    latency reason)) (on_attempts (summaries_last (mark_failover (sel_fingerprint sel))) audit)) in Hrun.
  assert (forall latency reason, trail_ok (ra_used ra) (rq_attempts (push latency reason)) false) as Hpush.
  { intros latency reason. rewrite Hu. apply trail_next; [done | lia | done]. }
  assert (last_ok (ra_used ra) last) as Hl'.
  { intros c fp Hc. destruct (Hl c fp Hc) as [? ?]. rewrite Hu. split; [apply elem_of_app; by left | done]. }
  assert (forall f t p a, fail_over ra sel f t p a last = Some r -> trail_ok (ra_used ra) (rq_attempts a) false ->
    exists s, r.1 = inr s /\ ls_attempts s = ra /\ trail_ok (ra_used ra) (rq_attempts (ls_audit s)) false
      /\ last_ok (ra_used ra) (ls_last s)) as Hfail.
  { unfold fail_over. intros f t p a (p' & _ & [= <-])%bind_Some Ha. eexists. by split_and!. }
  destruct (match sent with Ok a => a | Err e => Some (0, Err e) end) as [[latency res] |].
  - destruct (latency <=? _).
    + destruct res as [resp | e].
      * eapply handle_response_inv in Hrun; eauto.
        -- rewrite Hu, length_app. simpl. lia.
        -- rewrite Hu. apply elem_of_app. right. by apply list_elem_of_singleton.
      * destruct r as [r q]; apply Hfail in Hrun as (s & Hr & ?); [by simpl in *; subst r | apply Hpush].
    + destruct r as [r q]; apply Hfail in Hrun as (s & Hr & ?); [by simpl in *; subst r | apply Hpush].
  - destruct r as [r q]; apply Hfail in Hrun as (s & Hr & ?); [by simpl in *; subst r | apply Hpush].
Qed.

(** What asking for a key means; it waits where [b] is false. *)
Definition asked (b : bool) ra (r : AttemptResult.t * RequestAttempts) : Prop :=
  ra_max r.2 = ra_max ra /\ ra_deadline r.2 = ra_deadline ra
  /\ match r.1 with
     | AttemptResult.Selected sel => ra_used r.2 = ra_used ra ++ [sel_fingerprint sel]
         /\ Z.of_nat (length (ra_used ra)) < ra_max ra /\ (attempts_wf ra -> attempts_wf r.2)
     | AttemptResult.Unavailable d => r.2 = ra /\ 0 <= d /\ b = false
     | AttemptResult.Exhausted => r.2 = ra
     end.

Lemma asked_selected b ra now (p p' : KeyPool J) sel :
  try_select_unused ra now p = Some (Some sel, p') -> Z.of_nat (length (ra_used ra)) < ra_max ra ->
  asked b ra (AttemptResult.Selected sel, push_used (sel_fingerprint sel) ra).
Proof.
  intros Hs%select_ok Hlt. split_and!; [done | done |]. split_and!; [apply Hs | done |].
  intros Hwf. by eapply attempt_ok_wf.
Qed.

Lemma refusal_nonneg ra (p : KeyPool J) d : refusal ra p d -> 0 <= d.
Proof. intros (now & t & _ & [[_ ->] | [_ ->]]); [| done]. unfold Inst.saturating_duration_since. lia. Qed.

(** ** Nothing panics *)

(** Sane arguments: non-negative timeouts and delays, a base URL that joins. *)
Record px_ok px : Prop := {
  po_header : 0 <= io_upstream_header (px_timeouts px);
  po_error : 0 <= io_upstream_error_body (px_timeouts px);
  po_first : 0 <= EventTimeouts.first_event_timeout (px_event_timeouts px);
  po_url : is_Some (upstream_api_url join (px_base_url px) (px_api px));
  po_post : forall t u h b latency res, post t u h b = Some (latency, res) -> 0 <= latency;
}.

(** Clock readings far enough from the end of time, not earlier than [wait] before
    the deadline. *)
Record turn_ok px (wait : Duration) (deadline : Instant) (turn : Turn) : Prop := {
  to_clock : clock_ok (tn_clock turn) deadline;
  to_after : deadline - wait <= tn_clock turn 0%nat;
  to_start : 0 <= tn_start turn;
  to_end : tn_start turn + io_upstream_header (px_timeouts px) + io_upstream_error_body (px_timeouts px)
    + EventTimeouts.first_event_timeout (px_event_timeouts px) <= INSTANT_MAX - MAX_COOLDOWN;
}.

Lemma fail_over_total ra sel f now pool audit last :
  real_instant now -> is_Some (fail_over ra sel f now pool audit last).
Proof.
  intros Hnow. unfold fail_over. destruct (report_failure_real sel f now pool Hnow) as [p ->]. by eexists.
Qed.

Lemma error_arm_total px sel resp a now ra pool audit last f g :
  0 <= io_upstream_error_body (px_timeouts px) ->
  0 <= now -> now + io_upstream_error_body (px_timeouts px) <= INSTANT_MAX - MAX_COOLDOWN ->
  is_Some (error_arm px sel resp a now ra pool audit last f g).
Proof.
  intros Hto Hnow Hend. unfold error_arm. destruct (consume_classify_body _ _ _ _ _) as [res t] eqn:Hc.
  unfold consume_classify_body in Hc. apply consume_loop_time in Hc; [| lia].
  destruct res as [c | []]; apply fail_over_total; split; lia.
Qed.

Lemma handle_response_total px model sel resp a now ra pool audit last :
  px_ok px -> 0 <= now ->
  now + io_upstream_error_body (px_timeouts px) + EventTimeouts.first_event_timeout (px_event_timeouts px)
    <= INSTANT_MAX - MAX_COOLDOWN ->
  is_Some (respond px model sel resp a now ra pool audit last).
Proof.
  intros [_ He Hf _ _] Hnow Hend. unfold handle_response.
  destruct (ur_status resp =? 429); [apply error_arm_total; lia |].
  destruct (is_auth_unavailable _); [apply error_arm_total; lia |].
  destruct (is_server_error _); [apply error_arm_total; lia |].
  destruct (prepare_response resp _ _ _ _) as [[p | f] t] eqn:Hp; [by eexists |].
  destruct (is_streaming (ur_headers resp)) eqn:Hs;
    [| unfold prepare_response in Hp; by rewrite Hs in Hp].
  apply prepare_response_spec in Hp as [Ht _]; [| done | by split; cbv | done].
  assert (real_instant t) as Hreal by (split; lia).
  destruct (pf_reason f); try (by eexists); try (by apply fail_over_total);
    (destruct (report_liveness_real sel model t pool Hreal) as [p' ->]; by eexists).
Qed.

Lemma run_attempt_total px model turn sel ra pool audit last wait deadline :
  px_ok px -> turn_ok px wait deadline turn -> (length (rq_attempts audit) < 2)%nat ->
  is_Some (attempt px model turn sel ra pool audit last).
Proof.
  intros Hpx [_ _ Hs Hend] Hlen. pose proof Hpx as [Hh He Hf [url Hurl] Hpost]. unfold run_attempt.
  assert (u8_try_from (Z.of_nat (length (rq_attempts (on_attempts
    (summaries_last (mark_failover (sel_fingerprint sel))) audit))) + 1) =
    Some (Z.of_nat (length (rq_attempts audit)) + 1)) as ->.
  { simpl. rewrite length_summaries_last. unfold u8_try_from, u8_max.
    by destruct (Z.leb_spec (Z.of_nat (length (rq_attempts audit)) + 1) 255); [| lia]. }
  unfold forward_request. rewrite Hurl. simpl.
  destruct (upstream_headers _ _ _ _ _) as [hs |]; simpl.
  - destruct (post (tn_start turn) url hs (px_body px)) as [[latency res] |] eqn:Hp.
    + apply Hpost in Hp. destruct (Z.leb_spec latency (io_upstream_header (px_timeouts px))).
      * destruct res; [apply handle_response_total; [done | lia | lia] | apply fail_over_total; split; lia].
      * apply fail_over_total; split; lia.
    + apply fail_over_total; split; lia.
  - destruct (Z.leb_spec 0 (io_upstream_header (px_timeouts px))); apply fail_over_total; split; lia.
Qed.

(** ** Where a forwarded response comes from *)

Definition forwarded_from px (o : FinalOutcome) : Prop :=
  forall p fp sel a, o = FinalForward p fp sel a ->
  exists t url hs latency resp now t', post t url hs (px_body px) = Some (latency, Ok resp)
    /\ prepare_response resp (px_event_timeouts px) SSE_EVENT_CAP a now = (Ok p, t').

Lemma run_attempt_source px model turn sel ra pool audit last o s q :
  attempt px model turn sel ra pool audit last = Some (inl (o, s), q) -> forwarded_from px o.
Proof.
  unfold run_attempt. intros (n & _ & (sent & Hsent & Hrun)%bind_Some)%bind_Some p fp sel' a ->.
  assert (forall ra' s' f t q0 au la, fail_over ra' s' f t q0 au la <> Some (inl (FinalForward p fp sel' a, s), q)) as Hno.
  { unfold fail_over. intros ra' s' f t q0 au la (q' & _ & Heq)%bind_Some. done. }
  unfold forward_request in Hsent. apply bind_Some in Hsent as (url & _ & Hsent).
  destruct (upstream_headers _ _ _ _ _) as [hs |]; injection Hsent as <-; simpl in Hrun;
    [| destruct (0 <=? _); by apply Hno in Hrun].
  destruct (post (tn_start turn) url hs (px_body px)) as [[latency res] |] eqn:Hp; [| by apply Hno in Hrun].
  destruct (latency <=? _); [| by apply Hno in Hrun]. destruct res as [resp | e]; [| by apply Hno in Hrun].
  unfold handle_response, error_arm in Hrun.
  repeat match type of Hrun with
  | (if ?b then _ else _) = _ => destruct b
  | match consume_classify_body ?r ?t ?a ?s ?n with _ => _ end = _ =>
      destruct (consume_classify_body r t a s n) as [[? | ?] ?]
  end; try (by apply Hno in Hrun).
  destruct (prepare_response resp _ _ _ _) as [[p0 | f] t'] eqn:Hprep.
  - injection Hrun as -> <- <- <- _. eauto 10.
  - destruct (pf_reason f); try done; try (by apply Hno in Hrun); by apply bind_Some in Hrun as (q0 & _ & Heq).
Qed.

(** *** The pool keeps its policy *)

Lemma report_failure_policy sel f now (p p' : KeyPool J) : report_failure sel f now p = Some p' -> policy p' = policy p.
Proof. intros [Hr _]%report_failure_reported. apply Hr. Qed.

Lemma report_liveness_policy sel model now (p p' : KeyPool J) :
  report_liveness_failure sel model now p = Some p' -> policy p' = policy p.
Proof. intros [Hr _]%report_liveness_reported. apply Hr. Qed.

Lemma fail_over_inv ra sel f now pool audit last r :
  fail_over ra sel f now pool audit last = Some r -> report_failure sel f now pool = Some r.2.
Proof. unfold fail_over. intros (p' & Hp & [= <-])%bind_Some. done. Qed.

Lemma error_arm_reports px sel resp a now ra pool audit last f g r :
  error_arm px sel resp a now ra pool audit last f g = Some r ->
  exists fl t, report_failure sel fl t pool = Some r.2 /\ (fl = g \/ exists b, fl = f b).
Proof.
  unfold error_arm. destruct (consume_classify_body _ _ _ _ _) as [[c | []] t]; intros Hr%fail_over_inv; eauto 10.
Qed.

Lemma handle_response_policy px model sel resp a now ra pool audit last r :
  respond px model sel resp a now ra pool audit last = Some r -> policy r.2 = policy pool.
Proof.
  assert (forall f fl, error_arm px sel resp a now ra pool audit last f fl = Some r -> policy r.2 = policy pool) as Harm.
  { intros f fl (fl' & t & Hr & _)%error_arm_reports. by eapply report_failure_policy. }
  unfold handle_response.
  repeat (match goal with |- (if ?b then _ else _) = _ -> _ => destruct b; [apply Harm |] end).
  destruct (prepare_response _ _ _ _ _) as [[pr | f] t]; [by intros [= <-] |].
  destruct (pf_reason f); try (by intros [= <-]); try (by intros Hr%fail_over_inv%report_failure_policy);
    intros (q & Hq%report_liveness_policy & [= <-])%bind_Some; done.
Qed.

Lemma run_attempt_policy px model turn sel ra pool audit last r :
  attempt px model turn sel ra pool audit last = Some r -> policy r.2 = policy pool.
Proof.
  unfold run_attempt. intros (n & _ & (sent & _ & Hrun)%bind_Some)%bind_Some.
  destruct (match sent with Ok a => a | Err e => Some (0, Err e) end) as [[latency res] |];
    [destruct (latency <=? _); [destruct res as [resp | e] |] |];
    try (by apply fail_over_inv, report_failure_policy in Hrun). by apply handle_response_policy in Hrun.
Qed.

(** ** The loop ends *)

(** What the loop does to the pool: any number of operations, counted down by the
    ghost, that keep the policy; it neither waits for another task nor panics. *)
Definition loop_protocol (pol : PoolPolicy) : protocol (KeyPool J) nat :=
  mk_protocol (fun p => policy p = pol) (fun x _ _ y => (y < x)%nat) (fun _ _ _ => True) (fun _ _ => False) False.

(** The operations of an attempt that may wait that long for its key. *)
Definition step_operations (wait : Duration) : nat := S (3 * Pos.to_nat (Z.to_pos (1 + wait))).

Lemma ask_looks turn px ra wait pol :
  turn_ok px wait (ra_deadline ra) turn ->
  looks_ok (loop_protocol pol) (fun i y => (i <= y)%nat)
    (fun _ sel => Z.of_nat (length (ra_used ra)) < ra_max ra -> asked false ra (AttemptResult.Selected sel, push_used (sel_fingerprint sel) ra))
    (fun _ d => 0 <= d) (tn_clock turn) ra.
Proof.
  intros [Hck _ _ _]. split; [by split | lia | | | by left].
  - intros i y t p Hi Hp Ht. destruct (try_select_real ra t p (Ht Hck)) as [[r p'] Hs]. rewrite Hs.
    pose proof (try_select_frame _ _ _ _ _ Hs) as [Hpol _]. split; [simpl in *; congruence |].
    exists i. split_and!; [simpl; lia | done |]. intros sel ->. by eapply asked_selected.
  - intros i y p Hi _. exists i. split_and!; [simpl; lia | done | by apply refusal_nonneg].
Qed.

Lemma ask_follows (b : bool) turn px ra wait pol n :
  turn_ok px wait (ra_deadline ra) turn ->
  follows (loop_protocol pol) (fun y r => (S n <= y)%nat /\ asked b ra r) (step_operations wait + n)%nat
    (if b then act_or_panic (next_immediate ra (tn_clock turn 0%nat)) else next (tn_clock turn) ra).
Proof.
  intros Ht. pose proof Ht as [Hck Hafter _ _]. destruct b.
  - apply follows_last, follows_act_or_panic. intros p Hp.
    assert (is_Some (next_immediate ra (tn_clock turn 0%nat) p)) as [[[res ra'] p'] Hask].
    { unfold next_immediate. destruct (_ <=? _); [by eexists |].
      destruct (try_select_real ra _ p (ck_real _ _ Hck 0%nat)) as [[[sel |] p'] ->]; by eexists. }
    rewrite Hask. apply immediate_ok in Hask. destruct res as [sel | d |]; [| done |].
    + destruct Hask as (Hlt & -> & Hs). pose proof (try_select_frame _ _ _ _ _ Hs) as [Hpol _].
      split; [simpl in *; congruence |]. exists (S n). split; [simpl; lia |]. split; [done |]. by eapply asked_selected.
    + destruct Hask as (-> & -> & _). split; [done |]. exists (S n). split; [simpl; lia | done].
  - eapply follows_mono; [apply (next_follows _ _ _ _ _ _ (S n) _ (ask_looks _ _ _ _ pol Ht)) |].
    + unfold next_operations, next_fuel, step_operations. lia.
    + intros y [[sel | d |] ra'] [Hy Hr]; simpl in Hr; split; try done.
      * destruct Hr as (Hr & -> & Hlt). by apply Hr.
      * by destruct Hr as (Hd & -> & _).
      * by destruct Hr as (-> & _).
Qed.

Lemma step_follows px model turn s wait pol n :
  px_ok px -> turn_ok px wait (ra_deadline (ls_attempts s)) turn -> loop_inv s ->
  follows (loop_protocol pol)
    (fun y r => (n <= y)%nat /\
       match r with
       | inr s' => loop_inv s' /\ ra_max (ls_attempts s') = ra_max (ls_attempts s)
           /\ length (ra_used (ls_attempts s')) = S (length (ra_used (ls_attempts s)))
           /\ ra_deadline (ls_attempts s') = ra_deadline (ls_attempts s)
       | inl (o, s') => final_ok o s' /\ forwarded_from px o
       end)
    (step_operations wait + n)%nat (step px model turn s).
Proof.
  intros Hpx Ht [Hwf Hmax Htr Hl]. pose proof Hpx as [_ He Hf _ _].
  eapply follows_bind; [by eapply ask_follows |]. intros y [res ra] (Hy & Hm & Hd & Hres). simpl in Hm, Hd, Hres.
  destruct res as [sel | d |].
  - destruct Hres as (Hu & Hlt & Hwf'). apply follows_last, follows_await; [by split |]. intros q Hq.
    destruct (run_attempt_total px model turn sel ra q (ls_audit s) (ls_last s) _ _ Hpx Ht) as [[r q'] Hrun].
    { rewrite (trail_short _ _ _ Htr). lia. }
    rewrite Hrun. split; [etransitivity; [exact (run_attempt_policy _ _ _ _ _ _ _ _ _ Hrun) | exact Hq] |].
    exists n. split; [simpl; lia |]. split; [lia |].
    pose proof Hrun as Hinv. eapply run_attempt_inv in Hinv; eauto; [| lia]. destruct r as [[o s'] | s']; simpl in Hinv.
    + destruct Hinv as (Ha & Htr' & pr & -> & Hs & Hev). split; [| by eapply run_attempt_source].
      split; [rewrite Ha; auto |]. split; [rewrite Ha; lia |]. rewrite Ha. split_and!; try done.
      rewrite Hu. apply last_snoc.
    + destruct Hinv as (Ha & Htr' & Hlast). split_and!; [| by rewrite Ha | | by rewrite Ha].
      * split; rewrite Ha; auto. lia.
      * rewrite Ha, Hu, length_app. simpl. lia.
  - destruct Hres as (-> & Hd' & Hb%bool_decide_eq_false). split; [lia |]. split; [| by intros pr fp sel a].
    split_and!; simpl; try done. destruct (ls_last s); [| done]. destruct Hb. by eexists.
  - subst ra. split; [lia |]. split; [by split_and! | by intros pr fp sel a].
Qed.

Lemma loop_follows px model turns wait pol fuel : px_ok px -> forall k s n,
  loop_inv s -> (forall k, turn_ok px wait (ra_deadline (ls_attempts s)) (turns k)) ->
  ra_max (ls_attempts s) - Z.of_nat (length (ra_used (ls_attempts s))) < Z.of_nat fuel ->
  follows (loop_protocol pol) (fun y r => (n <= y)%nat /\ final_ok r.1 r.2 /\ forwarded_from px r.1)
    (step_operations wait * fuel + n)%nat (loop fuel px model turns k s).
Proof.
  intros Hpx. induction fuel as [| fuel IH]; intros k s n Hinv Hturns Hfuel.
  { pose proof (awf_budget _ (li_wf _ Hinv)). lia. }
  cbn [proxy_loop]. replace (step_operations wait * S fuel + n)%nat with (step_operations wait + (step_operations wait * fuel + n))%nat by lia.
  eapply follows_bind; [by apply step_follows |]. intros y [[o s'] | s'] [Hy Hr].
  - split; [lia | done].
  - destruct Hr as (Hinv' & Hm & Hu & Hd). replace y with (step_operations wait * fuel + (y - step_operations wait * fuel))%nat by lia.
    eapply follows_mono; [apply IH; [done | by rewrite Hd | lia] |]. cbv beta. intros z r [Hz ?]. split; [lia | done].
Qed.

(** A request that has used no key yet. *)
Lemma loop_start ra audit :
  ra_used ra = [] -> rq_attempts audit = [] -> 0 <= ra_max ra <= 2 -> loop_inv (mk_loop ra audit None).
Proof.
  intros Hu Ha Hmax. split; simpl; rewrite ?Hu, ?Ha; [split; rewrite Hu | | |]; try done; try (simpl; lia).
  - apply NoDup_nil_2.
  - intros fp Hfp. by apply not_elem_of_nil in Hfp.
Qed.

Lemma start_fuel ra : ra_used ra = [] -> ra_max ra - Z.of_nat (length (ra_used ra)) < Z.of_nat (proxy_fuel ra).
Proof. intros ->. unfold proxy_fuel. simpl. lia. Qed.

(** Why the loop stops asking for keys, in the pool it leaves: without a response,
    after an honest refusal or when every attempt or every key is used up; with
    one, when no attempt is left or no unused key can be selected at once. *)
Definition ended (turns : nat -> Turn) (o : FinalOutcome) (s : LoopState) pool : Prop :=
  let ra := ls_attempts s in
  match o with
  | FinalUnavailable d => has_unused ra = true /\ refusal ra pool d
  | FinalLastResponse None => ra_max ra <= Z.of_nat (length (ra_used ra)) \/ has_unused ra = false
  | FinalLastResponse (Some _) => ra_max ra <= Z.of_nat (length (ra_used ra))
      \/ exists k, try_select_unused ra (tn_clock (turns k) 0%nat) pool = Some (None, pool)
  | FinalForward _ _ _ _ => True
  end.

Lemma run_attempt_attempts px model turn sel ra pool audit last r :
  attempt px model turn sel ra pool audit last = Some r ->
  match r.1 with
  | inl (o, _) => match o with FinalForward _ _ _ _ => True | _ => False end
  | inr s => ls_attempts s = ra
  end.
Proof.
  intros Hrun. unfold run_attempt in Hrun. apply bind_Some in Hrun as (n & _ & Hrun). apply bind_Some in Hrun as (sent & _ & Hrun).
  assert (forall f t q au la, fail_over ra sel f t q au la = Some r ->
    match r.1 with inl (o, _) => match o with FinalForward _ _ _ _ => True | _ => False end | inr s => ls_attempts s = ra end) as Hfail.
  { unfold fail_over. by intros f t q au la (q' & _ & [= <-])%bind_Some. }
  destruct (match sent with Ok a => a | Err e => Some (0, Err e) end) as [[latency res] |]; [| by apply Hfail in Hrun].
  destruct (latency <=? _); [| by apply Hfail in Hrun]. destruct res as [resp | e]; [| by apply Hfail in Hrun].
  unfold handle_response, error_arm in Hrun.
  repeat match type of Hrun with
  | (if ?b then _ else _) = _ => destruct b
  | match consume_classify_body ?r ?t ?a ?s ?n with _ => _ end = _ =>
      destruct (consume_classify_body r t a s n) as [[? | ?] ?]
  end; try (by apply Hfail in Hrun).
  destruct (prepare_response resp _ _ _ _) as [[p0 | f] t']; [by injection Hrun as <- |].
  destruct (pf_reason f); try (by injection Hrun as <-); try (by apply Hfail in Hrun);
    by apply bind_Some in Hrun as (q0 & _ & [= <-]).
Qed.

Lemma step_leaves px model turns k s pool :
  clock_ok (tn_clock (turns k)) (ra_deadline (ls_attempts s)) ->
  follows leaving (fun p r => match r with
    | inl (o, s') => ended turns o s' p
    | inr s' => ra_deadline (ls_attempts s') = ra_deadline (ls_attempts s)
    end) pool (step px model (turns k) s).
Proof.
  intros Hck. unfold proxy_step. eapply (follows_bind _ (fun p (r : AttemptResult.t * RequestAttempts) =>
    ra_deadline r.2 = ra_deadline (ls_attempts s) /\
    match r.1 with
    | AttemptResult.Selected _ => True
    | AttemptResult.Unavailable d => ended turns (FinalUnavailable d) (mk_loop r.2 (ls_audit s) None) p
    | AttemptResult.Exhausted => ended turns (FinalLastResponse (ls_last s)) (mk_loop r.2 (ls_audit s) None) p
    end)).
  - destruct (bool_decide_reflect (is_Some (ls_last s))) as [[c Hc] | Hno].
    + apply follows_last, follows_act_or_panic. intros p _.
      destruct (next_immediate _ _ _) as [[[res ra'] p'] |] eqn:Hn; [| done]. split; [done |]. exists p'. split; [done |].
      apply immediate_ok in Hn. destruct res as [sel | d |]; [by destruct Hn as (_ & -> & _) | done |].
      destruct Hn as (-> & -> & Hn). split; [done |]. rewrite Hc. simpl. destruct Hn; eauto.
    + assert (looks_ok (leaving (S := KeyPool J)) (fun _ _ => True) _ (refusal (ls_attempts s)) (tn_clock (turns k)) (ls_attempts s)) as HL
        by (apply leaving_looks; [done | by left]).
      eapply follows_mono; [apply (next_follows _ _ _ _ _ _ 0%nat pool HL); done |].
      intros p [[sel | d |] ra'] [_ Hr]; simpl in Hr; simpl.
      * by destruct Hr as (_ & -> & _).
      * by destruct Hr as (? & -> & ?).
      * destruct Hr as [-> Hr]. split; [done |]. destruct (ls_last s); [| done]. destruct Hno. by eexists.
  - intros p [[sel | d |] ra'] [Hd Hr]; [| exact Hr | exact Hr].
    apply follows_last, follows_await; [done |]. intros q _.
    destruct (attempt px model (turns k) sel ra' q _ _) as [[r q'] |] eqn:Hrun; [| done]. split; [done |]. exists q'. split; [done |].
    apply run_attempt_attempts in Hrun. destruct r as [[[d | l | pr fp sl a] s'] | s']; simpl in *; [done | done | done | by rewrite Hrun].
Qed.

Lemma loop_leaves px model turns fuel : forall k s pool,
  (forall k, clock_ok (tn_clock (turns k)) (ra_deadline (ls_attempts s))) ->
  follows leaving (fun p r => ended turns r.1 r.2 p) pool (loop fuel px model turns k s).
Proof.
  induction fuel as [| fuel IH]; intros k s pool Hck; cbn [proxy_loop]; [by split |].
  eapply follows_bind; [by apply step_leaves |]. intros p [[o s'] | s'] Hr; [exact Hr |]. apply IH. by rewrite Hr.
Qed.

(** With a response kept there is one look at the pool, and the attempt. *)
Lemma step_at_once others px model turn s n q :
  is_Some (ls_last s) -> (length (saw others n (step px model turn s) q) <= 2)%nat.
Proof.
  intros Hl. unfold proxy_step. rewrite bool_decide_true by done. cbn.
  destruct (next_immediate _ _ _) as [[[[sel | d |] ra'] p'] |]; cbn; [| lia..].
  destruct (attempt _ _ _ _ _ _ _ _) as [[r q'] |]; cbn; lia.
Qed.


(** ** What the pool learns *)

(** The response whose head arrives in time for an attempt, and when. *)
Definition received px (turn : Turn) (sel : Selection) : option (UpstreamResponse * Instant) :=
  match forward_request header_from_str join builder_error
          (fun url headers body => Ok (post (tn_start turn) url headers body))
          sel (px_headers px) (px_session px) (px_body px) (px_base_url px) (px_api px) with
  | Some (Ok (Some (latency, Ok resp))) =>
      if latency <=? io_upstream_header (px_timeouts px) then Some (resp, tn_start turn + latency) else None
  | _ => None
  end.

(** The circuit breaker of a key is as it was, and no cooldown is shorter. *)
Definition breaker_kept (e e' : KeyEntry) : Prop :=
  ke_consecutive_failures e' = ke_consecutive_failures e /\ ke_half_open e' = ke_half_open e
  /\ ke_liveness_cooling e' = ke_liveness_cooling e
  /\ deadline_le (ke_cooling_until e) (ke_cooling_until e').
#[global] Instance breaker_kept_refl : Reflexive breaker_kept.
Proof. intros e. unfold breaker_kept. auto with orihsus. Qed.

Definition keys_keep (R : KeyEntry -> KeyEntry -> Prop) (p p' : KeyPool J) : Prop :=
  forall fp e, key_state p fp = Some e -> exists e', key_state p' fp = Some e' /\ R e e'.

Lemma updates_keep R `{!Reflexive R} (p p' : KeyPool J) fp : updates R p p' fp -> keys_keep R p p'.
Proof.
  intros [Hother Hfp] fp' e He. destruct (decide (fp' = fp)) as [-> | Hne].
  - rewrite He in Hfp. destruct Hfp as (e' & ? & ?). eauto.
  - rewrite Hother by done. eauto.
Qed.

Lemma cooled_kept (p p' : KeyPool J) fp i e e1 d reason id now :
  find_entry fp (entries (Pool.state p)) = Some (i, e) ->
  later_than (ke_cooling_until e) d = false ->
  breaker_kept e e1 -> ke_fingerprint e1 = ke_fingerprint e ->
  Pool.state p' = advance_cursor now (put_entry i (cool_entry d reason id e1) (Pool.state p)) ->
  keys_keep breaker_kept p p'.
Proof.
  intros Hf Hl (H1' & H2' & H3' & _) Hfp Hs.
  pose proof (find_entry_some _ _ _ _ Hf) as (_ & Hefp & _).
  apply (updates_keep _ _ _ fp).
  apply (updates_put breaker_kept p p' fp i e (cool_entry d reason id e1) Hf); [by simpl; rewrite Hfp | | by rewrite Hs, entries_advance].
  unfold breaker_kept. simpl. split_and!; try done. by apply not_later_than_le.
Qed.

Lemma report_keeps_breaker sel f now (p p' : KeyPool J) :
  f <> Failure.Network -> report_failure sel f now p = Some p' -> keys_keep breaker_kept p p'.
Proof.
  intros Hne Hrun. unfold report_failure in Hrun.
  assert (forall q : KeyPool J, entries (Pool.state q) = entries (Pool.state p) -> keys_keep breaker_kept p q) as Hsame.
  { intros q Hq fp e He. exists e. split; [unfold key_state in *; by rewrite Hq | reflexivity]. }
  destruct (find_entry (sel_fingerprint sel) _) as [[i e] |] eqn:Hf; [| injection Hrun as <-; by apply Hsame].
  assert (forall reason after, report_backoff (sel_id sel) reason after i e now p = Some p' -> keys_keep breaker_kept p p') as Hback.
  { unfold report_backoff. intros reason after Hb. destruct (choose_cooldown after e p) as [[cd backed] j].
    apply bind_Some in Hb as (d & Hd & Hb). simpl in Hb.
    destruct (later_than (ke_cooling_until e) d) eqn:Hl; injection Hb as <-; [by apply Hsame |].
    eapply (cooled_kept _ _ _ i e); [exact Hf | exact Hl | | | reflexivity]; destruct backed; try done;
      unfold breaker_kept; simpl; auto with orihsus. }
  destruct f as [dim cd | after | after | |]; [| by eapply Hback | by eapply Hback | injection Hrun as <-; by apply Hsame | done].
  apply bind_Some in Hrun as (d & Hd & Hrun).
  destruct (later_than (ke_cooling_until e) d) eqn:Hl; injection Hrun as <-; [by apply Hsame |].
  by eapply (cooled_kept _ _ _ i e e).
Qed.

(** A 5xx is reported, and ignored. *)
Lemma report_server_same sel now (p p' : KeyPool J) : report_failure sel Failure.Server now p = Some p' -> p' = p.
Proof. unfold report_failure. destruct (find_entry _ _) as [[i e] |]; by intros [= <-]. Qed.

(** A failed prefetch has one of three reasons. *)
Lemma prefetch_reason cap a dl up : forall now d pre total k fb reason,
  pf_result (prefetch_loop cap a dl up now d pre total k fb) = Err reason ->
  reason = Reason.NoFirstEvent \/ reason = Reason.NetworkError \/ reason = Reason.EndBeforeFirstEvent.
Proof.
  induction up as [| [ti item] up IH]; intros now d pre total k fb reason; cbn [prefetch_loop].
  { intros [= <-]. auto. }
  destruct ((ti <=? now) || (ti <=? dl)); [| intros [= <-]; auto].
  destruct item as [b | |]; [| intros [= <-]; auto | intros [= <-]; auto].
  destruct (cap <? _); [intros [= <-]; auto |]. destruct (sse_push b d) as [n d'].
  destruct (0 <? n); [done | apply IH].
Qed.

Lemma prepare_reason resp ev cap a now f t :
  prepare_response resp ev cap a now = (Err f, t) ->
  pf_reason f = Reason.NoFirstEvent \/ pf_reason f = Reason.NetworkError \/ pf_reason f = Reason.EndBeforeFirstEvent.
Proof.
  unfold prepare_response. destruct (negb (is_streaming _)); [done |].
  destruct (pf_result _) eqn:Hr; [done |]. intros [= <- <-]. by eapply prefetch_reason.
Qed.

(** The Retry-After of a response, parsed when its head arrives. *)
Definition retry_hint (resp : UpstreamResponse) (now : Instant) : option Duration :=
  header_get (ur_headers resp) "retry-after" ≫= fun v => parse_retry_after parse_from_rfc2822 v (wall now).

(** The failure behind a 429: a usage limit when its body could be read and says so. *)
Definition limit_of (read : result () ConsumedResponse) (hint : option Duration) : Failure.t :=
  match read with
  | Ok c => match classify_error_body (cr_body c) with
            | RateLimitKind.UsageLimit dimension cooldown => Failure.UsageLimit dimension cooldown
            | RateLimitKind.Generic => Failure.RateLimited hint
            end
  | Err _ => Failure.RateLimited hint
  end.

(** C7. The pool learns exactly what the upstream answered.  When no response
    head arrives in time the attempt is one network failure.  A 429 is reported
    once, when its body has been read: as the usage limit the body tells, or else
    as a rate limit with the Retry-After of the response; a 401 or 403 is reported
    as an unavailable key; neither touches a circuit breaker or a model cooldown or
    shortens a cooldown.  A 5xx leaves the pool untouched.  A response that is
    committed reports nothing yet and is what the loop ends with; an event stream
    that fails before its first event is a network failure or cools its key for
    this model only, according to how it failed. *)
Theorem attempt_feedback px model turn sel ra pool audit last r :
  attempt px model turn sel ra pool audit last = Some r ->
  let p := pool in
  let p' := r.2 in
  match received px turn sel with
  | None => exists t, t <= tn_start turn + io_upstream_header (px_timeouts px)
      /\ report_failure sel Failure.Network t p = Some p'
  | Some (resp, now) =>
      let '(read, t) := consume_classify_body resp (io_upstream_error_body (px_timeouts px)) (tn_start turn) (px_start px) now in
      if ur_status resp =? 429 then
        report_failure sel (limit_of read (retry_hint resp now)) t p = Some p' /\ keys_keep breaker_kept p p'
      else if (ur_status resp =? 401) || (ur_status resp =? 403) then
        report_failure sel (Failure.Unavailable (retry_hint resp now)) t p = Some p' /\ keys_keep breaker_kept p p'
      else if is_server_error (ur_status resp) then p' = p
      else match prepare_response resp (px_event_timeouts px) SSE_EVENT_CAP (tn_start turn) now with
           | (Ok prepared, _) => p' = p
               /\ exists s, r.1 = inl (FinalForward prepared (sel_fingerprint sel) sel (tn_start turn), s)
           | (Err f, t) => (exists s, r.1 = inr s)
               /\ match pf_reason f with
                  | Reason.NetworkError => report_failure sel Failure.Network t p = Some p'
                  | Reason.NoFirstEvent | Reason.EndBeforeFirstEvent =>
                      report_liveness_failure sel model t p = Some p'
                  | _ => False
                  end
           end
  end.
Proof.
  intros Hrun. cbv zeta. unfold run_attempt in Hrun. unfold received.
  apply bind_Some in Hrun as (n & _ & Hrun). apply bind_Some in Hrun as (sent & -> & Hrun).
  destruct sent as [[[latency [resp | e]] |] | e]; simpl in Hrun;
    try (destruct (Z.leb_spec latency (io_upstream_header (px_timeouts px))));
    try (apply fail_over_inv in Hrun; eexists; split; [| exact Hrun]; lia).
  2:{ destruct (Z.leb_spec 0 (io_upstream_header (px_timeouts px))); apply fail_over_inv in Hrun;
        (eexists; split; [| exact Hrun]; lia). }
  unfold handle_response, error_arm in Hrun. fold (retry_hint resp (tn_start turn + latency)) in Hrun.
  change (is_auth_unavailable (ur_status resp)) with ((ur_status resp =? 401) || (ur_status resp =? 403)) in Hrun.
  destruct (consume_classify_body _ _ _ _ _) as [read t].
  assert (forall fl, fl <> Failure.Network -> report_failure sel fl t pool = Some r.2 ->
    report_failure sel fl t pool = Some r.2 /\ keys_keep breaker_kept pool r.2) as Hkept.
  { intros fl Hne Hr. split; [exact Hr | by eapply report_keeps_breaker]. }
  destruct (ur_status resp =? 429).
  { apply Hkept; [unfold limit_of; destruct read as [c |]; [destruct (classify_error_body _) |]; done |].
    unfold limit_of. destruct read as [c |]; apply fail_over_inv in Hrun; exact Hrun. }
  destruct (_ || _).
  { apply Hkept; [done |]. destruct read as [c |]; apply fail_over_inv in Hrun; exact Hrun. }
  destruct (is_server_error (ur_status resp)).
  { destruct read as [c |]; apply fail_over_inv in Hrun; by apply report_server_same in Hrun. }
  destruct (prepare_response resp _ _ _ _) as [[p | f] t'] eqn:Hp; [injection Hrun as <-; simpl; eauto |].
  apply prepare_reason in Hp.
  destruct (pf_reason f) eqn:Hreason; try (by destruct Hp as [? | [? | ?]]);
    apply bind_Some in Hrun as (p' & Hl & [= <-]); simpl; eauto.
Qed.

End AttemptFacts.

(** ** At concrete inputs *)

#[local] Existing Instance demo_sha256.
#[local] Instance demo_proxy_serde : SerdeJson := toy_serde [("{m}", JObj [("model", JStr "m1")])].
#[local] Instance demo_proxy_http : HttpHeaders := toy_headers.
#[local] Instance demo_proxy_ct_eq : CtEq := fun a b => bool_decide (a = b).

Definition demo_gateway : AppRuntime unit FairSem NoJitter unit (list AuditRecord) unit unit :=
  mk_app () demo_pool
    (mk_queue (fair_new 2) (fair_new 1) 2 1 (Dur.from_secs 5))
    (mk_runtime [mk_gateway_key "ci" (secret_new "tok-1")] () 100 ∅ ["m1"]) []
    (mk_budget (fair_new 200) 100 200) (fair_new 1) io_timeouts_default ∅ None None.

(** The first key's upstream fails with a 500, the second streams two events. *)
Definition demo_post (t : Instant) (u : unit) (hs : list (string * @HeaderValue toy_headers)) (b : bytes)
    : option (Duration * result unit UpstreamResponse) :=
  Some (5, Ok (if bool_decide (("authorization", "Bearer sk-alpha") ∈ hs)
               then demo_error_response else demo_response)).
Definition demo_from (s : string) : option (@HeaderValue toy_headers) := Some s.
Definition demo_join (u : unit) (path : string) : option unit := Some u.
Definition demo_request_headers : @HeaderMap toy_headers := [("Authorization", "Bearer tok-1")].
Definition demo_turn (k : nat) : Turn := mk_turn (fun _ => 0) 0.
Definition demo_env : RequestEnv :=
  mk_env 0 20 id (Some 1) false 0 (fun _ => Some (1, Ok (as_bytes "{m}"))) 0 demo_turn
    false [Some 1; Some 2; Some 3] 10.

Abbreviation demo_shared := (AppRuntime unit FairSem NoJitter unit (list AuditRecord) unit unit * Z)%type.
Definition demo_start : demo_shared := (demo_gateway, 0).
Definition demo_request_task (env : RequestEnv) : task demo_shared Response :=
  proxy_request demo_from demo_join (fun _ => None) () demo_post env demo_request_headers ChatCompletions.

(** What a task makes of a state, and the records it leaves. *)
Definition answer_of {S A} (m : move S A) : option (A * S) :=
  match m with Goes a s => Some (a, s) | _ => None end.
Lemma goes_default {S A} (m : move S A) (d : A * S) :
  match m with Goes _ _ => true | _ => false end = true ->
  m = Goes (default d (answer_of m)).1 (default d (answer_of m)).2.
Proof. by destruct m. Qed.
Definition demo_records (s : demo_shared) : list AuditRecord := app_audit s.1.

Example demo_run_ok :
  (fun r => (rs_status r.1, ar_status <$> demo_records r.2,
     (fun s => (at_number s, at_committed s, at_terminal_reason s)) <$> concat (ar_attempts <$> demo_records r.2)))
    <$> answer_of (run_alone (demo_request_task demo_env) demo_start)
  = Some (200, [200], [(1, false, Reason.RetryableResponse); (2, true, Reason.Completed)]).
Proof. vm_compute. reflexivity. Qed.

Definition demo_px : ProxyContext unit :=
  mk_context io_timeouts_default (EventTimeouts.mk (Dur.from_secs 60) (Dur.from_secs 90))
    demo_request_headers "s" (as_bytes "{m}") () ChatCompletions 0.
Definition demo_audit : RequestAudit := mk_request_audit None None None None [].

Ltac clock_lia :=
  unfold real_instant, INSTANT_MAX, MAX_COOLDOWN, WAIT_TIMEOUT, Dur.from_secs, NANOS_PER_SEC in *; simpl in *; lia.

Lemma demo_turn_ok deadline : deadline = WAIT_TIMEOUT -> turn_ok demo_px WAIT_TIMEOUT deadline (demo_turn 0).
Proof.
  intros ->. split; [split; simpl; intros; clock_lia | simpl; intros; clock_lia..].
Qed.

Lemma demo_px_ok : px_ok demo_join demo_post demo_px.
Proof.
  split; simpl; try clock_lia; [by eexists |].
  intros t u h b latency res [= <- _]. lia.
Qed.


(** The first attempt of the demo: a 500 from the first key. *)
Definition demo_used : RequestAttempts := push_used (demo_fp 0) demo_request.
Definition demo_attempt := run_attempt demo_from demo_join (fun _ => None) id () demo_post demo_px "m1"
  (demo_turn 0) (demo_sel 0) demo_used demo_pool demo_audit None.
Definition demo_flow : (FinalOutcome * LoopState + LoopState) * KeyPool NoJitter :=
  default (inr (mk_loop demo_used demo_audit None), demo_pool) demo_attempt.

Lemma some_default {A} (o : option A) (a : A) :
  match o with Some _ => true | None => false end = true -> o = Some (default a o).
Proof. by destruct o. Qed.

Lemma attempt_feedback_witness :
  (prod_map ur_status id <$> received demo_from demo_join () demo_post demo_px (demo_turn 0) (demo_sel 0)) = Some (500, 5)
  /\ demo_flow.2 = demo_pool.
Proof.
  split; [vm_compute; reflexivity |].
  pose proof (attempt_feedback demo_from demo_join (fun _ => None) id () demo_post demo_px "m1" (demo_turn 0)
    (demo_sel 0) demo_used demo_pool demo_audit None demo_flow
    (some_default demo_attempt _ ltac:(vm_compute; reflexivity))) as Hf.
  vm_compute in Hf. vm_compute. exact Hf.
Defined.

(** The same request when the client drops the body: the result of the cancelled
    pump has default metrics, so the record of the committed attempt loses the
    latencies noted when it was committed and says that no byte was read. *)
Definition demo_gone_env : RequestEnv :=
  mk_env 0 20 id (Some 1) false 0 (fun _ => Some (1, Ok (as_bytes "{m}"))) 0 demo_turn
    true [Some 1; Some 2; Some 3] 10.
Theorem client_gone_erases_metrics :
  (fun r => (fun s => (at_committed s, at_terminal_reason s, at_first_byte_latency s, at_upstream_bytes s))
              <$> concat (ar_attempts <$> demo_records r.2))
    <$> answer_of (run_alone (demo_request_task demo_gone_env) demo_start)
  = Some [(false, Reason.RetryableResponse, Some 5, 2); (true, Reason.ClientCancel, None, 0)].
Proof. vm_compute. reflexivity. Qed.
