(* ===== verification/Requests.v ===== *)
(** * Requests that run at the same time

    [proxy_request] of [Proxy] as a task among others: what it takes from the
    semaphores and gives back, on every path and when it is dropped; the one
    record it writes; what stands behind a forwarded answer; that it never
    panics; and what follows for any number of interleaved requests. *)
From S2P Require Export ProxyProps.

(** ** Permits and records *)

(** What a request holds: admission permits, queue slots, body permits, stream
    slots; the records it has written; its places in the lines for admission and
    for the body budget. *)
Record ledger := mk_full {
  lg_admission : Z;
  lg_queue : Z;
  lg_body : Z;
  lg_stream : Z;
  lg_records : list AuditRecord;
  lg_ticket : option nat;
  lg_body_ticket : option nat;
}.
(** Of a request that does not wait. *)
Abbreviation mk_ledger a q b c l := (mk_full a q b c l None None).

Definition empty_ledger : ledger := mk_ledger 0 0 0 0 [].
Definition stake_of (x : ledger) : stake := mk_stake (lg_admission x) (lg_queue x) (lg_ticket x).
Definition body_hold (x : ledger) : hold := mk_hold (lg_body x) (lg_body_ticket x).
(** Nothing is negative, and a slot is held in the line. *)
Definition ledger_ok (x : ledger) : Prop := stake_ok (stake_of x) /\ 0 <= lg_body x /\ 0 <= lg_stream x.

(** The record says what the client is told: the status, and the identifier when
    the answer carries one. *)
Definition audited `{HttpHeaders} (resp : Response) (r : AuditRecord) : Prop :=
  ar_status r = rs_status resp
  /\ forall v, ("x-request-id", FromText v) ∈ rs_headers resp -> v = ar_request_id r.

Section Accounts.
Context `{SerdeJson} `{HttpHeaders} `{Sha256} `{CtEq} {Url Sem J Http Sink UsageM ModelM Error : Type}
  `{Jitter J} `{SemaphoreLaws Sem} `{AuditSink Sink}.
Context (header_from_str : string -> option HeaderValue) (join : Url -> string -> option Url)
  (parse_from_rfc2822 : string -> option Z) (builder_error : Error)
  (post : Instant -> Url -> list (string * HeaderValue) -> bytes
            -> option (Duration * result Error UpstreamResponse)).
Abbreviation gateway := (AppRuntime Url Sem J Http Sink UsageM ModelM).
Abbreviation shared := (gateway * Z)%type.
Implicit Types g : gateway.
Implicit Types s : shared.
Implicit Types env : RequestEnv.

(** The four semaphores: what nobody holds. *)
Definition admission_left g : Z := sem_unheld (aq_concurrency (app_queue g)).
Definition queue_left g : Z := sem_available (aq_queue_slots (app_queue g)).
Definition body_left g : Z := sem_unheld (bb_sem (app_body_budget g)).
Definition streams_left g : Z := sem_available (app_stream_slots g).
Definition per_request g : Z := bb_permits_per_request (app_body_budget g).
Definition budget_open g : bool := negb (sem_is_closed (bb_sem (app_body_budget g))).

(** They are in order; nobody ever waits for a stream slot. *)
Record room g : Prop := {
  rm_queue : queue_ok (app_queue g);
  rm_body : sem_wf (per_request g) (bb_sem (app_body_budget g));
  rm_streams : sem_idle (app_stream_slots g);
  rm_free : 0 <= streams_left g;
}.

(** An operation of a request whose ledger is [x] before and [y] afterwards: what is
    taken from the semaphores and offered to the audit sink is what the ledger
    shows. *)
Record balance (x y : ledger) g g' : Prop := {
  bl_room : room g';
  bl_queue : queue_balance (stake_of x) (stake_of y) (app_queue g) (app_queue g');
  bl_body : sem_balance (per_request g) (scaled (per_request g) (body_hold x)) (scaled (per_request g) (body_hold y))
              (bb_sem (app_body_budget g)) (bb_sem (app_body_budget g'));
  bl_streams : streams_left g' + lg_stream y = streams_left g + lg_stream x;
  bl_audit : exists recs, app_audit g' = foldl (fun sink r => sink_record r sink) (app_audit g) recs
               /\ lg_records y = lg_records x ++ recs;
  bl_per : per_request g' = per_request g;
  bl_ok : ledger_ok y;
}.

Lemma balance_trans x y z g1 g2 g3 : balance x y g1 g2 -> balance y z g2 g3 -> balance x z g1 g3.
Proof.
  intros [? Hq Hb Hs (r1 & Ha & Hl) Hp ?] [? Hq' Hb' Hs' (r2 & Ha' & Hl') Hp' ?]. rewrite Hp in Hb'.
  split; [done | by eapply queue_balance_trans | by eapply fair_balance_trans | lia | | congruence | done].
  exists (r1 ++ r2). by rewrite Ha', Ha, Hl', Hl, foldl_app, <- app_assoc.
Qed.

(** Where a request stands: in lines that are in order. *)
Record standing (x : ledger) g : Prop := {
  st_room : room g;
  st_ok : ledger_ok x;
  st_line : claims (stake_hold (stake_of x)) (aq_concurrency (app_queue g));
  st_body_line : claims (body_hold x) (bb_sem (app_body_budget g));
}.
Definition ledger_step (x : ledger) s s' (y : ledger) : Prop := standing x s.1 -> balance x y s.1 s'.1.

Lemma ledger_step_trans x y z s1 s2 s3 :
  ledger_step x s1 s2 y -> ledger_step y s2 s3 z -> lg_ticket y = None -> lg_body_ticket y = None -> ledger_step x s1 s3 z.
Proof.
  intros Hxy Hyz Ht Hbt Hx. pose proof (Hxy Hx) as Hb. eapply balance_trans; [exact Hb |]. apply Hyz.
  split; [apply Hb | apply Hb | by apply no_claims |]. intros t Heq. simpl in Heq. congruence.
Qed.

(** The operations of the handler. *)
Lemma balance_refl x g : standing x g -> balance x x g g.
Proof.
  intros [Hr [Hst Hok] Hq Hb]. split; [done | by apply queue_step_refl; [apply Hr | |] | apply sem_balance_refl, Hr | done | | done | done].
  exists []. by rewrite app_nil_r.
Qed.
Lemma step_refl x s : ledger_step x s s x.
Proof. exact (balance_refl x s.1). Qed.
Lemma step_counter x s n : ledger_step x s (s.1, n) x.
Proof. exact (balance_refl x s.1). Qed.
Lemma step_pool x p s : ledger_step x s (set_pool p s) x.
Proof. intros Hx. destruct (balance_refl x s.1 Hx) as [[? ? ? ?] ? ? ? ? ? ?]. by split; [split | ..]. Qed.
Lemma step_record a q b c l r s :
  ledger_step (mk_ledger a q b c l) s (on_gateway (record r) s) (mk_ledger a q b c (l ++ [r])).
Proof.
  intros Hx. destruct (balance_refl _ s.1 Hx) as [[? ? ? ?] ? ? ? _ ? ?].
  by split; [split | .. | exists [r] | |].
Qed.

Lemma step_queue x y q s :
  queue_step (stake_of x) (stake_of y) (app_queue s.1) q ->
  body_hold y = body_hold x -> lg_stream y = lg_stream x -> lg_records y = lg_records x -> ledger_step x s (set_queue q s) y.
Proof.
  intros Hstep Hb Hs Hl Hx. destruct (balance_refl _ s.1 Hx) as [[? ? ? ?] _ Bb Bs _ Bp [Bo Bk]].
  pose proof (Hstep (rm_queue _ (st_room _ _ Hx)) (proj1 (st_ok _ _ Hx)) (st_line _ _ Hx)) as Hq.
  split; [split; [apply Hq | done..] | exact Hq | by rewrite Hb | rewrite Hs; exact Bs | exists []; by rewrite app_nil_r | done |].
  split; [apply Hq |]. unfold body_hold in Hb. injection Hb as -> _. by rewrite Hs.
Qed.

Lemma step_body x y b s :
  owned_step bb_sem set_budget_sem bb_permits_per_request (body_hold x) (body_hold y) (app_body_budget s.1) b ->
  stake_of y = stake_of x -> lg_stream y = lg_stream x -> lg_records y = lg_records x -> ledger_step x s (set_budget b s) y.
Proof.
  intros Hstep Hq Hs Hl Hx. destruct (balance_refl _ s.1 Hx) as [[? ? ? ?] Bq _ Bs _ Bp [Bo Bk]].
  destruct (Hstep (rm_body _ (st_room _ _ Hx)) (st_body_line _ _ Hx)) as (Hb & -> & _ & Hpos).
  split; [split; try done; apply (fb_wf _ _ _ _ _ Hb) | by rewrite Hq | exact Hb | rewrite Hs; exact Bs
    | exists []; by rewrite app_nil_r | done |].
  split; [by rewrite Hq | split; [exact Hpos |]]. rewrite Hs. apply Bk.
Qed.

Lemma step_drop_permit b c l s :
  ledger_step (mk_ledger 1 0 b c l) s (on_gateway drop_permit s) (mk_ledger 0 0 b c l).
Proof. apply (step_queue _ _ (release_permit (app_queue s.1))); try done. apply release_permit_step. Qed.
Lemma step_drop_body a q c l s :
  ledger_step (mk_ledger a q 1 c l) s (on_gateway drop_body_permit s) (mk_ledger a q 0 c l).
Proof. apply (step_body _ _ (budget_release (app_body_budget s.1))); try done. by apply (budget_release_step 0). Qed.
Lemma step_drop_slot a q b l s :
  ledger_step (mk_ledger a q b 1 l) s (on_gateway drop_stream_slot s) (mk_ledger a q b 0 l).
Proof.
  intros Hx. destruct (balance_refl _ s.1 Hx) as [[? ? Hi Hf] ? ? ? _ ? (? & ? & ?)].
  destruct (sem_release_idle 1 _ Hi) as (Hi' & Ha & _). unfold streams_left in *. simpl in *.
  split; simpl; try done; [split; simpl; try done; unfold streams_left; simpl; lia | unfold streams_left; simpl; lia
    | exists []; by rewrite app_nil_r].
Qed.
Lemma step_take_slot a q b l sl s :
  sem_try_acquire 1 (app_stream_slots s.1) = Some sl ->
  ledger_step (mk_ledger a q b 0 l) s (on_gateway (with_slots sl) s) (mk_ledger a q b 1 l).
Proof.
  intros Hsl Hx. destruct (balance_refl _ s.1 Hx) as [[? ? Hi Hf] ? ? ? _ ? (? & ? & ?)].
  destruct (sem_try_idle _ _ _ Hsl Hi) as (Hi' & Ha & Hle & _). unfold streams_left in *. simpl in *.
  split; simpl; try done; [split; simpl; try done; unfold streams_left; simpl; lia | unfold streams_left; simpl; lia
    | exists []; by rewrite app_nil_r].
Qed.

(** *** The protocol *)

(** A drop gives back what is held, up to [a] admission permits, [b] body permits
    and [c] stream slots of guards further out, and leaves no record. *)
Definition drops (a b c : Z) (x : ledger) s s' : Prop := ledger_step x s s' (mk_ledger a 0 b c []).

(** A request waits in the line for admission, or, admitted, for the body budget. *)
Definition waits_in_queue (x : ledger) s : Prop :=
  lg_admission x = 0 /\ lg_body x = 0 /\ lg_body_ticket x = None
  /\ exists t, lg_ticket x = Some t /\ sem_poll t (aq_concurrency (app_queue s.1)) = None.
Definition waits_for_budget (x : ledger) s : Prop :=
  lg_body x = 0 /\ lg_ticket x = None /\ exists t, lg_body_ticket x = Some t /\ sem_poll t (bb_sem (app_body_budget s.1)) = None.

Definition ledger_protocol (a b c : Z) : protocol shared ledger :=
  mk_protocol (fun _ => True) ledger_step (drops a b c)
    (fun x s => waits_in_queue x s \/ waits_for_budget x s) True.

(** How a task ends: holding this much, its record written. *)
Definition ends (a q b c : Z) (y : ledger) (resp : Response) : Prop :=
  exists r, y = mk_ledger a q b c [r] /\ audited resp r.

Lemma follows_record {B} P0 a q b c l r (Q : ledger -> B -> Prop) k :
  keeps P0 = (fun _ => True) -> step_ok P0 = ledger_step ->
  follows P0 Q (mk_ledger a q b c (l ++ [r])) (k ()) ->
  follows P0 Q (mk_ledger a q b c l) (modify (record r) ≫= k).
Proof.
  intros Hk Hs Hrest. apply follows_changes. rewrite Hk, Hs. intros s _. split; [done |]. eexists. split; [| exact Hrest].
  apply step_record.
Qed.

Lemma follows_gets {A B} P0 x (f : gateway -> A) (Q : ledger -> B -> Prop) k :
  step_ok P0 = ledger_step -> (forall v, follows P0 Q x (k v)) -> follows P0 Q x (gets f ≫= k).
Proof. intros Hs Hk. apply follows_asks. intros s _. exists x. rewrite Hs. split; [apply step_refl | apply Hk]. Qed.

(** The guards. *)
Lemma follows_guard {A} (Q Q' : ledger -> A -> Prop) release (a b c a' b' c' : Z) t x :
  (forall l s, ledger_step (mk_ledger a 0 b c l) s (release s) (mk_ledger a' 0 b' c' l)) ->
  follows (ledger_protocol a b c) Q x t ->
  (forall y v, Q y v -> exists l, y = mk_ledger a 0 b c l /\ Q' (mk_ledger a' 0 b' c' l) v) ->
  follows (ledger_protocol a' b' c') Q' x (holding release t).
Proof.
  intros Hrel Ht Hq. eapply (follows_holding (ledger_protocol a b c) (drops a' b' c')); [| | exact Ht].
  - intros y s s' _ Hd. split; [done |]. by eapply ledger_step_trans; [exact Hd | apply Hrel | |].
  - intros y v s _ Hy. split; [done |]. destruct (Hq y v Hy) as (l & -> & HQ). eexists. split; [apply Hrel | exact HQ].
Qed.

Lemma follows_permit {A} (Q Q' : ledger -> A -> Prop) t x :
  follows (ledger_protocol 1 0 0) Q x t ->
  (forall y v, Q y v -> exists l, y = mk_ledger 1 0 0 0 l /\ Q' (mk_ledger 0 0 0 0 l) v) ->
  follows (ledger_protocol 0 0 0) Q' x (holding (on_gateway drop_permit) t).
Proof. apply follows_guard. intros. apply step_drop_permit. Qed.

Lemma follows_body_permit {A} (Q Q' : ledger -> A -> Prop) t x :
  follows (ledger_protocol 1 1 0) Q x t ->
  (forall y v, Q y v -> exists l, y = mk_ledger 1 0 1 0 l /\ Q' (mk_ledger 1 0 0 0 l) v) ->
  follows (ledger_protocol 1 0 0) Q' x (holding (on_gateway drop_body_permit) t).
Proof. apply follows_guard. intros. apply step_drop_body. Qed.

Lemma follows_slot {A} (Q Q' : ledger -> A -> Prop) t x :
  follows (ledger_protocol 1 0 1) Q x t ->
  (forall y v, Q y v -> exists l, y = mk_ledger 1 0 0 1 l /\ Q' (mk_ledger 1 0 0 0 l) v) ->
  follows (ledger_protocol 1 0 0) Q' x (holding (on_gateway drop_stream_slot) t).
Proof. apply follows_guard. intros. apply step_drop_slot. Qed.

(** *** The walk through the handler *)

(** The identifiers an answer tells its client are all [id]. *)
Definition tells (id : string) (resp : Response) : Prop :=
  forall v, ("x-request-id", FromText v) ∈ rs_headers resp -> v = id.

Lemma tells_error id status message kind code : tells id (openai_error status message kind code).
Proof. intros v Hv. simpl in Hv. by apply list_elem_of_singleton in Hv. Qed.
Lemma tells_header id name v resp :
  name <> "x-request-id" \/ v = FromText id \/ (exists u, v = FromUpstream u) ->
  tells id resp -> tells id (with_header name v resp).
Proof.
  intros Hn Hr u Hu. simpl in Hu. unfold header_insert in Hu. apply elem_of_app in Hu as [Hu | Hu].
  - apply list_elem_of_filter in Hu as [_ Hu]. by apply Hr.
  - apply list_elem_of_singleton in Hu. injection Hu as <- <-. destruct Hn as [? | [[= ->] | [? [=]]]]; done.
Qed.
Lemma tells_unavailable id o : tells id (service_unavailable o).
Proof. destruct o; [apply tells_header; [by left |] |]; apply tells_error. Qed.
Lemma tells_rate_limited id n : tells id (rate_limited n).
Proof. apply tells_header; [by left | apply tells_error]. Qed.

Lemma reject_follows a0 b0 c0 a q b c env id status audit resp :
  rs_status resp = status -> tells id resp ->
  follows (ledger_protocol a0 b0 c0) (ends a q b c) (mk_ledger a q b c []) (reject env id status audit resp).
Proof.
  intros Hs Ht. unfold reject. apply follows_record; [done.. |]. eexists. split; [done |]. by split.
Qed.

Lemma consumed_follows a0 b0 c0 a q b c env consumed id model fp audit :
  follows (ledger_protocol a0 b0 c0) (ends a q b c) (mk_ledger a q b c [])
    (finalize_consumed_error env consumed id model fp audit).
Proof.
  unfold finalize_consumed_error. apply follows_record; [done.. |].
  destruct (if cr_status consumed =? 429 then _ else _) as [[message ty] code].
  eexists. split; [done |]. set (base := with_header _ _ _).
  assert (tells id base) as Hb by (apply tells_header; [by right; left | apply tells_error]).
  destruct (cr_status consumed =? 429); [| by split].
  destruct (list_find _ _) as [[i [n v]] |]; [| by split]. split; [done |].
  apply tells_header; [right; right; by eexists | done].
Qed.

Lemma settle_follows a0 b0 c0 a q b c env status sel id model fp audit o m parser now :
  follows (ledger_protocol a0 b0 c0)
    (fun y _ => exists r, y = mk_ledger a q b c [r] /\ ar_status r = status /\ ar_request_id r = id)
    (mk_ledger a q b c []) (settle_stream env status sel id model fp audit o m parser now).
Proof.
  unfold settle_stream.
  eapply (follows_bind _ (fun y _ => y = mk_ledger a q b c [])).
  - assert (forall f, follows (ledger_protocol a0 b0 c0) (fun y _ => y = mk_ledger a q b c []) (mk_ledger a q b c []) (report f)) as Hrep.
    { intros f. apply follows_last, follows_act_or_panic. intros s _. destruct (f _) as [p |]; [| done]. simpl.
      split; [done |]. eexists. split; [apply step_pool | done]. }
    destruct sel as [sel |]; [| done]. by destruct o.
  - intros y [] ->. apply follows_last, follows_record; [done.. |]. by eexists.
Qed.

Lemma stream_follows a0 b0 c0 a q b c env prepared sel id model fp parser audit start :
  follows (ledger_protocol a0 b0 c0) (ends a q b c) (mk_ledger a q b c [])
    (stream_response env prepared sel id model fp parser audit start).
Proof.
  unfold stream_response. apply follows_gets; [done.. |]. intros io. cbv zeta.
  destruct (pump_upstream _ _ _ _ _) as [pumped |]; [| by split].
  destruct (if en_client_gone env then _ else _) as [[o m] p].
  eapply follows_bind; [by apply settle_follows |]. intros y [] (r & -> & Hs & Hid).
  exists r. split; [done |]. split; [done |]. intros v Hv. simpl in Hv. apply elem_of_app in Hv as [Hv | Hv].
  - apply list_elem_of_fmap in Hv as ([n u] & [=] & _).
  - apply list_elem_of_singleton in Hv. injection Hv as ->. done.
Qed.

Lemma finalize_follows env prepared sel id model fp audit start :
  follows (ledger_protocol 1 0 0) (ends 1 0 0 0) (mk_ledger 1 0 0 0 [])
    (finalize_response env prepared sel id model fp audit start).
Proof.
  unfold finalize_response. destruct (pr_streaming prepared); [| by apply stream_follows].
  apply follows_act. intros s _. split; [done |].
  destruct (sem_try_acquire 1 (app_stream_slots s.1)) as [slots |] eqn:Hs; cbn [fst snd].
  - exists (mk_ledger 1 0 0 1 []). split; [by apply step_take_slot |].
    eapply follows_slot; [by apply stream_follows |]. intros y v (r & -> & Hr). eexists. split; [done | by exists r].
  - exists (mk_ledger 1 0 0 0 []). split; [apply step_refl |].
    apply follows_record; [done.. |]. eexists. split; [done |]. split; [done | apply tells_unavailable].
Qed.

Lemma answer_follows env id model o ls :
  follows (ledger_protocol 1 0 0) (ends 1 0 0 0) (mk_ledger 1 0 0 0 []) (answer env id model o ls).
Proof.
  unfold answer. destruct o as [d | [[c fp] |] | p fp sel a].
  - apply reject_follows; [done | apply tells_rate_limited].
  - by apply consumed_follows.
  - apply reject_follows; [done | apply tells_unavailable].
  - apply finalize_follows.
Qed.

(** The attempts only touch the pool and wait for no other task. *)
Definition pool_only (x0 : ledger) : protocol (KeyPool J) ledger :=
  mk_protocol (fun _ => True) (fun x _ _ y => x = x0 /\ y = x0) (fun x _ _ => x = x0) (fun _ _ => False) True.

Lemma pool_only_looks x clock ra :
  looks_ok (pool_only x) (fun _ y => y = x) (fun _ _ => True) (fun _ _ => True) clock ra.
Proof.
  split; [| done | | | by right].
  - by intros _ y ->.
  - intros i y t p -> _ _. destruct (try_select_unused ra t p) as [[r p'] |]; [| done]. split; [done |]. by exists x.
  - intros i y p -> _. by exists x.
Qed.

Lemma step_pool_only wall (px : ProxyContext Url) model turn ls x :
  follows (pool_only x) (fun y _ => y = x) x
    (proxy_step header_from_str join parse_from_rfc2822 wall builder_error post px model turn ls).
Proof.
  unfold proxy_step. eapply (follows_bind _ (fun y _ => y = x)).
  - destruct (bool_decide _).
    + apply follows_last, follows_act_or_panic. intros p _. destruct (next_immediate _ _ _) as [[r p'] |]; [| done].
      split; [done |]. by exists x.
    + eapply follows_mono; [apply (next_follows _ _ _ _ _ _ 0%nat x (pool_only_looks x _ _)); done |]. by intros y r [-> _].
  - intros y [[sel | d |] ra] ->; [| done | done].
    apply follows_last, follows_await; [by split |]. intros p _.
    destruct (run_attempt _ _ _ _ _ _ _ _ _ _ _ _ _ _) as [[r p'] |]; [| done]. split; [done |]. by exists x.
Qed.

Lemma loop_pool_only wall (px : ProxyContext Url) model turns x fuel : forall k ls,
  follows (pool_only x) (fun y _ => y = x) x
    (proxy_loop header_from_str join parse_from_rfc2822 wall builder_error post fuel px model turns k ls).
Proof.
  induction fuel as [| fuel IH]; intros k ls; cbn [proxy_loop]; [by split |].
  eapply follows_bind; [apply step_pool_only |]. intros y [final | ls'] ->; [done | apply IH].
Qed.

(** Holding the admission and the body permit. *)
Definition with_body : ledger := mk_ledger 1 0 1 0 [].

(** How the part under the body permit ends. *)
Definition phase_ends (y : ledger) (phase : BodyPhase) : Prop :=
  match phase with
  | Answered response => ends 1 0 1 0 y response
  | BodyFailed status response => y = with_body /\ rs_status response = status /\ forall id, tells id response
  | Looped _ _ _ => y = with_body
  end.

Abbreviation serve_ := (serve header_from_str join parse_from_rfc2822 builder_error post).
Abbreviation check_ := (check_model_and_serve header_from_str join parse_from_rfc2822 builder_error post).
Abbreviation admitted_ := (admitted header_from_str join parse_from_rfc2822 builder_error post).
Abbreviation proxy := (proxy_request header_from_str join parse_from_rfc2822 builder_error post).

Lemma serve_follows env headers api model session body rt attempts audit :
  follows (ledger_protocol 1 1 0) phase_ends with_body (serve_ env headers api model session body rt attempts audit).
Proof.
  unfold serve. cbv zeta. apply follows_gets; [done |]. intros px.
  eapply follows_bind; [| intros y r Hy; exact Hy].
  eapply (follows_zoom (pool_only with_body)); [done | | | done | done | apply loop_pool_only].
  - intros x s p y _ _ [-> ->]. split; [done | apply step_pool].
  - intros x s p _ _ ->. split; [done | apply step_pool].
Qed.

Lemma check_follows env headers api id session body rt attempts audit :
  follows (ledger_protocol 1 1 0) phase_ends with_body (check_ env headers api id session body rt attempts audit).
Proof.
  unfold check_model_and_serve. cbv zeta.
  assert (follows (ledger_protocol 1 1 0) phase_ends with_body
    (response ← reject env id 400 audit invalid_model; mret (Answered response))) as Href.
  { eapply follows_bind; [by apply (reject_follows 1 1 0 1 0 1 0 env id 400); [| apply tells_error] |]. done. }
  destruct (extract_model body) as [model |]; [| done]. destruct (_ || _); [done | apply serve_follows].
Qed.

(** Nothing held. *)
Definition admission_only : ledger := mk_ledger 1 0 0 0 [].

Lemma authenticate_follows a b c x headers api :
  follows (ledger_protocol a b c) (fun y _ => y = x) x (authenticate headers api).
Proof. apply follows_gets; [done.. |]. intros rt. apply follows_gets; done. Qed.

Lemma acquire_body_follows env :
  follows (ledger_protocol 1 0 0)
    (fun y r => y = match r with Some _ => with_body | None => admission_only end) admission_only (acquire_body env).
Proof.
  apply follows_gets; [done |]. intros timeouts. set (elapses := _ <=? _).
  eapply (follows_bind _ (fun y r => y = if r is Some _ then with_body else admission_only)).
  - apply (follows_zoom_map (hold_protocol bb_sem set_budget_sem bb_permits_per_request True) (ledger_protocol 1 0 0)
      (fun x => mk_full 1 0 (hd_permits x) 0 [] None (hd_ticket x))
      (fun y r => y = mk_hold (if r is Some _ then 1 else 0) None)) with (x := mk_hold 0 None); try done.
    + intros x s b y _ _ Hs. split; [done |]. destruct x, y. by apply step_body.
    + intros x s b _ _ Hs. split; [done |]. destruct x. by apply step_body.
    + intros x s (Hx & Ht). by right.
    + by intros x [waited |] ->.
    + apply budget_acquire_follows.
  - by intros y [waited |] ->.
Qed.

Lemma read_body_follows env limit waited :
  follows (ledger_protocol 1 1 0)
    (fun y r => y = with_body
       /\ match r with Err (status, resp) => rs_status resp = status /\ forall id, tells id resp | Ok _ => True end)
    with_body (read_body env limit waited).
Proof.
  unfold read_body. cbv zeta. apply follows_last, follows_await.
  - intros s _. split; [done | apply step_refl].
  - intros s _. split; [done |]. exists with_body. split; [apply step_refl |]. split; [done |].
    pose proof (fun id => tells_unavailable id (Some 1)).
    destruct (en_collect env limit) as [[took read] |]; [| done]. destruct (_ || _); [| done].
    destruct read as [body | [|]]; [done | |]; (split; [done | intros id; apply tells_error]).
Qed.

Lemma admitted_follows env headers api id audit :
  follows (ledger_protocol 1 0 0) (ends 1 0 0 0) admission_only (admitted_ env headers api id audit).
Proof.
  unfold admitted. eapply follows_bind; [by apply authenticate_follows |].
  intros y [identity |] ->; [| by apply (reject_follows 1 0 0 1 0 0 0); [| apply tells_error]].
  apply follows_act_or_panic. intros s _. destruct (snapshot_and_request _ _) as [[rt attempts] |]; [| done].
  cbn [mbind option_bind]. split; [done |]. exists admission_only. split; [apply step_refl |].
  eapply follows_bind; [apply acquire_body_follows |].
  intros y [waited |] ->; [| by apply (reject_follows 1 0 0 1 0 0 0); [| apply tells_unavailable]].
  eapply (follows_bind _ (fun y phase => match phase with
    | Answered response => ends 1 0 0 0 y response
    | BodyFailed status response => y = admission_only /\ rs_status response = status /\ forall id, tells id response
    | Looped _ _ _ => y = admission_only end)).
  - apply (follows_body_permit phase_ends).
    + eapply follows_bind; [apply read_body_follows |]. intros y [body | [status resp]] (-> & Hr); [apply check_follows | done].
    + intros y [resp | status resp | model o ls] Hy.
      * destruct Hy as (r & -> & Hr). eexists. split; [done | by exists r].
      * destruct Hy as (-> & Hs & Ht). by exists [].
      * rewrite Hy. by exists [].
  - intros y [resp | status resp | model o ls] Hy.
    + done.
    + destruct Hy as (-> & Hs & Ht). by apply reject_follows.
    + rewrite Hy. apply answer_follows.
Qed.

Lemma acquire_permit_follows env :
  follows (ledger_protocol 0 0 0)
    (fun y r => y = match r with Ok _ => admission_only | Err _ => empty_ledger end) empty_ledger (acquire_permit env).
Proof.
  apply (follows_zoom_map (queue_protocol 0) (ledger_protocol 0 0 0)
    (fun x => mk_full (sk_permit x) (sk_slot x) 0 0 [] (sk_ticket x) None)
    (fun y r => y = mk_stake (if r is Ok _ then 1 else 0) 0 None)) with (x := no_stake); try done.
  - intros x s q y _ _ Hs. split; [done |]. destruct x, y. by apply step_queue.
  - intros x s q _ _ Hs. split; [done |]. destruct x. by apply step_queue.
  - intros x s (Hx & Ht). by left.
  - by intros x [[] | e] ->.
  - apply acquire_follows.
Qed.

(** The whole request starts with nothing and ends with nothing but its record. *)
Lemma request_follows env headers api :
  follows (ledger_protocol 0 0 0) (ends 0 0 0 0) empty_ledger (proxy env headers api).
Proof.
  unfold proxy_request. eapply follows_bind; [by apply authenticate_follows |]. intros y auth ->.
  apply follows_act. intros s _. split; [done |]. exists empty_ledger.
  split; [apply step_counter |]. cbn [fst snd].
  destruct auth as [identity |]; [| by apply (reject_follows 0 0 0 0 0 0 0); [| apply tells_error]].
  eapply follows_bind; [apply acquire_permit_follows |]. intros y [[] | e] ->.
  - eapply follows_permit; [apply admitted_follows |]. intros y v (r & -> & Hr). eexists. split; [done | by exists r].
  - by apply (reject_follows 0 0 0 0 0 0 0); [destruct e | destruct e; apply tells_unavailable].
Qed.
End Accounts.

(** ** What stands behind a forwarded answer *)

Section Authority.
Context `{SerdeJson} `{HttpHeaders} `{Sha256} `{CtEq} {Url Sem J Http Sink UsageM ModelM Error : Type}
  `{Jitter J} `{Semaphore Sem} `{AuditSink Sink}.
Context (header_from_str : string -> option HeaderValue) (join : Url -> string -> option Url)
  (parse_from_rfc2822 : string -> option Z) (builder_error : Error)
  (post : Instant -> Url -> list (string * HeaderValue) -> bytes
            -> option (Duration * result Error UpstreamResponse)).
Abbreviation gateway := (AppRuntime Url Sem J Http Sink UsageM ModelM).
Abbreviation shared := (gateway * Z)%type.
Abbreviation sees := (@seeing shared).
Implicit Types s : shared.
Implicit Types env : RequestEnv.

(** Valid credentials in two consecutive states. *)
Definition authentic headers api s s' : Prop :=
  is_Some (check_proxy_auth (app_runtime s.1) (app_runtime s'.1) headers api).

(** A complete body within the limit of the runtime, naming one of its models. *)
Definition body_allowed env (rt : RuntimeState Url) : Prop :=
  exists took body model, en_collect env (rt_max_body_bytes rt) = Some (took, Ok body)
    /\ extract_model body = Some model /\ str_len model <= MAX_MODEL_BYTES /\ model ∈ rt_models rt.

(** The states a request has seen: credentials when it arrived and again after it
    was admitted, then the snapshot its body satisfies. *)
Definition seen_authentic headers api (seen : list shared) : Prop :=
  exists s1 s1' mid s2 s2' rest, seen = [s1; s1'] ++ mid ++ [s2; s2'] ++ rest
    /\ authentic headers api s1 s1' /\ authentic headers api s2 s2'.
Definition seen_snapshot headers api (rt : RuntimeState Url) (seen : list shared) : Prop :=
  exists s1 s1' mid s2 s2' s3 rest, seen = [s1; s1'] ++ mid ++ [s2; s2'; s3] ++ rest
    /\ authentic headers api s1 s1' /\ authentic headers api s2 s2' /\ app_runtime s3.1 = rt.
Definition authorised env headers api (seen : list shared) : Prop :=
  exists s1 s1' mid s2 s2' s3 rest, seen = [s1; s1'] ++ mid ++ [s2; s2'; s3] ++ rest
    /\ authentic headers api s1 s1' /\ authentic headers api s2 s2' /\ body_allowed env (app_runtime s3.1).

Definition forwards (resp : Response) : bool := match rs_body resp with StreamedBody _ => true | _ => false end.

Lemma seen_snapshot_more headers api rt seen s :
  seen_snapshot headers api rt seen -> seen_snapshot headers api rt (seen ++ [s]).
Proof.
  intros (s1 & s1' & mid & s2 & s2' & s3 & rest & -> & Hp). exists s1, s1', mid, s2, s2', s3, (rest ++ [s]).
  split; [by rewrite <- !app_assoc | done].
Qed.
Lemma authorised_more env headers api seen s : authorised env headers api seen -> authorised env headers api (seen ++ [s]).
Proof.
  intros (s1 & s1' & mid & s2 & s2' & s3 & rest & -> & Hp). exists s1, s1', mid, s2, s2', s3, (rest ++ [s]).
  split; [by rewrite <- !app_assoc | done].
Qed.

Lemma reject_sees x env id status audit resp :
  forwards resp = false -> follows sees (fun _ a => forwards a = false) x (reject env id status audit resp).
Proof. intros Hf. apply follows_changes. intros s _. split; [done |]. by eexists. Qed.

Lemma authenticate_sees x headers api :
  follows sees (fun y r => exists s s', y = x ++ [s; s'] /\ r = check_proxy_auth (app_runtime s.1) (app_runtime s'.1) headers api)
    x (authenticate headers api).
Proof.
  apply follows_asks. intros s _. eexists. split; [done |]. apply follows_asks. intros s' _. eexists. split; [done |].
  exists s, s'. split; [by rewrite <- app_assoc | done].
Qed.

Lemma read_sees x env limit waited headers api rt :
  seen_snapshot headers api rt x ->
  follows sees (fun y r => seen_snapshot headers api rt y
      /\ match r with Ok body => exists took, en_collect env limit = Some (took, Ok body)
                    | Err (_, resp) => forwards resp = false end) x (read_body env limit waited).
Proof.
  intros Hx. apply follows_last, follows_await; [done |]. intros s _. split; [done |]. eexists. split; [done |].
  split; [by apply seen_snapshot_more |]. destruct (en_collect env limit) as [[took read] |]; [| done].
  destruct (_ || _); [| done]. destruct read as [body | [|]]; [by exists took | done | done].
Qed.

Lemma check_sees x env headers api id session body rt attempts audit took :
  seen_snapshot headers api rt x -> en_collect env (rt_max_body_bytes rt) = Some (took, Ok body) ->
  follows sees (fun y phase => match phase with
      | Answered resp | BodyFailed _ resp => forwards resp = false
      | Looped _ _ _ => authorised env headers api y end) x
    (check_model_and_serve header_from_str join parse_from_rfc2822 builder_error post env headers api id session body
       rt attempts audit).
Proof.
  intros Hx Hread. unfold check_model_and_serve. cbv zeta.
  assert (follows sees (fun y phase => match phase with
      | Answered resp | BodyFailed _ resp => forwards resp = false
      | Looped _ _ _ => authorised env headers api y end) x
    (response ← reject env id 400 audit invalid_model; mret (Answered response))) as Href.
  { eapply follows_bind; [by apply reject_sees |]. done. }
  destruct (extract_model body) as [model |] eqn:Hm; [| done].
  destruct (Z.ltb_spec MAX_MODEL_BYTES (str_len model)); [done |]. simpl orb.
  destruct (bool_decide_reflect (model ∈ rt_models rt)); [| done]. simpl negb. cbv iota.
  assert (authorised env headers api x) as Ha.
  { destruct Hx as (s1 & s1' & mid & s2 & s2' & s3 & rest & -> & H1' & H2' & Hrt).
    exists s1, s1', mid, s2, s2', s3, rest. split_and!; try done. exists took, body, model. rewrite Hrt. split_and!; done || lia. }
  unfold serve. cbv zeta. apply follows_asks. intros s _. eexists. split; [done |].
  eapply follows_bind; [apply (follows_seeing (authorised env headers api)); [by intros; apply authorised_more |]; by apply authorised_more |].
  done.
Qed.

Lemma admitted_sees x env headers api id audit s1 s1' mid :
  x = [s1; s1'] ++ mid -> authentic headers api s1 s1' ->
  follows sees (fun y resp => forwards resp = true -> authorised env headers api y) x
    (admitted header_from_str join parse_from_rfc2822 builder_error post env headers api id audit).
Proof.
  intros -> Hauth. unfold admitted.
  assert (forall y status au resp, forwards resp = false ->
    follows sees (fun y resp => forwards resp = true -> authorised env headers api y) y (reject env id status au resp)) as Hno.
  { intros y status au resp Hf. eapply follows_mono; [by apply reject_sees |]. intros z a Ha Ht. congruence. }
  eapply follows_bind; [apply authenticate_sees |]. intros y r (s2 & s2' & -> & ->).
  destruct (check_proxy_auth _ _ _ _) as [identity |] eqn:Hcheck; [| by apply Hno].
  apply follows_act_or_panic. intros s3 _. destruct (snapshot_and_request _ _) as [[rt attempts] |] eqn:Hsnap; [| done].
  unfold snapshot_and_request in Hsnap. apply bind_Some in Hsnap as (ra & _ & [= <- <-]). cbn [mbind option_bind].
  split; [done |]. eexists. split; [done |]. set (rt := app_runtime s3.1).
  set (y := (_ ++ [s3])). assert (seen_snapshot headers api rt y) as Hy.
  { exists s1, s1', mid, s2, s2', s3, []. unfold y. rewrite <- !app_assoc. split_and!; try done. by exists identity. }
  clearbody y. eapply follows_bind;
    [apply (follows_seeing (seen_snapshot headers api rt)); [intros; by apply seen_snapshot_more | exact Hy] |].
  clear y Hy. intros y [waited |] Hy; [| by apply Hno].
  eapply (follows_bind _ (fun y phase => match phase with
      | Answered resp | BodyFailed _ resp => forwards resp = false
      | Looped _ _ _ => authorised env headers api y end)).
  - eapply (follows_holding sees (fun _ _ _ => True) (fun y phase => match phase with
      | Answered resp | BodyFailed _ resp => forwards resp = false
      | Looped _ _ _ => authorised env headers api y end)); [done | |].
    + intros z phase s _ Hz. split; [done |]. eexists. split; [done |]. destruct phase; try done. by apply authorised_more.
    + eapply follows_bind; [by apply read_sees |]. intros z [body | [status resp]] [Hz Hr]; [| done].
      destruct Hr as [took Hr]. by eapply check_sees.
  - intros z [resp | status resp | model o ls] Hz; [| by apply Hno |].
    + cbn. congruence.
    + eapply follows_mono; [apply (follows_seeing (authorised env headers api)); [intros; by apply authorised_more | done] |].
      done.
Qed.

End Authority.

(** ** Every request gets its answer *)

Section Alive.
Context `{SerdeJson} `{HttpHeaders} `{Sha256} `{CtEq} {Url Sem J Http Sink UsageM ModelM Error : Type}
  `{Jitter J} `{SemaphoreLaws Sem} `{AuditSink Sink}.
Context (header_from_str : string -> option HeaderValue) (join : Url -> string -> option Url)
  (parse_from_rfc2822 : string -> option Z) (builder_error : Error)
  (post : Instant -> Url -> list (string * HeaderValue) -> bytes
            -> option (Duration * result Error UpstreamResponse)).
Abbreviation gateway := (AppRuntime Url Sem J Http Sink UsageM ModelM).
Abbreviation shared := (gateway * Z)%type.
Implicit Types g : gateway.
Implicit Types s : shared.
Implicit Types env : RequestEnv.

(** The timeouts and the pool policy of two gateways agree, and whether the body
    budget is open. *)
Record same_constants g g' : Prop := {
  sc_timeouts : app_timeouts g' = app_timeouts g;
  sc_events : app_model_event_timeouts g' = app_model_event_timeouts g;
  sc_policy : policy (app_pool g') = policy (app_pool g);
  sc_open : budget_open g' = budget_open g;
}.

#[global] Instance same_constants_preorder : PreOrder same_constants.
Proof. split; [by split | intros g1 g2 g3 [? ? ? ?] [? ? ? ?]; split; congruence]. Qed.

(** What holds of a gateway throughout: non-negative timeouts, one or two
    attempts, an open body budget, and timeouts of events and streams that stay within [first] and
    [inter]. *)
Record constants_ok (first inter : Duration) g : Prop := {
  co_header : 0 <= io_upstream_header (app_timeouts g);
  co_error : 0 <= io_upstream_error_body (app_timeouts g);
  co_write : 0 <= io_response_write (app_timeouts g);
  co_events : forall model,
    0 <= EventTimeouts.first_event_timeout (event_timeouts_for (app_model_event_timeouts g) (app_timeouts g) model) <= first
    /\ 0 <= EventTimeouts.inter_event_timeout (event_timeouts_for (app_model_event_timeouts g) (app_timeouts g) model) <= inter;
  co_attempts : 0 <= max_attempts (policy (app_pool g)) <= 2;
  co_open : budget_open g = true;
}.

(** How long a request may wait for its keys. *)
Definition key_wait (p : KeyPool J) : Duration := Z.min (wait_timeout (policy p)) MAX_COOLDOWN.

(** An environment in which time stays representable: [T] bounds what the client
    and the upstream bodies do, and every clock reading is real. *)
Record env_ok env g (first inter : Duration) (T : Instant) api : Prop := {
  eo_request : real_instant (en_request_at env);
  eo_clock : forall k, clock_ok (tn_clock (en_turns env k)) (en_request_at env + key_wait (app_pool g));
  eo_after : forall k, en_request_at env <= tn_clock (en_turns env k) 0%nat;
  eo_start : forall k, 0 <= tn_start (en_turns env k)
    /\ tn_start (en_turns env k) + io_upstream_header (app_timeouts g) + io_upstream_error_body (app_timeouts g)
         + first <= INSTANT_MAX - MAX_COOLDOWN;
  eo_url : forall url, is_Some (upstream_api_url join url api);
  eo_post : forall t u h b latency res, post t u h b = Some (latency, res) -> 0 <= latency;
  eo_bodies : forall t u h b latency resp, post t u h b = Some (latency, Ok resp) ->
    Forall (fun ti => ti.1 <= T) (ur_body resp);
  eo_client : Forall (fun o => forall t, o = Some t -> t <= T) (en_client env);
  eo_pump : 0 <= en_pump_at env <= T;
  eo_end : T + io_upstream_error_body (app_timeouts g) + inter + io_response_write (app_timeouts g)
    <= INSTANT_MAX - MAX_COOLDOWN;
}.

Lemma prepared_rest resp ev cap a now p t :
  prepare_response resp ev cap a now = (Ok p, t) -> 0 <= cap < u64_max ->
  0 <= EventTimeouts.first_event_timeout ev ->
  pr_inter_event_timeout p = EventTimeouts.inter_event_timeout ev
  /\ exists pre, ur_body resp = pre ++ pr_upstream p.
Proof.
  intros Hrun Hcap Hto. split.
  - unfold prepare_response in Hrun. destruct (negb _); [by injection Hrun as <- _ |].
    destruct (pf_result _); [| done]. by injection Hrun as <- _.
  - destruct (is_streaming (ur_headers resp)) eqn:Hs.
    + apply prepare_response_spec in Hrun as (_ & pre & rest & -> & _ & -> & _); [| done | done | done]. by exists pre.
    + unfold prepare_response in Hrun. rewrite Hs in Hrun. injection Hrun as <- _. by exists [].
Qed.

(** A request can be built from any pool. *)
Lemma request_total now (p : KeyPool J) :
  real_instant now ->
  exists ra, request now p = Some ra /\ ra_used ra = [] /\ ra_max ra = max_attempts (policy p)
    /\ ra_deadline ra = now + key_wait p.
Proof.
  intros Hnow. unfold request, request_with_model.
  set (es := entries (Pool.state p)). set (cur := cursor (Pool.state p)).
  assert (is_Some (mapM (fun off => es !! ((cur + off) mod length es)%nat) (seq 0 (length es)))) as [cands Hc].
  { apply mapM_is_Some. apply Forall_forall. intros off Hoff. apply elem_of_seq in Hoff as [_ Hoff].
    apply lookup_lt_is_Some, Nat.mod_upper_bound. lia. }
  rewrite Hc. simpl. rewrite deadline_after_real by done. simpl. eauto 10.
Qed.

(** Nothing panics while the constants are those of [g0]. *)
Definition alive (g0 : gateway) : protocol shared nat := counting (fun s => same_constants g0 s.1).

(** Operations that leave timeouts and policy as they are. *)
Lemma same_with g0 g pool (queue : AdmissionQueue Sem) (budget : BodyBudget Sem) slots (audit : Sink) :
  same_constants g0 g -> policy pool = policy (app_pool g) ->
  sem_is_closed (bb_sem budget) = sem_is_closed (bb_sem (app_body_budget g)) ->
  same_constants g0 (with_shared pool queue budget slots audit g).
Proof. intros [? ? ? Ho] Hp Hc. split; simpl; try congruence. by rewrite <- Ho; unfold budget_open; simpl; rewrite Hc. Qed.

Lemma alive_changes {A} g0 (Q : nat -> A -> Prop) x f k :
  (0 < x)%nat -> (forall s, same_constants g0 s.1 -> same_constants g0 (f s).1) ->
  follows (alive g0) Q (Nat.pred x) (k ()) -> follows (alive g0) Q x (changes f ≫= k).
Proof.
  intros Hx Hf Hk. apply follows_changes. intros s Hs. split; [by apply Hf |].
  exists (Nat.pred x). split; [simpl; lia | done].
Qed.

Lemma reject_alive g0 n x env id status audit resp :
  (n < x)%nat -> follows (alive g0) (fun y _ => (n <= y)%nat) x (reject env id status audit resp).
Proof. intros Hx. apply alive_changes; [lia | | simpl; lia]. intros s Hs. by apply same_with. Qed.

Lemma report_alive g0 n x f :
  (n < x)%nat -> (forall p, policy p = policy (app_pool g0) -> exists p', f p = Some p' /\ policy p' = policy p) ->
  follows (alive g0) (fun y _ => (n <= y)%nat) x (report f).
Proof.
  intros Hx Hf. apply follows_last, follows_act_or_panic. intros s Hs.
  destruct (Hf (app_pool s.1) (sc_policy _ _ Hs)) as (p' & -> & Hp'). cbn [mbind option_bind].
  split; [by apply same_with |]. exists (Nat.pred x). split; simpl; lia.
Qed.

Lemma settle_alive g0 n x env status sel id model fp audit o m parser now :
  (S n < x)%nat -> real_instant now ->
  follows (alive g0) (fun y _ => (n <= y)%nat) x (settle_stream env status sel id model fp audit o m parser now).
Proof.
  intros Hx Hnow. unfold settle_stream. eapply (follows_bind _ (fun y _ => (S n <= y)%nat)).
  - destruct sel as [sel |]; [| simpl; lia]. destruct o; [| | simpl; lia |]; apply report_alive; try lia; intros p Hp.
    + exists (report_success sel p). split; [done |]. apply (report_success_reported sel p).
    + destruct (report_failure_real sel Failure.Network now p Hnow) as [p' Hr]. exists p'. split; [done |].
      by eapply report_failure_policy.
    + destruct (report_liveness_real sel model now p Hnow) as [p' Hr]. exists p'. split; [done |].
      by eapply report_liveness_policy.
  - intros y [] Hy. apply follows_last, alive_changes; [lia | | simpl; lia]. intros s Hs. by apply same_with.
Qed.

Lemma stream_alive env g0 first inter T api n x prepared sel id model fp parser audit a :
  env_ok env g0 first inter T api -> constants_ok first inter g0 -> (4 + n <= x)%nat ->
  0 <= pr_inter_event_timeout prepared <= inter -> Forall (fun ti => ti.1 <= T) (pr_upstream prepared) ->
  is_sse parser = pr_streaming prepared ->
  follows (alive g0) (fun y _ => (n <= y)%nat) x (stream_response env prepared sel id model fp parser audit a).
Proof.
  intros He Hco Hx Hit Hup Hk. apply follows_asks. intros s [Htm _ _ _]. exists (Nat.pred x). split; [simpl; lia |].
  rewrite Htm. cbv beta zeta. set (plan := mk_plan _ _ _ _ _ _ _ _).
  pose proof (co_error _ _ _ Hco). pose proof (co_write _ _ _ Hco).
  destruct (pump_upstream_spec plan (pr_upstream prepared) (en_client env) parser
    (if pr_streaming prepared then pr_inter_event_timeout prepared else io_upstream_error_body (app_timeouts g0))
    (en_pump_at env)) as (r & Hr & Hat & _); [done | destruct (pr_streaming prepared); lia | done | done |].
  rewrite Hr.
  apply (pump_upstream_bound plan _ T) with (1 := eq_refl) in Hr; [| destruct (pr_streaming prepared); lia | done | done
    | apply (eo_pump _ _ _ _ _ _ He) | apply (eo_client _ _ _ _ _ _ He)].
  assert (real_instant (pu_at r)) as Hreal.
  { pose proof (eo_pump _ _ _ _ _ _ He). pose proof (eo_end _ _ _ _ _ _ He). simpl in Hr.
    split; [lia |]. destruct (pr_streaming prepared); lia. }
  destruct (if en_client_gone env then _ else _) as [[o m] p].
  eapply follows_bind; [apply (settle_alive _ n); [lia | exact Hreal] |]. done.
Qed.

(** A guard costs one operation. *)
Lemma holding_alive {A} g0 (n : nat) (Q : A -> Prop) x f (t : task shared A) :
  (forall s, same_constants g0 s.1 -> same_constants g0 (f s).1) ->
  follows (alive g0) (fun y a => (S n <= y)%nat /\ Q a) x t ->
  follows (alive g0) (fun y a => (n <= y)%nat /\ Q a) x (holding f t).
Proof. apply (holding_counting (fun s => same_constants g0 s.1)). Qed.

Lemma consumed_alive g0 n x env consumed id model fp audit :
  (n < x)%nat -> follows (alive g0) (fun y _ => (n <= y)%nat) x (finalize_consumed_error env consumed id model fp audit).
Proof.
  intros Hx. apply alive_changes; [lia | intros s Hs; by apply same_with |].
  destruct (if cr_status consumed =? 429 then _ else _) as [[message ty] code]. simpl. lia.
Qed.

(** What is known of a response that is going to be forwarded. *)
Definition ready (inter : Duration) (T : Instant) (o : FinalOutcome) : Prop :=
  match o with
  | FinalForward prepared _ _ _ =>
      0 <= pr_inter_event_timeout prepared <= inter /\ Forall (fun ti => ti.1 <= T) (pr_upstream prepared)
  | _ => True
  end.

Lemma finalize_alive env g0 first inter T api n x prepared fp' sel' start' sel id model fp audit a :
  env_ok env g0 first inter T api -> constants_ok first inter g0 -> (6 + n <= x)%nat ->
  ready inter T (FinalForward prepared fp' sel' start') ->
  follows (alive g0) (fun y _ => (n <= y)%nat) x (finalize_response env prepared sel id model fp audit a).
Proof.
  intros He Hco Hx [Hit Hup]. unfold finalize_response. destruct (pr_streaming prepared) eqn:Hs;
    [| eapply stream_alive; eauto; lia].
  apply follows_act. intros s Hk. destruct (sem_try_acquire 1 (app_stream_slots s.1)) as [slots |]; cbn [fst snd].
  - split; [by apply same_with |]. exists (5 + n)%nat. split; [simpl; lia |].
    eapply follows_mono; [apply (holding_alive g0 n (fun _ => True)) |]; [| | naive_solver].
    + intros s' Hs'. by apply same_with.
    + eapply follows_mono; [eapply (stream_alive env g0 first inter T api (S n)); eauto; lia | done].
  - split; [done |]. exists (5 + n)%nat. split; [simpl; lia |].
    apply alive_changes; [lia | intros s' Hs'; by apply same_with | simpl; lia].
Qed.

Lemma answer_alive env g0 first inter T api n x id model o ls :
  env_ok env g0 first inter T api -> constants_ok first inter g0 -> (6 + n <= x)%nat -> ready inter T o ->
  follows (alive g0) (fun y _ => (n <= y)%nat) x (answer env id model o ls).
Proof.
  intros He Hco Hx Hr. unfold answer. destruct o as [d | [[c fp] |] | p fp sel a].
  - apply reject_alive. lia.
  - apply consumed_alive. lia.
  - apply reject_alive. lia.
  - by eapply finalize_alive.
Qed.

(** The operations of the attempts when each may wait that long for its key. *)
Definition serve_operations (wait : Duration) : nat := S (3 * step_operations wait).

Lemma serve_alive env g0 first inter T api n x headers model session body rt attempts audit :
  env_ok env g0 first inter T api -> constants_ok first inter g0 ->
  ra_used attempts = [] -> 0 <= ra_max attempts <= 2 ->
  ra_deadline attempts = en_request_at env + key_wait (app_pool g0) ->
  rq_attempts audit = [] -> (serve_operations (key_wait (app_pool g0)) + n <= x)%nat ->
  follows (alive g0) (fun y phase => (n <= y)%nat /\ match phase with Looped _ o _ => ready inter T o | _ => False end) x
    (serve header_from_str join parse_from_rfc2822 builder_error post env headers api model session body rt attempts audit).
Proof.
  intros He Hco Hu Hmax Hd Ha Hx. unfold serve_operations in Hx. apply follows_asks. intros s [Htm Hmt _ _].
  exists (3 * step_operations (key_wait (app_pool g0)) + n)%nat. split; [cbn [step_ok alive counting]; lia |].
  rewrite Htm, Hmt. cbv beta. set (wait := key_wait (app_pool g0)) in *. set (px := mk_context _ _ _ _ _ _ _ _).
  pose proof (co_events _ _ _ Hco model) as [Hfirst Hinter].
  assert (px_ok join post px) as Hpx.
  { split; simpl; [apply (co_header _ _ _ Hco) | apply (co_error _ _ _ Hco) | lia
                  | apply (eo_url _ _ _ _ _ _ He) | apply (eo_post _ _ _ _ _ _ He)]. }
  assert (forall k, turn_ok px wait (ra_deadline (set_model model attempts)) (en_turns env k)) as Hturn.
  { intros k. pose proof (eo_start _ _ _ _ _ _ He k). pose proof (eo_after _ _ _ _ _ _ He k). split; simpl;
      [rewrite Hd; apply (eo_clock _ _ _ _ _ _ He) | rewrite Hd; unfold wait; lia | lia | lia]. }
  set (ra := set_model model attempts) in *. set (au := if header_contains _ _ then _ else _).
  assert (loop_inv (mk_loop ra au None)) as Hinv.
  { apply loop_start; [exact Hu | unfold au; by destruct (header_contains _ _) | exact Hmax]. }
  pose proof (loop_follows header_from_str join parse_from_rfc2822 (en_wall env) builder_error post px model
    (en_turns env) wait (policy (app_pool g0)) (proxy_fuel ra) Hpx 0 (mk_loop ra au None)
    (n + (3 - proxy_fuel ra) * step_operations wait) Hinv Hturn (start_fuel _ Hu)) as Hloop.
  assert (proxy_fuel ra <= 3)%nat as Hfuel by (unfold proxy_fuel, ra; simpl; lia).
  replace (step_operations wait * proxy_fuel ra + (n + (3 - proxy_fuel ra) * step_operations wait))%nat
    with (3 * step_operations wait + n)%nat in Hloop by nia.
  eapply (follows_bind _ (fun y (r : FinalOutcome * LoopState) => (n <= y)%nat /\ final_ok r.1 r.2
      /\ forwarded_from post px r.1)).
  - refine (follows_zoom _ _ _ _ _ _ _ _ _ _ _ _ (follows_mono _ _ _ _ _ Hloop _)); [| | | done | done |].
    + intros s' Hs'. apply (sc_policy _ _ Hs').
    + intros y s' p z Hs' Hp Hz. split; [| done]. apply same_with; [done | | done].
      rewrite Hp. symmetry. apply (sc_policy _ _ Hs').
    + intros y s' p Hs' Hp _. split; [| done]. apply same_with; [done | | done].
      rewrite Hp. symmetry. apply (sc_policy _ _ Hs').
    + intros y r [Hy ?]. split; [by etransitivity; [apply Nat.le_add_r | exact Hy] | done].
  - intros y [o ls] (Hy & _ & Hfrom). split; [lia |]. cbn [fst] in *. destruct o as [d | r | p fp sel a]; [done | done |].
    destruct (Hfrom p fp sel a eq_refl) as (t & url & hs & latency & resp & now & t' & Hpost & Hprep).
    apply prepared_rest in Hprep as [Hit [pre Hpre]]; [| by split; cbv | simpl; lia].
    apply (eo_bodies _ _ _ _ _ _ He) in Hpost. rewrite Hpre, Forall_app in Hpost.
    split; [rewrite Hit; simpl; lia | apply Hpost].
Qed.

Lemma check_alive env g0 first inter T api n x headers id session body rt attempts audit :
  env_ok env g0 first inter T api -> constants_ok first inter g0 ->
  ra_used attempts = [] -> 0 <= ra_max attempts <= 2 ->
  ra_deadline attempts = en_request_at env + key_wait (app_pool g0) ->
  rq_attempts audit = [] -> (serve_operations (key_wait (app_pool g0)) + n <= x)%nat ->
  follows (alive g0) (fun y phase => (n <= y)%nat /\ match phase with Looped _ o _ => ready inter T o | _ => True end) x
    (check_model_and_serve header_from_str join parse_from_rfc2822 builder_error post env headers api id session body
       rt attempts audit).
Proof.
  intros He Hco Hu Hmax Hd Ha Hx. unfold check_model_and_serve. cbv zeta.
  assert (follows (alive g0) (fun y phase => (n <= y)%nat /\ match phase with Looped _ o _ => ready inter T o | _ => True end) x
    (response ← reject env id 400 audit invalid_model; mret (Answered response))) as Href.
  { eapply follows_bind; [apply (reject_alive g0 n); unfold serve_operations in Hx; lia |]. done. }
  destruct (extract_model body) as [model |]; [| done]. destruct (_ || _); [done |].
  eapply follows_mono; [by eapply serve_alive |]. intros y [| |] [? ?]; done.
Qed.

Lemma authenticate_alive g0 n x headers api :
  (2 + n <= x)%nat -> follows (alive g0) (fun y _ => (n <= y)%nat) x (authenticate headers api).
Proof.
  intros Hx. apply follows_asks. intros s _. exists (1 + n)%nat. split; [simpl; lia |].
  apply follows_asks. intros s' _. exists n. split; simpl; lia.
Qed.

Lemma acquire_body_alive g0 n x env :
  budget_open g0 = true -> (3 + n <= x)%nat -> follows (alive g0) (fun y _ => (n <= y)%nat) x (acquire_body env).
Proof.
  intros Ho Hx. apply follows_asks. intros s Hs. exists (2 + n)%nat. split; [simpl; lia |].
  eapply follows_bind; [| intros y got Hy; exact Hy].
  apply (counting_zoom (fun b => sem_is_closed (bb_sem b) = false)); [| | apply budget_acquire_counts].
  - intros s' Hs'. pose proof (sc_open _ _ Hs') as Ho'. rewrite Ho in Ho'. by apply negb_true_iff in Ho'.
  - intros s' b Hs' Hb. apply same_with; [done | done |]. rewrite Hb. symmetry.
    pose proof (sc_open _ _ Hs') as Ho'. rewrite Ho in Ho'. by apply negb_true_iff in Ho'.
Qed.

Lemma read_alive g0 n x env limit waited :
  (1 + n <= x)%nat -> follows (alive g0) (fun y _ => (n <= y)%nat) x (read_body env limit waited).
Proof.
  intros Hx. apply follows_last, follows_await; [done |]. intros s Hs. split; [done |]. exists n. split; simpl; lia.
Qed.

Lemma acquire_permit_alive g0 n env :
  follows (alive g0) (fun y _ => (n <= y)%nat) (5 + n)%nat (acquire_permit env).
Proof.
  apply (counting_zoom (fun _ => True)); [done | | apply acquire_counts].
  intros s q Hs _. by apply same_with.
Qed.

Lemma admitted_alive env g0 first inter T api n x headers id audit :
  env_ok env g0 first inter T api -> constants_ok first inter g0 -> rq_attempts audit = [] ->
  (14 + serve_operations (key_wait (app_pool g0)) + n <= x)%nat ->
  follows (alive g0) (fun y _ => (n <= y)%nat) x
    (admitted header_from_str join parse_from_rfc2822 builder_error post env headers api id audit).
Proof.
  intros He Hco Ha Hx. remember (serve_operations (key_wait (app_pool g0))) as w eqn:Hw. eapply follows_bind; [apply (authenticate_alive g0 (12 + w + n)); lia |].
  intros y [identity |] Hy; [| apply reject_alive; lia].
  apply follows_act_or_panic. intros s Hs.
  destruct (request_total (en_request_at env) (app_pool s.1) (eo_request _ _ _ _ _ _ He)) as (ra & Hra & Hu & Hm & Hd).
  unfold key_wait in Hd. rewrite (sc_policy _ _ Hs) in Hm, Hd. fold (key_wait (app_pool g0)) in Hd. unfold snapshot_and_request. cbn [st_pool st_runtime]. rewrite Hra.
  cbn [mbind option_bind]. split; [done |]. exists (11 + w + n)%nat. split; [simpl; lia |].
  eapply follows_bind; [apply (acquire_body_alive g0 (8 + w + n)); [apply (co_open _ _ _ Hco) | lia] |].
  intros z [waited |] Hz; [| apply reject_alive; lia].
  eapply (follows_bind _ (fun y phase => (6 + n <= y)%nat /\ match phase with Looped _ o _ => ready inter T o | _ => True end)).
  - apply holding_alive; [intros s' Hs'; apply same_with; [done | done | apply sem_release_closed] |].
    eapply follows_bind; [apply (read_alive g0 (7 + w + n)); lia |]. intros z1 [body | [status resp]] Hz1; [| simpl; split; [lia | done]].
    eapply check_alive; [exact He | exact Hco | exact Hu | rewrite Hm; apply (co_attempts _ _ _ Hco) | exact Hd | exact Ha | lia].
  - intros z1 [resp | status resp | model o ls] [Hz1 Hr]; [simpl; lia | apply reject_alive; lia |].
    eapply answer_alive; [done | done | lia | done].
Qed.

(** No request runs more operations than this, when it may wait that long for its
    keys. *)
Definition request_operations (wait : Duration) : nat := 23 + serve_operations wait.

Lemma request_alive env g0 first inter T api headers :
  env_ok env g0 first inter T api -> constants_ok first inter g0 ->
  follows (alive g0) (fun _ _ => True) (request_operations (key_wait (app_pool g0)))
    (proxy_request header_from_str join parse_from_rfc2822 builder_error post env headers api).
Proof.
  intros He Hco. unfold proxy_request, request_operations. remember (serve_operations (key_wait (app_pool g0))) as w eqn:Hw.
  eapply follows_bind; [apply (authenticate_alive g0 (21 + w)); lia |]. intros y auth Hy. simpl in Hy.
  apply follows_act. intros s Hs. split; [done |]. exists (20 + w)%nat. split; [simpl; lia |]. cbn [fst snd].
  destruct auth as [identity |]; [| by eapply follows_mono; [apply (reject_alive g0 0); lia |]].
  eapply follows_bind; [apply (acquire_permit_alive g0 (15 + w)) |]. intros z [[] | e] Hz;
    [| by eapply follows_mono; [apply (reject_alive g0 0); lia |]].
  eapply follows_mono; [apply (holding_alive g0 0 (fun _ => True)) |]; [| | done].
  - intros s' Hs'. by apply same_with.
  - eapply follows_mono; [eapply (admitted_alive env g0 first inter T api 1); try done; lia | done].
Qed.

End Alive.

(** ** At concrete inputs *)

#[local] Existing Instance demo_sha256.
#[local] Existing Instance demo_proxy_serde.
#[local] Existing Instance demo_proxy_http.
#[local] Existing Instance demo_proxy_ct_eq.

Definition demo_end : Response * demo_shared :=
  default (invalid_model, demo_start) (answer_of (run (fun _ => id) 0 (demo_request_task demo_env) demo_start)).

Lemma demo_ran : run (fun _ => id) 0 (demo_request_task demo_env) demo_start = Goes demo_end.1 demo_end.2.
Proof. unfold demo_end. apply goes_default. vm_compute. reflexivity. Qed.

