(* ===== verification/Models.v ===== *)
(** * Model list synchronization ([src/src/models.rs])

    The bounded fetch (shared with the usage poller), the parser of the public
    model list, and the monitor's worker next to a configuration that the hot
    apply may replace at any moment.  HTTP, JSON and the timers are outside
    the repository. *)
From S2P Require Export Runtime Json.

(** ** Fetching *)

(** [enum ModelFetchError]; [UsageFetchError] has the same cases. *)
Inductive FetchError := FetchTimeout | HttpStatus | BodyTooLarge | Transport.

(** What the HTTP client hands over: the status, the announced length, the
    chunks of the body ([None] for a transport error). *)
Record FetchResponse := mk_fetch_response {
  fr_success : bool;
  fr_content_length : option Z;
  fr_chunks : list (option bytes);
}.

(** The loop over [bytes_stream]. *)
Fixpoint read_capped (limit : Z) (body : bytes) (chunks : list (option bytes)) : result FetchError bytes :=
  match chunks with
  | [] => Ok body
  | None :: _ => Err Transport
  | Some chunk :: rest =>
      if limit <? u64_saturating_add (blen body) (blen chunk) then Err BodyTooLarge
      else read_capped limit (body ++ chunk) rest
  end.

(** The body of [fetch]; [elapsed] when the ten seconds pass first, [None] when
    [send] fails. *)
Definition fetch_capped (limit : Z) (elapsed : bool) (sent : option FetchResponse)
    : result FetchError bytes :=
  if elapsed then Err FetchTimeout
  else match sent with
       | None => Err Transport
       | Some r =>
           if negb (fr_success r) then Err HttpStatus
           else if from_option (fun n => limit <? n) false (fr_content_length r) then Err BodyTooLarge
           else read_capped limit [] (fr_chunks r)
       end.

(** [HttpModelFetcher::fetch] *)
Definition model_fetch := fetch_capped (1024 * 1024).

(** ** Parsing *)

Section Parse.
Context `{SerdeJson}.

(** The loop of [parse_models]. *)
Fixpoint parse_ids (seen : gset string) (items : list Value) : option (list string) :=
  match items with
  | [] => Some []
  | item :: rest =>
      v ← json_get item "id";
      id ← json_as_str v;
      if is_blank id || (MAX_MODEL_BYTES <? str_len id) || bool_decide (id ∈ seen) then None
      else ids ← parse_ids ({[id]} ∪ seen) rest; Some (id :: ids)
  end.

(** [parse_models] *)
Definition parse_models (body : bytes) : option (list string) :=
  root ← from_slice body;
  data ← json_get root "data";
  data ← json_as_array data;
  if bool_decide (data = []) then None else parse_ids ∅ data.
End Parse.

(** ** The monitor *)

(** Where the worker of [ModelMonitor::start_with] is: about to read the
    configuration, waiting while disabled, fetching for a generation, past the
    generation check with a list to publish, sleeping, or gone. *)
Inductive WorkerPhase :=
| WTop
| WDisabled
| WFetching (generation : ModelSync.t)
| WPublishing (models : list string)
| WSleeping
| WStopped.

(** The worker with what it shares: the configuration channel and the store. *)
Record Monitor (Url J : Type) := mk_monitor {
  mm_config : ModelSync.t;
  mm_phase : WorkerPhase;
  mm_store : Store Url J;
}.
Arguments mk_monitor {Url J}.
Arguments mm_config {Url J}.
Arguments mm_phase {Url J}.
Arguments mm_store {Url J}.

Section Monitor.
Context `{SerdeJson} `{Sha256} {Url J : Type} `{Jitter J}.

(** What wakes the worker or is answered to it. *)
Inductive WorkerEvent :=
| EvRun
| EvFetched (r : result FetchError bytes)
| EvChanged
| EvTimer
| EvStop.

(** One step of the worker's loop; [None] when the event cannot happen there. *)
Definition worker_step (ev : WorkerEvent) (m : Monitor Url J) : option (Monitor Url J) :=
  let goto phase := Some (mk_monitor (mm_config m) phase (mm_store m)) in
  match mm_phase m, ev with
  | WTop, EvRun =>
      if ModelSync.enabled (mm_config m) then goto (WFetching (mm_config m)) else goto WDisabled
  | WDisabled, EvChanged => goto WTop
  | WDisabled, EvStop => goto WStopped
  | WFetching generation, EvFetched fetched =>
      if bool_decide (mm_config m = generation) then
        match fetched with
        | Ok body => match parse_models body with
                     | Some models => goto (WPublishing models)
                     | None => goto WSleeping
                     end
        | Err _ => goto WSleeping
        end
      else goto WSleeping
  | WPublishing models, EvRun =>
      Some (mk_monitor (mm_config m) WSleeping (update_models models (mm_store m)))
  | WSleeping, EvTimer => goto WTop
  | WSleeping, EvChanged => goto WTop
  | WSleeping, EvStop => goto WStopped
  | _, _ => None
  end.

(** [HttpModelFetcher::endpoint]; [None] is the [expect]. *)
Definition model_endpoint {U} (parse : string -> option U) (join : U -> string -> option U) : option U :=
  base ← parse OPENCODE_GO_BASE_URL; upstream_api_url join base Config.Models.

(** [ModelMonitor::start] once the HTTP client is built, and [start_with] *)
Definition monitor_start_with (config : ModelSync.t) (store : Store Url J) : Monitor Url J :=
  mk_monitor config WTop store.
Definition monitor_start {E} (client : result E unit) (config : ModelSync.t) (store : Store Url J)
    : result E (Monitor Url J) :=
  (fun _ => monitor_start_with config store) <$> client.

(** [ModelMonitor::shutdown] (and [drop], without the wait): the stop signal is
    there, so the worker, running on, stops at the next point where it looks;
    [fetched] answers a fetch under way. *)
Definition stopping_event (fetched : result FetchError bytes) (phase : WorkerPhase) : WorkerEvent :=
  match phase with
  | WTop | WPublishing _ => EvRun
  | WFetching _ => EvFetched fetched
  | WDisabled | WSleeping | WStopped => EvStop
  end.
Fixpoint monitor_shutdown (fuel : nat) (fetched : result FetchError bytes) (m : Monitor Url J) : option (Monitor Url J) :=
  match mm_phase m, fuel with
  | WStopped, _ => Some m
  | _, O => None
  | _, S fuel' => m' ← worker_step (stopping_event fetched (mm_phase m)) m; monitor_shutdown fuel' fetched m'
  end.

(** [ModelSyncHandle::replace] *)
Definition replace_config (config : ModelSync.t) (m : Monitor Url J) : ModelSync.t * Monitor Url J :=
  (mm_config m, mk_monitor config (mm_phase m) (mm_store m)).

(** [ModelMonitor::poll_once] *)
Definition poll_once (fetched : result FetchError bytes) (s : Store Url J) : Store Url J :=
  match fetched with
  | Err _ => s
  | Ok body => match parse_models body with Some models => update_models models s | None => s end
  end.

(** The worker, and everything else: replaced configurations, hot applies and
    updates of the store by other tasks. *)
Context (other : Store Url J -> Store Url J -> Prop).
Inductive monitor_step : Monitor Url J -> Monitor Url J -> Prop :=
| ms_worker ev m m' : worker_step ev m = Some m' -> monitor_step m m'
| ms_replace c m : monitor_step m (replace_config c m).2
| ms_other m s : other (mm_store m) s -> monitor_step m (mk_monitor (mm_config m) (mm_phase m) s).
End Monitor.

(** ** Theorems *)

(** A list the gateway may serve: no blank, oversized or repeated model. *)
Definition models_valid (models : list string) : Prop :=
  models <> [] /\ NoDup models
  /\ Forall (fun id => is_blank id = false /\ str_len id <= MAX_MODEL_BYTES) models.

Section ModelTheorems.
Context `{SerdeJson} `{Sha256} {Url J : Type} `{Jitter J}.

Lemma parse_ids_spec items : forall seen ids,
  parse_ids seen items = Some ids ->
  NoDup ids /\ (forall id, id ∈ ids -> id ∉ seen)
  /\ Forall (fun id => is_blank id = false /\ str_len id <= MAX_MODEL_BYTES) ids
  /\ Forall2 (fun item id => json_get item "id" ≫= json_as_str = Some id) items ids.
Proof.
  induction items as [| item items IH]; intros seen ids; cbn [parse_ids].
  { intros [= <-]. split_and!; [apply NoDup_nil_2 | by intros id ?%not_elem_of_nil | constructor | constructor]. }
  intros (v & Hv & (id & Hid & Hrun)%bind_Some)%bind_Some.
  destruct (is_blank id) eqn:Hb; [done |]. destruct (Z.ltb_spec MAX_MODEL_BYTES (str_len id)); [done |].
  destruct (bool_decide_reflect (id ∈ seen)) as [| Hnew]; [done |]. simpl in Hrun.
  apply bind_Some in Hrun as (ids' & Hrest & [= <-]).
  apply IH in Hrest as (Hnd & Hfresh & Hok & Hpar). split_and!.
  - apply NoDup_cons. split; [| done]. intros Hin. apply Hfresh in Hin. set_solver.
  - intros id' Hin. apply elem_of_cons in Hin as [-> | Hin]; [done |]. apply Hfresh in Hin. set_solver.
  - by constructor.
  - constructor; [by rewrite Hv | done].
Qed.

Lemma parse_models_valid body models : parse_models body = Some models -> models_valid models.
Proof.
  unfold parse_models. intros (root & _ & (v & _ & (data & _ & Hrun)%bind_Some)%bind_Some)%bind_Some.
  destruct (bool_decide_reflect (data = [])) as [| Hne]; [done |].
  apply parse_ids_spec in Hrun as (Hnd & _ & Hok & Hpar). split_and!; [| done | done].
  intros ->. by apply Forall2_nil_inv_r in Hpar.
Qed.

(** What the loop has read when it ends. *)
Lemma read_capped_spec limit chunks : forall body out,
  blen body <= limit -> 0 <= limit < u64_max -> read_capped limit body chunks = Ok out ->
  blen out <= limit /\ exists cs, chunks = Some <$> cs /\ out = body ++ concat cs.
Proof.
  induction chunks as [| [c |] chunks IH]; intros body out Hb Hl; cbn [read_capped]; [| | done].
  - intros [= <-]. split; [done |]. exists []. by rewrite app_nil_r.
  - destruct (Z.ltb_spec limit (u64_saturating_add (blen body) (blen c))) as [| Hle]; [done |].
    intros Hrun. apply IH in Hrun as [Ho (cs & -> & ->)]; [| | done].
    + split; [done |]. exists (c :: cs). simpl. by rewrite app_assoc.
    + unfold u64_saturating_add in Hle. unfold blen in *. rewrite length_app. lia.
Qed.

(** The bounded fetch: a body is accepted only within the time, from a
    successful answer all of whose chunks arrived, and then it is exactly the
    chunks in their order and within the limit, whatever length the server
    announced. *)
Theorem fetch_bounded limit elapsed sent body :
  0 <= limit < u64_max -> fetch_capped limit elapsed sent = Ok body ->
  elapsed = false /\ blen body <= limit
  /\ exists r cs, sent = Some r /\ fr_success r = true /\ fr_chunks r = Some <$> cs /\ body = concat cs.
Proof.
  intros Hl. unfold fetch_capped. destruct elapsed; [done |]. destruct sent as [r |]; [| done].
  destruct (fr_success r) eqn:Hs; [| done]. simpl. destruct (from_option _ _ _); [done |].
  intros Hrun. apply read_capped_spec in Hrun as [Hb (cs & Hcs & ->)]; [| unfold blen; simpl; lia | done].
  split_and!; [done | done | eauto 10].
Qed.

Definition models_of (m : Monitor Url J) : list string := rt_models (st_runtime (mm_store m)).

(** What a worker on its way to publish holds. *)
Definition monitor_inv (m : Monitor Url J) : Prop :=
  models_valid (models_of m) /\ match mm_phase m with WPublishing ms => models_valid ms | _ => True end.

Lemma worker_step_inv ev m m' : monitor_inv m -> worker_step ev m = Some m' -> monitor_inv m'.
Proof.
  intros [Hm Hp] Hstep. unfold worker_step in Hstep.
  destruct (mm_phase m) as [| | generation | ms | |] eqn:Hphase, ev as [| [body | e] | | |]; try done;
    repeat case_match; simplify_eq; try (by split); split; try done.
  by eapply parse_models_valid.
Qed.

(** Four steps always reach the stop, with at most one refresh on the way. *)
Lemma monitor_shutdown_ends fetched (m : Monitor Url J) :
  exists m', monitor_shutdown 4 fetched m = Some m' /\ mm_phase m' = WStopped /\ mm_config m' = mm_config m
    /\ (mm_store m' = mm_store m \/ exists models, mm_store m' = update_models models (mm_store m)).
Proof.
  destruct m as [c [| | generation | models | |] s]; try (by eexists; split_and!; try done; left);
    cbn [monitor_shutdown mm_phase stopping_event worker_step mm_config mbind option_bind];
    repeat (case_match; cbn [monitor_shutdown mm_phase stopping_event worker_step mm_config mbind option_bind] in *;
      simplify_eq; try done);
    eexists; split_and!; try done; eauto.
Qed.

(** The model list is never corrupted by synchronization: whatever the
    endpoint answers and however refreshes, replaced configurations and hot
    applies interleave, the list requests are checked against stays non-empty,
    without repetitions, blank or oversized names, as long as the hot applies
    publish such lists; and a refresh touches nothing but the list, not the
    credentials, the base URL, the limits, the aliases or the key pool. *)
Theorem model_list_stays_valid (other : Store Url J -> Store Url J -> Prop) m m' :
  (forall s s', other s s' -> models_valid (rt_models (st_runtime s'))) ->
  monitor_inv m -> rtc (monitor_step other) m m' ->
  models_valid (models_of m')
  /\ forall ev m'', worker_step ev m' = Some m'' ->
       st_pool (mm_store m'') = st_pool (mm_store m') /\ mm_config m'' = mm_config m'
       /\ exists models, st_runtime (mm_store m'') = set_models models (st_runtime (mm_store m'))
            /\ (models = models_of m' \/ mm_phase m' = WPublishing models).
Proof.
  intros Hother Hinv Hrun. assert (monitor_inv m') as [Hvalid Hphase].
  { induction Hrun as [m | m m1 m2 Hstep _ IH]; [done |]. apply IH. clear IH.
    destruct Hstep as [ev m m1 Hstep | c m | m s Hs]; [by eapply worker_step_inv | done |].
    destruct Hinv as [_ Hp]. split; [by eapply Hother | done]. }
  split; [done |]. intros ev m'' Hstep. unfold worker_step in Hstep.
  assert (forall st : RuntimeState Url, st = set_models (rt_models st) st) as Hsame by (by intros []).
  destruct (mm_phase m') as [| | generation | ms | |] eqn:Hp', ev as [| [body | e] | | |]; try done;
    repeat case_match; simplify_eq; simpl; (split_and!; [done | done |]);
    first [exists (models_of m'); split; [apply Hsame | by left] | exists ms; split; [done | by right]].
Qed.
End ModelTheorems.

(** ** At concrete inputs *)

#[local] Existing Instance demo_sha256.
#[local] Instance demo_models_serde : SerdeJson := toy_serde
  [("{l}", JObj [("data", JArr [JObj [("id", JStr "fetched")]])])].

Lemma fetch_bounded_witness :
  false = false /\ blen (as_bytes "{l}") <= 8
  /\ exists r cs, Some (mk_fetch_response true None [Some (as_bytes "{l"); Some (as_bytes "}")]) = Some r
       /\ fr_success r = true /\ fr_chunks r = Some <$> cs /\ as_bytes "{l}" = concat cs.
Proof.
  apply (fetch_bounded 8 false (Some (mk_fetch_response true None [Some (as_bytes "{l"); Some (as_bytes "}")]))).
  - split; by cbv.
  - vm_compute. reflexivity.
Defined.

Definition demo_sync (enabled : bool) : ModelSync.t := ModelSync.mk enabled (Dur.from_secs 3600).
Definition demo_static : RuntimeState unit := mk_runtime [] () 1 ∅ ["static"].
(** A worker that fetches while the list is the initial one. *)
Definition demo_fetching : Monitor unit NoJitter :=
  mk_monitor (demo_sync true) (WFetching (demo_sync true)) demo_store.
Definition demo_apply_static (s s' : Store unit NoJitter) : Prop := s' = update demo_static s.
Definition demo_checked : Monitor unit NoJitter :=
  mk_monitor (demo_sync true) (WPublishing ["fetched"]) demo_store.
Definition demo_refreshed : Monitor unit NoJitter :=
  mk_monitor (demo_sync true) WSleeping (update_models ["fetched"] demo_store).

Lemma model_list_stays_valid_witness : models_valid (models_of demo_refreshed).
Proof.
  apply (model_list_stays_valid demo_apply_static demo_fetching demo_refreshed).
  - intros s s' ->. simpl. split_and!; [done | by apply NoDup_singleton | by repeat constructor].
  - split; [| done]. split_and!; [done | by apply NoDup_singleton | by repeat constructor].
  - eapply rtc_l; [apply (ms_worker _ (EvFetched (Ok (as_bytes "{l}"))) _ demo_checked); vm_compute; reflexivity |].
    apply rtc_once. apply (ms_worker _ EvRun). vm_compute. reflexivity.
Defined.

(** The generation check and the publication are two steps.  A hot apply that
    disables synchronization and publishes the static list in between is
    overwritten by the fetched list, and the disabled worker never repairs it:
    the gateway goes on serving a list that its configuration does not name. *)
Theorem disabled_sync_still_publishes :
  exists m, rtc (monitor_step demo_apply_static) demo_fetching m
    /\ ModelSync.enabled (mm_config m) = false /\ mm_phase m = WDisabled /\ models_of m = ["fetched"].
Proof.
  exists (mk_monitor (demo_sync false) WDisabled (update_models ["fetched"] (update demo_static demo_store))).
  split; [| done].
  eapply rtc_l; [apply (ms_worker _ (EvFetched (Ok (as_bytes "{l}"))) _ demo_checked); vm_compute; reflexivity |].
  eapply rtc_l; [apply (ms_replace _ (demo_sync false)) |].
  eapply rtc_l; [by apply ms_other |].
  eapply rtc_l; [by apply (ms_worker _ EvRun) |].
  eapply rtc_l; [by apply (ms_worker _ EvTimer) |].
  apply rtc_once. by apply (ms_worker _ EvRun).
Qed.
