(* ===== verification/Reload.v ===== *)
(** * Hot reload ([src/src/hot_reload.rs], the apply callback of [src/src/main.rs])

    One wake-up of the reloader's worker: load and validate the file, refuse a
    change of a static setting, hand the hot fields to the callback, record
    the result.  The watcher, the debounce timer and the file system are
    outside; what [load] returns is an argument. *)
From S2P Require Export Models ConfigProps.

(** ** The hot fields *)

(** [struct RuntimeConfigSnapshot] *)
Record RuntimeConfigSnapshot := mk_snapshot {
  sn_gateway_keys : list GatewayKey;
  sn_keys : list Secret;
  sn_key_aliases : gmap string string;
  sn_models : list string;
  sn_model_sync : ModelSync.t;
  sn_limits : Limits.t;
  sn_key_failure_handling : KeyFailureHandling.t;
}.

(** [RuntimeConfigSnapshot::from_config] *)
Definition snapshot_from_config (cfg : Config.t) : RuntimeConfigSnapshot :=
  mk_snapshot (Config.gateway_keys cfg) (Config.keys cfg) (Config.key_aliases cfg) (Config.models cfg)
    (Config.model_sync cfg) (Config.limits cfg) (Config.key_failure_handling cfg).

(** The derived equalities of the static settings. *)
#[global] Instance SocketAddr_eq_dec : EqDecision SocketAddr.
Proof. solve_decision. Defined.
#[global] Instance Limits_eq_dec : EqDecision Limits.t.
Proof. solve_decision. Defined.
#[global] Instance KeyFailureHandling_eq_dec : EqDecision KeyFailureHandling.t.
Proof. solve_decision. Defined.
#[global] Instance AuditConfig_eq_dec : EqDecision Audit.t.
Proof. solve_decision. Defined.
#[global] Instance EventTimeouts_eq_dec : EqDecision EventTimeouts.t.
Proof. solve_decision. Defined.
#[global] Instance Server_eq_dec : EqDecision Server.t.
Proof. solve_decision. Defined.
(** The threshold is an [f64]: its equality is that of IEEE 754. *)
Definition usage_eqb (a b : Usage.t) : bool :=
  SFeqb (Usage.soft_threshold_percent a) (Usage.soft_threshold_percent b)
  && (Usage.poll_interval a =? Usage.poll_interval b).

(** [non_hot_changed] *)
Definition non_hot_changed (cfg baseline : Config.t) : bool :=
  negb (bool_decide (Config.listen cfg = Config.listen baseline))
  || negb (bool_decide (Config.limits cfg = Config.limits baseline))
  || negb (bool_decide (Config.key_failure_handling cfg = Config.key_failure_handling baseline))
  || negb (usage_eqb (Config.usage cfg) (Config.usage baseline))
  || negb (String.eqb (Config.usage_history_dir cfg) (Config.usage_history_dir baseline))
  || negb (bool_decide (Config.audit cfg = Config.audit baseline))
  || negb (bool_decide (Config.server cfg = Config.server baseline)).

(** ** Status *)

Definition APPLY_FAILED_MSG : string := "config apply failed".
Definition NEEDS_RESTART_MSG : string :=
  "config requires a restart: static settings changed; reload refused".
Definition RELOAD_FAILED_SUMMARY : string :=
  "orihsus: config reload failed; keeping the previous configuration".
Definition RELOAD_REFUSED_SUMMARY : string := "orihsus: config reload refused: a restart is required".
Definition RELOAD_APPLY_SUMMARY : string :=
  "orihsus: config apply failed; keeping the previous configuration".

(** [struct StatusState]; the load time in nanoseconds since the epoch. *)
Record StatusState := mk_status_state {
  ss_successful_reloads : Z;
  ss_failed_reloads : Z;
  ss_last_error : option string;
  ss_last_loaded_at : option Z;
  ss_needs_restart : bool;
}.
Definition status_default : StatusState := mk_status_state 0 0 None None false.

(** [StatusInner::record_success], [record_failure], [record_needs_restart];
    [+= 1] on [u64] wraps in a release build. *)
Definition record_success (now : Z) (s : StatusState) : StatusState :=
  mk_status_state (wrap64 (ss_successful_reloads s + 1)) (ss_failed_reloads s) None (Some now) false.
Definition record_failure (msg : string) (s : StatusState) : StatusState :=
  mk_status_state (ss_successful_reloads s) (wrap64 (ss_failed_reloads s + 1)) (Some msg)
    (ss_last_loaded_at s) (ss_needs_restart s).
Definition record_needs_restart (s : StatusState) : StatusState :=
  mk_status_state (ss_successful_reloads s) (wrap64 (ss_failed_reloads s + 1)) (Some NEEDS_RESTART_MSG)
    (ss_last_loaded_at s) true.

(** ** File events *)

(** The kinds of [notify::EventKind]. *)
Inductive EventKind := KindAny | KindAccess | KindCreate | KindModify | KindRemove | KindOther.

(** [is_relevant_kind] *)
Definition is_relevant_kind (kind : EventKind) : bool :=
  match kind with KindCreate | KindModify | KindRemove => true | _ => false end.

(** [event_targets] *)
Definition event_targets (kind : EventKind) (paths : list string) (target : string) : bool :=
  is_relevant_kind kind && existsb (fun p => String.eqb p target) paths.

(** ** The worker *)

(** A turn of the debounce loop: the wake-ups that arrive while it sleeps, all
    drained, and those that arrive between the drain and [is_empty]. *)
Record DebounceTurn := mk_debounce { db_during : nat; db_late : nat }.

(** The debounce loop of [worker]: how long after the first wake-up the file is
    read; [None] while the turns given never find the channel empty. *)
Fixpoint debounce_loop (debounce : Duration) (turns : list DebounceTurn) : option Duration :=
  match turns with
  | [] => None
  | turn :: rest =>
      if Nat.eqb (db_late turn) 0 then Some debounce
      else Z.add debounce <$> debounce_loop debounce rest
  end.

Section Worker.
Context {Target IoError : Type} (show : IoError -> string)
  (apply : RuntimeConfigSnapshot -> Target -> bool * Target).

(** The body of the loop of [worker] after the debounce: the target, the status
    and the standard error afterwards. *)
Definition reload_once (loaded : result (ErrorKind IoError) Config.t) (now : Z) (initial : Config.t)
    (target : Target) (status : StatusState) (stderr : list string)
    : Target * StatusState * list string :=
  match loaded with
  | Err e => (target, record_failure ("cannot reload config: " +:+ display_error show e) status,
              stderr ++ [RELOAD_FAILED_SUMMARY])
  | Ok cfg =>
      if non_hot_changed cfg initial
      then (target, record_needs_restart status, stderr ++ [RELOAD_REFUSED_SUMMARY])
      else
        match apply (snapshot_from_config cfg) target with
        | (true, target) => (target, record_success now status, stderr)
        | (false, target) => (target, record_failure APPLY_FAILED_MSG status, stderr ++ [RELOAD_APPLY_SUMMARY])
        end
  end.
End Worker.

(** ** The apply callback of [run] *)

(** What the callback writes to: the model monitor with the runtime store, and
    the keys of the usage monitor. *)
Record Live (Url J : Type) := mk_live { lv_monitor : Monitor Url J; lv_usage_keys : list Secret }.
Arguments mk_live {Url J}.
Arguments lv_monitor {Url J}.
Arguments lv_usage_keys {Url J}.

Section Apply.
Context `{Sha256} {Url J : Type} `{Jitter J} (base_url : Url).

(** The closure given to [HotReloader::start], for the parsed built-in URL; the
    flag is [Ok] or [Err(ApplyError)]. *)
Definition apply_snapshot (snap : RuntimeConfigSnapshot) (lv : Live Url J) : bool * Live Url J :=
  let '(previous_model_sync, m) := replace_config (sn_model_sync snap) (lv_monitor lv) in
  let models := if ModelSync.enabled (sn_model_sync snap)
                then rt_models (snapshot (mm_store m)) else sn_models snap in
  match update_with_keys (sn_keys snap)
          (mk_runtime (sn_gateway_keys snap) base_url (Limits.max_body_bytes (sn_limits snap))
             (sn_key_aliases snap) models) (mm_store m) with
  | Err _ => (false, mk_live (replace_config previous_model_sync m).2 (lv_usage_keys lv))
  | Ok store => (true, mk_live (mk_monitor (mm_config m) (mm_phase m) store) (sn_keys snap))
  end.
End Apply.

(** ** Theorems *)

(** One sleep, not a quiet window: the wake-ups of the window itself never
    extend it, so a steady burst is read in its middle. *)
Lemma debounce_is_one_sleep debounce during rest :
  debounce_loop debounce (mk_debounce during 0 :: rest) = Some debounce.
Proof. reflexivity. Qed.

Section ReloadTheorems.
Context `{Sha256} {Url J IoError : Type} `{Jitter J} (base_url : Url) (show : IoError -> string).

(** The settings a reload may not change, each equal (the threshold is a float). *)
Record static_same (cfg initial : Config.t) : Prop := {
  ss_listen : Config.listen cfg = Config.listen initial;
  ss_limits : Config.limits cfg = Config.limits initial;
  ss_key_failure : Config.key_failure_handling cfg = Config.key_failure_handling initial;
  ss_threshold : SFeqb (Usage.soft_threshold_percent (Config.usage cfg))
                   (Usage.soft_threshold_percent (Config.usage initial)) = true;
  ss_poll : Usage.poll_interval (Config.usage cfg) = Usage.poll_interval (Config.usage initial);
  ss_history : Config.usage_history_dir cfg = Config.usage_history_dir initial;
  ss_audit : Config.audit cfg = Config.audit initial;
  ss_server : Config.server cfg = Config.server initial;
}.

Lemma non_hot_unchanged cfg initial : non_hot_changed cfg initial = false <-> static_same cfg initial.
Proof.
  unfold non_hot_changed, usage_eqb.
  rewrite !orb_false_iff, !negb_false_iff, !bool_decide_eq_true, String.eqb_eq, andb_true_iff, Z.eqb_eq.
  split; [intros ((((((? & ?) & ?) & ? & ?) & ?) & ?) & ?); by split | intros []; by split_and!].
Qed.

Lemma non_hot_changed_iff cfg initial : non_hot_changed cfg initial = true <-> ~ static_same cfg initial.
Proof. rewrite <- non_hot_unchanged. by destruct (non_hot_changed cfg initial). Qed.

Lemma apply_failed (lv lv' : Live Url J) snap :
  apply_snapshot base_url snap lv = (false, lv') -> lv' = lv /\ sn_keys snap = [].
Proof.
  destruct lv as [[config phase store] keys]. unfold apply_snapshot, update_with_keys. simpl.
  destruct (replace_keys _ _) as [p |] eqn:Hr; [done |]. intros [= <-]. split; [done |].
  unfold replace_keys in Hr. by case_bool_decide.
Qed.

Lemma apply_done (lv lv' : Live Url J) snap :
  apply_snapshot base_url snap lv = (true, lv') ->
  sn_keys snap <> [] /\ mm_config (lv_monitor lv') = sn_model_sync snap /\ lv_usage_keys lv' = sn_keys snap
  /\ ke_key <$> entries (state_of_pool (mm_store (lv_monitor lv'))) = sn_keys snap
  /\ st_runtime (mm_store (lv_monitor lv')) =
       mk_runtime (sn_gateway_keys snap) base_url (Limits.max_body_bytes (sn_limits snap)) (sn_key_aliases snap)
         (if ModelSync.enabled (sn_model_sync snap) then rt_models (st_runtime (mm_store (lv_monitor lv)))
          else sn_models snap).
Proof.
  destruct lv as [[config phase store] keys]. unfold apply_snapshot, update_with_keys. simpl.
  destruct (replace_keys _ _) as [p |] eqn:Hr; [| done]. intros [= <-]. simpl.
  split_and!; [| done | done | by eapply replace_keys_keys | done].
  intros Heq. rewrite Heq in Hr. done.
Qed.

(** C32. A reload keeps the last good configuration: every wake-up counts as one
    success or one failure.  On a failure (an unreadable or invalid file, a
    changed static setting, a refused key set) the runtime, the key pool, the
    model synchronization and the usage poller are exactly what they were,
    one static line is printed and the reason is recorded; a changed static
    setting, and nothing else, asks for a restart.  On a success nothing is
    printed, no static setting (the listener's address, limits, failure policy,
    usage polling and its history, audit, server) differs from the configuration
    the process started with, and every hot field is the one of the file. *)
Theorem reload_keeps_last_good loaded now initial (lv lv' : Live Url J) st st' err err' :
  0 <= ss_successful_reloads st < u64_max -> 0 <= ss_failed_reloads st < u64_max ->
  reload_once show (apply_snapshot base_url) loaded now initial lv st err = (lv', st', err') ->
  (lv' = lv /\ ss_failed_reloads st' = ss_failed_reloads st + 1
     /\ ss_successful_reloads st' = ss_successful_reloads st /\ is_Some (ss_last_error st')
     /\ ss_last_loaded_at st' = ss_last_loaded_at st
     /\ (exists line, err' = err ++ [line]
           /\ line ∈ [RELOAD_FAILED_SUMMARY; RELOAD_REFUSED_SUMMARY; RELOAD_APPLY_SUMMARY])
     /\ (ss_needs_restart st' = true -> ss_needs_restart st = true \/
          exists cfg, loaded = Ok cfg /\ ~ static_same cfg initial)
     /\ (forall cfg, loaded = Ok cfg -> ~ static_same cfg initial -> ss_needs_restart st' = true))
  \/ (exists cfg, loaded = Ok cfg /\ err' = err
       /\ ss_successful_reloads st' = ss_successful_reloads st + 1
       /\ ss_failed_reloads st' = ss_failed_reloads st
       /\ ss_last_error st' = None /\ ss_needs_restart st' = false /\ ss_last_loaded_at st' = Some now
       /\ static_same cfg initial
       /\ mm_config (lv_monitor lv') = Config.model_sync cfg /\ lv_usage_keys lv' = Config.keys cfg
       /\ ke_key <$> entries (state_of_pool (mm_store (lv_monitor lv'))) = Config.keys cfg
       /\ rt_gateway_keys (st_runtime (mm_store (lv_monitor lv'))) = Config.gateway_keys cfg
       /\ rt_key_aliases (st_runtime (mm_store (lv_monitor lv'))) = Config.key_aliases cfg
       /\ rt_max_body_bytes (st_runtime (mm_store (lv_monitor lv'))) = Limits.max_body_bytes (Config.limits initial)
       /\ (ModelSync.enabled (Config.model_sync cfg) = false ->
             rt_models (st_runtime (mm_store (lv_monitor lv'))) = Config.models cfg)).
Proof.
  intros Hs Hf. unfold reload_once. destruct loaded as [cfg | e].
  2:{ intros [= <- <- <-]. left. simpl. rewrite wrap64_small by lia.
    split_and!; try done; try (by eexists); try (by left). eexists. split; [done | set_solver]. }
  destruct (non_hot_changed cfg initial) eqn:Hn.
  { apply non_hot_changed_iff in Hn. intros [= <- <- <-]. left. simpl. rewrite wrap64_small by lia.
    split_and!; try done; try (by eexists); try (right; by eauto). eexists. split; [done | set_solver]. }
  apply non_hot_unchanged in Hn. pose proof (ss_limits _ _ Hn) as Hlim.
  destruct (apply_snapshot _ _ _) as [[|] lv1] eqn:Happ; intros [= <- <- <-].
  - right. exists cfg. apply apply_done in Happ as (_ & Hms & Huk & Hpk & Hrt). rewrite Hrt. simpl in *.
    rewrite wrap64_small, Hlim by lia. split_and!; try done. by intros ->.
  - left. apply apply_failed in Happ as [-> _]. simpl. rewrite wrap64_small by lia.
    split_and!; try done; try (by eexists); try (by left); [eexists; split; [done | set_solver] |].
    by intros cfg' [= <-].
Qed.
End ReloadTheorems.

(** ** At concrete inputs *)

#[local] Existing Instance demo_sha256.

Definition demo_live : Live unit NoJitter := mk_live (mk_monitor (demo_sync true) WSleeping demo_store) [].
Definition demo_reload : Live unit NoJitter * StatusState * list string :=
  reload_once (fun e : unit => "") (apply_snapshot tt) (Ok demo_config) 7 demo_config demo_live status_default [].

Lemma triple_eta {A B C} (x : A * B * C) : x = (x.1.1, x.1.2, x.2).
Proof. by destruct x as [[a b] c]. Qed.

Lemma reload_keeps_last_good_witness :
  exists cfg, Ok (E := ErrorKind unit) demo_config = Ok cfg /\ ss_successful_reloads demo_reload.1.2 = 0 + 1
    /\ static_same cfg demo_config
    /\ rt_gateway_keys (st_runtime (mm_store (lv_monitor demo_reload.1.1))) = Config.gateway_keys cfg.
Proof.
  assert (ss_failed_reloads demo_reload.1.2 <> 0 + 1) as Hno by (vm_compute; discriminate).
  destruct (reload_keeps_last_good tt (fun e : unit => "") (Ok demo_config) 7 demo_config demo_live
    demo_reload.1.1 status_default demo_reload.1.2 [] demo_reload.2 ltac:(cbv; split; done) ltac:(cbv; split; done)
    (triple_eta demo_reload))
    as [(_ & Hf & _) | (cfg & Hl & _ & Hs & _ & _ & _ & _ & Hsame & _ & _ & _ & Hgk & _)].
  - destruct (Hno Hf).
  - exists cfg. split; [exact Hl | split; [exact Hs | split; [exact Hsame | exact Hgk]]].
Defined.

(** The configuration with another body limit. *)
Definition demo_larger_bodies : Config.t :=
  match demo_config with
  | Config.mk li gk ks ka mo ms lim kf us uh au se =>
      Config.mk li gk ks ka mo ms
        (Limits.mk (Limits.max_concurrency lim) (Limits.max_queue lim) (Limits.queue_wait_timeout lim)
           (Limits.max_body_bytes lim + 1) (Limits.max_inflight_body_bytes lim)) kf us uh au se
  end.

(** The body limit is published with the hot fields, but a change of it is a
    change of [limits] and refused. *)
Theorem body_limit_is_not_hot :
  non_hot_changed demo_larger_bodies demo_config = true
  /\ sn_limits (snapshot_from_config demo_larger_bodies) <> Config.limits demo_config.
Proof. split; [vm_compute; reflexivity |]. intros Heq. apply (f_equal Limits.max_body_bytes) in Heq. vm_compute in Heq. discriminate. Qed.
