(* ===== verification/Reloader.v ===== *)
(** * The reloader as a running system ([src/src/hot_reload.rs])

    The watcher thread, the bridge channel with its sixteen places, the trigger
    of SIGHUP and the worker with its debounce, as a step relation.  The file
    changes under it at any time.  What it guarantees: a change of the file is
    never lost, and once the outside is quiet the worker comes to rest having
    read the last version. *)
From S2P Require Export Reload.

(** ** The channel *)

(** [EVENT_BUFFER] and [ReloadTrigger::fire] ([try_send] on the bridge): a
    wake-up in the worker's channel, or nothing when it is full. *)
Definition EVENT_BUFFER : nat := 16.
Definition fire (pending : nat) : nat := if (pending <? EVENT_BUFFER)%nat then S pending else pending.

Section Reloader.
Context {Target IoError NotifyError : Type} (show : IoError -> string).
Context (apply : RuntimeConfigSnapshot -> Target -> bool * Target).

(** [enum HotReloadError] and its [Display] *)
Inductive HotReloadError := Watch (path : string) (source : NotifyError) | ThreadSpawn (e : IoError).
Definition display_hot_reload_error (show_notify : NotifyError -> string) (e : HotReloadError) : string :=
  match e with
  | Watch path source => "cannot watch config directory " +:+ path +:+ ": " +:+ show_notify source
  | ThreadSpawn e => "cannot spawn config watcher thread: " +:+ show e
  end.

(** What the watcher's channel carries: an error of the watcher, or an event. *)
Definition NotifyEvent : Type := option (EventKind * list string).

(** Where the worker is: in [recv], asleep in the debounce, between its drain
    and [is_empty], about to read the file, with the file read, or aborted. *)
Inductive Phase :=
| Receiving
| Debouncing
| Drained
| Loading
| Applying (loaded : result (ErrorKind IoError) Config.t)
| Aborted.

Record HotReloader := mk_reloader {
  hr_events : list NotifyEvent;
  hr_pending : nat;
  hr_phase : Phase;
  hr_target : Target;
  hr_status : StatusState;
  hr_stderr : list string;
}.

(** [build_watcher], after the three calls that can fail. *)
Definition build_watcher (parent : string) (create watch : result NotifyError unit)
    (spawn : result IoError unit) : result HotReloadError unit :=
  map_err (Watch parent) create ;;
  map_err (Watch parent) watch ;;
  map_err ThreadSpawn spawn.

(** [HotReloader::start]; [None] is the [assert!]. *)
Definition start (debounce : Duration) (parent : option string) (create watch : result NotifyError unit)
    (spawn : result IoError unit) (target : Target) : option (result HotReloadError HotReloader) :=
  if Dur.is_zero debounce then None
  else
    let parent := match parent with Some p => if str_is_empty p then "." else p | None => "." end in
    Some ((fun _ => mk_reloader [] 0 Receiving target status_default []) <$> build_watcher parent create watch spawn).

(** [HotReloader::status] *)
Definition reloader_status (r : HotReloader) : StatusState := r.(hr_status).

(** [HotReloader::drop] (and [shutdown]): the worker is aborted, the watcher
    dropped and its thread joined once the channel is closed. *)
Definition drop_reloader (r : HotReloader) : HotReloader :=
  mk_reloader [] r.(hr_pending) Aborted r.(hr_target) r.(hr_status) r.(hr_stderr).

(** The body of the loop of the watcher thread. *)
Definition watcher_turn (config_path : string) (event : NotifyEvent) (pending : nat) : nat :=
  match event with
  | None => pending
  | Some (kind, paths) => if event_targets kind paths config_path then fire pending else pending
  end.

(** ** The system *)

Context (config_path : string) (initial : Config.t).

(** The reloader, the file as [config::load] would find it, how often the file
    has changed, and which of these versions was read last. *)
Record System := mk_system {
  sy_reloader : HotReloader;
  sy_disk : result (ErrorKind IoError) Config.t;
  sy_version : nat;
  sy_read : nat;
}.

Definition with_reloader (s : System) (r : HotReloader) : System :=
  mk_system r s.(sy_disk) s.(sy_version) s.(sy_read).
Definition set_pending (n : nat) (p : Phase) (r : HotReloader) : HotReloader :=
  mk_reloader r.(hr_events) n p r.(hr_target) r.(hr_status) r.(hr_stderr).

(** What the watcher library says of a change of the watched file, by its documented
    event kinds: data or metadata written in place and a rename (to the file, from
    it, or both ends in one event) are modifications, the rest is a creation or a
    removal; the paths are those the change concerns. *)
Inductive reported : EventKind -> list string -> Prop :=
| rep_modified : reported KindModify [config_path]
| rep_created : reported KindCreate [config_path]
| rep_removed : reported KindRemove [config_path]
| rep_renamed_onto source : reported KindModify [source; config_path]
| rep_renamed_away target : reported KindModify [config_path; target].

(** What the outside does.  Every change of the watched file is reported with one of
    these events; anything else may be reported too.  Other tasks write to the
    target. *)
Inductive outside : System -> System -> Prop :=
| out_edit s disk kind paths :
    reported kind paths -> s.(sy_reloader).(hr_phase) <> Aborted ->
    outside s (mk_system
      (mk_reloader (s.(sy_reloader).(hr_events) ++ [Some (kind, paths)]) s.(sy_reloader).(hr_pending)
        s.(sy_reloader).(hr_phase) s.(sy_reloader).(hr_target) s.(sy_reloader).(hr_status) s.(sy_reloader).(hr_stderr))
      disk (S s.(sy_version)) s.(sy_read))
| out_noise s event :
    s.(sy_reloader).(hr_phase) <> Aborted ->
    outside s (with_reloader s
      (mk_reloader (s.(sy_reloader).(hr_events) ++ [event]) s.(sy_reloader).(hr_pending)
        s.(sy_reloader).(hr_phase) s.(sy_reloader).(hr_target) s.(sy_reloader).(hr_status) s.(sy_reloader).(hr_stderr)))
| out_fire s :
    outside s (with_reloader s
      (set_pending (fire s.(sy_reloader).(hr_pending)) s.(sy_reloader).(hr_phase) s.(sy_reloader)))
| out_target s target :
    outside s (with_reloader s
      (mk_reloader s.(sy_reloader).(hr_events) s.(sy_reloader).(hr_pending) s.(sy_reloader).(hr_phase) target
        s.(sy_reloader).(hr_status) s.(sy_reloader).(hr_stderr)))
| out_drop s : outside s (with_reloader s (drop_reloader s.(sy_reloader))).

(** The next step of the watcher thread. *)
Definition watcher_step (s : System) : option System :=
  let r := s.(sy_reloader) in
  match r.(hr_events) with
  | [] => None
  | event :: rest =>
      Some (with_reloader s
        (mk_reloader rest (watcher_turn config_path event r.(hr_pending)) r.(hr_phase) r.(hr_target)
          r.(hr_status) r.(hr_stderr)))
  end.

(** The next step of the worker; [now] is the time of a successful load. *)
Definition worker_step (now : Z) (s : System) : option System :=
  let r := s.(sy_reloader) in
  match r.(hr_phase) with
  | Receiving =>
      match r.(hr_pending) with
      | O => None
      | S n => Some (with_reloader s (set_pending n Debouncing r))
      end
  | Debouncing => Some (with_reloader s (set_pending 0 Drained r))
  | Drained =>
      Some (with_reloader s
        (set_pending r.(hr_pending) (if Nat.eqb r.(hr_pending) 0 then Loading else Debouncing) r))
  | Loading =>
      Some (mk_system (set_pending r.(hr_pending) (Applying s.(sy_disk)) r) s.(sy_disk) s.(sy_version) s.(sy_version))
  | Applying loaded =>
      let '(target, status, stderr) :=
        reload_once show apply loaded now initial r.(hr_target) r.(hr_status) r.(hr_stderr) in
      Some (with_reloader s (mk_reloader r.(hr_events) r.(hr_pending) Receiving target status stderr))
  | Aborted => None
  end.

Inductive inside : System -> System -> Prop :=
| in_watcher s s' : watcher_step s = Some s' -> inside s s'
| in_worker now s s' : worker_step now s = Some s' -> inside s s'.

Inductive reached : System -> Prop :=
| reached_start disk target :
    reached (mk_system (mk_reloader [] 0 Receiving target status_default []) disk 0 0)
| reached_outside s s' : reached s -> outside s s' -> reached s'
| reached_inside s s' : reached s -> inside s s' -> reached s'.

(** ** No change is lost *)

Definition relevant (event : NotifyEvent) : Prop :=
  match event with Some (kind, paths) => event_targets kind paths config_path = true | None => False end.

(** A reload is still to come. *)
Definition reload_ahead (r : HotReloader) : Prop :=
  Exists relevant r.(hr_events) \/ (0 < r.(hr_pending))%nat \/
  r.(hr_phase) = Debouncing \/ r.(hr_phase) = Drained \/ r.(hr_phase) = Loading.

(** The results of the last load are those of the version it read. *)
Definition last_load (s : System) : Prop :=
  exists now before status stderr after,
    reload_once show apply s.(sy_disk) now initial before status stderr =
      (after, s.(sy_reloader).(hr_status), s.(sy_reloader).(hr_stderr)).

Record system_inv (s : System) : Prop := {
  si_bound : (s.(sy_reloader).(hr_pending) <= EVENT_BUFFER)%nat;
  si_read : (s.(sy_read) <= s.(sy_version))%nat;
  si_ahead : s.(sy_reloader).(hr_phase) <> Aborted -> (s.(sy_read) < s.(sy_version))%nat ->
             reload_ahead s.(sy_reloader);
  si_current : (0 < s.(sy_read))%nat -> s.(sy_read) = s.(sy_version) ->
               match s.(sy_reloader).(hr_phase) with
               | Applying loaded => loaded = s.(sy_disk)
               | Aborted => True
               | _ => last_load s
               end;
}.

Lemma fire_bound n : (n <= EVENT_BUFFER)%nat -> (0 < fire n <= EVENT_BUFFER)%nat.
Proof. unfold fire, EVENT_BUFFER. destruct (Nat.ltb_spec n 16); lia. Qed.

Lemma watcher_turn_bound event n : (n <= EVENT_BUFFER)%nat -> (n <= watcher_turn config_path event n <= EVENT_BUFFER)%nat.
Proof.
  intros Hn. unfold watcher_turn, fire. destruct event as [[kind paths] |]; [| lia].
  destruct (event_targets _ _ _); [| lia]. unfold EVENT_BUFFER in *. destruct (Nat.ltb_spec n 16); lia.
Qed.

(** Every change gets through the filter of the watcher thread. *)
Lemma reported_relevant kind paths : reported kind paths -> relevant (Some (kind, paths)).
Proof. destruct 1; simpl; unfold event_targets; simpl; by rewrite ?String.eqb_refl, ?orb_true_r. Qed.

Lemma outside_inv s s' : system_inv s -> outside s s' -> system_inv s'.
Proof.
  intros [Hb Hr Ha Hc] Hstep. destruct Hstep as [s disk kind paths Hev Hph | s event Hph | s | s target | s];
    unfold with_reloader, set_pending, drop_reloader, last_load, reload_ahead in *;
    constructor; cbn [sy_reloader sy_disk sy_version sy_read hr_events hr_pending hr_phase hr_target hr_status
      hr_stderr] in *; try done; try lia.
  - intros _ _. left. apply Exists_app. right. constructor. by apply reported_relevant.
  - intros Hp Hv. destruct (Ha Hp Hv) as [He | H]; [left; apply Exists_app; by left | by right].
  - by apply fire_bound.
  - intros _ _. right. left. by apply fire_bound.
Qed.

Lemma watcher_inv s s' : system_inv s -> watcher_step s = Some s' -> system_inv s'.
Proof.
  intros [Hb Hr Ha Hc]. unfold watcher_step. destruct (hr_events (sy_reloader s)) as [| event rest] eqn:He; [done |].
  intros [= <-]. pose proof (watcher_turn_bound event _ Hb) as Ht.
  constructor; unfold last_load, with_reloader in *; cbn [sy_reloader sy_disk sy_version sy_read hr_events hr_pending
    hr_phase hr_status hr_stderr] in *; try done; try lia.
  intros Hp Hv. unfold reload_ahead in *. cbn [hr_events hr_pending hr_phase].
  destruct (Ha Hp Hv) as [Hex | [Hpos | Hphase]]; [| right; left; lia | by right; right].
  rewrite He in Hex. apply Exists_cons in Hex as [Hrel | Hex]; [| by left].
  right. left. destruct event as [[kind paths] |]; [| done]. simpl in Hrel. unfold watcher_turn. rewrite Hrel.
  by apply fire_bound.
Qed.

Lemma worker_inv now s s' : system_inv s -> worker_step now s = Some s' -> system_inv s'.
Proof.
  intros [Hb Hr Ha Hc]. unfold worker_step. destruct (hr_phase (sy_reloader s)) as [| | | | loaded |] eqn:Hp; try (rewrite Hp in Ha, Hc); [| | | | | done].
  - destruct (hr_pending (sy_reloader s)) as [| n] eqn:Hn; [done |]. intros [= <-].
    constructor; unfold last_load, with_reloader, set_pending, reload_ahead in *; cbn in *; try done; try lia.
    intros _ _. tauto.
  - intros [= <-].
    constructor; unfold last_load, with_reloader, set_pending, reload_ahead in *; cbn in *; try done; try lia.
    intros _ _. tauto.
  - intros [= <-].
    constructor; unfold last_load, with_reloader, set_pending, reload_ahead in *; cbn in *; try done; try lia.
    + intros _ _. destruct (Nat.eqb _ 0); tauto.
    + intros Hpos Heq. specialize (Hc Hpos Heq). by destruct (Nat.eqb _ 0).
  - intros [= <-]. constructor; cbn [sy_reloader sy_disk sy_version sy_read set_pending hr_pending hr_phase] in *; done || lia.
  - destruct (reload_once _ _ _ _ _ _ _ _) as [[target status] stderr] eqn:Hload. intros [= <-].
    constructor; unfold with_reloader, reload_ahead in *; cbn [sy_reloader sy_disk sy_version sy_read hr_events hr_pending
      hr_phase] in *; try done; try lia.
    + intros _ Hv. destruct (Ha ltac:(done) Hv) as [? | [? | [? | [? | ?]]]]; [by left | by right; left | congruence..].
    + intros Hpos Heq. unfold last_load. cbn. rewrite <- (Hc Hpos Heq).
      by exists now, (hr_target (sy_reloader s)), (hr_status (sy_reloader s)), (hr_stderr (sy_reloader s)), target.
Qed.

Lemma reached_inv s : reached s -> system_inv s.
Proof.
  induction 1 as [disk target | s s' _ IH Hout | s s' _ IH Hin].
  - constructor; cbn; try done; lia.
  - eapply outside_inv; [exact IH | exact Hout].
  - inversion Hin; subst; [by eapply watcher_inv | by eapply worker_inv].
Qed.

(** ** The worker comes to rest *)

Definition worker_cost (p : Phase) (pending : nat) : nat :=
  match p with
  | Receiving => if Nat.eqb pending 0 then 0 else 5
  | Debouncing => 4
  | Drained => if Nat.eqb pending 0 then 3 else 5
  | Loading => 2 + (if Nat.eqb pending 0 then 0 else 5)
  | Applying _ => 1 + (if Nat.eqb pending 0 then 0 else 5)
  | Aborted => 0
  end.

(** The internal steps still possible when nothing happens outside. *)
Definition cost (s : System) : nat :=
  (6 * length s.(sy_reloader).(hr_events) + worker_cost s.(sy_reloader).(hr_phase) s.(sy_reloader).(hr_pending))%nat.

Lemma inside_cost s s' : inside s s' -> (cost s' < cost s)%nat.
Proof.
  destruct 1 as [s s' Hw | now s s' Hw]; unfold cost.
  - unfold watcher_step in Hw. destruct (hr_events (sy_reloader s)) as [| event rest]; [done |].
    injection Hw as <-. cbn. unfold worker_cost. destruct (hr_phase _); repeat (destruct (Nat.eqb _ 0)); lia.
  - unfold worker_step in Hw. destruct (hr_phase (sy_reloader s)) as [| | | | loaded |] eqn:Hp; [| | | | | done].
    + destruct (hr_pending (sy_reloader s)); [done |]. injection Hw as <-. cbn. lia.
    + injection Hw as <-. cbn. lia.
    + injection Hw as <-. cbn. destruct (hr_pending (sy_reloader s)); cbn; lia.
    + injection Hw as <-. cbn. destruct (hr_pending (sy_reloader s)); cbn; lia.
    + destruct (reload_once _ _ _ _ _ _ _ _) as [[target status] stderr]. injection Hw as <-. cbn.
      destruct (hr_pending (sy_reloader s)); cbn; lia.
Qed.

(** Nothing left to do inside. *)
Definition at_rest (s : System) : Prop := forall s', ~ inside s s'.

Lemma at_rest_iff s :
  at_rest s <-> s.(sy_reloader).(hr_events) = [] /\
    (s.(sy_reloader).(hr_phase) = Aborted \/
     s.(sy_reloader).(hr_phase) = Receiving /\ s.(sy_reloader).(hr_pending) = 0%nat).
Proof.
  split.
  - intros Hrest. split.
    + destruct (hr_events (sy_reloader s)) as [| event rest] eqn:He; [done |].
      exfalso. eapply Hrest, in_watcher. unfold watcher_step. by rewrite He.
    + assert (forall now s', worker_step now s = Some s' -> False) as Hno.
      { intros now s' Hw. by eapply Hrest, in_worker. }
      unfold worker_step in Hno. destruct (hr_phase (sy_reloader s)).
      * destruct (hr_pending (sy_reloader s)); [by right | by destruct (Hno 0 _ eq_refl)].
      * by destruct (Hno 0 _ eq_refl).
      * by destruct (Hno 0 _ eq_refl).
      * by destruct (Hno 0 _ eq_refl).
      * specialize (Hno 0). destruct (reload_once _ _ _ _ _ _ _ _) as [[t st] err]. by destruct (Hno _ eq_refl).
      * by left.
  - intros [He Hp] s' Hin. inversion Hin as [? ? Hw | now ? ? Hw]; subst.
    + unfold watcher_step in Hw. by rewrite He in Hw.
    + unfold worker_step in Hw. destruct Hp as [Hp | [Hp Hn]]; rewrite Hp in Hw; [done |]. by rewrite Hn in Hw.
Qed.

(** [k] internal steps. *)
Inductive inside_steps : nat -> System -> System -> Prop :=
| inside_none s : inside_steps 0 s s
| inside_more k s s1 s2 : inside s s1 -> inside_steps k s1 s2 -> inside_steps (S k) s s2.

(** C33. No configuration change is lost.  Whatever happened so far, with changes of
    the file, other events and signals at any moment, including while the worker
    sleeps, drains its channel, or loads: when the outside is quiet the reloader
    makes at most [cost s] further steps; it stops only with an empty channel,
    waiting for the next event (or aborted); and then, if the file ever changed,
    the version on disk has been read and the status and the printed lines are
    those of its load.  The changes are reported as the watcher library documents
    them: that such reports pass the filter is part of the proof. *)
Theorem no_change_lost (s : System) (k : nat) (s' : System) :
  reached s -> inside_steps k s s' ->
  (k <= cost s)%nat /\
  (at_rest s' ->
     s'.(sy_reloader).(hr_phase) = Aborted \/
     (s'.(sy_reloader).(hr_phase) = Receiving /\ s'.(sy_reloader).(hr_pending) = 0%nat /\
      s'.(sy_read) = s'.(sy_version) /\ ((0 < s'.(sy_version))%nat -> last_load s'))).
Proof.
  intros Hreach Hsteps. assert (reached s') as Hreach'.
  { clear -Hreach Hsteps. induction Hsteps as [s | k s s1 s2 Hin _ IH]; [done |]. apply IH. by eapply reached_inside. }
  split.
  - clear -Hsteps. induction Hsteps as [s | k s s1 s2 Hin%inside_cost _ IH]; lia.
  - intros [He [Hp | [Hp Hn]]]%at_rest_iff; [by left |]. right.
    destruct (reached_inv s' Hreach') as [_ Hr Ha Hc].
    assert (sy_read s' = sy_version s') as Heq.
    { destruct (Nat.lt_ge_cases (sy_read s') (sy_version s')) as [Hlt | ?]; [| lia].
      destruct (Ha ltac:(congruence) Hlt) as [Hex | [? | [? | [? | ?]]]]; [| lia | congruence..].
      rewrite He in Hex. by apply Exists_nil in Hex. }
    split_and!; try done. intros Hpos. rewrite Hp in Hc. apply Hc; [lia | done].
Qed.

(** A start that fails tells which directory or thread, and nothing of the
    configuration; one that succeeds has applied nothing. *)
Lemma start_exact debounce parent create watch spawn target r :
  start debounce parent create watch spawn target = Some r ->
  debounce <> 0 /\
  match r with
  | Ok hr => hr = mk_reloader [] 0 Receiving target status_default [] /\
             create = Ok tt /\ watch = Ok tt /\ spawn = Ok tt
  | Err _ => is_ok create && is_ok watch && is_ok spawn = false
  end.
Proof.
  unfold start, build_watcher. destruct (Dur.is_zero debounce) eqn:Hz; [done |]. intros [= <-].
  split; [by apply Z.eqb_neq |].
  destruct create as [[] | e]; [| done]. destruct watch as [[] | e]; [| done]. by destruct spawn as [[] | e].
Qed.
End Reloader.

(** A file that becomes unreadable: six steps later its load is recorded. *)
Definition demo_apply (_ : RuntimeConfigSnapshot) (t : unit) : bool * unit := (true, t).
Definition demo_path : string := "/etc/orihsus/config.yaml".
Definition demo_changed : System (Target := unit) (IoError := unit) :=
  mk_system (mk_reloader [Some (KindModify, [demo_path])] 0 Receiving tt status_default []) (Err (Permission demo_path)) 1 0.

Definition demo_show (_ : unit) : string := "".

Lemma demo_changed_reached : reached demo_show demo_apply demo_path demo_config demo_changed.
Proof.
  pose (s0 := mk_system (mk_reloader [] 0 Receiving tt status_default []) (Err (Permission demo_path)) 0 0
    : System (Target := unit) (IoError := unit)).
  apply (reached_outside demo_show demo_apply demo_path demo_config s0); [apply reached_start |].
  apply (out_edit demo_path s0 (Err (Permission demo_path)) KindModify [demo_path]); [apply rep_modified | done].
Qed.

Definition demo_read : System (Target := unit) (IoError := unit) :=
  mk_system (mk_reloader [] 0 Receiving tt
      (record_failure ("cannot reload config: " +:+ display_error demo_show (Permission demo_path)) status_default)
      [RELOAD_FAILED_SUMMARY])
    (Err (Permission demo_path)) 1 1.

Lemma demo_reads : inside_steps demo_show demo_apply demo_path demo_config 6 demo_changed demo_read.
Proof.
  eapply inside_more; [by apply in_watcher |].
  do 5 (eapply inside_more; [by apply (in_worker _ _ _ _ 0) |]). apply inside_none.
Qed.

Lemma no_change_lost_witness :
  sy_read demo_read = sy_version demo_read /\ last_load demo_show demo_apply demo_config demo_read.
Proof.
  destruct (no_change_lost demo_show demo_apply demo_path demo_config demo_changed 6 demo_read
    demo_changed_reached demo_reads) as [_ Hlast].
  destruct Hlast as [Hp | (_ & _ & Hread & Hload)].
  - apply at_rest_iff. split; [done |]. by right.
  - discriminate Hp.
  - split; [exact Hread | apply Hload]. simpl. lia.
Defined.
