(* ===== verification/Usage.v ===== *)
(** * Proactive usage polling ([src/src/usage.rs])

    What a usage response means ([evaluate], [parse_history_record]), one
    polling round over the keys, the snapshot store behind the status route
    and the bounded history queue with its writer thread.  HTTP is the bounded
    fetch of [Models]; the clock, the date parser and the file system are
    arguments. *)
From stdpp Require Import pretty.
From S2P Require Export Models Sse.

(** [Value::as_f64] of the JSON crate. *)
Class JsonFloat `(SerdeJson) := json_as_f64 : Value -> option spec_float.

(** [HttpUsageFetcher::fetch] *)
Definition usage_fetch := fetch_capped (64 * 1024).

(** [struct UsageWindowSnapshot], [struct UsageKeySnapshot] *)
Record UsageWindowSnapshot := mk_window {
  uw_status : option string;
  uw_percent : option spec_float;
  uw_resets_at : option string;
}.
Record UsageKeySnapshot := mk_key_snapshot {
  uk_timestamp : string;
  uk_key_fingerprint : string;
  uk_rolling : UsageWindowSnapshot;
  uk_weekly : UsageWindowSnapshot;
  uk_monthly : UsageWindowSnapshot;
}.

(** [struct UsageSnapshotStore] with [update] and [get] *)
Abbreviation UsageSnapshotStore := (gmap string UsageKeySnapshot) (only parsing).
Definition store_update (s : UsageKeySnapshot) (m : UsageSnapshotStore) : UsageSnapshotStore :=
  <[uk_key_fingerprint s := s]> m.
Definition store_get (fp : string) (m : UsageSnapshotStore) : option UsageKeySnapshot := m !! fp.

(** The three windows, in the order of the code. *)
Definition WINDOWS : list string := ["rolling"; "weekly"; "monthly"].

Section Evaluate.
Context `{JsonFloat} (parse_datetime : string -> option Z) (to_rfc3339_millis : Z -> string).

(** A string member, and the percentage under either of its names. *)
Definition str_member (v : Value) (key : string) : option string := json_get v key ≫= json_as_str.
Definition percent_member (v : Value) : option spec_float :=
  or_else (json_get v "percent") (json_get v "usagePercent") ≫= json_as_f64.

(** [root.get("usage").unwrap_or(&root)] *)
Definition usage_root (root : Value) : Value := default root (json_get root "usage").

(** [parse_history_record] *)
Definition parse_history_record `{Sha256} (body : bytes) (timestamp : Z) (key : Secret)
    : option UsageKeySnapshot :=
  root ← from_slice body;
  let usage := usage_root root in
  let window name :=
    let value := json_get usage name in
    mk_window (value ≫= fun v => str_member v "status") (value ≫= percent_member)
      (value ≫= fun v => str_member v "resetsAt") in
  Some (mk_key_snapshot (to_rfc3339_millis timestamp) (fingerprint (as_str key))
          (window "rolling") (window "weekly") (window "monthly")).

Definition is_limited (v : Value) : bool := bool_decide (str_member v "status" = Some "rate-limited").

(** [p.is_finite() && (0.0..=100.0).contains(&p) && p >= threshold] *)
Definition over_threshold (threshold p : spec_float) : bool :=
  is_finite p && (SFleb (f64_of_Z 0) p && SFleb p (f64_of_Z 100)) && SFleb threshold p.

(** Whether a window asks for a cooldown. *)
Definition window_applies (root : Value) (threshold : spec_float) (window : Value) : bool :=
  let has_limited := existsb (fun name => from_option is_limited false (json_get (usage_root root) name)) WINDOWS in
  let limited := is_limited window in
  let top_applies := is_limited root && (negb has_limited || limited) in
  top_applies || limited || from_option (over_threshold threshold) false (percent_member window).

(** The body of the loop of [evaluate]. *)
Definition evaluate_window (root : Value) (now : Z) (threshold : spec_float) (latest : option Z) (name : string)
    : option Z :=
  match json_get (usage_root root) name with
  | None => latest
  | Some window =>
      if negb (window_applies root threshold window) then latest
      else match str_member window "resetsAt" ≫= parse_datetime with
           | None => latest
           | Some reset => if reset <=? now then latest
                           else Some (from_option (fun old => Z.max old reset) reset latest)
           end
  end.

(** [evaluate]; [to_std] cannot fail on the positive difference. *)
Definition evaluate (body : bytes) (now : Z) (threshold : spec_float) : option Duration :=
  root ← from_slice body;
  reset ← foldl (evaluate_window root now threshold) None WINDOWS;
  Some (reset - now).
End Evaluate.

(** ** The history writer *)

Definition USAGE_HISTORY_QUEUE_CAPACITY : Z := 4096.
Definition HISTORY_WARNING : string :=
  "orihsus: usage history write failed or record dropped; polling remains active".

(** [struct UsageHistorySink] and [struct UsageHistoryWriter]: the channel, the
    counters, the shared flag, and the records the thread has appended. *)
Record UsageHistory := mk_history {
  uh_chan : list UsageKeySnapshot;
  uh_cap : Z;
  uh_dropped : Z;
  uh_write_failures : Z;
  uh_warned : bool;
  uh_stderr : list string;
  uh_written : list UsageKeySnapshot;
}.

(** [UsageHistoryWriter::start_with_capacity] *)
Definition history_start (capacity : Z) : UsageHistory := mk_history [] (Z.max capacity 1) 0 0 false [] [].

(** [UsageHistorySink::try_record] while the thread lives *)
Definition history_try_record (r : UsageKeySnapshot) (h : UsageHistory) : UsageHistory :=
  if Z.of_nat (length (uh_chan h)) <? uh_cap h
  then mk_history (uh_chan h ++ [r]) (uh_cap h) (uh_dropped h) (uh_write_failures h) (uh_warned h)
         (uh_stderr h) (uh_written h)
  else mk_history (uh_chan h) (uh_cap h) (wrap64 (uh_dropped h + 1)) (uh_write_failures h) true
         (if uh_warned h then uh_stderr h else uh_stderr h ++ [HISTORY_WARNING]) (uh_written h).

(** One iteration of the thread; [write_ok] is what [write_history_record]
    answers. *)
Definition history_worker (write_ok : UsageKeySnapshot -> bool) (h : UsageHistory) : option UsageHistory :=
  match uh_chan h with
  | [] => None
  | r :: rest =>
      Some (if write_ok r
            then mk_history rest (uh_cap h) (uh_dropped h) (uh_write_failures h) (uh_warned h) (uh_stderr h)
                   (uh_written h ++ [r])
            else mk_history rest (uh_cap h) (uh_dropped h) (wrap64 (uh_write_failures h + 1)) true
                   (if uh_warned h then uh_stderr h else uh_stderr h ++ [HISTORY_WARNING]) (uh_written h))
  end.

(** ** A round *)

Section Poll.
Context `{JsonFloat} `{Sha256} {J : Type} `{Jitter J}
  (parse_datetime : string -> option Z) (to_rfc3339_millis : Z -> string).

(** What a round writes to. *)
Record PollState := mk_poll {
  ps_pool : KeyPool J;
  ps_history : option UsageHistory;
  ps_snapshots : option UsageSnapshotStore;
}.

(** The body of the loop over the results; [at_] is the monotonic clock of the
    report. *)
Definition poll_result (now : Z) (threshold : spec_float) (at_ : Instant) (s : PollState)
    (kr : Secret * result FetchError bytes) : option PollState :=
  let '(key, fetched) := kr in
  match fetched with
  | Err _ => Some s
  | Ok body =>
      let s := match parse_history_record to_rfc3339_millis body now key with
               | Some snapshot =>
                   mk_poll (ps_pool s) (history_try_record snapshot <$> ps_history s)
                     (store_update snapshot <$> ps_snapshots s)
               | None => s
               end in
      match evaluate parse_datetime body now threshold with
      | None => Some s
      | Some cooldown =>
          pool ← report_proactive_cooldown (fingerprint (as_str key)) cooldown at_ (ps_pool s);
          Some (mk_poll pool (ps_history s) (ps_snapshots s))
      end
  end.

(** [poll_once_with_observers], given the fetched results in the order of the
    keys; [None] is a panic. *)
Fixpoint poll_round (now : Z) (threshold : spec_float) (at_ : Instant)
    (results : list (Secret * result FetchError bytes)) (s : PollState) : option PollState :=
  match results with
  | [] => Some s
  | kr :: rest => s' ← poll_result now threshold at_ s kr; poll_round now threshold at_ rest s'
  end.
End Poll.
Arguments PollState J : clear implicits.

(** ** Theorems *)

Section UsageTheorems.
Context `{JsonFloat} `{Sha256} {J : Type} `{Jitter J}
  (parse_datetime : string -> option Z) (to_rfc3339_millis : Z -> string).

(** What a response says, read off the JSON value alone.  The windows are members of
    ["usage"], or of the response itself when it has none. *)
Definition text (v : Value) (key s : string) : Prop := exists x, json_get v key = Some x /\ json_as_str x = Some s.
Definition limited (v : Value) : Prop := text v "status" "rate-limited".
Definition windows_in (root usage : Value) : Prop :=
  json_get root "usage" = Some usage \/ (json_get root "usage" = None /\ usage = root).

(** The percentage: ["percent"], or ["usagePercent"] when that is absent. *)
Definition percentage (v : Value) (p : spec_float) : Prop :=
  exists x, (json_get v "percent" = Some x \/ (json_get v "percent" = None /\ json_get v "usagePercent" = Some x))
    /\ json_as_f64 x = Some p.
(** [a <= b] of two floats; a NaN compares to nothing. *)
Definition at_most (a b : spec_float) : Prop := SFcompare a b = Some Lt \/ SFcompare a b = Some Eq.

(** A window asks to wait until [reset]: it is limited; or the response as a whole is
    and no window is; or its percentage, between 0 and 100, reaches the threshold;
    and it resets at an instant still to come. *)
Definition asks (root : Value) (now : Z) (threshold : spec_float) (reset : Z) (name : string) : Prop :=
  exists usage window, windows_in root usage /\ json_get usage name = Some window
    /\ (limited window
        \/ (limited root /\ forall other w, other ∈ ["rolling"; "weekly"; "monthly"] -> json_get usage other = Some w -> ~ limited w)
        \/ exists p, percentage window p /\ at_most (f64_of_Z 0) p /\ at_most p (f64_of_Z 100) /\ at_most threshold p)
    /\ exists t, text window "resetsAt" t /\ parse_datetime t = Some reset /\ now < reset.

Lemma str_member_text v key s : str_member v key = Some s <-> text v key s.
Proof. unfold str_member, text. rewrite bind_Some. done. Qed.

Lemma is_limited_iff v : is_limited v = true <-> limited v.
Proof. unfold is_limited. by rewrite bool_decide_eq_true, str_member_text. Qed.

Lemma percent_member_iff v p : percent_member v = Some p <-> percentage v p.
Proof.
  unfold percent_member, percentage. rewrite bind_Some. unfold or_else.
  destruct (json_get v "percent") as [x |]; naive_solver.
Qed.

Lemma SFleb_at_most a b : SFleb a b = true <-> at_most a b.
Proof. unfold SFleb, at_most. destruct (SFcompare a b) as [[| |] |]; naive_solver. Qed.

Lemma over_threshold_iff threshold p :
  over_threshold threshold p = true <-> at_most (f64_of_Z 0) p /\ at_most p (f64_of_Z 100) /\ at_most threshold p.
Proof.
  unfold over_threshold. rewrite !andb_true_iff, !SFleb_at_most.
  split; [tauto |]. intros (H0' & H100 & Ht). split_and!; try done.
  destruct p as [s | [|] | | s m e]; try done; [by destruct H0' | by destruct H100 | by destruct H0'].
Qed.

Lemma usage_root_iff root usage : usage_root root = usage <-> windows_in root usage.
Proof. unfold usage_root, windows_in. destruct (json_get root "usage"); naive_solver. Qed.

Lemma window_applies_iff root threshold window usage name :
  usage_root root = usage -> name ∈ WINDOWS -> json_get usage name = Some window ->
  window_applies root threshold window = true <->
  limited window
  \/ (limited root /\ forall other w, other ∈ WINDOWS -> json_get usage other = Some w -> ~ limited w)
  \/ exists p, percentage window p /\ at_most (f64_of_Z 0) p /\ at_most p (f64_of_Z 100) /\ at_most threshold p.
Proof.
  intros <- Hname Hw. unfold window_applies.
  assert (from_option (over_threshold threshold) false (percent_member window) = true
    <-> exists p, percentage window p /\ at_most (f64_of_Z 0) p /\ at_most p (f64_of_Z 100) /\ at_most threshold p) as Hover.
  { destruct (percent_member window) as [p |] eqn:Hp; simpl.
    - apply percent_member_iff in Hp as Hp'. rewrite over_threshold_iff. split; [eauto |].
      intros (q & Hq%percent_member_iff & Hq'). replace p with q by congruence. exact Hq'.
    - split; [done |]. intros (q & Hq%percent_member_iff & _). congruence. }
  assert (existsb (fun name => from_option is_limited false (json_get (usage_root root) name)) WINDOWS = true
    <-> exists other w, other ∈ WINDOWS /\ json_get (usage_root root) other = Some w /\ limited w) as Hany.
  { rewrite existsb_exists. split.
    - intros (other & Hin%list_elem_of_In & Hl). destruct (json_get _ other) as [w |] eqn:Ho; [| done].
      exists other, w. by rewrite <- is_limited_iff.
    - intros (other & w & Hin & Ho & Hl%is_limited_iff). exists other. split; [by apply list_elem_of_In |]. by rewrite Ho. }
  rewrite !orb_true_iff, andb_true_iff, orb_true_iff, negb_true_iff, <- not_true_iff_false, Hany, Hover, !is_limited_iff.
  split; [naive_solver |]. intros [Hl | [[Hr Hno] | Hp]]; [naive_solver | | by right].
  left. left. split; [done |]. left. intros (other & w & Hin & Ho & Hl). by eapply Hno.
Qed.

(** The same in the code's own terms. *)
Definition window_asks (root : Value) (now : Z) (threshold : spec_float) (reset : Z) (name : string) : Prop :=
  exists window, json_get (usage_root root) name = Some window
    /\ window_applies root threshold window = true
    /\ str_member window "resetsAt" ≫= parse_datetime = Some reset /\ now < reset.

Lemma asks_iff root now threshold reset name :
  name ∈ WINDOWS -> asks root now threshold reset name <-> window_asks root now threshold reset name.
Proof.
  intros Hname. unfold asks, window_asks. split.
  - intros (usage & window & Hu%usage_root_iff & Hw & Ha & t & Ht%str_member_text & Hd & Hnow).
    exists window. rewrite Hu, Ht. split_and!; try done. by apply (window_applies_iff root threshold window usage name).
  - intros (window & Hw & Ha & (t & Ht%str_member_text & Hd)%bind_Some & Hnow).
    exists (usage_root root), window. split_and!; [by apply usage_root_iff | done | | by exists t].
    by apply (window_applies_iff root threshold window (usage_root root) name).
Qed.

(** [latest] after windows that ask for the resets of [P]: the maximum. *)
Definition latest_spec (before after : option Z) (P : Z -> Prop) : Prop :=
  match after with
  | None => before = None /\ forall reset, ~ P reset
  | Some m => (before = Some m \/ P m) /\ (forall old, before = Some old -> old <= m)
      /\ forall reset, P reset -> reset <= m
  end.

Lemma latest_same before P : (forall reset, ~ P reset) -> latest_spec before before P.
Proof.
  intros Hno. destruct before as [m |]; simpl; [| done].
  split_and!; [by left | by intros old [= ->] | intros reset Hr; by apply Hno in Hr].
Qed.

Lemma evaluate_window_spec root now threshold latest name :
  latest_spec latest (evaluate_window parse_datetime root now threshold latest name)
    (fun reset => window_asks root now threshold reset name).
Proof.
  unfold evaluate_window, window_asks. destruct (json_get (usage_root root) name) as [w |] eqn:Hw;
    [| apply latest_same; by intros reset (? & [=] & _)].
  destruct (window_applies root threshold w) eqn:Ha; simpl;
    [| apply latest_same; intros reset (? & [= <-] & ? & _); congruence].
  destruct (str_member w "resetsAt" ≫= parse_datetime) as [reset |] eqn:Hr;
    [| apply latest_same; intros reset (? & [= <-] & _ & ? & _); congruence].
  destruct (Z.leb_spec reset now).
  { apply latest_same. intros r (? & [= <-] & _ & Hr' & ?). rewrite Hr in Hr'. injection Hr' as <-. lia. }
  assert (forall r, (exists window, Some w = Some window /\ window_applies root threshold window = true
    /\ str_member window "resetsAt" ≫= parse_datetime = Some r /\ now < r) -> r = reset) as Honly.
  { intros r (? & [= <-] & _ & Hr' & _). congruence. }
  destruct latest as [old |]; simpl; split_and!.
  - destruct (Z.max_spec old reset) as [[_ ->] | [_ ->]]; [right; eauto 10 | by left].
  - intros ? [= ->]. lia.
  - intros r ->%Honly. lia.
  - right. eauto 10.
  - done.
  - intros r ->%Honly. lia.
Qed.

Lemma evaluate_windows root now threshold names : forall latest,
  latest_spec latest (foldl (evaluate_window parse_datetime root now threshold) latest names)
    (fun reset => exists name, name ∈ names /\ window_asks root now threshold reset name).
Proof.
  induction names as [| name names IH]; intros latest; cbn [foldl].
  { apply latest_same. intros reset (n & Hin & _). by apply not_elem_of_nil in Hin. }
  specialize (IH (evaluate_window parse_datetime root now threshold latest name)).
  pose proof (evaluate_window_spec root now threshold latest name) as Hone.
  set (one := evaluate_window _ _ _ _ _ _) in *. unfold latest_spec in *.
  assert (forall P : Z -> Prop, (forall r, window_asks root now threshold r name -> P r) ->
    (forall r, (exists n, n ∈ names /\ window_asks root now threshold r n) -> P r) ->
    forall r, (exists n, n ∈ name :: names /\ window_asks root now threshold r n) -> P r) as Hcons.
  { intros P H1' H2' r (n & [-> | Hin]%elem_of_cons & Hr); eauto. }
  destruct (foldl _ _ names) as [m |]; [| destruct IH as [Ho Hno']; rewrite Ho in Hone; destruct Hone as [-> Hno];
    split; [done | exact (Hcons (fun _ => False) Hno Hno')]].
  destruct IH as (Hm & Hold & Hmax). split_and!.
  - destruct Hm as [Hm | (n & Hin & Hm)]; [| right; exists n; by rewrite elem_of_cons; auto].
    rewrite Hm in Hone. destruct Hone as ([? | ?] & _); [by left | right; exists name; by rewrite elem_of_cons; auto].
  - intros old Ho. destruct one as [m1 |]; [| by destruct Hone; congruence].
    destruct Hone as (_ & Hold1 & _). specialize (Hold1 old Ho). specialize (Hold m1 eq_refl). lia.
  - apply Hcons; [| exact Hmax]. intros r Hr. destruct one as [m1 |]; [| destruct Hone as [_ Hno]; by apply Hno in Hr].
    destruct Hone as (_ & _ & Hmax1). specialize (Hmax1 r Hr). specialize (Hold m1 eq_refl). lia.
Qed.

(** C36. The proactive cooldown is exact: it is asked for only by a well-formed
    response in which some window is limited, or the response is limited as a whole
    with no window singled out, or the percentage of a window is valid and at or
    over the threshold, and that window resets in the future; then it is positive
    and ends exactly at the latest such reset. *)
Theorem evaluate_exact body now threshold :
  match evaluate parse_datetime body now threshold with
  | Some cooldown => 0 < cooldown /\ exists root, from_slice body = Some root
      /\ (exists name, name ∈ ["rolling"; "weekly"; "monthly"] /\ asks root now threshold (now + cooldown) name)
      /\ forall reset name, name ∈ ["rolling"; "weekly"; "monthly"] -> asks root now threshold reset name ->
           reset <= now + cooldown
  | None => forall root, from_slice body = Some root ->
      forall reset name, name ∈ ["rolling"; "weekly"; "monthly"] -> ~ asks root now threshold reset name
  end.
Proof.
  unfold evaluate. destruct (from_slice body) as [root |]; cbn [mbind option_bind]; [| done].
  pose proof (evaluate_windows root now threshold WINDOWS None) as Hspec. unfold latest_spec in Hspec.
  destruct (foldl _ _ WINDOWS) as [m |]; cbn [mbind option_bind].
  - destruct Hspec as ([| (name & Hin & Hm)] & _ & Hmax); [done |].
    replace (now + (m - now)) with m by lia. split; [destruct Hm as (_ & _ & _ & _ & ?); lia |].
    exists root. split_and!; [done | exists name; split; [done | by apply asks_iff] |].
    intros reset other Ho Hr%asks_iff; eauto.
  - destruct Hspec as [_ Hno]. intros root' [= <-] reset name Hin Hr%asks_iff; [| done]. by apply (Hno reset); eauto.
Qed.

Lemma poll_result_pool now threshold at_ (s : PollState J) kr s' fp :
  poll_result parse_datetime to_rfc3339_millis now threshold at_ s kr = Some s' ->
  deadline_le (cooling_of (ps_pool s) fp) (cooling_of (ps_pool s') fp).
Proof.
  destruct kr as [key [body | e]]; simpl; [| intros [= <-]; apply deadline_le_refl].
  set (s1 := match parse_history_record _ _ _ _ with Some _ => _ | None => s end).
  assert (ps_pool s1 = ps_pool s) as Hp by (unfold s1; by destruct (parse_history_record _ _ _ _)).
  destruct (evaluate _ _ _ _) as [cd |]; [| intros [= <-]; rewrite Hp; apply deadline_le_refl].
  intros (pool & Hr & [= <-])%bind_Some. rewrite <- Hp. by eapply proactive_never_shortens.
Qed.

Lemma poll_result_total now threshold at_ (s : PollState J) kr :
  real_instant at_ -> is_Some (poll_result parse_datetime to_rfc3339_millis now threshold at_ s kr).
Proof.
  intros Hat. destruct kr as [key [body | e]]; simpl; [| done]. destruct (evaluate _ _ _ _) as [cd |]; [| done].
  match goal with |- context [report_proactive_cooldown ?f ?c at_ ?p] =>
    destruct (report_proactive_real f c at_ p Hat) as [p' ->] end. done.
Qed.

Lemma poll_round_total now threshold at_ results : forall s : PollState J,
  real_instant at_ -> is_Some (poll_round parse_datetime to_rfc3339_millis now threshold at_ results s).
Proof.
  intros s Hat. revert s. induction results as [| kr results IH]; intros s; [done |]. cbn [poll_round].
  destruct (poll_result_total now threshold at_ s kr Hat) as [s1 ->]. apply IH.
Qed.

(** Polling fails open: a round never panics and never shortens a cooldown;
    the keys whose fetch failed leave no trace, so the round does to the pool,
    the history and the snapshots exactly what it does without them. *)
Theorem poll_fails_open now threshold at_ results (s : PollState J) :
  real_instant at_ ->
  exists s', poll_round parse_datetime to_rfc3339_millis now threshold at_ results s = Some s'
    /\ (forall fp, deadline_le (cooling_of (ps_pool s) fp) (cooling_of (ps_pool s') fp))
    /\ poll_round parse_datetime to_rfc3339_millis now threshold at_
         (filter (fun kr => Is_true (is_ok kr.2)) results) s = Some s'.
Proof.
  intros Hat. revert s; induction results as [| [key [body | e]] results IH]; intros s.
  { exists s. split_and!; [done | intros fp; apply deadline_le_refl | done]. }
  - rewrite filter_cons_True by done. cbn [poll_round].
    destruct (poll_result _ _ now threshold at_ s (key, Ok body)) as [s1 |] eqn:Hr.
    + simpl. destruct (IH s1) as (s' & -> & Hle & ->). exists s'. split_and!; [done | | done].
      intros fp. eapply deadline_le_trans; [by eapply poll_result_pool | apply Hle].
    + destruct (poll_result_total now threshold at_ s (key, Ok body) Hat) as [? ?]. congruence.
  - rewrite filter_cons_False by (simpl; tauto). cbn [poll_round]. simpl. apply IH.
Qed.

(** The history queue never grows past its capacity. *)
Lemma history_capacity r h :
  Z.of_nat (length (uh_chan h)) <= uh_cap h ->
  Z.of_nat (length (uh_chan (history_try_record r h))) <= uh_cap (history_try_record r h).
Proof.
  intros Hle. unfold history_try_record. destruct (Z.ltb_spec (Z.of_nat (length (uh_chan h))) (uh_cap h)); [| done].
  simpl. rewrite length_app. simpl. lia.
Qed.
End UsageTheorems.

(** ** At concrete inputs *)

#[local] Existing Instance demo_sha256.
#[local] Instance demo_usage_json : SerdeJson := toy_serde
  [("{u}", JObj [("usage", JObj [("weekly", JObj [("status", JStr "rate-limited"); ("resetsAt", JStr "t50")])])])].
#[local] Instance demo_usage_float : JsonFloat demo_usage_json :=
  fun v => match v with JNum n => Some (f64_of_Z n) | _ => None end.
Definition demo_date (s : string) : option Z := if String.eqb s "t50" then Some 50 else None.

Definition demo_poll : PollState NoJitter := mk_poll demo_pool (Some (history_start 1)) (Some ∅).
Definition demo_results : list (Secret * result FetchError bytes) :=
  [(secret_new "sk-alpha", Ok (as_bytes "{u}")); (secret_new "sk-beta", Err Transport)].

Example demo_evaluate : evaluate demo_date (as_bytes "{u}") 10 (f64_of_Z 80) = Some 40.
Proof. vm_compute. reflexivity. Qed.

Lemma evaluate_exact_witness :
  evaluate demo_date (as_bytes "{u}") 10 (f64_of_Z 80) = Some 40
  /\ exists root, from_slice (as_bytes "{u}") = Some root
       /\ (exists name, name ∈ ["rolling"; "weekly"; "monthly"] /\ asks demo_date root 10 (f64_of_Z 80) (10 + 40) name)
       /\ forall reset name, name ∈ ["rolling"; "weekly"; "monthly"] -> asks demo_date root 10 (f64_of_Z 80) reset name ->
            reset <= 10 + 40.
Proof.
  pose proof (evaluate_exact demo_date (as_bytes "{u}") 10 (f64_of_Z 80)) as Hexact.
  rewrite demo_evaluate in Hexact. split; [exact demo_evaluate | exact (proj2 Hexact)].
Defined.

Lemma poll_fails_open_witness :
  exists s', poll_round demo_date pretty 10 (f64_of_Z 80) 0 demo_results demo_poll = Some s'
    /\ (forall fp, deadline_le (cooling_of (ps_pool demo_poll) fp) (cooling_of (ps_pool s') fp))
    /\ poll_round demo_date pretty 10 (f64_of_Z 80) 0
         (filter (fun kr => Is_true (is_ok kr.2)) demo_results) demo_poll = Some s'.
Proof. apply (poll_fails_open demo_date pretty 10 (f64_of_Z 80) 0 demo_results demo_poll). split; by cbv. Defined.
