(* ===== verification/UsageMonitor.v ===== *)
(** * The usage monitor as a running system ([src/src/usage.rs])

    The polling task with its watched keys, the history thread with its file,
    and the owner that replaces the keys and shuts the monitor down, as a step
    relation.  Each round is [Usage.poll_round]; which branch of the [select!]
    is taken, what the fetches answer and what the file system does are free. *)
From S2P Require Export Usage.

(** ** Writing a record *)

(** [&s[..10]]; [None] is the panic. *)
Definition str_to_10 (s : string) : option string :=
  if (length (as_bytes s) <? 10)%nat || head_is is_cont (drop 10 (as_bytes s)) then None
  else Some (of_bytes (take 10 (as_bytes s))).

(** What the file system answers to one record: the directory, the open, the
    encoder and the newline; a refused write may have taken some bytes. *)
Record FsAnswer := mk_fs_answer {
  fa_dir : bool;
  fa_open : bool;
  fa_record : option nat;
  fa_newline : option nat;
}.
Definition fs_ok : FsAnswer := mk_fs_answer true true None None.

(** [write_all] of [data] at the end of the file at [path]. *)
Definition append_file (path : string) (data : bytes) (refused : option nat) (files : gmap string bytes)
    : bool * gmap string bytes :=
  let content := default [] (files !! path) in
  match refused with
  | None => (true, <[path := content ++ data]> files)
  | Some n => (false, <[path := content ++ take n data]> files)
  end.

Definition history_path (directory : string) (r : UsageKeySnapshot) : option string :=
  (fun day => directory +:+ "/" +:+ day +:+ ".jsonl") <$> str_to_10 (uk_timestamp r).

(** [write_history_record]; whether it succeeded, and [None] for the panic. *)
Definition write_history_record (to_json : UsageKeySnapshot -> bytes) (directory : string) (r : UsageKeySnapshot)
    (a : FsAnswer) (files : gmap string bytes) : option (bool * gmap string bytes) :=
  if negb (fa_dir a) then Some (false, files)
  else
    path ← history_path directory r;
    if negb (fa_open a) then Some (false, files)
    else
      let '(ok, files) := append_file path (to_json r) (fa_record a) files in
      if negb ok then Some (false, files)
      else Some (append_file path [LF] (fa_newline a) files).

Section Record.
Context `{JsonFloat} `{Sha256} (to_rfc3339_millis : Z -> string).

(** [UsageSnapshotStore::record_response] *)
Definition record_response (body : bytes) (timestamp : Z) (key : Secret) (m : UsageSnapshotStore)
    : bool * UsageSnapshotStore :=
  match parse_history_record to_rfc3339_millis body timestamp key with
  | None => (false, m)
  | Some snapshot => (true, store_update snapshot m)
  end.
End Record.

(** [UsageHistorySink::dropped_records], [UsageHistoryWriter::write_failures] *)
Definition dropped_records (h : UsageHistory) : Z := uh_dropped h.
Definition write_failures (h : UsageHistory) : Z := uh_write_failures h.

(** [UsageHistoryWriter::start] *)
Definition history_writer_start : UsageHistory := history_start USAGE_HISTORY_QUEUE_CAPACITY.

(** [HttpUsageFetcher::endpoint]; [None] is the [expect]. *)
Definition usage_endpoint {Url} (parse : string -> option Url) (join : Url -> string -> option Url) : option Url :=
  base ← parse OPENCODE_GO_BASE_URL; upstream_api_url join base ApiUsage.

(** ** The monitor *)

Section Monitor.
Context `{JsonFloat} `{Sha256} {J : Type} `{Jitter J}
  (parse_datetime : string -> option Z) (to_rfc3339_millis : Z -> string)
  (to_json : UsageKeySnapshot -> bytes) (directory : string).

(** The polling task: before [borrow], awaiting [join_all], in the [select!]
    (the timer elapsed or not), returned. *)
Inductive Phase := Top | Fetching (now : Z) (keys : list Secret) | Waiting (elapsed : bool) | Ended.

(** The owner of the [UsageMonitor]: it uses it, it awaits the worker in
    [shutdown], it joins the history thread, it is done with it. *)
Inductive Owner := Live | AwaitWorker | JoinHistory | Gone.

(** [struct UsageMonitor], its watch channel (value, version, the version the
    task has seen), the [UsageKeysHandle]s, the two workers, the day files.
    [um_polled] and [um_offered] only record the keys last polled and the
    snapshots made of the answers. *)
Record UsageMonitor := mk_monitor {
  um_keys : list Secret;
  um_version : nat;
  um_seen : nat;
  um_handles : nat;
  um_stop : bool;
  um_owner : Owner;
  um_phase : Phase;
  um_poll : PollState J;
  um_thread : bool;
  um_files : gmap string bytes;
  um_polled : list Secret;
  um_offered : list UsageKeySnapshot;
}.

(** [start_with_observers] *)
Definition start_with_observers (keys : list Secret) (pool : KeyPool J) (history : option UsageHistory)
    (snapshots : UsageSnapshotStore) (files : gmap string bytes) : UsageMonitor :=
  mk_monitor keys 0 0 0 false Live Top (mk_poll pool history (Some snapshots))
    (bool_decide (is_Some history)) files [] [].

(** [start_with_history], [start_with], and [start] once the HTTP client is built *)
Definition start_with_history keys pool history files := start_with_observers keys pool history ∅ files.
Definition start_with keys pool files := start_with_observers keys pool None ∅ files.
Definition start {E} (client : result E unit) keys pool snapshots files : result E UsageMonitor :=
  (fun _ => start_with_observers keys pool (Some history_writer_start) snapshots files) <$> client.

Definition set_keys (keys : list Secret) (m : UsageMonitor) : UsageMonitor :=
  mk_monitor keys (S (um_version m)) (um_seen m) (um_handles m) (um_stop m) (um_owner m) (um_phase m)
    (um_poll m) (um_thread m) (um_files m) (um_polled m) (um_offered m).
Definition set_owner (handles : nat) (stop : bool) (owner : Owner) (m : UsageMonitor) : UsageMonitor :=
  mk_monitor (um_keys m) (um_version m) (um_seen m) handles stop owner (um_phase m)
    (um_poll m) (um_thread m) (um_files m) (um_polled m) (um_offered m).
Definition set_phase (seen : nat) (phase : Phase) (polled : list Secret) (m : UsageMonitor) : UsageMonitor :=
  mk_monitor (um_keys m) (um_version m) seen (um_handles m) (um_stop m) (um_owner m) phase
    (um_poll m) (um_thread m) (um_files m) polled (um_offered m).
Definition set_poll (phase : Phase) (poll : PollState J) (offered : list UsageKeySnapshot) (m : UsageMonitor)
    : UsageMonitor :=
  mk_monitor (um_keys m) (um_version m) (um_seen m) (um_handles m) (um_stop m) (um_owner m) phase
    poll (um_thread m) (um_files m) (um_polled m) offered.
Definition set_history (h : UsageHistory) (thread : bool) (files : gmap string bytes) (m : UsageMonitor)
    : UsageMonitor :=
  mk_monitor (um_keys m) (um_version m) (um_seen m) (um_handles m) (um_stop m) (um_owner m) (um_phase m)
    (mk_poll (ps_pool (um_poll m)) (Some h) (ps_snapshots (um_poll m))) thread files (um_polled m) (um_offered m).

(** [UsageMonitor::replace_keys] and [UsageKeysHandle::replace_keys]:
    [send_replace] *)
Definition replace_keys (keys : list Secret) (m : UsageMonitor) : UsageMonitor := set_keys keys m.

(** [UsageMonitor::keys_handle] *)
Definition keys_handle (m : UsageMonitor) : UsageMonitor :=
  set_owner (S (um_handles m)) (um_stop m) (um_owner m) m.

(** [UsageMonitor::shutdown] up to its first await; [UsageMonitor::drop], which
    also drops the history writer. *)
Definition shutdown (m : UsageMonitor) : UsageMonitor := set_owner (um_handles m) true AwaitWorker m.
Definition drop_monitor (m : UsageMonitor) : UsageMonitor := set_owner (um_handles m) true Gone m.

(** The rest of [shutdown]: [worker.await], then [history.shutdown]. *)
Definition owner_step (m : UsageMonitor) : option UsageMonitor :=
  match um_owner m, um_phase m with
  | AwaitWorker, Ended => Some (set_owner (um_handles m) (um_stop m) JoinHistory m)
  | JoinHistory, _ => if um_thread m then None else Some (set_owner (um_handles m) (um_stop m) Gone m)
  | _, _ => None
  end.

(** The senders of the watch channel. *)
Definition senders (m : UsageMonitor) : nat :=
  (um_handles m + match um_owner m with Live | AwaitWorker | JoinHistory => 1 | Gone => 0 end)%nat.

(** The snapshots a round makes of the answers. *)
Definition snapshots_of (now : Z) (results : list (Secret * result FetchError bytes)) : list UsageKeySnapshot :=
  omap (fun '(key, fetched) => match fetched with
                               | Ok body => parse_history_record to_rfc3339_millis body now key
                               | Err _ => None
                               end) results.

Inductive Branch := Timer | Changed | Stop.

(** The branches of the [select!], when ready. *)
Definition select_branch (b : Branch) (elapsed : bool) (m : UsageMonitor) : option UsageMonitor :=
  match b with
  | Timer => if elapsed then Some (set_phase (um_seen m) Top (um_polled m) m) else None
  | Changed =>
      if negb (um_seen m =? um_version m)%nat then Some (set_phase (um_version m) Top (um_polled m) m)
      else if (senders m =? 0)%nat then Some (set_phase (um_seen m) Ended (um_polled m) m) else None
  | Stop => if um_stop m then Some (set_phase (um_seen m) Ended (um_polled m) m) else None
  end.

(** The next step of the polling task: [now] and [at_] are the two clocks,
    [results] the answers in the order of the keys, [b] the branch. *)
Definition worker_step (threshold : spec_float) (now : Z) (at_ : Instant)
    (results : list (Secret * result FetchError bytes)) (b : Branch) (m : UsageMonitor) : option UsageMonitor :=
  match um_phase m with
  | Top => Some (set_phase (um_seen m) (Fetching now (um_keys m)) (um_keys m) m)
  | Fetching now keys =>
      if negb (bool_decide (results.*1 = keys)) then None
      else match poll_round parse_datetime to_rfc3339_millis now threshold at_ results (um_poll m) with
           | Some s => Some (set_poll (Waiting false) s (um_offered m ++ snapshots_of now results) m)
           | None => Some (set_phase (um_seen m) Ended (um_polled m) m)
           end
  | Waiting elapsed => select_branch b elapsed m
  | Ended => None
  end.

(** [poll_once_with_history] and [poll_once]: a round with fewer observers. *)
Definition poll_once_with_history (threshold : spec_float) (now : Z) (at_ : Instant)
    (results : list (Secret * result FetchError bytes)) (pool : KeyPool J) (history : option UsageHistory)
    : option (PollState J) :=
  poll_round parse_datetime to_rfc3339_millis now threshold at_ results (mk_poll pool history None).
Definition poll_once threshold now at_ results pool := poll_once_with_history threshold now at_ results pool None.

(** Whether a sink is left: the writer's or the task's. *)
Definition sink_left (m : UsageMonitor) : bool :=
  match um_owner m, um_phase m with
  | (JoinHistory | Gone), Ended => false
  | _, _ => true
  end.

(** The next step of the history thread; after a panic nobody receives, which
    is a channel without room. *)
Definition thread_step (a : FsAnswer) (m : UsageMonitor) : option UsageMonitor :=
  match um_thread m, ps_history (um_poll m) with
  | true, Some h =>
      match uh_chan h with
      | [] => if sink_left m then None else Some (set_history h false (um_files m) m)
      | r :: _ =>
          match write_history_record to_json directory r a (um_files m) with
          | Some (ok, files) => (fun h => set_history h true files m) <$> history_worker (fun _ => ok) h
          | None => Some (set_history (mk_history [] 0 (uh_dropped h) (uh_write_failures h) (uh_warned h)
                             (uh_stderr h) (uh_written h)) false (um_files m) m)
          end
      end
  | _, _ => None
  end.

(** What others do: replace the keys, clone and drop handles, let time pass,
    report to the pool, shut down or drop the monitor. *)
Inductive outside : UsageMonitor -> UsageMonitor -> Prop :=
| out_replace m keys : (0 < senders m)%nat -> outside m (replace_keys keys m)
| out_handle m : (0 < senders m)%nat -> outside m (keys_handle m)
| out_handle_drop m n : um_handles m = S n -> outside m (set_owner n (um_stop m) (um_owner m) m)
| out_timer m e : um_phase m = Waiting e -> outside m (set_phase (um_seen m) (Waiting true) (um_polled m) m)
| out_pool m pool :
    outside m (set_poll (um_phase m) (mk_poll pool (ps_history (um_poll m)) (ps_snapshots (um_poll m))) (um_offered m) m)
| out_shutdown m : um_owner m = Live -> outside m (shutdown m)
| out_drop m : um_owner m = Live \/ um_owner m = AwaitWorker -> outside m (drop_monitor m).

(** What the monitor does. *)
Inductive inside : UsageMonitor -> UsageMonitor -> Prop :=
| in_worker threshold now at_ results b m m' :
    real_instant at_ -> worker_step threshold now at_ results b m = Some m' -> inside m m'
| in_thread a m m' : thread_step a m = Some m' -> inside m m'
| in_owner m m' : owner_step m = Some m' -> inside m m'.

Inductive reached (m0 : UsageMonitor) : UsageMonitor -> Prop :=
| reached_start : reached m0 m0
| reached_outside m m' : reached m0 m -> outside m m' -> reached m0 m'
| reached_inside m m' : reached m0 m -> inside m m' -> reached m0 m'.
End Monitor.
Arguments UsageMonitor J : clear implicits.

(** ** What a round adds *)

Section History.
Context `{JsonFloat} `{Sha256} {J : Type} `{Jitter J}
  (parse_datetime : string -> option Z) (to_rfc3339_millis : Z -> string).

Definition record_all (records : list UsageKeySnapshot) (h : UsageHistory) : UsageHistory :=
  foldl (fun h r => history_try_record r h) h records.
Definition store_all (records : list UsageKeySnapshot) (m : UsageSnapshotStore) : UsageSnapshotStore :=
  foldl (fun m r => store_update r m) m records.

(** A round offers the snapshots of its answers, in order, to both observers. *)
Lemma poll_round_observers now threshold at_ results : forall s s' : PollState J,
  poll_round parse_datetime to_rfc3339_millis now threshold at_ results s = Some s' ->
  ps_history s' = record_all (snapshots_of to_rfc3339_millis now results) <$> ps_history s /\
  ps_snapshots s' = store_all (snapshots_of to_rfc3339_millis now results) <$> ps_snapshots s.
Proof.
  induction results as [| [key fetched] results IH]; intros s s'.
  { intros [= <-]. unfold record_all, store_all. simpl. by rewrite !option_fmap_id. }
  cbn [poll_round]. intros (s1 & Hone & [Hh Hm]%IH)%bind_Some. rewrite Hh, Hm. clear IH Hh Hm s'.
  unfold snapshots_of. cbn [omap list_omap]. destruct fetched as [body | e]; cbn [poll_result] in Hone.
  - set (s2 := match parse_history_record _ _ _ _ with Some _ => _ | None => s end) in Hone.
    assert (ps_history s1 = ps_history s2 /\ ps_snapshots s1 = ps_snapshots s2) as [-> ->].
    { destruct (evaluate _ _ _ _); [| by injection Hone as <-]. by apply bind_Some in Hone as (? & _ & [= <-]). }
    unfold s2. destruct (parse_history_record _ _ _ _) as [r |]; [| done].
    cbn [ps_history ps_snapshots]. by rewrite <- !option_fmap_compose.
  - by injection Hone as <-.
Qed.

Lemma snapshots_of_length now results :
  (length (snapshots_of to_rfc3339_millis now results) <= length results)%nat.
Proof.
  unfold snapshots_of. induction results as [| [key [body | e]] results IH]; cbn [omap list_omap length] in *; [lia | | lia].
  destruct (parse_history_record _ _ _ _); cbn [length]; lia.
Qed.

Definition stamped (r : UsageKeySnapshot) : Prop := exists t, uk_timestamp r = to_rfc3339_millis t.

Lemma snapshots_of_stamped now results : Forall stamped (snapshots_of to_rfc3339_millis now results).
Proof.
  unfold snapshots_of. induction results as [| [key [body | e]] results IH]; cbn [omap list_omap]; [done | | done].
  unfold parse_history_record. destruct (from_slice body); cbn [mbind option_bind]; [| done]. constructor; [by exists now | done].
Qed.

(** *** Every offered record is somewhere *)

Definition accounted (h : UsageHistory) : Z :=
  Z.of_nat (length (uh_written h)) + write_failures h + dropped_records h + Z.of_nat (length (uh_chan h)).

Record history_inv (offered : list UsageKeySnapshot) (h : UsageHistory) : Prop := {
  hi_room : Z.of_nat (length (uh_chan h)) <= uh_cap h;
  hi_count : wrap64 (accounted h) = wrap64 (Z.of_nat (length offered));
  hi_order : uh_written h ++ uh_chan h `sublist_of` offered;
  hi_stamped : Forall stamped (uh_chan h);
}.

Lemma wrap64_cong a b c : wrap64 a = wrap64 b -> wrap64 (a + c) = wrap64 (b + c).
Proof. unfold wrap64. intros Heq. by rewrite Z.add_mod, Heq, <- Z.add_mod by lia. Qed.

Lemma wrap64_shift a b c : wrap64 (a + wrap64 b + c) = wrap64 (a + b + c).
Proof. unfold wrap64. rewrite <- !Z.add_assoc, (Z.add_comm (b mod _)), (Z.add_comm b), !Z.add_assoc. by rewrite Zplus_mod_idemp_r. Qed.

Lemma history_start_inv capacity : history_inv [] (history_start capacity).
Proof. constructor; simpl; [lia | done | done | done]. Qed.

Lemma try_record_inv offered r h :
  stamped r -> history_inv offered h -> history_inv (offered ++ [r]) (history_try_record r h).
Proof.
  intros Hst [Hr Hc Ho Hs]. pose proof (history_capacity r h Hr) as Hcap.
  unfold history_try_record, accounted, write_failures, dropped_records in *.
  destruct (Z.ltb_spec (Z.of_nat (length (uh_chan h))) (uh_cap h)); constructor;
    unfold accounted, write_failures, dropped_records in *; simpl in *; try done.
  - rewrite !length_app. simpl. rewrite !Nat2Z.inj_add, Z.add_assoc. by apply wrap64_cong.
  - rewrite app_assoc. by apply sublist_app.
  - apply Forall_app_2; [done | by constructor].
  - rewrite length_app, Nat2Z.inj_add. rewrite wrap64_shift.
    match goal with |- wrap64 ?a = _ => replace a with
      (Z.of_nat (length (uh_written h)) + uh_write_failures h + uh_dropped h + Z.of_nat (length (uh_chan h)) + 1) by lia end.
    by apply wrap64_cong.
  - by apply sublist_inserts_r.
Qed.

Lemma record_all_inv records : forall offered h,
  Forall stamped records -> history_inv offered h -> history_inv (offered ++ records) (record_all records h).
Proof.
  induction records as [| r records IH]; intros offered h Hst Hinv; [by rewrite app_nil_r |].
  apply Forall_cons in Hst as [Hr Hst]. rewrite cons_middle, app_assoc. apply IH; [done |].
  by apply try_record_inv.
Qed.

Lemma record_all_queue records : forall h,
  (length (uh_chan (record_all records h)) <= length (uh_chan h) + length records)%nat.
Proof.
  induction records as [| r records IH]; intros h; simpl; [lia |].
  etransitivity; [apply IH |]. unfold history_try_record. destruct (_ <? _); simpl; [rewrite length_app; simpl |]; lia.
Qed.

Lemma history_worker_inv offered ok h h' :
  history_worker ok h = Some h' -> history_inv offered h -> history_inv offered h'.
Proof.
  unfold history_worker. destruct (uh_chan h) as [| r rest] eqn:Hq; [done |]. intros [= <-] [Hr Hc Ho Hs].
  unfold accounted, write_failures, dropped_records in *. rewrite Hq in *. simpl in *.
  apply Forall_cons in Hs as [_ Hs].
  destruct (ok r); constructor; unfold accounted, write_failures, dropped_records; simpl; try done; try lia.
  - rewrite length_app. simpl. rewrite <- Hc. f_equal. lia.
  - by rewrite <- app_assoc.
  - rewrite <- Z.add_assoc, wrap64_shift, <- Hc. f_equal. lia.
  - etransitivity; [| exact Ho]. apply sublist_app; [done | by apply sublist_cons].
Qed.
End History.

(** ** Invariant *)

Section MonitorProps.
Context `{JsonFloat} `{Sha256} {J : Type} `{Jitter J}
  (parse_datetime : string -> option Z) (to_rfc3339_millis : Z -> string)
  (to_json : UsageKeySnapshot -> bytes) (directory : string).

(** An RFC 3339 timestamp starts with the ten characters of its date. *)
Hypothesis stamp_date : forall t, is_Some (str_to_10 (to_rfc3339_millis t)).

Abbreviation outside := (outside (J := J)).
Abbreviation inside := (inside (J := J) parse_datetime to_rfc3339_millis to_json directory).
Abbreviation reached := (reached (J := J) parse_datetime to_rfc3339_millis to_json directory).

(** [start_with_observers] with a fresh history writer, or with none. *)
Inductive starts : UsageMonitor J -> UsageSnapshotStore -> Prop :=
| starts_history keys pool capacity snapshots files :
    starts (start_with_observers keys pool (Some (history_start capacity)) snapshots files) snapshots
| starts_bare keys pool snapshots files :
    starts (start_with_observers keys pool None snapshots files) snapshots.

(** The keys the task last took are the current ones, unless a change is still
    to be seen. *)
Definition keys_inv (m : UsageMonitor J) : Prop :=
  (um_seen m <= um_version m)%nat /\
  match um_phase m with
  | Top => True
  | Fetching _ keys => um_polled m = keys /\ (um_seen m = um_version m -> keys = um_keys m)
  | Waiting _ | Ended => um_seen m = um_version m -> um_polled m = um_keys m
  end.

(** Who is still there. *)
Definition owner_inv (m : UsageMonitor J) : Prop :=
  (um_stop m = true <-> um_owner m <> Live) /\
  (um_owner m = JoinHistory -> um_phase m = Ended) /\
  (um_phase m = Ended -> um_owner m <> Live) /\
  match ps_history (um_poll m) with
  | None => um_thread m = false
  | Some h => um_thread m = true \/ (sink_left m = false /\ uh_chan h = [])
  end.

Definition records_inv (snapshots : UsageSnapshotStore) (m : UsageMonitor J) : Prop :=
  ps_snapshots (um_poll m) = Some (store_all (um_offered m) snapshots) /\
  forall h, ps_history (um_poll m) = Some h -> history_inv to_rfc3339_millis (um_offered m) h.

Lemma starts_inv m snapshots : starts m snapshots -> keys_inv m /\ owner_inv m /\ records_inv snapshots m.
Proof.
  destruct 1; unfold keys_inv, owner_inv, records_inv, start_with_observers; cbn; split_and!; try done; auto.
  intros h [= <-]. apply history_start_inv.
Qed.

Ltac monitor_cbn := cbn [um_keys um_version um_seen um_handles um_stop um_owner um_phase um_poll um_thread um_files
  um_polled um_offered ps_history ps_snapshots ps_pool set_keys set_owner set_phase set_poll set_history replace_keys
  keys_handle shutdown drop_monitor uh_chan] in *.

Lemma monitor_outside_inv snapshots m m' :
  outside m m' -> keys_inv m -> owner_inv m -> records_inv snapshots m ->
  keys_inv m' /\ owner_inv m' /\ records_inv snapshots m'.
Proof.
  unfold keys_inv, owner_inv, records_inv, sink_left.
  intros Hout (Hv & Hk) (Hs & Hj & He & Hh) (Hm & Hr).
  destruct Hout as [m keys Hn | m Hn | m n Hn | m e Hp | m pool | m Ho | m Ho]; monitor_cbn;
    try (rewrite Hp in *); (split; [split |]; [lia | | split; [split_and! |]]); try done; try tauto.
  - destruct (um_phase m) as [| ? ? | |]; [done | split; [tauto | lia] | lia | lia].
  - intros Ho'. by apply Hj in Ho'.
  - destruct (ps_history (um_poll m)); [| done]. destruct Hh as [? | [Hh ?]]; [by left |].
    by rewrite Ho in *.
  - destruct (ps_history (um_poll m)); [| done]. destruct Hh as [? | [Hh ?]]; [by left |].
    destruct Ho as [Ho | Ho]; by rewrite Ho in *.
Qed.

Lemma poll_inv snapshots now threshold at_ results (m : UsageMonitor J) s :
  poll_round parse_datetime to_rfc3339_millis now threshold at_ results (um_poll m) = Some s ->
  records_inv snapshots m ->
  records_inv snapshots
    (set_poll (Waiting false) s (um_offered m ++ snapshots_of to_rfc3339_millis now results) m).
Proof.
  intros [Hh Hm]%poll_round_observers [Hs Hr]. unfold records_inv. monitor_cbn. split.
  - rewrite Hm, Hs. unfold store_all. cbn. by rewrite foldl_app.
  - intros h Heq. rewrite Hh in Heq. apply fmap_Some in Heq as (h0 & Heq & ->).
    apply record_all_inv; [apply snapshots_of_stamped | by apply Hr].
Qed.

Lemma monitor_worker_inv snapshots threshold now at_ results b m m' :
  real_instant at_ -> worker_step parse_datetime to_rfc3339_millis threshold now at_ results b m = Some m' ->
  keys_inv m -> owner_inv m -> records_inv snapshots m -> keys_inv m' /\ owner_inv m' /\ records_inv snapshots m'.
Proof.
  intros Hat Hw (Hv & Hk) (Hs & Hj & He & Hh) Hrec. unfold worker_step in Hw.
  assert (forall phase seen, um_phase m <> Ended -> (phase = Ended -> um_owner m <> Live) ->
    owner_inv (set_phase seen phase (um_polled m) m)) as Hown.
  { intros phase seen Hne Hlive. unfold owner_inv, sink_left in *. monitor_cbn. split_and!; try done.
    - intros Ho. by apply Hj in Ho.
    - destruct (ps_history (um_poll m)); [| done]. destruct Hh as [? | [Hh ?]]; [by left |].
      destruct (um_owner m), (um_phase m); try done. }
  destruct (um_phase m) as [| n keys | e |] eqn:Hp; [| | | done].
  - injection Hw as <-. split; [| split; [| done]]; [unfold keys_inv; monitor_cbn; auto |].
    by apply (Hown (Fetching now (um_keys m)) (um_seen m)).
  - destruct (bool_decide_reflect (results.*1 = keys)) as [<- |]; [| done]. cbn [negb] in Hw.
    destruct (poll_round_total parse_datetime to_rfc3339_millis n threshold at_ results (um_poll m) Hat) as [s Hround].
    rewrite Hround in Hw. injection Hw as <-. split; [| split].
    + unfold keys_inv. monitor_cbn. destruct Hk as [-> Hk]. auto.
    + unfold owner_inv, sink_left in *. rewrite Hp in *. monitor_cbn. split_and!; try done.
      * intros Ho. by apply Hj in Ho.
      * apply poll_round_observers in Hround as [-> _]. destruct (ps_history (um_poll m)); cbn; [| done].
        destruct Hh as [? | [Hh ?]]; [by left |]. by destruct (um_owner m).
    + by apply (poll_inv snapshots n threshold at_).
  - unfold select_branch in Hw. assert (forall phase seen polled m1, Some (set_phase seen phase polled m) = Some m1 ->
      (um_seen m <= seen <= um_version m)%nat -> polled = um_polled m ->
      phase = Top \/ (phase = Ended /\ seen = um_seen m /\ um_owner m <> Live) ->
      keys_inv m1 /\ owner_inv m1 /\ records_inv snapshots m1) as Hset.
    { intros phase seen polled m1 [= <-] Hb -> Hph. split_and!; [| | done].
      - unfold keys_inv. monitor_cbn. split; [lia |]. by destruct Hph as [-> | (-> & -> & _)].
      - apply Hown; [done |]. destruct Hph as [-> | (-> & _ & Hl)]; [done | auto]. }
    destruct b.
    + destruct e; [| done]. eapply Hset; [exact Hw | lia | done | by left].
    + destruct (um_seen m =? um_version m)%nat; cbn [negb] in Hw; [| eapply Hset; [exact Hw | lia | done | by left]].
      destruct (Nat.eqb_spec (senders m) 0); [| done]. eapply Hset; [exact Hw | lia | done | right].
      split_and!; [done | done |]. intros Ho. unfold senders in *. rewrite Ho in *. lia.
    + destruct (um_stop m) eqn:Hst; [| done]. eapply Hset; [exact Hw | lia | done | right]. tauto.
Qed.

Lemma write_total r a files : stamped to_rfc3339_millis r -> is_Some (write_history_record to_json directory r a files).
Proof.
  intros [t Ht]. unfold write_history_record, history_path. rewrite Ht. destruct (stamp_date t) as [day ->].
  destruct (fa_dir a), (fa_open a); cbn; try done. unfold append_file. by destruct (fa_record a).
Qed.

Lemma thread_inv snapshots a m m' :
  thread_step to_json directory a m = Some m' -> keys_inv m -> owner_inv m -> records_inv snapshots m ->
  keys_inv m' /\ owner_inv m' /\ records_inv snapshots m'.
Proof.
  unfold thread_step. destruct (um_thread m) eqn:Ht; [| done].
  destruct (ps_history (um_poll m)) as [h |] eqn:Hh; [| done].
  intros Hstep Hk (Hs & Hj & He & _) [Hm Hr]. specialize (Hr h Hh).
  destruct (uh_chan h) as [| r rest] eqn:Hq.
  - destruct (sink_left m) eqn:Hsink; [done |]. injection Hstep as <-. split_and!; [done | |].
    + unfold owner_inv, sink_left in *. monitor_cbn. split_and!; try done. by right.
    + unfold records_inv. monitor_cbn. split; [done |]. by intros ? [= <-].
  - destruct (write_total r a (um_files m)) as [[ok files] Hw].
    { pose proof (hi_stamped _ _ _ Hr) as Hst. rewrite Hq in Hst. by apply Forall_cons in Hst as [? _]. }
    rewrite Hw in Hstep. apply fmap_Some in Hstep as (h' & Hstep & ->). split_and!; [done | |].
    + unfold owner_inv. monitor_cbn. split_and!; try done. by left.
    + unfold records_inv. monitor_cbn. split; [done |]. intros ? [= <-]. by eapply history_worker_inv.
Qed.

Lemma owner_step_inv snapshots m m' :
  owner_step m = Some m' -> keys_inv m -> owner_inv m -> records_inv snapshots m ->
  keys_inv m' /\ owner_inv m' /\ records_inv snapshots m'.
Proof.
  intros Hstep Hk (Hs & Hj & He & Hh) Hrec.
  assert (um_phase m = Ended /\ (um_owner m = AwaitWorker \/ um_owner m = JoinHistory) /\
    exists owner, (owner = JoinHistory \/ owner = Gone) /\ m' = set_owner (um_handles m) (um_stop m) owner m)
    as (Hp & Ho & owner & Hown & ->).
  { unfold owner_step in Hstep. destruct (um_owner m) eqn:Ho, (um_phase m) eqn:Hp; try done;
      try (destruct (um_thread m); [done |]; injection Hstep as <-);
      try (injection Hstep as <-); eauto 10; by specialize (Hj eq_refl). }
  split_and!; [done | | done].
  unfold owner_inv, sink_left in *. monitor_cbn. rewrite Hp in *. split_and!.
  - destruct Hs as [Hs1 Hs2]. split; [by destruct Hown as [-> | ->] |]. intros _. apply Hs2.
    by destruct Ho as [-> | ->].
  - done.
  - by destruct Hown as [-> | ->].
  - destruct (ps_history (um_poll m)); [| done]. destruct Hh as [? | [_ ?]]; [by left |]. right.
    by destruct Hown as [-> | ->].
Qed.

Lemma monitor_reached_inv m0 m snapshots :
  starts m0 snapshots -> reached m0 m -> keys_inv m /\ owner_inv m /\ records_inv snapshots m.
Proof.
  intros Hstart. induction 1 as [| m m' _ (Hk & Ho & Hr) Hout | m m' _ (Hk & Ho & Hr) Hin].
  - by apply starts_inv.
  - by eapply monitor_outside_inv.
  - inversion Hin; subst; [by eapply monitor_worker_inv | by eapply thread_inv | by eapply owner_step_inv].
Qed.

(** C35. Every usage answer is accounted for.  At any moment after the start, the
    snapshot store holds what inserting the snapshots of all well-formed answers
    so far, in order, leaves in it; the records written followed by those still
    queued are a subsequence of these snapshots in their order; the queue holds
    its capacity; and the snapshots are exactly as many as the records written,
    queued, counted as dropped and counted as failed (with the counters' wrap). *)
Theorem records_accounted m0 snapshots m :
  starts m0 snapshots -> reached m0 m ->
  ps_snapshots (um_poll m) = Some (store_all (um_offered m) snapshots) /\
  forall h, ps_history (um_poll m) = Some h ->
    Z.of_nat (length (uh_chan h)) <= uh_cap h /\
    uh_written h ++ uh_chan h `sublist_of` um_offered m /\
    wrap64 (accounted h) = wrap64 (Z.of_nat (length (um_offered m))).
Proof.
  intros Hstart Hr. destruct (monitor_reached_inv m0 m snapshots Hstart Hr) as (_ & _ & Hs & Hh). split; [done |].
  intros h [Hroom Hcount Horder _]%Hh. done.
Qed.

(** ** Coming to rest *)

Definition unseen_cost (m : UsageMonitor J) : nat :=
  if (um_seen m =? um_version m)%nat then 1 else 5 + length (um_keys m).
Definition phase_cost (m : UsageMonitor J) : nat :=
  match um_phase m with
  | Top => 2 + length (um_keys m) + unseen_cost m
  | Fetching _ keys => 1 + length keys + unseen_cost m
  | Waiting elapsed => (if elapsed then 3 + length (um_keys m) else 0) + unseen_cost m
  | Ended => 0
  end.
Definition queue_cost (m : UsageMonitor J) : nat :=
  (from_option (fun h => length (uh_chan h)) 0 (ps_history (um_poll m)) + (if um_thread m then 1 else 0))%nat.
Definition owner_cost (m : UsageMonitor J) : nat :=
  match um_owner m with AwaitWorker => 2 | JoinHistory => 1 | Live | Gone => 0 end.

(** The steps left when nothing happens outside. *)
Definition cost (m : UsageMonitor J) : nat := (phase_cost m + queue_cost m + owner_cost m)%nat.

Lemma worker_cost threshold now at_ results b m m' :
  worker_step parse_datetime to_rfc3339_millis threshold now at_ results b m = Some m' ->
  (um_seen m <= um_version m)%nat -> (cost m' < cost m)%nat.
Proof.
  unfold worker_step, cost, phase_cost. intros Hw Hv. destruct (um_phase m) as [| n keys | e |]; [| | | done].
  - injection Hw as <-. unfold unseen_cost, queue_cost, owner_cost. monitor_cbn. lia.
  - destruct (bool_decide_reflect (results.*1 = keys)) as [Heq |]; [subst keys | done]. cbn [negb] in Hw.
    destruct (poll_round _ _ _ _ _ _ _) as [s |] eqn:Hround; injection Hw as <-;
      unfold unseen_cost, queue_cost, owner_cost; monitor_cbn; [| lia].
    apply poll_round_observers in Hround as [-> _].
    destruct (ps_history (um_poll m)) as [h |]; cbn [fmap option_fmap option_map from_option]; rewrite length_fmap; [| lia].
    pose proof (record_all_queue (snapshots_of to_rfc3339_millis n results) h).
    pose proof (snapshots_of_length to_rfc3339_millis n results). lia.
  - unfold select_branch in Hw. destruct b.
    + destruct e; [| done]. injection Hw as <-. unfold unseen_cost, queue_cost, owner_cost. monitor_cbn. lia.
    + destruct (Nat.eqb_spec (um_seen m) (um_version m)) as [Heq |]; cbn [negb] in Hw.
      * destruct (_ =? 0)%nat; [| done]. injection Hw as <-. unfold unseen_cost, queue_cost, owner_cost. monitor_cbn.
        rewrite Heq, Nat.eqb_refl. lia.
      * injection Hw as <-. unfold unseen_cost, queue_cost, owner_cost. monitor_cbn. rewrite Nat.eqb_refl.
        destruct (Nat.eqb_spec (um_seen m) (um_version m)); [done |]. lia.
    + destruct (um_stop m); [| done]. injection Hw as <-. unfold unseen_cost, queue_cost, owner_cost. monitor_cbn.
      destruct (_ =? _)%nat; lia.
Qed.

Lemma monitor_inside_cost m m' : inside m m' -> keys_inv m -> (cost m' < cost m)%nat.
Proof.
  intros Hin [Hv _]. destruct Hin as [threshold now at_ results b m m' _ Hw | a m m' Hw | m m' Hw].
  - by eapply worker_cost.
  - unfold thread_step in Hw. destruct (um_thread m) eqn:Ht; [| done].
    destruct (ps_history (um_poll m)) as [h |] eqn:Hh; [| done].
    unfold cost, phase_cost, unseen_cost, queue_cost, owner_cost. rewrite Ht, Hh. cbn [from_option].
    destruct (uh_chan h) as [| r rest] eqn:Hq.
    + destruct (sink_left m); [done |]. injection Hw as <-. monitor_cbn. cbn. rewrite Hq. cbn. lia.
    + destruct (write_history_record _ _ _ _ _) as [[ok files] |].
      * apply fmap_Some in Hw as (h' & Hw & ->). unfold history_worker in Hw. rewrite Hq in Hw. injection Hw as <-.
        monitor_cbn. destruct ok; cbn; lia.
      * injection Hw as <-. monitor_cbn. cbn. lia.
  - unfold owner_step in Hw. unfold cost, phase_cost, unseen_cost, queue_cost, owner_cost.
    destruct (um_owner m) eqn:Ho, (um_phase m) eqn:Hp; try done;
      try (destruct (um_thread m) eqn:Ht; [done |]); injection Hw as <-; monitor_cbn; rewrite ?Ht, ?Hp; lia.
Qed.

Definition at_rest (m : UsageMonitor J) : Prop := forall m', ~ inside m m'.

Lemma real_zero : real_instant 0.
Proof. split; by vm_compute. Qed.

Lemma rest_worker m :
  at_rest m ->
  um_phase m = Ended \/
  (um_phase m = Waiting false /\ um_seen m = um_version m /\ um_stop m = false /\ senders m <> 0%nat).
Proof.
  intros Hrest.
  assert (forall results b, worker_step parse_datetime to_rfc3339_millis (f64_of_Z 0) 0 0 results b m = None) as Hno.
  { intros results b. destruct (worker_step _ _ _ _ _ results b m) as [m' |] eqn:Hw; [| done].
    exfalso. by eapply Hrest, in_worker, Hw; apply real_zero. }
  unfold worker_step in Hno. destruct (um_phase m) as [| n keys | e |] eqn:Hp; [| | | by left].
  - by specialize (Hno [] Stop).
  - specialize (Hno ((fun key => (key, Err Transport)) <$> keys) Stop).
    rewrite <- list_fmap_compose, bool_decide_eq_true_2 in Hno by (by rewrite list_fmap_id).
    cbn [negb] in Hno. by destruct (poll_round _ _ _ _ _ _ _).
  - right. pose proof (Hno [] Timer) as Ht. pose proof (Hno [] Changed) as Hc. pose proof (Hno [] Stop) as Hs.
    unfold select_branch in *. destruct e; [done |]. destruct (um_stop m); [done |].
    destruct (Nat.eqb_spec (um_seen m) (um_version m)); [| done]. cbn [negb] in Hc.
    by destruct (Nat.eqb_spec (senders m) 0).
Qed.

Lemma rest_thread snapshots m h :
  at_rest m -> owner_inv m -> records_inv snapshots m -> ps_history (um_poll m) = Some h ->
  uh_chan h = [] /\ (um_thread m = true -> sink_left m = true).
Proof.
  intros Hrest (_ & _ & _ & Hh) [_ Hr] Heq. rewrite Heq in Hh.
  assert (thread_step to_json directory fs_ok m = None) as Hno.
  { destruct (thread_step _ _ _ m) as [m' |] eqn:Hw; [| done]. exfalso. by eapply Hrest, in_thread. }
  unfold thread_step in Hno. rewrite Heq in Hno. destruct Hh as [Ht | [_ Hq]].
  - rewrite Ht in Hno. destruct (uh_chan h) as [| r rest] eqn:Hq; [by destruct (sink_left m) |].
    destruct (write_history_record _ _ _ _ _) as [[ok files] |]; [| done].
    unfold history_worker in Hno. by rewrite Hq in Hno.
  - split; [done |]. intros Ht. rewrite Ht, Hq in Hno. by destruct (sink_left m).
Qed.

Inductive inside_steps : nat -> UsageMonitor J -> UsageMonitor J -> Prop :=
| inside_none m : inside_steps 0 m m
| inside_more k m m1 m2 : inside m m1 -> inside_steps k m1 m2 -> inside_steps (S k) m m2.

(** C34. The monitor settles.  Whatever happened so far, with keys replaced while a
    round is fetching, timers, signals and failed writes at any moment: when the
    outside is quiet the monitor makes at most [cost m] further steps; it stops
    only with an empty history queue, and either waiting for its timer with the
    current keys polled (a replacement is never missed), or completely shut
    down, task and history thread ended and the owner no longer waiting. *)
Theorem monitor_settles m0 snapshots m k m' :
  starts m0 snapshots -> reached m0 m -> inside_steps k m m' ->
  (k <= cost m)%nat /\
  (at_rest m' ->
     (forall h, ps_history (um_poll m') = Some h -> uh_chan h = []) /\
     ((um_owner m' = Live /\ um_phase m' = Waiting false /\ um_polled m' = um_keys m') \/
      (um_owner m' = Gone /\ um_phase m' = Ended /\ um_thread m' = false))).
Proof.
  intros Hstart Hreach Hsteps. assert (reached m0 m' /\ (k <= cost m)%nat) as [Hreach' Hcost].
  { induction Hsteps as [m | k m m1 m2 Hin _ IH]; [split; [done | lia] |].
    destruct (monitor_reached_inv m0 m snapshots Hstart Hreach) as (Hk & _). pose proof (monitor_inside_cost m m1 Hin Hk).
    destruct IH; [by eapply reached_inside | split; [done | lia]]. }
  split; [done |]. intros Hrest. destruct (monitor_reached_inv m0 m' snapshots Hstart Hreach') as (Hk & Ho & Hr).
  split; [intros h Hh; by destruct (rest_thread snapshots m' h Hrest Ho Hr Hh) |].
  pose proof Ho as (Hs & Hj & He & Hh). destruct (rest_worker m' Hrest) as [Hp | (Hp & Hv & Hst & _)].
  - right. assert (um_thread m' = true -> sink_left m' = true) as Ht.
    { destruct (ps_history (um_poll m')) as [h |] eqn:Hh'; [by destruct (rest_thread snapshots m' h Hrest Ho Hr Hh') | congruence]. }
    assert (owner_step m' = None) as Hno.
    { destruct (owner_step m') as [m1 |] eqn:Hw; [| done]. exfalso. by eapply Hrest, in_owner. }
    unfold owner_step in Hno. unfold sink_left in Ht. rewrite Hp in *.
    destruct (um_owner m') eqn:Hown; [by specialize (He eq_refl) | done | | ];
      destruct (um_thread m'); try done; by specialize (Ht eq_refl).
  - left. assert (um_owner m' = Live) as Hown.
    { destruct (um_owner m') eqn:Hown; [done | exfalso..]; destruct Hs as [_ Hs];
        rewrite Hs in Hst by done; done. }
    split_and!; [done | done |]. unfold keys_inv in Hk. rewrite Hp in Hk. by apply Hk.
Qed.
End MonitorProps.

(** ** At concrete inputs *)

#[local] Existing Instance demo_sha256.
#[local] Existing Instance demo_usage_json.
#[local] Existing Instance demo_usage_float.
Definition demo_stamp (_ : Z) : string := "2026-01-02T03:04:05.678Z".
Definition demo_line (r : UsageKeySnapshot) : bytes := as_bytes (uk_key_fingerprint r).

Abbreviation demo_worker := (worker_step (J := NoJitter) demo_date demo_stamp (f64_of_Z 80) 10 0).
Abbreviation demo_thread := (thread_step (J := NoJitter) demo_line "/h" fs_ok).

(** One key is being polled when it is replaced and the monitor is shut down. *)
Definition demo_m0 : UsageMonitor NoJitter :=
  start_with_observers [secret_new "sk-alpha"] demo_pool (Some (history_start 1)) ∅ ∅.
Definition demo_m1 := default demo_m0 (demo_worker [] Stop demo_m0).
Definition demo_m2 := replace_keys [secret_new "sk-beta"] demo_m1.
Definition demo_m3 := shutdown demo_m2.
Definition demo_m4 := default demo_m0 (demo_worker [(secret_new "sk-alpha", Ok (as_bytes "{u}"))] Stop demo_m3).
Definition demo_m5 := default demo_m0 (demo_thread demo_m4).
Definition demo_m6 := default demo_m0 (demo_worker [] Stop demo_m5).
Definition demo_m7 := default demo_m0 (owner_step demo_m6).
Definition demo_m8 := default demo_m0 (demo_thread demo_m7).
Definition demo_m9 := default demo_m0 (owner_step demo_m8).

Abbreviation demo_reached := (reached (J := NoJitter) demo_date demo_stamp demo_line "/h" demo_m0).
Abbreviation demo_inside := (inside (J := NoJitter) demo_date demo_stamp demo_line "/h").

Lemma demo_worker_inside results b m :
  is_Some (demo_worker results b m) -> demo_inside m (default demo_m0 (demo_worker results b m)).
Proof. intros [m' Hm]. rewrite Hm. by eapply in_worker, Hm; apply real_zero. Qed.

Lemma demo_m3_reached : demo_reached demo_m3.
Proof.
  apply (reached_outside _ _ _ _ _ demo_m2); [| by apply out_shutdown].
  apply (reached_outside _ _ _ _ _ demo_m1); [| apply out_replace; vm_compute; lia].
  apply (reached_inside _ _ _ _ _ demo_m0); [apply reached_start |].
  apply demo_worker_inside. by eexists.
Qed.

Lemma demo_shuts_down : inside_steps demo_date demo_stamp demo_line "/h" 6 demo_m3 demo_m9.
Proof.
  eapply inside_more; [apply (demo_worker_inside [(secret_new "sk-alpha", Ok (as_bytes "{u}"))] Stop demo_m3); vm_compute; by eexists |].
  eapply inside_more; [apply in_thread with (a := fs_ok) (m' := demo_m5); vm_compute; reflexivity |].
  eapply inside_more; [apply (demo_worker_inside [] Stop demo_m5); vm_compute; by eexists |].
  eapply inside_more; [apply in_owner with (m' := demo_m7); vm_compute; reflexivity |].
  eapply inside_more; [apply in_thread with (a := fs_ok) (m' := demo_m8); vm_compute; reflexivity |].
  eapply inside_more; [apply in_owner with (m' := demo_m9); vm_compute; reflexivity |].
  apply inside_none.
Qed.

Lemma demo_stamp_date t : is_Some (str_to_10 (demo_stamp t)).
Proof. vm_compute. by eexists. Qed.

Lemma demo_m4_reached : demo_reached demo_m4.
Proof.
  apply (reached_inside _ _ _ _ _ demo_m3); [apply demo_m3_reached |].
  apply demo_worker_inside. vm_compute. by eexists.
Qed.

Lemma records_accounted_witness :
  length (um_offered demo_m4) = 1%nat /\
  forall h, ps_history (um_poll demo_m4) = Some h -> wrap64 (accounted h) = 1.
Proof.
  assert (length (um_offered demo_m4) = 1%nat) as Hone by (vm_compute; reflexivity).
  destruct (records_accounted demo_date demo_stamp demo_line "/h" demo_stamp_date demo_m0 ∅ demo_m4
    (starts_history _ _ 1 _ _) demo_m4_reached) as [_ Hh].
  split; [exact Hone |]. intros h Heq. destruct (Hh h Heq) as (_ & _ & Hc). rewrite Hc, Hone. reflexivity.
Defined.

Lemma monitor_settles_witness :
  (6 <= cost demo_m3)%nat /\ um_owner demo_m9 = Gone /\ length (um_offered demo_m9) = 1%nat /\
  um_files demo_m9 !! "/h/2026-01-02.jsonl"%string <> None.
Proof.
  destruct (monitor_settles demo_date demo_stamp demo_line "/h" demo_stamp_date demo_m0 ∅ demo_m3 6 demo_m9
    (starts_history _ _ 1 _ _) demo_m3_reached demo_shuts_down) as [Hk _].
  split; [exact Hk |]. split; [| split]; vm_compute; [reflexivity | reflexivity | discriminate].
Defined.
