(* ===== verification/Routes.v ===== *)
(** * The router and its other endpoints ([src/src/gateway.rs])

    [build_router], the probes, the two authenticated read-only endpoints and
    the two fallbacks.  Matching a path and a method against a route is the web
    framework's; so are the rendering of floats and of dates. *)
From S2P Require Export Requests Usage.

(** ** The route table *)

(** What a route runs. *)
Inductive Endpoint :=
| Healthz
| Readyz
| Models
| Status
| Proxied (api : UpstreamApi)
| MethodNotAllowed
| NotFound.

#[global] Instance Endpoint_eq_dec : EqDecision Endpoint.
Proof. solve_decision. Defined.

(** [get(..)] and [post(..)] of the framework. *)
Inductive MethodFilter := Get | Post.

(** The routes of [build_router], each with [method_not_allowed] as fallback. *)
Definition ROUTES : list (string * (MethodFilter * Endpoint)) :=
  [("/healthz", (Get, Healthz));
   ("/readyz", (Get, Readyz));
   ("/v1/models", (Get, Models));
   ("/v1/status", (Get, Status));
   ("/v1/chat/completions", (Post, Proxied ChatCompletions));
   ("/v1/messages", (Post, Proxied Messages));
   ("/v1/responses", (Post, Proxied Responses))].

(** The framework: does a route match a path, a filter a method. *)
Class WebRouter := {
  path_matches : string -> string -> bool;
  method_matches : MethodFilter -> string -> bool;
}.

(** [build_router] *)
Definition build_router `{WebRouter} (path method : string) : Endpoint :=
  match list_find (fun r : string * (MethodFilter * Endpoint) => Is_true (path_matches r.1 path)) ROUTES with
  | Some (_, (_, (filter, endpoint))) => if method_matches filter method then endpoint else MethodNotAllowed
  | None => NotFound
  end.

(** ** Endpoints *)

Section Endpoints.
Context `{SerdeJson} `{HttpHeaders} `{Sha256} `{CtEq} {Url Sem J Http Sink UsageM ModelM Error : Type}
  `{Jitter J} `{Semaphore Sem} `{AuditSink Sink}.
Abbreviation gateway := (AppRuntime Url Sem J Http Sink UsageM ModelM).
Abbreviation shared := (gateway * Z)%type.

(** The empty answer with a status. *)
Definition status_only (status : Z) : Response := mk_resp status [] NoBody.

(** [axum::Json] with a status *)
Definition json_response (doc : Ser) : Response :=
  mk_resp 200 [("content-type", FromText "application/json")] (JsonBody doc).

(** [healthz] *)
Definition healthz : Response := status_only 200.

(** [readyz] *)
Definition readyz (now : Instant) : task shared Response :=
  closed ← gets (fun g : gateway => queue_is_closed (app_queue g));
  if closed : bool then mret (service_unavailable (Some 1))
  else available ← gets (fun g : gateway => has_available_key now (app_pool g));
       mret (if negb available then rate_limited 1 else status_only 200).

(** What these handlers read from outside: the clocks at the start, when the
    answer is built and when the record is written, and the source of request
    identifiers. *)
Record PlainEnv := mk_plain_env {
  pe_start : Instant;
  pe_now : Instant;
  pe_end : Instant;
  pe_wall : Instant -> Z;
  pe_epoch : option Z;
}.

(** [record_audit_rejected], and the answer. *)
Definition record_audit_rejected (env : PlainEnv) (request_id : string) (status : Z) (response : Response)
    : task shared Response :=
  _ ← modify (record (audit_rejected request_id status (pe_wall env (pe_end env)) (pe_end env - pe_start env)
                        (mk_request_audit None None None None [])));
  mret response.

(** [method_not_allowed] and [not_found] *)
Definition method_not_allowed (env : PlainEnv) (headers : HeaderMap) : task shared Response :=
  request_id ← draw_request_id headers (pe_epoch env);
  record_audit_rejected env request_id 405 (openai_error 405 "Method Not Allowed" "invalid_request_error" None).
Definition not_found (env : PlainEnv) (headers : HeaderMap) : task shared Response :=
  request_id ← draw_request_id headers (pe_epoch env);
  record_audit_rejected env request_id 404 (openai_error 404 "Not Found" "invalid_request_error" None).

(** The object for one model, and [models]. *)
Definition model_object (id : string) : Ser :=
  SStruct [("id", SStr id); ("object", SStr "model"); ("created", SNum 0); ("owned_by", SStr "orihsus")].
Definition models (env : PlainEnv) (headers : HeaderMap) : task shared Response :=
  request_id ← draw_request_id headers (pe_epoch env);
  auth ← gets (fun g : gateway => check_auth (app_runtime g) headers);
  match auth with
  | None => record_audit_rejected env request_id 401 unauthorized
  | Some _ =>
      rt ← gets (fun g : gateway => app_runtime g);
      let body := SStruct [("object", SStr "list"); ("data", SSeq (model_object <$> rt_models rt))] in
      record_audit_rejected env request_id 200 (json_response body)
  end.

(** The libraries of [status]: floats and dates, conversion of durations; the
    build's version and commit; the snapshot store and the start instant. *)
Context (ser_f64 : spec_float -> Ser) (to_rfc3339 : Z -> string) (chrono_from_std : Duration -> option Z)
  (version commit : string).

(** [<UsageWindowSnapshot as Serialize>::serialize], and the object of the
    three windows. *)
Definition serialize_window (w : UsageWindowSnapshot) : Ser :=
  SStruct [("status", ser_opt SStr (uw_status w)); ("percent", ser_opt ser_f64 (uw_percent w));
           ("resetsAt", ser_opt SStr (uw_resets_at w))].
Definition usage_object (u : UsageKeySnapshot) : Ser :=
  SStruct [("rolling", serialize_window (uk_rolling u)); ("weekly", serialize_window (uk_weekly u));
           ("monthly", serialize_window (uk_monthly u))].

(** The object for one key. *)
Definition key_object (aliases : gmap string string) (snapshots : UsageSnapshotStore) (wall_now : Z)
    (key : PoolKeyStatus) : Ser :=
  let usage := store_get (st_usage_fingerprint key) snapshots in
  let cooling_until := remaining ← st_cooling_remaining key;
                       duration ← chrono_from_std remaining;
                       Some (to_rfc3339 (wall_now + duration)) in
  SStruct [("id", SStr (st_id key)); ("name", ser_opt SStr (aliases !! st_usage_fingerprint key));
           ("health", SStr (st_health key)); ("cooling_reason", ser_opt SStr (st_cooling_reason key));
           ("cooling_until", ser_opt SStr cooling_until);
           ("usage_updated_at", ser_opt (SStr ∘ uk_timestamp) usage);
           ("usage", ser_opt usage_object usage)].

(** The order of [models.sort()]. *)
Definition str_le (a b : string) : Prop := Is_true (str_leb a b).
#[local] Instance str_le_dec : RelDecision str_le.
Proof. intros a b. unfold str_le. apply _. Defined.

(** The document of [status], and [status]. *)
Definition status_document (rt : RuntimeState Url) (keys : list PoolKeyStatus)
    (snapshots : UsageSnapshotStore) (wall_now : Z) (uptime : Duration) : Ser :=
  let items := key_object (rt_key_aliases rt) snapshots wall_now <$> keys in
  let models := merge_sort str_le (rt_models rt) in
  SStruct
    [("keys", SStruct [("count", SNum (Z.of_nat (length items))); ("items", SSeq items)]);
     ("models", SStruct [("count", SNum (Z.of_nat (length models))); ("allowlist", SSeq (SStr <$> models))]);
     ("service", SStruct [("version", SStr version); ("commit", SStr commit);
                          ("uptime_seconds", SNum (Dur.as_secs uptime))])].
Definition status (env : PlainEnv) (snapshots : UsageSnapshotStore) (started_at : Instant)
    (headers : HeaderMap) : task shared Response :=
  request_id ← draw_request_id headers (pe_epoch env);
  auth ← gets (fun g : gateway => check_auth (app_runtime g) headers);
  match auth with
  | None => record_audit_rejected env request_id 401 unauthorized
  | Some _ =>
      rt ← gets (fun g : gateway => app_runtime g);
      keys ← gets (fun g : gateway => status_snapshot (pe_now env) (app_pool g));
      let body := status_document rt keys snapshots (pe_wall env (pe_now env)) (pe_now env - started_at) in
      record_audit_rejected env request_id 200 (json_response body)
  end.

(** The proxied endpoints' libraries and the network. *)
Context (header_from_str : string -> option HeaderValue) (join : Url -> string -> option Url)
  (parse_from_rfc2822 : string -> option Z) (builder_error : Error)
  (post : Instant -> Url -> list (string * HeaderValue) -> bytes
            -> option (Duration * result Error UpstreamResponse)).

(** A request to an endpoint.  [chat_completions], [messages] and [responses] are
    [proxy_request] at their upstream interface. *)
Definition handle_endpoint (env : PlainEnv) (proxy_env : RequestEnv) (snapshots : UsageSnapshotStore)
    (started_at : Instant) (endpoint : Endpoint) (headers : HeaderMap) : task shared Response :=
  match endpoint with
  | Healthz => mret healthz
  | Readyz => readyz (pe_now env)
  | Models => models env headers
  | Status => status env snapshots started_at headers
  | Proxied api => proxy_request header_from_str join parse_from_rfc2822 builder_error post proxy_env headers api
  | MethodNotAllowed => method_not_allowed env headers
  | NotFound => not_found env headers
  end.

End Endpoints.

(** ** Theorems *)

Section RoutesTheorems.
Context `{SerdeJson} `{HttpHeaders} `{Sha256} `{CtEq} {Url Sem J Http Sink UsageM ModelM Error : Type}
  `{Jitter J} `{SemaphoreLaws Sem} `{AuditSink Sink}.
Context (ser_f64 : spec_float -> Ser) (to_rfc3339 : Z -> string) (chrono_from_std : Duration -> option Z)
  (version commit : string)
  (header_from_str : string -> option HeaderValue) (join : Url -> string -> option Url)
  (parse_from_rfc2822 : string -> option Z) (builder_error : Error)
  (post : Instant -> Url -> list (string * HeaderValue) -> bytes
            -> option (Duration * result Error UpstreamResponse)).
Abbreviation gateway := (AppRuntime Url Sem J Http Sink UsageM ModelM).
Abbreviation shared := (gateway * Z)%type.
Abbreviation handle := (handle_endpoint ser_f64 to_rfc3339 chrono_from_std version commit
  header_from_str join parse_from_rfc2822 builder_error post).
Abbreviation books := (ledger_protocol (Sem := Sem) (Sink := Sink) (Url := Url) (J := J) (Http := Http)
  (UsageM := UsageM) (ModelM := ModelM) 0 0 0).
Abbreviation sees := (@seeing shared).
Implicit Types g : gateway.
Implicit Types s : shared.

(** The endpoints that leave no record. *)
Definition probe (endpoint : Endpoint) : bool := bool_decide (endpoint = Healthz \/ endpoint = Readyz).

(** A request holds nothing at its end and has written its record, a probe none. *)
Definition endpoint_ends (endpoint : Endpoint) (y : ledger) (resp : Response) : Prop :=
  if probe endpoint then y = empty_ledger else ends 0 0 0 0 y resp.

Lemma draw_follows {B} (Q : ledger -> B -> Prop) headers epoch k :
  (forall id, follows books Q empty_ledger (k id)) ->
  follows books Q empty_ledger (draw_request_id headers epoch ≫= k).
Proof.
  intros Hk. apply follows_act. intros s _. split; [done |]. exists empty_ledger. split; [apply step_counter | apply Hk].
Qed.

Lemma recorded_follows env id status resp :
  rs_status resp = status -> tells id resp ->
  follows books (ends 0 0 0 0) empty_ledger (record_audit_rejected env id status resp).
Proof.
  intros Hs Ht. apply follows_record; [done | done |]. eexists. split; [done |]. by split.
Qed.

(** No endpoint keeps a permit, and each writes the record it owes. *)
Lemma endpoint_follows env proxy_env snapshots started endpoint headers :
  follows books (endpoint_ends endpoint) empty_ledger (handle env proxy_env snapshots started endpoint headers).
Proof.
  assert (forall id message kind code st, tells id (openai_error st message kind code)) as Herr by (intros; apply tells_error).
  assert (forall id doc, tells id (json_response doc)) as Hdoc by (intros id doc v Hv; by apply list_elem_of_singleton in Hv).
  assert (forall e t, probe e = false -> follows books (ends 0 0 0 0) empty_ledger t -> follows books (endpoint_ends e) empty_ledger t)
    as Hends by (intros e t Hp Ht; unfold endpoint_ends; by rewrite Hp).
  destruct endpoint as [| | | | api | |]; cbn [handle_endpoint]; [| | apply Hends; [done |]..].
  - done.
  - apply follows_gets; [done.. |]. intros [|]; [done |]. by apply follows_gets.
  - apply draw_follows. intros id. apply follows_gets; [done.. |].
    intros [identity |]; [| apply recorded_follows; [done | apply Herr]].
    apply follows_gets; [done.. |]. intros rt. apply recorded_follows; [done | apply Hdoc].
  - apply draw_follows. intros id. apply follows_gets; [done.. |].
    intros [identity |]; [| apply recorded_follows; [done | apply Herr]].
    apply follows_gets; [done.. |]. intros rt. apply follows_gets; [done.. |]. intros keys. apply recorded_follows; [done | apply Hdoc].
  - apply request_follows.
  - apply draw_follows. intros id. apply recorded_follows; [done | apply Herr].
  - apply draw_follows. intros id. apply recorded_follows; [done | apply Herr].
Qed.

Lemma draw_alive {B} g0 n x (Q : nat -> B -> Prop) headers epoch k :
  (n < x)%nat -> (forall id, follows (alive g0) Q n (k id)) -> follows (alive g0) Q x (draw_request_id headers epoch ≫= k).
Proof.
  intros Hx Hk. apply follows_act. intros s Hs. split; [done |]. exists n. split; [simpl; lia | apply Hk].
Qed.

Lemma gets_alive {A B} g0 n x (Q : nat -> B -> Prop) (f : gateway -> A) k :
  (n < x)%nat -> (forall v, follows (alive g0) Q n (k v)) -> follows (alive g0) Q x (gets f ≫= k).
Proof. intros Hx Hk. apply follows_asks. intros s Hs. exists n. split; [simpl; lia | apply Hk]. Qed.

(** Every endpoint answers, in a bounded number of operations. *)
Lemma endpoint_alive env proxy_env snapshots started endpoint headers g0 first inter T :
  (forall api, endpoint = Proxied api -> env_ok join post proxy_env g0 first inter T api) -> constants_ok first inter g0 ->
  follows (alive g0) (fun _ _ => True) (request_operations (key_wait (app_pool g0))) (handle env proxy_env snapshots started endpoint headers).
Proof.
  intros Henv Hco. assert (23 <= request_operations (key_wait (app_pool g0)))%nat as Henough by apply Nat.le_add_r.
  assert (forall n env id status resp, (0 < n)%nat -> follows (alive g0) (fun _ _ => True) n (record_audit_rejected env id status resp)) as Hrec.
  { intros n e id st resp Hn. apply alive_changes; [lia | | done]. intros s Hs. by apply same_with. }
  destruct endpoint as [| | | | api | |]; cbn [handle_endpoint].
  - done.
  - apply (gets_alive g0 2); [lia |]. intros [|]; [done |]. apply (gets_alive g0 1); [lia | done].
  - apply (draw_alive g0 3); [lia |]. intros id. apply (gets_alive g0 2); [lia |].
    intros [identity |]; [| apply Hrec; lia]. apply (gets_alive g0 1); [lia |]. intros rt. apply Hrec; lia.
  - apply (draw_alive g0 4); [lia |]. intros id. apply (gets_alive g0 3); [lia |].
    intros [identity |]; [| apply Hrec; lia]. apply (gets_alive g0 2); [lia |]. intros rt.
    apply (gets_alive g0 1); [lia |]. intros keys. apply Hrec; lia.
  - eapply request_alive; [by apply Henv | done].
  - apply (draw_alive g0 1); [lia |]. intros id. apply Hrec; lia.
  - apply (draw_alive g0 1); [lia |]. intros id. apply Hrec; lia.
Qed.

(** Credentials that are valid in a state the request saw. *)
Definition saw_key headers (seen : list shared) : Prop :=
  exists s, s ∈ seen /\ is_Some (check_auth (app_runtime s.1) headers).

Lemma saw_key_guards headers y (t : task shared Response) :
  saw_key headers y -> follows sees (fun y a => rs_status a = 200 -> saw_key headers y) y t.
Proof.
  intros Hy. eapply follows_mono; [apply (follows_seeing (saw_key headers)); [| exact Hy] | done].
  intros x s (s1 & Hs & Ha). exists s1. split; [by apply elem_of_app; left | done].
Qed.

Lemma refused_guards headers y env id status resp :
  rs_status resp <> 200 ->
  follows sees (fun y a => rs_status a = 200 -> saw_key headers y) y (record_audit_rejected env id status resp).
Proof. intros Hr. apply follows_changes. intros s _. split; [done |]. eexists. split; [done |]. by intros ?. Qed.

(** The endpoints that are not proxied answer 200 only to a probe or to a request
    with a valid gateway key in a state it saw, whatever the other tasks do. *)
Theorem plain_endpoints_guarded env proxy_env snapshots started endpoint headers others s resp s' :
  (forall api, endpoint <> Proxied api) ->
  run others 0 (handle env proxy_env snapshots started endpoint headers) s = Goes resp s' -> rs_status resp = 200 ->
  probe endpoint = true \/ saw_key headers (saw others 0 (handle env proxy_env snapshots started endpoint headers) s).
Proof.
  intros Hplain Hrun H200. destruct (probe endpoint) eqn:Hp; [by left | right].
  refine (follows_saw (fun y a => rs_status a = 200 -> saw_key headers y) others _ 0 [] s resp s' _ Hrun H200).
  destruct endpoint as [| | | | api | |]; [done | done | | | by destruct (Hplain api) | |]; cbn [handle_endpoint];
    (apply follows_act; intros s1 _; split; [done |]; eexists; split; [done |]); cbn [fst snd];
    try (by apply refused_guards).
  all: apply follows_asks; intros s2 _; eexists; (split; [done |]);
    destruct (check_auth (app_runtime s2.1) headers) eqn:Hauth; [| by apply refused_guards];
    apply saw_key_guards; exists s2; (split; [set_solver | by eexists]).
Qed.

(** Readiness is exact: the gateway is ready when it still admits requests
    and some key is not cooling, so that a request would be given one; a
    closing gateway answers 503, one whose keys all cool answers 429, and both
    refusals say when to come back.  It changes nothing. *)
Theorem readyz_exact now g counter :
  exists resp, run_alone (readyz now) (g, counter) = Goes resp (g, counter)
  /\ (rs_status resp = 200 <->
     queue_is_closed (app_queue g) = false
     /\ exists e, e ∈ entries (Pool.state (app_pool g)) /\ later_than (ke_cooling_until e) now = false)
  /\ (rs_status resp = 503 <-> queue_is_closed (app_queue g) = true)
  /\ (rs_status resp <> 200 -> ("retry-after", FromText "1") ∈ rs_headers resp).
Proof.
  assert (has_available_key now (app_pool g) = true <->
    exists e, e ∈ entries (Pool.state (app_pool g)) /\ later_than (ke_cooling_until e) now = false) as Hav.
  { unfold has_available_key. rewrite existsb_exists. setoid_rewrite negb_true_iff.
    by setoid_rewrite list_elem_of_In. }
  unfold run_alone, readyz. cbn -[has_available_key queue_is_closed].
  destruct (queue_is_closed (app_queue g)); [| cbn -[has_available_key]; destruct (has_available_key now (app_pool g))];
    eexists; (split; [reflexivity |]); rewrite <- Hav; simpl; split_and!; try done; try set_solver; split; done || (by intros [? ?]).
Qed.
End RoutesTheorems.

(** ** At concrete inputs *)

(** Paths are compared literally; [get] also answers HEAD. *)
#[local] Instance demo_router : WebRouter := {|
  path_matches route path := String.eqb route path;
  method_matches f m := match f with Get => String.eqb m "GET" || String.eqb m "HEAD" | Post => String.eqb m "POST" end;
|}.

Example demo_routes :
  [build_router "/v1/messages" "POST"; build_router "/v1/messages" "GET"; build_router "/readyz" "HEAD";
   build_router "/v1" "GET"] = [Proxied Messages; MethodNotAllowed; Readyz; NotFound].
Proof. reflexivity. Qed.

#[local] Existing Instance demo_sha256.
#[local] Existing Instance demo_proxy_serde.
#[local] Existing Instance demo_proxy_http.
#[local] Existing Instance demo_proxy_ct_eq.

Definition demo_plain_env : PlainEnv := mk_plain_env 100 150 200 id (Some 7).

Definition demo_status : task demo_shared Response :=
  handle_endpoint (fun _ => SNull) (fun _ => "now") Some "1.0" "abc" demo_from demo_join (fun _ => None) () demo_post
    demo_plain_env demo_env ∅ 0 Status demo_request_headers.

Lemma plain_endpoints_guarded_witness :
  saw_key demo_request_headers (saw (fun _ => id) 0 demo_status demo_start).
Proof.
  destruct (plain_endpoints_guarded (fun _ => SNull) (fun _ => "now") Some "1.0" "abc" demo_from demo_join (fun _ => None)
    () demo_post demo_plain_env demo_env ∅ 0 Status demo_request_headers (fun _ => id) demo_start _ _
    ltac:(discriminate) (goes_default (run_alone demo_status demo_start) (invalid_model, demo_start)
      ltac:(vm_compute; reflexivity)) ltac:(vm_compute; reflexivity)) as [[=] | Hsaw]. exact Hsaw.
Defined.
