(* ===== verification/Traffic.v ===== *)
(** * Any number of requests

    The requests of the router interleaved: what the semaphores and the audit log
    hold in every reachable state, and that all requests get their answers. *)
From S2P Require Export Routes.

(** ** Sums over the books *)

(** The records of all tasks. *)
Definition records_of (xs : list (option ledger)) : list AuditRecord :=
  concat (from_option lg_records [] <$> xs).

Lemma records_insert xs i x y recs :
  xs !! i = Some x -> from_option lg_records [] y = from_option lg_records [] x ++ recs ->
  records_of (<[i := y]> xs) ≡ₚ records_of xs ++ recs.
Proof.
  intros Hi Hy. unfold records_of. rewrite insert_take_drop by (by eapply lookup_lt_Some).
  rewrite <- (take_drop_middle xs i x Hi) at 3. rewrite !fmap_app, !concat_app. simpl. rewrite Hy. solve_Permutation.
Qed.

Section Traffic.
Context `{SerdeJson} `{HttpHeaders} `{Sha256} `{CtEq} {Url Sem J Http Sink UsageM ModelM Error : Type}
  `{Jitter J} `{SemaphoreLaws Sem} `{AuditSink Sink} `{WebRouter}.
Context (ser_f64 : spec_float -> Ser) (to_rfc3339 : Z -> string) (chrono_from_std : Duration -> option Z)
  (version commit : string)
  (header_from_str : string -> option HeaderValue) (join : Url -> string -> option Url)
  (parse_from_rfc2822 : string -> option Z) (builder_error : Error)
  (post : Instant -> Url -> list (string * HeaderValue) -> bytes
            -> option (Duration * result Error UpstreamResponse)).
(** What the thread behind the audit sink does. *)
Context (sink_step : Sink -> Sink -> Prop).
Abbreviation gateway := (AppRuntime Url Sem J Http Sink UsageM ModelM).
Abbreviation shared := (gateway * Z)%type.
Implicit Types g : gateway.
Implicit Types s : shared.
Abbreviation handle := (handle_endpoint ser_f64 to_rfc3339 chrono_from_std version commit
  header_from_str join parse_from_rfc2822 builder_error post).

(** The answer with the endpoint that gave it. *)
Abbreviation answered := (Endpoint * Response)%type.

(** A request, from its method and path on. *)
Definition serve_request (env : PlainEnv) (proxy_env : RequestEnv) (snapshots : UsageSnapshotStore)
    (started_at : Instant) (path method : string) (headers : HeaderMap) : task shared answered :=
  let endpoint := build_router path method in
  resp ← handle env proxy_env snapshots started_at endpoint headers;
  mret (endpoint, resp).
Definition request_task (t : task shared answered) : Prop :=
  exists env proxy_env snapshots started_at path method headers,
    t = serve_request env proxy_env snapshots started_at path method headers.

(** It ends like its endpoint. *)
Definition served (y : ledger) (a : answered) : Prop := endpoint_ends a.1 y a.2.

Lemma request_task_follows t : request_task t -> follows (ledger_protocol 0 0 0) served empty_ledger t.
Proof.
  intros (env & penv & snaps & st & path & method & headers & ->).
  eapply follows_bind; [apply endpoint_follows |]. done.
Qed.

Lemma served_nothing (f : ledger -> Z) y a : (forall l, f (mk_ledger 0 0 0 0 l) = 0) -> served y a -> f y = 0.
Proof.
  intros Hf. unfold served, endpoint_ends. destruct (probe a.1); [intros -> | intros (r & -> & _)]; apply Hf.
Qed.

(** What the rest of the program does: the reloader, the monitors, the listener and
    the audit thread replace the runtime, the keys, the pool's state, the counter
    and the monitors at will and may close the queue; they keep the timeouts and
    the pool's policy and touch no permit. *)
Record outside s s' : Prop := {
  os_queue : app_queue s'.1 = app_queue s.1 \/ app_queue s'.1 = close_concurrency (app_queue s.1)
    \/ app_queue s'.1 = close_queue_slots (app_queue s.1);
  os_budget : app_body_budget s'.1 = app_body_budget s.1;
  os_streams : app_stream_slots s'.1 = app_stream_slots s.1;
  os_sink : app_audit s'.1 = app_audit s.1 \/ sink_step (app_audit s.1) (app_audit s'.1);
  os_constants : same_constants s.1 s'.1;
}.

(** The records offered to a sink whose thread works meanwhile. *)
Inductive offered (a : Sink) : list AuditRecord -> Sink -> Prop :=
| offered_none : offered a [] a
| offered_record l b r : offered a l b -> offered a (l ++ [r]) (sink_record r b)
| offered_meanwhile l b b' : offered a l b -> sink_step b b' -> offered a l b'.

Lemma offered_app a l b recs :
  offered a l b -> offered a (l ++ recs) (foldl (fun sink r => sink_record r sink) b recs).
Proof.
  revert l b. induction recs as [| r recs IH]; intros l b Hb; simpl; [by rewrite app_nil_r |].
  rewrite cons_middle, app_assoc. apply IH. by constructor.
Qed.

(** At the start nobody waits. *)
Record fresh g : Prop := {
  fr_room : room g;
  fr_line : sem_idle (aq_concurrency (app_queue g));
  fr_body_line : sem_idle (bb_sem (app_body_budget g));
}.

(** The state accounts for what all tasks hold, wait for and have written, from the
    start at [s0] on. *)
Record accounted s0 s (xs : list (option ledger)) : Prop := {
  ac_admission : admission_left s.1 + sum_over lg_admission xs = admission_left s0.1;
  ac_queue : queue_left s.1 + sum_over lg_queue xs = queue_left s0.1;
  ac_body : body_left s.1 + per_request s0.1 * sum_over lg_body xs = body_left s0.1;
  ac_streams : streams_left s.1 + sum_over lg_stream xs = streams_left s0.1;
  ac_line : forall t, sem_in_line (aq_concurrency (app_queue s.1)) t = sum_over (fun x => ticket_is (lg_ticket x) t) xs;
  ac_body_line : forall t, sem_in_line (bb_sem (app_body_budget s.1)) t = sum_over (fun x => ticket_is (lg_body_ticket x) t) xs;
  ac_per : per_request s.1 = per_request s0.1;
  ac_open : budget_open s.1 = budget_open s0.1;
  ac_room : room s.1;
  ac_log : exists log, offered (app_audit s0.1) log (app_audit s.1) /\ log ≡ₚ records_of xs;
  ac_ok : forall i x, xs !! i = Some (Some x) -> ledger_ok x;
}.

Lemma accounted_start s0 : fresh s0.1 -> accounted s0 s0 [].
Proof.
  intros [Hr Hl Hb]. split; simpl; try lia; try done.
  - intros t. unfold sem_in_line, in_line. by rewrite Hl.
  - intros t. unfold sem_in_line, in_line. by rewrite Hb.
  - exists []. split; [constructor | done].
Qed.

(** Everybody has the place in the line that the ledger shows. *)
Lemma ticket_claim (f : ledger -> option nat) (sm : Sem) xs i x :
  (forall t, sem_in_line sm t = sum_over (fun x => ticket_is (f x) t) xs) -> xs !! i = Some (Some x) ->
  forall t, f x = Some t -> t ∈ sem_line sm.
Proof.
  intros Hl Hi t Ht. apply sem_in_line_iff.
  assert (ticket_is (f x) t <= sem_in_line sm t) as Hle.
  { rewrite Hl. apply (sum_over_lookup (fun x => ticket_is (f x) t) xs i x); [| done].
    intros j y _. unfold ticket_is. by case_decide. }
  rewrite Ht in Hle. unfold ticket_is in Hle. rewrite decide_True in Hle by done.
  pose proof (in_line_range (sem_view sm) t). unfold sem_in_line in *. lia.
Qed.

Lemma accounted_standing s0 s xs i x : accounted s0 s xs -> xs !! i = Some (Some x) -> standing x s.1.
Proof.
  intros Hac Hi. split; [apply Hac | by eapply Hac | |].
  - intros t Ht. by apply (ticket_claim lg_ticket _ xs i x (ac_line _ _ _ Hac)).
  - intros t Ht. by apply (ticket_claim lg_body_ticket _ xs i x (ac_body_line _ _ _ Hac)).
Qed.

(** One ledger changes with an operation that has the matching effect. *)
Lemma accounted_change s0 s s' xs i x y :
  accounted s0 s xs -> xs !! i = Some (Some x) -> ledger_step x s s' (default empty_ledger y) ->
  accounted s0 s' (<[i := y]> xs).
Proof.
  intros Hac Hi Hstep. destruct (Hstep (accounted_standing _ _ _ _ _ Hac Hi)) as [Hr' Bq Bb Bs (recs & Elog & Hrec) Bp Bok].
  destruct Hac as [Ha Hq Hb Hs Hl Hbl Hp Ho Hr (log & Hlog & Hperm) Hok].
  assert (forall f : ledger -> Z, f empty_ledger = 0 -> sum_over f (<[i := y]> xs) = sum_over f xs - f x + f (default empty_ledger y)) as Ht.
  { intros f Hf. rewrite (sum_over_insert _ _ _ _ _ Hi). by destruct y; simpl; rewrite ?Hf. }
  destruct Bq as [_ [_ Qp Ql _ _ _ _] Qs _ _ _ _], Bb as [_ Bp' Bl _ Bc _ _].
  unfold admission_left, body_left, queue_left, sem_unheld, sem_in_line in *. simpl in Qp, Ql, Qs, Bp', Bl. rewrite Hp in Bp'.
  split; [.. | exact Hr' | |].
  - rewrite Ht by done. unfold admission_left, sem_unheld. lia.
  - rewrite Ht by done. unfold queue_left. lia.
  - rewrite Ht by done. unfold body_left, sem_unheld. lia.
  - rewrite Ht by done. lia.
  - intros t. rewrite Ht by done. specialize (Hl t). specialize (Ql t). unfold sem_in_line. lia.
  - intros t. rewrite Ht by done. specialize (Hbl t). specialize (Bl t). unfold sem_in_line. lia.
  - congruence.
  - rewrite <- Ho. unfold budget_open. by rewrite !view_closed, Bc.
  - exists (log ++ recs). split; [rewrite Elog; by apply offered_app |].
    rewrite (records_insert _ _ _ y recs Hi); [by rewrite Hperm |]. simpl. rewrite <- Hrec. by destruct y.
  - intros j z Hj. destruct (decide (i = j)) as [<- | Hne].
    + rewrite list_lookup_insert_eq in Hj by (by eapply lookup_lt_Some). injection Hj as ->. exact Bok.
    + rewrite list_lookup_insert_ne in Hj by done. eauto.
Qed.

(** Closing the queue takes nothing. *)
Lemma outside_queue s s' :
  outside s s' -> room s.1 ->
  room s'.1 /\ admission_left s'.1 = admission_left s.1 /\ queue_left s'.1 = queue_left s.1
  /\ forall t, sem_in_line (aq_concurrency (app_queue s'.1)) t = sem_in_line (aq_concurrency (app_queue s.1)) t.
Proof.
  intros [Hq Hb Hs _ _] [[Hwf Hi Hsl] Hbw Hsi Hf].
  assert (sem_wf (per_request s'.1) (bb_sem (app_body_budget s'.1)) /\ sem_idle (app_stream_slots s'.1) /\ 0 <= streams_left s'.1) as (? & ? & ?).
  { unfold per_request, streams_left. by rewrite Hb, Hs. }
  unfold admission_left, queue_left. destruct (sem_close_wf _ _ Hwf) as (Hwf' & Hu & Hl & _).
  destruct Hq as [Hq | [Hq | Hq]]; (split; [split; [| done..] |]); rewrite Hq; simpl; try done; split; simpl; try done.
  - unfold sem_idle in *. by rewrite view_close.
  - rewrite view_available, view_close. cbn. by rewrite <- view_available.
  - split; [| done]. rewrite !view_available, view_close. done.
Qed.

Lemma accounted_invariant s0 : world_invariant (ledger_protocol 0 0 0) empty_ledger outside (accounted s0).
Proof.
  split.
  - done.
  - intros s xs [Ha Hq Hb Hs Hl Hbl Hp Ho Hr (log & Hlog & Hperm) Hok].
    split; rewrite ?sum_over_app; simpl; try lia; try done.
    + intros t. rewrite sum_over_app, Hl. unfold ticket_is. simpl. lia.
    + intros t. rewrite sum_over_app, Hbl. unfold ticket_is. simpl. lia.
    + exists log. split; [done |]. unfold records_of in *. rewrite fmap_app, concat_app. simpl. by rewrite app_nil_r.
    + intros i x Hi. apply lookup_app_Some in Hi as [Hi | [_ Hi]]; [eauto |].
      apply list_lookup_singleton_Some in Hi as [_ [= <-]]. by repeat split.
  - intros s xs i x s' y Hac Hi _ Hstep. by apply (accounted_change s0 s s' xs i x (Some y)).
  - intros s xs i x s' Hac Hi _ Hstep. by apply (accounted_change s0 s s' xs i x None).
  - intros s xs s' [Ha Hq Hb Hs Hl Hbl Hp Ho Hr (log & Hlog & Hperm) Hok] Hout.
    destruct (outside_queue _ _ Hout Hr) as (Hr' & Ha' & Hq' & Hl'). destruct Hout as [_ Ob Os Hsink [_ _ _ Oo]].
    unfold body_left, streams_left, per_request in *. rewrite <- Ob in *. rewrite <- Os in *.
    split; try done; try lia; try congruence.
    + intros t. by rewrite Hl', Hl.
    + exists log. split; [| done]. destruct Hsink as [-> | Hstep]; [done | by eapply offered_meanwhile].
Qed.

(** What the ledger of a task says of it. *)
Definition book_ok (x : option ledger) (p : proc shared answered) : Prop :=
  match p, x with
  | Live (Ret a), Some x => served x a
  | Live (Op _ _), Some x => ledger_ok x
  | Cancelled, None => True
  | _, _ => False
  end.

Lemma books_of s0 w (starts : task shared answered -> Prop) :
  (forall t, starts t -> request_task t) -> fresh s0.1 -> rtc (acts starts outside) (s0, []) w ->
  exists xs, Forall2 (proc_ok (ledger_protocol 0 0 0) served) xs w.2 /\ accounted s0 w.1 xs.
Proof.
  intros Hst Hr Hrun. eapply reachable_ok; [apply accounted_invariant | | by apply accounted_start | exact Hrun].
  intros t Ht. apply request_task_follows. auto.
Qed.

Lemma rest_holds_nothing (f : ledger -> Z) xs (ps : list (proc shared answered)) :
  (forall l, f (mk_ledger 0 0 0 0 l) = 0) ->
  Forall2 (proc_ok (ledger_protocol 0 0 0) served) xs ps -> Forall (fun p => at_rest p = true) ps ->
  sum_over f xs = 0.
Proof.
  intros Hf Hps Hrest. apply sum_over_zero. intros i x Hi.
  destruct (Forall2_lookup_l _ _ _ _ _ Hps Hi) as (p & Hp & Hok).
  rewrite Forall_lookup in Hrest. specialize (Hrest i p Hp). destruct p as [[resp | c op] |]; [| done | done].
  by eapply served_nothing.
Qed.

(** Every task has its book. *)
Lemma books_match s0 s xs (ps : list (proc shared answered)) :
  accounted s0 s xs -> Forall2 (proc_ok (ledger_protocol 0 0 0) served) xs ps -> Forall2 book_ok xs ps.
Proof.
  intros Hac Hps. apply Forall2_same_length_lookup_2; [by eapply Forall2_length |]. intros i x p Hx Hp.
  pose proof (Forall2_lookup_lr _ _ _ _ _ _ Hps Hx Hp) as Hok.
  destruct p as [[resp | c op] |], x as [x |]; try done. by eapply (ac_ok _ _ _ Hac).
Qed.

Lemma nobody_in_line (f : ledger -> option nat) (sm : Sem) xs :
  (forall t, sem_in_line sm t = sum_over (fun x => ticket_is (f x) t) xs) ->
  (forall t, sum_over (fun x => ticket_is (f x) t) xs = 0) -> sem_line sm = [].
Proof.
  intros Hl Hz. destruct (sem_line sm) as [| t line] eqn:Hs; [done |].
  assert (t ∈ sem_line sm) as Ht%sem_in_line_iff by (rewrite Hs; by left). rewrite Hl, Hz in Ht. done.
Qed.

(** C3. However the requests interleave with each other, with dropped connections
    and with the rest of the program: what is taken from the four semaphores is
    exactly what the unfinished requests hold, none is overdrawn, the lines hold
    exactly those that wait, and once every request is finished or dropped each
    semaphore is what it was and nobody is in line, so no path leaks capacity or
    a place; and the records offered to the audit sink are exactly those of the
    requests, one for each finished request that is not a probe, with the status
    and the identifier its client was told, none for a dropped one. *)
Theorem requests_accounted s0 w :
  fresh s0.1 -> rtc (acts request_task outside) (s0, []) w ->
  exists books, Forall2 book_ok books w.2 /\ accounted s0 w.1 books
    /\ (Forall (fun p => at_rest p = true) w.2 ->
        admission_left w.1.1 = admission_left s0.1 /\ queue_left w.1.1 = queue_left s0.1
        /\ body_left w.1.1 = body_left s0.1 /\ streams_left w.1.1 = streams_left s0.1
        /\ sem_line (aq_concurrency (app_queue w.1.1)) = [] /\ sem_line (bb_sem (app_body_budget w.1.1)) = []).
Proof.
  intros Hr Hrun. destruct (books_of s0 w request_task (fun t Ht => Ht) Hr Hrun) as (xs & Hps & Hac).
  exists xs. split_and!; [by eapply books_match | done |].
  intros Hrest. pose proof (fun f Hf => rest_holds_nothing f _ _ Hf Hps Hrest) as Hz. destruct Hac as [Ha Hq Hb Hs Hl Hbl _ _ _ _ _].
  rewrite Hz in Ha, Hq, Hb, Hs by done. split_and!; try lia.
  - eapply nobody_in_line; [exact Hl | intros t; by apply Hz].
  - eapply nobody_in_line; [exact Hbl | intros t; by apply Hz].
Qed.

(** The bodies in memory never exceed the budget. *)
Lemma body_budget_bounded s0 s xs :
  accounted s0 s xs ->
  per_request s0.1 * sum_over lg_body xs <= body_left s0.1
  /\ 0 <= budget_available (app_body_budget s.1) <= body_left s0.1 - per_request s0.1 * sum_over lg_body xs.
Proof.
  intros Hac. pose proof (ac_body _ _ _ Hac). pose proof (sem_available_unheld _ _ (rm_body _ (ac_room _ _ _ Hac))).
  unfold body_left, budget_available in *. lia.
Qed.

(** ** Progress *)

(** Requests whose clocks are in order, for a gateway with the constants of [g0]. *)
Definition request_in_time g0 (first inter : Duration) (T : Instant) (t : task shared answered) : Prop :=
  exists env proxy_env snapshots started_at path method headers,
    (forall api, build_router path method = Proxied api -> env_ok join post proxy_env g0 first inter T api)
    /\ t = serve_request env proxy_env snapshots started_at path method headers.

(** The countdowns of all tasks. *)
Definition counted g0 s (xs : list (option nat)) : Prop :=
  same_constants g0 s.1 /\ Forall (fun x => default 0%nat x <= request_operations (key_wait (app_pool g0)))%nat xs.

Lemma counted_invariant g0 : world_invariant (alive g0) (request_operations (key_wait (app_pool g0))) outside (counted g0).
Proof.
  split.
  - by intros s xs [Hs _].
  - intros s xs [Hs Hxs]. split; [done |]. apply Forall_app. split; [done |]. by constructor.
  - intros s xs i x s' y [Hs Hxs] Hi Hs' Hy. split; [done |]. apply Forall_insert; [done |].
    eapply Forall_lookup_1 in Hxs; [| exact Hi]. simpl in *. lia.
  - intros s xs i x s' [Hs Hxs] Hi Hs' _. split; [done |]. apply Forall_insert; [done | simpl; lia].
  - intros s xs s' [Hs Hxs] Hout. split; [| done]. etransitivity; [exact Hs | apply (os_constants _ _ Hout)].
Qed.

Lemma counts_of s0 w first inter T :
  constants_ok first inter s0.1 -> rtc (acts (request_in_time s0.1 first inter T) outside) (s0, []) w ->
  exists xs, Forall2 (proc_ok (alive s0.1) (fun _ _ => True)) xs w.2 /\ counted s0.1 w.1 xs.
Proof.
  intros Hco Hrun. eapply reachable_ok; [apply counted_invariant | | split; [done | constructor] | exact Hrun].
  intros t (env & penv & snaps & st & path & method & headers & Henv & ->).
  eapply follows_bind; [by eapply endpoint_alive |]. done.
Qed.

(** Every move counts down. *)
Definition left_over (xs : list (option nat)) : nat := sum_list_with (default 0%nat) xs.

Lemma left_over_insert xs i x y :
  xs !! i = Some (Some x) -> (y < x)%nat -> (left_over (<[i := Some y]> xs) < left_over xs)%nat.
Proof.
  intros Hi Hlt. unfold left_over. rewrite insert_take_drop by (by eapply lookup_lt_Some).
  rewrite <- (take_drop_middle xs i _ Hi) at 3. rewrite !sum_list_with_app. simpl. lia.
Qed.

Lemma left_over_bound k xs :
  Forall (fun x => default 0%nat x <= k)%nat xs -> (left_over xs <= k * length xs)%nat.
Proof. unfold left_over. induction 1; cbn [sum_list_with length]; lia. Qed.

Lemma moves_counted g0 n : forall (w w' : world shared answered) xs,
  Forall2 (proc_ok (alive g0) (fun _ _ => True)) xs w.2 -> same_constants g0 w.1.1 ->
  nsteps moves n w w' -> (n <= left_over xs)%nat.
Proof.
  induction n as [| n IH]; intros w w' xs Hps Hs Hrun; [lia |]. inversion Hrun as [| ? ? w1 ? Hmove Hrest]; subst.
  destruct Hmove as [s ps i c op t s' Hi Hop]. simpl in *.
  destruct (Forall2_lookup_r _ _ _ _ _ Hps Hi) as ([x |] & Hx & Hp); [| done].
  destruct Hp as [_ Hp]. specialize (Hp s Hs). rewrite Hop in Hp. destruct Hp as (Hs' & y & Hy & Ht).
  assert (n <= left_over (<[i := Some y]> xs))%nat.
  { apply (IH (s', <[i := Live t]> ps) w'); [by apply Forall2_insert | exact Hs' | exact Hrest]. }
  pose proof (left_over_insert _ _ _ _ Hx Hy). lia.
Qed.

(** Whether the next operation of a task goes on. *)
Definition can_go s (p : proc shared answered) : bool :=
  match p with Live (Op _ op) => match op s with Goes _ _ => true | _ => false end | _ => false end.

Lemma going_moves s ps : existsb (can_go s) ps = true -> exists w', moves (s, ps) w'.
Proof.
  intros (p & Hp & Hgo)%existsb_exists. apply list_elem_of_In, list_elem_of_lookup in Hp as [i Hi].
  destruct p as [[resp | c op] |]; [done | | done]. simpl in Hgo. destruct (op s) as [t s' | |] eqn:Hop; [| done | done].
  eexists. by econstructor.
Qed.

(** When somebody waits in a line for what is there, the first in the line need
    not wait any longer. *)
Lemma line_moves (f : ledger -> option nat) m (sm : Sem) xs i x t :
  sem_wf m sm -> m <= sem_unheld sm -> (forall t, sem_in_line sm t = sum_over (fun x => ticket_is (f x) t) xs) ->
  xs !! i = Some (Some x) -> f x = Some t -> sem_poll t sm = None ->
  exists j y u, xs !! j = Some (Some y) /\ f y = Some u /\ is_Some (sem_poll u sm).
Proof.
  intros Hwf Hm Hl Hi Ht Hp. pose proof (ticket_claim f sm xs i x Hl Hi t Ht) as Hin.
  destruct (sem_head_served m sm) as (u & Hu & Hserved); [done | | done | |].
  - destruct (sem_is_closed sm) eqn:Hc; [| done]. pose proof (view_poll t sm) as Hv. rewrite Hp in Hv.
    unfold fair_poll in Hv. rewrite view_closed in Hc. by rewrite Hc in Hv.
  - intros Hnil. rewrite Hnil in Hin. by apply not_elem_of_nil in Hin.
  - apply sem_in_line_iff in Hu. rewrite Hl in Hu.
    destruct (sum_over_nonzero (fun x => ticket_is (f x) u) xs) as (j & y & Hj & Hy); [lia |].
    unfold ticket_is in Hy. destruct (decide (f y = Some u)); [| done]. by exists j, y, u.
Qed.

(** When every task that is left waits, there is none: the waiters hold nothing
    that the others wait for. *)
Lemma nobody_waits s0 s (ps : list (proc shared answered)) xs :
  accounted s0 s xs -> Forall2 (proc_ok (ledger_protocol 0 0 0) served) xs ps ->
  0 < admission_left s0.1 -> per_request s0.1 <= body_left s0.1 ->
  (forall i c op, ps !! i = Some (Live (Op c op)) -> op s = Waits) ->
  Forall (fun p => at_rest p = true) ps.
Proof.
  intros Hac Hps Ha0 Hb0 Hwait.
  assert (forall i x, xs !! i = Some (Some x) ->
    waits_in_queue x s \/ waits_for_budget x s
    \/ exists resp, ps !! i = Some (Live (Ret resp)) /\ forall f : ledger -> Z, (forall l, f (mk_ledger 0 0 0 0 l) = 0) -> f x = 0) as Hcase.
  { intros i x Hi. destruct (Forall2_lookup_l _ _ _ _ _ Hps Hi) as (p & Hp & Hok).
    destruct p as [[resp | c op] |]; [right; right | | done].
    - exists resp. split; [done |]. intros f Hf. by eapply (served_nothing f).
    - destruct Hok as [_ Hok]. specialize (Hok s Logic.I). rewrite (Hwait i c op Hp) in Hok. by destruct Hok; [left | right; left]. }
  assert (sum_over lg_body xs = 0) as Hb.
  { apply sum_over_zero. intros i x Hi. destruct (Hcase i x Hi) as [(_ & ? & _) | [[? _] | (resp & _ & Hz)]]; [done | done | by apply Hz]. }
  assert (forall i x, xs !! i = Some (Some x) -> ~ waits_for_budget x s) as Hnobody.
  { intros i x Hi (_ & _ & t & Ht & Hp).
    destruct (line_moves lg_body_ticket (per_request s.1) (bb_sem (app_body_budget s.1)) xs i x t) as (j & y & u & Hj & Hu & Hs); try done.
    - apply (ac_room _ _ _ Hac).
    - pose proof (ac_body _ _ _ Hac) as Hbody. rewrite Hb in Hbody. rewrite (ac_per _ _ _ Hac). unfold body_left in *. lia.
    - apply Hac.
    - destruct (Hcase j y Hj) as [(_ & _ & Hn & _) | [(_ & _ & v & Hv & Hpv) | (resp & _ & Hz)]]; [congruence | |].
      + assert (u = v) as -> by congruence. rewrite Hpv in Hs. by destruct Hs.
      + specialize (Hz (fun x => waits (lg_body_ticket x)) (fun _ => eq_refl)). simpl in Hz. by rewrite Hu in Hz. }
  assert (sum_over lg_admission xs = 0) as Ha.
  { apply sum_over_zero. intros i x Hi. destruct (Hcase i x Hi) as [(? & _) | [Hw | (resp & _ & Hz)]]; [done | | by apply Hz].
    by destruct (Hnobody i x Hi). }
  apply Forall_lookup. intros i p Hp. destruct (Forall2_lookup_r _ _ _ _ _ Hps Hp) as (o & Hi & Hok).
  destruct p as [[resp | c op] |]; [done | | done]. destruct o as [x |]; [| done].
  exfalso. destruct (Hcase i x Hi) as [(_ & _ & _ & t & Ht & Hpt) | [Hw | (resp & Hret & _)]]; [| by destruct (Hnobody i x Hi) | congruence].
  destruct (line_moves lg_ticket 1 (aq_concurrency (app_queue s.1)) xs i x t) as (j & y & u & Hj & Hu & Hs); try done.
  - apply (ac_room _ _ _ Hac).
  - pose proof (ac_admission _ _ _ Hac) as Hadm. rewrite Ha in Hadm. unfold admission_left in *. lia.
  - apply Hac.
  - destruct (Hcase j y Hj) as [(_ & _ & _ & v & Hv & Hpv) | [Hw | (resp & _ & Hz)]]; [| by destruct (Hnobody j y Hj) |].
    + assert (u = v) as -> by congruence. rewrite Hpv in Hs. by destruct Hs.
    + specialize (Hz (fun x => waits (lg_ticket x)) (fun _ => eq_refl)). simpl in Hz. by rewrite Hu in Hz.
Qed.

Lemma requests_progress s0 w first inter T :
  constants_ok first inter s0.1 -> fresh s0.1 -> 0 < admission_left s0.1 -> per_request s0.1 <= body_left s0.1 ->
  rtc (acts (request_in_time s0.1 first inter T) outside) (s0, []) w ->
  (forall i c op, w.2 !! i = Some (Live (Op c op)) -> op w.1 <> Panics)
  /\ (Forall (fun p => at_rest p = true) w.2 \/ exists w', moves w w').
Proof.
  intros Hco Hr Ha Hb Hrun.
  destruct (counts_of s0 w first inter T Hco Hrun) as (ns & Hns & Hs & _).
  assert (forall i c op, w.2 !! i = Some (Live (Op c op)) -> op w.1 <> Panics) as Hno.
  { intros i c op Hi Hpan. destruct (Forall2_lookup_r _ _ _ _ _ Hns Hi) as ([n |] & _ & Hp); [| done].
    destruct Hp as [_ Hp]. specialize (Hp w.1 Hs). by rewrite Hpan in Hp. }
  split; [exact Hno |]. destruct (existsb (can_go w.1) w.2) eqn:Hgo.
  { right. destruct w as [s ps]. by apply going_moves. }
  left. destruct (books_of s0 w (request_in_time s0.1 first inter T)) as (xs & Hps & Hac); [| done | done |].
  { intros t (env & penv & snaps & st & path & method & headers & _ & ->). by eexists _, _, _, _, _, _, _. }
  eapply nobody_waits; [exact Hac | exact Hps | done | done |].
  intros i c op Hi. specialize (Hno i c op Hi). destruct (op w.1) as [t s' | |] eqn:Hop; [| done | done].
  assert (existsb (can_go w.1) w.2 = true) as Htrue; [| congruence].
  apply existsb_exists. exists (Live (Op c op)). split; [by eapply list_elem_of_In, list_elem_of_lookup_2 |].
  simpl. by rewrite Hop.
Qed.

(** Every request gets its answer: from any reachable state on, the requests alone
    run at most [request_operations] operations each, whichever runs next, and
    when none can run any more all of them are finished; nothing panics. *)
Lemma requests_terminate s0 w first inter T :
  constants_ok first inter s0.1 -> fresh s0.1 -> 0 < admission_left s0.1 -> per_request s0.1 <= body_left s0.1 ->
  rtc (acts (request_in_time s0.1 first inter T) outside) (s0, []) w ->
  forall n w', nsteps moves n w w' ->
    (n <= request_operations (key_wait (app_pool s0.1)) * length w.2)%nat
    /\ (forall i c op, w'.2 !! i = Some (Live (Op c op)) -> op w'.1 <> Panics)
    /\ (Forall (fun p => at_rest p = true) w'.2 \/ exists w'', moves w' w'').
Proof.
  intros Hco Hr Ha Hb Hrun n w' Hmoves. split.
  - destruct (counts_of s0 w first inter T Hco Hrun) as (ns & Hns & Hs & Hbound).
    pose proof (moves_counted _ _ _ _ _ Hns Hs Hmoves). pose proof (left_over_bound _ _ Hbound).
    rewrite (Forall2_length _ _ _ Hns) in *. lia.
  - eapply requests_progress; [done.. |]. etransitivity; [exact Hrun |].
    clear Hrun. induction Hmoves as [| n w1 w2 w3 Hmove _ IH]; [done |].
    eapply rtc_l; [by apply act_move | exact IH].
Qed.
End Traffic.

(** ** At concrete inputs *)

#[local] Existing Instance demo_sha256.
#[local] Existing Instance demo_proxy_serde.
#[local] Existing Instance demo_proxy_http.
#[local] Existing Instance demo_proxy_ct_eq.

#[local] Existing Instance demo_router.

(** Four requests at a gateway with two admission permits and one queue slot: two
    take turns, the third waits until its client disconnects, the fourth asks for
    the models. *)
Definition demo_serve (path method : string) : task demo_shared (Endpoint * Response) :=
  serve_request (fun _ => SNull) (fun _ => "now") Some "1.0" "abc" demo_from demo_join (fun _ => None) () demo_post
    demo_plain_env demo_env ∅ 0 path method demo_request_headers.
Definition demo_four : list (task demo_shared (Endpoint * Response)) :=
  [demo_serve "/v1/chat/completions" "POST"; demo_serve "/v1/chat/completions" "POST";
   demo_serve "/v1/chat/completions" "POST"; demo_serve "/v1/models" "GET"].
Definition demo_traffic : world demo_shared (Endpoint * Response) :=
  schedule (concat (replicate 30 [0; 1; 3]%nat))
    (drop_task 2 (schedule (concat (replicate 6 [0; 1; 2]%nat)) (demo_start, [] ++ (Live <$> demo_four)))).

Example demo_traffic_ends :
  ((fun p => match p with Live (Ret a) => Some (rs_status a.2) | _ => None end) <$> demo_traffic.2,
   ar_status <$> demo_records demo_traffic.1) = ([Some 200; Some 503; None; Some 200], [200; 503; 200]).
Proof. vm_compute. reflexivity. Qed.

Abbreviation demo_routed f := (f (fun _ => SNull) (fun _ => "now") Some "1.0" "abc" demo_from demo_join
  (fun _ => None) () demo_post) (only parsing).
Lemma all_at_rest {S A} (ps : list (proc S A)) : forallb at_rest ps = true -> Forall (fun p => at_rest p = true) ps.
Proof. intros Hps. by apply List.Forall_forall, forallb_forall. Qed.
Lemma demo_serve_request path method : demo_routed request_task (demo_serve path method).
Proof. by exists demo_plain_env, demo_env, ∅, 0, path, method, demo_request_headers. Qed.

Lemma demo_traffic_reached :
  rtc (acts (demo_routed request_task) (outside (fun _ _ => False))) (demo_start, []) demo_traffic.
Proof.
  assert (Forall (demo_routed request_task) demo_four) as Hfour.
  { unfold demo_four. repeat apply Forall_cons_2; [apply demo_serve_request.. | apply Forall_nil_2]. }
  unfold demo_traffic. etransitivity; [exact (starts_acts _ _ _ _ _ Hfour) |].
  etransitivity; [exact (moves_acts _ _ _ _ (schedule_moves (concat (replicate 6 [0; 1; 2]%nat)) _)) |].
  etransitivity; [exact (drop_task_acts _ _ 2 _) |].
  exact (moves_acts _ _ _ _ (schedule_moves (concat (replicate 30 [0; 1; 3]%nat)) _)).
Qed.

Lemma demo_fresh : fresh demo_start.1.
Proof.
  split; [split | done | done].
  - split; [exact (sem_new_wf (S := FairSem) 1 2 ltac:(lia) ltac:(lia)) | done | by apply Z.leb_le].
  - exact (sem_new_wf (S := FairSem) 100 200 ltac:(lia) ltac:(lia)).
  - done.
  - by apply Z.leb_le.
Qed.

Lemma requests_accounted_witness :
  exists books, Forall2 book_ok books demo_traffic.2
    /\ accounted (fun _ _ => False) demo_start demo_traffic.1 books
    /\ admission_left demo_traffic.1.1 = 2.
Proof.
  destruct (demo_routed requests_accounted (fun _ _ => False) demo_start demo_traffic) as (books & Hbooks & Hac & Hrest).
  - exact demo_fresh.
  - exact demo_traffic_reached.
  - exists books. split_and!; [exact Hbooks | exact Hac |]. apply Hrest, all_at_rest. vm_compute. reflexivity.
Defined.
