(* ===== verification/System.v ===== *)
(** * The gateway as a whole

    From the configuration file to the answers: what loads ([Config]) is
    assembled ([App]) and serves any number of interleaved requests ([Traffic]),
    while the other tasks reload, refresh, report and shut down in between. *)
From S2P Require Export Traffic.

Section System.
Context `{SerdeJson} `{HttpHeaders} `{Sha256} `{CtEq} {Url Sem J Http Sink UsageM ModelM Error : Type}
  `{Jitter J} `{SemaphoreLaws Sem} `{AuditSink Sink} `{WebRouter}.
Context (ser_f64 : spec_float -> Ser) (to_rfc3339 : Z -> string) (chrono_from_std : Duration -> option Z)
  (version commit : string)
  (header_from_str : string -> option HeaderValue) (join : Url -> string -> option Url)
  (parse_from_rfc2822 : string -> option Z) (builder_error : Error)
  (post : Instant -> Url -> list (string * HeaderValue) -> bytes
            -> option (Duration * result Error UpstreamResponse)).
Context (sink_step : Sink -> Sink -> Prop).
Abbreviation gateway := (AppRuntime Url Sem J Http Sink UsageM ModelM).
Abbreviation shared := (gateway * Z)%type.
Implicit Types g : gateway.
Implicit Types s : shared.

(** ** The rest of the program *)

(** The runtime and the pool, which the [RuntimeStore] publishes together. *)
Definition with_store (st : Store Url J) g : gateway :=
  mk_app (app_http g) (st_pool st) (app_queue g) (st_runtime st) (app_audit g) (app_body_budget g)
    (app_stream_slots g) (app_timeouts g) (app_model_event_timeouts g) (app_usage_monitor g) (app_model_monitor g).
Definition with_audit (sink : Sink) g : gateway :=
  with_shared (app_pool g) (app_queue g) (app_body_budget g) (app_stream_slots g) sink g.

(** What the other tasks do to the shared state: the reloader publishes keys and
    runtime, the model monitor a model list, the usage monitor a proactive
    cooldown; the shutdown closes the queue; the audit thread works; somebody
    draws a request identifier. *)
Inductive program_step : shared -> shared -> Prop :=
| ps_reload keys state st g c :
    update_with_keys keys state (mk_store Free (app_runtime g) (app_pool g)) = Ok st ->
    program_step (g, c) (with_store st g, c)
| ps_models models g c :
    program_step (g, c) (with_store (update_models models (mk_store Free (app_runtime g) (app_pool g))) g, c)
| ps_proactive fp cooldown now p g c :
    report_proactive_cooldown fp cooldown now (app_pool g) = Some p -> program_step (g, c) (with_pool p g, c)
| ps_close_concurrency g c : program_step (g, c) (with_queue (close_concurrency (app_queue g)) g, c)
| ps_close_slots g c : program_step (g, c) (with_queue (close_queue_slots (app_queue g)) g, c)
| ps_audit sink g c : sink_step (app_audit g) sink -> program_step (g, c) (with_audit sink g, c)
| ps_counter g c c' : program_step (g, c) (g, c').

(** They are outside steps of [Traffic]: they keep timeouts, policy and permits. *)
Lemma program_outside s s' : program_step s s' -> outside sink_step s s'.
Proof.
  intros Hstep. destruct Hstep as [keys state st g c Hup | models g c | fp cooldown now p g c Hp | g c | g c | sink g c Hs | g c c'];
    try (split; simpl; auto; split; done).
  - unfold update_with_keys in Hup. apply result_bind_ok in Hup as (pool & Hpool & [= <-]).
    unfold replace_keys in Hpool. apply result_bind_ok in Hpool as (? & _ & [= <-]).
    split; simpl; auto. by split.
  - apply report_proactive_reported in Hp as [Hp _]. split; simpl; auto. split; [done | done | apply Hp | done].
Qed.

(** ** From the configuration *)

(** What [assemble] takes from the configuration and nothing changes later. *)
Lemma assemble_constants {AuditError ClientError} MAX_PERMITS url_parse j0 client
    (audit_start : string -> Z -> result AuditError Sink) (usage_start : Usage.t -> string -> list Secret -> result ClientError UsageM)
    model_start cfg (app : gateway) :
  assemble MAX_PERMITS url_parse j0 client audit_start usage_start model_start cfg = Some (Ok app) ->
  app_timeouts app = io_timeouts_of (Config.server cfg)
  /\ app_model_event_timeouts app = Server.model_event_timeouts (Config.server cfg)
  /\ pool_policy (Config.key_failure_handling cfg) = Some (policy (app_pool app)).
Proof.
  unfold assemble. destruct client as [http | e]; [| done].
  intros (pol & Hpol & Hrun)%bind_Some. destruct (with_jitter (Config.keys cfg) pol j0) as [pool | e] eqn:Hpool; [| done].
  apply bind_Some in Hrun as (queue & _ & (rt & _ & Hrun)%bind_Some).
  destruct (audit_start _ _) as [audit | e]; [| done].
  apply bind_Some in Hrun as (budget & _ & (slots & _ & Hrun)%bind_Some).
  destruct (usage_start _ _ _) as [um | e]; [| done]. destruct (model_start _) as [mm | e]; [| done].
  injection Hrun as <-. simpl. rewrite Hpol. split_and!; [done | done |].
  unfold with_jitter in Hpool. apply result_bind_ok in Hpool as ([] & _ & Hpool).
  apply result_bind_ok in Hpool as ([] & _ & Hpool). by injection Hpool as <-.
Qed.

(** The semaphores are those of the limits. *)
Lemma assemble_permits {AuditError ClientError} MAX_PERMITS url_parse j0 client
    (audit_start : string -> Z -> result AuditError Sink) (usage_start : Usage.t -> string -> list Secret -> result ClientError UsageM)
    model_start cfg (app : gateway) :
  config_valid MAX_PERMITS cfg ->
  assemble MAX_PERMITS url_parse j0 client audit_start usage_start model_start cfg = Some (Ok app) ->
  fresh app /\ 0 < admission_left app /\ per_request app <= body_left app /\ budget_open app = true.
Proof.
  intros Hv. destruct (cv_limits _ _ Hv) as ([Hc _] & [Hq _] & _ & [Hb Hi] & _).
  unfold assemble. destruct client as [http | e]; [| done].
  intros (pol & _ & Hrun)%bind_Some. destruct (with_jitter (Config.keys cfg) pol j0) as [pool | e]; [| done].
  apply bind_Some in Hrun as (queue & Hqueue & (rt & _ & Hrun)%bind_Some).
  destruct (audit_start _ _) as [audit | e]; [| done].
  apply bind_Some in Hrun as (budget & Hbudget & (slots & Hslots & Hrun)%bind_Some).
  destruct (usage_start _ _ _) as [um | e]; [| done]. destruct (model_start _) as [mm | e]; [| done].
  injection Hrun as <-. unfold new_queue in Hqueue. apply bind_Some in Hqueue as (? & _ & (? & _ & Hqueue)%bind_Some).
  unfold queue_new in Hqueue. repeat case_match; simplify_eq.
  unfold new_budget in Hbudget. apply bind_Some in Hbudget as (per & Hper & (? & _ & Hbudget)%bind_Some).
  unfold u32_try_from in Hper. unfold budget_new in Hbudget. unfold checked_semaphore, max_streams in Hslots.
  repeat case_match; simplify_eq.
  destruct (sem_new_idle (Limits.max_concurrency (Config.limits cfg))) as (Hi1 & Ha1 & _).
  destruct (sem_new_idle (Limits.max_queue (Config.limits cfg))) as (Hi2 & Ha2 & _).
  destruct (sem_new_idle (Limits.max_inflight_body_bytes (Config.limits cfg))) as (Hi3 & Ha3 & Ho3).
  unfold admission_left, body_left, per_request, budget_open. simpl. rewrite !sem_idle_unheld by done.
  split_and!; [| lia | lia | by rewrite Ho3]. split; [split | done | done]; simpl.
  - split; simpl; [apply sem_new_wf; lia | done | lia].
  - apply sem_new_wf; unfold per_request; simpl; lia.
  - apply sem_new_idle.
  - unfold streams_left. simpl. rewrite (proj1 (proj2 (sem_new_idle _))). lia.
Qed.

(** The event timeouts of a configuration, whatever the model. *)
Definition events_within (cfg : Config.t) (first inter : Duration) : Prop :=
  forall model,
    let ev := event_timeouts_for (Server.model_event_timeouts (Config.server cfg)) (io_timeouts_of (Config.server cfg)) model in
    EventTimeouts.first_event_timeout ev <= first /\ EventTimeouts.inter_event_timeout ev <= inter.

Lemma config_constants MAX_PERMITS cfg (app : gateway) first inter :
  config_valid MAX_PERMITS cfg -> events_within cfg first inter ->
  app_timeouts app = io_timeouts_of (Config.server cfg) ->
  app_model_event_timeouts app = Server.model_event_timeouts (Config.server cfg) ->
  pool_policy (Config.key_failure_handling cfg) = Some (policy (app_pool app)) -> budget_open app = true ->
  constants_ok first inter app.
Proof.
  intros Hv Hev Ht He Hp Hopen. destruct (cv_server _ _ Hv) as (_ & _ & _ & Hh & Hf & Hi & Hm & Hb & Hw & _).
  destruct (pool_policy_valid _ (cv_key_failure _ _ Hv)) as (pol & Hpol & _ & _ & _ & _ & _ & _ & Hmax).
  rewrite Hp in Hpol. injection Hpol as Heq. destruct (cv_key_failure _ _ Hv) as (_ & _ & _ & _ & Hatt).
  unfold timeout_ok in *. split; rewrite ?Ht, ?He; simpl; [lia.. | | rewrite Heq, Hmax; lia | done].
  intros model. specialize (Hev model). unfold event_timeouts_for in *.
  destruct (Server.model_event_timeouts (Config.server cfg) !! model) as [ev |] eqn:Hlk; simpl in *; [| lia].
  destruct (Hm model ev Hlk) as (_ & ? & ?). lia.
Qed.

(** C2. Every request is answered.  Take a gateway assembled from a configuration
    that loads, and any state it can reach: requests have arrived, interleaved,
    lost their clients, and the rest of the program has acted in between.  Then
    nothing panics, and whichever request runs next, after at most
    [request_operations] operations each all of them have their answer: no
    request can wait for ever for another or for a key, as long as the clock does
    not go back and stays representable. *)
Theorem gateway_answers {AuditError ClientError} MAX_PERMITS url_parse j0 client
    (audit_start : string -> Z -> result AuditError Sink) (usage_start : Usage.t -> string -> list Secret -> result ClientError UsageM)
    model_start raw cfg (app : gateway) counter first inter T w :
  raw_typed raw -> config_try_from MAX_PERMITS raw = Ok cfg ->
  assemble MAX_PERMITS url_parse j0 client audit_start usage_start model_start cfg = Some (Ok app) ->
  events_within cfg first inter ->
  rtc (acts (request_in_time ser_f64 to_rfc3339 chrono_from_std version commit header_from_str join parse_from_rfc2822 builder_error post app first inter T)
         (outside sink_step)) ((app, counter), []) w ->
  forall n w', nsteps moves n w w' ->
    (n <= request_operations (key_wait (app_pool app)) * length w.2)%nat
    /\ (forall i c op, w'.2 !! i = Some (Live (Op c op)) -> op w'.1 <> Panics)
    /\ (Forall (fun p => at_rest p = true) w'.2 \/ exists w'', moves w' w'').
Proof.
  intros Htyped Hload Happ Hev Hrun.
  destruct (assemble_constants _ _ _ _ _ _ _ _ _ Happ) as (Ht & He & Hp).
  pose proof (config_try_from_valid _ _ _ Htyped Hload) as Hv.
  destruct (assemble_permits _ _ _ _ _ _ _ _ _ Hv Happ) as (Hroom & Hadm & Hbody & Hopen).
  eapply (requests_terminate ser_f64 to_rfc3339 chrono_from_std version commit header_from_str join parse_from_rfc2822 builder_error post sink_step (app, counter));
    [by eapply config_constants | exact Hroom | exact Hadm | exact Hbody | exact Hrun].
Qed.
End System.

(** ** At concrete inputs *)

#[local] Existing Instance demo_sha256.
#[local] Existing Instance demo_proxy_http.
#[local] Existing Instance demo_proxy_ct_eq.
#[local] Instance demo_system_serde : SerdeJson := toy_serde [("{k}", JObj [("model", JStr "deepseek-chat")])].

Abbreviation demo_app_type := (AppRuntime unit FairSem NoJitter unit (list AuditRecord) unit unit) (only parsing).

(** The gateway of [demo_raw]. *)
Definition demo_assembled : option (result (BootstrapError unit unit) demo_app_type) :=
  assemble demo_permits (fun _ => Some ()) no_jitter (Ok ()) (fun _ _ => Ok []) (fun _ _ _ => Ok ()) (fun _ => Ok ())
    demo_config.
Definition demo_app : demo_app_type :=
  match demo_assembled with Some (Ok app) => app | _ => demo_gateway end.

(** Two requests; of each the first key's upstream answers 500, the second's streams. *)
Definition demo_client : @HeaderMap toy_headers := [("Authorization", "Bearer client-token")].
Definition demo_system_env : RequestEnv :=
  mk_env 0 20 id (Some 1) false 0 (fun _ => Some (1, Ok (as_bytes "{k}"))) 0 demo_turn
    false [Some 1; Some 2; Some 3] 10.
#[local] Existing Instance demo_router.
Abbreviation demo_libraries f := (f (fun _ => SNull) (fun _ => "now") Some "1.0" "abc" demo_from demo_join
  (fun _ => None) () demo_post) (only parsing).
Definition demo_chat : task (demo_app_type * Z) (Endpoint * Response) :=
  demo_libraries serve_request demo_plain_env demo_system_env ∅ 0 "/v1/chat/completions" "POST" demo_client.
Abbreviation demo_system_state := (demo_app_type * Z)%type (only parsing).

(** The two take turns for a while. *)
Definition demo_busy : world demo_system_state (Endpoint * Response) :=
  schedule [0; 1; 0; 1; 1; 0; 0; 1; 0; 0; 1]%nat ((demo_app, 0), [] ++ (Live <$> [demo_chat; demo_chat])).

Example demo_busy_answered :
  let w := schedule (concat (replicate 30 [0; 1]%nat)) demo_busy in
  ((fun p => match p with Live (Ret r) => Some (rs_status r.2) | _ => None end) <$> w.2,
   (fun a => (ar_status a, ar_model a)) <$> app_audit w.1.1)
  = ([Some 200; Some 200], [(200, Some "deepseek-chat"); (200, Some "deepseek-chat")]).
Proof. vm_compute. reflexivity. Qed.

Lemma demo_events_within : events_within demo_config (Dur.from_secs 300) (Dur.from_secs 90).
Proof.
  intros model. unfold event_timeouts_for.
  destruct (Server.model_event_timeouts (Config.server demo_config) !! model) as [ev |] eqn:Hlk.
  - apply elem_of_map_to_list in Hlk. vm_compute in Hlk. apply list_elem_of_singleton in Hlk. injection Hlk as _ ->.
    split; by vm_compute.
  - split; by vm_compute.
Qed.

(** In order for every gateway with these constants. *)
Lemma demo_env_general (g : demo_app_type) :
  app_timeouts g = io_timeouts_of (Config.server demo_config) -> wait_timeout (policy (app_pool g)) = WAIT_TIMEOUT ->
  env_ok demo_join demo_post demo_system_env g (Dur.from_secs 300) (Dur.from_secs 90) 1000 ChatCompletions.
Proof.
  intros Ht Hp.
  assert (io_upstream_header (app_timeouts g) = Dur.from_secs 60
    /\ io_upstream_error_body (app_timeouts g) = Dur.from_secs 5 /\ io_response_write (app_timeouts g) = Dur.from_secs 30)
    as (Hh & He & Hw) by (rewrite Ht; split_and!; vm_compute; reflexivity).
  assert (key_wait (app_pool g) = WAIT_TIMEOUT) as Hk by (unfold key_wait; by rewrite Hp).
  clear Ht. split; rewrite ?Hh, ?He, ?Hw, ?Hk; simpl; try (intros; clock_lia); try done.
  - intros t u h b latency res [= <- _]. lia.
  - intros t u h b latency resp [= <- <-]. case_bool_decide; repeat constructor; simpl; lia.
  - repeat constructor; intros t [= <-]; lia.
Qed.

Lemma demo_in_time :
  demo_libraries request_in_time demo_app (Dur.from_secs 300) (Dur.from_secs 90) 1000 demo_chat.
Proof.
  exists demo_plain_env, demo_system_env, ∅, 0, "/v1/chat/completions", "POST", demo_client. split; [| done].
  intros api Hapi. vm_compute in Hapi. injection Hapi as <-. apply demo_env_general; vm_compute; reflexivity.
Qed.

Lemma demo_busy_reachable :
  rtc (acts (demo_libraries request_in_time demo_app (Dur.from_secs 300) (Dur.from_secs 90) 1000) (outside (fun _ _ => False))) ((demo_app, 0), []) demo_busy.
Proof.
  unfold demo_busy. etransitivity; [apply starts_acts | apply moves_acts, schedule_moves].
  repeat constructor; exact demo_in_time.
Qed.

Lemma gateway_answers_witness :
  demo_assembled = Some (Ok demo_app) /\
  (forall n w', nsteps moves n demo_busy w' -> (n <= request_operations (key_wait (app_pool demo_app)) * 2)%nat
     /\ (forall i c op, w'.2 !! i = Some (Live (Op c op)) -> op w'.1 <> Panics)
     /\ (Forall (fun p => at_rest p = true) w'.2 \/ exists w'', moves w' w'')).
Proof.
  assert (demo_assembled = Some (Ok demo_app)) as Happ by (vm_compute; reflexivity).
  split; [exact Happ |].
  exact (demo_libraries gateway_answers (fun _ _ => False) demo_permits (fun _ => Some ())
    no_jitter (Ok ()) (fun _ _ => Ok []) (fun _ _ _ => Ok ()) (fun _ => Ok ()) demo_raw demo_config demo_app 0
    (Dur.from_secs 300) (Dur.from_secs 90) 1000 demo_busy
    demo_raw_typed demo_raw_loads Happ demo_events_within demo_busy_reachable).
Defined.
