(* ===== verification/AuditTrail.v ===== *)
(** * The audit trail

    The requests of [Traffic] in front of the writer of [AuditLog]: what the
    files hold of the requests that were answered, while the writer's thread
    works, the log is rotated and the program shuts down. *)
From S2P Require Export System.

(** ** Splitting a history *)

(** [log] is [kept] and [lost] merged, each in its order. *)
Inductive shuffle {A} : list A -> list A -> list A -> Prop :=
| shuffle_nil : shuffle [] [] []
| shuffle_kept x kept lost log : shuffle kept lost log -> shuffle (kept ++ [x]) lost (log ++ [x])
| shuffle_lost x kept lost log : shuffle kept lost log -> shuffle kept (lost ++ [x]) (log ++ [x]).

Lemma shuffle_perm {A} (kept lost log : list A) : shuffle kept lost log -> log ≡ₚ kept ++ lost.
Proof. induction 1 as [| x k l m _ IH | x k l m _ IH]; [done | rewrite IH; solve_Permutation..]. Qed.

Section Trail.
Context {World Sink IoError : Type} `{AuditIoLaws World Sink IoError} `{EqDecision Sink}.
Abbreviation writer := (AuditWriter World Sink IoError).
Implicit Types w : writer.

(** What happens to the writer besides the records: the log is reopened, the
    thread runs, the sender is dropped by a shutdown or with the handle. *)
Inductive upkeep : writer -> writer -> Prop :=
| up_reopen path reply w w' : reopen_start path reply w = Ok w' -> upkeep w w'
| up_thread w w' : write_step w = Some w' -> upkeep w w'
| up_close w : upkeep w (with_chan false (aw_chan w) w)
| up_drop w : upkeep w (drop_writer w).

(** The records that still wait for the thread. *)
Definition queued w : list AuditRecord :=
  omap (fun c => match c with CmdRecord r => Some r | CmdReopen _ _ => None end) (aw_chan w).

(** Of the records offered so far, [taken] went to the files, each with the file
    that was open then, and [lost] were refused. *)
Record trail (world : World) (cap : Z) (log : list AuditRecord) w
    (taken : list (Sink * AuditRecord)) (lost : list AuditRecord) : Prop := {
  tr_log : shuffle (taken.*2 ++ queued w) lost log;
  tr_lost : aw_dropped w = wrap64 (Z.of_nat (length lost));
  tr_ended : is_Some (aw_result w) -> aw_chan w = [];
  tr_cap : aw_cap w = cap;
  tr_room : Z.of_nat (length (aw_chan w)) <= cap;
  tr_files : aw_first_error w = None -> forall s,
    io_contents (aw_world w) s
    = io_contents world s
      ++ concat (record_line (World := World) (IoError := IoError) <$> (filter (fun p => p.1 = s) taken).*2);
}.

Lemma trail_start path cap world w : 0 <= cap -> (start path cap world).1 = Ok w -> trail world cap [] w [] [].
Proof.
  unfold start. destruct (io_open_append path world) as [[s | e] world'] eqn:Hopen; [| done]. simpl. unfold spawn.
  intros Hcap. destruct (cap =? 0); [done |]. intros [= <-]. split; simpl; try done.
  - constructor.
  - intros _ s'. rewrite app_nil_r. by eapply io_open_keeps.
Qed.

Lemma count_drop_frame w :
  aw_chan (count_drop w) = aw_chan w /\ aw_cap (count_drop w) = aw_cap w /\ aw_result (count_drop w) = aw_result w
  /\ aw_world (count_drop w) = aw_world w /\ aw_first_error (count_drop w) = aw_first_error w
  /\ aw_dropped (count_drop w) = wrap64 (aw_dropped w + 1).
Proof. unfold count_drop. by destruct (aw_drop_warned w). Qed.

Lemma trail_drop world cap log w taken lost r :
  trail world cap log w taken lost -> trail world cap (log ++ [r]) (count_drop w) taken (lost ++ [r]).
Proof.
  intros [Hl Hd He Hc Hr Hf]. destruct (count_drop_frame w) as (Hch & Hcap & Hres & Hw & He1 & Hdrop).
  split; unfold queued; rewrite ?Hch, ?Hcap, ?Hres, ?Hw, ?He1; try done.
  - by constructor.
  - rewrite Hdrop, Hd, length_app. cbn [length]. unfold wrap64. rewrite Z.add_mod_idemp_l by done. f_equal. lia.
Qed.

(** A command enters the queue. *)
Lemma trail_send world cap log w w' taken lost c :
  try_send c w = Ok w' -> trail world cap log w taken lost ->
  trail world cap (log ++ match c with CmdRecord r => [r] | _ => [] end) w' taken lost.
Proof.
  unfold try_send. intros Hs [Hl Hd He Hc Hr Hf]. case_bool_decide as Hres; [done |].
  destruct (Z.ltb_spec (Z.of_nat (length (aw_chan w))) (aw_cap w)); [| done]. injection Hs as <-.
  split; simpl; try done.
  - unfold queued in *. simpl. rewrite omap_app. destruct c as [r | p n]; simpl.
    + rewrite app_assoc. by constructor.
    + by rewrite !app_nil_r.
  - rewrite length_app. simpl. lia.
Qed.

Lemma trail_record world cap log w taken lost r :
  trail world cap log w taken lost -> exists lost', trail world cap (log ++ [r]) (try_record r w).2 taken lost'.
Proof.
  intros Ht. unfold try_record. destruct (aw_tx w); simpl; [| eexists; by apply trail_drop].
  destruct (try_send (CmdRecord r) w) as [w' | e] eqn:Hs; [| eexists; by apply trail_drop].
  eexists. by apply (trail_send _ _ _ _ _ _ _ _ Hs).
Qed.

Lemma trail_reopen world cap log w w' taken lost path reply :
  reopen_start path reply w = Ok w' -> trail world cap log w taken lost -> trail world cap log w' taken lost.
Proof.
  unfold reopen_start. intros Hs Ht. destruct (negb (aw_tx w)); [done |].
  destruct (try_send (CmdReopen path reply) w) as [v | [|]] eqn:Hv; try done. injection Hs as ->.
  apply (trail_send _ _ _ _ _ _ _ _ Hv) in Ht. by rewrite app_nil_r in Ht.
Qed.

(** What the thread does with one command, for the files, unless an error is kept. *)
Lemma write_command_world c w :
  aw_first_error (write_command c w) = None ->
  aw_first_error w = None /\ forall s,
  io_contents (aw_world (write_command c w)) s
  = io_contents (aw_world w) s
    ++ concat (record_line (World := World) (IoError := IoError)
         <$> match c with CmdRecord r => if bool_decide (aw_sink w = s) then [r] else [] | _ => [] end).
Proof.
  destruct c as [r | p n]; simpl.
  - unfold record_line. destruct (io_to_vec r) as [line | e] eqn:Hline; [| by destruct (aw_first_error w)].
    destruct (io_write_all (aw_sink w) (line ++ [LF]) (aw_world w)) as [[[] | e] world'] eqn:Hwrite; simpl;
      [| unfold count_write_failure; simpl; by destruct (aw_write_warned w), (aw_first_error w)].
    intros He. split; [done |]. intros s. apply io_write_appends in Hwrite as [Hsame Hother].
    case_bool_decide as Hs; simpl.
    + subst s. by rewrite Hsame, Hline, app_nil_r.
    + rewrite app_nil_r. apply Hother. congruence.
  - destruct (io_open_append p (aw_world w)) as [[s' | e] world'] eqn:Hopen; simpl; intros He; (split; [done |]);
      intros s; rewrite app_nil_r; by eapply io_open_keeps.
Qed.

(** The error that is kept stays. *)
Lemma write_exit_world w :
  aw_first_error (write_exit w) = None ->
  aw_first_error w = None /\ forall s, io_contents (aw_world (write_exit w)) s = io_contents (aw_world w) s.
Proof.
  unfold write_exit. destruct (io_flush (aw_sink w) (aw_world w)) as [[[] | e] world'] eqn:Hflush; simpl.
  - intros He. split; [done |]. intros s. by eapply io_flush_keeps.
  - unfold count_write_failure. simpl. by destruct (aw_write_warned w), (aw_first_error w).
Qed.

Lemma trail_thread world cap log w w' taken lost :
  write_step w = Some w' -> trail world cap log w taken lost -> exists taken', trail world cap log w' taken' lost.
Proof.
  unfold write_step. intros Hs [Hl Hd He Hc Hr Hf]. destruct (aw_result w) as [res |] eqn:Hres; [done |].
  destruct (aw_chan w) as [| c rest] eqn:Hch.
  - destruct (aw_tx w); [done |]. injection Hs as <-. exists taken.
    destruct (write_exit_frame w) as (_ & Hch' & Hcap & Hdrop & _).
    split; unfold queued in *; rewrite ?Hch', ?Hcap, ?Hdrop, ?Hch in *; try done.
    intros (He' & Hw)%write_exit_world s. rewrite Hw. by apply Hf.
  - injection Hs as <-. set (v := with_chan (aw_tx w) rest w).
    exists (taken ++ match c with CmdRecord r => [(aw_sink w, r)] | _ => [] end).
    destruct (write_command_frame c v) as (_ & Hch' & Hcap & Hdrop & _ & _ & _ & Hres').
    unfold queued in *. split; unfold queued; rewrite ?Hch', ?Hcap, ?Hdrop, ?Hres'; simpl; try done.
    + rewrite Hch in Hl. destruct c as [r | p n]; simpl in *.
      * rewrite fmap_app, <- app_assoc. exact Hl.
      * by rewrite app_nil_r.
    + rewrite Hres. by intros [? ?].
    + simpl in Hr. lia.
    + intros (He' & Hw)%write_command_world s. rewrite Hw. simpl. rewrite Hf by done.
      rewrite <- app_assoc, filter_app, fmap_app, fmap_app, concat_app. do 2 f_equal.
      destruct c as [r | p n]; [| done]. rewrite filter_cons. simpl. case_bool_decide as Hs; by case_decide.
Qed.

Lemma trail_upkeep world cap log w w' taken lost :
  upkeep w w' -> trail world cap log w taken lost -> exists taken', trail world cap log w' taken' lost.
Proof.
  intros Hstep Ht. destruct Hstep as [path reply w w' Hre | w w' Hstep | w | w].
  - exists taken. by eapply trail_reopen.
  - by eapply trail_thread.
  - exists taken. by destruct Ht.
  - exists taken. destruct Ht as [Hl Hd He Hc Hr Hf]. unfold drop_writer. simpl.
    destruct (aw_handle w); [| by split]. destruct (aw_detach_warned w); by split.
Qed.

(** A shutdown ends, and takes what is queued. *)
Lemma trail_loop world cap log lost fuel : forall w taken,
  trail world cap log w taken lost -> exists taken', trail world cap log (write_loop fuel w) taken' lost.
Proof.
  induction fuel as [| fuel IH]; intros w taken Ht; cbn [write_loop]; [eauto |].
  destruct (write_step w) as [w' |] eqn:Hstep; [| eauto].
  destruct (trail_thread _ _ _ _ _ _ _ Hstep Ht) as [taken' Ht']. by eapply IH.
Qed.

Lemma write_exit_result w :
  aw_result (write_exit w) = Some (match aw_first_error (write_exit w) with Some e => Err (AuditIoError e) | None => Ok tt end).
Proof. unfold write_exit. by destruct (io_flush _ _) as [[] ?]. Qed.

Lemma trail_shutdown world cap log w taken lost :
  aw_handle w = true -> aw_result w = None -> trail world cap log w taken lost ->
  exists res w' taken', shutdown w = Some (res, w') /\ trail world cap log w' taken' lost /\ queued w' = []
    /\ (res = Ok tt -> aw_first_error w' = None).
Proof.
  intros Hh Hr Ht. destruct (trail_upkeep _ _ _ _ _ _ _ (up_close w) Ht) as [taken1 Ht1].
  destruct (trail_loop _ _ _ _ (S (length (aw_chan w))) _ _ Ht1) as [taken' Ht'].
  unfold shutdown. cbn [with_chan aw_handle aw_chan]. rewrite Hh. cbv zeta.
  assert (exists v, write_loop (S (length (aw_chan w))) (with_chan false (aw_chan w) w) = write_exit v) as [v Hv].
  { rewrite write_loop_drains by done. eauto. }
  rewrite Hv in *. pose proof (write_exit_result v) as Hres. rewrite Hres. cbn [mbind option_bind].
  exists (match aw_first_error (write_exit v) with Some e => Err (AuditIoError e) | None => Ok tt end), (write_exit v), taken'.
  split; [done |]. split; [exact Ht' |]. split.
  - unfold queued. by rewrite (tr_ended _ _ _ _ _ _ Ht') by eauto.
  - by destruct (aw_first_error _).
Qed.

(** Everything offered to the writer is queued, in a file or counted. *)
Lemma offered_trail path cap world w log w' :
  0 <= cap -> (start path cap world).1 = Ok w -> offered upkeep w log w' ->
  exists taken lost, trail world cap log w' taken lost.
Proof.
  intros Hcap Hstart Hoff. induction Hoff as [| l b r _ IH | l b b' _ IH Hstep].
  - exists [], []. by eapply trail_start.
  - destruct IH as (taken & lost & Ht). destruct (trail_record _ _ _ _ _ _ r Ht) as [lost' Ht']. eauto.
  - destruct IH as (taken & lost & Ht). destruct (trail_upkeep _ _ _ _ _ _ _ Hstep Ht) as [taken' Ht']. eauto.
Qed.
End Trail.

Section Gateway.
Context `{SerdeJson} `{HttpHeaders} `{Sha256} `{CtEq} {Url Sem J Http UsageM ModelM Error : Type}
  `{Jitter J} `{SemaphoreLaws Sem} `{WebRouter}
  {World Sink IoError : Type} `{AuditIoLaws World Sink IoError} `{EqDecision Sink}.
Context (ser_f64 : spec_float -> Ser) (to_rfc3339 : Z -> string) (chrono_from_std : Duration -> option Z)
  (version commit : string)
  (header_from_str : string -> option HeaderValue) (join : Url -> string -> option Url)
  (parse_from_rfc2822 : string -> option Z) (builder_error : Error)
  (post : Instant -> Url -> list (string * HeaderValue) -> bytes
            -> option (Duration * result Error UpstreamResponse)).
Abbreviation gateway := (AppRuntime Url Sem J Http (AuditWriter World Sink IoError) UsageM ModelM).

(** The writer of an assembled gateway is the one that was started. *)
Lemma assemble_writer {ClientError} MAX_PERMITS url_parse j0 client world
    (usage_start : Usage.t -> string -> list Secret -> result ClientError UsageM) model_start cfg (app : gateway) :
  assemble MAX_PERMITS url_parse j0 client (fun path cap => (start path cap world).1) usage_start model_start cfg
    = Some (Ok app) ->
  (start (Audit.path (Config.audit cfg)) (Audit.queue_capacity (Config.audit cfg)) world).1 = Ok (app_audit app).
Proof.
  unfold assemble. destruct client as [http | e]; [| done].
  intros (pol & _ & Hrun)%bind_Some. destruct (with_jitter (Config.keys cfg) pol j0) as [pool | e]; [| done].
  apply bind_Some in Hrun as (queue & _ & (rt & _ & Hrun)%bind_Some).
  destruct (start _ _ _).1 as [audit | e]; [| done].
  apply bind_Some in Hrun as (budget & _ & (slots & _ & Hrun)%bind_Some).
  destruct (usage_start _ _ _) as [um | e]; [| done]. destruct (model_start _) as [mm | e]; [| done].
  by injection Hrun as <-.
Qed.

(** C28. Every answer leaves its line.  Take a gateway assembled from a
    configuration that loads, its requests interleaved in any way with each
    other, with dropped connections, with the writer's thread, rotations of the
    log and the shutdown.  The records of the answered requests, in the order in
    which they were offered, are the records the thread has taken followed by
    those still queued, merged with the refused ones, which the counter counts;
    the queue never exceeds the configured capacity and is empty once the thread
    has ended.  As long as the thread has met no error, every file holds what it
    held before and then, whole and in order, the lines of the records taken while
    it was open.  A shutdown ends from there, and leaves nothing queued. *)
Theorem audit_trail_complete {ClientError} MAX_PERMITS url_parse j0 client world
    (usage_start : Usage.t -> string -> list Secret -> result ClientError UsageM) model_start
    raw cfg (app : gateway) counter w :
  raw_typed raw -> config_try_from MAX_PERMITS raw = Ok cfg ->
  assemble MAX_PERMITS url_parse j0 client (fun path cap => (start path cap world).1) usage_start model_start cfg
    = Some (Ok app) ->
  rtc (acts (request_task ser_f64 to_rfc3339 chrono_from_std version commit header_from_str join parse_from_rfc2822 builder_error post)
         (outside upkeep)) ((app, counter), []) w ->
  exists books log taken lost, Forall2 book_ok books w.2 /\ log ≡ₚ records_of books
    /\ offered upkeep (app_audit app) log (app_audit w.1.1)
    /\ trail world (Audit.queue_capacity (Config.audit cfg)) log (app_audit w.1.1) taken lost
    /\ (aw_handle (app_audit w.1.1) = true -> aw_result (app_audit w.1.1) = None ->
        exists res a taken', shutdown (app_audit w.1.1) = Some (res, a) /\ queued a = []
          /\ trail world (Audit.queue_capacity (Config.audit cfg)) log a taken' lost).
Proof.
  intros Htyped Hload Happ Hrun. pose proof (config_try_from_valid _ _ _ Htyped Hload) as Hv.
  destruct (assemble_permits _ _ _ _ _ _ _ _ _ Hv Happ) as (Hroom & _).
  pose proof (assemble_writer _ _ _ _ _ _ _ _ _ Happ) as Hstart.
  destruct (books_of ser_f64 to_rfc3339 chrono_from_std version commit header_from_str join parse_from_rfc2822 builder_error
    post upkeep (app, counter) w _ (fun t Ht => Ht) Hroom Hrun) as (books & Hps & Hac).
  pose proof (books_match _ _ _ _ _ Hac Hps) as Hbooks.
  destruct (ac_log _ _ _ _ Hac) as (log & Hoff & Hperm).
  assert (0 <= Audit.queue_capacity (Config.audit cfg)) as Hcap by (pose proof (cv_audit_capacity _ _ Hv); lia).
  destruct (offered_trail _ _ _ _ _ _ Hcap Hstart Hoff) as (taken & lost & Ht).
  exists books, log, taken, lost. split_and!; [done.. |]. intros Hh Hr.
  destruct (trail_shutdown _ _ _ _ _ _ Hh Hr Ht) as (res & a & taken' & Hs & Ht' & Hq & _). by exists res, a, taken'.
Qed.
End Gateway.

(** ** At concrete inputs *)

#[local] Existing Instance demo_io.
#[local] Existing Instance demo_io_laws.
#[local] Existing Instance demo_sha256.
#[local] Existing Instance demo_proxy_http.
#[local] Existing Instance demo_proxy_ct_eq.
#[local] Existing Instance demo_system_serde.
#[local] Existing Instance demo_router.

Abbreviation demo_disk := (gmap string bytes) (only parsing).
Abbreviation demo_logged := (AppRuntime unit FairSem NoJitter unit (AuditWriter demo_disk string unit) unit unit)
  (only parsing).
Definition demo_logged_app : option (result (BootstrapError (AuditError unit) unit) demo_logged) :=
  assemble demo_permits (fun _ => Some ()) no_jitter (Ok ()) (fun path cap => (start path cap ∅).1)
    (fun _ _ _ => Ok ()) (fun _ => Ok ()) demo_config.
Definition demo_logged_chat : task (demo_logged * Z) (Endpoint * Response) :=
  demo_libraries serve_request demo_plain_env demo_system_env ∅ 0 "/v1/chat/completions" "POST" demo_client.

(** What happens to the writer of a gateway. *)
Definition on_writer (f : AuditWriter demo_disk string unit -> AuditWriter demo_disk string unit)
    (w : Task.world (demo_logged * Z) (Endpoint * Response)) :=
  ((with_audit (f (app_audit w.1.1)) w.1.1, w.1.2), w.2).
Definition thread_turn (a : AuditWriter demo_disk string unit) := default a (write_step a).
Definition close_writer (a : AuditWriter demo_disk string unit) := with_chan false (aw_chan a) a.

(** Two requests.  The first is answered and its record written; the writer is shut
    down; then the second is answered. *)
Definition demo_trail_run (app : demo_logged) : Task.world (demo_logged * Z) (Endpoint * Response) :=
  schedule (replicate 26 1%nat)
    (on_writer thread_turn (on_writer close_writer (on_writer thread_turn
      (schedule (replicate 26 0%nat) ((app, 0), [] ++ (Live <$> [demo_logged_chat; demo_logged_chat])))))).

Definition demo_logged_gateway : option demo_logged :=
  match demo_logged_app with Some (Ok app) => Some app | _ => None end.

Example demo_trail_ends :
  (fun app => let a := app_audit (demo_trail_run app).1.1 in
     (aw_dropped a, bool_decide (is_Some (aw_result a)), length <$> (map_to_list (aw_world a)).*2)) <$> demo_logged_gateway
  = Some (1, true, [33%nat]).
Proof. vm_compute. reflexivity. Qed.

Lemma on_writer_acts starts f w :
  upkeep (app_audit w.1.1) (f (app_audit w.1.1)) -> rtc (acts starts (outside upkeep)) w (on_writer f w).
Proof.
  intros Hup. destruct w as [[g c] ps]. apply rtc_once, act_outside, program_outside. by constructor.
Qed.
Lemma thread_turn_acts starts w : rtc (acts starts (outside upkeep)) w (on_writer thread_turn w).
Proof.
  destruct (write_step (app_audit w.1.1)) as [a |] eqn:Hstep.
  - apply on_writer_acts. unfold thread_turn. rewrite Hstep. by constructor.
  - unfold on_writer, thread_turn. rewrite Hstep. by destruct w as [[[] ?] ?].
Qed.

Lemma close_writer_acts starts w : rtc (acts starts (outside upkeep)) w (on_writer close_writer w).
Proof. apply on_writer_acts, up_close. Qed.

Lemma demo_logged_request : demo_libraries request_task demo_logged_chat.
Proof. by exists demo_plain_env, demo_system_env, ∅, 0, "/v1/chat/completions", "POST", demo_client. Qed.

Lemma demo_trail_reached app :
  rtc (acts (demo_libraries request_task) (outside upkeep)) ((app, 0), []) (demo_trail_run app).
Proof.
  unfold demo_trail_run. etransitivity; [apply (starts_acts _ _ _ _ [demo_logged_chat; demo_logged_chat]) |].
  - repeat apply Forall_cons_2; [exact demo_logged_request.. | apply Forall_nil_2].
  - etransitivity; [apply moves_acts, (schedule_moves (replicate 26 0%nat)) | etransitivity; [apply thread_turn_acts |]].
    etransitivity; [apply close_writer_acts |].
    etransitivity; [apply thread_turn_acts | apply moves_acts, (schedule_moves (replicate 26 1%nat))].
Qed.

Lemma audit_trail_complete_witness :
  exists app books log taken lost, demo_logged_app = Some (Ok app)
    /\ Forall2 book_ok books (demo_trail_run app).2 /\ log ≡ₚ records_of books
    /\ trail ∅ (Audit.queue_capacity (Config.audit demo_config)) log (app_audit (demo_trail_run app).1.1) taken lost.
Proof.
  assert (exists app, demo_logged_app = Some (Ok app)) as [app Happ] by (vm_compute; by eexists).
  exists app. pose proof Happ as Hassembled. unfold demo_logged_app in Hassembled.
  destruct (demo_libraries audit_trail_complete demo_permits (fun _ => Some ()) no_jitter (Ok () : result unit unit)
    (∅ : demo_disk) (fun _ _ _ => Ok ()) (fun _ => Ok ()) demo_raw demo_config app 0 (demo_trail_run app)
    demo_raw_typed demo_raw_loads Hassembled (demo_trail_reached app)) as (books & log & taken & lost & Hb & Hp & _ & Ht & _).
  exists books, log, taken, lost. exact (conj Happ (conj Hb (conj Hp Ht))).
Defined.
