(* ===== verification/PoolHistory.v ===== *)
(** * The pool of a running gateway

    Whatever the requests, the reloader and the monitors do, interleaved, the pool
    of the gateway only ever goes through its own operations, each report with a
    selection the pool has made: so what [PoolProps] and [PoolRequest] prove of
    reachable pools holds of it. *)
From S2P Require Export System.

(** ** One operation *)

Section PoolMoves.
Context `{Sha256} {J : Type} `{Jitter J}.
Implicit Types p : KeyPool J.

(** The identifier of the selection a task holds was drawn from the pool. *)
Definition drawn (x : option Z) p : Prop := match x with Some id => 0 <= id < next_id p | None => True end.

(** An operation of a task that holds the selection [x] before and [y] after: while
    the counter has not wrapped, operations of the pool, with at most one draw. *)
Definition pool_moves (x : option Z) p p' (y : option Z) : Prop :=
  0 <= next_id p < u64_max -> drawn x p ->
  rtc pool_step p p' /\ next_id p <= next_id p' <= next_id p + 1 /\ drawn y p'.

Lemma moves_same x p : pool_moves x p p x.
Proof. intros Hn Hx. split_and!; [done | lia | lia | done]. Qed.

Lemma moves_report sel p p' :
  next_id p' = next_id p -> (drawn (Some (sel_id sel)) p -> pool_step p p') ->
  pool_moves (Some (sel_id sel)) p p' (Some (sel_id sel)).
Proof.
  intros Hid Hstep Hn Hx. rewrite Hid. split_and!; [by apply rtc_once, Hstep | lia | lia | simpl in *; by rewrite Hid].
Qed.

Lemma moves_success sel p :
  pool_moves (Some (sel_id sel)) p (report_success sel p) (Some (sel_id sel)).
Proof. apply moves_report; [by destruct (report_success_reported sel p) | by constructor]. Qed.

Lemma moves_failure sel f now p p' :
  report_failure sel f now p = Some p' -> pool_moves (Some (sel_id sel)) p p' (Some (sel_id sel)).
Proof.
  intros Hr. apply moves_report; [by apply report_failure_reported in Hr as [_ ?] | intros Hx; by eapply step_failure].
Qed.

Lemma moves_liveness sel model now p p' :
  report_liveness_failure sel model now p = Some p' -> pool_moves (Some (sel_id sel)) p p' (Some (sel_id sel)).
Proof.
  intros Hr. apply moves_report; [by apply report_liveness_reported in Hr as [_ ?] | intros _; by eapply step_liveness].
Qed.

(** The selection an answer to a request for a key gives. *)
Definition given (r : AttemptResult.t) : option Z :=
  match r with AttemptResult.Selected sel => Some (sel_id sel) | _ => None end.

Lemma moves_select ra now p r p' x :
  try_select_unused ra now p = Some (r, p') -> pool_moves x p p' (sel_id <$> r).
Proof.
  intros Hs Hn _. split; [apply rtc_once; eapply step_select; [lia | exact Hs] |].
  apply try_select_inv in Hs. destruct r as [sel |]; [| by destruct Hs as [-> _]; split; [lia |]].
  destruct Hs as (k & c & _ & _ & _ & -> & [_ Hid]%claim_half_open_reported). simpl in *.
  rewrite Hid, wrap64_small by lia. lia.
Qed.

Lemma moves_immediate ra now p r ra' p' x :
  next_immediate ra now p = Some (r, ra', p') -> pool_moves x p p' (given r).
Proof.
  intros Hn%immediate_ok. destruct r as [sel | d |]; [| done |].
  - destruct Hn as (_ & _ & Hs). exact (moves_select _ _ _ _ _ x Hs).
  - destruct Hn as (_ & -> & _). intros Hid _. by split_and!; [| lia | lia |].
Qed.

(** The protocol of the attempts on the pool; a drop changes nothing. *)
Definition attempts_history : protocol (KeyPool J) (option Z) :=
  mk_protocol (fun _ => True) pool_moves (fun _ p p' => p' = p) (fun _ _ => True) True.

Lemma history_looks clock ra :
  looks_ok attempts_history (fun _ _ => True) (fun x sel => x = Some (sel_id sel)) (fun _ _ => True) clock ra.
Proof.
  split; [by split | done | | | by right].
  - intros i x t p _ _ _. destruct (try_select_unused ra t p) as [[r p'] |] eqn:Hs; [| done]. split; [done |].
    exists (sel_id <$> r). split; [by eapply moves_select |]. split; [done |]. by intros sel ->.
  - intros i x p _ _. exists x. split; [apply moves_same | done].
Qed.
End PoolMoves.

(** ** The handler *)

Section Handler.
Context `{SerdeJson} `{HttpHeaders} `{Sha256} `{CtEq} {Url Sem J Http Sink UsageM ModelM Error : Type}
  `{Jitter J} `{SemaphoreLaws Sem} `{AuditSink Sink} `{WebRouter}.
Context (ser_f64 : spec_float -> Ser) (to_rfc3339 : Z -> string) (chrono_from_std : Duration -> option Z)
  (version commit : string)
  (header_from_str : string -> option HeaderValue) (join : Url -> string -> option Url)
  (parse_from_rfc2822 : string -> option Z) (builder_error : Error)
  (post : Instant -> Url -> list (string * HeaderValue) -> bytes
            -> option (Duration * result Error UpstreamResponse)).
Abbreviation gateway := (AppRuntime Url Sem J Http Sink UsageM ModelM).
Abbreviation shared := (gateway * Z)%type.
Implicit Types s : shared.

(** An attempt reports its own selection and forwards with no other. *)
Definition forwards_own (id : Z) (r : FinalOutcome * LoopState + LoopState) : Prop :=
  match r with inl (FinalForward _ _ sel _, _) => sel_id sel = id | _ => True end.

Lemma moves_fail_over ra sel f now pool audit last r :
  fail_over ra sel f now pool audit last = Some r ->
  pool_moves (Some (sel_id sel)) pool r.2 (Some (sel_id sel)) /\ forwards_own (sel_id sel) r.1.
Proof. unfold fail_over. intros (p & Hp & [= <-])%bind_Some. split; [by eapply moves_failure | done]. Qed.

Lemma moves_error_arm (px : ProxyContext Url) sel resp a now ra pool audit last f g r :
  error_arm px sel resp a now ra pool audit last f g = Some r ->
  pool_moves (Some (sel_id sel)) pool r.2 (Some (sel_id sel)) /\ forwards_own (sel_id sel) r.1.
Proof. unfold error_arm. destruct (consume_classify_body _ _ _ _ _) as [[c | []] t]; apply moves_fail_over. Qed.

Lemma moves_response wall (px : ProxyContext Url) model sel resp a now ra pool audit last r :
  handle_response parse_from_rfc2822 wall px model sel resp a now ra pool audit last = Some r ->
  pool_moves (Some (sel_id sel)) pool r.2 (Some (sel_id sel)) /\ forwards_own (sel_id sel) r.1.
Proof.
  unfold handle_response.
  repeat (match goal with |- (if ?b then _ else _) = _ -> _ => destruct b; [apply moves_error_arm |] end).
  destruct (prepare_response _ _ _ _ _) as [[pr | f] t]; [intros [= <-]; split; [apply moves_same | done] |].
  destruct (pf_reason f); try apply moves_fail_over; try (intros [= <-]; split; [apply moves_same | done]);
    intros (q & Hq & [= <-])%bind_Some; (split; [by eapply moves_liveness | done]).
Qed.

Lemma moves_attempt wall (px : ProxyContext Url) model turn sel ra pool audit last r :
  run_attempt header_from_str join parse_from_rfc2822 wall builder_error post px model turn sel ra pool audit last = Some r ->
  pool_moves (Some (sel_id sel)) pool r.2 (Some (sel_id sel)) /\ forwards_own (sel_id sel) r.1.
Proof.
  unfold run_attempt. intros (n & _ & (sent & _ & Hrun)%bind_Some)%bind_Some.
  destruct (match sent with Ok a => a | Err e => Some (0, Err e) end) as [[latency res] |];
    [destruct (latency <=? _); [destruct res as [resp | e] |] |];
    first [by apply moves_fail_over in Hrun | by apply moves_response in Hrun].
Qed.

(** The protocol of a request on the gateway. *)
Definition pool_history : protocol shared (option Z) :=
  mk_protocol (fun _ => True) (fun x s s' y => pool_moves x (app_pool s.1) (app_pool s'.1) y)
    (fun _ s s' => app_pool s'.1 = app_pool s.1) (fun _ _ => True) True.

(** The selection that is left to report. *)
Definition to_report (y : option Z) (o : FinalOutcome) : Prop :=
  match o with FinalForward _ _ sel _ => y = Some (sel_id sel) | _ => True end.

Lemma step_history wall (px : ProxyContext Url) model turn ls x :
  follows attempts_history
    (fun y r => match r with inl (o, _) => to_report y o | inr _ => True end) x
    (proxy_step header_from_str join parse_from_rfc2822 wall builder_error post px model turn ls).
Proof.
  unfold proxy_step. eapply (follows_bind _ (fun y (r : AttemptResult.t * RequestAttempts) =>
    match r.1 with AttemptResult.Selected sel => y = Some (sel_id sel) | _ => True end)).
  - destruct (bool_decide _).
    + apply follows_last, follows_act_or_panic. intros p _. destruct (next_immediate _ _ _) as [[[r ra] p'] |] eqn:Hn; [| done].
      split; [done |]. exists (given r). split; [by eapply moves_immediate | by destruct r].
    + eapply follows_mono; [apply (next_follows _ _ _ _ _ _ 0%nat x (history_looks _ _)); done |].
      intros y [[sel | d |] ra] [_ Hr]; [by destruct Hr as (-> & _) | done | done].
  - intros y [[sel | d |] ra] Hy; [simpl in Hy; subst y | done | done].
    apply follows_last, follows_await; [by split |]. intros p _.
    destruct (run_attempt _ _ _ _ _ _ _ _ _ _ _ _ _ _) as [[r p'] |] eqn:Hr; [| done].
    apply moves_attempt in Hr as [Hm Hf]. split; [done |]. exists (Some (sel_id sel)). split; [exact Hm |].
    destruct r as [[[d | l | pr fp sel' a] ls'] | ls']; try done. simpl in *. by rewrite Hf.
Qed.

Lemma loop_history wall (px : ProxyContext Url) model turns fuel : forall k ls x,
  follows attempts_history (fun y r => to_report y r.1) x
    (proxy_loop header_from_str join parse_from_rfc2822 wall builder_error post fuel px model turns k ls).
Proof.
  induction fuel as [| fuel IH]; intros k ls x; cbn [proxy_loop]; [by split |].
  eapply follows_bind; [apply step_history |]. intros y [[o ls'] | ls'] Hy; [exact Hy | apply IH].
Qed.

(** Operations that leave the pool alone. *)
Lemma history_act {A B} (Q : option Z -> B -> Prop) x (op : shared -> A * shared) (k : A -> task shared B) :
  (forall s, app_pool (op s).2.1 = app_pool s.1) -> (forall a, follows pool_history Q x (k a)) ->
  follows pool_history Q x (act op ≫= k).
Proof.
  intros Hop Hk. apply follows_act. intros s _. split; [done |]. exists x. split; [| apply Hk].
  simpl. rewrite Hop. apply moves_same.
Qed.

Lemma history_record {B} (Q : option Z -> B -> Prop) x r (k : () -> task shared B) :
  follows pool_history Q x (k ()) -> follows pool_history Q x (modify (record r) ≫= k).
Proof. intros Hk. apply history_act; [done | by intros []]. Qed.

Lemma history_await {A B} (Q : option Z -> B -> Prop) x f (op : shared -> option (option (A * shared))) (k : A -> task shared B) :
  (forall s, app_pool (f s).1 = app_pool s.1) ->
  (forall s a s', op s = Some (Some (a, s')) -> app_pool s'.1 = app_pool s.1) ->
  (forall a, follows pool_history Q x (k a)) -> follows pool_history Q x (await f op ≫= k).
Proof.
  intros Hf Hop Hk. apply follows_await; [intros s _; split; [done | apply Hf] |]. intros s _.
  destruct (op s) as [[[a s'] |] |] eqn:Ho; [| done | done]. split; [done |]. exists x. split; [| apply Hk].
  simpl. rewrite (Hop _ _ _ Ho). apply moves_same.
Qed.

Lemma history_holding {A} (Q : option Z -> A -> Prop) x f (t : task shared A) :
  (forall s, app_pool (f s).1 = app_pool s.1) -> follows pool_history Q x t -> follows pool_history Q x (holding f t).
Proof.
  intros Hf. apply (follows_holding pool_history (drop_ok pool_history)).
  - intros y s s' _ Hs. split; [done |]. simpl in *. by rewrite Hf.
  - intros y a s _ Hy. split; [done |]. exists y. split; [| done]. simpl. rewrite Hf. apply moves_same.
Qed.

(** A task on another part of the gateway. *)
Definition elsewhere {P} (x : option Z) : protocol P (option Z) :=
  mk_protocol (fun _ => True) (fun y _ _ z => y = x /\ z = x) (fun y _ _ => y = x) (fun _ _ => True) True.
Lemma history_zoom {P A B} (Q : option Z -> B -> Prop) x get set (t : task P A) (k : A -> task shared B) :
  (forall p s, app_pool (set p s).1 = app_pool s.1) -> (forall a, follows pool_history Q x (k a)) ->
  follows pool_history Q x (zoom get set t ≫= k).
Proof.
  intros Hset Hk. apply (follows_bind _ (fun y _ => y = x)); [| by intros y a ->].
  apply (follows_zoom (elsewhere x)); [done | | | done | done |].
  - intros z s p y _ _ [-> ->]. split; [done |]. simpl. rewrite Hset. apply moves_same.
  - intros z s p _ _ ->. split; [done | apply Hset].
  - assert (forall y, y = x -> follows (elsewhere x) (fun y _ => y = x) y t) as Ht; [| by apply Ht].
    clear. induction t as [a | c op IH] using task_ind'; intros y ->; [done |]. split; [by destruct c |].
    intros s _. destruct (op s) as [t' s' | |] eqn:Hop; [| done | done]. split; [done |]. exists x. split; [done |]. by eapply IH.
Qed.

Lemma report_history x f :
  (forall p p', f p = Some p' -> pool_moves x p p' x) -> follows pool_history (fun _ (_ : ()) => True) x (report f).
Proof.
  intros Hf. apply follows_last, follows_act_or_panic. intros s _. destruct (f _) as [p |] eqn:Hp; [| done].
  split; [done |]. exists x. split; [by apply Hf | done].
Qed.

Abbreviation follows_history := (follows pool_history (fun _ _ => True)).

Lemma reject_history x env id status audit resp : follows_history x (reject env id status audit resp).
Proof. by apply history_record. Qed.

Lemma stream_history env prepared sel id model fp parser audit start :
  follows_history (Some (sel_id sel)) (stream_response env prepared (Some sel) id model fp parser audit start).
Proof.
  apply history_act; [done |]. intros timeouts. cbv beta zeta.
  destruct (pump_upstream _ _ _ _ _) as [pumped |]; [| by split].
  destruct (if en_client_gone env then _ else _) as [[o m] p].
  eapply (follows_bind _ (fun _ _ => True)); [| done]. unfold settle_stream.
  eapply (follows_bind _ (fun y _ => True)); [| intros y [] _; by apply follows_last, history_record].
  destruct o; [| | done |]; apply report_history; intros q q'.
  - intros [= <-]. apply moves_success.
  - apply moves_failure.
  - apply moves_liveness.
Qed.

Lemma finalize_history env prepared sel id model fp audit start :
  follows_history (Some (sel_id sel)) (finalize_response env prepared (Some sel) id model fp audit start).
Proof.
  unfold finalize_response. destruct (pr_streaming prepared); [| apply stream_history].
  apply history_act; [intros s; by destruct (sem_try_acquire 1 _) |].
  intros [|]; [apply history_holding; [done | apply stream_history] | by apply history_record].
Qed.

Lemma answer_history y env id model o ls : to_report y o -> follows_history y (answer env id model o ls).
Proof.
  unfold answer. destruct o as [d | [[c fp] |] | p fp sel a]; intros Hy; try apply reject_history.
  - apply history_record. by destruct (if cr_status c =? 429 then _ else _) as [[? ?] ?].
  - rewrite Hy. apply finalize_history.
Qed.

Definition phase_report (y : option Z) (phase : BodyPhase) : Prop :=
  match phase with Looped _ o _ => to_report y o | _ => True end.

Lemma check_history x env headers api id session body rt attempts audit :
  follows pool_history phase_report x
    (check_model_and_serve header_from_str join parse_from_rfc2822 builder_error post env headers api id session body
       rt attempts audit).
Proof.
  unfold check_model_and_serve. cbv zeta.
  assert (follows pool_history phase_report x
    (response ← reject env id 400 audit invalid_model; mret (Answered response))) as Href.
  { eapply follows_bind; [apply reject_history |]. done. }
  destruct (extract_model body) as [model |]; [| done]. destruct (_ || _); [done |].
  unfold serve. cbv zeta. apply history_act; [done |]. intros px.
  eapply follows_bind; [| intros y r Hy; exact Hy].
  eapply (follows_zoom attempts_history); [done | done | by intros z s p _ _ -> | done | done | apply loop_history].
Qed.

Lemma authenticate_history {B} (Q : option Z -> B -> Prop) x headers api k :
  (forall a, follows pool_history Q x (k a)) -> follows pool_history Q x (authenticate headers api ≫= k).
Proof.
  intros Hk. eapply follows_bind; [| intros y a Hy; revert y a Hy].
  - apply history_act; [done |]. intros rt. apply history_act; [done |]. intros rt'.
    by instantiate (1 := fun y _ => y = x).
  - by intros y a ->.
Qed.

Lemma admitted_history env headers api id audit :
  follows_history None (admitted header_from_str join parse_from_rfc2822 builder_error post env headers api id audit).
Proof.
  apply authenticate_history. intros [identity |]; [| apply reject_history].
  apply follows_act_or_panic. intros s _. destruct (snapshot_and_request _ _) as [[rt attempts] |]; [| done].
  cbn [mbind option_bind]. split; [done |]. exists None. split; [apply moves_same |].
  eapply (follows_bind _ (fun _ _ => True)).
  - apply history_act; [done |]. intros timeouts. by apply history_zoom.
  - intros y [waited |] _; [| apply reject_history].
    eapply (follows_bind _ phase_report).
    + apply history_holding; [done |]. eapply (follows_bind _ (fun _ _ => True)).
      * apply follows_last, history_await; [done | | done]. by intros s' a s1 [= _ <-].
      * intros z [body | [status resp]] _; [apply check_history | done].
    + intros z [resp | status resp | model o ls] Hz; [done | apply reject_history | by apply answer_history].
Qed.

Lemma proxy_history env headers api :
  follows_history None (proxy_request header_from_str join parse_from_rfc2822 builder_error post env headers api).
Proof.
  apply authenticate_history. intros auth. apply history_act; [done |]. intros id.
  destruct auth as [identity |]; [| apply reject_history].
  eapply (follows_bind _ (fun y _ => y = None)).
  - by apply follows_last, history_zoom.
  - intros y [[] | e] ->; [| apply reject_history]. apply history_holding; [done | apply admitted_history].
Qed.

Lemma request_history t :
  request_task ser_f64 to_rfc3339 chrono_from_std version commit header_from_str join parse_from_rfc2822 builder_error post t ->
  follows_history None t.
Proof.
  intros (env & penv & snaps & st & path & method & headers & ->). unfold serve_request. cbv zeta.
  eapply (follows_bind _ (fun _ _ => True)); [| done].
  destruct (build_router path method) as [| | | | api | |]; cbn [handle_endpoint]; [done | | | | apply proxy_history | |];
    repeat (apply history_act; [done |]; first [intros [|] | intros ?]); first [done | by apply history_record].
Qed.
End Handler.

(** ** The theorem *)

Section History.
Context `{SerdeJson} `{HttpHeaders} `{Sha256} `{CtEq} {Url Sem J Http Sink UsageM ModelM Error : Type}
  `{Jitter J} `{SemaphoreLaws Sem} `{AuditSink Sink} `{WebRouter}.
Context (ser_f64 : spec_float -> Ser) (to_rfc3339 : Z -> string) (chrono_from_std : Duration -> option Z)
  (version commit : string)
  (header_from_str : string -> option HeaderValue) (join : Url -> string -> option Url)
  (parse_from_rfc2822 : string -> option Z) (builder_error : Error)
  (post : Instant -> Url -> list (string * HeaderValue) -> bytes
            -> option (Duration * result Error UpstreamResponse)).
Context (sink_step : Sink -> Sink -> Prop).
Abbreviation gateway := (AppRuntime Url Sem J Http Sink UsageM ModelM).
Abbreviation shared := (gateway * Z)%type.

Lemma reachable_more (p p' : KeyPool J) : reachable p -> rtc pool_step p p' -> reachable p'.
Proof. intros Hp Hrun. induction Hrun; [done |]. eauto using reach_step. Qed.

Lemma drawn_mono x (p p' : KeyPool J) : next_id p <= next_id p' -> drawn x p -> drawn x p'.
Proof. intros Hle. destruct x; simpl; [lia | done]. Qed.

(** The rest of the program moves the pool by at most one operation. *)
Lemma program_pool (s s' : shared) :
  program_step sink_step s s' -> 0 <= next_id (app_pool s.1) < u64_max ->
  rtc pool_step (app_pool s.1) (app_pool s'.1)
  /\ next_id (app_pool s.1) <= next_id (app_pool s'.1) <= next_id (app_pool s.1) + 1.
Proof.
  intros Hstep Hn. destruct Hstep as [keys st store g c Hup | models g c | fp cd now p g c Hp | g c | g c | sink g c Hs | g c c'];
    simpl in *; try (split; [done | lia]).
  - unfold update_with_keys in Hup. apply result_bind_ok in Hup as (pool & Hpool & [= <-]). simpl in *.
    split; [apply rtc_once; by eapply step_replace |].
    unfold replace_keys in Hpool. apply result_bind_ok in Hpool as (? & _ & [= <-]). simpl. lia.
  - split; [apply rtc_once; eapply step_proactive; [lia | exact Hp] |].
    apply report_proactive_reported in Hp as (_ & Hid & _). rewrite wrap64_small in Hid by lia. lia.
Qed.

(** After [n] events. *)
Definition history_inv (n : nat) (s : shared) (xs : list (option (option Z))) : Prop :=
  Z.of_nat n <= u64_max ->
  reachable (app_pool s.1) /\ 0 <= next_id (app_pool s.1) <= Z.of_nat n
  /\ forall i x, xs !! i = Some (Some x) -> drawn x (app_pool s.1).

Lemma history_preserved n :
  preserves pool_history None (program_step sink_step) (history_inv n) (history_inv (S n)).
Proof.
  split; [done | | | |]; unfold history_inv.
  - intros s xs Hinv Hn. destruct Hinv as (Hr & Hid & Hxs); [lia |]. split_and!; [done | lia | lia |].
    intros i x Hi. apply lookup_app_Some in Hi as [Hi | [_ Hi]]; [eauto |].
    by apply list_lookup_singleton_Some in Hi as [_ [= <-]].
  - intros s xs i x s' y Hinv Hi _ Hm Hn. destruct Hinv as (Hr & Hid & Hxs); [lia |].
    destruct Hm as (Hrun & Hle & Hy); [lia | by eapply Hxs |].
    split_and!; [by eapply reachable_more | lia | lia |]. intros j z Hj. destruct (decide (i = j)) as [<- | Hne].
    + rewrite list_lookup_insert_eq in Hj by (by eapply lookup_lt_Some). by injection Hj as <-.
    + rewrite list_lookup_insert_ne in Hj by done. eapply drawn_mono; [| by eapply Hxs]. lia.
  - intros s xs i x s' Hinv Hi _ Hs Hn. simpl in Hs. rewrite Hs. destruct Hinv as (Hr & Hid & Hxs); [lia |].
    split_and!; [done | lia | lia |]. intros j z Hj. destruct (decide (i = j)) as [<- | Hne].
    + by rewrite list_lookup_insert_eq in Hj by (by eapply lookup_lt_Some).
    + rewrite list_lookup_insert_ne in Hj by done. eauto.
  - intros s xs s' Hinv Hstep Hn. destruct Hinv as (Hr & Hid & Hxs); [lia |].
    destruct (program_pool _ _ Hstep) as [Hrun Hle]; [lia |].
    split_and!; [by eapply reachable_more | lia | lia |]. intros j z Hj. eapply drawn_mono; [| by eapply Hxs]. lia.
Qed.

(** The pool of an assembled gateway is new. *)
Lemma assemble_pool {AuditError ClientError} MAX_PERMITS url_parse j0 client
    (audit_start : string -> Z -> result AuditError Sink) (usage_start : Usage.t -> string -> list Secret -> result ClientError UsageM)
    model_start cfg (app : gateway) :
  assemble MAX_PERMITS url_parse j0 client audit_start usage_start model_start cfg = Some (Ok app) ->
  exists pol, pool_policy (Config.key_failure_handling cfg) = Some pol
    /\ with_jitter (Config.keys cfg) pol j0 = Ok (app_pool app).
Proof.
  unfold assemble. destruct client as [http | e]; [| done].
  intros (pol & Hpol & Hrun)%bind_Some. destruct (with_jitter (Config.keys cfg) pol j0) as [pool | e] eqn:Hpool; [| done].
  apply bind_Some in Hrun as (queue & _ & (rt & _ & Hrun)%bind_Some).
  destruct (audit_start _ _) as [audit | e]; [| done].
  apply bind_Some in Hrun as (budget & _ & (slots & _ & Hrun)%bind_Some).
  destruct (usage_start _ _ _) as [um | e]; [| done]. destruct (model_start _) as [mm | e]; [| done].
  injection Hrun as <-. exists pol. done.
Qed.

(** C1. The key pool of a running gateway is always well formed.  Take an
    assembled gateway and any history of at most 2^64 - 1 events: operations of
    requests, interleaved, lost clients, reloads of the keys, model lists,
    proactive cooldowns, the shutdown.  The pool has gone through nothing but its
    own operations, each report for a selection it had handed out, from its
    start.  So the cursor points at an entry, the cooling fields of every entry
    are set together, every recorded selection was drawn before, a recovering
    (half-open) key has a deadline, so that it cannot stay unavailable for ever,
    and the failure counters hold a [u32]. *)
Theorem gateway_pool_wf {AuditError ClientError} MAX_PERMITS url_parse j0 client
    (audit_start : string -> Z -> result AuditError Sink) (usage_start : Usage.t -> string -> list Secret -> result ClientError UsageM)
    model_start cfg (app : gateway) counter n w :
  assemble MAX_PERMITS url_parse j0 client audit_start usage_start model_start cfg = Some (Ok app) ->
  bsteps (acts (request_task ser_f64 to_rfc3339 chrono_from_std version commit header_from_str join parse_from_rfc2822 builder_error post)
            (program_step sink_step)) n ((app, counter), []) w ->
  Z.of_nat n <= u64_max ->
  reachable (app_pool w.1.1) /\ pool_wf (app_pool w.1.1).
Proof.
  intros Happ (m & Hm & Hrun)%bsteps_nsteps Hn. destruct (assemble_pool _ _ _ _ _ _ _ _ _ Happ) as (pol & _ & Hnew).
  destruct (events_ok pool_history (fun _ _ => True) None _ _ history_inv m (app, counter) w history_preserved
    (request_history ser_f64 to_rfc3339 chrono_from_std version commit header_from_str join parse_from_rfc2822 builder_error post))
    as (xs & _ & Hinv); [| exact Hrun |].
  - intros _. simpl. split_and!; [by eapply reach_new | | | done];
      unfold with_jitter in Hnew; apply result_bind_ok in Hnew as (? & _ & (? & _ & [= Hp])%result_bind_ok);
      rewrite <- Hp; simpl; lia.
  - destruct Hinv as (Hr & _); [lia |]. split; [exact Hr |]. by apply reachable_pool_wf.
Qed.
End History.

(** ** At concrete inputs *)

#[local] Existing Instance demo_sha256.
#[local] Existing Instance demo_proxy_http.
#[local] Existing Instance demo_proxy_ct_eq.
#[local] Existing Instance demo_system_serde.
#[local] Existing Instance demo_router.

(** The keys are replaced while the first of two requests is about to try one. *)
Definition demo_trying : world demo_system_state (Endpoint * Response) :=
  schedule (replicate 12 0%nat) ((demo_app, 0), [] ++ (Live <$> [demo_chat; demo_chat])).
Definition reload_keys (keys : list Secret) (w : world demo_system_state (Endpoint * Response)) :=
  let '((g, c), ps) := w in
  match update_with_keys keys (app_runtime g) (mk_store Free (app_runtime g) (app_pool g)) with
  | Ok st => ((with_store st g, c), ps)
  | Err _ => w
  end.
Definition demo_order : list nat := concat (replicate 30 [0; 1]%nat).
Definition demo_reloaded : world demo_system_state (Endpoint * Response) :=
  schedule demo_order (reload_keys demo_new_keys demo_trying).

Example demo_reloaded_ends :
  ((fun p => match p with Live (Ret r) => Some (rs_status r.2) | _ => None end) <$> demo_reloaded.2,
   ke_key <$> entries (state (app_pool demo_reloaded.1.1)), next_id (app_pool demo_trying.1.1),
   next_id (app_pool demo_reloaded.1.1))
  = ([Some 500; Some 200], demo_new_keys, 1, 2).
Proof. vm_compute. reflexivity. Qed.

Lemma demo_is_request : demo_libraries request_task demo_chat.
Proof. by exists demo_plain_env, demo_system_env, ∅, 0, "/v1/chat/completions", "POST", demo_client. Qed.

Lemma reload_within starts keys w :
  bsteps (acts starts (program_step (fun _ _ => False))) 1 w (reload_keys keys w).
Proof.
  destruct w as [[g c] ps]. unfold reload_keys.
  destruct (update_with_keys keys _ _) as [st | e] eqn:Hup; [| constructor].
  apply bsteps_once, act_outside. by econstructor.
Qed.

Abbreviation demo_within := (bsteps (acts (demo_libraries request_task) (program_step (fun _ _ => False)))) (only parsing).
Lemma demo_reloaded_within : demo_within 75%nat ((demo_app, 0), []) demo_reloaded.
Proof.
  assert (demo_within 2%nat ((demo_app, 0), []) ((demo_app, 0), [] ++ (Live <$> [demo_chat; demo_chat]))) as Hstarts.
  { apply (starts_within _ _ _ _ [demo_chat; demo_chat]).
    repeat apply Forall_cons_2; [exact demo_is_request.. | apply Forall_nil_2]. }
  assert (demo_within 12%nat ((demo_app, 0), [] ++ (Live <$> [demo_chat; demo_chat])) demo_trying) as Htrying.
  { unfold demo_trying. exact (schedule_within _ _ (replicate 12 0%nat) _). }
  assert (demo_within 60%nat (reload_keys demo_new_keys demo_trying) demo_reloaded) as Hrest.
  { unfold demo_reloaded. exact (schedule_within _ _ demo_order _). }
  pose proof (reload_within (demo_libraries request_task) demo_new_keys demo_trying) as Hreload.
  exact (bsteps_trans _ _ _ _ _ Hstarts (bsteps_trans _ _ _ _ _ Htrying (bsteps_trans _ _ _ _ _ Hreload Hrest))).
Qed.

Lemma gateway_pool_wf_witness :
  demo_assembled = Some (Ok demo_app)
  /\ reachable (app_pool demo_reloaded.1.1) /\ pool_wf (app_pool demo_reloaded.1.1).
Proof.
  assert (demo_assembled = Some (Ok demo_app)) as Happ by (vm_compute; reflexivity).
  split; [exact Happ |].
  exact (demo_libraries gateway_pool_wf (fun _ _ => False) demo_permits (fun _ => Some ())
    no_jitter (Ok ()) (fun _ _ => Ok []) (fun _ _ _ => Ok ()) (fun _ => Ok ()) demo_config demo_app 0
    75%nat demo_reloaded Happ demo_reloaded_within ltac:(vm_compute; discriminate)).
Defined.
