(* ===== verification/Server.v ===== *)
(** * The listener ([src/src/server.rs])

    The accept loop with its connection cap, the connection tasks with their
    first-request watchdog, the reaping of finished tasks, and the drain at
    shutdown, as a state machine: each branch of the loop's [select!], each end
    of a connection task and each turn of the drain is an event. *)
From S2P Require Export Config Semaphore.

(** ** Settings *)

(** [struct ServerSettings], [struct Http1Limits] *)
Record ServerSettings := mk_settings { ss_read_header_timeout : Duration; ss_max_header_bytes : Z }.
Record Http1Limits := mk_http1_limits { hl_header_read_timeout : Duration; hl_max_header_bytes : Z }.

(** [ServerSettings::from_config], [Http1Limits::from_settings] *)
Definition settings_from_config (s : Server.t) : ServerSettings :=
  mk_settings (Server.read_header_timeout s) (Server.max_header_bytes s).
Definition limits_from_settings (s : ServerSettings) : Http1Limits :=
  mk_http1_limits (ss_read_header_timeout s) (ss_max_header_bytes s).

(** What [build_builder] sets on the connection builder. *)
Record BuilderSettings := mk_builder {
  bs_h1_max_buf_size : Z;
  bs_h1_header_read_timeout : Duration;
  bs_h1_keep_alive : bool;
  bs_h2_max_header_list_size : Z;
  bs_h2_keep_alive_interval : option Duration;
  bs_h2_keep_alive_timeout : Duration;
}.

(** [build_builder]; [None] is the panic of the [expect] on [u32::try_from]. *)
Definition build_builder (limits : Http1Limits) : option BuilderSettings :=
  h2 ← (if hl_max_header_bytes limits <=? u32_max then Some (hl_max_header_bytes limits) else None);
  Some (mk_builder (hl_max_header_bytes limits) (hl_header_read_timeout limits) false h2
          (Some (hl_header_read_timeout limits)) (hl_header_read_timeout limits)).

(** ** Warnings and delays *)

Definition CONNECTION_TASK_WARNING : string :=
  "orihsus: a connection task panicked or was cancelled; continuing to serve".
Definition ACCEPT_FAILURE_WARNING : string :=
  "orihsus: accept failed; retrying (further accept failures are not logged)".
Definition ACCEPT_RETRY_DELAY : Duration := 100000000.

(** [io::ErrorKind], as far as the policy distinguishes it. *)
Inductive AcceptErrorKind := Interrupted | ConnectionAborted | OtherError.

(** [accept_retry_delay] *)
Definition accept_retry_delay (kind : AcceptErrorKind) : Duration :=
  match kind with
  | Interrupted | ConnectionAborted => 0
  | OtherError => ACCEPT_RETRY_DELAY
  end.

(** [if !flag.swap(true) { eprintln!(message) }] *)
Definition swap_warn (flag : bool) (message : string) (stderr : list string) : list string :=
  if flag then stderr else stderr ++ [message].

(** ** The state of [serve] *)

(** A running connection task: when its watchdog started, and whether the first
    request has fired the [Notify]. *)
Record Conn := mk_conn { cn_started : Instant; cn_first_request : bool }.

(** How the loop stands: selecting, in the back-off of a failed accept, draining
    up to a deadline, or returned. *)
Inductive ServePhase := Selecting | BackingOff (until : Instant) | Draining (deadline : Instant) | Returned.

(** [serve]: the cap, the [JoinSet] (running tasks, and finished tasks not yet
    reaped: [true] for a panic or a cancellation), the two flags, the standard
    error, and the sockets closed at the cap. *)
Record Serve (Sem : Type) := mk_serve {
  sv_cap : Sem;
  sv_running : list Conn;
  sv_finished : list bool;
  sv_connection_warned : bool;
  sv_accept_warned : bool;
  sv_stderr : list string;
  sv_closed : nat;
  sv_phase : ServePhase;
}.
Arguments mk_serve {Sem}.
Arguments sv_cap {Sem}.
Arguments sv_running {Sem}.
Arguments sv_finished {Sem}.
Arguments sv_connection_warned {Sem}.
Arguments sv_accept_warned {Sem}.
Arguments sv_stderr {Sem}.
Arguments sv_closed {Sem}.
Arguments sv_phase {Sem}.

(** How a connection task ends: the connection is done, the watchdog wins the
    [select!], or the task panics. *)
Inductive ConnEnd := ConnServed | ConnSilent | ConnPanicked.

Inductive ServeEvent :=
| AcceptOk                            (** a socket is accepted *)
| AcceptErr (kind : AcceptErrorKind)  (** [accept] fails *)
| BackoffOver                         (** the sleep after a failure ends *)
| Reap                                (** [join_next] returns a finished task *)
| FirstRequest (i : nat)              (** the service sees its first request *)
| ConnEnds (i : nat) (how : ConnEnd)
| Shutdown
| DrainDeadline                       (** [timeout_at] elapses *)
| DrainDone.                          (** the set is empty *)

Section Serve.
Context {Sem : Type} `{Semaphore Sem} (limits : Http1Limits) (drain_timeout : Duration).

(** The state when [serve] enters its loop. *)
Definition serve_start (max_connections : Z) : Serve Sem :=
  mk_serve (sem_new max_connections) [] [] false false [] 0 Selecting.

Definition with_phase (p : ServePhase) (s : Serve Sem) : Serve Sem :=
  mk_serve (sv_cap s) (sv_running s) (sv_finished s) (sv_connection_warned s) (sv_accept_warned s)
    (sv_stderr s) (sv_closed s) p.
Definition with_connections (cap : Sem) (running : list Conn) (finished : list bool) (s : Serve Sem) : Serve Sem :=
  mk_serve cap running finished (sv_connection_warned s) (sv_accept_warned s)
    (sv_stderr s) (sv_closed s) (sv_phase s).

(** An accepted socket: a permit and a task, or closed at once. *)
Definition accept_connection (now : Instant) (s : Serve Sem) : Serve Sem :=
  match sem_try_acquire 1 (sv_cap s) with
  | Some cap => with_connections cap (sv_running s ++ [mk_conn now false]) (sv_finished s) s
  | None => mk_serve (sv_cap s) (sv_running s) (sv_finished s) (sv_connection_warned s)
              (sv_accept_warned s) (sv_stderr s) (S (sv_closed s)) (sv_phase s)
  end.

(** A failed [accept]: [warn_accept_once] and the delay. *)
Definition accept_failed (kind : AcceptErrorKind) (now : Instant) (s : Serve Sem) : Serve Sem :=
  let delay := accept_retry_delay kind in
  mk_serve (sv_cap s) (sv_running s) (sv_finished s) (sv_connection_warned s) true
    (swap_warn (sv_accept_warned s) ACCEPT_FAILURE_WARNING (sv_stderr s)) (sv_closed s)
    (if Dur.is_zero delay then sv_phase s else BackingOff (now + delay)).

(** [reap_next_connection] for a finished task; in the drain the result of
    [join_next] is discarded. *)
Definition reap_next_connection (failed : bool) (rest : list bool) (s : Serve Sem) : Serve Sem :=
  mk_serve (sv_cap s) (sv_running s) rest (failed || sv_connection_warned s) (sv_accept_warned s)
    (if failed then swap_warn (sv_connection_warned s) CONNECTION_TASK_WARNING (sv_stderr s) else sv_stderr s)
    (sv_closed s) (sv_phase s).

(** The end of a connection task drops its permit; the watchdog ends only a task
    without a request, once its bound has elapsed. *)
Definition connection_ends (i : nat) (how : ConnEnd) (now : Instant) (s : Serve Sem) : option (Serve Sem) :=
  c ← sv_running s !! i;
  let ended := with_connections (sem_release 1 (sv_cap s)) (delete i (sv_running s))
                 (sv_finished s ++ [match how with ConnPanicked => true | _ => false end]) s in
  match how with
  | ConnSilent => if negb (cn_first_request c) && (cn_started c + hl_header_read_timeout limits <=? now)
                  then Some ended else None
  | _ => Some ended
  end.

(** [abort_all], and every task joined. *)
Definition abort_rest (s : Serve Sem) : Serve Sem :=
  with_phase Returned
    (with_connections (sem_release (Z.of_nat (length (sv_running s))) (sv_cap s)) [] [] s).

(** One event at an instant; [None] when the code does not accept it there. *)
Definition serve_event (ev : ServeEvent) (now : Instant) (s : Serve Sem) : option (Serve Sem) :=
  match ev, sv_phase s with
  | FirstRequest i, Returned | ConnEnds i _, Returned => None
  | FirstRequest i, _ =>
      c ← sv_running s !! i;
      Some (with_connections (sv_cap s) (<[i := mk_conn (cn_started c) true]> (sv_running s)) (sv_finished s) s)
  | ConnEnds i how, _ => connection_ends i how now s
  | AcceptOk, Selecting => Some (accept_connection now s)
  | AcceptErr kind, Selecting => Some (accept_failed kind now s)
  | BackoffOver, BackingOff until => if until <=? now then Some (with_phase Selecting s) else None
  | Shutdown, Selecting => Some (with_phase (Draining (now + drain_timeout)) s)
  | Reap, Selecting =>
      match sv_finished s with
      | failed :: rest => Some (reap_next_connection failed rest s)
      | [] => None
      end
  | Reap, Draining _ =>
      match sv_finished s with
      | _ :: rest => Some (with_connections (sv_cap s) (sv_running s) rest s)
      | [] => None
      end
  | DrainDone, Draining _ =>
      match sv_running s, sv_finished s with [], [] => Some (with_phase Returned s) | _, _ => None end
  | DrainDeadline, Draining deadline =>
      match sv_running s, sv_finished s with
      | _ :: _, [] => if deadline <=? now then Some (abort_rest s) else None
      | _, _ => None
      end
  | _, _ => None
  end.

(** A run of events, each at its instant. *)
Fixpoint serve_run (evs : list (ServeEvent * Instant)) (s : Serve Sem) : option (Serve Sem) :=
  match evs with
  | [] => Some s
  | (ev, now) :: rest => s' ← serve_event ev now s; serve_run rest s'
  end.
End Serve.

(** ** Theorems *)

Section ServeTheorems.
Context {Sem : Type} `{SemaphoreLaws Sem} (limits : Http1Limits) (drain_timeout : Duration)
  (max_connections : Z).
Implicit Types s : Serve Sem.

(** Every permit is free or held by a running task; a return leaves no task. *)
Record serve_inv s : Prop := {
  si_permits : sem_available (sv_cap s) + Z.of_nat (length (sv_running s)) = max_connections;
  si_free : 0 <= sem_available (sv_cap s);
  si_open : sem_is_closed (sv_cap s) = false;
  si_idle : sem_idle (sv_cap s);
  si_returned : sv_phase s = Returned -> sv_running s = [] /\ sv_finished s = [];
}.

Lemma serve_start_inv : 0 <= max_connections -> serve_inv (serve_start max_connections).
Proof. intros Hmax. destruct (sem_new_idle max_connections) as (? & ? & ?). split; simpl; done || lia. Qed.

Lemma accept_connection_spec now s :
  serve_inv s ->
  (Z.of_nat (length (sv_running s)) < max_connections ->
     exists cap, accept_connection now s
       = with_connections cap (sv_running s ++ [mk_conn now false]) (sv_finished s) s
       /\ sem_available cap = sem_available (sv_cap s) - 1 /\ sem_is_closed cap = false /\ sem_idle cap)
  /\ (Z.of_nat (length (sv_running s)) = max_connections ->
       sv_running (accept_connection now s) = sv_running s
       /\ sv_closed (accept_connection now s) = S (sv_closed s)
       /\ sv_cap (accept_connection now s) = sv_cap s /\ sv_phase (accept_connection now s) = sv_phase s
       /\ sv_finished (accept_connection now s) = sv_finished s).
Proof.
  intros [Hp _ Ho Hi _]. unfold accept_connection. pose proof (sem_try_acquire_iff 1 (sv_cap s)) as Hiff.
  split; intros Hlen; destruct (sem_try_acquire 1 (sv_cap s)) as [cap |] eqn:Ha.
  - apply sem_try_idle in Ha as (? & ? & _ & _ & ?); [| done]. exists cap. by split_and!.
  - exfalso. destruct (proj2 Hiff) as [? [=]]. split; [done | lia].
  - destruct (proj1 Hiff) as [_ ?]; [by eexists | lia].
  - done.
Qed.

(** An update of the connections keeps the invariant outside [Returned]. *)
Lemma connections_inv cap running finished s :
  sv_phase s <> Returned -> sem_available cap + Z.of_nat (length running) = max_connections ->
  0 <= sem_available cap -> sem_is_closed cap = false -> sem_idle cap ->
  serve_inv (with_connections cap running finished s).
Proof. by split. Qed.

Lemma accept_connection_inv now s :
  serve_inv s -> sv_phase s <> Returned -> serve_inv (accept_connection now s).
Proof.
  intros Hinv Hph. pose proof Hinv as [Hp Hf _ _ _].
  destruct (accept_connection_spec now s Hinv) as [Hbelow Hat].
  destruct (decide (Z.of_nat (length (sv_running s)) < max_connections)) as [Hlt | Hge].
  - destruct (Hbelow Hlt) as (cap & -> & Hav & Hcl & Hi).
    apply connections_inv; rewrite ?length_app; simpl; done || lia.
  - destruct Hat as (Hr & _ & Hc & Hp' & Hf'); [lia |].
    split; rewrite ?Hr, ?Hc, ?Hp', ?Hf'; apply Hinv || done.
Qed.

Lemma connection_ends_inv i how now s s' :
  serve_inv s -> sv_phase s <> Returned -> connection_ends limits i how now s = Some s' -> serve_inv s'.
Proof.
  intros [Hp Hf Ho Hi _] Hph (c & Hc & Hend)%bind_Some.
  destruct (sem_release_idle 1 (sv_cap s) Hi) as (Hi' & Hrel & Hcl).
  pose proof (length_delete (sv_running s) i ltac:(by eexists)).
  pose proof (lookup_lt_Some _ _ _ Hc).
  assert (forall f, serve_inv (with_connections (sem_release 1 (sv_cap s)) (delete i (sv_running s)) f s)) as Hinv.
  { intros f. apply connections_inv; [done | lia | lia | congruence | done]. }
  destruct how; [| case_match; [| done] |]; injection Hend as <-; apply Hinv.
Qed.

Lemma abort_rest_inv s : serve_inv s -> serve_inv (abort_rest s).
Proof.
  intros [Hp Hf Ho Hi _].
  destruct (sem_release_idle (Z.of_nat (length (sv_running s))) (sv_cap s) Hi) as (Hi' & Hrel & Hcl).
  split; simpl; [lia | lia | congruence | done | done].
Qed.

Lemma serve_event_inv ev now s s' :
  serve_inv s -> serve_event limits drain_timeout ev now s = Some s' -> serve_inv s'.
Proof.
  intros Hinv Hev. pose proof Hinv as [Hp Hf Ho Hi Hr].
  destruct ev as [| kind | | | i | i how | | |]; simpl in Hev; destruct (sv_phase s) eqn:Hph; try discriminate Hev;
    try done; try (by eapply connection_ends_inv; [..| exact Hev]; rewrite ?Hph);
    try (destruct (sv_finished s) eqn:Hfin; [discriminate Hev |]; injection Hev as <-; split; simpl; by rewrite ?Hph);
    try (apply bind_Some in Hev as (c & _ & [= <-]); apply connections_inv; rewrite ?length_insert, ?Hph; done).
  - injection Hev as <-. apply accept_connection_inv; [done | by rewrite Hph].
  - injection Hev as <-. split; simpl; try done. rewrite Hph. by destruct (Dur.is_zero _).
  - case_match; [| done]. injection Hev as <-. by split.
  - injection Hev as <-. by split.
  - destruct (sv_running s), (sv_finished s); try done. case_match; [| done].
    injection Hev as <-. by apply abort_rest_inv.
  - destruct (sv_running s) eqn:Hrun, (sv_finished s) eqn:Hfin; try done. injection Hev as <-.
    split; simpl; rewrite ?Hrun, ?Hfin; done.
Qed.

Lemma serve_run_inv evs s s' :
  serve_inv s -> serve_run limits drain_timeout evs s = Some s' -> serve_inv s'.
Proof.
  revert s; induction evs as [| [ev now] evs IH]; intros s Hinv Hrun; [by injection Hrun as <- |].
  apply bind_Some in Hrun as (s1 & Hev & Hrun). eapply IH; [| exact Hrun]. by eapply serve_event_inv.
Qed.

(** C30. The connection cap holds: in every state [serve] can reach, running
    connection tasks and free permits together are exactly
    [max_connections], so a flood of silent clients can never grow the set of
    tasks past the cap; below the cap an accepted socket is served, at the cap
    it is closed and nothing is spawned; and when [serve] has returned, no
    task is left and every permit is back. *)
Theorem connections_capped evs s :
  0 <= max_connections ->
  serve_run limits drain_timeout evs (serve_start max_connections) = Some s ->
  Z.of_nat (length (sv_running s)) <= max_connections
  /\ sem_available (sv_cap s) = max_connections - Z.of_nat (length (sv_running s))
  /\ (forall now, if Z.of_nat (length (sv_running s)) <? max_connections
       then sv_running (accept_connection now s) = sv_running s ++ [mk_conn now false]
            /\ sv_closed (accept_connection now s) = sv_closed s
       else sv_running (accept_connection now s) = sv_running s
            /\ sv_closed (accept_connection now s) = S (sv_closed s))
  /\ (sv_phase s = Returned -> sv_running s = [] /\ sv_finished s = []
       /\ sem_available (sv_cap s) = max_connections).
Proof.
  intros Hmax Hrun. apply serve_run_inv in Hrun as Hinv; [| by apply serve_start_inv].
  pose proof Hinv as [Hp Hf Ho Hi Hr]. split_and!; [lia | lia | |].
  - intros now. destruct (accept_connection_spec now s Hinv) as [Hbelow Hat].
    destruct (Z.ltb_spec (Z.of_nat (length (sv_running s))) max_connections) as [Hlt | Hge].
    + destruct (Hbelow Hlt) as (cap & -> & _). done.
    + destruct Hat as (-> & -> & _); [lia | done].
  - intros Hret. destruct (Hr Hret) as [Hrun' Hfin]. rewrite Hrun' in *. simpl in *. split_and!; done || lia.
Qed.

(** Where the loop is before [shutdown] resolves, and what it has printed. *)
Definition warned (flag : bool) (message : string) : list string := if flag then [message] else [].
Record listening s : Prop := {
  li_phase : sv_phase s = Selecting \/ exists until, sv_phase s = BackingOff until;
  li_stderr : sv_stderr s ≡ₚ warned (sv_connection_warned s) CONNECTION_TASK_WARNING
                ++ warned (sv_accept_warned s) ACCEPT_FAILURE_WARNING;
}.

Lemma serve_event_listening ev now s s' :
  listening s -> ev <> Shutdown -> serve_event limits drain_timeout ev now s = Some s' -> listening s'.
Proof.
  intros [Hph Hst] Hne Hev.
  assert (forall cap r f, listening (with_connections cap r f s)) as Hsame by (by split).
  destruct ev as [| kind | | | i | i how | | |]; [| | | | | | done | |]; simpl in Hev;
    destruct Hph as [Hph | [until Hph]]; rewrite Hph in Hev; try discriminate Hev;
    try (apply bind_Some in Hev as (c & _ & Hev); first [injection Hev as <-; apply Hsame
      | destruct how; [| case_match; [| discriminate Hev] |]; injection Hev as <-; apply Hsame]).
  - injection Hev as <-. unfold accept_connection. destruct (sem_try_acquire _ _); split; simpl; eauto.
  - injection Hev as <-. split; simpl.
    + destruct (Dur.is_zero _); eauto.
    + unfold swap_warn. destruct (sv_accept_warned s); simpl in *; [done |]. rewrite app_nil_r in Hst.
      by rewrite Hst.
  - case_match; [| done]. injection Hev as <-. split; simpl; eauto.
  - destruct (sv_finished s) as [| failed rest]; [done |]. injection Hev as <-. split; simpl; [eauto |].
    unfold swap_warn. destruct failed; simpl; [| done].
    destruct (sv_connection_warned s); simpl in *; [done |]. rewrite Hst. symmetry. apply Permutation_cons_append.
Qed.

(** The listener survives its connections and its accepts: until the
    shutdown signal, whatever connection tasks panic, time out or end and
    whatever accepts fail, [serve] stays in its loop, at most one back-off of
    100 ms away from accepting again; and it prints each of its two warnings at
    most once, and nothing else. *)
Theorem listener_survives evs s :
  (forall now, (Shutdown, now) ∉ evs) ->
  serve_run limits drain_timeout evs (serve_start max_connections) = Some s ->
  (sv_phase s = Selecting
   \/ exists until, sv_phase s = BackingOff until
        /\ forall now, until <= now ->
             serve_event limits drain_timeout BackoffOver now s = Some (with_phase Selecting s))
  /\ sv_stderr s ≡ₚ warned (sv_connection_warned s) CONNECTION_TASK_WARNING
       ++ warned (sv_accept_warned s) ACCEPT_FAILURE_WARNING.
Proof.
  intros Hno Hrun. assert (listening s) as [Hph Hst].
  { assert (listening (serve_start max_connections)) as Hli by (split; simpl; eauto).
    revert Hno Hli Hrun. generalize (serve_start max_connections) as s0.
    induction evs as [| [ev now] evs IH]; intros s0 Hno Hli Hrun; [by injection Hrun as <- |].
    apply bind_Some in Hrun as (s1 & Hev & Hrun). eapply IH; [| | exact Hrun].
    - intros n Hin. apply (Hno n). by right.
    - eapply serve_event_listening; [exact Hli | | exact Hev]. intros ->. apply (Hno now). by left. }
  split; [| done]. destruct Hph as [| [until Hph]]; [by left | right]. exists until. split; [done |].
  intros now Hle. simpl. rewrite Hph. by rewrite (proj2 (Z.leb_le until now)).
Qed.

(** The turns of the drain loop at its deadline: the finished tasks are reaped,
    then the set is empty or the rest is aborted. *)
Definition drain_turns now s : list (ServeEvent * Instant) :=
  replicate (length (sv_finished s)) (Reap, now)
  ++ [(match sv_running s with [] => DrainDone | _ => DrainDeadline end, now)].

(** After the signal: draining up to the deadline or returned, with no socket
    taken or refused and only tasks that ran at the signal ([s0]). *)
Record leaving (deadline : Instant) s0 s : Prop := {
  lv_phase : sv_phase s = Draining deadline \/ sv_phase s = Returned;
  lv_tasks : (cn_started <$> sv_running s) `sublist_of` (cn_started <$> sv_running s0);
  lv_closed : sv_closed s = sv_closed s0;
}.

Lemma leaving_connections deadline s0 s cap running finished :
  leaving deadline s0 s -> (cn_started <$> running) `sublist_of` (cn_started <$> sv_running s) ->
  leaving deadline s0 (with_connections cap running finished s).
Proof. intros [Hp Ht Hc] Hr. split; [done | by etrans | done]. Qed.

Lemma serve_event_leaving deadline s0 ev now s s' :
  leaving deadline s0 s -> serve_event limits drain_timeout ev now s = Some s' ->
  leaving deadline s0 s' /\ ev <> AcceptOk.
Proof.
  intros Hl Hev. pose proof Hl as [Hph Ht Hc].
  destruct ev as [| kind | | | i | i how | | |]; simpl in Hev;
    (destruct Hph as [Hph | Hph]; rewrite Hph in Hev; try discriminate Hev); (split; [| done]).
  - destruct (sv_finished s); [done |]. injection Hev as <-. by apply leaving_connections.
  - apply bind_Some in Hev as (c & Hi & [= <-]). apply leaving_connections; [done |].
    rewrite list_fmap_insert. simpl. rewrite list_insert_id; [done |]. by rewrite list_lookup_fmap, Hi.
  - apply bind_Some in Hev as (c & Hi & Hend).
    assert (leaving deadline s0 (with_connections (sem_release 1 (sv_cap s)) (delete i (sv_running s))
      (sv_finished s ++ [match how with ConnPanicked => true | _ => false end]) s)) as Hok.
    { apply leaving_connections; [done |]. apply fmap_sublist, sublist_delete. }
    destruct how; [| case_match; [| discriminate Hend] |]; injection Hend as <-; exact Hok.
  - destruct (sv_running s), (sv_finished s); try done. case_match; [| done]. injection Hev as <-.
    split; [by right | apply sublist_nil_l | done].
  - destruct (sv_running s) eqn:Hr, (sv_finished s); try done. injection Hev as <-.
    split; simpl; [by right | by rewrite Hr | done].
Qed.

(** The drain returns when nothing is left, or at the deadline. *)
Lemma serve_event_returns deadline ev t s s' :
  sv_phase s = Draining deadline -> serve_event limits drain_timeout ev t s = Some s' -> sv_phase s' = Returned ->
  deadline <= t \/ (sv_running s = [] /\ sv_finished s = []).
Proof.
  intros Hph Hev Hret.
  destruct ev as [| kind | | | i | i how | | |]; simpl in Hev; rewrite Hph in Hev; try discriminate Hev.
  - destruct (sv_finished s); [done |]. injection Hev as <-. simpl in Hret. congruence.
  - apply bind_Some in Hev as (c & _ & [= <-]). simpl in Hret. congruence.
  - apply bind_Some in Hev as (c & _ & Hend).
    destruct how; [| case_match; [| discriminate Hend] |]; injection Hend as <-; simpl in Hret; congruence.
  - destruct (sv_running s), (sv_finished s); try done. destruct (Z.leb_spec deadline t); [by left | done].
  - destruct (sv_running s), (sv_finished s); try done. by right.
Qed.

Lemma serve_run_leaving deadline s0 evs s s' :
  leaving deadline s0 s -> serve_run limits drain_timeout evs s = Some s' ->
  leaving deadline s0 s' /\ Forall (fun e => e.1 <> AcceptOk) evs.
Proof.
  revert s; induction evs as [| [ev now] evs IH]; intros s Hl Hrun; [by injection Hrun as <- |].
  apply bind_Some in Hrun as (s1 & Hev & Hrun). eapply serve_event_leaving in Hev as [Hl1 Hne]; [| exact Hl].
  destruct (IH s1 Hl1 Hrun). by split; [| constructor].
Qed.

(** At the deadline the turns of the drain return. *)
Lemma drain_turns_return deadline now s :
  sv_phase s = Draining deadline -> deadline <= now ->
  exists s', serve_run limits drain_timeout (drain_turns now s) s = Some s' /\ sv_phase s' = Returned.
Proof.
  intros Hph Hle. unfold drain_turns. remember (sv_finished s) as finished eqn:Hfin. revert s Hph Hfin.
  induction finished as [| failed rest IH]; intros s Hph Hfin.
  - destruct (sv_running s) eqn:Hr; simpl; rewrite Hph, Hr, <- Hfin; simpl; [by eexists |].
    rewrite (proj2 (Z.leb_le deadline now)) by done. by eexists.
  - simpl. rewrite Hph, <- Hfin. apply (IH (with_connections (sv_cap s) (sv_running s) rest s)); done.
Qed.

End ServeTheorems.

(** ** At concrete inputs *)

Definition demo_limits : Http1Limits := mk_http1_limits (Dur.from_secs 5) 32768.

(** One connection allowed: the second socket is closed, an accept fails, the
    silent first client is dropped after five seconds. *)
Definition demo_events : list (ServeEvent * Instant) :=
  [(AcceptOk, 0); (AcceptOk, 1); (AcceptErr OtherError, 2); (BackoffOver, 100000002);
   (ConnEnds 0 ConnSilent, Dur.from_secs 5); (Reap, Dur.from_secs 5); (AcceptOk, Dur.from_secs 6);
   (FirstRequest 0, Dur.from_secs 7)].
Definition demo_serve : Serve FairSem :=
  default (serve_start 1) (serve_run demo_limits (Dur.from_secs 30) demo_events (serve_start 1)).
Lemma demo_serve_run : serve_run demo_limits (Dur.from_secs 30) demo_events (serve_start 1) = Some demo_serve.
Proof. reflexivity. Qed.
Definition demo_draining : Serve FairSem := with_phase (Draining (Dur.from_secs 38)) demo_serve.

Example demo_serve_state :
  sv_running demo_serve = [mk_conn (Dur.from_secs 6) true] /\ sv_closed demo_serve = 1%nat
  /\ sv_stderr demo_serve = [ACCEPT_FAILURE_WARNING].
Proof. by split_and!. Qed.

(** The watchdog never ends a connection that has seen a request. *)
Example demo_active_not_dropped :
  serve_event demo_limits 0 (ConnEnds 0 ConnSilent) (Dur.from_secs 1000) demo_serve = None.
Proof. reflexivity. Qed.

Lemma connections_capped_witness :
  Z.of_nat (length (sv_running demo_serve)) <= 1 /\ sem_available (sv_cap demo_serve) = 0.
Proof.
  destruct (connections_capped demo_limits (Dur.from_secs 30) 1 demo_events demo_serve) as (H1 & H2 & _).
  - lia.
  - exact demo_serve_run.
  - split; [exact H1 | rewrite H2; reflexivity].
Defined.

Lemma listener_survives_witness : sv_phase demo_serve = Selecting.
Proof.
  destruct (listener_survives demo_limits (Dur.from_secs 30) 1 demo_events demo_serve) as [[Hph | (u & Hph & _)] _].
  - intros now Hin. unfold demo_events in Hin. set_solver.
  - exact demo_serve_run.
  - exact Hph.
  - discriminate Hph.
Defined.

