(* ===== verification/Lifecycle.v ===== *)
(** * The process ([src/src/main.rs])

    The command line, the refusal to run as root, and the life of the process
    from start to exit: what is started, what a signal or a server failure
    stops, and in which order.  Starting and awaiting things outside the
    program gives results that are arguments; what the program does is a
    trace of actions. *)
From S2P Require Export Server Reload Build.

(** ** The command line *)

Definition DEFAULT_CONFIG_PATH : string := "/etc/orihsus/config.yaml".

(** [enum CliError] and its [Display] *)
Inductive CliError := Help | Version | UnknownOption | MissingValue.
Definition display_cli_error (e : CliError) : string :=
  match e with
  | Help => ""
  | Version => ""
  | UnknownOption => "unknown option (see --help)"
  | MissingValue => "--config requires a path argument"
  end.

(** The loop of [parse_args], for the path found so far. *)
Fixpoint parse_loop (config : option string) (args : list string) : result CliError string :=
  match args with
  | [] => Ok (default DEFAULT_CONFIG_PATH config)
  | arg :: rest =>
      if String.eqb arg "-h" || String.eqb arg "--help" then Err Help
      else if String.eqb arg "-V" || String.eqb arg "--version" then Err Version
      else if String.eqb arg "--config" then
        match rest with
        | [] => Err MissingValue
        | value :: rest => parse_loop (Some value) rest
        end
      else match strip_prefix arg "--config=" with
           | Some value => if str_is_empty value then Err MissingValue else parse_loop (Some value) rest
           | None => Err UnknownOption
           end
  end.

(** [parse_args] *)
Definition parse_args (args : list string) : result CliError string := parse_loop None args.

(** ** Errors *)

Section Lifecycle.
Context {IoError BootError HotError JoinError Queue Cfg : Type}.

(** [enum MainError] *)
Inductive MainError :=
| MainRoot
| MainConfig (e : ErrorKind IoError)
| MainBootstrap (e : BootError)
| MainHotReload (e : HotError)
| MainIo (e : IoError)
| MainServerTask (e : JoinError).

(** [<MainError as Display>::fmt] *)
Definition display_main_error (show_io : IoError -> string) (show_boot : BootError -> string)
    (show_hot : HotError -> string) (show_join : JoinError -> string) (e : MainError) : string :=
  match e with
  | MainRoot => "refusing to run as root; use a dedicated user"
  | MainConfig e => display_error show_io e
  | MainBootstrap e => show_boot e
  | MainHotReload e => show_hot e
  | MainIo e => "I/O error: " +:+ show_io e
  | MainServerTask e => "server task failed: " +:+ show_join e
  end.

(** [reject_root_for] *)
Definition reject_root_for (euid : Z) : result MainError unit :=
  if euid =? 0 then Err MainRoot else Ok tt.

(** [load_config]: the file is not read as root. *)
Definition load_config (euid : Z) (load : result (ErrorKind IoError) Cfg) : result MainError Cfg :=
  reject_root_for euid ;; map_err MainConfig load.

(** [map_server_result] *)
Definition map_server_result (r : result JoinError (result IoError unit)) : result MainError unit :=
  match r with
  | Ok (Ok tt) => Ok tt
  | Ok (Err e) => Err (MainIo e)
  | Err join => Err (MainServerTask join)
  end.

(** ** The lifecycle *)

(** What the process does to its parts, in order. *)
Inductive Action :=
| ActBind
| ActStartReloader
| ActInstallSighup
| ActStartServer
| ActCloseQueue
| ActCloseReloader
| ActSendStop
| ActAwaitServer
| ActAbortSighup
| ActStopUsageMonitor
| ActStopModelMonitor
| ActFlushAudit
| ActWarn (line : string).

(** How the race of [run_lifecycle] ends: the signal comes first, and the
    server ends with a result once asked to; or the server ends by itself. *)
Inductive Race := SignalFirst (server : result JoinError (result IoError unit))
                | ServerFirst (server : result JoinError (result IoError unit)).

(** [run_lifecycle], with the queue's [close] *)
Definition run_lifecycle (close : Queue -> Queue) (race : Race) (queue : Queue)
    : result MainError unit * Queue * list Action :=
  match race with
  | ServerFirst server => (map_server_result server, close queue, [ActCloseQueue; ActCloseReloader])
  | SignalFirst server =>
      (map_server_result server, close queue, [ActCloseQueue; ActCloseReloader; ActSendStop; ActAwaitServer])
  end.

Definition STILL_REFERENCED : string :=
  "orihsus: audit writer still referenced at shutdown; dropping is non-blocking and unflushed records may be lost".

(** [flush_audit_at_shutdown]: the writer taken out of its [Arc] and flushed
    (with the rendered error of a failure), or still referenced. *)
Definition flush_audit_at_shutdown (unwrapped : option (result string unit)) : list Action :=
  match unwrapped with
  | Some (Ok tt) => [ActFlushAudit]
  | Some (Err e) => [ActFlushAudit; ActWarn ("orihsus: audit flush failed: " +:+ e)]
  | None => [ActWarn STILL_REFERENCED]
  end.

(** What [run] reads from outside. *)
Record RunEnv := mk_run_env {
  re_assemble : result BootError Queue;
  re_bind : result IoError unit;
  re_reloader : result HotError unit;
  re_serving_line : string;
  re_race : Race;
  re_audit : option (result string unit);
}.

(** [run]: the result, and everything done on the way. *)
Definition run (close : Queue -> Queue) (env : RunEnv) : result MainError unit * list Action :=
  match re_assemble env with
  | Err e => (Err (MainBootstrap e), [])
  | Ok queue =>
      match re_bind env with
      | Err e => (Err (MainIo e), [ActBind])
      | Ok _ =>
          match re_reloader env with
          | Err e => (Err (MainHotReload e), [ActBind; ActStartReloader])
          | Ok _ =>
              let '(lifecycle_result, _, acts) := run_lifecycle close (re_race env) queue in
              (lifecycle_result,
               [ActBind; ActStartReloader; ActInstallSighup; ActWarn (re_serving_line env); ActStartServer]
               ++ acts
               ++ [ActAbortSighup; ActStopUsageMonitor; ActStopModelMonitor]
               ++ flush_audit_at_shutdown (re_audit env))
          end
      end
  end.

(** [usage] *)
Definition usage : string := join_lf
  [ "orihsus — OpenCode Go key rotation gateway"; "";
    "USAGE:";
    "    orihsus [--config <PATH>]"; "";
    "OPTIONS:";
    "    --config <PATH>    path to the YAML config (default: /etc/orihsus/config.yaml)";
    "    -h, --help         print this help";
    "    -V, --version      print version and build commit" ].

(** What [--version] prints, for the package version and the commit the build
    script found. *)
Definition version_line (version : string) (git : option (bool * bytes)) : string :=
  "orihsus " +:+ version +:+ " commit " +:+ commit_hash git.

(** [shutdown_signal]: the first of the two signals. *)
Definition shutdown_signal (ctrl_c terminate : option Instant) : option Instant :=
  match ctrl_c, terminate with
  | Some a, Some b => Some (Z.min a b)
  | Some a, None => Some a
  | None, b => b
  end.

(** [main]: the exit code, the standard output and the standard error. *)
Definition main_ (usage version_line : string) (show : MainError -> string) (args : list string) (euid : Z)
    (load : string -> result (ErrorKind IoError) Cfg) (run_with : Cfg -> result MainError unit)
    : Z * list string * list string :=
  match parse_args args with
  | Err Help => (0, [usage], [])
  | Err Version => (0, [version_line], [])
  | Err e => (2, [], ["orihsus: " +:+ display_cli_error e; usage])
  | Ok config_path =>
      match load_config euid (load config_path) with
      | Err e => (1, [], ["orihsus: " +:+ show e])
      | Ok cfg =>
          match run_with cfg with
          | Ok _ => (0, [], [])
          | Err e => (1, [], ["orihsus: " +:+ show e])
          end
      end
  end.

(** [on_sighup]: the log is reopened, then a reload is forced whatever came of
    it. *)
Definition on_sighup {Audit Trigger AuditErr : Type} (reopen : Audit -> result AuditErr unit * Audit)
    (fire : Trigger -> Trigger) (audit : Audit) (reload : Trigger) : result AuditErr unit * Audit * Trigger :=
  let '(result, audit) := reopen audit in (result, audit, fire reload).

End Lifecycle.

(** ** Theorems *)

(** The ways to name the configuration file: two arguments, or one. *)
Inductive ConfigArg := TwoWords (path : string) | OneWord (path : string).
Definition arg_path (a : ConfigArg) : string := match a with TwoWords p | OneWord p => p end.
Definition arg_words (a : ConfigArg) : list string :=
  match a with TwoWords p => ["--config"; p] | OneWord p => ["--config=" +:+ p] end.
Definition arg_ok (a : ConfigArg) : Prop := match a with TwoWords _ => True | OneWord p => p <> "" end.

Lemma parse_one_word config p rest :
  p <> "" -> parse_loop config (("--config=" +:+ p) :: rest) = parse_loop (Some p) rest.
Proof.
  intros Hp. cbn [parse_loop]. rewrite (proj2 (strip_prefix_iff _ _ p)) by done.
  destruct p as [| c p]; [done |]. reflexivity.
Qed.

Lemma parse_two_words config p rest :
  parse_loop config ("--config" :: p :: rest) = parse_loop (Some p) rest.
Proof. reflexivity. Qed.

Lemma parse_loop_complete as_ : forall config,
  Forall arg_ok as_ ->
  parse_loop config (as_ ≫= arg_words) = Ok (default (default DEFAULT_CONFIG_PATH config) (last (arg_path <$> as_))).
Proof.
  induction as_ as [| a as_ IH]; intros config Hok; [done |]. apply Forall_cons in Hok as [Ha Hok].
  rewrite fmap_cons, last_cons. rewrite bind_cons.
  destruct a as [p | p]; cbn [arg_words app]; [rewrite parse_two_words | rewrite parse_one_word by done];
    rewrite IH by done; by destruct (last _).
Qed.

Lemma parse_loop_sound n : forall args config p,
  (length args <= n)%nat -> parse_loop config args = Ok p ->
  exists as_, Forall arg_ok as_ /\ args = as_ ≫= arg_words
    /\ p = default (default DEFAULT_CONFIG_PATH config) (last (arg_path <$> as_)).
Proof.
  induction n as [| n IH]; intros [| arg rest] config p Hn; simpl in Hn; try lia.
  1,2: intros [= <-]; exists []; by split_and!.
  cbn [parse_loop]. destruct (_ || _); [done |]. destruct (_ || _); [done |].
  destruct (String.eqb_spec arg "--config") as [-> | _].
  - destruct rest as [| value rest]; [done |]. simpl in Hn.
    intros (as_ & Hok & -> & ->)%IH; [| lia]. exists (TwoWords value :: as_).
    split_and!; [by constructor | done |]. rewrite fmap_cons, last_cons. by destruct (last _).
  - destruct (strip_prefix arg "--config=") as [value |] eqn:Hs; [| done].
    apply strip_prefix_iff in Hs as ->. destruct (str_is_empty value) eqn:He; [done |].
    intros (as_ & Hok & -> & ->)%IH; [| lia]. exists (OneWord value :: as_).
    split_and!; [constructor; [| done]; by intros -> | done |]. rewrite fmap_cons, last_cons. by destruct (last _).
Qed.

(** The command line is parsed exactly: a path comes out of precisely the
    argument lists made of [--config PATH] and [--config=PATH] (the latter not
    empty), the last one wins, and without any the default file is used;
    anything else is refused. *)
Theorem parse_args_exact args p :
  parse_args args = Ok p <->
  exists as_, Forall arg_ok as_ /\ args = as_ ≫= arg_words
    /\ p = default DEFAULT_CONFIG_PATH (last (arg_path <$> as_)).
Proof.
  unfold parse_args. split.
  - intros Hp. by apply (parse_loop_sound (length args)) in Hp.
  - intros (as_ & Hok & -> & ->). by rewrite parse_loop_complete.
Qed.

(** [a] happens before [b] in a trace. *)
Definition before {A} (a b : A) (l : list A) : Prop := exists i j, l !! i = Some a /\ l !! j = Some b /\ (i < j)%nat.

Section LifecycleTheorems.
Context {IoError BootError HotError JoinError Queue Cfg : Type}.
Abbreviation env := (RunEnv (IoError := IoError) (BootError := BootError) (HotError := HotError)
  (JoinError := JoinError) (Queue := Queue)).

Abbreviation main_error := (MainError (IoError := IoError) (BootError := BootError) (HotError := HotError)
  (JoinError := JoinError)).

(** A process that came to serve, and what it did. *)
Lemma run_trace close (e : env) queue :
  re_assemble e = Ok queue -> re_bind e = Ok tt -> re_reloader e = Ok tt ->
  exists server, (re_race e = SignalFirst server \/ re_race e = ServerFirst server)
    /\ run close e = (map_server_result server,
        [ActBind; ActStartReloader; ActInstallSighup; ActWarn (re_serving_line e); ActStartServer;
         ActCloseQueue; ActCloseReloader]
        ++ (match re_race e with SignalFirst _ => [ActSendStop; ActAwaitServer] | ServerFirst _ => [] end)
        ++ [ActAbortSighup; ActStopUsageMonitor; ActStopModelMonitor]
        ++ flush_audit_at_shutdown (re_audit e)).
Proof.
  intros Ha Hb Hr. unfold run. rewrite Ha, Hb, Hr. destruct (re_race e) as [server | server]; exists server;
    (split; [by eauto |]); reflexivity.
Qed.

(** Shutdown is ordered, however it comes: a process that served closes
    admission first, then the reloader; on a signal it only then asks the
    server to stop and awaits its drain; the handler of SIGHUP and the two
    monitors are stopped before the audit log is flushed, and the flush is
    attempted also when the server has failed.  The result is the server's,
    so a server that dies is an error of the process. *)
Theorem shutdown_ordered close (e : env) queue :
  re_assemble e = Ok queue -> re_bind e = Ok tt -> re_reloader e = Ok tt ->
  let acts := (run close e).2 in
  (exists server, (re_race e = SignalFirst server \/ re_race e = ServerFirst server)
     /\ (run close e).1 = map_server_result server
     /\ (re_race e = SignalFirst server ->
          before ActCloseReloader ActSendStop acts /\ before ActSendStop ActAwaitServer acts
          /\ before ActAwaitServer ActAbortSighup acts))
  /\ before ActStartServer ActCloseQueue acts /\ before ActCloseQueue ActCloseReloader acts
  /\ before ActCloseReloader ActAbortSighup acts
  /\ (is_Some (re_audit e) ->
        before ActAbortSighup ActFlushAudit acts /\ before ActStopUsageMonitor ActFlushAudit acts
        /\ before ActStopModelMonitor ActFlushAudit acts)
  /\ (re_audit e = None -> last acts = Some (ActWarn STILL_REFERENCED)).
Proof.
  intros Ha Hb Hr. destruct (run_trace close e queue Ha Hb Hr) as (server & Hrace & ->). cbn zeta. simpl.
  split; [exists server; split_and!; [done | done |]; intros Hs; rewrite Hs |
          destruct Hrace as [-> | ->]].
  - split_and!; [exists 6%nat, 7%nat | exists 7%nat, 8%nat | exists 8%nat, 9%nat]; (split_and!; [done | done | lia]).
  - split_and!; [exists 4%nat, 5%nat | exists 5%nat, 6%nat | exists 6%nat, 9%nat | |];
      try (split_and!; [done | done | lia]).
    + intros [[[]|m] Ho]; rewrite Ho; simpl;
      (split_and!; [exists 9%nat, 12%nat | exists 10%nat, 12%nat | exists 11%nat, 12%nat]; (split_and!; [done | done | lia])).
    + intros ->. done.
  - split_and!; [exists 4%nat, 5%nat | exists 5%nat, 6%nat | exists 6%nat, 7%nat | |];
      try (split_and!; [done | done | lia]).
    + intros [[[]|m] Ho]; rewrite Ho; simpl;
      (split_and!; [exists 7%nat, 10%nat | exists 8%nat, 10%nat | exists 9%nat, 10%nat]; (split_and!; [done | done | lia])).
    + intros ->. done.
Qed.

(** Exit codes and privileges: the process exits with 0 exactly for the two
    informational options and for a clean run that was not root, with 2
    exactly for a bad command line; as root neither the file nor the run is
    ever reached. *)
Theorem main_exit_codes usage version (show : main_error -> string) args euid
    (load : string -> result (ErrorKind IoError) Cfg) (run_with : Cfg -> result main_error unit) :
  let code := (main_ usage version show args euid load run_with).1.1 in
  (code = 0 <-> parse_args args = Err Help \/ parse_args args = Err Version
     \/ exists path cfg, parse_args args = Ok path /\ euid <> 0 /\ load path = Ok cfg /\ run_with cfg = Ok tt)
  /\ (code = 2 <-> parse_args args = Err UnknownOption \/ parse_args args = Err MissingValue)
  /\ (euid = 0 -> forall (load' : string -> result (ErrorKind IoError) Cfg) (run_with' : Cfg -> result main_error unit),
        main_ usage version show args euid load run_with = main_ usage version show args euid load' run_with').
Proof.
  cbn zeta. unfold main_, load_config, reject_root_for. split_and!.
  - destruct (parse_args args) as [path | []]; simpl;
      [| by split; auto | by split; auto | by split; [| intros [| [| (? & ? & ? & _)]]]..].
    destruct (Z.eqb_spec euid 0) as [-> | Hne]; simpl; [split; [done |] | destruct (load path) as [cfg |] eqn:Hl; simpl].
    + by intros [| [| (? & ? & ? & ? & _)]].
    + destruct (run_with cfg) as [[] |] eqn:Hrun; simpl; split; try done.
      * intros _. right. right. by exists path, cfg.
      * intros [| [| (p & c & [= <-] & _ & Hl' & Hr)]]; try done. congruence.
    + split; [done |]. intros [| [| (p & c & [= <-] & _ & Hl' & Hr)]]; try done. congruence.
  - destruct (parse_args args) as [path | []]; simpl; [| split; [done | by intros [|]] | split; [done | by intros [|]] | split; by auto | split; by auto].
    split; [| by intros [|]]. destruct (_ =? _); [done |]. destruct (load path); simpl; [| done].
    by destruct (run_with _).
  - intros -> load' run'. by destruct (parse_args args) as [path | []].
Qed.
End LifecycleTheorems.

(** ** At concrete inputs *)

Example demo_args :
  (parse_args ["--config"; "a"; "--config=b"], parse_args ["--config="], parse_args ["x"; "-h"], parse_args [])
  = (Ok "b", Err MissingValue, Err UnknownOption, Ok DEFAULT_CONFIG_PATH).
Proof. reflexivity. Qed.

(** A server that dies of an I/O error, with a writer that flushes. *)
Definition demo_run_env : RunEnv (IoError := string) (BootError := unit) (HotError := unit) (JoinError := unit)
    (Queue := unit) :=
  mk_run_env (Ok tt) (Ok tt) (Ok tt) "serving" (ServerFirst (Ok (Err "broken"))) (Some (Ok tt)).

Lemma shutdown_ordered_witness :
  before ActStopModelMonitor ActFlushAudit (run id demo_run_env).2
  /\ (run id demo_run_env).1 = Err (MainIo "broken").
Proof.
  destruct (shutdown_ordered id demo_run_env tt eq_refl eq_refl eq_refl) as (_ & _ & _ & _ & Hflush & _).
  split; [| reflexivity]. apply Hflush. exists (Ok tt). reflexivity.
Defined.
