(* ===== verification/Shutdown.v ===== *)
(** * The end of the process

    [run] of [Lifecycle] carried out on the gateway of [Traffic] with the writer of
    [AuditTrail]: what its actions do to the shared state, with requests running in
    between, and what the log holds after a clean exit. *)
From S2P Require Export AuditTrail Lifecycle.

(** ** The writer until the flush *)

Section Working.
Context {World Sink IoError : Type} `{AuditIoLaws World Sink IoError} `{EqDecision Sink}.
Implicit Types w : AuditWriter World Sink IoError.

(** Until the flush nobody closes or drops the writer: the log is reopened, the
    thread runs. *)
Inductive working : AuditWriter World Sink IoError -> AuditWriter World Sink IoError -> Prop :=
| wk_reopen path reply w w' : reopen_start path reply w = Ok w' -> working w w'
| wk_thread w w' : write_step w = Some w' -> working w w'.

Lemma working_upkeep w w' : working w w' -> upkeep w w'.
Proof. destruct 1; by econstructor. Qed.

Lemma offered_mono {A} `{AuditSink A} (R R' : A -> A -> Prop) a l b :
  (forall x y, R x y -> R' x y) -> offered R a l b -> offered R' a l b.
Proof. intros HR. induction 1; [constructor | by constructor | eapply offered_meanwhile; eauto]. Qed.

(** The thread is alive and can be asked to stop. *)
Definition alive_writer w : Prop := aw_tx w = true /\ aw_handle w = true /\ aw_result w = None.

Lemma try_send_alive c w w' : try_send c w = Ok w' -> alive_writer w -> alive_writer w'.
Proof. unfold try_send. intros Hs Hw. repeat case_match; simplify_eq. exact Hw. Qed.

Lemma count_drop_alive w : alive_writer w -> alive_writer (count_drop w).
Proof. unfold count_drop. by destruct (aw_drop_warned w). Qed.

Lemma record_alive r w : alive_writer w -> alive_writer (try_record r w).2.
Proof.
  intros Hw. unfold try_record. destruct (negb (aw_tx w)); [by apply count_drop_alive |].
  destruct (try_send (CmdRecord r) w) as [w' |] eqn:Hs; [by eapply try_send_alive | by apply count_drop_alive].
Qed.

Lemma working_alive w w' : working w w' -> alive_writer w -> alive_writer w'.
Proof.
  intros Hstep Hw. destruct Hstep as [path reply w w' Hr | w w' Hr].
  - unfold reopen_start in Hr. destruct (negb (aw_tx w)); [done |].
    destruct (try_send _ w) as [v | [|]] eqn:Hs; try done. injection Hr as ->. by eapply try_send_alive.
  - destruct Hw as (Htx & Hh & Hres). unfold write_step in Hr. rewrite Hres, Htx in Hr.
    destruct (aw_chan w) as [| c rest]; [done |]. injection Hr as <-.
    unfold alive_writer. destruct (write_command_frame c (with_chan true rest w)) as (-> & _ & _ & _ & _ & _ & -> & ->). done.
Qed.

Lemma offered_alive a l b : offered working a l b -> alive_writer a -> alive_writer b.
Proof.
  intros Hoff Ha. induction Hoff as [| l b r _ IH | l b b' _ IH Hstep]; [done | by apply record_alive, IH |].
  eapply working_alive; eauto.
Qed.

Lemma start_alive path cap world w : (start path cap world).1 = Ok w -> alive_writer w.
Proof.
  unfold start. destruct (io_open_append path world) as [[s | e] world']; [| done]. simpl. unfold spawn.
  destruct (cap =? 0); [done |]. by intros [= <-].
Qed.
End Working.

(** ** The actions *)

Section Exit.
Context `{SerdeJson} `{HttpHeaders} `{Sha256} `{CtEq} {Url Sem J Http UsageM ModelM Error : Type}
  `{Jitter J} `{SemaphoreLaws Sem} `{WebRouter}
  {World Sink IoError : Type} `{AuditIoLaws World Sink IoError} `{EqDecision Sink}.
Context (ser_f64 : spec_float -> Ser) (to_rfc3339 : Z -> string) (chrono_from_std : Duration -> option Z)
  (version commit : string)
  (header_from_str : string -> option HeaderValue) (join : Url -> string -> option Url)
  (parse_from_rfc2822 : string -> option Z) (builder_error : Error)
  (post : Instant -> Url -> list (string * HeaderValue) -> bytes
            -> option (Duration * result Error UpstreamResponse))
  (show : AuditError IoError -> string).
Abbreviation gateway := (AppRuntime Url Sem J Http (AuditWriter World Sink IoError) UsageM ModelM).
Abbreviation shared := (gateway * Z)%type.
Abbreviation answered := (Endpoint * Response)%type.
Abbreviation requests := (request_task ser_f64 to_rfc3339 chrono_from_std version commit header_from_str join parse_from_rfc2822 builder_error post).
Implicit Types w : Task.world shared answered.

Definition nothing_runs w : Prop := Forall (fun p => at_rest p = true) w.2.

(** What an action of [run] does to the shared state; [flushed] is the rendered
    result of [shutdown_bounded].  The queue is closed one semaphore after the
    other, and others may run in between.  The server's end is awaited until no connection
    is left; the writer is taken out of its [Arc], so no task holds it any more. *)
Inductive performs (flushed : result string unit) : Action -> Task.world shared answered -> Task.world shared answered -> Prop :=
| pf_close g c ps g' c' ps' :
    rtc (acts requests (outside working)) ((with_queue (close_concurrency (app_queue g)) g, c), ps) ((g', c'), ps') ->
    performs flushed ActCloseQueue ((g, c), ps) ((with_queue (close_queue_slots (app_queue g')) g', c'), ps')
| pf_await w : nothing_runs w -> performs flushed ActAwaitServer w w
| pf_flush g c ps res a : nothing_runs ((g, c), ps) -> shutdown (app_audit g) = Some (res, a) ->
    flushed = map_err show res -> performs flushed ActFlushAudit ((g, c), ps) ((with_audit a g, c), ps)
| pf_flush_late g c ps res a : nothing_runs ((g, c), ps) -> shutdown_timed_out (app_audit g) = (Err res, a) ->
    flushed = Err (show res) -> performs flushed ActFlushAudit ((g, c), ps) ((with_audit a g, c), ps)
| pf_other act w : act ∉ [ActCloseQueue; ActAwaitServer; ActFlushAudit] -> performs flushed act w w.

(** Before each action requests arrive, run and lose their clients, while the
    thread works and the rest of the program does what it does. *)
Inductive executes (flushed : result string unit) : list Action -> Task.world shared answered -> Task.world shared answered -> Prop :=
| ex_done w : executes flushed [] w w
| ex_action act l w w1 w2 w3 : rtc (acts requests (outside working)) w w1 -> performs flushed act w1 w2 ->
    executes flushed l w2 w3 -> executes flushed (act :: l) w w3.

(** Every action but the flush is something that can happen anyway. *)
Lemma performs_acts flushed act w w' :
  act <> ActFlushAudit -> performs flushed act w w' -> rtc (acts requests (outside working)) w w'.
Proof.
  intros Hne Hp. destruct Hp as [g c ps g' c' ps' Hrun | | | | ]; try done.
  eapply rtc_l; [apply act_outside, program_outside, ps_close_concurrency |].
  eapply rtc_r; [exact Hrun |]. apply act_outside, program_outside, ps_close_slots.
Qed.

Lemma executes_acts flushed l : forall w w',
  ActFlushAudit ∉ l -> executes flushed l w w' -> rtc (acts requests (outside working)) w w'.
Proof.
  induction l as [| act l IH]; intros w w' Hl Hex; inversion Hex as [| act' l' w0 w1 w2 w3 Hacts Hp Hrest]; subst; [done |].
  apply not_elem_of_cons in Hl as [Hne Hl].
  etransitivity; [exact Hacts | etransitivity; [by eapply performs_acts | by eapply IH]].
Qed.

Lemma executes_app flushed l l' : forall w w',
  executes flushed (l ++ l') w w' -> exists w1, executes flushed l w w1 /\ executes flushed l' w1 w'.
Proof.
  induction l as [| act l IH]; intros w w' Hex; simpl in *; [exists w; split; [constructor | done] |].
  inversion Hex as [| ? ? ? w1 w2 ? Hacts Hp Hrest]; subst. apply IH in Hrest as (w3 & Hl & Hl').
  exists w3. split; [by econstructor | done].
Qed.

(** What the log holds at a state from which the writer can be shut down. *)
Lemma exit_trail {ClientError} MAX_PERMITS url_parse j0 client world
    (usage_start : Usage.t -> string -> list Secret -> result ClientError UsageM) model_start cfg (app : gateway) counter w :
  config_valid MAX_PERMITS cfg ->
  assemble MAX_PERMITS url_parse j0 client (fun path cap => (start path cap world).1) usage_start model_start cfg
    = Some (Ok app) ->
  rtc (acts requests (outside working)) ((app, counter), []) w ->
  alive_writer (app_audit w.1.1) /\ exists books log taken lost, Forall2 book_ok books w.2 /\ log ≡ₚ records_of books
    /\ trail world (Audit.queue_capacity (Config.audit cfg)) log (app_audit w.1.1) taken lost.
Proof.
  intros Hv Happ Hrun.
  destruct (assemble_permits _ _ _ _ _ _ _ _ _ Hv Happ) as (Hroom & _).
  pose proof (assemble_writer _ _ _ _ _ _ _ _ _ Happ) as Hstart.
  destruct (books_of ser_f64 to_rfc3339 chrono_from_std version commit header_from_str join parse_from_rfc2822 builder_error
    post working (app, counter) w _ (fun t Ht => Ht) Hroom Hrun) as (books & Hps & Hac).
  destruct (ac_log _ _ _ _ Hac) as (log & Hoff & Hperm).
  split; [exact (offered_alive _ _ _ Hoff (start_alive _ _ _ _ Hstart)) |].
  assert (0 <= Audit.queue_capacity (Config.audit cfg)) as Hcap by (pose proof (cv_audit_capacity _ _ Hv); lia).
  destruct (offered_trail _ _ _ _ _ _ Hcap Hstart (offered_mono _ _ _ _ _ working_upkeep Hoff)) as (taken & lost & Ht).
  exists books, log, taken, lost. split_and!; [by eapply books_match | exact Hperm | exact Ht].
Qed.

(** The trace of a process that served and flushed. *)
Lemma clean_trace {BootError HotError JoinError Queue : Type} close
    (e : RunEnv (IoError := IoError) (BootError := BootError) (HotError := HotError) (JoinError := JoinError) (Queue := Queue)) queue :
  re_assemble e = Ok queue -> re_bind e = Ok tt -> re_reloader e = Ok tt -> re_audit e = Some (Ok tt) ->
  exists pre, (run close e).2 = pre ++ [ActFlushAudit] /\ ActFlushAudit ∉ pre.
Proof.
  intros Ha Hb Hr Hau. destruct (run_trace close e queue Ha Hb Hr) as (server & _ & ->). rewrite Hau. cbn [snd].
  eexists. split; [by rewrite !app_assoc |].
  destruct (re_race e); rewrite !not_elem_of_app, !not_elem_of_cons; split_and!; try done; apply not_elem_of_nil.
Qed.

(** C29. A clean exit leaves the line of every answer.  Take the process from the
    assembly to its end, by a signal or by the server's failure, with requests
    running between any two of its steps, and let the final flush of the log
    report no error.  Then every request is finished or dropped; the records of
    the answered ones are, in the order in which they were offered, the lines in
    the files merged with the refused records, which the counter counts; and
    each file holds what it held before the process and then exactly those lines,
    whole and in order: nothing is left in memory, no line was torn or lost. *)
Theorem clean_exit_keeps_every_record {ClientError BootError HotError JoinError} MAX_PERMITS url_parse j0 client world
    (usage_start : Usage.t -> string -> list Secret -> result ClientError UsageM) model_start
    raw cfg (app : gateway) counter close
    (e : RunEnv (IoError := IoError) (BootError := BootError) (HotError := HotError) (JoinError := JoinError)
           (Queue := AdmissionQueue Sem)) w :
  raw_typed raw -> config_try_from MAX_PERMITS raw = Ok cfg ->
  assemble MAX_PERMITS url_parse j0 client (fun path cap => (start path cap world).1) usage_start model_start cfg
    = Some (Ok app) ->
  re_assemble e = Ok (app_queue app) -> re_bind e = Ok tt -> re_reloader e = Ok tt -> re_audit e = Some (Ok tt) ->
  executes (Ok tt) (run close e).2 ((app, counter), []) w ->
  nothing_runs w /\ exists books log taken lost, Forall2 book_ok books w.2 /\ log ≡ₚ records_of books
    /\ shuffle taken.*2 lost log /\ aw_dropped (app_audit w.1.1) = wrap64 (Z.of_nat (length lost))
    /\ forall s, io_contents (aw_world (app_audit w.1.1)) s
         = io_contents world s
           ++ concat (record_line (World := World) (IoError := IoError) <$> (filter (fun p => p.1 = s) taken).*2).
Proof.
  intros Htyped Hload Happ Ha Hb Hr Hau Hex. pose proof (config_try_from_valid _ _ _ Htyped Hload) as Hv.
  destruct (clean_trace close e _ Ha Hb Hr Hau) as (pre & Heq & Hpre). rewrite Heq in Hex.
  apply executes_app in Hex as (w1 & Hex & Hlast). apply executes_acts in Hex; [| exact Hpre].
  inversion Hlast as [| act l w1' w2 w3 w4 Hacts Hperf Hdone]; subst. inversion Hdone; subst.
  pose proof (transitivity Hex Hacts) as Hrun.
  destruct (exit_trail _ _ _ _ _ _ _ _ _ _ _ Hv Happ Hrun) as ((_ & Hh & Hres) & books & log & taken & lost & Hbooks & Hlog & Ht).
  destruct (trail_shutdown _ _ _ _ _ _ Hh Hres Ht) as (res & a & taken' & Hs & Ht' & Hq & Hok).
  inversion Hperf as [| | g c ps res' a' Hrest Hs' Hflush | |]; subst; try done; [| set_solver].
  cbn [fst] in *. rewrite Hs in Hs'. injection Hs' as <- <-.
  destruct res as [[] |]; [| done]. split; [exact Hrest |].
  exists books, log, taken', lost. destruct Ht' as [Hl Hd _ _ _ Hf]. rewrite Hq, app_nil_r in Hl.
  split_and!; [exact Hbooks | exact Hlog | exact Hl | exact Hd |]. intros s. by apply Hf, Hok.
Qed.
End Exit.

(** ** At concrete inputs *)

#[local] Existing Instance demo_io.
#[local] Existing Instance demo_io_laws.
#[local] Existing Instance demo_sha256.
#[local] Existing Instance demo_proxy_http.
#[local] Existing Instance demo_proxy_ct_eq.
#[local] Existing Instance demo_system_serde.
#[local] Existing Instance demo_router.

Abbreviation demo_executes := (demo_libraries executes (fun _ => "") (Ok tt)) (only parsing).
Abbreviation demo_world := (Task.world (demo_logged * Z) (Endpoint * Response)) (only parsing).

(** One request is answered, then the signal comes and everything stops. *)
Definition demo_exit_run (app : demo_logged) : demo_world :=
  schedule (replicate 30 0%nat) ((app, 0), [Task.Live demo_logged_chat]).
Definition demo_exit_env (app : demo_logged)
  : RunEnv (IoError := unit) (BootError := unit) (HotError := unit) (JoinError := unit) (Queue := AdmissionQueue FairSem) :=
  mk_run_env (Ok (app_queue app)) (Ok tt) (Ok tt) "serving" (SignalFirst (Ok (Ok tt))) (Some (Ok tt)).
Definition demo_exit_end (w : demo_world) (a : AuditWriter demo_disk string unit) : demo_world :=
  ((with_audit a (with_queue (close_queue_slots (close_concurrency (app_queue w.1.1))) w.1.1), w.1.2), w.2).

Lemma demo_executes_all app w0 w a :
  rtc (acts (demo_libraries request_task) (outside working)) w0 w ->
  nothing_runs w -> shutdown (app_audit w.1.1) = Some (Ok tt, a) ->
  demo_executes (run id (demo_exit_env app)).2 w0 (demo_exit_end w a).
Proof.
  intros Hrun Hrest Hs. destruct w as [[g c] ps]. simpl in *.
  eapply ex_action; [exact Hrun | by apply pf_other; set_solver |].
  do 4 (eapply ex_action; [done | by apply pf_other; set_solver |]).
  eapply ex_action; [done | by apply pf_close |].
  do 2 (eapply ex_action; [done | by apply pf_other; set_solver |]).
  eapply ex_action; [done | by apply pf_await |].
  do 3 (eapply ex_action; [done | by apply pf_other; set_solver |]).
  eapply ex_action; [done | by eapply pf_flush | constructor].
Qed.

Lemma demo_exit_reached app :
  rtc (acts (demo_libraries request_task) (outside working)) ((app, 0), []) (demo_exit_run app).
Proof.
  etransitivity; [apply (starts_acts _ _ _ _ [demo_logged_chat]) |].
  - apply Forall_cons_2; [exact demo_logged_request | apply Forall_nil_2].
  - exact (moves_acts _ _ _ _ (schedule_moves (replicate 30 0%nat) _)).
Qed.

Lemma clean_exit_keeps_every_record_witness :
  exists app a, demo_logged_app = Some (Ok app)
    /\ demo_executes (run id (demo_exit_env app)).2 ((app, 0), []) (demo_exit_end (demo_exit_run app) a)
    /\ exists books log (taken : list (string * AuditRecord)) lost, Forall2 book_ok books (demo_exit_end (demo_exit_run app) a).2
    /\ log ≡ₚ records_of books /\ shuffle taken.*2 lost log.
Proof.
  assert (exists app, demo_logged_app = Some (Ok app) /\ forallb at_rest (demo_exit_run app).2 = true
    /\ exists a, shutdown (app_audit (demo_exit_run app).1.1) = Some (Ok tt, a)) as (app & Happ & Hrest & a & Hs).
  { eexists. split; [vm_compute; reflexivity |]. split; [vm_compute; reflexivity | eexists; vm_compute; reflexivity]. }
  apply all_at_rest in Hrest. pose proof (demo_executes_all app _ _ a (demo_exit_reached app) Hrest Hs) as Hex.
  exists app, a. split; [exact Happ |]. split; [exact Hex |].
  pose proof Happ as Hassembled. unfold demo_logged_app in Hassembled.
  destruct (demo_libraries clean_exit_keeps_every_record (fun _ => "") demo_permits (fun _ => Some ()) no_jitter
    (Ok () : result unit unit) (∅ : demo_disk) (fun _ _ _ => Ok ()) (fun _ => Ok ()) demo_raw demo_config app 0 id
    (demo_exit_env app) (demo_exit_end (demo_exit_run app) a)
    demo_raw_typed demo_raw_loads Hassembled eq_refl eq_refl eq_refl eq_refl Hex)
    as (_ & books & log & taken & lost & Hb & Hl & Hsh & _).
  exists books, log, taken, lost. exact (conj Hb (conj Hl Hsh)).
Defined.
