(* ===== verification/LoadSse.v ===== *)
(** * The load generator's event decoder (tools/loadtest/loadgen/src/sse.rs)

    [Decoder] cuts a byte stream into lines and lines into server-sent events.
    [push] is the code's loop; [decode] is the specification that sees the
    whole stream.  The decoder does not depend on how the stream is cut into
    chunks, and decodes what [encode] wrote. *)
From S2P Require Export Text.

(** ** Data *)

Record Event := { data : string }.

Record Decoder := mkDecoder {
  buffer : bytes;
  lines_of_event : list string;
}.

(** [Decoder::default()] *)
Definition decoder_default : Decoder := {| buffer := []; lines_of_event := [] |}.

(** ** [std::str::Utf8Error] as text *)

(** Offset of the first bad sequence, its length, the bytes left there. *)
Fixpoint first_bad (at_ : nat) (cs : list (bool * bytes)) : option (nat * bytes * nat) :=
  match cs with
  | [] => None
  | (true, c) :: rest => first_bad (at_ + length c) rest
  | (false, c) :: rest => Some (at_, c, length (concat (snd <$> rest)))
  end.

(** A bad sequence is only incomplete when a valid lead byte and what follows
    it run into the end of the input. *)
Definition utf8_error (l : bytes) : string :=
  match first_bad 0 (utf8_chunks l) with
  | None => ""
  | Some (at_, c, after) =>
      let index := u64_to_string (Z.of_nat at_) in
      if bool_decide (after = 0%nat) && head_is (in_range 194 244) c
      then "incomplete utf-8 byte sequence from index " +:+ index
      else "invalid utf-8 sequence of " +:+ u64_to_string (Z.of_nat (length c))
           +:+ " bytes from index " +:+ index
  end.

(** ** Operations *)

(** One complete line, without its line feed: the events so far and the data
    lines of the event being read. *)
Definition push_line (events : list Event) (pending : list string) (line : bytes)
  : result string (list Event * list string) :=
  let line := strip_cr line in
  match from_utf8 line with
  | None => Err ("SSE is not UTF-8: " +:+ utf8_error line)
  | Some line =>
      if str_is_empty line then
        match pending with
        | [] => Ok (events, pending)
        | _ => Ok (events ++ [{| data := join_lf pending |}], [])
        end
      else if starts_with line ":" then Ok (events, pending)
      else match strip_prefix line "data:" with
           | Some v => Ok (events, pending ++ [default v (strip_prefix v " ")])
           | None => Ok (events, pending)
           end
  end.

(** [while let Some(pos) = self.buffer.iter().position(..)]: every turn takes
    at least the line feed out of the buffer. *)
Fixpoint push_loop (fuel : nat) (d : Decoder) (events : list Event)
  : result string (list Event) * Decoder :=
  match fuel, bytes_find d.(buffer) [LF] with
  | S fuel', Some pos =>
      let line := take pos d.(buffer) in
      let rest := drop (S pos) d.(buffer) in
      match push_line events d.(lines_of_event) line with
      | Ok (events', pending) => push_loop fuel' (mkDecoder rest pending) events'
      | Err e => (Err e, mkDecoder rest d.(lines_of_event))
      end
  | _, _ => (Ok events, d)
  end.

Definition push (d : Decoder) (bs : bytes) : result string (list Event) * Decoder :=
  let b := d.(buffer) ++ bs in
  push_loop (length b) (mkDecoder b d.(lines_of_event)) [].

Definition finish (d : Decoder) : result string (list Event) * Decoder := push d [LF; LF].

(** A caller that pushes the chunks of a body in turn and stops at an error. *)
Fixpoint push_all (d : Decoder) (chunks : list bytes) : result string (list Event) * Decoder :=
  match chunks with
  | [] => (Ok [], d)
  | c :: rest =>
      match push d c with
      | (Ok evs, d') => let '(r, d'') := push_all d' rest in ((fun more => evs ++ more) <$> r, d'')
      | (Err e, d') => (Err e, d')
      end
  end.

(** ** Specification *)

(** What a stream of complete lines means. *)
Definition run_lines (pending : list string) (ls : list bytes)
  : result string (list Event * list string) :=
  try_fold (fun acc l => push_line acc.1 acc.2 l) ([], pending) ls.

(** The complete lines of a stream and the rest. *)
Definition complete (b : bytes) : list bytes := removelast (bytes_split LF b).
Definition remainder (b : bytes) : bytes := default [] (last (bytes_split LF b)).

Definition decode (b : bytes) : result string (list Event) := fst <$> run_lines [] (complete b).

(** One event on the wire. *)
Definition encode_event (ls : list string) : bytes :=
  concat ((fun l => (as_bytes "data: ") ++ as_bytes l ++ [LF]) <$> ls) ++ [LF].

Definition encode (evs : list (list string)) : bytes := concat (encode_event <$> evs).

(** A line of data that survives: valid UTF-8 without a line feed that does
    not end in a carriage return. *)
Definition line_ok (l : string) : Prop :=
  from_utf8 (as_bytes l) = Some l /\ (LF ∉ as_bytes l) /\ last (as_bytes l) <> Some CR.

(** ** Splitting at line feeds *)

Lemma bytes_split_ne sep l : bytes_split sep l <> [].
Proof. destruct l; simpl; repeat case_match; done. Qed.

Lemma bytes_split_notin l : LF ∉ l -> bytes_split LF l = [l].
Proof.
  induction l as [| b l IH]; [done |]. rewrite not_elem_of_cons. intros [Hb Hl]. simpl.
  destruct (Ascii.eqb_spec b LF); [congruence |]. by rewrite IH.
Qed.

Lemma bytes_split_sep l rest : LF ∉ l -> bytes_split LF (l ++ LF :: rest) = l :: bytes_split LF rest.
Proof.
  induction l as [| b l IH]; [done |]. rewrite not_elem_of_cons. intros [Hb Hl]. simpl.
  destruct (Ascii.eqb_spec b LF); [congruence |]. by rewrite IH.
Qed.

(** The first line feed. *)
Lemma bytes_find_lf b :
  match bytes_find b [LF] with
  | None => LF ∉ b
  | Some pos => (LF ∉ take pos b) /\ b = take pos b ++ LF :: drop (S pos) b
  end.
Proof.
  induction b as [| c b IH]; [by apply not_elem_of_nil |].
  change (bytes_find (c :: b) [LF]) with
    (if bytes_starts_with (c :: b) [LF] then Some 0%nat else S <$> bytes_find b [LF]).
  change (bytes_starts_with (c :: b) [LF]) with (Ascii.eqb LF c && true).
  destruct (Ascii.eqb_spec LF c) as [<- | Hc]; cbn [andb].
  - split; [apply not_elem_of_nil | done].
  - destruct (bytes_find b [LF]) as [pos |]; cbn [fmap option_fmap option_map].
    + destruct IH as [Hn Hb]. split.
      * cbn [take]. apply not_elem_of_cons. done.
      * cbn [take drop app]. by f_equal.
    + by apply not_elem_of_cons.
Qed.

Lemma complete_notin b : LF ∉ b -> complete b = [] /\ remainder b = b.
Proof. intros H. unfold complete, remainder. by rewrite bytes_split_notin. Qed.

Lemma complete_sep l rest :
  LF ∉ l -> complete (l ++ LF :: rest) = l :: complete rest /\
            remainder (l ++ LF :: rest) = remainder rest.
Proof.
  intros H. unfold complete, remainder. rewrite bytes_split_sep by done.
  pose proof (bytes_split_ne LF rest) as Hne. destruct (bytes_split LF rest); [done |].
  done.
Qed.

(** Induction on a stream, a line at a time. *)
Lemma line_ind (P : bytes -> Prop) :
  (forall b, LF ∉ b -> P b) ->
  (forall l rest, LF ∉ l -> P rest -> P (l ++ LF :: rest)) ->
  forall b, P b.
Proof.
  intros Hlast Hline b. remember (length b) as n eqn:Hn.
  revert b Hn. induction (lt_wf n) as [n _ IH]. intros b ->.
  pose proof (bytes_find_lf b) as Hf. destruct (bytes_find b [LF]) as [pos |]; [| by apply Hlast].
  destruct Hf as [Hnotin Hb]. rewrite Hb. apply Hline; [done |].
  refine (IH _ _ _ eq_refl). rewrite Hb at 2. rewrite length_app. simpl. lia.
Qed.

(** More bytes extend the remainder, never the complete lines. *)
Lemma complete_app a b :
  complete (a ++ b) = complete a ++ complete (remainder a ++ b) /\
  remainder (a ++ b) = remainder (remainder a ++ b).
Proof.
  induction a as [a Ha | l rest Hl [IH1 IH2]] using line_ind.
  - destruct (complete_notin a Ha) as [-> ->]. done.
  - destruct (complete_sep l rest Hl) as [-> ->].
    rewrite <- app_assoc. change ((LF :: rest) ++ b) with (LF :: (rest ++ b)).
    destruct (complete_sep l (rest ++ b) Hl) as [-> ->]. by rewrite IH1, IH2.
Qed.

(** ** The loop computes the specification *)

Lemma try_fold_events ls acc evs pending :
  try_fold (fun acc l => push_line acc.1 acc.2 l) (acc ++ evs, pending) ls =
  (fun r => (acc ++ r.1, r.2)) <$>
    try_fold (fun acc l => push_line acc.1 acc.2 l) (evs, pending) ls.
Proof.
  revert evs pending; induction ls as [| l ls IH]; intros evs pending; [done |].
  cbn [try_fold fst snd].
  assert (push_line (acc ++ evs) pending l =
          (fun r => (acc ++ r.1, r.2)) <$> push_line evs pending l) as ->.
  { unfold push_line. repeat case_match; cbn; try done. by rewrite app_assoc. }
  destruct (push_line evs pending l) as [[evs' p'] | e]; [| done]. cbn. apply IH.
Qed.

Lemma push_loop_spec fuel d events :
  (length d.(buffer) <= fuel)%nat ->
  match try_fold (fun acc l => push_line acc.1 acc.2 l) (events, d.(lines_of_event))
          (complete d.(buffer)) with
  | Ok (evs, pending) =>
      push_loop fuel d events = (Ok evs, mkDecoder (remainder d.(buffer)) pending)
  | Err e => (push_loop fuel d events).1 = Err e
  end.
Proof.
  revert d events; induction fuel as [| fuel IH]; intros [b pending] events Hlen; cbn [buffer] in *.
  { destruct b; [done | simpl in Hlen; lia]. }
  cbn [push_loop buffer lines_of_event]. pose proof (bytes_find_lf b) as Hf.
  destruct (bytes_find b [LF]) as [pos |].
  - destruct Hf as [Hnotin Hb].
    destruct (complete_sep _ (drop (S pos) b) Hnotin) as [Hc Hr].
    rewrite <- Hb in Hc, Hr. rewrite Hc, Hr. cbn [try_fold fst snd].
    destruct (push_line events pending (take pos b)) as [[evs' p'] | e]; [| done].
    apply (IH (mkDecoder (drop (S pos) b) p') evs'). cbn [buffer].
    apply (f_equal length) in Hb. rewrite length_app in Hb. simpl in Hb. lia.
  - destruct (complete_notin b Hf) as [-> ->]. done.
Qed.

Lemma push_spec d bs :
  match run_lines d.(lines_of_event) (complete (d.(buffer) ++ bs)) with
  | Ok (evs, pending) => push d bs = (Ok evs, mkDecoder (remainder (d.(buffer) ++ bs)) pending)
  | Err e => (push d bs).1 = Err e
  end.
Proof.
  apply (push_loop_spec _ (mkDecoder (d.(buffer) ++ bs) d.(lines_of_event)) []). done.
Qed.

Lemma run_lines_app pending l1 l2 :
  run_lines pending (l1 ++ l2) =
  match run_lines pending l1 with
  | Ok (evs, pending') => (fun r => (evs ++ r.1, r.2)) <$> run_lines pending' l2
  | Err e => Err e
  end.
Proof.
  unfold run_lines. rewrite try_fold_app.
  destruct (try_fold _ ([], pending) l1) as [[evs pending'] | e]; [| done].
  by rewrite <- (try_fold_events l2 evs []), app_nil_r.
Qed.

Lemma remainder_notin b : LF ∉ remainder b.
Proof.
  induction b as [b Hb | l rest Hl IH] using line_ind.
  - by destruct (complete_notin b Hb) as [_ ->].
  - by destruct (complete_sep l rest Hl) as [_ ->].
Qed.

(** A decoder between two pushes: an incomplete line and the data lines. *)
Definition decoder_wf (d : Decoder) : Prop := LF ∉ d.(buffer).

(** All the pushes together are one pass over the stream. *)
Lemma push_all_spec chunks d :
  decoder_wf d ->
  match run_lines d.(lines_of_event) (complete (d.(buffer) ++ concat chunks)) with
  | Ok (evs, pending) =>
      push_all d chunks = (Ok evs, mkDecoder (remainder (d.(buffer) ++ concat chunks)) pending)
  | Err e => (push_all d chunks).1 = Err e
  end.
Proof.
  revert d; induction chunks as [| c chunks IH]; intros [b pending] Hwf; unfold decoder_wf in Hwf;
    cbn [buffer lines_of_event concat push_all] in *.
  { rewrite app_nil_r. destruct (complete_notin b Hwf) as [-> ->]. done. }
  rewrite app_assoc. destruct (complete_app (b ++ c) (concat chunks)) as [-> ->].
  rewrite run_lines_app. pose proof (push_spec (mkDecoder b pending) c) as Hpush.
  cbn [buffer lines_of_event] in Hpush.
  destruct (run_lines pending (complete (b ++ c))) as [[evs pending'] | e].
  - rewrite Hpush. specialize (IH (mkDecoder (remainder (b ++ c)) pending') (remainder_notin _)).
    cbn [buffer lines_of_event] in IH.
    destruct (run_lines pending' _) as [[more p2] | e]; cbn.
    + by rewrite IH.
    + destruct (push_all _ _); simpl in *. by rewrite IH.
  - destruct (push _ _) as [r d']; simpl in Hpush. by rewrite Hpush.
Qed.

Lemma push_all_decode chunks : (push_all decoder_default chunks).1 = decode (concat chunks).
Proof.
  pose proof (push_all_spec chunks decoder_default (not_elem_of_nil _)) as H.
  cbn [buffer lines_of_event decoder_default app] in H. unfold decode.
  destruct (run_lines [] _) as [[evs p] | e]; cbn; by rewrite H.
Qed.

(** The decoder refines the function on the whole stream: for every way of
    cutting a body into chunks the pushes return, together, the events (or the
    first error) that [decode] finds in the body, and after an answer without
    error the decoder keeps exactly the bytes after the last line feed. *)
Theorem decoder_refines (chunks : list bytes) :
  (push_all decoder_default chunks).1 = decode (concat chunks) /\
  (push_all decoder_default chunks).1 = (push decoder_default (concat chunks)).1 /\
  (is_ok (push_all decoder_default chunks).1 = true ->
   (push_all decoder_default chunks).2.(buffer) = remainder (concat chunks)).
Proof.
  split; [apply push_all_decode | split].
  - rewrite push_all_decode. transitivity (push_all decoder_default [concat chunks]).1.
    + rewrite push_all_decode. simpl. by rewrite app_nil_r.
    + cbn [push_all]. destruct (push decoder_default (concat chunks)) as [[evs | e] d']; cbn; [| done].
      by rewrite app_nil_r.
  - pose proof (push_all_spec chunks decoder_default (not_elem_of_nil _)) as H.
    cbn [buffer lines_of_event decoder_default app] in H.
    destruct (run_lines [] _) as [[evs p] | e]; [by rewrite H | by rewrite H].
Qed.

(** ** Round trip *)

Lemma utf8_chunks_cons_ascii b l :
  is_ascii b = true -> utf8_chunks (b :: l) = (true, [b]) :: utf8_chunks l.
Proof.
  intros Hb. unfold utf8_chunks. cbn [length utf8_chunks_fuel].
  assert (utf8_front b l = (true, 1%nat)) as ->; [unfold utf8_front, is_ascii in *; by rewrite Hb |].
  change (drop 1 (b :: l)) with (drop 0 l). by rewrite drop_0.
Qed.

Lemma from_utf8_ascii_app a l :
  Forall (fun b => is_ascii b = true) a -> from_utf8 l <> None ->
  from_utf8 (a ++ l) = Some (of_bytes (a ++ l)).
Proof.
  unfold from_utf8. intros Ha Hl. assert (forallb fst (utf8_chunks l) = true) as Hv by (by case_match).
  assert (forallb fst (utf8_chunks (a ++ l)) = true) as ->; [| done].
  induction Ha as [| b a Hb Ha IH]; [done |]. cbn [app].
  by rewrite utf8_chunks_cons_ascii.
Qed.

Lemma strip_cr_data l : last (as_bytes l) <> Some CR ->
  strip_cr (as_bytes "data: " ++ as_bytes l) = as_bytes "data: " ++ as_bytes l.
Proof.
  intros Hl. unfold strip_cr. rewrite last_app.
  destruct (last (as_bytes l)) as [c |]; [| done].
  by destruct (Ascii.eqb_spec c CR) as [-> |].
Qed.

Lemma push_line_data evs pending l :
  line_ok l -> push_line evs pending (as_bytes "data: " ++ as_bytes l) = Ok (evs, pending ++ [l]).
Proof.
  intros (Hv & _ & Hcr). unfold push_line. rewrite strip_cr_data by done.
  rewrite from_utf8_ascii_app; [| repeat constructor | by rewrite Hv].
  rewrite <- as_bytes_app, of_as_bytes.
  assert (str_is_empty ("data: " +:+ l) = false) as -> by done.
  assert (starts_with ("data: " +:+ l) ":" = false) as -> by done.
  assert (strip_prefix ("data: " +:+ l) "data:" = Some (" " +:+ l)) as -> by (by apply strip_prefix_iff).
  by rewrite (proj2 (strip_prefix_iff (" " +:+ l) " " l) eq_refl).
Qed.

Lemma encode_event_cons l ls rest :
  encode_event (l :: ls) ++ rest = (as_bytes "data: " ++ as_bytes l) ++ LF :: (encode_event ls ++ rest).
Proof. unfold encode_event. cbn [fmap list_fmap concat]. by rewrite <- !app_assoc. Qed.

Lemma complete_event ls rest :
  Forall line_ok ls ->
  complete (encode_event ls ++ rest) =
    ((fun l => as_bytes "data: " ++ as_bytes l) <$> ls) ++ [] :: complete rest /\
  remainder (encode_event ls ++ rest) = remainder rest.
Proof.
  induction 1 as [| l ls (_ & Hlf & _) Hls [IH1 IH2]].
  - exact (complete_sep [] rest (not_elem_of_nil _)).
  - rewrite encode_event_cons.
    destruct (complete_sep (as_bytes "data: " ++ as_bytes l) (encode_event ls ++ rest)) as [-> ->].
    { rewrite not_elem_of_app. split; [by apply (bool_decide_unpack _) | done]. }
    by rewrite IH1, IH2.
Qed.

Lemma run_lines_data pending ls :
  Forall line_ok ls ->
  run_lines pending ((fun l => as_bytes "data: " ++ as_bytes l) <$> ls) = Ok ([], pending ++ ls).
Proof.
  unfold run_lines. intros Hls. revert pending.
  induction Hls as [| l ls Hl Hls IH]; intros pending; [by rewrite app_nil_r |].
  cbn [fmap list_fmap try_fold fst snd]. rewrite push_line_data by done. rewrite IH.
  by rewrite <- app_assoc.
Qed.

Lemma run_lines_encode evs :
  Forall (fun ls => ls <> [] /\ Forall line_ok ls) evs ->
  run_lines [] (complete (encode evs)) = Ok ((fun ls => {| data := join_lf ls |}) <$> evs, []) /\
  remainder (encode evs) = [].
Proof.
  unfold encode. induction 1 as [| ls evs [Hne Hls] Hevs [IH1 IH2]]; [done |].
  cbn [fmap list_fmap concat]. destruct (complete_event ls (concat (encode_event <$> evs)) Hls) as [-> ->].
  split; [| done]. rewrite run_lines_app, run_lines_data by done. cbn [app].
  change ([] :: complete ?x) with ([[]] ++ complete x). rewrite run_lines_app.
  destruct ls as [| l ls]; [done |]. unfold run_lines at 1. cbn.
  unfold encode in IH1. by rewrite IH1.
Qed.

(** What a sender wrote as events comes back: for events made of lines that
    are valid UTF-8 without line feeds at all and without a carriage return at
    their end, however the bytes are cut into chunks, the decoder returns
    exactly those events in order and is left empty, so [finish] adds none. *)
Theorem decoder_roundtrip (evs : list (list string)) (chunks : list bytes) :
  Forall (fun ls => ls <> [] /\ Forall line_ok ls) evs ->
  concat chunks = encode evs ->
  push_all decoder_default chunks =
    (Ok ((fun ls => {| data := join_lf ls |}) <$> evs), decoder_default) /\
  finish (push_all decoder_default chunks).2 = (Ok [], decoder_default).
Proof.
  intros Hevs Hchunks. destruct (run_lines_encode evs Hevs) as [Hrun Hrem].
  pose proof (push_all_spec chunks decoder_default (not_elem_of_nil _)) as H.
  cbn [buffer lines_of_event decoder_default app] in H. rewrite Hchunks, Hrun, Hrem in H.
  rewrite H. done.
Qed.

Lemma decoder_roundtrip_witness :
  push_all decoder_default
    [as_bytes "data: a"; LF :: as_bytes "data: b"; [LF; LF]; as_bytes "data: [DONE]" ++ [LF]; [LF]] =
    (Ok [{| data := "a" +:+ String LF "b" |}; {| data := "[DONE]" |}], decoder_default) /\
  finish decoder_default = (Ok [], decoder_default).
Proof.
  assert (forall l, bool_decide (from_utf8 (as_bytes l) = Some l /\ (LF ∉ as_bytes l)
                     /\ last (as_bytes l) <> Some CR) = true -> line_ok l) as Hok.
  { intros l Hl. apply bool_decide_eq_true in Hl. exact Hl. }
  refine (decoder_roundtrip [["a"; "b"]; ["[DONE]"]] _ _ _); [| reflexivity].
  repeat constructor; try (by apply not_elem_of_nil); try done;
    apply (Hok _); reflexivity.
Defined.
