(* ===== verification/LoadStats.v ===== *)
(** * The load generator's statistics (tools/loadtest/loadgen/src/stats.rs)

    [summarize] counts the records of a run and ranks their latencies.  A
    percentile is read at an index that the code computes in floating point;
    [rank_exact] shows that the rounding of [len as f64 * p] never moves it,
    so that the reported values are the nearest-rank percentiles. *)
From stdpp Require Import gmap sorting.
From S2P Require Export Text.

(** ** [f64] *)

(** An [f64] by its 64 bits. *)
Abbreviation f64 := Z (only parsing).

(** [bits as i64] *)
Definition as_i64 (b : f64) : Z := if b <? 2 ^ 63 then b else b - 2 ^ 64.

(** The key that [f64::total_cmp] compares: the bits as [i64], the lower 63
    of them flipped when the sign is set. *)
Definition total_key (b : f64) : Z :=
  let left := as_i64 b in
  Z.lxor left (Z.shiftr (wrap64 (Z.shiftr left 63)) 1).

Definition total_le (a b : f64) : Prop := total_key a <= total_key b.

#[global] Instance total_le_dec : RelDecision total_le.
Proof. intros a b. unfold total_le. apply _. Defined.
#[global] Instance total_le_trans : Transitive total_le.
Proof. unfold total_le. intros a b c. lia. Qed.
#[global] Instance total_le_total : Total total_le.
Proof. unfold total_le. intros a b. lia. Qed.

(** Non-negative finite values as mantissa and exponent: the product of two
    of them and the conversions around it.  Nothing below comes near the
    exponents where an [f64] overflows or loses precision. *)
Record pf64 := { mant : Z; expo : Z }.

(** Round to the nearest multiple of [2^d], ties to even, in units of [2^d]. *)
Definition round_shift (m d : Z) : Z :=
  let q := m / 2 ^ d in
  let twice := 2 * (m mod 2 ^ d) in
  if twice <? 2 ^ d then q else if 2 ^ d <? twice then q + 1 else q + q mod 2.

(** The nearest [f64]: 53 bits of mantissa. *)
Definition round53 (m e : Z) : pf64 :=
  let d := Z.max 0 (Z.log2 m - 52) in
  {| mant := round_shift m d; expo := e + d |}.

(** [n as f64] *)
Definition f64_of_usize (n : Z) : pf64 := round53 n 0.

(** [a * b] *)
Definition f64_mul (a b : pf64) : pf64 := round53 (a.(mant) * b.(mant)) (a.(expo) + b.(expo)).

(** [x.ceil() as usize], which saturates *)
Definition ceil_as_usize (x : pf64) : Z :=
  Z.min usize_max
    (if 0 <=? x.(expo) then x.(mant) * 2 ^ x.(expo)
     else - ((- x.(mant)) / 2 ^ (- x.(expo)))).

(** The literals 0.50, 0.95 and 0.99: the nearest 53-bit fractions. *)
Definition P50 : pf64 := {| mant := 4503599627370496; expo := -53 |}.
Definition P95 : pf64 := {| mant := 8556839292003942; expo := -53 |}.
Definition P99 : pf64 := {| mant := 8917127262193582; expo := -53 |}.

(** ** Data *)

Record RequestRecord := {
  request_id : string;
  status : option Z;
  retry_after : option string;
  ttfb_ms : option f64;
  first_event_ms : option f64;
  completion_ms : f64;
  response_bytes : Z;
  sse_events : Z;
  saw_done : bool;
  outcome : string;
  error : option string;
}.

Record Percentiles := { pmin : f64; p50 : f64; p95 : f64; p99 : f64; pmax : f64 }.

Record Summary := {
  schema_version : Z;
  elapsed_ms : f64;
  requests_started : Z;
  requests_finished : Z;
  peak_in_flight : Z;
  s_statuses : gmap string Z;
  s_retry_after : gmap string Z;
  s_outcomes : gmap string Z;
  s_errors : gmap string Z;
  s_response_bytes : Z;
  s_sse_events : Z;
  s_ttfb_ms : option Percentiles;
  s_first_event_ms : option Percentiles;
  s_completion_ms : option Percentiles;
}.

(** ** Operations *)

(** [((v.len() as f64 * p).ceil() as usize).saturating_sub(1)] *)
Definition rank_index (n : nat) (p : pf64) : nat :=
  Z.to_nat (Z.max 0 (ceil_as_usize (f64_mul (f64_of_usize (Z.of_nat n)) p) - 1)).

(** [pct]: the outer [None] is an index out of bounds. *)
Definition pct (v : list f64) : option (option Percentiles) :=
  match v with
  | [] => Some None
  | _ =>
      let v := merge_sort total_le v in
      let at_ p := v !! rank_index (length v) p in
      lo ← v !! 0%nat; a ← at_ P50; b ← at_ P95; c ← at_ P99; hi ← last v;
      Some (Some {| pmin := lo; p50 := a; p95 := b; p99 := c; pmax := hi |})
  end.

(** [*map.entry(key).or_insert(0) += 1] *)
Definition bump (key : string) (m : gmap string Z) : gmap string Z :=
  <[key := wrap64 (default 0 (m !! key) + 1)]> m.

Definition bump_opt (key : option string) (m : gmap string Z) : gmap string Z :=
  match key with Some k => bump k m | None => m end.

Definition push_opt (o : option f64) (v : list f64) : list f64 := v ++ option_list o.

(** The accumulators of the loop. *)
Record Acc := {
  statuses : gmap string Z;
  retries : gmap string Z;
  outcomes : gmap string Z;
  errors : gmap string Z;
  ttfb : list f64;
  first : list f64;
  completion : list f64;
  bytes_ : Z;
  events : Z;
}.

Definition acc_empty : Acc :=
  {| statuses := ∅; retries := ∅; outcomes := ∅; errors := ∅; ttfb := []; first := [];
     completion := []; bytes_ := 0; events := 0 |}.

Definition add_record (a : Acc) (r : RequestRecord) : Acc :=
  {| statuses := bump_opt (u64_to_string <$> r.(status)) a.(statuses);
     retries := bump_opt r.(retry_after) a.(retries);
     outcomes := bump r.(outcome) a.(outcomes);
     errors := bump_opt r.(error) a.(errors);
     ttfb := push_opt r.(ttfb_ms) a.(ttfb);
     first := push_opt r.(first_event_ms) a.(first);
     completion := a.(completion) ++ [r.(completion_ms)];
     bytes_ := wrap64 (a.(bytes_) + r.(response_bytes));
     events := wrap64 (a.(events) + r.(sse_events)) |}.

Definition summarize (records : list RequestRecord) (elapsed : f64) (started peak : Z) : option Summary :=
  let a := foldl add_record acc_empty records in
  t ← pct a.(ttfb); f ← pct a.(first); c ← pct a.(completion);
  Some {| schema_version := 1;
          elapsed_ms := elapsed;
          requests_started := started;
          requests_finished := Z.of_nat (length records);
          peak_in_flight := peak;
          s_statuses := a.(statuses);
          s_retry_after := a.(retries);
          s_outcomes := a.(outcomes);
          s_errors := a.(errors);
          s_response_bytes := a.(bytes_);
          s_sse_events := a.(events);
          s_ttfb_ms := t;
          s_first_event_ms := f;
          s_completion_ms := c |}.

(** [n as f64] as bits, for [0 < n < 2^53]. *)
Definition f64_bits_of (n : Z) : f64 :=
  Z.shiftl (Z.log2 n + 1023) 52 + (Z.shiftl n (52 - Z.log2 n) - 2 ^ 52).

(** The test of stats.rs. *)
Example percentile_test :
  match pct (f64_bits_of <$> seqZ 1 100) with
  | Some (Some p) => (p.(p50), p.(p99))
  | _ => (0, 0)
  end = (f64_bits_of 50, f64_bits_of 99).
Proof. vm_compute. reflexivity. Qed.

(** ** The index of a percentile *)

(** The quotient, the remainder and the rounded value. *)
Lemma round_shift_cases m d :
  0 <= d ->
  exists q r, m = 2 ^ d * q + r /\ 0 <= r < 2 ^ d /\
    ((2 * r < 2 ^ d /\ round_shift m d = q) \/
     (2 ^ d < 2 * r /\ round_shift m d = q + 1) \/
     (2 ^ d = 2 * r /\ q <= round_shift m d <= q + 1)).
Proof.
  intros Hd. pose proof (Z.pow_pos_nonneg 2 d ltac:(lia) Hd) as Hpos.
  exists (m / 2 ^ d), (m mod 2 ^ d). split; [apply Z.div_mod; lia |].
  split; [by apply Z.mod_pos_bound |].
  unfold round_shift. pose proof (Z.mod_pos_bound (m / 2 ^ d) 2 ltac:(lia)).
  destruct (Z.ltb_spec (2 * (m mod 2 ^ d)) (2 ^ d)); [by left |]. right.
  destruct (Z.ltb_spec (2 ^ d) (2 * (m mod 2 ^ d))); [by left | right; lia].
Qed.

Lemma round_shift_le m d k : 0 <= d -> m <= k * 2 ^ d -> round_shift m d <= k.
Proof.
  intros Hd Hm. destruct (round_shift_cases m d Hd) as (q & r & Hq & Hr & Hcases).
  assert (2 ^ d * q <= 2 ^ d * k) as Hqk%Z.mul_le_mono_pos_l by lia; [| lia].
  destruct Hcases as [[_ ->] | [[Hr2 ?] | [Hr2 ?]]]; [done | |];
    assert (2 ^ d * q < 2 ^ d * k) as ?%Z.mul_lt_mono_pos_l by lia; lia.
Qed.

Lemma round_shift_near m d : 0 <= d -> 2 * m - 2 ^ d <= 2 * (round_shift m d * 2 ^ d).
Proof.
  intros Hd. destruct (round_shift_cases m d Hd) as (q & r & Hq & Hr & Hcases).
  destruct Hcases as [[? ->] | [[? ->] | [? [? _]]]]; [lia | lia |].
  assert (2 ^ d * q <= 2 ^ d * round_shift m d) by (apply Z.mul_le_mono_nonneg_l; lia). lia.
Qed.

(** Integers of at most 53 bits are exact. *)
Lemma f64_of_usize_exact n : 0 < n < 2 ^ 53 -> f64_of_usize n = {| mant := n; expo := 0 |}.
Proof.
  intros Hn. unfold f64_of_usize, round53.
  assert (Z.log2 n < 53) by (apply Z.log2_lt_pow2; lia).
  replace (Z.max 0 (Z.log2 n - 52)) with 0 by lia. unfold round_shift.
  rewrite Z.pow_0_r, Z.mod_1_r, Z.div_1_r. done.
Qed.

(** [p] is the literal of [num / 100], rounded down by at most half a unit of
    its last place times a hundred. *)
Definition literal_of (p : pf64) (num : Z) : Prop :=
  p.(expo) = -53 /\ 0 < p.(mant) < 2 ^ 53 /\ 0 <= num * 2 ^ 53 - 100 * p.(mant) <= 50.

Lemma ceil_rank p num n :
  literal_of p num -> 0 < num <= 100 -> 0 < n < 2 ^ 40 ->
  ceil_as_usize (f64_mul (f64_of_usize n) p) = (num * n + 99) / 100.
Proof.
  intros (He & Hm & Hlit) Hnum Hn. rewrite f64_of_usize_exact by lia.
  unfold f64_mul, round53, ceil_as_usize. cbn [mant expo]. rewrite He.
  set (M := n * mant p). set (d := Z.max 0 (Z.log2 M - 52)).
  set (K := (num * n + 99) / 100).
  assert (0 < M < 2 ^ 93) as HM.
  { unfold M. split; [lia |]. change (2 ^ 93) with (2 ^ 40 * 2 ^ 53).
    apply Z.mul_lt_mono_nonneg; lia. }
  assert (0 <= d <= 40) as Hd.
  { assert (Z.log2 M < 93) by (apply Z.log2_lt_pow2; lia). unfold d. lia. }
  assert (100 * K - 99 <= num * n <= 100 * K) as HK.
  { unfold K. pose proof (Z.div_mod (num * n + 99) 100 ltac:(lia)).
    pose proof (Z.mod_pos_bound (num * n + 99) 100 ltac:(lia)). lia. }
  clearbody K. set (W := 2 ^ (53 - d)). set (D := 2 ^ d).
  assert (W * D = 2 ^ 53) as HWD by (unfold W, D; rewrite <- Z.pow_add_r by lia; f_equal; lia).
  assert (0 < W) by (apply Z.pow_pos_nonneg; lia).
  assert (0 < D <= 2 ^ 40) as HD.
  { unfold D. split; [apply Z.pow_pos_nonneg; lia | apply Z.pow_le_mono_r; lia]. }
  assert (100 * M = num * n * 2 ^ 53 - (num * 2 ^ 53 - 100 * mant p) * n) as H100 by (unfold M; ring).
  assert (M <= K * W * D) as Hup by (rewrite <- Z.mul_assoc, HWD; nia).
  apply (round_shift_le M d (K * W) ltac:(lia)) in Hup.
  pose proof (round_shift_near M d ltac:(lia)) as Hlow. fold D in Hlow.
  assert ((K - 1) * W < round_shift M d) as Hlow'.
  { assert (2 * ((K - 1) * 2 ^ 53) < 2 * M - D) by nia.
    apply (Z.mul_lt_mono_pos_r D); [lia |]. rewrite <- Z.mul_assoc, HWD. lia. }
  clearbody M. destruct (Z.leb_spec 0 (0 + -53 + d)); [lia |].
  replace (- (0 + -53 + d)) with (53 - d) by lia. fold W.
  assert (- (- round_shift M d / W) = K) as ->.
  { assert (- round_shift M d / W = - K) as ->; [| lia]. symmetry.
    apply (Z.div_unique _ _ _ (K * W - round_shift M d)); nia. }
  unfold usize_max, u64_max. nia.
Qed.

Lemma literal_50 : literal_of P50 50. Proof. by vm_compute. Qed.
Lemma literal_95 : literal_of P95 95. Proof. by vm_compute. Qed.
Lemma literal_99 : literal_of P99 99. Proof. by vm_compute. Qed.

Lemma rank_index_exact p num (n : nat) :
  literal_of p num -> 0 < num <= 100 -> (0 < n)%nat -> Z.of_nat n < 2 ^ 40 ->
  Z.of_nat (rank_index n p) = (num * Z.of_nat n + 99) / 100 - 1 /\ (rank_index n p < n)%nat.
Proof.
  intros Hp Hnum Hn Hmax. unfold rank_index. rewrite (ceil_rank p num) by (done || lia).
  assert (num * Z.of_nat n <= 100 * Z.of_nat n) by (apply Z.mul_le_mono_nonneg_r; lia).
  assert (1 <= (num * Z.of_nat n + 99) / 100) by (apply Z.div_le_lower_bound; lia).
  assert ((num * Z.of_nat n + 99) / 100 < Z.of_nat n + 1) by (apply Z.div_lt_upper_bound; lia).
  lia.
Qed.

(** ** What an element of the sorted list means *)

(** The number of values up to [x], and strictly below [x]. *)
Definition count_le (x : f64) (v : list f64) : Z :=
  Z.of_nat (length (filter (fun y => total_le y x) v)).
Definition count_lt (x : f64) (v : list f64) : Z :=
  Z.of_nat (length (filter (fun y => ~ total_le x y) v)).

(** [x] is the nearest-rank percentile: a value of the sample with at least
    [num] percent of the values up to it, and fewer strictly below it. *)
Definition nearest_rank (num : Z) (v : list f64) (x : f64) : Prop :=
  x ∈ v /\ num * Z.of_nat (length v) <= 100 * count_le x v /\
  100 * count_lt x v < num * Z.of_nat (length v).

Lemma filter_length_perm {A} (P : A -> Prop) `{forall x, Decision (P x)} (a b : list A) :
  a ≡ₚ b -> length (filter P a) = length (filter P b).
Proof. intros Hab. by rewrite Hab. Qed.

Lemma filter_all {A} (P : A -> Prop) `{forall x, Decision (P x)} (l : list A) :
  Forall P l -> filter P l = l.
Proof. induction 1; [done |]. rewrite filter_cons_True by done. congruence. Qed.

Lemma filter_none {A} (P : A -> Prop) `{forall x, Decision (P x)} (l : list A) :
  Forall (fun x => ~ P x) l -> filter P l = [].
Proof. induction 1; [done |]. by rewrite filter_cons_False. Qed.

(** The three parts of a sorted list around an index. *)
Lemma sorted_middle v i x :
  StronglySorted total_le v -> v !! i = Some x ->
  v = take i v ++ x :: drop (S i) v /\
  Forall (fun y => total_le y x) (take i v) /\ Forall (total_le x) (x :: drop (S i) v).
Proof.
  intros Hs Hi. split; [symmetry; by apply take_drop_middle |].
  rewrite <- (take_drop_middle v i x Hi) in Hs.
  apply StronglySorted_app in Hs as (Hcross & _ & [Hx _]%StronglySorted_cons). split.
  - apply Forall_forall. intros y Hy. apply Hcross; [done | left].
  - constructor; [unfold total_le; lia | done].
Qed.

Lemma count_le_sorted v i x :
  StronglySorted total_le v -> v !! i = Some x -> Z.of_nat i + 1 <= count_le x v.
Proof.
  intros Hs Hi. destruct (sorted_middle v i x Hs Hi) as (Hv & Hlo & _).
  unfold count_le. rewrite Hv, filter_app, length_app, filter_all by done.
  rewrite filter_cons_True by (unfold total_le; lia).
  apply lookup_lt_Some in Hi. simpl. rewrite length_take. lia.
Qed.

Lemma count_lt_sorted v i x :
  StronglySorted total_le v -> v !! i = Some x -> count_lt x v <= Z.of_nat i.
Proof.
  intros Hs Hi. destruct (sorted_middle v i x Hs Hi) as (Hv & _ & Hhi).
  unfold count_lt. rewrite Hv, filter_app, length_app.
  rewrite (filter_none _ (x :: _)) by (apply (Forall_impl _ _ _ Hhi); auto).
  pose proof (length_filter (fun y => ~ total_le x y) (take i v)) as Hl.
  rewrite length_take in Hl. simpl. lia.
Qed.

(** What [pct] reads at the index of a literal. *)
Lemma rank_value p num v :
  literal_of p num -> 0 < num <= 100 -> v <> [] -> Z.of_nat (length v) < 2 ^ 40 ->
  exists x, merge_sort total_le v !! rank_index (length v) p = Some x /\ nearest_rank num v x.
Proof.
  intros Hp Hnum Hne Hlen. assert (0 < length v)%nat by (destruct v; [done | simpl; lia]).
  destruct (rank_index_exact p num (length v) Hp Hnum ltac:(assumption) Hlen) as [Hidx Hin].
  pose proof (merge_sort_Permutation total_le v) as Hperm.
  pose proof (StronglySorted_merge_sort total_le v) as Hs.
  assert (rank_index (length v) p < length (merge_sort total_le v))%nat as Hin'
    by (by rewrite (Permutation_length Hperm)).
  destruct (lookup_lt_is_Some_2 _ _ Hin') as [x Hx]. exists x. split; [done |].
  assert (count_le x v = count_le x (merge_sort total_le v)) as Hle.
  { unfold count_le. f_equal. by apply filter_length_perm. }
  assert (count_lt x v = count_lt x (merge_sort total_le v)) as Hlt.
  { unfold count_lt. f_equal. by apply filter_length_perm. }
  pose proof (count_le_sorted _ _ _ Hs Hx) as H1. pose proof (count_lt_sorted _ _ _ Hs Hx) as H2.
  pose proof (Z.div_mod (num * Z.of_nat (length v) + 99) 100 ltac:(lia)).
  pose proof (Z.mod_pos_bound (num * Z.of_nat (length v) + 99) 100 ltac:(lia)).
  split; [| lia]. rewrite <- Hperm. by eapply list_elem_of_lookup_2.
Qed.

(** C40. The percentiles are the nearest-rank percentiles.  For a sample of any
    size below 2^40, whatever its values (NaNs and zeros of either sign in the
    order of [total_cmp] included), [pct] neither panics nor reads a wrong
    index although the index is computed in floating point: the minimum and
    the maximum bound the sample, and each of the three percentiles is a value
    of the sample with at least that share of the values up to it and less
    than that share strictly below it; an empty sample has none. *)
Theorem percentiles_nearest_rank (v : list f64) :
  Z.of_nat (length v) < 2 ^ 40 ->
  match pct v with
  | None => False
  | Some None => v = []
  | Some (Some p) =>
      v <> [] /\ p.(pmin) ∈ v /\ p.(pmax) ∈ v /\
      Forall (fun x => total_le p.(pmin) x /\ total_le x p.(pmax)) v /\
      nearest_rank 50 v p.(p50) /\ nearest_rank 95 v p.(p95) /\ nearest_rank 99 v p.(p99)
  end.
Proof.
  intros Hlen. destruct (decide (v = [])) as [-> | Hne]; [done |].
  pose proof (merge_sort_Permutation total_le v) as Hperm.
  pose proof (StronglySorted_merge_sort total_le v) as Hs.
  pose proof (rank_value P50 50 v literal_50 ltac:(lia) Hne Hlen) as (a & Ha & Hra).
  pose proof (rank_value P95 95 v literal_95 ltac:(lia) Hne Hlen) as (b & Hb & Hrb).
  pose proof (rank_value P99 99 v literal_99 ltac:(lia) Hne Hlen) as (c & Hc & Hrc).
  assert (pct v = (lo ← merge_sort total_le v !! 0%nat; hi ← last (merge_sort total_le v);
    Some (Some {| pmin := lo; p50 := a; p95 := b; p99 := c; pmax := hi |}))) as ->.
  { unfold pct. destruct v; [done |]. rewrite (Permutation_length Hperm), Ha, Hb, Hc. done. }
  set (s := merge_sort total_le v) in *.
  assert (s <> []) as Hsne by (intros Hnil; rewrite Hnil in Hperm; by apply Permutation_nil_l in Hperm).
  destruct s as [| lo s'] eqn:Hsv; [done |]. rewrite <- Hsv in *.
  assert (s !! 0%nat = Some lo) as Hlo by (by rewrite Hsv).
  destruct (last s) as [hi |] eqn:Hhi; [| by apply last_None in Hhi].
  rewrite Hlo. cbn [mbind option_bind]. rewrite last_lookup in Hhi.
  destruct (sorted_middle s _ _ Hs Hlo) as (_ & _ & Hall).
  destruct (sorted_middle s _ _ Hs Hhi) as (Hsplit & Hup & _).
  split; [done |]. cbn [pmin p50 p95 p99 pmax].
  split; [rewrite <- Hperm; by eapply list_elem_of_lookup_2 |].
  split; [rewrite <- Hperm; by eapply list_elem_of_lookup_2 |].
  split; [| done]. rewrite <- Hperm. apply Forall_forall. intros x Hx. split.
  - rewrite Hsv in Hx, Hall. change (drop 1 (lo :: s')) with s' in Hall.
    by eapply (proj1 (Forall_forall _ _) Hall).
  - rewrite Hsplit in Hx. apply elem_of_app in Hx as [Hx | Hx].
    + by eapply (proj1 (Forall_forall _ _) Hup).
    + rewrite drop_ge in Hx by lia. apply list_elem_of_singleton in Hx as ->. unfold total_le. lia.
Qed.

Lemma percentiles_nearest_rank_witness :
  match pct [3; 1; 2] with
  | None => False
  | Some None => [3; 1; 2] = []
  | Some (Some p) =>
      [3; 1; 2] <> [] /\ p.(pmin) ∈ [3; 1; 2] /\ p.(pmax) ∈ [3; 1; 2] /\
      Forall (fun x => total_le p.(pmin) x /\ total_le x p.(pmax)) [3; 1; 2] /\
      nearest_rank 50 [3; 1; 2] p.(p50) /\ nearest_rank 95 [3; 1; 2] p.(p95) /\
      nearest_rank 99 [3; 1; 2] p.(p99)
  end.
Proof. apply (percentiles_nearest_rank [3; 1; 2]). reflexivity. Defined.

(** ** Counting *)

(** How many records have [k] under [key]. *)
Definition occurrences (key : RequestRecord -> option string) (rs : list RequestRecord) (k : string) : Z :=
  Z.of_nat (length (filter (fun r => key r = Some k) rs)).

(** A map holds exactly the counts that are not zero. *)
Definition counts (m : gmap string Z) (key : RequestRecord -> option string)
    (rs : list RequestRecord) : Prop :=
  forall k, m !! k = let c := occurrences key rs k in if c =? 0 then None else Some c.

Lemma occurrences_snoc key rs r k :
  occurrences key (rs ++ [r]) k = occurrences key rs k + (if decide (key r = Some k) then 1 else 0).
Proof.
  unfold occurrences. rewrite filter_app, length_app. destruct (decide (key r = Some k)) as [Hk | Hk].
  - rewrite (filter_cons_True _ r []) by done. simpl. lia.
  - rewrite (filter_cons_False _ r []) by done. simpl. lia.
Qed.

Lemma occurrences_bound key rs k : 0 <= occurrences key rs k <= Z.of_nat (length rs).
Proof. unfold occurrences. pose proof (length_filter (fun r => key r = Some k) rs). lia. Qed.

Lemma counts_snoc m key rs r :
  Z.of_nat (length rs) < u64_max -> counts m key rs -> counts (bump_opt (key r) m) key (rs ++ [r]).
Proof.
  intros Hlen Hm k. cbv zeta. rewrite occurrences_snoc. pose proof (occurrences_bound key rs k) as Hb.
  specialize (Hm k) as Hk. cbv zeta in Hk. unfold bump_opt, bump.
  destruct (key r) as [k' |] eqn:Hkey; [| by rewrite decide_False, Z.add_0_r by done].
  destruct (decide (Some k' = Some k)) as [[= ->] | Hne].
  - rewrite lookup_insert_eq, Hk. destruct (Z.eqb_spec (occurrences key rs k) 0) as [H0 | H0]; cbn [default from_option id].
    + rewrite H0. done.
    + rewrite wrap64_small by (clear -Hb Hlen; lia). by destruct (Z.eqb_spec (occurrences key rs k + 1) 0); [lia |].
  - rewrite lookup_insert_ne by congruence. by rewrite Z.add_0_r.
Qed.

(** The values a field has, in order. *)
Definition present {A} (f : RequestRecord -> option A) (rs : list RequestRecord) : list A := omap f rs.

(** The sum of a field. *)
Definition sum_of {A} (f : A -> Z) (l : list A) : Z := foldr (fun x s => f x + s) 0 l.

(** The loop's invariant. *)
Record acc_spec (a : Acc) (rs : list RequestRecord) : Prop := {
  spec_statuses : counts a.(statuses) (fun r => u64_to_string <$> r.(status)) rs;
  spec_retries : counts a.(retries) retry_after rs;
  spec_outcomes : counts a.(outcomes) (fun r => Some r.(outcome)) rs;
  spec_errors : counts a.(errors) error rs;
  spec_ttfb : a.(ttfb) = present ttfb_ms rs;
  spec_first : a.(first) = present first_event_ms rs;
  spec_completion : a.(completion) = completion_ms <$> rs;
  spec_bytes : a.(bytes_) = wrap64 (sum_of response_bytes rs);
  spec_events : a.(events) = wrap64 (sum_of sse_events rs);
}.

Lemma sum_of_app {A} (f : A -> Z) l1 l2 : sum_of f (l1 ++ l2) = sum_of f l1 + sum_of f l2.
Proof. unfold sum_of. induction l1 as [| x l1 IH]; simpl; lia. Qed.

Lemma sum_of_snoc {A} (f : A -> Z) l x : sum_of f (l ++ [x]) = sum_of f l + f x.
Proof. rewrite sum_of_app. simpl. lia. Qed.

Lemma present_snoc {A} (f : RequestRecord -> option A) rs r :
  present f (rs ++ [r]) = present f rs ++ option_list (f r).
Proof. unfold present. rewrite omap_app. simpl. by destruct (f r). Qed.

Lemma wrap64_add a b : wrap64 (wrap64 a + b) = wrap64 (a + b).
Proof. unfold wrap64. by rewrite Zplus_mod_idemp_l. Qed.

Lemma add_record_spec a rs r :
  Z.of_nat (length rs) < u64_max -> acc_spec a rs -> acc_spec (add_record a r) (rs ++ [r]).
Proof.
  intros Hlen []. constructor; cbn [add_record statuses retries outcomes errors ttfb first
    completion bytes_ events].
  - exact (counts_snoc _ (fun r => u64_to_string <$> status r) rs r Hlen spec_statuses0).
  - by apply counts_snoc.
  - exact (counts_snoc _ (fun r => Some (outcome r)) rs r Hlen spec_outcomes0).
  - by apply counts_snoc.
  - unfold push_opt. by rewrite present_snoc, spec_ttfb0.
  - unfold push_opt. by rewrite present_snoc, spec_first0.
  - by rewrite fmap_app, spec_completion0.
  - by rewrite sum_of_snoc, spec_bytes0, wrap64_add.
  - by rewrite sum_of_snoc, spec_events0, wrap64_add.
Qed.

Lemma summarize_acc rs : Z.of_nat (length rs) <= u64_max -> acc_spec (foldl add_record acc_empty rs) rs.
Proof.
  induction rs as [| r rs IH] using rev_ind; intros Hlen.
  { constructor; try done; intros k; apply lookup_empty. }
  rewrite length_app in Hlen. simpl in Hlen. rewrite foldl_snoc.
  apply add_record_spec; [lia | apply IH; lia].
Qed.

Lemma pct_total v : Z.of_nat (length v) < 2 ^ 40 -> exists o, pct v = Some o /\ (o = None <-> v = []).
Proof.
  intros Hlen. destruct (decide (v = [])) as [-> | Hne]; [by exists None |].
  pose proof (merge_sort_Permutation total_le v) as Hperm.
  pose proof (rank_value P50 50 v literal_50 ltac:(lia) Hne Hlen) as (a & Ha & _).
  pose proof (rank_value P95 95 v literal_95 ltac:(lia) Hne Hlen) as (b & Hb & _).
  pose proof (rank_value P99 99 v literal_99 ltac:(lia) Hne Hlen) as (c & Hc & _).
  assert (is_Some (merge_sort total_le v !! 0%nat)) as [lo Hlo].
  { apply lookup_lt_is_Some_2. rewrite (Permutation_length Hperm). destruct v; [done | simpl; lia]. }
  assert (is_Some (last (merge_sort total_le v))) as [hi Hhi].
  { destruct (last (merge_sort total_le v)) eqn:Hl; [done |]. apply last_None in Hl.
    by rewrite Hl in Hlo. }
  eexists (Some _). split; [| split; [done | by intros ->]].
  unfold pct. destruct v; [done |]. by rewrite (Permutation_length Hperm), Hlo, Ha, Hb, Hc, Hhi.
Qed.

Lemma length_present {A} (f : RequestRecord -> option A) rs : (length (present f rs) <= length rs)%nat.
Proof.
  unfold present. induction rs as [| r rs IH]; [done |]. cbn [omap list_omap]. case_match; simpl in *; lia.
Qed.

(** [summarize] never panics and reports what it was told about the run. *)
Lemma summarize_total rs elapsed started pk :
  Z.of_nat (length rs) < 2 ^ 40 ->
  exists s, summarize rs elapsed started pk = Some s /\ s.(requests_started) = started /\
    s.(peak_in_flight) = pk /\ s.(requests_finished) = Z.of_nat (length rs).
Proof.
  intros Hlen. destruct (summarize_acc rs ltac:(unfold u64_max; lia)) as [].
  pose proof (length_present ttfb_ms rs). pose proof (length_present first_event_ms rs).
  destruct (pct_total (present ttfb_ms rs) ltac:(lia)) as (t & Ht & _).
  destruct (pct_total (present first_event_ms rs) ltac:(lia)) as (f & Hf & _).
  destruct (pct_total (completion_ms <$> rs)) as (c & Hc & _); [by rewrite length_fmap |].
  unfold summarize. rewrite spec_ttfb0, spec_first0, spec_completion0, Ht, Hf, Hc.
  cbn [mbind option_bind]. eexists. split; [reflexivity | done].
Qed.

(** The summary counts every record once.  [summarize] never panics; it
    reports the number of records and what it was told about the run; a
    status, a [Retry-After], an outcome or an error class is in its map exactly
    when some record has it, with the number of records that have it; the byte
    and event totals are the sums modulo 2^64; and a latency is missing from
    the summary exactly when no record measured it. *)
Theorem summarize_exact (rs : list RequestRecord) (elapsed : f64) (started peak : Z) :
  Z.of_nat (length rs) < 2 ^ 40 ->
  exists s, summarize rs elapsed started peak = Some s /\
    s.(requests_started) = started /\ s.(peak_in_flight) = peak /\
    s.(requests_finished) = Z.of_nat (length rs) /\
    counts s.(s_statuses) (fun r => u64_to_string <$> r.(status)) rs /\
    counts s.(s_retry_after) retry_after rs /\
    counts s.(s_outcomes) (fun r => Some r.(outcome)) rs /\
    counts s.(s_errors) error rs /\
    s.(s_response_bytes) = wrap64 (sum_of response_bytes rs) /\
    s.(s_sse_events) = wrap64 (sum_of sse_events rs) /\
    pct (present ttfb_ms rs) = Some s.(s_ttfb_ms) /\
    pct (present first_event_ms rs) = Some s.(s_first_event_ms) /\
    pct (completion_ms <$> rs) = Some s.(s_completion_ms) /\
    (s.(s_completion_ms) = None <-> rs = []).
Proof.
  intros Hlen. destruct (summarize_acc rs ltac:(unfold u64_max; lia)) as [].
  pose proof (length_present ttfb_ms rs). pose proof (length_present first_event_ms rs).
  destruct (pct_total (present ttfb_ms rs) ltac:(lia)) as (t & Ht & _).
  destruct (pct_total (present first_event_ms rs) ltac:(lia)) as (f & Hf & _).
  destruct (pct_total (completion_ms <$> rs)) as (c & Hc & Hnone); [by rewrite length_fmap |].
  unfold summarize. rewrite spec_ttfb0, spec_first0, spec_completion0, Ht, Hf, Hc.
  cbn [mbind option_bind]. eexists. split; [reflexivity |].
  cbn [requests_started peak_in_flight requests_finished s_statuses s_retry_after s_outcomes s_errors
    s_response_bytes s_sse_events s_ttfb_ms s_first_event_ms s_completion_ms].
  repeat (split; [done |]). rewrite Hnone. split; [by intros ?%fmap_nil_inv | by intros ->].
Qed.

Definition sample_record (code : Z) (err : option string) : RequestRecord :=
  {| request_id := "loadgen-0"; status := Some code; retry_after := None; ttfb_ms := Some 1;
     first_event_ms := None; completion_ms := 2; response_bytes := 3; sse_events := 0;
     saw_done := false; outcome := "completed"; error := err |}.

Lemma summarize_exact_witness :
  exists s, summarize [sample_record 200 None; sample_record 200 None; sample_record 429 None] 7 3 2 = Some s /\
    s.(s_statuses) !! "200" = Some 2 /\ s.(s_response_bytes) = 9.
Proof.
  destruct (summarize_exact [sample_record 200 None; sample_record 200 None; sample_record 429 None] 7 3 2)
    as (s & Hs & _ & _ & _ & Hst & _ & _ & _ & Hb & _); [reflexivity |].
  exists s. split; [exact Hs |]. split; [exact (Hst "200") | exact Hb].
Defined.
