(* ===== verification/LoadCli.v ===== *)
(** * The load generator's command line (tools/loadtest/loadgen/src/cli.rs)

    Both subcommands are loops over the arguments: an option sets a field, or
    takes the next argument as its value.  [print_run] writes arguments back;
    what it writes parses to what it was given, and nothing that parses is
    outside the bounds the runner relies on. *)
From S2P Require Export Text.

(** ** [str] methods *)

(** [s.strip_suffix(p)] *)
Definition strip_suffix (s p : string) : option string :=
  if ends_with s p
  then Some (of_bytes (take (String.length s - String.length p) (as_bytes s)))
  else None.

(** [s.split_once(sep)] for one byte *)
Fixpoint bytes_split_once (sep : ascii) (l : bytes) : option (bytes * bytes) :=
  match l with
  | [] => None
  | b :: rest =>
      if Ascii.eqb b sep then Some ([], rest)
      else match bytes_split_once sep rest with
           | Some (k, v) => Some (b :: k, v)
           | None => None
           end
  end.
Definition split_once (sep : ascii) (s : string) : option (string * string) :=
  match bytes_split_once sep (as_bytes s) with
  | Some (k, v) => Some (of_bytes k, of_bytes v)
  | None => None
  end.

(** ** Data *)

Inductive Protocol := Http1 | Http2.
Inductive ResponseMode := Json | Sse.

Record RunArgs := {
  url : string;
  protocol : Protocol;
  concurrency : Z;
  requests : option Z;
  duration_ : option Duration;
  method : string;
  headers : list (string * string);
  body : bytes;
  mode : ResponseMode;
  ca : option string;
  insecure : bool;
  read_bytes_per_sec : option Z;
  write_bytes_per_sec : option Z;
  stop_read_after : option Duration;
  hold_after_stop : Duration;
  timeout : Duration;
  jsonl : bool;
  no_keepalive : bool;
}.

Inductive SlowStage := Tcp | Tls | Header | Body | H2Preface.

Record SlowArgs := {
  target : string;
  connections : Z;
  stage : SlowStage;
  slow_ca : option string;
  slow_insecure : bool;
  interval : Duration;
  hold : Duration;
  header : string;
  body_byte : ascii;
}.

Inductive Command := Run (args : RunArgs) | Slowloris (args : SlowArgs) | Help.

(** ** Operations *)

Definition from_millis (n : Z) : Duration := n * 1000000.

(** [duration] *)
Definition duration (s : string) : result string Duration :=
  let e := "invalid duration: " +:+ s in
  match strip_suffix s "ms" with
  | Some v => ok_or (from_millis <$> parse_u64 v) e
  | None =>
      match strip_suffix s "s" with
      | Some v => ok_or (Dur.from_secs <$> parse_u64 v) e
      | None => ok_or (Dur.from_secs <$> parse_u64 s) e
      end
  end.

(** An arm of the loop: it sets a field, or it calls [value] with the name of
    the option and sets a field from what it got, or it refuses the option. *)
Inductive Arm (A : Type) :=
| Flag (set : A -> A)
| Valued (flag : string) (set : string -> A -> result string A)
| Unknown (e : string).
Arguments Flag {A} set.
Arguments Valued {A} flag set.
Arguments Unknown {A} e.

(** [while i < args.len() { match args[i] { .. } i += 1; }] with [value] *)
Fixpoint option_loop {A} (arm : string -> Arm A) (args : list string) (out : A) : result string A :=
  match args with
  | [] => Ok out
  | a :: rest =>
      match arm a with
      | Flag set => option_loop arm rest (set out)
      | Unknown e => Err e
      | Valued flag set =>
          match rest with
          | [] => Err (flag +:+ " requires a value")
          | v :: rest =>
              match set v out with
              | Ok out => option_loop arm rest out
              | Err e => Err e
              end
          end
      end
  end.

(** The defaults of [parse_run]. *)
Definition run_default : RunArgs :=
  {| url := ""; protocol := Http1; concurrency := 1; requests := None; duration_ := None;
     method := "POST"; headers := []; body := as_bytes "{}"; mode := Json; ca := None;
     insecure := false; read_bytes_per_sec := None; write_bytes_per_sec := None;
     stop_read_after := None; hold_after_stop := Dur.from_secs 60; timeout := Dur.from_secs 120;
     jsonl := false; no_keepalive := false |}.

(** The defaults of [parse_slow]. *)
Definition slow_default : SlowArgs :=
  {| target := ""; connections := 1; stage := Tcp; slow_ca := None; slow_insecure := false;
     interval := Dur.from_secs 1; hold := Dur.from_secs 10;
     header := "GET / HTTP/1.1" +:+ String CR (String LF "Host: localhost")
               +:+ String CR (String LF "X-Slow: ");
     body_byte := "x"%char |}.

(** Assignments to one field of the arguments. *)
Definition set_url v (a : RunArgs) : RunArgs :=
  {| url := v; protocol := a.(protocol); concurrency := a.(concurrency); requests := a.(requests);
  duration_ := a.(duration_); method := a.(method); headers := a.(headers); body := a.(body);
  mode := a.(mode); ca := a.(ca); insecure := a.(insecure);
  read_bytes_per_sec := a.(read_bytes_per_sec); write_bytes_per_sec := a.(write_bytes_per_sec);
  stop_read_after := a.(stop_read_after); hold_after_stop := a.(hold_after_stop);
  timeout := a.(timeout); jsonl := a.(jsonl); no_keepalive := a.(no_keepalive) |}.
Definition set_protocol v (a : RunArgs) : RunArgs :=
  {| url := a.(url); protocol := v; concurrency := a.(concurrency); requests := a.(requests);
  duration_ := a.(duration_); method := a.(method); headers := a.(headers); body := a.(body);
  mode := a.(mode); ca := a.(ca); insecure := a.(insecure);
  read_bytes_per_sec := a.(read_bytes_per_sec); write_bytes_per_sec := a.(write_bytes_per_sec);
  stop_read_after := a.(stop_read_after); hold_after_stop := a.(hold_after_stop);
  timeout := a.(timeout); jsonl := a.(jsonl); no_keepalive := a.(no_keepalive) |}.
Definition set_concurrency v (a : RunArgs) : RunArgs :=
  {| url := a.(url); protocol := a.(protocol); concurrency := v; requests := a.(requests);
  duration_ := a.(duration_); method := a.(method); headers := a.(headers); body := a.(body);
  mode := a.(mode); ca := a.(ca); insecure := a.(insecure);
  read_bytes_per_sec := a.(read_bytes_per_sec); write_bytes_per_sec := a.(write_bytes_per_sec);
  stop_read_after := a.(stop_read_after); hold_after_stop := a.(hold_after_stop);
  timeout := a.(timeout); jsonl := a.(jsonl); no_keepalive := a.(no_keepalive) |}.
Definition set_requests v (a : RunArgs) : RunArgs :=
  {| url := a.(url); protocol := a.(protocol); concurrency := a.(concurrency); requests := v;
  duration_ := a.(duration_); method := a.(method); headers := a.(headers); body := a.(body);
  mode := a.(mode); ca := a.(ca); insecure := a.(insecure);
  read_bytes_per_sec := a.(read_bytes_per_sec); write_bytes_per_sec := a.(write_bytes_per_sec);
  stop_read_after := a.(stop_read_after); hold_after_stop := a.(hold_after_stop);
  timeout := a.(timeout); jsonl := a.(jsonl); no_keepalive := a.(no_keepalive) |}.
Definition set_duration v (a : RunArgs) : RunArgs :=
  {| url := a.(url); protocol := a.(protocol); concurrency := a.(concurrency);
  requests := a.(requests); duration_ := v; method := a.(method); headers := a.(headers);
  body := a.(body); mode := a.(mode); ca := a.(ca); insecure := a.(insecure);
  read_bytes_per_sec := a.(read_bytes_per_sec); write_bytes_per_sec := a.(write_bytes_per_sec);
  stop_read_after := a.(stop_read_after); hold_after_stop := a.(hold_after_stop);
  timeout := a.(timeout); jsonl := a.(jsonl); no_keepalive := a.(no_keepalive) |}.
Definition set_method v (a : RunArgs) : RunArgs :=
  {| url := a.(url); protocol := a.(protocol); concurrency := a.(concurrency);
  requests := a.(requests); duration_ := a.(duration_); method := v; headers := a.(headers);
  body := a.(body); mode := a.(mode); ca := a.(ca); insecure := a.(insecure);
  read_bytes_per_sec := a.(read_bytes_per_sec); write_bytes_per_sec := a.(write_bytes_per_sec);
  stop_read_after := a.(stop_read_after); hold_after_stop := a.(hold_after_stop);
  timeout := a.(timeout); jsonl := a.(jsonl); no_keepalive := a.(no_keepalive) |}.
Definition set_headers v (a : RunArgs) : RunArgs :=
  {| url := a.(url); protocol := a.(protocol); concurrency := a.(concurrency);
  requests := a.(requests); duration_ := a.(duration_); method := a.(method); headers := v;
  body := a.(body); mode := a.(mode); ca := a.(ca); insecure := a.(insecure);
  read_bytes_per_sec := a.(read_bytes_per_sec); write_bytes_per_sec := a.(write_bytes_per_sec);
  stop_read_after := a.(stop_read_after); hold_after_stop := a.(hold_after_stop);
  timeout := a.(timeout); jsonl := a.(jsonl); no_keepalive := a.(no_keepalive) |}.
Definition set_body v (a : RunArgs) : RunArgs :=
  {| url := a.(url); protocol := a.(protocol); concurrency := a.(concurrency);
  requests := a.(requests); duration_ := a.(duration_); method := a.(method);
  headers := a.(headers); body := v; mode := a.(mode); ca := a.(ca); insecure := a.(insecure);
  read_bytes_per_sec := a.(read_bytes_per_sec); write_bytes_per_sec := a.(write_bytes_per_sec);
  stop_read_after := a.(stop_read_after); hold_after_stop := a.(hold_after_stop);
  timeout := a.(timeout); jsonl := a.(jsonl); no_keepalive := a.(no_keepalive) |}.
Definition set_mode v (a : RunArgs) : RunArgs :=
  {| url := a.(url); protocol := a.(protocol); concurrency := a.(concurrency);
  requests := a.(requests); duration_ := a.(duration_); method := a.(method);
  headers := a.(headers); body := a.(body); mode := v; ca := a.(ca); insecure := a.(insecure);
  read_bytes_per_sec := a.(read_bytes_per_sec); write_bytes_per_sec := a.(write_bytes_per_sec);
  stop_read_after := a.(stop_read_after); hold_after_stop := a.(hold_after_stop);
  timeout := a.(timeout); jsonl := a.(jsonl); no_keepalive := a.(no_keepalive) |}.
Definition set_ca v (a : RunArgs) : RunArgs :=
  {| url := a.(url); protocol := a.(protocol); concurrency := a.(concurrency);
  requests := a.(requests); duration_ := a.(duration_); method := a.(method);
  headers := a.(headers); body := a.(body); mode := a.(mode); ca := v; insecure := a.(insecure);
  read_bytes_per_sec := a.(read_bytes_per_sec); write_bytes_per_sec := a.(write_bytes_per_sec);
  stop_read_after := a.(stop_read_after); hold_after_stop := a.(hold_after_stop);
  timeout := a.(timeout); jsonl := a.(jsonl); no_keepalive := a.(no_keepalive) |}.
Definition set_insecure v (a : RunArgs) : RunArgs :=
  {| url := a.(url); protocol := a.(protocol); concurrency := a.(concurrency);
  requests := a.(requests); duration_ := a.(duration_); method := a.(method);
  headers := a.(headers); body := a.(body); mode := a.(mode); ca := a.(ca); insecure := v;
  read_bytes_per_sec := a.(read_bytes_per_sec); write_bytes_per_sec := a.(write_bytes_per_sec);
  stop_read_after := a.(stop_read_after); hold_after_stop := a.(hold_after_stop);
  timeout := a.(timeout); jsonl := a.(jsonl); no_keepalive := a.(no_keepalive) |}.
Definition set_read_bytes_per_sec v (a : RunArgs) : RunArgs :=
  {| url := a.(url); protocol := a.(protocol); concurrency := a.(concurrency);
  requests := a.(requests); duration_ := a.(duration_); method := a.(method);
  headers := a.(headers); body := a.(body); mode := a.(mode); ca := a.(ca);
  insecure := a.(insecure); read_bytes_per_sec := v;
  write_bytes_per_sec := a.(write_bytes_per_sec); stop_read_after := a.(stop_read_after);
  hold_after_stop := a.(hold_after_stop); timeout := a.(timeout); jsonl := a.(jsonl);
  no_keepalive := a.(no_keepalive) |}.
Definition set_write_bytes_per_sec v (a : RunArgs) : RunArgs :=
  {| url := a.(url); protocol := a.(protocol); concurrency := a.(concurrency);
  requests := a.(requests); duration_ := a.(duration_); method := a.(method);
  headers := a.(headers); body := a.(body); mode := a.(mode); ca := a.(ca);
  insecure := a.(insecure); read_bytes_per_sec := a.(read_bytes_per_sec); write_bytes_per_sec := v;
  stop_read_after := a.(stop_read_after); hold_after_stop := a.(hold_after_stop);
  timeout := a.(timeout); jsonl := a.(jsonl); no_keepalive := a.(no_keepalive) |}.
Definition set_stop_read_after v (a : RunArgs) : RunArgs :=
  {| url := a.(url); protocol := a.(protocol); concurrency := a.(concurrency);
  requests := a.(requests); duration_ := a.(duration_); method := a.(method);
  headers := a.(headers); body := a.(body); mode := a.(mode); ca := a.(ca);
  insecure := a.(insecure); read_bytes_per_sec := a.(read_bytes_per_sec);
  write_bytes_per_sec := a.(write_bytes_per_sec); stop_read_after := v;
  hold_after_stop := a.(hold_after_stop); timeout := a.(timeout); jsonl := a.(jsonl);
  no_keepalive := a.(no_keepalive) |}.
Definition set_hold_after_stop v (a : RunArgs) : RunArgs :=
  {| url := a.(url); protocol := a.(protocol); concurrency := a.(concurrency);
  requests := a.(requests); duration_ := a.(duration_); method := a.(method);
  headers := a.(headers); body := a.(body); mode := a.(mode); ca := a.(ca);
  insecure := a.(insecure); read_bytes_per_sec := a.(read_bytes_per_sec);
  write_bytes_per_sec := a.(write_bytes_per_sec); stop_read_after := a.(stop_read_after);
  hold_after_stop := v; timeout := a.(timeout); jsonl := a.(jsonl);
  no_keepalive := a.(no_keepalive) |}.
Definition set_timeout v (a : RunArgs) : RunArgs :=
  {| url := a.(url); protocol := a.(protocol); concurrency := a.(concurrency);
  requests := a.(requests); duration_ := a.(duration_); method := a.(method);
  headers := a.(headers); body := a.(body); mode := a.(mode); ca := a.(ca);
  insecure := a.(insecure); read_bytes_per_sec := a.(read_bytes_per_sec);
  write_bytes_per_sec := a.(write_bytes_per_sec); stop_read_after := a.(stop_read_after);
  hold_after_stop := a.(hold_after_stop); timeout := v; jsonl := a.(jsonl);
  no_keepalive := a.(no_keepalive) |}.
Definition set_jsonl v (a : RunArgs) : RunArgs :=
  {| url := a.(url); protocol := a.(protocol); concurrency := a.(concurrency);
  requests := a.(requests); duration_ := a.(duration_); method := a.(method);
  headers := a.(headers); body := a.(body); mode := a.(mode); ca := a.(ca);
  insecure := a.(insecure); read_bytes_per_sec := a.(read_bytes_per_sec);
  write_bytes_per_sec := a.(write_bytes_per_sec); stop_read_after := a.(stop_read_after);
  hold_after_stop := a.(hold_after_stop); timeout := a.(timeout); jsonl := v;
  no_keepalive := a.(no_keepalive) |}.
Definition set_no_keepalive v (a : RunArgs) : RunArgs :=
  {| url := a.(url); protocol := a.(protocol); concurrency := a.(concurrency);
  requests := a.(requests); duration_ := a.(duration_); method := a.(method);
  headers := a.(headers); body := a.(body); mode := a.(mode); ca := a.(ca);
  insecure := a.(insecure); read_bytes_per_sec := a.(read_bytes_per_sec);
  write_bytes_per_sec := a.(write_bytes_per_sec); stop_read_after := a.(stop_read_after);
  hold_after_stop := a.(hold_after_stop); timeout := a.(timeout); jsonl := a.(jsonl);
  no_keepalive := v |}.
Definition set_slow_target v (a : SlowArgs) : SlowArgs :=
  {| target := v; connections := a.(connections); stage := a.(stage); slow_ca := a.(slow_ca);
  slow_insecure := a.(slow_insecure); interval := a.(interval); hold := a.(hold);
  header := a.(header); body_byte := a.(body_byte) |}.
Definition set_slow_connections v (a : SlowArgs) : SlowArgs :=
  {| target := a.(target); connections := v; stage := a.(stage); slow_ca := a.(slow_ca);
  slow_insecure := a.(slow_insecure); interval := a.(interval); hold := a.(hold);
  header := a.(header); body_byte := a.(body_byte) |}.
Definition set_slow_stage v (a : SlowArgs) : SlowArgs :=
  {| target := a.(target); connections := a.(connections); stage := v; slow_ca := a.(slow_ca);
  slow_insecure := a.(slow_insecure); interval := a.(interval); hold := a.(hold);
  header := a.(header); body_byte := a.(body_byte) |}.
Definition set_slow_ca v (a : SlowArgs) : SlowArgs :=
  {| target := a.(target); connections := a.(connections); stage := a.(stage); slow_ca := v;
  slow_insecure := a.(slow_insecure); interval := a.(interval); hold := a.(hold);
  header := a.(header); body_byte := a.(body_byte) |}.
Definition set_slow_insecure v (a : SlowArgs) : SlowArgs :=
  {| target := a.(target); connections := a.(connections); stage := a.(stage); slow_ca := a.(slow_ca);
  slow_insecure := v; interval := a.(interval); hold := a.(hold); header := a.(header);
  body_byte := a.(body_byte) |}.
Definition set_slow_interval v (a : SlowArgs) : SlowArgs :=
  {| target := a.(target); connections := a.(connections); stage := a.(stage); slow_ca := a.(slow_ca);
  slow_insecure := a.(slow_insecure); interval := v; hold := a.(hold); header := a.(header);
  body_byte := a.(body_byte) |}.
Definition set_slow_hold v (a : SlowArgs) : SlowArgs :=
  {| target := a.(target); connections := a.(connections); stage := a.(stage); slow_ca := a.(slow_ca);
  slow_insecure := a.(slow_insecure); interval := a.(interval); hold := v; header := a.(header);
  body_byte := a.(body_byte) |}.
Definition set_slow_header v (a : SlowArgs) : SlowArgs :=
  {| target := a.(target); connections := a.(connections); stage := a.(stage); slow_ca := a.(slow_ca);
  slow_insecure := a.(slow_insecure); interval := a.(interval); hold := a.(hold); header := v;
  body_byte := a.(body_byte) |}.
Definition set_slow_body_byte v (a : SlowArgs) : SlowArgs :=
  {| target := a.(target); connections := a.(connections); stage := a.(stage); slow_ca := a.(slow_ca);
  slow_insecure := a.(slow_insecure); interval := a.(interval); hold := a.(hold);
  header := a.(header); body_byte := v |}.

(** [set] after a parser of the value. *)
Definition parsed {A B} (parse : string -> result string B) (set : B -> A -> A)
    (v : string) (a : A) : result string A := (fun b => set b a) <$> parse v.

(** [value(..)?.parse().map_err(|_| e)?] for [usize] and [u64] *)
Definition number (e : string) (v : string) : result string Z := ok_or (parse_u64 v) e.

Definition protocol_of (v : string) : result string Protocol :=
  if String.eqb v "http1" then Ok Http1
  else if String.eqb v "http2" then Ok Http2
  else Err ("invalid protocol: " +:+ v).

Definition mode_of (v : string) : result string ResponseMode :=
  if String.eqb v "json" then Ok Json
  else if String.eqb v "sse" then Ok Sse
  else Err ("invalid mode: " +:+ v).

Definition stage_of (v : string) : result string SlowStage :=
  if String.eqb v "tcp" then Ok Tcp
  else if String.eqb v "tls" then Ok Tls
  else if String.eqb v "header" then Ok Header
  else if String.eqb v "body" then Ok Body
  else if String.eqb v "h2-preface" then Ok H2Preface
  else Err ("invalid stage: " +:+ v).

(** [-H NAME:VALUE] *)
Definition header_of (h : string) : result string (string * string) :=
  match split_once ":" h with
  | None => Err "header must be NAME: VALUE"
  | Some (k, v) => Ok (trim k, trim v)
  end.

Definition write_rate_of (v : string) : result string Z :=
  rate ← number "invalid write rate" v;
  if rate =? 0 then Err "write rate must be positive" else Ok rate.

Definition body_byte_of (v : string) : result string ascii :=
  ok_or (head (as_bytes v)) "empty body byte".

Section Files.
(** [std::fs::read] with its error as text *)
Context (read_file : string -> result string bytes).

(** The [match] of [parse_run]. *)
Definition run_arm (name : string) : Arm RunArgs :=
  let on := String.eqb name in
  if on "--url" then Valued "--url" (parsed Ok set_url)
  else if on "--protocol" then Valued "--protocol" (parsed protocol_of set_protocol)
  else if on "-c" || on "--concurrency"
       then Valued "--concurrency" (parsed (number "invalid concurrency") set_concurrency)
  else if on "-n" || on "--requests"
       then Valued "--requests" (parsed (number "invalid requests") (fun n => set_requests (Some n)))
  else if on "--duration" then Valued "--duration" (parsed duration (fun d => set_duration (Some d)))
  else if on "--method" then Valued "--method" (parsed Ok set_method)
  else if on "-H" || on "--header"
       then Valued "--header" (parsed header_of (fun h a => set_headers (a.(headers) ++ [h]) a))
  else if on "--body" then Valued "--body" (parsed (fun v => Ok (as_bytes v)) set_body)
  else if on "--body-file" then Valued "--body-file" (parsed read_file set_body)
  else if on "--mode" then Valued "--mode" (parsed mode_of set_mode)
  else if on "--ca" then Valued "--ca" (parsed Ok (fun p => set_ca (Some p)))
  else if on "-k" || on "--insecure" then Flag (set_insecure true)
  else if on "--read-bytes-per-sec"
       then Valued "--read-bytes-per-sec"
              (parsed (number "invalid read rate") (fun r => set_read_bytes_per_sec (Some r)))
  else if on "--write-bytes-per-sec"
       then Valued "--write-bytes-per-sec"
              (parsed write_rate_of (fun r => set_write_bytes_per_sec (Some r)))
  else if on "--stop-read-after"
       then Valued "--stop-read-after" (parsed duration (fun d => set_stop_read_after (Some d)))
  else if on "--hold-after-stop" then Valued "--hold-after-stop" (parsed duration set_hold_after_stop)
  else if on "--timeout" then Valued "--timeout" (parsed duration set_timeout)
  else if on "--jsonl" then Flag (set_jsonl true)
  else if on "--no-keepalive" then Flag (set_no_keepalive true)
  else Unknown ("unknown run option: " +:+ name).

(** The checks after the loop of [parse_run]. *)
Definition check_run (out : RunArgs) : result string RunArgs :=
  bail_if (str_is_empty out.(url)) "--url is required" ;;
  bail_if (out.(concurrency) =? 0) "concurrency must be positive" ;;
  bail_if (bool_decide (out.(requests) = Some 0)) "requests must be positive" ;;
  bail_if (bool_decide (out.(requests) = None) && bool_decide (out.(duration_) = None))
    "one of --requests or --duration is required" ;;
  bail_if (bool_decide (out.(requests) <> None) && bool_decide (out.(duration_) <> None))
    "--requests and --duration are mutually exclusive" ;;
  Ok out.

Definition parse_run (args : list string) : result string RunArgs :=
  out ← option_loop run_arm args run_default; check_run out.

(** The [match] of [parse_slow]. *)
Definition slow_arm (name : string) : Arm SlowArgs :=
  let on := String.eqb name in
  if on "--target" then Valued "--target" (parsed Ok set_slow_target)
  else if on "-c" || on "--connections"
       then Valued "--connections" (parsed (number "invalid connections") set_slow_connections)
  else if on "--stage" then Valued "--stage" (parsed stage_of set_slow_stage)
  else if on "--ca" then Valued "--ca" (parsed Ok (fun p => set_slow_ca (Some p)))
  else if on "-k" || on "--insecure" then Flag (set_slow_insecure true)
  else if on "--interval" then Valued "--interval" (parsed duration set_slow_interval)
  else if on "--hold" then Valued "--hold" (parsed duration set_slow_hold)
  else if on "--header" then Valued "--header" (parsed Ok set_slow_header)
  else if on "--body-byte" then Valued "--body-byte" (parsed body_byte_of set_slow_body_byte)
  else Unknown ("unknown slowloris option: " +:+ name).

(** The checks after the loop of [parse_slow]. *)
Definition check_slow (out : SlowArgs) : result string SlowArgs :=
  bail_if (str_is_empty out.(target)) "--target HOST:PORT is required" ;;
  bail_if (out.(connections) =? 0) "connections must be positive" ;;
  Ok out.

Definition parse_slow (args : list string) : result string SlowArgs :=
  out ← option_loop slow_arm args slow_default; check_slow out.

Definition parse_from (args : list string) : result string Command :=
  match args with
  | [] => Ok Help
  | a :: rest =>
      if String.eqb a "--help" || String.eqb a "-h" then Ok Help
      else if String.eqb a "run" then Run <$> parse_run rest
      else if String.eqb a "slowloris" then Slowloris <$> parse_slow rest
      else Err ("unknown subcommand: " +:+ a)
  end.
End Files.

Definition HELP : string := join_lf
  ["loadgen run --url URL (-n REQUESTS | --duration 30s) [options]";
   "  --protocol http1|http2  -c/--concurrency N  --mode json|sse";
   "  --ca FILE | -k/--insecure  -H 'Name: value'  --body JSON | --body-file FILE";
   "  --write-bytes-per-sec N  --read-bytes-per-sec N";
   "  --stop-read-after 1s  --hold-after-stop 60s";
   "  --timeout 120s  --no-keepalive  --jsonl (records on stderr; summary on stdout)";
   "";
   "loadgen slowloris --target HOST:PORT --stage tcp|tls|header|body|h2-preface [options]";
   "  -c/--connections N  --ca FILE | -k  --interval 1s  --hold 10s"].

(** The test of cli.rs. *)
Example parses_run :
  parse_from (fun _ => Err "") ["run"; "--url"; "https://x"; "-n"; "10"; "-c"; "2"; "--mode"; "sse"]
  = Ok (Run (set_mode Sse (set_concurrency 2 (set_requests (Some 10) (set_url "https://x" run_default))))).
Proof. vm_compute. reflexivity. Qed.

(** ** Writing a command line *)

Definition show_ms (d : Duration) : string := u64_to_string (d / 1000000) +:+ "ms".
Definition show_protocol (p : Protocol) : string := match p with Http1 => "http1" | Http2 => "http2" end.
Definition show_mode (m : ResponseMode) : string := match m with Json => "json" | Sse => "sse" end.
Definition show_header (h : string * string) : string := h.1 +:+ String ":" h.2.

Definition opt_words {A} (flag : string) (show : A -> string) (o : option A) : list string :=
  match o with Some v => [flag; show v] | None => [] end.
Definition flag_words (flag : string) (b : bool) : list string := if b then [flag] else [].

Definition print_run (a : RunArgs) : list string :=
  ["run"; "--url"; a.(url); "--protocol"; show_protocol a.(protocol);
   "-c"; u64_to_string a.(concurrency)]
  ++ opt_words "-n" u64_to_string a.(requests)
  ++ opt_words "--duration" show_ms a.(duration_)
  ++ ["--method"; a.(method)]
  ++ concat ((fun h => ["-H"; show_header h]) <$> a.(headers))
  ++ ["--body"; of_bytes a.(body); "--mode"; show_mode a.(mode)]
  ++ opt_words "--ca" id a.(ca)
  ++ flag_words "-k" a.(insecure)
  ++ opt_words "--read-bytes-per-sec" u64_to_string a.(read_bytes_per_sec)
  ++ opt_words "--write-bytes-per-sec" u64_to_string a.(write_bytes_per_sec)
  ++ opt_words "--stop-read-after" show_ms a.(stop_read_after)
  ++ ["--hold-after-stop"; show_ms a.(hold_after_stop); "--timeout"; show_ms a.(timeout)]
  ++ flag_words "--jsonl" a.(jsonl)
  ++ flag_words "--no-keepalive" a.(no_keepalive).

(** ** What the arguments of a run satisfy *)

Definition in_u64 (n : Z) : Prop := 0 <= n <= u64_max.

(** A duration the options can name: whole milliseconds in 64 bits, or whole
    seconds in 64 bits. *)
Definition duration_ok (d : Duration) : Prop :=
  exists n, in_u64 n /\ (d = from_millis n \/ d = Dur.from_secs n).

Definition option_all {A} (P : A -> Prop) (o : option A) : Prop :=
  match o with Some x => P x | None => True end.

(** The fields, whatever the options were. *)
Record fields_ok (a : RunArgs) : Prop := {
  ok_concurrency : in_u64 a.(concurrency);
  ok_requests : option_all in_u64 a.(requests);
  ok_duration : option_all duration_ok a.(duration_);
  ok_headers : Forall (fun h => exists k v, h = (trim k, trim v)) a.(headers);
  ok_read_rate : option_all in_u64 a.(read_bytes_per_sec);
  ok_write_rate : option_all (fun r => 0 < r <= u64_max) a.(write_bytes_per_sec);
  ok_stop : option_all duration_ok a.(stop_read_after);
  ok_hold : duration_ok a.(hold_after_stop);
  ok_timeout : duration_ok a.(timeout);
}.

(** What the runner is given. *)
Record run_valid (a : RunArgs) : Prop := {
  valid_fields : fields_ok a;
  valid_url : a.(url) <> "";
  valid_concurrency : 0 < a.(concurrency);
  valid_end : (exists n, a.(requests) = Some n /\ 0 < n /\ a.(duration_) = None) \/
              (exists d, a.(duration_) = Some d /\ a.(requests) = None);
}.

Lemma duration_ok_valid d : duration_ok d -> Dur.valid d.
Proof. unfold duration_ok, in_u64, from_millis. intros (n & Hn & [-> | ->]); width_lia. Qed.

Lemma ok_or_ok {E A} (o : option A) (e : E) x : ok_or o e = Ok x <-> o = Some x.
Proof. destruct o; simpl; split; congruence. Qed.

Lemma number_ok e v n : number e v = Ok n -> in_u64 n.
Proof. unfold number. rewrite ok_or_ok. apply parse_u64_range. Qed.

Lemma fmap_option_some {A B} (f : A -> B) o y : f <$> o = Some y -> exists x, o = Some x /\ y = f x.
Proof. destruct o as [x |]; [intros [= <-]; eauto | done]. Qed.

Lemma duration_ok_of s d : duration s = Ok d -> duration_ok d.
Proof.
  unfold duration. repeat case_match; rewrite ok_or_ok;
    intros (n & Hn%parse_u64_range & ->)%fmap_option_some; exists n; auto.
Qed.

(** ** The loop *)

(** An arm keeps what all its assignments keep. *)
Definition arm_keeps {A} (P : A -> Prop) (m : Arm A) : Prop :=
  match m with
  | Flag set => forall a, P a -> P (set a)
  | Valued _ set => forall v a a', P a -> set v a = Ok a' -> P a'
  | Unknown _ => True
  end.

Lemma option_loop_inv {A} (P : A -> Prop) (arm : string -> Arm A) :
  (forall name, arm_keeps P (arm name)) ->
  forall args a a', P a -> option_loop arm args a = Ok a' -> P a'.
Proof.
  intros Harm args. remember (length args) as n eqn:Hn. revert args Hn.
  induction (lt_wf n) as [n _ IH]. intros [| name rest] -> a a' Ha Hrun; simpl in Hrun.
  { by injection Hrun as <-. }
  specialize (Harm name). destruct (arm name) as [set | flag set | e]; [| | done].
  - by eapply (IH (length rest)); [simpl; lia | | apply Harm | exact Hrun].
  - destruct rest as [| v rest]; [done |]. destruct (set v a) as [b |] eqn:Hset; [| done].
    eapply (IH (length rest)); [simpl; lia | done | | exact Hrun]. by eapply Harm.
Qed.

(** The same for an arm that parses its value. *)
Lemma parsed_keeps {A B} (P : A -> Prop) (Q : B -> Prop) flag (parse : string -> result string B) set :
  (forall v b, parse v = Ok b -> Q b) -> (forall b a, Q b -> P a -> P (set b a)) ->
  arm_keeps P (Valued flag (parsed parse set)).
Proof.
  intros Hparse Hset v a a' Ha. unfold parsed. destruct (parse v) as [b |] eqn:Hv; [| done].
  intros [= <-]. apply Hset; [by eapply Hparse | done].
Qed.

Lemma write_rate_ok v r : write_rate_of v = Ok r -> 0 < r <= u64_max.
Proof.
  unfold write_rate_of. rewrite result_bind_ok. intros (n & Hn%number_ok & Hr).
  unfold in_u64 in Hn. destruct (Z.eqb_spec n 0); [done |]. injection Hr as <-. lia.
Qed.

Lemma header_of_ok h kv : header_of h = Ok kv -> exists k v, kv = (trim k, trim v).
Proof. unfold header_of. destruct (split_once ":" h) as [[k v] |]; [intros [= <-]; eauto | done]. Qed.

Lemma run_arm_keeps read_file name : arm_keeps fields_ok (run_arm read_file name).
Proof.
  unfold run_arm. repeat case_match; try (intros a []; by constructor); try exact I;
    (apply (parsed_keeps _ (fun _ => True)); [done | intros b a _ []; by constructor])
    || (apply (parsed_keeps _ in_u64); [apply number_ok | intros b a Hb []; by constructor])
    || (apply (parsed_keeps _ duration_ok); [apply duration_ok_of | intros b a Hb []; by constructor])
    || (apply (parsed_keeps _ (fun r => 0 < r <= u64_max)); [apply write_rate_ok | intros b a Hb []; by constructor])
    || idtac.
  apply (parsed_keeps _ (fun h => exists k v, h = (trim k, trim v))); [apply header_of_ok |].
  intros b a Hb []. constructor; try done. apply Forall_app. auto.
Qed.

Lemma run_default_ok : fields_ok run_default.
Proof.
  assert (forall n, in_u64 n -> duration_ok (Dur.from_secs n)) as Hd by (unfold duration_ok; eauto).
  by constructor; try done; try (apply Hd).
Qed.

Lemma check_run_ok a b : check_run a = Ok b -> fields_ok a -> b = a /\ run_valid a.
Proof.
  unfold check_run. rewrite !result_bind_ok. setoid_rewrite bail_if_ok.
  intros ([] & Hurl & Hr) Hok. repeat (apply result_bind_ok in Hr as ([] & ?%bail_if_ok & Hr)).
  injection Hr as <-. split; [done |]. bool_to_prop.
  pose proof (ok_concurrency _ Hok) as Hc. pose proof (ok_requests _ Hok) as Hreq. unfold in_u64 in *.
  constructor; [done | | lia |].
  - by apply String.eqb_neq.
  - destruct (requests a) as [n |] eqn:Hn, (duration_ a) as [d |] eqn:Hd; simpl in *.
    + done.
    + left. exists n. split; [done |]. split; [| done].
      assert (n <> 0) by congruence. lia.
    + right. eauto.
    + done.
Qed.

(** C38. The runner gets arguments inside its bounds.  Whatever the command line,
    when it names a run then the URL is not empty, the concurrency and the
    number of requests are positive and fit in 64 bits, exactly one of a
    number of requests and a duration is given, a write rate is positive, and
    every duration fits in a [Duration]. *)
Theorem run_args_valid read_file (args : list string) (a : RunArgs) :
  parse_from read_file args = Ok (Run a) -> run_valid a.
Proof.
  unfold parse_from. destruct args as [| w rest]; [done |].
  destruct (String.eqb w "--help" || String.eqb w "-h"); [done |].
  destruct (String.eqb w "run").
  - destruct (parse_run read_file rest) as [b |] eqn:Hrun; [| done]. intros [= ->].
    unfold parse_run in Hrun. apply result_bind_ok in Hrun as (out & Hloop & Hcheck).
    apply (option_loop_inv fields_ok) in Hloop; [| apply run_arm_keeps | apply run_default_ok].
    by destruct (check_run_ok _ _ Hcheck Hloop) as [-> ?].
  - destruct (String.eqb w "slowloris"); [| done]. by destruct (parse_slow rest).
Qed.

(** ** Round trip *)

Lemma strip_suffix_app s p : strip_suffix (s +:+ p) p = Some s.
Proof.
  unfold strip_suffix, ends_with. rewrite as_bytes_app, (proj2 (bytes_ends_with_iff _ _)) by eauto.
  f_equal. rewrite <- !length_as_bytes, as_bytes_app, length_app, Nat.add_sub, take_app_length.
  apply of_as_bytes.
Qed.

Lemma duration_show_ms d : (exists n, in_u64 n /\ d = from_millis n) -> duration (show_ms d) = Ok d.
Proof.
  intros (n & Hn & ->). unfold duration, show_ms. rewrite strip_suffix_app.
  unfold from_millis at 2. rewrite Z.div_mul by lia. by rewrite parse_u64_to_string.
Qed.

Lemma split_once_colon k v : ":"%char ∉ as_bytes k -> split_once ":" (k +:+ String ":" v) = Some (k, v).
Proof.
  intros Hk. unfold split_once. rewrite as_bytes_app. simpl.
  assert (bytes_split_once ":" (as_bytes k ++ ":"%char :: as_bytes v) = Some (as_bytes k, as_bytes v)) as ->.
  - induction (as_bytes k) as [| b l IH]; [done |]. apply not_elem_of_cons in Hk as [Hb Hl]. simpl.
    destruct (Ascii.eqb_spec b ":"); [congruence |]. by rewrite IH.
  - by rewrite !of_as_bytes.
Qed.

(** Arguments that can be written on a command line: durations in whole
    milliseconds, header names without a colon, names and values trimmed. *)
Definition whole_ms (d : Duration) : Prop := exists n, in_u64 n /\ d = from_millis n.
Record printable (a : RunArgs) : Prop := {
  pr_duration : option_all whole_ms a.(duration_);
  pr_stop : option_all whole_ms a.(stop_read_after);
  pr_hold : whole_ms a.(hold_after_stop);
  pr_timeout : whole_ms a.(timeout);
  pr_headers : Forall (fun h : string * string => (":"%char ∉ as_bytes h.1) /\ trim h.1 = h.1 /\ trim h.2 = h.2) a.(headers);
}.

Section RoundTrip.
Context (read_file : string -> result string bytes).
Abbreviation loop := (option_loop (run_arm read_file)).

(** One word at a time, the rest of the loop being [r]. *)
Lemma loop_valued flag name set v rest out out' r :
  run_arm read_file flag = Valued name set -> set v out = Ok out' ->
  loop rest out' = r -> loop (flag :: v :: rest) out = r.
Proof. intros Harm Hset <-. cbn [option_loop]. by rewrite Harm, Hset. Qed.

Lemma loop_flag flag (get : RunArgs -> bool) (put : bool -> RunArgs -> RunArgs) b rest out r :
  run_arm read_file flag = Flag (put true) ->
  (forall a, get a = false -> put false a = a) -> get out = false ->
  loop rest (put b out) = r -> loop (flag_words flag b ++ rest) out = r.
Proof.
  intros Harm Hput Hout <-. destruct b; cbn [flag_words app option_loop]; [by rewrite Harm |].
  by rewrite Hput.
Qed.

Lemma loop_headers hs rest out :
  Forall (fun h : string * string => (":"%char ∉ as_bytes h.1) /\ trim h.1 = h.1 /\ trim h.2 = h.2) hs ->
  loop (concat ((fun h => ["-H"; show_header h]) <$> hs) ++ rest) out =
  loop rest (set_headers (out.(headers) ++ hs) out).
Proof.
  intros Hhs. revert out. induction Hhs as [| [k v] hs (Hk & Htk & Htv) Hhs IH]; intros out.
  { cbn. rewrite app_nil_r. by destruct out. }
  cbn [fmap list_fmap concat app]. simpl fst in *. simpl snd in *.
  eapply (loop_valued _ _ _ _ _ _ (set_headers (out.(headers) ++ [(k, v)]) out)); [reflexivity | |].
  - unfold parsed, header_of, show_header. simpl fst. simpl snd.
    rewrite split_once_colon by done. cbn. by rewrite Htk, Htv.
  - rewrite IH. cbn [headers set_headers]. by rewrite <- app_assoc.
Qed.

(** The options with a number or a duration. *)
Lemma set_number e (f : Z -> RunArgs -> RunArgs) n out :
  in_u64 n -> parsed (number e) f (u64_to_string n) out = Ok (f n out).
Proof. intros Hn. unfold parsed, number. by rewrite parse_u64_to_string. Qed.

Lemma set_duration_ms (f : Duration -> RunArgs -> RunArgs) d out :
  whole_ms d -> parsed duration f (show_ms d) out = Ok (f d out).
Proof. intros Hd. unfold parsed. by rewrite duration_show_ms. Qed.

Lemma set_write_rate (f : Z -> RunArgs -> RunArgs) n out :
  0 < n <= u64_max -> parsed write_rate_of f (u64_to_string n) out = Ok (f n out).
Proof.
  intros Hr. unfold parsed, write_rate_of, number. rewrite parse_u64_to_string by lia. cbn.
  destruct (Z.eqb_spec n 0); [lia | done].
Qed.

(** An optional word, its field [get] and its assignment [put]. *)
Lemma loop_opt {A} (P : A -> Prop) flag name (parse : string -> result string A)
    (f : A -> RunArgs -> RunArgs) (show : A -> string) (get : RunArgs -> option A) put o rest out r :
  run_arm read_file flag = Valued name (parsed parse f) ->
  (forall v out, P v -> parsed parse f (show v) out = Ok (f v out)) -> f = (fun v => put (Some v)) ->
  (forall a, get a = None -> put None a = a) ->
  option_all P o -> get out = None ->
  loop rest (put o out) = r -> loop (opt_words flag show o ++ rest) out = r.
Proof.
  intros Harm Hset -> Hput Ho Hout Hr. destruct o as [v |]; simpl opt_words; cbn [app].
  - by eapply loop_valued; [exact Harm | apply Hset |].
  - by rewrite Hput in Hr.
Qed.

(** Setting a field to what it is. *)
Local Ltac unset := intros []; simpl; by intros ->.

(** Word by word, what was printed is read back. *)
Lemma loop_print_run a :
  run_valid a -> printable a -> loop (tail (print_run a)) run_default = Ok a.
Proof.
  intros [[] _ _ _] []. unfold print_run. cbn [tail app].
  eapply loop_valued; [reflexivity.. |].
  eapply (loop_valued _ _ _ _ _ _ (set_protocol a.(protocol) _)); [reflexivity | by destruct (protocol a) |].
  eapply loop_valued; [reflexivity | by apply set_number |].
  eapply (loop_opt in_u64 _ _ _ _ _ requests set_requests);
    [reflexivity | intros v out; apply set_number | reflexivity | unset | done | reflexivity |].
  eapply (loop_opt whole_ms _ _ _ _ _ duration_ set_duration);
    [reflexivity | intros v out; apply set_duration_ms | reflexivity | unset | done | reflexivity |].
  eapply loop_valued; [reflexivity.. |].
  rewrite loop_headers by done. cbn [app].
  eapply loop_valued; [reflexivity.. |]. rewrite as_of_bytes.
  eapply (loop_valued _ _ _ _ _ _ (set_mode a.(mode) _)); [reflexivity | by destruct (mode a) |].
  eapply (loop_opt (fun _ => True) _ _ _ _ _ ca set_ca); [reflexivity | done | reflexivity | unset | by destruct (ca a) | reflexivity |].
  eapply (loop_flag _ insecure set_insecure); [reflexivity | unset | reflexivity |].
  eapply (loop_opt in_u64 _ _ _ _ _ read_bytes_per_sec set_read_bytes_per_sec);
    [reflexivity | intros v out; apply set_number | reflexivity | unset | done | reflexivity |].
  eapply (loop_opt (fun r => 0 < r <= u64_max) _ _ _ _ _ write_bytes_per_sec set_write_bytes_per_sec);
    [reflexivity | intros v out; apply set_write_rate | reflexivity | unset | done | reflexivity |].
  eapply (loop_opt whole_ms _ _ _ _ _ stop_read_after set_stop_read_after);
    [reflexivity | intros v out; apply set_duration_ms | reflexivity | unset | done | reflexivity |].
  eapply loop_valued; [reflexivity | by apply set_duration_ms |].
  eapply loop_valued; [reflexivity | by apply set_duration_ms |].
  eapply (loop_flag _ jsonl set_jsonl); [reflexivity | unset | reflexivity |].
  rewrite <- (app_nil_r (flag_words "--no-keepalive" _)).
  eapply (loop_flag _ no_keepalive set_no_keepalive); [reflexivity | unset | reflexivity |].
  by destruct a.
Qed.

Lemma check_run_valid a : run_valid a -> check_run a = Ok a.
Proof.
  intros [_ Hurl Hc Hend]. unfold check_run.
  assert (str_is_empty (url a) = false) as -> by (by apply String.eqb_neq).
  destruct (Z.eqb_spec (concurrency a) 0) as [| _]; [lia |].
  destruct Hend as [(n & -> & Hn & ->) | (d & -> & ->)]; [| done].
  rewrite (bool_decide_eq_false_2 (Some n = Some 0)) by (intros [= ->]; lia). done.
Qed.

(** C37. Every run can be asked for on the command line, and is understood as
    meant.  For any valid arguments of a run whose durations are whole
    milliseconds and whose header names hold no colon, the words [print_run]
    writes parse to exactly these arguments, every field included. *)
Theorem run_args_roundtrip (a : RunArgs) :
  run_valid a -> printable a -> parse_from read_file (print_run a) = Ok (Run a).
Proof.
  intros Hvalid Hprint. change (print_run a) with ("run" :: tail (print_run a)).
  assert (parse_run read_file (tail (print_run a)) = Ok a) as Hrun.
  { unfold parse_run. rewrite loop_print_run by done. by apply check_run_valid. }
  generalize dependent (tail (print_run a)). intros words Hrun. cbn. by rewrite Hrun.
Qed.
End RoundTrip.

Definition sample_run : RunArgs :=
  set_headers [("authorization", "Bearer test-only")]
    (set_mode Sse (set_concurrency 2 (set_requests (Some 10) (set_url "http://127.0.0.1:18444" run_default)))).

Lemma run_args_roundtrip_witness : parse_from (fun _ => Err "no files") (print_run sample_run) = Ok (Run sample_run).
Proof.
  apply run_args_roundtrip.
  - constructor; [| done | reflexivity | left; by exists 10].
    constructor; try done; try (exists 60; by split; [done | right]); try (exists 120; by split; [done | right]).
    repeat constructor. by exists "authorization", "Bearer test-only".
  - constructor; try done.
    + by exists 60000.
    + by exists 120000.
    + repeat constructor. by apply (bool_decide_unpack _).
Defined.

Lemma run_args_valid_witness : run_valid sample_run.
Proof. apply (run_args_valid (fun _ => Err "no files") (print_run sample_run)). reflexivity. Defined.
