(* ===== verification/LoadRunner.v ===== *)
(** * The load generator's requests (tools/loadtest/loadgen/src/runner.rs)

    One request ([one]) as a function of the arguments, the times at which the
    network answers and what it answers; the paced request body; and the
    workers of [run] as a step relation on their shared counters.  The HTTP
    client, the JSON parser and the conversions of a [Duration] from and to
    [f64] are parameters. *)
From S2P Require Export LoadSse LoadStats LoadCli.

(** ** One request *)

(** A [reqwest::Error], by what the code asks of it. *)
Record ReqError := { is_timeout : bool; is_connect : bool; is_body : bool; text : string }.

(** [classify_reqwest] *)
Definition classify_reqwest (e : ReqError) : string :=
  if e.(is_timeout) then "timeout"
  else if e.(is_connect) then "connect"
  else if e.(is_body) then "body"
  else "request:" +:+ e.(text).

(** A response body: chunks with the instants they are ready at, then its end
    or an error. *)
Inductive ResponseBody :=
| Chunk (ready : Instant) (chunk : bytes) (rest : ResponseBody)
| End (ready : Instant)
| Failed (ready : Instant) (e : ReqError).

(** What the outside does to one request. *)
Record Io := {
  begin : Instant;
  invalid_method : option string;
  sent : result ReqError (Instant * Z * option string * ResponseBody);
  failed_at : Instant;
}.

Definition request_name (id : Z) : string := "loadgen-" +:+ u64_to_string id.

(** The record before anything happened. *)
Definition new_record (id : Z) : RequestRecord :=
  {| request_id := request_name id; status := None; retry_after := None; ttfb_ms := None;
     first_event_ms := None; completion_ms := 0; response_bytes := 0; sse_events := 0;
     saw_done := false; outcome := "error"; LoadStats.error := None |}.

Section Runner.
(** [d.as_secs_f64() * 1000.0] and [Duration::from_secs_f64(n as f64 / rate as f64)] *)
Context (ms : Duration -> f64) (due : Z -> Z -> Duration).
(** the error of [serde_json::from_slice::<Value>], if any *)
Context (json_error : bytes -> option string).

(** Assignments to the record. *)
Definition with_error (e : string) (r : RequestRecord) : RequestRecord :=
  {| request_id := r.(request_id); status := r.(status); retry_after := r.(retry_after);
     ttfb_ms := r.(ttfb_ms); first_event_ms := r.(first_event_ms); completion_ms := r.(completion_ms);
     response_bytes := r.(response_bytes); sse_events := r.(sse_events); saw_done := r.(saw_done);
     outcome := r.(outcome); LoadStats.error := Some e |}.
Definition with_outcome (o : string) (r : RequestRecord) : RequestRecord :=
  {| request_id := r.(request_id); status := r.(status); retry_after := r.(retry_after);
     ttfb_ms := r.(ttfb_ms); first_event_ms := r.(first_event_ms); completion_ms := r.(completion_ms);
     response_bytes := r.(response_bytes); sse_events := r.(sse_events); saw_done := r.(saw_done);
     outcome := o; LoadStats.error := r.(LoadStats.error) |}.
Definition with_answer (at_ : f64) (code : Z) (retry : option string) (r : RequestRecord) : RequestRecord :=
  {| request_id := r.(request_id); status := Some code; retry_after := retry; ttfb_ms := Some at_;
     first_event_ms := r.(first_event_ms); completion_ms := r.(completion_ms);
     response_bytes := r.(response_bytes); sse_events := r.(sse_events); saw_done := r.(saw_done);
     outcome := r.(outcome); LoadStats.error := r.(LoadStats.error) |}.
Definition add_bytes (n : Z) (r : RequestRecord) : RequestRecord :=
  {| request_id := r.(request_id); status := r.(status); retry_after := r.(retry_after);
     ttfb_ms := r.(ttfb_ms); first_event_ms := r.(first_event_ms); completion_ms := r.(completion_ms);
     response_bytes := wrap64 (r.(response_bytes) + n); sse_events := r.(sse_events);
     saw_done := r.(saw_done); outcome := r.(outcome); LoadStats.error := r.(LoadStats.error) |}.

(** One event; [first] is the time to note when there was none before. *)
Definition add_event (first : option f64) (r : RequestRecord) (e : Event) : RequestRecord :=
  {| request_id := r.(request_id); status := r.(status); retry_after := r.(retry_after);
     ttfb_ms := r.(ttfb_ms);
     first_event_ms := match r.(first_event_ms) with Some t => Some t | None => first end;
     completion_ms := r.(completion_ms); response_bytes := r.(response_bytes);
     sse_events := wrap64 (r.(sse_events) + 1);
     saw_done := r.(saw_done) || String.eqb (trim e.(data)) "[DONE]";
     outcome := r.(outcome); LoadStats.error := r.(LoadStats.error) |}.

(** [finish] *)
Definition finish_record (start now : Instant) (r : RequestRecord) : RequestRecord :=
  {| request_id := r.(request_id); status := r.(status); retry_after := r.(retry_after);
     ttfb_ms := r.(ttfb_ms); first_event_ms := r.(first_event_ms);
     completion_ms := ms (Inst.saturating_duration_since now start);
     response_bytes := r.(response_bytes); sse_events := r.(sse_events); saw_done := r.(saw_done);
     outcome := r.(outcome); LoadStats.error := r.(LoadStats.error) |}.

(** The state of the read loop. *)
Record Reading := {
  rec : RequestRecord;
  decoder : Decoder;
  json : bytes;
  read_bytes : Z;
}.

(** The wait for the next chunk that is ready at [ready]: the time at which it
    is read, or the time at which reading stops.  A chunk ready at the very
    instant the sleep ends may lose the race of [select!]; here it wins. *)
Definition next_chunk_at (args : RunArgs) (read_started now ready : Instant) : result Instant Instant :=
  match args.(stop_read_after) with
  | None => Ok (Z.max now ready)
  | Some stop_after =>
      let remaining := Z.max 0 (stop_after - Inst.saturating_duration_since now read_started) in
      if Dur.is_zero remaining then Err now
      else if ready <=? now + remaining then Ok (Z.max now ready)
      else Err (now + remaining)
  end.

(** A chunk that was read at [now]: the state after it, or a decoding error. *)
Definition take_chunk (args : RunArgs) (start now : Instant) (chunk : bytes) (s : Reading)
  : result RequestRecord Reading :=
  let r := add_bytes (blen chunk) s.(rec) in
  let n := wrap64 (s.(read_bytes) + blen chunk) in
  match args.(mode) with
  | Json => Ok {| rec := r; decoder := s.(decoder); json := s.(json) ++ chunk; read_bytes := n |}
  | Sse =>
      match push s.(decoder) chunk with
      | (Ok events, d) =>
          Ok {| rec := foldl (add_event (Some (ms (Inst.saturating_duration_since now start)))) r events;
                decoder := d; json := s.(json); read_bytes := n |}
      | (Err e, _) => Err (with_error ("sse_parse:" +:+ e) r)
      end
  end.

(** The sleep of a paced reader. *)
Definition after_pace (args : RunArgs) (read_started now : Instant) (n : Z) : Instant :=
  match args.(read_bytes_per_sec) with
  | Some rate => if 0 <? rate then Z.max now (read_started + due n rate) else now
  | None => now
  end.

(** After the end of the body. *)
Definition conclude (args : RunArgs) (s : Reading) : RequestRecord :=
  let r :=
    match args.(mode) with
    | Sse =>
        match finish s.(decoder) with
        | (Ok events, _) => foldl (add_event None) s.(rec) events
        | (Err e, _) => with_error ("sse_parse:" +:+ e) s.(rec)
        end
    | Json =>
        match json_error s.(json) with
        | Some e => with_error ("json_parse:" +:+ e) s.(rec)
        | None => s.(rec)
        end
    end in
  match r.(LoadStats.error) with None => with_outcome "completed" r | Some _ => r end.

(** The read loop: the record and the time at the end. *)
Fixpoint read_loop (args : RunArgs) (start read_started now : Instant) (body : ResponseBody)
    (s : Reading) : RequestRecord * Instant :=
  let ready := match body with Chunk t _ _ | End t | Failed t _ => t end in
  match next_chunk_at args read_started now ready with
  | Err stopped => (with_outcome "stopped_reading" s.(rec), stopped + args.(hold_after_stop))
  | Ok now =>
      match body with
      | Chunk _ chunk rest =>
          match take_chunk args start now chunk s with
          | Ok s' => read_loop args start read_started (after_pace args read_started now s'.(read_bytes)) rest s'
          | Err r => (r, now)
          end
      | End _ => (conclude args s, now)
      | Failed _ e => (with_error (classify_reqwest e) s.(rec), now)
      end
  end.

Definition one (args : RunArgs) (id : Z) (io : Io) : RequestRecord :=
  let r := new_record id in
  match io.(invalid_method) with
  | Some e => finish_record io.(begin) io.(begin) (with_error ("invalid_method:" +:+ e) r)
  | None =>
      match io.(sent) with
      | Err e => finish_record io.(begin) io.(failed_at) (with_error (classify_reqwest e) r)
      | Ok (t, code, retry, body) =>
          let r := with_answer (ms (Inst.saturating_duration_since t io.(begin))) code retry r in
          let s := {| rec := r; decoder := decoder_default; json := []; read_bytes := 0 |} in
          let '(r, now) := read_loop args io.(begin) t t body s in
          finish_record io.(begin) now r
      end
  end.

(** ** The paced request body *)

Definition CHUNK : nat := Z.to_nat (64 * 1024).

(** The stream of [paced_request_body]: the chunks with the instants they are
    handed over at; [waits] is how long the client takes between two polls.
    Every chunk takes at least a byte, so the length of the body is enough
    fuel. *)
Fixpoint paced_loop (fuel : nat) (started now : Instant) (rate : Z) (waits : list Duration)
    (body : bytes) (offset : nat) : list (Instant * bytes) :=
  match fuel with
  | O => []
  | S fuel' =>
      if (length body <=? offset)%nat then []
      else
        let end_ := Nat.min (offset + CHUNK) (length body) in
        let now := Z.max now (started + due (Z.of_nat end_) rate) in
        (now, take (end_ - offset) (drop offset body))
          :: paced_loop fuel' started (now + default 0 (head waits)) rate (tail waits) body end_
  end.

Definition paced_request_body (body : bytes) (rate : Z) (started : Instant) (waits : list Duration)
  : list (Instant * bytes) :=
  paced_loop (length body) started started rate waits body 0.

(** ** What a record says about its request *)

(** A body that arrives completely. *)
Fixpoint body_of (chunks : list (Instant * bytes)) (end_ : Instant) : ResponseBody :=
  match chunks with
  | [] => End end_
  | (t, c) :: rest => Chunk t c (body_of rest end_)
  end.

(** What the whole stream is worth in the mode of the run: its events, or the
    error class of the record. *)
Definition verdict (args : RunArgs) (stream : bytes) : result string (list Event) :=
  match args.(mode) with
  | Sse => map_err (fun e => "sse_parse:" +:+ e) (LoadSse.decode (stream ++ [LF; LF]))
  | Json => match json_error stream with Some e => Err ("json_parse:" +:+ e) | None => Ok [] end
  end.

Definition is_done (e : Event) : bool := String.eqb (trim e.(data)) "[DONE]".

(** What the rest of a body adds to a record. *)
Definition tells (r : RequestRecord) (v : result string (list Event)) (n : Z) (out : RequestRecord) : Prop :=
  out.(request_id) = r.(request_id) /\ out.(status) = r.(status) /\
  out.(retry_after) = r.(retry_after) /\ out.(ttfb_ms) = r.(ttfb_ms) /\
  match v with
  | Ok events =>
      out.(outcome) = "completed" /\ out.(LoadStats.error) = None /\
      out.(response_bytes) = wrap64 (r.(response_bytes) + n) /\
      out.(sse_events) = wrap64 (r.(sse_events) + Z.of_nat (length events)) /\
      out.(saw_done) = r.(saw_done) || existsb is_done events
  | Err e => out.(outcome) = r.(outcome) /\ out.(LoadStats.error) = Some e
  end.

Lemma add_events_spec first events r :
  0 <= r.(sse_events) <= u64_max ->
  let out := foldl (add_event first) r events in
  out.(request_id) = r.(request_id) /\ out.(status) = r.(status) /\
  out.(retry_after) = r.(retry_after) /\ out.(ttfb_ms) = r.(ttfb_ms) /\
  out.(outcome) = r.(outcome) /\ out.(LoadStats.error) = r.(LoadStats.error) /\
  out.(response_bytes) = r.(response_bytes) /\
  out.(sse_events) = wrap64 (r.(sse_events) + Z.of_nat (length events)) /\
  out.(saw_done) = r.(saw_done) || existsb is_done events.
Proof.
  revert r; induction events as [| e events IH]; intros r Hr out.
  - unfold out. simpl. rewrite Z.add_0_r, wrap64_small, orb_false_r by done. done.
  - unfold out. cbn [foldl]. destruct (IH (add_event first r e) (wrap64_range _))
      as (H1 & H2 & H3 & H4 & H5 & H6 & H7 & H8 & H9).
    repeat (split; [done |]). rewrite H8, H9. cbn [sse_events saw_done add_event existsb length].
    rewrite wrap64_add, orb_assoc. split; [f_equal; lia | done].
Qed.

(** The state of the loop: counters in range, no error yet, a clean decoder. *)
Definition reading_ok (s : Reading) : Prop :=
  0 <= s.(rec).(sse_events) <= u64_max /\ 0 <= s.(rec).(response_bytes) <= u64_max /\
  s.(rec).(LoadStats.error) = None /\ decoder_wf s.(decoder).

(** The verdict on what is still to come. *)
Definition verdict_from (args : RunArgs) (s : Reading) (stream : bytes) : result string (list Event) :=
  match args.(mode) with
  | Sse => map_err (fun e => "sse_parse:" +:+ e)
             (fst <$> run_lines s.(decoder).(lines_of_event) (complete (s.(decoder).(buffer) ++ stream ++ [LF; LF])))
  | Json => match json_error (s.(json) ++ stream) with Some e => Err ("json_parse:" +:+ e) | None => Ok [] end
  end.

Lemma conclude_spec args s :
  reading_ok s -> tells s.(rec) (verdict_from args s []) 0 (conclude args s).
Proof.
  intros (Hev & Hby & Herr & Hwf). unfold verdict_from, conclude, tells. destruct (mode args).
  - rewrite app_nil_r. destruct (json_error (json s)) as [e |]; cbn; [done |].
    rewrite Herr. cbn. rewrite !Z.add_0_r, !wrap64_small, orb_false_r by done. done.
  - pose proof (push_spec (decoder s) [LF; LF]) as Hpush. unfold finish.
    change ([] ++ [LF; LF]) with [LF; LF].
    destruct (run_lines _ _) as [[evs p] | e]; cbn [fmap result_fmap map_err fst].
    + rewrite Hpush. destruct (add_events_spec None evs (rec s) Hev)
        as (H1 & H2 & H3 & H4 & H5 & H6 & H7 & H8 & H9).
      rewrite H6, Herr. cbn [with_outcome request_id status retry_after ttfb_ms outcome LoadStats.error
        response_bytes sse_events saw_done].
      rewrite Z.add_0_r, (wrap64_small (response_bytes (rec s))) by done. rewrite H6. done.
    + destruct (push _ _) as [r d]; simpl in Hpush; subst r. done.
Qed.

(** One chunk, then the rest. *)
Lemma take_chunk_spec args start now chunk s :
  reading_ok s ->
  match take_chunk args start now chunk s with
  | Ok s' =>
      reading_ok s' /\
      forall stream n out,
        tells s'.(rec) (verdict_from args s' stream) n out ->
        tells s.(rec) (verdict_from args s (chunk ++ stream)) (blen chunk + n) out
  | Err r => forall stream n, tells s.(rec) (verdict_from args s (chunk ++ stream)) n r
  end.
Proof.
  intros (Hev & Hby & Herr & Hwf). unfold take_chunk, verdict_from. destruct (mode args).
  - split; [exact (conj Hev (conj (wrap64_range _) (conj Herr Hwf))) |]. cbn. intros stream n out. rewrite app_assoc.
    destruct (json_error _); [done |]. unfold tells. cbn.
    rewrite wrap64_add. by rewrite <- Z.add_assoc.
  - pose proof (push_spec (decoder s) chunk) as Hpush.
    pose proof (remainder_notin (buffer (decoder s) ++ chunk)) as Hwf'.
    assert (forall stream, run_lines (lines_of_event (decoder s))
        (complete (buffer (decoder s) ++ (chunk ++ stream) ++ [LF; LF])) =
      match run_lines (lines_of_event (decoder s)) (complete (buffer (decoder s) ++ chunk)) with
      | Ok (evs, p) => (fun r => (evs ++ r.1, r.2)) <$>
          run_lines p (complete (remainder (buffer (decoder s) ++ chunk) ++ stream ++ [LF; LF]))
      | Err e => Err e
      end) as Hsplit.
    { intros stream. rewrite <- app_assoc, app_assoc.
      destruct (complete_app (buffer (decoder s) ++ chunk) (stream ++ [LF; LF])) as [-> _].
      by rewrite run_lines_app. }
    destruct (run_lines _ (complete (buffer (decoder s) ++ chunk))) as [[evs p] | e].
    + rewrite Hpush.
      pose proof (add_events_spec (Some (ms (Inst.saturating_duration_since now start))) evs
        (add_bytes (blen chunk) (rec s)) Hev) as (H1 & H2 & H3 & H4 & H5 & H6 & H7 & H8 & H9).
      split.
      * unfold reading_ok. cbn [rec decoder json]. rewrite H6, H7, H8.
        exact (conj (wrap64_range _) (conj (wrap64_range _) (conj Herr Hwf'))).
      * intros stream n out. rewrite Hsplit. cbn [rec decoder buffer lines_of_event].
        unfold tells. rewrite H1, H2, H3, H4, H5, H7, H8, H9.
        destruct (run_lines p _) as [[more q] | e]; cbn; [| done].
        intros (? & ? & ? & ? & ? & ? & -> & -> & ->). repeat (split; [done |]).
        rewrite !wrap64_add, length_app, existsb_app, orb_assoc.
        split; [f_equal; lia |]. split; [f_equal; lia | done].
    + destruct (push _ _) as [r d]; simpl in Hpush; subst r. intros stream n. by rewrite Hsplit.
Qed.

Lemma read_loop_spec args start read_started chunks end_ :
  args.(stop_read_after) = None ->
  forall now s, reading_ok s ->
  tells s.(rec) (verdict_from args s (concat (snd <$> chunks))) (blen (concat (snd <$> chunks)))
    (read_loop args start read_started now (body_of chunks end_) s).1.
Proof.
  intros Hstop. induction chunks as [| [t c] chunks IH]; intros now s Hs; cbn [body_of read_loop];
    unfold next_chunk_at; rewrite Hstop; [by apply conclude_spec |].
  pose proof (take_chunk_spec args start (Z.max now t) c s Hs) as Htake.
  cbn [fmap list_fmap concat snd].
  destruct (take_chunk _ _ _ c s) as [s' | r]; [| apply Htake].
  destruct Htake as [Hs' Htells]. unfold blen. rewrite length_app, Nat2Z.inj_add.
  by apply Htells, IH.
Qed.

(** The record of a request whose response arrives.  Whatever the times and
    however the body is cut into chunks, with no limit on the reading the
    record carries the status and [Retry-After] of the answer and the verdict
    on the whole body: in SSE mode the number of events of the body ended by a
    blank line and whether one of them is [[DONE]], in JSON mode whether the
    body parses; it is completed exactly when the body is well formed, and then
    all its bytes are counted; otherwise it keeps the outcome [error] with the
    class of the defect. *)
Theorem one_reports_the_body (args : RunArgs) (id : Z) (io : Io) (t : Instant) (code : Z)
    (retry : option string) (chunks : list (Instant * bytes)) (end_ : Instant) :
  args.(stop_read_after) = None -> io.(invalid_method) = None ->
  io.(sent) = Ok (t, code, retry, body_of chunks end_) ->
  let stream := concat (snd <$> chunks) in
  let r := one args id io in
  r.(request_id) = request_name id /\ r.(status) = Some code /\ r.(retry_after) = retry /\
  match verdict args stream with
  | Ok events =>
      r.(outcome) = "completed" /\ r.(LoadStats.error) = None /\
      r.(response_bytes) = wrap64 (blen stream) /\
      r.(sse_events) = wrap64 (Z.of_nat (length events)) /\
      r.(saw_done) = existsb is_done events
  | Err e => r.(outcome) = "error" /\ r.(LoadStats.error) = Some e
  end.
Proof.
  intros Hstop Hmethod Hsent stream r. unfold r, one. rewrite Hmethod, Hsent. clear r.
  set (r0 := with_answer _ code retry (new_record id)).
  set (s := {| rec := r0; decoder := decoder_default; json := []; read_bytes := 0 |}).
  assert (reading_ok s) as Hs.
  { repeat split; try done. by apply not_elem_of_nil. }
  pose proof (read_loop_spec args (begin io) t chunks end_ Hstop t s Hs) as Htells.
  destruct (read_loop _ _ _ _ _ s) as [out now]. cbn [fst] in Htells.
  destruct Htells as (H1 & H2 & H3 & _ & H5). cbn [finish_record request_id status retry_after outcome
    LoadStats.error response_bytes sse_events saw_done].
  rewrite H1, H2, H3. repeat (split; [done |]).
  change (verdict_from args s (concat (snd <$> chunks))) with (verdict args stream) in H5.
  destruct (verdict args stream); exact H5.
Qed.

(** Every record is about its request, has one of three outcomes, and is
    completed exactly when it names no error and reading was not stopped. *)
Definition outcome_ok (args : RunArgs) (r : RequestRecord) : Prop :=
  (r.(outcome) = "completed" /\ r.(LoadStats.error) = None) \/
  (r.(outcome) = "stopped_reading" /\ r.(LoadStats.error) = None /\ args.(stop_read_after) <> None) \/
  (r.(outcome) = "error" /\ r.(LoadStats.error) <> None).

(** A record in the making. *)
Definition unfinished (id : Z) (r : RequestRecord) : Prop :=
  r.(request_id) = request_name id /\ r.(outcome) = "error" /\ r.(LoadStats.error) = None.

Lemma add_events_unfinished id first events r :
  unfinished id r -> unfinished id (foldl (add_event first) r events).
Proof. revert r; induction events as [| e events IH]; intros r Hr; [done |]. by apply IH. Qed.

Lemma take_chunk_unfinished args start now chunk s id :
  unfinished id s.(rec) ->
  match take_chunk args start now chunk s with
  | Ok s' => unfinished id s'.(rec)
  | Err r => r.(request_id) = request_name id /\ outcome_ok args r
  end.
Proof.
  intros (Hid & Hout & Herr). unfold take_chunk. destruct (mode args); [done |].
  destruct (push (decoder s) chunk) as [[evs | e] d].
  - by apply add_events_unfinished.
  - split; [done |]. right. right. by split.
Qed.

Lemma conclude_outcome args s id :
  unfinished id s.(rec) -> (conclude args s).(request_id) = request_name id /\ outcome_ok args (conclude args s).
Proof.
  intros Hs. unfold conclude.
  assert (forall r, r.(request_id) = request_name id ->
    (r.(LoadStats.error) <> None -> r.(outcome) = "error") ->
    let r' := match r.(LoadStats.error) with None => with_outcome "completed" r | Some _ => r end in
    r'.(request_id) = request_name id /\ outcome_ok args r') as Hend.
  { intros r Hid Hout. destruct (LoadStats.error r) as [e |] eqn:He; split; try done.
    - right. right. rewrite He. split; [by apply Hout | done].
    - left. by split. }
  destruct Hs as (Hid & Hout & Herr). destruct (mode args).
  - destruct (json_error (json s)); apply Hend; done.
  - destruct (finish (decoder s)) as [[evs | e] d]; apply Hend; try done.
    + by apply (add_events_unfinished id None evs (rec s)).
    + intros _. by apply (add_events_unfinished id None evs (rec s)).
Qed.

Lemma read_loop_outcome args start read_started body : forall now s id,
  unfinished id s.(rec) ->
  (read_loop args start read_started now body s).1.(request_id) = request_name id /\
  outcome_ok args (read_loop args start read_started now body s).1.
Proof.
  assert (forall now ready s id stopped, unfinished id s.(rec) ->
    next_chunk_at args read_started now ready = Err stopped ->
    (with_outcome "stopped_reading" s.(rec)).(request_id) = request_name id /\
    outcome_ok args (with_outcome "stopped_reading" s.(rec))) as Hstopped.
  { intros now ready s id stopped (Hid & _ & Herr). unfold next_chunk_at.
    destruct (stop_read_after args) eqn:Hstop; [| done]. intros _. split; [done |].
    right. left. split; [done |]. split; [done | congruence]. }
  induction body as [t c rest IH | t | t e]; intros now s id Hs; cbn [read_loop];
    (destruct (next_chunk_at _ _ _ _) as [now' | stopped] eqn:Hnext; [| by eapply Hstopped]).
  - pose proof (take_chunk_unfinished args start now' c s id Hs) as Htake.
    destruct (take_chunk _ _ _ c s); [by apply IH | exact Htake].
  - by apply conclude_outcome.
  - destruct Hs as (Hid & Hout & Herr). split; [done |]. right. right. by split.
Qed.

Lemma one_outcome args id io : (one args id io).(request_id) = request_name id /\ outcome_ok args (one args id io).
Proof.
  unfold one. destruct (invalid_method io) as [e |]; [split; [done |]; right; right; by split |].
  destruct (sent io) as [[[[t code] retry] body] | e]; [| split; [done |]; right; right; by split].
  set (s := {| rec := with_answer _ code retry (new_record id); decoder := decoder_default;
               json := []; read_bytes := 0 |}).
  pose proof (read_loop_outcome args (begin io) t body t s id ltac:(done)) as Hloop.
  destruct (read_loop _ _ _ _ _ s) as [r now]. exact Hloop.
Qed.

(** ** The paced body *)

Lemma chunk_pos : (0 < CHUNK)%nat.
Proof. unfold CHUNK. lia. Qed.

Lemma paced_loop_spec started rate body : forall fuel now waits offset,
  (length body - offset <= fuel)%nat -> (offset <= length body)%nat ->
  let out := paced_loop fuel started now rate waits body offset in
  concat (snd <$> out) = drop offset body /\
  Forall (fun c => (0 < length c.2 <= CHUNK)%nat) out /\
  forall i t c, out !! i = Some (t, c) ->
    started + due (Z.of_nat (offset + length (concat (snd <$> take (S i) out)))) rate <= t.
Proof.
  pose proof chunk_pos as Hpos.
  induction fuel as [| fuel IH]; intros now waits offset Hfuel Hoff; cbn [paced_loop].
  { rewrite drop_ge by lia. done. }
  destruct (Nat.leb_spec (length body) offset) as [Hend | Hmore].
  { rewrite drop_ge by lia. done. }
  set (end_ := Nat.min (offset + CHUNK) (length body)).
  assert (offset < end_ <= length body /\ end_ - offset <= CHUNK)%nat as [Hlt Hsize] by lia.
  clearbody end_. set (t0 := Z.max now _).
  destruct (IH (t0 + default 0 (head waits)) (tail waits) end_ ltac:(lia) ltac:(lia)) as (Hcat & Hall & Hdue).
  assert (length (take (end_ - offset) (drop offset body)) = (end_ - offset)%nat) as Hlen.
  { rewrite length_take, length_drop. lia. }
  cbn [fmap list_fmap concat snd]. split; [| split].
  - rewrite Hcat. rewrite <- (take_drop (end_ - offset) (drop offset body)) at 2.
    rewrite drop_drop. do 2 f_equal. lia.
  - constructor; [cbn [snd]; lia | exact Hall].
  - intros [| i] t c Hi.
    + injection Hi as <- <-. cbn [take fmap list_fmap concat snd]. rewrite app_nil_r, Hlen.
      replace (offset + (end_ - offset))%nat with end_ by lia. unfold t0. lia.
    + apply Hdue in Hi. cbn [take fmap list_fmap concat snd]. rewrite length_app, Hlen.
      rewrite Nat.add_assoc. replace (offset + (end_ - offset))%nat with end_ by lia.
      exact Hi.
Qed.

(** A paced request body is the body.  Whatever the client's own delays, the
    chunks handed over concatenate to exactly the configured body, none is
    empty or above 64 KiB, and no chunk is handed over before the instant at
    which the bytes up to its end are due at the configured rate. *)
Theorem paced_body_faithful (body : bytes) (rate : Z) (started : Instant) (waits : list Duration) :
  let out := paced_request_body body rate started waits in
  concat (snd <$> out) = body /\
  Forall (fun c => (0 < length c.2 <= CHUNK)%nat) out /\
  forall i t c, out !! i = Some (t, c) ->
    started + due (Z.of_nat (length (concat (snd <$> take (S i) out)))) rate <= t.
Proof. apply (paced_loop_spec started rate body (length body) started waits 0); lia. Qed.

(** ** The workers *)

(** Where a worker of [run] is: before [barrier.wait()], at it, at the top of
    the loop, after [next.fetch_add], after the check of the number of
    requests, after [active.fetch_add], after [peak.fetch_max], after [one],
    after [active.fetch_sub], after [break]. *)
Inductive Pc :=
| Spawned
| Waiting
| Top
| Claimed (id : Z)
| Entering (id : Z)
| Counted (id now : Z)
| Sending (id : Z)
| Sent (id : Z) (r : RequestRecord)
| Leaving (id : Z) (r : RequestRecord)
| Ended.

Record Shared := {
  arrived : nat;
  next : Z;
  active : Z;
  peak : Z;
  records : list RequestRecord;
}.

(** [args.concurrency.min(args.requests.unwrap_or(args.concurrency))] *)
Definition workers (args : RunArgs) : nat :=
  Z.to_nat (Z.min args.(concurrency) (default args.(concurrency) args.(requests))).

(** The next atomic step of a worker; [None] while the barrier holds it and
    after its end.  [passed]: the deadline has passed; [io]: what its request
    meets. *)
Definition advance (args : RunArgs) (passed : bool) (io : Io) (sh : Shared) (pc : Pc) : option (Shared * Pc) :=
  match pc with
  | Spawned => Some ({| arrived := S sh.(arrived); next := sh.(next); active := sh.(active);
                        peak := sh.(peak); records := sh.(records) |}, Waiting)
  | Waiting => if (Nat.max 1 (workers args) <=? sh.(arrived))%nat then Some (sh, Top) else None
  | Top =>
      if bool_decide (args.(duration_) <> None) && passed then Some (sh, Ended)
      else Some ({| arrived := sh.(arrived); next := wrap64 (sh.(next) + 1); active := sh.(active);
                    peak := sh.(peak); records := sh.(records) |}, Claimed sh.(next))
  | Claimed id =>
      Some (sh, match args.(requests) with
                | Some n => if n <=? id then Ended else Entering id
                | None => Entering id
                end)
  | Entering id =>
      let now := wrap64 (sh.(active) + 1) in
      Some ({| arrived := sh.(arrived); next := sh.(next); active := now;
               peak := sh.(peak); records := sh.(records) |}, Counted id now)
  | Counted id now =>
      Some ({| arrived := sh.(arrived); next := sh.(next); active := sh.(active);
               peak := Z.max sh.(peak) now; records := sh.(records) |}, Sending id)
  | Sending id => Some (sh, Sent id (one args id io))
  | Sent id r =>
      Some ({| arrived := sh.(arrived); next := sh.(next); active := wrap64 (sh.(active) - 1);
               peak := sh.(peak); records := sh.(records) |}, Leaving id r)
  | Leaving id r =>
      Some ({| arrived := sh.(arrived); next := sh.(next); active := sh.(active);
               peak := sh.(peak); records := sh.(records) ++ [r] |}, Top)
  | Ended => None
  end.

(** The workers interleave freely. *)
Inductive run_step (args : RunArgs) : Shared * list Pc -> Shared * list Pc -> Prop :=
| worker_steps sh before pc after passed io sh' pc' :
    advance args passed io sh pc = Some (sh', pc') ->
    run_step args (sh, before ++ pc :: after) (sh', before ++ pc' :: after).

Definition run_start (args : RunArgs) : Shared * list Pc :=
  ({| arrived := 0; next := 0; active := 0; peak := 0; records := [] |}, replicate (workers args) Spawned).

(** How many workers have a request in flight: they are past [active.fetch_add] and
    not yet past [active.fetch_sub]. *)
Definition counts_active (pc : Pc) : Z :=
  match pc with Counted _ _ | Sending _ | Sent _ _ => 1 | _ => 0 end.
Definition in_flight (pcs : list Pc) : Z := sum_of counts_active pcs.

(** A run of [k] steps, and the most requests that were ever in flight. *)
Inductive run_reach (args : RunArgs) : nat -> Z -> Shared * list Pc -> Prop :=
| reach_start : run_reach args 0 0 (run_start args)
| reach_step k high s s' :
    run_reach args k high s -> run_step args s s' ->
    run_reach args (S k) (Z.max high (in_flight s'.2)) s'.

(** The end of [run]: the summary of the records. *)
Definition run_end (elapsed : f64) (sh : Shared) : option (Summary * list RequestRecord) :=
  let started_count := Z.of_nat (length sh.(records)) in
  summary ← summarize sh.(records) elapsed started_count sh.(peak);
  Some (summary, sh.(records)).

(** *** The bound on unfinished requests *)

Definition high_of (pc : Pc) : Z := match pc with Counted _ now => now | _ => 0 end.

Definition spawned (pc : Pc) : nat := match pc with Spawned => 1 | _ => 0 end.

Record active_inv (args : RunArgs) (high : Z) (s : Shared * list Pc) : Prop := {
  inv_length : length s.2 = workers args;
  inv_active : s.1.(active) = sum_of counts_active s.2;
  inv_below : s.1.(active) <= high;
  inv_peak : 0 <= s.1.(peak) <= high;
  inv_high : Forall (fun pc => 0 <= high_of pc <= high) s.2;
  inv_exact : s.1.(peak) = high \/ Exists (fun pc => high_of pc = high) s.2;
  inv_bound : 0 <= high <= Z.of_nat (workers args);
  inv_arrived : (s.1.(arrived) + sum_list_with spawned s.2 = workers args)%nat;
}.

Lemma counts_active_range pcs : 0 <= sum_of counts_active pcs <= Z.of_nat (length pcs).
Proof. induction pcs as [| pc pcs IH]; [simpl; lia |]. destruct pc; simpl in *; lia. Qed.

Lemma workers_bound args : 0 <= args.(concurrency) <= u64_max -> 0 <= Z.of_nat (workers args) <= u64_max.
Proof. unfold workers. lia. Qed.

Lemma active_inv_start args : active_inv args 0 (run_start args).
Proof.
  unfold run_start. constructor; cbn [fst snd active peak arrived]; try lia; try (by left).
  - apply length_replicate.
  - by induction (workers args).
  - apply Forall_replicate. simpl. lia.
  - simpl. induction (workers args); simpl; lia.
Qed.

(** The invariant seen from one worker. *)
Definition has_high (high : Z) (pcs : list Pc) : Prop := Exists (fun pc => high_of pc = high) pcs.
Definition below_high (high : Z) (pcs : list Pc) : Prop := Forall (fun pc => 0 <= high_of pc <= high) pcs.

Lemma active_inv_at args high sh before pc after :
  active_inv args high (sh, before ++ pc :: after) <->
  (length before + S (length after) = workers args)%nat /\
  sh.(active) = sum_of counts_active before + (counts_active pc + sum_of counts_active after) /\
  sh.(active) <= high /\ 0 <= sh.(peak) <= high /\
  (below_high high before /\ 0 <= high_of pc <= high /\ below_high high after) /\
  (sh.(peak) = high \/ has_high high before \/ high_of pc = high \/ has_high high after) /\
  0 <= high <= Z.of_nat (workers args) /\
  (sh.(arrived) + (sum_list_with spawned before + (spawned pc + sum_list_with spawned after)) = workers args)%nat.
Proof.
  unfold below_high, has_high. split.
  - intros []. cbn [fst snd] in *.
    rewrite length_app, sum_of_app, sum_list_with_app, Forall_app, Forall_cons, Exists_app, Exists_cons in *.
    done.
  - intros (? & ? & ? & ? & ? & ? & ? & ?). constructor; cbn [fst snd]; try done.
    + by rewrite length_app.
    + by rewrite sum_of_app.
    + by rewrite Forall_app, Forall_cons.
    + by rewrite Exists_app, Exists_cons.
    + by rewrite sum_list_with_app.
Qed.

Lemma below_high_mono high high' pcs : high <= high' -> below_high high pcs -> below_high high' pcs.
Proof. intros Hh Hpcs. apply (Forall_impl _ _ _ Hpcs). simpl. lia. Qed.

Lemma active_inv_step args high s s' :
  0 <= args.(concurrency) <= u64_max ->
  active_inv args high s -> run_step args s s' -> active_inv args (Z.max high s'.1.(active)) s'.
Proof.
  intros Hargs%workers_bound Hinv Hstep.
  inversion Hstep as [sh before pc after passed io sh' pc' Hadv]; subst; cbn [fst].
  apply active_inv_at in Hinv as (Hlen & Hact & Hbelow & Hpeak & (Hb & Hpc & Ha) & Hexact & Hbound & Harr).
  pose proof (counts_active_range before) as Hr1. pose proof (counts_active_range after) as Hr2.
  apply active_inv_at. destruct pc as [| | | id | id | id now | id | id r | id r |]; simpl in Hadv;
    try (injection Hadv as <- <-); cbn [active peak arrived] in *;
    cbn [counts_active high_of spawned] in *.
  5: { (* the counter goes up *)
    rewrite wrap64_small by lia. split; [done |]. split; [lia |]. split; [lia |]. split; [lia |].
    split; [split; [by eapply below_high_mono; [| done]; lia | split; [lia |]; by eapply below_high_mono; [| done]; lia] |].
    split; [| split; [lia | done]].
    destruct (Z.max_spec high (active sh + 1)) as [[? ->] | [? ->]]; [by right; right; left |].
    destruct Hexact as [? | [? | [? | ?]]]; auto. right. right. left. lia. }
  all: try (rewrite wrap64_small by lia); try done.
  (* the others leave it or lower it *)
  2: destruct (Nat.leb_spec (Nat.max 1 (workers args)) (arrived sh)); [injection Hadv as <- <- | done].
  3: destruct (bool_decide (duration_ args <> None) && passed); injection Hadv as <- <-.
  5: destruct (requests args) as [n |]; [destruct (n <=? id) |].
  all: cbn [active peak arrived counts_active high_of spawned]; rewrite Z.max_l by lia.
  all: split_and!; try done; try lia.
  all: destruct Hexact as [? | [? | [? | ?]]]; auto; try (left; lia).
Qed.

Lemma active_inv_reach args k high s :
  0 <= args.(concurrency) <= u64_max -> run_reach args k high s -> active_inv args high s.
Proof.
  intros Hargs. induction 1 as [| k high s s' _ IH Hstep]; [apply active_inv_start |].
  pose proof (active_inv_step _ _ _ _ Hargs IH Hstep) as Hinv. unfold in_flight.
  by rewrite <- (inv_active _ _ _ Hinv).
Qed.

(** *** The requests of a counted run *)

(** The identifier a worker holds. *)
Definition held_of (pc : Pc) : list Z :=
  match pc with
  | Claimed id | Entering id | Counted id _ | Sending id | Sent id _ | Leaving id _ => [id]
  | _ => []
  end.
Definition held (pcs : list Pc) : list Z := concat (held_of <$> pcs).

(** Past the check of the number of requests. *)
Definition admitted_pc (n : Z) (pc : Pc) : Prop :=
  match pc with
  | Entering id | Counted id _ | Sending id => id < n
  | Sent id r | Leaving id r => id < n /\ r.(request_id) = request_name id
  | _ => True
  end.

Definition ended (pc : Pc) : Z := match pc with Ended => 1 | _ => 0 end.
Definition outcome_pc (args : RunArgs) (pc : Pc) : Prop :=
  match pc with Sent _ r | Leaving _ r => outcome_ok args r | _ => True end.

(** Every identifier handed out is recorded, held by a worker, or was refused
    because there are only [n] requests. *)
Record counted_inv (args : RunArgs) (n : Z) (ids dropped : list Z) (s : Shared * list Pc) : Prop := {
  cinv_ids : request_id <$> s.1.(records) = request_name <$> ids;
  cinv_outcome : Forall (outcome_ok args) s.1.(records) /\ Forall (outcome_pc args) s.2;
  cinv_all : ids ++ held s.2 ++ dropped ≡ₚ seqZ 0 s.1.(next);
  cinv_next : 0 <= s.1.(next) <= n + Z.of_nat (workers args);
  cinv_small : Forall (fun id => id < n) ids;
  cinv_admitted : Forall (admitted_pc n) s.2;
  cinv_dropped : Forall (fun id => n <= id) dropped;
  cinv_ended : Z.of_nat (length dropped) = sum_of ended s.2;
}.

Lemma held_app a b : held (a ++ b) = held a ++ held b.
Proof. unfold held. by rewrite fmap_app, concat_app. Qed.

Lemma counted_inv_start args n : 0 <= n -> counted_inv args n [] [] (run_start args).
Proof.
  intros Hn. unfold run_start. constructor; cbn [fst snd records next]; try done.
  - split; [done |]. by apply Forall_replicate.
  - cbn [app]. rewrite app_nil_r. induction (workers args) as [| w IH]; [done | exact IH].
  - lia.
  - by apply Forall_replicate.
  - induction (workers args) as [| w IH]; [done | exact IH].
Qed.

(** Identifiers above [n] are held by different workers. *)
Lemma held_above_bound pcs :
  Z.of_nat (length (held pcs)) + sum_of ended pcs <= Z.of_nat (length pcs).
Proof.
  induction pcs as [| pc pcs IH]; [done |].
  unfold held in *. cbn [fmap list_fmap concat length]. rewrite length_app.
  destruct pc; simpl in *; lia.
Qed.

Lemma seqZ_above n m : 0 <= n -> n <= m -> length (filter (fun id => n <= id) (seqZ 0 m)) = Z.to_nat (m - n).
Proof.
  intros Hn Hm. replace m with (n + (m - n)) at 1 by lia. rewrite seqZ_app by lia.
  rewrite filter_app, filter_none, filter_all; [by rewrite app_nil_l, length_seqZ | |];
    apply Forall_forall; intros x Hx%elem_of_seqZ; lia.
Qed.

(** A worker that asks for one more leaves room for it. *)
Lemma next_below args n ids dropped sh before after :
  length (before ++ Top :: after) = workers args -> 0 <= n ->
  counted_inv args n ids dropped (sh, before ++ Top :: after) ->
  sh.(next) < n + Z.of_nat (workers args).
Proof.
  intros Hlen Hn [_ _ Hall Hnext Hsmall _ _ Hended]. cbn [fst snd] in *.
  destruct (Z.lt_ge_cases (next sh) n) as [? | Hge].
  { rewrite <- Hlen, length_app. simpl. lia. }
  apply (filter_length_perm (fun id => n <= id)) in Hall. rewrite seqZ_above in Hall by lia.
  rewrite !filter_app, !length_app, (filter_none _ ids) in Hall;
    [| apply (Forall_impl _ _ _ Hsmall); simpl; lia].
  pose proof (length_filter (fun id => n <= id) (held (before ++ Top :: after))) as Hh.
  pose proof (length_filter (fun id => n <= id) dropped) as Hd.
  pose proof (held_above_bound before) as Hb. pose proof (held_above_bound after) as Ha.
  assert (length (held (before ++ Top :: after)) = (length (held before) + length (held after))%nat) as Hl
    by (rewrite held_app, length_app; done).
  rewrite sum_of_app in Hended.
  change (sum_of ended (Top :: after)) with (0 + sum_of ended after) in Hended.
  rewrite length_app in Hlen. cbn [length] in Hlen, Hall. lia.
Qed.

(** The invariant seen from one worker. *)
Lemma held_at before pc after : held (before ++ pc :: after) ≡ₚ held_of pc ++ (held before ++ held after).
Proof.
  rewrite held_app. change (held (pc :: after)) with (held_of pc ++ held after).
  rewrite !app_assoc. f_equiv. apply Permutation_app_comm.
Qed.

Lemma counted_inv_at args n ids dropped sh before pc after :
  counted_inv args n ids dropped (sh, before ++ pc :: after) <->
  request_id <$> sh.(records) = request_name <$> ids /\
  (Forall (outcome_ok args) sh.(records) /\
   Forall (outcome_pc args) before /\ outcome_pc args pc /\ Forall (outcome_pc args) after) /\
  ids ++ held_of pc ++ (held before ++ held after) ++ dropped ≡ₚ seqZ 0 sh.(next) /\
  0 <= sh.(next) <= n + Z.of_nat (workers args) /\
  Forall (fun id => id < n) ids /\
  (Forall (admitted_pc n) before /\ admitted_pc n pc /\ Forall (admitted_pc n) after) /\
  Forall (fun id => n <= id) dropped /\
  Z.of_nat (length dropped) = sum_of ended before + (ended pc + sum_of ended after).
Proof.
  assert (ids ++ held (before ++ pc :: after) ++ dropped ≡ₚ
          ids ++ held_of pc ++ (held before ++ held after) ++ dropped) as Hperm.
  { by rewrite held_at, <- !app_assoc. }
  split.
  - intros [Hids [Hrec Hout] Hall Hnext Hsmall Hadm Hdrop Hend]. cbn [fst snd] in *.
    rewrite sum_of_app in Hend. rewrite Forall_app, Forall_cons in Hadm, Hout. rewrite Hperm in Hall. done.
  - intros (? & [? ?] & ? & ? & ? & ? & ? & ?). constructor; cbn [fst snd]; try done.
    + by rewrite Forall_app, Forall_cons.
    + by rewrite Hperm.
    + by rewrite Forall_app, Forall_cons.
    + by rewrite sum_of_app.
Qed.

Lemma counted_inv_step args n ids dropped s s' :
  args.(requests) = Some n -> args.(duration_) = None -> 0 <= n ->
  n + Z.of_nat (workers args) <= u64_max -> length s.2 = workers args ->
  counted_inv args n ids dropped s -> run_step args s s' ->
  exists ids' dropped', counted_inv args n ids' dropped' s'.
Proof.
  intros Hreq Hdur Hn Hmax Hlen Hinv Hstep.
  inversion Hstep as [sh before pc after passed io sh' pc' Hadv]; subst; cbn [snd] in Hlen.
  assert (pc = Top -> sh.(next) < n + Z.of_nat (workers args)) as Hroom.
  { intros ->. by eapply next_below. }
  apply counted_inv_at in Hinv as (Hids & Hout & Hall & Hnext & Hsmall & Hadm & Hdrop & Hend).
  destruct pc as [| | | id | id | id now | id | id r | id r |]; simpl in Hadv;
    rewrite ?Hreq, ?Hdur in Hadv;
    [ | destruct (_ <=? _)%nat; [| done] | | destruct (Z.leb_spec n id) | | | | | | done];
    injection Hadv as <- <-; cbn [held_of admitted_pc outcome_pc ended] in *.
  4: { (* refused *)
    exists ids, (id :: dropped). apply counted_inv_at. cbn [held_of admitted_pc outcome_pc ended].
    split_and!; try done; try apply Hout; try apply Hadm; try lia.
    - rewrite <- Hall. f_equiv. cbn [app]. symmetry. apply Permutation_middle.
    - by constructor.
    - cbn [length]. lia. }
  3: { (* the next identifier *)
    exists ids, dropped. apply counted_inv_at. specialize (Hroom eq_refl).
    cbn [held_of admitted_pc outcome_pc ended next records]. rewrite wrap64_small by lia.
    split_and!; try done; try apply Hout; try apply Hadm; try lia.
    rewrite seqZ_app by lia. change (seqZ (0 + next sh) 1) with [0 + next sh].
    rewrite Z.add_0_l, <- Hall. cbn [app].
    rewrite <- (Permutation_middle ids). rewrite Permutation_cons_append. by rewrite !app_assoc. }
  8: { (* recorded *)
    exists (ids ++ [id]), dropped. apply counted_inv_at.
    cbn [held_of admitted_pc outcome_pc ended next records].
    split_and!; try done; try apply Hout; try apply Hadm; try lia.
    - rewrite !fmap_app, Hids. cbn [fmap list_fmap]. f_equal. f_equal. apply Hadm.
    - apply Forall_app. split; [apply Hout |]. constructor; [apply Hout | done].
    - rewrite <- Hall, <- app_assoc. done.
    - apply Forall_app. split; [done |]. constructor; [apply Hadm | done]. }
  all: exists ids, dropped; apply counted_inv_at; cbn [held_of admitted_pc outcome_pc ended next records].
  all: split_and!; try done; try apply Hout; try apply Hadm; try lia.
  all: apply one_outcome.
Qed.

(** *** Termination *)

(** The steps a worker has before it comes back to the top of the loop. *)
Definition rank (pc : Pc) : Z :=
  match pc with
  | Ended => 0 | Top => 1 | Waiting => 2 | Spawned => 3 | Leaving _ _ => 2 | Sent _ _ => 3
  | Sending _ => 4 | Counted _ _ => 5 | Entering _ => 6 | Claimed _ => 7
  end.
Definition measure_of (args : RunArgs) (n : Z) (s : Shared * list Pc) : Z :=
  10 * (n + Z.of_nat (workers args) - s.1.(next)) + sum_of rank s.2.

Lemma rank_nonneg pcs : 0 <= sum_of rank pcs.
Proof. induction pcs as [| pc pcs IH]; [done |]. destruct pc; simpl in *; lia. Qed.

Lemma step_decreases args n ids dropped s s' :
  args.(requests) = Some n -> 0 <= n -> n + Z.of_nat (workers args) <= u64_max ->
  length s.2 = workers args -> counted_inv args n ids dropped s -> run_step args s s' ->
  measure_of args n s' < measure_of args n s.
Proof.
  intros Hreq Hn Hmax Hlen Hinv Hstep.
  inversion Hstep as [sh before pc after passed io sh' pc' Hadv]; subst; cbn [snd] in Hlen.
  assert (pc = Top -> sh.(next) < n + Z.of_nat (workers args)) as Hroom.
  { intros ->. by eapply next_below. }
  pose proof (cinv_next _ _ _ _ _ Hinv) as Hnext. cbn [fst] in Hnext.
  unfold measure_of. cbn [fst snd]. rewrite !sum_of_app.
  change (sum_of rank (?x :: after)) with (rank x + sum_of rank after).
  destruct pc as [| | | id | id | id now | id | id r | id r |]; simpl in Hadv; rewrite ?Hreq in Hadv;
    [ | destruct (_ <=? _)%nat; [| done] | destruct (_ && passed) | destruct (Z.leb_spec n id) | | | | | | done];
    injection Hadv as <- <-; cbn [rank next]; try lia.
  specialize (Hroom eq_refl). rewrite wrap64_small by lia. lia.
Qed.

(** Every reachable state of a counted run satisfies all of this. *)
Lemma counted_reach args n k high s :
  args.(requests) = Some n -> args.(duration_) = None -> 0 <= n ->
  0 <= args.(concurrency) <= u64_max -> n + Z.of_nat (workers args) <= u64_max ->
  run_reach args k high s ->
  (exists ids dropped, counted_inv args n ids dropped s) /\
  Z.of_nat k + measure_of args n s <= 10 * (n + Z.of_nat (workers args)) + 3 * Z.of_nat (workers args).
Proof.
  intros Hreq Hdur Hn Hconc Hmax. induction 1 as [| k high s s' Hreach IH Hstep].
  - split; [exists [], []; by apply counted_inv_start |].
    unfold measure_of, run_start. cbn [fst snd next].
    assert (sum_of rank (replicate (workers args) Spawned) = 3 * Z.of_nat (workers args)); [| lia].
    generalize (workers args). intros w. induction w as [| w IHw]; [done |].
    cbn [replicate]. change (sum_of rank (Spawned :: ?l)) with (3 + sum_of rank l). lia.
  - destruct IH as [(ids & dropped & Hinv) Hk].
    pose proof (inv_length _ _ _ (active_inv_reach _ _ _ _ Hconc Hreach)) as Hlen.
    split; [by eapply counted_inv_step |].
    pose proof (step_decreases _ _ _ _ _ _ Hreq Hn Hmax Hlen Hinv Hstep). lia.
Qed.

Definition is_idle (pc : Pc) : bool := match pc with Waiting | Ended => true | _ => false end.
Definition is_ended (pc : Pc) : bool := match pc with Ended => true | _ => false end.

(** No deadlock: unless every worker has ended, one can step. *)
Lemma run_progress args k high s :
  0 <= args.(concurrency) <= u64_max -> run_reach args k high s ->
  Forall (fun pc => pc = Ended) s.2 \/ exists s', run_step args s s'.
Proof.
  intros Hconc Hreach. destruct (active_inv_reach _ _ _ _ Hconc Hreach) as [Hlen _ _ _ _ _ _ Harr].
  destruct s as [sh pcs]. cbn [fst snd] in *.
  assert (forall pc, pc ∈ pcs -> is_Some (advance args false {| begin := 0; invalid_method := None;
      sent := Err {| is_timeout := true; is_connect := false; is_body := false; text := "" |};
      failed_at := 0 |} sh pc) -> exists s', run_step args (sh, pcs) s') as Hcan.
  { intros pc (before & after & ->)%list_elem_of_split [[sh' pc'] Hadv]. eexists. by econstructor. }
  destruct (decide (Forall (fun pc => is_idle pc = true) pcs)) as [Hidle | Hbusy].
  - destruct (decide (Forall (fun pc => is_ended pc = true) pcs)) as [Hall | Hwait].
    { left. apply (Forall_impl _ _ _ Hall). by intros []. }
    right. apply not_Forall_Exists in Hwait; [| apply _]. apply Exists_exists in Hwait as (pc & Hin & Hpc).
    apply (Hcan pc Hin). pose proof (proj1 (Forall_forall _ _) Hidle pc Hin) as Hw.
    assert (sum_list_with spawned pcs = 0%nat) as Hzero.
    { clear -Hidle. induction Hidle as [| p l Hp Hl IH]; [done |]. simpl. destruct p; done || by rewrite IH. }
    assert (1 <= length pcs)%nat by (destruct pcs; [by apply not_elem_of_nil in Hin | simpl; lia]).
    destruct pc; try done. cbn [advance].
    destruct (Nat.leb_spec (Nat.max 1 (workers args)) (arrived sh)); [done | lia].
  - right. apply not_Forall_Exists in Hbusy; [| apply _]. apply Exists_exists in Hbusy as (pc & Hin & Hpc).
    apply (Hcan pc Hin). destruct pc; try (by destruct Hpc); cbn [advance]; try (by eexists).
    by destruct (bool_decide _ && false).
Qed.

Lemma all_ended pcs : Forall (fun pc => pc = Ended) pcs ->
  held pcs = [] /\ sum_of counts_active pcs = 0 /\ (forall high, has_high high pcs -> high = 0).
Proof.
  induction 1 as [| pc pcs -> Hpcs (IH1 & IH2 & IH3)]; [by split_and!; try done; intros h ?%Exists_nil |].
  split_and!; try done. intros h [<- | H]%Exists_cons; [done | by apply IH3].
Qed.

Lemma all_ended_sum pcs : Forall (fun pc => pc = Ended) pcs -> sum_of ended pcs = Z.of_nat (length pcs).
Proof.
  induction 1 as [| pc l -> Hl IH]; [done |].
  change (sum_of ended (Ended :: l)) with (1 + sum_of ended l). simpl length. lia.
Qed.

(** C39. A counted run sends exactly what it was asked to, never more at once.  For
    a run of [n] requests, whatever the network does and however the workers
    interleave: no state is a deadlock and no run takes more steps than the
    bound shown, so the run ends once every request has been answered; at any
    time at most [min concurrency n] workers have a request in flight, and the
    shared counter is the number of them; and when every worker has ended there
    are exactly [n] records, one for each identifier below [n], each with one of
    the three outcomes, the counter is back at zero, and the reported peak is the
    highest number of requests that ever were in flight at once, which is what the
    summary then says. *)
Theorem counted_run (args : RunArgs) (n : Z) (k : nat) (high : Z) (s : Shared * list Pc) (elapsed : f64) :
  run_valid args -> args.(requests) = Some n -> n < 2 ^ 40 ->
  run_reach args k high s ->
  (Forall (fun pc => pc = Ended) s.2 \/ exists s', run_step args s s') /\
  Z.of_nat k <= 10 * (n + Z.of_nat (workers args)) + 3 * Z.of_nat (workers args) /\
  0 <= in_flight s.2 <= Z.min args.(concurrency) n /\
  s.1.(active) = in_flight s.2 /\
  (Forall (fun pc => pc = Ended) s.2 ->
     (request_id <$> s.1.(records)) ≡ₚ (request_name <$> seqZ 0 n) /\
     Forall (outcome_ok args) s.1.(records) /\
     s.1.(active) = 0 /\
     exists summary, run_end elapsed s.1 = Some (summary, s.1.(records)) /\
       summary.(requests_started) = n /\ summary.(requests_finished) = n /\
       summary.(peak_in_flight) = high).
Proof.
  intros [[Hconc _ _ _ _ _ _ _ _] _ Hpos Hend] Hreq Hmax Hreach. unfold in_u64 in Hconc.
  destruct Hend as [(n' & Hn' & Hn & Hdur) | (d & _ & Hnone)]; [| congruence].
  rewrite Hreq in Hn'. injection Hn' as <-.
  assert (Z.of_nat (workers args) = Z.min args.(concurrency) n) as Hw.
  { unfold workers. rewrite Hreq. cbn [default from_option id]. lia. }
  pose proof (active_inv_reach _ _ _ _ Hconc Hreach) as [Hlen Hact Hbelow Hpeak Hhigh Hexact Hbound Harr].
  destruct (counted_reach args n k high s) as [(ids & dropped & Hinv) Hk]; [done.. | lia | done | unfold u64_max; lia | done |].
  pose proof (cinv_next _ _ _ _ _ Hinv) as Hnext.
  pose proof (counts_active_range s.2) as Hrange. pose proof (rank_nonneg s.2) as Hrank.
  split; [by eapply run_progress |]. unfold measure_of in Hk. split; [lia |].
  split; [unfold in_flight; lia |]. split; [done |].
  intros Hall. destruct (all_ended _ Hall) as (Hheld & Hzero & Hno).
  destruct Hinv as [Hids [Hout _] Hperm _ Hsmall _ Hdrop Hended]. rewrite Hheld in Hperm. cbn [app] in Hperm.
  assert (ids ≡ₚ seqZ 0 n) as Hexactly.
  { assert (filter (fun id => id < n) (ids ++ dropped) = ids) as Hf.
    { rewrite filter_app, filter_all, filter_none, app_nil_r; try done.
      apply (Forall_impl _ _ _ Hdrop). simpl. lia. }
    rewrite <- Hf, Hperm.
    assert (n <= s.1.(next)) as Hreached.
    { assert (sum_of ended s.2 = Z.of_nat (workers args)) as Hd by (rewrite <- Hlen; by apply all_ended_sum).
      destruct dropped as [| d dropped]; [simpl in Hended; lia |].
      inversion Hdrop as [| ? ? Hd' _]; subst.
      assert (d ∈ seqZ 0 s.1.(next)) as Hin by (rewrite <- Hperm, elem_of_app; right; left).
      apply elem_of_seqZ in Hin. lia. }
    replace s.1.(next) with (n + (s.1.(next) - n)) by lia. rewrite seqZ_app by lia.
    rewrite filter_app, filter_all, filter_none, app_nil_r; [done | |];
      apply Forall_forall; intros x Hx%elem_of_seqZ; lia. }
  assert (Z.of_nat (length s.1.(records)) = n) as Hcount.
  { rewrite <- (length_fmap request_id), Hids, length_fmap, Hexactly, length_seqZ. lia. }
  assert (s.1.(peak) = high) as Hp by (destruct Hexact as [? | He]; [done |]; apply Hno in He; lia).
  split_and!; [by rewrite Hids, Hexactly | done | lia |].
  destruct (summarize_total s.1.(records) elapsed n s.1.(peak)) as (sm & Hsm & H1 & H2 & H3); [lia |].
  unfold run_end. rewrite Hcount, Hsm. exists sm. split_and!; [done | done | congruence | congruence].
Qed.
End Runner.

(** A run of one request by one worker, to its end. *)
Definition one_request : RunArgs := set_requests (Some 1) (set_url "http://127.0.0.1:18444" run_default).
Definition refused : Io :=
  {| begin := 0; invalid_method := None;
     sent := Err {| is_timeout := false; is_connect := true; is_body := false; text := "" |};
     failed_at := 1 |}.
Definition one_answer : Io :=
  {| begin := 0; invalid_method := None;
     sent := Ok (5, 200, None, body_of [(6, as_bytes "{"); (7, as_bytes "}")] 8); failed_at := 0 |}.

Lemma solo_step ms due json_error args k high sh pc sh' pc' :
  run_reach ms due json_error args k high (sh, [pc]) ->
  advance ms due json_error args false refused sh pc = Some (sh', pc') ->
  run_reach ms due json_error args (S k) (Z.max high (in_flight [pc'])) (sh', [pc']).
Proof.
  intros Hreach Hadv. apply (reach_step _ _ _ _ _ _ (sh, [pc]) (sh', [pc']) Hreach).
  by apply (worker_steps _ _ _ _ sh [] pc [] false refused).
Qed.

Lemma one_request_run ms due json_error :
  exists sh, run_reach ms due json_error one_request 11 1 (sh, [Ended]).
Proof.
  pose proof (reach_start ms due json_error one_request) as H.
  change (run_start one_request) with
    ({| arrived := 0; next := 0; active := 0; peak := 0; records := [] |}, [Spawned]) in H.
  do 11 (apply solo_step with (2 := eq_refl) in H). by eexists.
Qed.

Lemma one_request_valid : run_valid one_request.
Proof.
  constructor; [| done | reflexivity | left; by exists 1].
  constructor; try done; [exists 60 | exists 120]; (split; [done | by right]).
Qed.

(** Concrete parameters for the witnesses: times as whole milliseconds, exact
    division, and a parser that wants balanced braces. *)
Definition toy_ms (d : Duration) : f64 := d / 1000000.
Definition toy_due (n rate : Z) : Duration := n * NANOS_PER_SEC / rate.
Definition toy_json_error (b : bytes) : option string :=
  if bool_decide (b = as_bytes "{}") then None else Some "expected value".

Lemma counted_run_witness :
  exists high sh summary,
    run_reach toy_ms toy_due toy_json_error one_request 11 high (sh, [Ended]) /\
    run_end 0 sh = Some (summary, sh.(records)) /\ summary.(requests_finished) = 1 /\
    summary.(peak_in_flight) = 1 /\ sh.(active) = 0.
Proof.
  destruct (one_request_run toy_ms toy_due toy_json_error) as (sh & Hrun).
  destruct (counted_run toy_ms toy_due toy_json_error one_request 1 11 1 (sh, [Ended]) 0
    one_request_valid eq_refl eq_refl Hrun) as (_ & _ & _ & _ & Hend).
  destruct (Hend ltac:(repeat constructor)) as (_ & _ & Hzero & sm & Hsm & _ & Hf & Hp).
  exists 1, sh, sm. split; [exact Hrun |]. split; [exact Hsm |]. split; [exact Hf |]. split; [exact Hp | exact Hzero].
Defined.

Lemma one_reports_the_body_witness :
  let r := one toy_ms toy_due toy_json_error one_request 0 one_answer in
  r.(request_id) = "loadgen-0" /\ r.(status) = Some 200 /\ r.(outcome) = "completed" /\
  r.(response_bytes) = 2.
Proof.
  destruct (one_reports_the_body toy_ms toy_due toy_json_error one_request 0 one_answer 5 200 None
    [(6, as_bytes "{"); (7, as_bytes "}")] 8 eq_refl eq_refl eq_refl) as (H1 & H2 & _ & H4 & _ & H6 & _).
  split; [exact H1 |]. split; [exact H2 |]. split; [exact H4 | exact H6].
Defined.
