(* ===== verification/LoadSlow.v ===== *)
(** * The load generator's slow connections and its entry point
    (tools/loadtest/loadgen/src/slowloris.rs, main.rs)

    One connection as a function of what the network does: every write has its
    duration and its result, and the bytes that went out are kept with the
    instants they went out at.  The connections end in any order; the summary
    does not depend on it. *)
From stdpp Require Import sorting.
From S2P Require Export LoadRunner.

(** ** Data *)

#[global] Instance SlowStage_eq_dec : EqDecision SlowStage.
Proof. solve_decision. Defined.

Record SlowRecord := {
  connection : Z;
  stage_name : string;
  elapsed : f64;
  slow_outcome : string;
  slow_error : option string;
}.

Record SlowSummary := {
  slow_schema_version : Z;
  slow_target : string;
  requested : Z;
  connected : Z;
  completed : Z;
  slow_errors : Z;
  slow_records : list SlowRecord;
}.

(** A parsed URL, by what the code asks of it. *)
Record Url := { host_str : option string; port : option Z }.

(** [ClientConfig]: the trusted certificates, whether verification is off, and
    the protocol it offers. *)
Record TlsConfig {Cert : Type} := { roots : list Cert; no_verifier : bool; alpn : string }.
Arguments TlsConfig : clear implicits.

(** What one connection meets: the results of connecting and of the TLS
    handshake with the instants they come at, then one entry per write. *)
Record SlowIo := {
  opened : Instant;
  tcp_connected : result string Instant;
  nodelay : result string unit;
  server_name : result string unit;
  handshake : result string Instant;
  writes : list (Duration * result string unit);
}.

(** A connection under way: the clock, the writes to come, what went out. *)
Record Wire := { now : Instant; todo : list (Duration * result string unit); out : list (Instant * bytes) }.

(** ** Writing *)

(** A step of the connection.  The inner result is the code's; [None] is a
    write that never returns. *)
Definition Step (A : Type) : Type := Wire -> option (result string A * Wire).

(** [stream.write_all(bytes)], errors marked with [label] *)
Definition write_all (label : string) (b : bytes) : Step unit := fun w =>
  match w.(todo) with
  | [] => None
  | (d, Ok _) :: rest => Some (Ok tt, {| now := w.(now) + d; todo := rest; out := w.(out) ++ [(w.(now) + d, b)] |})
  | (d, Err e) :: rest => Some (Err (label +:+ ":" +:+ e), {| now := w.(now) + d; todo := rest; out := w.(out) |})
  end.

(** [tokio::time::sleep(d)] *)
Definition sleep (d : Duration) : Step unit := fun w =>
  Some (Ok tt, {| now := w.(now) + d; todo := w.(todo); out := w.(out) |}).

(** [a?; b] *)
Definition and_then (a b : Step unit) : Step unit := fun w =>
  match a w with
  | Some (Ok _, w') => b w'
  | other => other
  end.

(** [drip] *)
Fixpoint drip (b : bytes) (interval : Duration) : Step unit := fun w =>
  match b with
  | [] => Some (Ok tt, w)
  | c :: rest => and_then (and_then (write_all "drip" [c]) (sleep interval)) (drip rest interval) w
  end.

(** The loop of the stage [Body]; every turn uses up a write. *)
Fixpoint body_loop (fuel : nat) (until : Instant) (c : ascii) (interval : Duration) : Step unit := fun w =>
  if w.(now) <? until then
    match fuel with
    | O => None
    | S fuel' =>
        and_then (and_then (write_all "write_body" [c]) (sleep interval)) (body_loop fuel' until c interval) w
    end
  else Some (Ok tt, w).

Definition crlf : string := String CR (String LF "").

Definition body_head (host : string) : string :=
  "POST / HTTP/1.1" +:+ crlf +:+ "Host: " +:+ host +:+ crlf +:+ "Content-Length: 1000000000" +:+ crlf +:+ crlf.

(** The connection preface of HTTP/2 and an empty SETTINGS frame. *)
Definition h2_preface : bytes :=
  as_bytes ("PRI * HTTP/2.0" +:+ crlf +:+ crlf +:+ "SM" +:+ crlf +:+ crlf)
  ++ (ascii_of_N <$> [0; 0; 0; 4; 0; 0; 0; 0; 0]%N).

(** The [match] on the stage, after the handshake; [Tcp] does not reach it. *)
Definition stage_step (args : SlowArgs) (host : string) : Step unit := fun w =>
  match args.(stage) with
  | Tls => sleep args.(hold) w
  | Header => and_then (drip (as_bytes args.(header)) args.(interval)) (sleep args.(hold)) w
  | Body =>
      and_then (write_all "write_header" (as_bytes (body_head host)))
        (fun w => body_loop (length w.(todo)) (w.(now) + args.(hold)) args.(body_byte) args.(interval) w) w
  | H2Preface => and_then (write_all "write_h2" h2_preface) (sleep args.(hold)) w
  | Tcp => None
  end.

(** [format!("{:?}", stage).to_lowercase()] *)
Definition stage_debug (s : SlowStage) : string :=
  match s with Tcp => "Tcp" | Tls => "Tls" | Header => "Header" | Body => "Body" | H2Preface => "H2Preface" end.

Section Slow.
Context (ms : Duration -> f64).

(** The [async] block of [one]: its result, the time at its end, what it sent.
    The end of a failed connection attempt is the instant it was opened at. *)
Definition converse (args : SlowArgs) (host : string) (io : SlowIo)
  : option (result string unit * Instant * list (Instant * bytes)) :=
  match io.(tcp_connected) with
  | Err e => Some (Err ("connect:" +:+ e), io.(opened), [])
  | Ok t =>
      match io.(nodelay) with
      | Err e => Some (Err ("nodelay:" +:+ e), t, [])
      | Ok _ =>
          match args.(stage) with
          | Tcp => Some (Ok tt, t + args.(hold), [])
          | _ =>
              match io.(server_name) with
              | Err e => Some (Err ("server_name:" +:+ e), t, [])
              | Ok _ =>
                  match io.(handshake) with
                  | Err e => Some (Err ("tls:" +:+ e), t, [])
                  | Ok t =>
                      match stage_step args host {| now := t; todo := io.(writes); out := [] |} with
                      | Some (r, w) => Some (r, w.(now), w.(out))
                      | None => None
                      end
                  end
              end
          end
      end
  end.

(** [one]: the record and the bytes sent. *)
Definition slow_one (id : Z) (args : SlowArgs) (host : string) (io : SlowIo)
  : option (SlowRecord * list (Instant * bytes)) :=
  match converse args host io with
  | None => None
  | Some (r, t, sent) =>
      let '(o, e) :=
        match r with
        | Ok _ => ("completed", None)
        | Err e => (if starts_with e "connect:" then "connect_error" else "io_error", Some e)
        end in
      Some ({| connection := id; stage_name := to_ascii_lowercase (stage_debug args.(stage));
               elapsed := ms (Inst.saturating_duration_since t io.(opened));
               slow_outcome := o; slow_error := e |}, sent)
  end.

(** ** The run *)

Context (parse_url : string -> result string Url).
Context (read_file : string -> result string bytes).
Context {Cert : Type} (webpki_roots : list Cert).
Context (pem_certs : bytes -> list (result string Cert)).
Context (add_root : list Cert -> Cert -> result string (list Cert)).

Definition split_target (target : string) : result string (string * Z) :=
  u ← map_err (fun e => "invalid target: " +:+ e) (parse_url ("https://" +:+ target));
  host ← ok_or u.(host_str) "target has no host";
  p ← ok_or u.(port) "target has no port";
  Ok (host, p).

Definition add_cert (roots : list Cert) (cert : result string Cert) : result string (list Cert) :=
  c ← map_err (fun e => "parse CA: " +:+ e) cert;
  map_err (fun e => "add CA: " +:+ e) (add_root roots c).

Definition tls_config (args : SlowArgs) : result string (TlsConfig Cert) :=
  roots ← match args.(slow_ca) with
          | None => Ok webpki_roots
          | Some path =>
              pem ← map_err (fun e => "read CA: " +:+ e) (read_file path);
              try_fold add_cert webpki_roots (pem_certs pem)
          end;
  Ok {| roots := roots; no_verifier := args.(slow_insecure);
        alpn := match args.(stage) with H2Preface => "h2" | _ => "http/1.1" end |}.

Definition connection_le (a b : SlowRecord) : Prop := a.(connection) <= b.(connection).
#[local] Instance connection_le_dec : RelDecision connection_le.
Proof. intros a b. unfold connection_le. apply _. Defined.

(** The summary of records in the order the connections ended in. *)
Definition slow_summary (args : SlowArgs) (ended : list SlowRecord) : SlowSummary :=
  let records := merge_sort connection_le ended in
  let connected := filter (fun r => r.(slow_outcome) <> "connect_error") records in
  let completed := filter (fun r => r.(slow_error) = None) records in
  {| slow_schema_version := 1;
     slow_target := args.(target);
     requested := args.(connections);
     connected := Z.of_nat (length connected);
     completed := Z.of_nat (length completed);
     slow_errors := Z.of_nat (length records) - Z.of_nat (length completed);
     slow_records := records |}.

(** [run]: [ios] is what each connection meets, [order] the order they end
    in; the outer [None] is a connection that never ends. *)
Definition slow_run (args : SlowArgs) (ios : Z -> SlowIo) (order : list Z)
  : option (result string SlowSummary) :=
  match split_target args.(target) with
  | Err e => Some (Err e)
  | Ok (host, _) =>
      match (if bool_decide (args.(stage) = Tcp) then Ok tt else (fun _ => tt) <$> tls_config args) with
      | Err e => Some (Err e)
      | Ok _ =>
          ended ← mapM (fun id => fst <$> slow_one id args host (ios id)) order;
          Some (Ok (slow_summary args ended))
      end
  end.

(** ** What goes out *)

(** What a step adds: it only appends, on success exactly [full], on an error
    a prefix of it, and the clock does not go back. *)
Definition sends {A} (full : bytes) (m : Step A) : Prop :=
  forall w, Forall (fun x => 0 <= x.1) w.(todo) ->
  match m w with
  | None => True
  | Some (r, w') =>
      (exists new, w'.(out) = w.(out) ++ new /\
         match r with
         | Ok _ => concat (snd <$> new) = full
         | Err _ => concat (snd <$> new) `prefix_of` full
         end) /\
      w.(now) <= w'.(now) /\ Forall (fun x => 0 <= x.1) w'.(todo)
  end.

Lemma sends_write label b : sends b (write_all label b).
Proof.
  intros w Hw. unfold write_all. destruct (todo w) as [| [d [[] | e]] rest]; [done | |];
    apply Forall_cons in Hw as [Hd Hw]; cbn [out now todo] in *; simpl in Hd; split_and!; try done; try lia.
  - eexists. split; [done |]. cbn. apply app_nil_r.
  - exists []. rewrite app_nil_r. split; [done | apply prefix_nil].
Qed.

Lemma sends_sleep d : 0 <= d -> sends [] (sleep d).
Proof.
  intros Hd w Hw. cbn. split_and!; [| lia | done]. exists []. by rewrite app_nil_r.
Qed.

Lemma sends_ok : sends [] (fun w => Some (@Ok string _ tt, w)).
Proof. intros w Hw. split_and!; [| lia | done]. exists []. by rewrite app_nil_r. Qed.

Lemma sends_then a b full1 full2 : sends full1 a -> sends full2 b -> sends (full1 ++ full2) (and_then a b).
Proof.
  intros Ha Hb w Hw. unfold and_then. specialize (Ha w Hw). destruct (a w) as [[[u | e] w1] |]; [| | done].
  - destruct Ha as ((n1 & Hn1 & Hf1) & Hnow1 & Hw1). specialize (Hb w1 Hw1).
    destruct (b w1) as [[r w2] |]; [| done]. destruct Hb as ((n2 & Hn2 & Hf2) & Hnow2 & Hw2).
    split_and!; [| lia | done]. exists (n1 ++ n2). split; [by rewrite Hn2, Hn1, app_assoc |].
    rewrite fmap_app, concat_app, Hf1. destruct r; [by rewrite Hf2 | by apply prefix_app].
  - destruct Ha as ((n1 & Hn1 & Hf1) & Hnow1 & Hw1). split_and!; [| done | done].
    exists n1. split; [done |]. by apply prefix_app_r.
Qed.

Lemma sends_drip b interval : 0 <= interval -> sends b (drip b interval).
Proof.
  intros Hi. induction b as [| c b IH]; [exact sends_ok |].
  change (c :: b) with (([c] ++ []) ++ b). cbn [drip app].
  apply (sends_then _ _ [c] b); [| exact IH].
  apply (sends_then _ _ [c] []); [apply sends_write | by apply sends_sleep].
Qed.

(** The byte of the stage [Body], some number of times. *)
Lemma body_loop_sends fuel until c interval w :
  0 <= interval -> Forall (fun x => 0 <= x.1) w.(todo) ->
  match body_loop fuel until c interval w with
  | None => True
  | Some (r, w') =>
      (exists new k, w'.(out) = w.(out) ++ new /\ concat (snd <$> new) = replicate k c) /\
      w.(now) <= w'.(now) /\ (is_ok r = true -> until <= w'.(now))
  end.
Proof.
  intros Hi. revert w. induction fuel as [| fuel IH]; intros w Hw; cbn [body_loop];
    (destruct (Z.ltb_spec (now w) until); [| split_and!; [| lia | done]; exists [], 0%nat; by rewrite app_nil_r]);
    [done |].
  assert (sends [c] (and_then (write_all "write_body" [c]) (sleep interval))) as Hturn.
  { apply (sends_then _ _ [c] []); [apply sends_write | by apply sends_sleep]. }
  specialize (Hturn w Hw). unfold and_then at 1.
  destruct (and_then _ _ w) as [[[u | e] w1] |]; [| | done].
  - destruct Hturn as ((n1 & Hn1 & Hf1) & Hnow1 & Hw1). specialize (IH w1 Hw1).
    destruct (body_loop fuel until c interval w1) as [[r w2] |]; [| done].
    destruct IH as ((n2 & k & Hn2 & Hf2) & Hnow2 & Hend). split_and!; [| lia | done].
    exists (n1 ++ n2), (S k). split; [by rewrite Hn2, Hn1, app_assoc |].
    by rewrite fmap_app, concat_app, Hf1, Hf2.
  - destruct Hturn as ((n1 & Hn1 & Hf1) & Hnow1 & _). split_and!; [| done | done].
    destruct (concat (snd <$> n1)) as [| b l] eqn:Hc.
    + by exists n1, 0%nat.
    + apply prefix_cons_inv_1 in Hf1 as Hb. apply prefix_cons_inv_2, prefix_nil_inv in Hf1 as ->.
      subst b. by exists n1, 1%nat.
Qed.

(** What a connection may have sent in its stage, and must have if it ends
    without an error. *)
Definition allowed (args : SlowArgs) (host : string) (ok : bool) (b : bytes) : Prop :=
  match args.(stage) with
  | Tcp | Tls => b = []
  | Header => if ok then b = as_bytes args.(header) else b `prefix_of` as_bytes args.(header)
  | H2Preface => if ok then b = h2_preface else b `prefix_of` h2_preface
  | Body =>
      (exists k, b = as_bytes (body_head host) ++ replicate k args.(body_byte)) \/
      (ok = false /\ b `prefix_of` as_bytes (body_head host))
  end.

Lemma stage_step_allowed args host t ws :
  0 <= args.(interval) -> 0 <= args.(hold) -> Forall (fun x => 0 <= x.1) ws ->
  args.(stage) <> Tcp ->
  match stage_step args host {| now := t; todo := ws; out := [] |} with
  | None => True
  | Some (r, w) =>
      allowed args host (is_ok r) (concat (snd <$> w.(out))) /\ (is_ok r = true -> t + args.(hold) <= w.(now))
  end.
Proof.
  intros Hi Hh Hws Hstage. unfold stage_step, allowed. set (w0 := {| now := t; todo := ws; out := [] |}).
  assert (forall full (m : Step unit), sends full m ->
    match and_then m (sleep (hold args)) w0 with
    | None => True
    | Some (r, w) =>
        (if is_ok r then concat (snd <$> w.(out)) = full else concat (snd <$> w.(out)) `prefix_of` full) /\
        (is_ok r = true -> t + args.(hold) <= w.(now))
    end) as Hheld.
  { intros full m Hm. unfold and_then. specialize (Hm w0 Hws).
    destruct (m w0) as [[[u | e] w1] |]; [| | done]; destruct Hm as ((n & Hn & Hf) & Hnow & _);
      cbn [sleep out now is_ok]; rewrite Hn; cbn [w0 out app]; split; try done.
    cbn [w0 now] in Hnow. lia. }
  destruct (stage args); [done | | | |].
  - cbn. split; [done | lia].
  - specialize (Hheld _ _ (sends_drip (as_bytes (header args)) (interval args) Hi)).
    destruct (and_then _ _ w0) as [[r w] |]; [| done]. destruct Hheld as [H1 H2]. split; [| exact H2].
    by destruct (is_ok r).
  - unfold and_then. pose proof (sends_write "write_header" (as_bytes (body_head host)) w0 Hws) as Hhead.
    destruct (write_all _ _ w0) as [[[u | e] w1] |]; [| | done]; destruct Hhead as ((n & Hn & Hf) & Hnow & Hw1).
    + cbn [w0 out app now] in *. pose proof (body_loop_sends (length (todo w1)) (now w1 + hold args) (body_byte args)
        (interval args) w1 Hi Hw1) as Hloop.
      destruct (body_loop _ _ _ _ w1) as [[r w2] |]; [| done]. destruct Hloop as ((n2 & k & Hn2 & Hf2) & _ & Hend).
      split; [left; exists k | intros Hr; specialize (Hend Hr); lia].
      by rewrite Hn2, Hn, fmap_app, concat_app, Hf, Hf2.
    + cbn [w0 out app is_ok] in *. rewrite Hn. split; [by right | done].
  - specialize (Hheld _ _ (sends_write "write_h2" h2_preface)).
    destruct (and_then _ _ w0) as [[r w] |]; [| done]. destruct Hheld as [H1 H2]. split; [| exact H2].
    by destruct (is_ok r).
Qed.

(** Only a failed connection is reported as one. *)
Definition not_connect (m : Step unit) : Prop :=
  forall w e w', m w = Some (Err e, w') -> starts_with e "connect:" = false.

Lemma not_connect_write label b :
  (forall e, starts_with (label +:+ ":" +:+ e) "connect:" = false) -> not_connect (write_all label b).
Proof.
  intros Hl w e w'. unfold write_all. destruct (todo w) as [| [d [[] | x]] rest]; [done | done |].
  intros [= <- _]. apply Hl.
Qed.

Lemma not_connect_then a b : not_connect a -> not_connect b -> not_connect (and_then a b).
Proof.
  intros Ha Hb w e w'. unfold and_then. destruct (a w) as [[[u | x] w1] |] eqn:Haw; [apply Hb | | done].
  intros [= <- <-]. by eapply Ha.
Qed.

Lemma not_connect_sleep d : not_connect (sleep d).
Proof. by intros w e w'. Qed.

Lemma not_connect_drip b interval : not_connect (drip b interval).
Proof.
  induction b as [| c b IH]; [by intros w e w' |]. cbn [drip].
  apply not_connect_then; [apply not_connect_then | exact IH]; [by apply not_connect_write | apply not_connect_sleep].
Qed.

Lemma not_connect_body fuel until c interval : not_connect (body_loop fuel until c interval).
Proof.
  induction fuel as [| fuel IH]; intros w e w'; cbn [body_loop]; destruct (_ <? _); try done.
  apply not_connect_then; [apply not_connect_then | exact IH]; [by apply not_connect_write | apply not_connect_sleep].
Qed.

Lemma not_connect_stage args host : not_connect (stage_step args host).
Proof.
  intros w e w'. unfold stage_step. destruct (stage args); [done | apply not_connect_sleep | ..];
    apply not_connect_then; try apply not_connect_sleep; try apply not_connect_drip;
    try (by apply not_connect_write).
  intros w1. apply not_connect_body.
Qed.

Definition io_ok (args : SlowArgs) (io : SlowIo) : Prop :=
  0 <= args.(interval) /\ 0 <= args.(hold) /\ Forall (fun x => 0 <= x.1) io.(writes).

Lemma converse_spec args host io r t sent :
  io_ok args io -> converse args host io = Some (r, t, sent) ->
  match r with
  | Ok _ => is_ok io.(tcp_connected) = true /\ allowed args host true (concat (snd <$> sent))
  | Err e => starts_with e "connect:" = negb (is_ok io.(tcp_connected)) /\
             (sent = [] \/ allowed args host false (concat (snd <$> sent)))
  end.
Proof.
  intros (Hi & Hh & Hws). unfold converse.
  destruct (tcp_connected io) as [t0 | e]; [| intros [= <- <- <-]; split; [| by left]];
    [| apply starts_with_iff; eauto].
  destruct (nodelay io) as [? | e]; [| intros [= <- <- <-]; split; [done | by left]].
  destruct (decide (stage args = Tcp)) as [Htcp | Htcp].
  { unfold allowed. rewrite Htcp. intros [= <- <- <-]. done. }
  assert (forall A (x y : A), match stage args with Tcp => x | _ => y end = y) as Hmatch
    by (intros; destruct (stage args); done).
  rewrite Hmatch. clear Hmatch.
  destruct (server_name io) as [? | e]; [| intros [= <- <- <-]; split; [done | by left]].
  destruct (handshake io) as [t1 | e]; [| intros [= <- <- <-]; split; [done | by left]].
  pose proof (stage_step_allowed args host t1 (writes io) Hi Hh Hws Htcp) as Hstage.
  destruct (stage_step _ _ _) as [[r' w] |] eqn:Hrun; [| done]. intros [= -> <- <-].
  destruct Hstage as [Hsent _]. destruct r as [u | e]; cbn [is_ok] in *; [done |].
  split; [by eapply not_connect_stage | by right].
Qed.

(** The record of a slow connection tells the truth, and nothing else goes out.
    When a connection ends, its record carries its number; it is completed
    exactly when it names no error, and a connection error exactly when the
    TCP connection was refused.  What it sent is what its stage allows: nothing
    before a TLS stage; the bytes of the header, of the HTTP/2 preface, or of
    the request head followed by the body byte, all of them when it completed
    and a prefix when it failed. *)
Theorem slow_connection_exact (id : Z) (args : SlowArgs) (host : string) (io : SlowIo)
    (r : SlowRecord) (sent : list (Instant * bytes)) :
  io_ok args io -> slow_one id args host io = Some (r, sent) ->
  r.(connection) = id /\
  (r.(slow_outcome) = "completed" <-> r.(slow_error) = None) /\
  (r.(slow_outcome) = "connect_error" <-> is_ok io.(tcp_connected) = false) /\
  (r.(slow_error) = None -> allowed args host true (concat (snd <$> sent))) /\
  (r.(slow_error) <> None -> sent = [] \/ allowed args host false (concat (snd <$> sent))).
Proof.
  intros Hio. unfold slow_one. destruct (converse args host io) as [[[c t] sent'] |] eqn:Hc; [| done].
  apply converse_spec in Hc; [| done]. destruct c as [u | e].
  - destruct Hc as [-> Hall]. intros [= <- <-]. cbn. by split_and!.
  - destruct Hc as [-> Hall]. intros [= <- <-]. cbn.
    destruct (is_ok (tcp_connected io)); cbn; by split_and!.
Qed.

(** ** The summary *)

Lemma slow_one_id id args host io r sent : slow_one id args host io = Some (r, sent) -> r.(connection) = id.
Proof.
  unfold slow_one. destruct (converse args host io) as [[[[u | e] t] s] |]; [..| done]; by intros [= <- _].
Qed.

#[local] Instance connection_le_trans : Transitive connection_le.
Proof. unfold connection_le. intros a b c. lia. Qed.
#[local] Instance connection_le_total : Total connection_le.
Proof. unfold connection_le. intros a b. lia. Qed.

(** Sorting restores the order of the connections. *)
Lemma sorted_by_connection (l : list SlowRecord) (f : Z -> SlowRecord) ids :
  (forall id, id ∈ ids -> (f id).(connection) = id) -> StronglySorted Z.lt ids -> l ≡ₚ (f <$> ids) ->
  merge_sort connection_le l = f <$> ids.
Proof.
  intros Hf Hids Hl. apply (StronglySorted_unique_strong connection_le).
  - intros a b Ha Hb. rewrite merge_sort_Permutation, Hl in Ha. apply list_elem_of_fmap in Ha as (i & -> & Hi).
    apply list_elem_of_fmap in Hb as (j & -> & Hj). unfold connection_le. rewrite !Hf by done.
    intros. by replace i with j by lia.
  - apply StronglySorted_merge_sort; apply _.
  - clear Hl. induction Hids as [| i ids Hs IH Hi]; [constructor |]. cbn. constructor.
    + apply IH. intros id Hid. apply Hf. by right.
    + apply Forall_fmap, Forall_forall. intros j Hj. pose proof (proj1 (Forall_forall _ _) Hi j Hj) as Hlt.
      unfold connection_le. cbn. rewrite !Hf; [lia | by right | left].
  - by rewrite merge_sort_Permutation.
Qed.

Lemma seqZ_sorted m n : StronglySorted Z.lt (seqZ m n).
Proof.
  destruct (Z.lt_ge_cases n 0) as [Hn | Hn]; [rewrite seqZ_nil by lia; constructor |].
  revert m. pattern n. apply natlike_ind; [constructor | | done]. intros k Hk IH m.
  rewrite seqZ_cons by lia. constructor.
  - replace (Z.pred (Z.succ k)) with k by lia. apply IH.
  - apply Forall_forall. intros x Hx%elem_of_seqZ. lia.
Qed.

(** The record of a connection that ends. *)
Definition ended_record (args : SlowArgs) (host : string) (ios : Z -> SlowIo) (id : Z) : SlowRecord :=
  match slow_one id args host (ios id) with
  | Some (r, _) => r
  | None => {| connection := id; stage_name := ""; elapsed := 0; slow_outcome := ""; slow_error := None |}
  end.

Definition ends (args : SlowArgs) (host : string) (ios : Z -> SlowIo) (id : Z) : Prop :=
  is_Some (slow_one id args host (ios id)).

Lemma mapM_ended args host ios order :
  Forall (ends args host ios) order ->
  mapM (fun id => fst <$> slow_one id args host (ios id)) order = Some (ended_record args host ios <$> order).
Proof.
  intros Horder. apply mapM_Some_2. induction Horder as [| id order [[r sent] Hr] Ho IH]; [constructor |].
  cbn. constructor; [| done]. unfold ended_record. by rewrite Hr.
Qed.

Lemma mapM_ends args host ios order ended :
  mapM (fun id => fst <$> slow_one id args host (ios id)) order = Some ended ->
  Forall (ends args host ios) order.
Proof.
  intros H%mapM_Some_1. induction H as [| id r order ended Hr H IH]; [constructor |]. constructor; [| done].
  unfold ends. by destruct (slow_one id args host (ios id)).
Qed.

Lemma ended_record_ok args host ios id :
  ends args host ios id ->
  (ended_record args host ios id).(connection) = id /\
  ((ended_record args host ios id).(slow_error) = None ->
   (ended_record args host ios id).(slow_outcome) = "completed").
Proof.
  intros [[r sent] Hr]. unfold ended_record. rewrite Hr. split; [by eapply slow_one_id |].
  unfold slow_one in Hr. destruct (converse _ _ _) as [[[[u | e] t] s] |]; [..| done]; by injection Hr as <- _.
Qed.

Lemma length_filter_le {A} (P Q : A -> Prop) `{forall x, Decision (P x)} `{forall x, Decision (Q x)} (l : list A) :
  Forall (fun x => P x -> Q x) l -> (length (filter P l) <= length (filter Q l))%nat.
Proof.
  induction 1 as [| x l Hx Hl IH]; [done |]. rewrite !filter_cons.
  repeat case_decide; simpl; try lia; tauto.
Qed.

(** The summary of a slow run does not depend on the order in which its
    connections end.  When all connections of the run have ended, in any order,
    the records are those of the connections 0, 1, ... in that order; every
    connection is counted once as completed or as an error; and only those
    that were refused are not counted as connected. *)
Theorem slow_run_summary (args : SlowArgs) (ios : Z -> SlowIo) (order : list Z) (s : SlowSummary) :
  0 <= args.(connections) -> order ≡ₚ seqZ 0 args.(connections) ->
  slow_run args ios order = Some (Ok s) ->
  s.(requested) = args.(connections) /\
  (connection <$> s.(slow_records)) = seqZ 0 args.(connections) /\
  s.(completed) + s.(slow_errors) = args.(connections) /\
  s.(completed) <= s.(connected) <= args.(connections) /\
  forall order', order' ≡ₚ seqZ 0 args.(connections) -> slow_run args ios order' = Some (Ok s).
Proof.
  intros Hn Horder. unfold slow_run.
  destruct (split_target (target args)) as [[host p] | e]; [| done].
  destruct (if bool_decide (stage args = Tcp) then _ else _); [| done].
  destruct (mapM _ order) as [ended |] eqn:Hended; [| done]. intros [= <-].
  apply mapM_ends in Hended as Hends. rewrite mapM_ended in Hended by done. injection Hended as <-.
  assert (Forall (ends args host ios) (seqZ 0 (connections args))) as Hall by (by rewrite <- Horder).
  assert (forall o, o ≡ₚ seqZ 0 (connections args) ->
    merge_sort connection_le (ended_record args host ios <$> o) =
    ended_record args host ios <$> seqZ 0 (connections args)) as Hsort.
  { intros o Ho. apply sorted_by_connection; [| apply seqZ_sorted | by rewrite Ho].
    intros id Hid. apply ended_record_ok. by eapply (proj1 (Forall_forall _ _) Hall). }
  unfold slow_summary. cbn [requested slow_records completed slow_errors connected].
  rewrite (Hsort order Horder). set (rs := ended_record args host ios <$> seqZ 0 (connections args)).
  assert (Z.of_nat (length rs) = connections args) as Hlen.
  { unfold rs. rewrite length_fmap, length_seqZ. lia. }
  split_and!; [done | | lia | | | ].
  - unfold rs. rewrite <- list_fmap_compose. transitivity (id <$> seqZ 0 (connections args)); [| apply list_fmap_id].
    apply list_fmap_ext. intros i x Hx. apply ended_record_ok.
    eapply (proj1 (Forall_forall _ _) Hall), list_elem_of_lookup_2, Hx.
  - apply inj_le, length_filter_le. unfold rs. apply Forall_fmap, (Forall_impl _ _ _ Hall). intros id Hid Hnone.
    cbn in *. by rewrite (proj2 (ended_record_ok _ _ _ _ Hid) Hnone).
  - rewrite <- Hlen. apply inj_le, length_filter.
  - intros order' Horder'. rewrite mapM_ended by (by rewrite Horder'). cbn [mbind option_bind].
    by rewrite (Hsort order' Horder').
Qed.

(** The public edge named with its usual port is refused.  A URL parser that
    follows the URL standard reports no port for the default port of the
    scheme; the target's port is asked of a parsed [https] URL, so a target
    that ends in [:443], as in the examples of the documentation, never
    connects. *)
Theorem default_port_refused (args : SlowArgs) (ios : Z -> SlowIo) (order : list Z) (host : string) :
  parse_url ("https://" +:+ args.(target)) = Ok {| host_str := Some host; port := None |} ->
  slow_run args ios order = Some (Err "target has no port").
Proof. intros Hurl. unfold slow_run, split_target. by rewrite Hurl. Qed.
End Slow.

(** ** [main] *)

Section Main.
(** The file system, the two subcommands, and the JSON of what they return. *)
Context {Sum Slow : Type}.
Context (read_file : string -> result string bytes).
Context (run : RunArgs -> result string (Sum * list RequestRecord)) (slow : SlowArgs -> result string Slow).
Context (show_record : RequestRecord -> result string string).
Context (show_summary : Sum -> result string string) (show_slow : Slow -> result string string).

(** [for r in records { eprintln!(..)? }]: the lines printed so far. *)
Fixpoint print_records (records : list RequestRecord) : result string unit * list string :=
  match records with
  | [] => (Ok tt, [])
  | r :: rest =>
      match show_record r with
      | Ok line => let '(res, lines) := print_records rest in (res, line :: lines)
      | Err e => (Err e, [])
      end
  end.

(** [real_main]: the result, standard output and standard error. *)
Definition real_main (args : list string) : result string unit * list string * list string :=
  match parse_from read_file args with
  | Err e => (Err e, [], [])
  | Ok Help => (Ok tt, [HELP], [])
  | Ok (Run a) =>
      match run a with
      | Err e => (Err e, [], [])
      | Ok (summary, records) =>
          let '(r, shown) := if a.(jsonl) then print_records records else (Ok tt, []) in
          match r with
          | Err e => (Err e, [], shown)
          | Ok _ =>
              match show_summary summary with
              | Ok doc => (Ok tt, [doc], shown)
              | Err e => (Err e, [], shown)
              end
          end
      end
  | Ok (Slowloris a) =>
      match slow a with
      | Err e => (Err e, [], [])
      | Ok summary =>
          match show_slow summary with
          | Ok doc => (Ok tt, [doc], [])
          | Err e => (Err e, [], [])
          end
      end
  end.

(** [main]: exit code, standard output and standard error. *)
Definition main_ (args : list string) : Z * list string * list string :=
  let '(r, stdout, stderr) := real_main args in
  match r with
  | Ok _ => (0, stdout, stderr)
  | Err e => (2, stdout, stderr ++ ["loadgen: " +:+ e])
  end.

(** Standard output stays machine-readable: it carries one document when the
    run succeeds, the help when asked for, and nothing when anything fails; the
    exit code is 2 exactly then, and the last line of standard error says why. *)
Theorem stdout_is_one_document (args : list string) :
  let '(code, stdout, stderr) := main_ args in
  (code = 0 /\ exists doc, stdout = [doc]) \/
  (code = 2 /\ stdout = [] /\ exists e lines, stderr = lines ++ ["loadgen: " +:+ e]).
Proof.
  unfold main_, real_main.
  destruct (parse_from read_file args) as [[a | a |] | e]; [| | by left; eauto | by right; eauto].
  - destruct (run a) as [[summary records] | e]; [| by right; eauto].
    destruct (if jsonl a then _ else _) as [[u | e] shown]; [| by right; eauto].
    destruct (show_summary summary); [by left; eauto | by right; eauto].
  - destruct (slow a) as [summary | e]; [| by right; eauto].
    destruct (show_slow summary); [by left; eauto | by right; eauto].
Qed.
End Main.

(** ** Witnesses *)

Definition slow_args (s : SlowStage) : SlowArgs :=
  set_slow_stage s (set_slow_connections 2 (set_slow_target "127.0.0.1:18444" slow_default)).

(** A connection that is opened at 1, and one that is refused. *)
Definition open_io (ws : list (Duration * result string unit)) : SlowIo :=
  {| opened := 0; tcp_connected := Ok 1; nodelay := Ok tt; server_name := Ok tt; handshake := Ok 2; writes := ws |}.
Definition refused_io : SlowIo :=
  {| opened := 0; tcp_connected := Err "refused"; nodelay := Ok tt; server_name := Ok tt; handshake := Ok 2;
     writes := [] |}.

Definition toy_url (s : string) : result string Url :=
  if String.eqb s "https://api.example.com:443"
  then Ok {| host_str := Some "api.example.com"; port := None |}
  else Ok {| host_str := Some "127.0.0.1"; port := Some 18444 |}.

Lemma slow_connection_exact_witness :
  exists r sent, slow_one toy_ms 0 (slow_args H2Preface) "127.0.0.1" (open_io [(1, Ok tt)]) = Some (r, sent) /\
    concat (snd <$> sent) = h2_preface /\ r.(slow_outcome) = "completed".
Proof.
  destruct (slow_one toy_ms 0 (slow_args H2Preface) "127.0.0.1" (open_io [(1, Ok tt)])) as [[r sent] |] eqn:Hr;
    [| discriminate Hr].
  exists r, sent. split; [done |].
  assert (slow_error r = None) as Hnone by (by injection Hr as <- _).
  destruct (slow_connection_exact toy_ms 0 (slow_args H2Preface) "127.0.0.1" (open_io [(1, Ok tt)]) r sent)
    as (_ & Hc & _ & Hall & _); [| exact Hr |].
  - split; [done |]. split; [done |]. by repeat constructor.
  - split; [exact (Hall Hnone) | by apply Hc].
Defined.

Lemma slow_run_summary_witness :
  exists s, slow_run toy_ms toy_url (fun _ => Err "") (Cert := unit) [] (fun _ => []) (fun l _ => Ok l)
      (slow_args Tcp) (fun id => if id =? 0 then open_io [] else refused_io) [1; 0] = Some (Ok s) /\
    (connection <$> s.(slow_records)) = [0; 1] /\ s.(completed) + s.(slow_errors) = 2.
Proof.
  eexists. split; [reflexivity |].
  refine (_ (slow_run_summary toy_ms toy_url (fun _ => Err "") (Cert := unit) [] (fun _ => []) (fun l _ => Ok l)
    (slow_args Tcp) (fun id => if id =? 0 then open_io [] else refused_io) [1; 0] _ _ _ eq_refl)).
  - intros (_ & H1 & H2 & _). split; [exact H1 | exact H2].
  - done.
  - by apply Permutation_swap.
Defined.

Lemma default_port_refused_witness :
  slow_run toy_ms toy_url (fun _ => Err "") (Cert := unit) [] (fun _ => []) (fun l _ => Ok l)
    (set_slow_target "api.example.com:443" (slow_args Header)) (fun _ => refused_io) [0; 1]
  = Some (Err "target has no port").
Proof. apply (default_port_refused _ _ _ _ _ _ _ _ _ "api.example.com"). reflexivity. Defined.
